(* ===== verification/_CoqProject ===== *)
-Q . S2P
Prelude.v
BTreeMap.v
Readiness.v
HpackInteger.v
HpackHuffman.v
HpackTable.v
HpackDecoder.v
HpackEncoder.v
HpackSync.v
H2Parser.v
H2Serializer.v
H2FlowControl.v
H2ControlTx.v
H2HeaderReassembly.v
H2StreamTable.v
H2FloodDetector.v
H2Scheduler.v
H2Drain.v
ProxyProtocol.v
Buffers.v
PoolCheckout.v
Retry.v
Timer.v
TimerSpec.v
TimerContainers.v
Backend.v
AffinityHash.v
LoadBalancing.v
RoundRobinSpec.v
Maglev.v
MaglevSpec.v
PolicySpec.v
LoadSpec.v
Policies.v
PolicyLaws.v
BackendList.v
SiblingSpec.v
BackendListSpec.v
SelectionSpec.v
PatternTrie.v
PatternTrieSpec.v
TcpPreread.v
RouterRewrite.v
Router.v
RouterFrontend.v
RouteTable.v
RouteTableSpec.v
SniTable.v
SniTableSpec.v
SniPreread.v
SniPrereadSpec.v
