(* ===== verification/Prelude.v ===== *)
(** * Sozu: a verification development

    Sozu is a reverse proxy: a main process configures workers over a command
    channel, and a worker runs an event loop over HTTP/1, HTTP/2, TCP and UDP
    sessions.  This development models parts of the worker, and of the command
    library it shares with the main process, as executable definitions, and
    proves what makes them correct.  Paths are relative to [src/].

    ** The parts and the files that model them

    - Vocabulary.  [Prelude]: results, outcomes with panics, machine widths,
      octets.  [BTreeMap]: the ordered maps the code iterates.  [Readiness]:
      the event words of [command/src/ready.rs] and [Readiness] of
      [lib/src/lib.rs].
    - HPACK, [lib/src/protocol/mux/hpack/].  [HpackInteger] ([mod.rs]),
      [HpackHuffman] ([huffman.rs]), [HpackTable] ([table.rs]), [HpackDecoder]
      ([decoder.rs]), [HpackEncoder] ([encoder.rs]); [HpackSync] composes the
      two ends of a connection.
    - HTTP/2 frames, [lib/src/protocol/mux/].  [H2Parser] ([parser.rs]) and
      [H2Serializer] ([serializer.rs]); [H2HeaderReassembly]
      ([h2_header_reassembly.rs]) feeds the decoder of HPACK.
    - HTTP/2 connections, same directory.  [H2FlowControl]
      ([h2_flow_control.rs]) and [H2ControlTx] ([h2_control_tx.rs]) queue
      frames that the serializer writes; [H2StreamTable]
      ([h2_stream_table.rs]); [H2FloodDetector] ([h2_flood_detector.rs]);
      [H2Scheduler] ([h2_scheduler.rs]); [H2Drain] ([h2_drain.rs] and
      [h2_close.rs]).
    - Routing, [lib/src/router/].  [PatternTrie] ([pattern_trie.rs]) with
      [PatternTrieSpec]; [RouterRewrite], [Router], [RouterFrontend] and
      [RouteTable] ([mod.rs]) with [RouteTableSpec].
    - TCP sessions.  [ProxyProtocol] ([lib/src/protocol/proxy_protocol/]: the
      header, its parser, and the state that expects one); [TcpPreread],
      [SniPreread] ([lib/src/protocol/tcp_preread/]: the ClientHello parser,
      the deciding core, the session state); [SniTable] ([lib/src/tcp.rs]: the
      frontends of a listener, over the trie of the router, and
      [validate_sni_pattern] of [command/src/config.rs]); their theorems are in
      [SniTableSpec] and [SniPrereadSpec].
    - Memory and time.  [Buffers] ([command/src/buffer/]), [PoolCheckout]
      ([Checkout] of [lib/src/pool.rs]), [Timer] ([lib/src/timer.rs]: the wheel
      and the containers of the sessions) with [TimerSpec] and
      [TimerContainers].
    - Backends.  [Retry] ([lib/src/retry.rs]); [Backend] (the backend, its
      health and its average, of [lib/src/backends.rs] and [lib/src/lib.rs]);
      [AffinityHash], [LoadBalancing] and [Maglev]
      ([lib/src/load_balancing.rs]: hashes and shards, the candidates and the
      policies, the Maglev table), with [RoundRobinSpec], [MaglevSpec],
      [PolicySpec] and [LoadSpec]; [Policies] (the trait
      [LoadBalancingAlgorithm] as a class, its six implementations and the
      boxed one), whose [PolicyLaws] are what a backend list relies on;
      [BackendList] ([BackendList] of [lib/src/backends.rs]) with
      [SiblingSpec], [BackendListSpec] and [SelectionSpec].

    ** How code becomes definitions

    A struct is a record with the fields of the source, an enum an inductive
    type, and a method that mutates its receiver a function that returns the
    new one.  Machine integers are [Z] with the width written out where it
    matters; lengths and offsets are [nat]; octets and strings are [list Z].
    [outcome E A] is a computation that returns ([Val]), returns an error
    ([Fails]) or panics ([Panic]): an index out of range, an arithmetic
    overflow, an [expect] and a failed [debug_assert!] are all [Panic], so that
    a theorem that a function is a [Val] covers the assertions of a debug
    build.  [checked] is an outcome without errors.

    What is not in the repository is a class with its documented behaviour as
    laws, and an instance of the laws for the examples: nom ([Nom],
    [NomStreaming]), kawa ([Kawa]), cookie_factory ([CookieFactory]), regex
    ([RegexCrate]), idna and [regex::escape] ([HostCrates]), slab ([SlabCrate]),
    rand ([RandCrate]), and the logarithm and exponential of the C library
    ([Libm]).  The clock and what a socket read are arguments.  [f64] is the
    binary64 of the Standard Library's [SpecFloat].

    Loops that are not structural have fuel.  In the parsers, the trie and the
    templates it is the length of what is left to read, plus one, which is
    enough since each turn consumes at least one octet, and out of fuel they
    panic, so that a theorem that excludes a panic shows that the fuel is
    enough.  The HPACK decoder takes the length of its block; out of fuel it
    would answer [Truncated], and [HpackDecoder.decode_loop_fuel] shows that
    more fuel never changes its answer.  Its eviction loop has one turn per
    entry and one more; the integer encoder ten turns, for the 64 bits of a
    [usize] seven at a time.  A poll of the timer wheel has, for each tick, one
    turn and one per entry; [TimerSpec.timer_refines] shows it is enough.
    The loops that build a Maglev table have the size of the table, a walk
    around a ring of siblings the length of the list, and the search for a
    prime its starting point, there being a prime below its double; out of
    fuel they panic.  The
    invariant of a backend list carries the number of selections for which
    round robin's running weights cannot overflow ([room]), and a selection
    uses one.

    ** What the theorems show

    - HPACK: integers and Huffman strings round trip, and an integer is refused
      exactly when its first five octets do not end it; the byte buffer of the
      dynamic table refines the list of RFC 7541; a decoder in sync with an
      encoder reads back every field and stays in sync; untrusted blocks keep
      the table within its bound.
    - Frames: on any octets the parser does not panic and consumes the declared
      payload; each serialized frame parses back; a block cut into CONTINUATION
      frames decodes to its fields.
    - Connections: no sequence of operations fails an assertion of the flow
      control, the reset queue, the stream table, the scheduler or the flood
      detector; drained frames are exactly a prefix of the queue; the verdict
      on resets is exact for a whole history; an interleaving stream is not
      starved; the deadline of a drain is armed once.
    - Routing: under removals of well-formed hostnames the trie refines a finite
      map, its three lookups agree, and a refused key leaves no trace; no
      configuration breaks the table, and a table whose wildcards have the star
      as first label serves the rule of a reference order, the choice among the
      rules of a hostname included ([Router.tree_choice]); rules are local to
      their hostname; header predicates have a canonical form; the last HSTS
      patch wins.
    - TCP: any addition and removal of frontends refines a map of server names
      without conflicts; a ClientHello is parsed however it is cut and its
      verdict is final; the core waits with one deadline and then repeats one
      verdict; a hello is routed to the cluster of its name and ALPN offer; a
      waiting session loses no octet and stays within its bound.
    - PROXY protocol: a header round trips up to what the wire carries; a session
      reads a header of at most 232 octets exactly, and closes on a longer one.
    - Buffers: the fixed buffer refines a byte queue, and so do the growable and
      the pooled ones but for the edits [growable_op_ok] and [checkout_op_ok]
      leave out, which lose bytes or write outside the memory.
    - Timers: the wheel refines a map of pending timeouts, the handle of a
      delivered timeout cancels nothing, the next poll is never announced late,
      and each pending timeout belongs to exactly one container.
    - Backends: the policies satisfy the laws of [PolicyLaws]: they take a
      candidate, fail no assertion and keep their invariant; round robin, from
      zero running weights, and random selection share exactly by weight, the
      Maglev table has the slots of each weight, Maglev, rendezvous hashing and
      shards move no key they need not, the least loaded is the lightest.  A
      backend list refines the map of its backends, passes the sweep over its
      invariants, and, for a key whose scores exist, selects an eligible
      backend of the first tier that has one, whatever its policy, and changes
      nothing but its buffers, the state of the policy, the averages and the
      fail-open latch.
    - Faults: some theorems state what the code does where it departs from its
      intent ([RouteTableSpec.leading_dot_front],
      [SniPrereadSpec.hup_after_route], [SniTableSpec.tags_key_collision],
      [Buffers.growable_edit_faults], [PoolCheckout.checkout_edit_faults],
      [TimerSpec.stale_slot_early], [PolicySpec.hrw_unit_one],
      [RoundRobinSpec.round_robin_after_departure]).

    ** What is not modelled

    - The state machine of an HTTP/2 connection ([h2.rs], [h2_transmit.rs],
      [h2_output.rs], [h2_write_pass.rs]) and the multiplexer around it: they
      drive the components above over kawa's buffers and are the next to model.
    - HTTP/1 and the conversion to kawa ([kawa_h1/], [pkawa.rs],
      [converter.rs]): they work on the representation of the crate kawa.
    - The map of clusters to backend lists ([BackendMap]), the UDP flow
      manager, the states that relay and send a PROXY header, and the
      configuration state of [command/src/state.rs]: pure enough to be
      modelled, not yet done.
    - Sockets, TLS and the event loop ([server.rs], [socket.rs], [https.rs],
      [splice.rs] and the like), processes and the command line ([bin/]): I/O
      over mio, rustls and the operating system.
    - Metrics and logs: they do not change the modelled state. *)

From stdpp Require Export prelude gmap strings list fin_maps.
From Stdlib Require Export ZArith Lia Sorting.Sorted.

Global Open Scope Z_scope.
#[export] Set Warnings "-clear-no-such-hyp".

(** ** Fallible computations

    Rust's [Result<A, E>] with its [?] operator. *)

Inductive res (E A : Type) : Type :=
| Ok (a : A)
| Err (e : E).
Arguments Ok {E A} a.
Arguments Err {E A} e.

Global Instance res_ret E : MRet (res E) := fun A a => Ok a.
Global Instance res_bind E : MBind (res E) := fun A B f m =>
  match m with Ok a => f a | Err e => Err e end.
Global Instance res_fmap E : FMap (res E) := fun A B f m =>
  match m with Ok a => Ok (f a) | Err e => Err e end.

Global Instance res_eq_dec E A `{EqDecision E, EqDecision A} : EqDecision (res E A).
Proof. solve_decision. Defined.

Definition ok_or {E A} (e : E) (o : option A) : res E A :=
  match o with Some a => Ok a | None => Err e end.

Definition map_err {E F A} (f : E -> F) (r : res E A) : res F A :=
  match r with Ok a => Ok a | Err e => Err (f e) end.

(** Code that can panic: a value, an error it returns, or a panic (a failed
    [debug_assert!], an index out of range, an arithmetic overflow of a debug
    build). *)
Inductive outcome (E A : Type) : Type :=
| Val (a : A)
| Fails (e : E)
| Panic.
Arguments Val {E A} a.
Arguments Fails {E A} e.
Arguments Panic {E A}.

Global Instance outcome_ret E : MRet (outcome E) := fun A => Val.
Global Instance outcome_bind E : MBind (outcome E) := fun A B f m =>
  match m with Val a => f a | Fails e => Fails e | Panic => Panic end.

(** Code that returns no error, but can panic. *)
Abbreviation checked A := (outcome Empty_set A).

Definition debug_assert {E} (b : bool) : outcome E unit := if b then Val tt else Panic.

Lemma debug_assert_true {E} (b : bool) : b = true -> debug_assert b = @Val E unit tt.
Proof. by intros ->. Qed.

(** The first assertion of a computation holds, by [tac]. *)
Ltac first_assert m :=
  lazymatch m with
  | mbind _ (debug_assert ?b) => b
  | mbind _ ?m => first_assert m
  end.
Tactic Notation "run_assert" "by" tactic3(tac) :=
  lazymatch goal with
  | |- ?m = _ =>
      let b := first_assert m in
      rewrite (debug_assert_true b) by tac; cbn [mbind outcome_bind]
  end.

(** [a[i]], which panics out of range. *)
Definition index {E A} (l : list A) (i : nat) : outcome E A :=
  match l !! i with Some x => Val x | None => Panic end.

Lemma index_Some {E A} (l : list A) i x : l !! i = Some x -> index l i = @Val E A x.
Proof. intros H. unfold index. by rewrite H. Qed.

Lemma bind_Ok {E A B} (f : A -> res E B) (m : res E A) b :
  (m ≫= f) = Ok b <-> exists a, m = Ok a /\ f a = Ok b.
Proof.
  unfold mbind, res_bind. destruct m; split; intros H.
  - eauto.
  - destruct H as (? & [= ->] & H); done.
  - done.
  - destruct H as (? & [=] & _).
Qed.

Lemma bind_Val {E A B} (f : A -> outcome E B) (m : outcome E A) b :
  m ≫= f = Val b -> exists a, m = Val a /\ f a = Val b.
Proof. destruct m; cbn; [by eauto | done..]. Qed.

(** ** Machine integers

    A [w]-bit unsigned integer is a [Z] in [[0, 2^w)]; casts truncate. *)

Definition wrap (w z : Z) : Z := z mod 2 ^ w.
Abbreviation to_u8 := (wrap 8).
Abbreviation to_u16 := (wrap 16).
Abbreviation to_u32 := (wrap 32).
Abbreviation to_u64 := (wrap 64).

Definition uint_ok (w z : Z) : Prop := 0 <= z < 2 ^ w.
Abbreviation u8_ok := (uint_ok 8).
Abbreviation u16_ok := (uint_ok 16).
Abbreviation u24_ok := (uint_ok 24).
Abbreviation u32_ok := (uint_ok 32).
Abbreviation u64_ok := (uint_ok 64).

Global Instance uint_ok_dec w z : Decision (uint_ok w z).
Proof. unfold uint_ok. apply _. Defined.

Definition bytes_ok (l : list Z) : Prop := Forall u8_ok l.

(** Signed 32-bit integers. *)
Definition I32_MIN : Z := - 2 ^ 31.
Definition I32_MAX : Z := 2 ^ 31 - 1.
Definition U32_MAX : Z := 2 ^ 32 - 1.
Definition USIZE_MAX : Z := 2 ^ 64 - 1.
Definition U64_MAX : Z := 2 ^ 64 - 1.
Definition i32_ok (z : Z) : Prop := I32_MIN <= z <= I32_MAX.

Global Instance i32_ok_dec z : Decision (i32_ok z).
Proof. unfold i32_ok. apply _. Defined.

(** [checked_add], [saturating_sub] of [i32], and the saturating operations of
    the unsigned types. *)
Definition i32_checked_add (a b : Z) : option Z :=
  if (I32_MIN <=? a + b) && (a + b <=? I32_MAX) then Some (a + b) else None.
Definition i32_saturating_sub (a b : Z) : Z := Z.max I32_MIN (Z.min I32_MAX (a - b)).
Definition u32_saturating_add (a b : Z) : Z := Z.min U32_MAX (a + b).
Definition u64_saturating_add (a b : Z) : Z := Z.min U64_MAX (a + b).
Definition u64_saturating_mul (a b : Z) : Z := Z.min U64_MAX (a * b).
Definition u64_saturating_sub (a b : Z) : Z := Z.max 0 (a - b).

(** The last instant a [Timespec] of signed 64-bit seconds can hold. *)
Definition INSTANT_MAX : Z := (2 ^ 63 - 1) * 1000000000 + 999999999.

(** [now + timeout], which panics past the last instant. *)
Definition instant_add (now timeout : Z) : checked Z :=
  if now + timeout <=? INSTANT_MAX then Val (now + timeout) else Panic.

(** [x += 1] of a [u32], which a debug build checks. *)
Definition u32_incr (x : Z) : checked Z :=
  _ ← debug_assert (x <? U32_MAX);
  Val (x + 1).

(** Turns every width condition into plain inequalities for [lia]. *)
Ltac widths :=
  unfold uint_ok in *;
  change (2 ^ 8) with 256 in *;
  change (2 ^ 16) with 65536 in *;
  change (2 ^ 24) with 16777216 in *;
  change (2 ^ 32) with 4294967296 in *;
  change (2 ^ 64) with 18446744073709551616 in *.

(** Arithmetic with division and remainder by literals. *)
Ltac zify_div := Z.div_mod_to_equations; lia.

(** Cases on every boolean comparison of a goal or hypothesis. *)
Ltac cmp_step :=
  match goal with
  | |- context [(?a <? ?b)%Z] => destruct (Z.ltb_spec a b)
  | |- context [(?a <=? ?b)%Z] => destruct (Z.leb_spec a b)
  | |- context [(?a =? ?b)%Z] => destruct (Z.eqb_spec a b)
  | H : context [(?a <? ?b)%Z] |- _ => destruct (Z.ltb_spec a b)
  | H : context [(?a <=? ?b)%Z] |- _ => destruct (Z.leb_spec a b)
  | H : context [(?a =? ?b)%Z] |- _ => destruct (Z.eqb_spec a b)
  end.
Ltac cmps := repeat (cmp_step; try lia).

Lemma wrap_small w z : uint_ok w z -> wrap w z = z.
Proof. intros H. apply Z.mod_small, H. Qed.

Lemma wrap_ok w z : 0 <= w -> uint_ok w (wrap w z).
Proof. intros Hw. apply Z.mod_pos_bound, Z.pow_pos_nonneg; lia. Qed.

Lemma land_mask_mod z w : 0 <= w -> Z.land z (2 ^ w - 1) = z mod 2 ^ w.
Proof.
  intros Hw. rewrite <- Z.land_ones by lia. f_equal. rewrite Z.ones_equiv. lia.
Qed.

(** Disjoint bit ranges: [lor] of a high part and a low part is their sum. *)
Lemma land_shiftl_low a b w :
  0 <= w -> 0 <= b < 2 ^ w -> Z.land (Z.shiftl a w) b = 0.
Proof.
  intros Hw Hb. apply Z.bits_inj'. intros n Hn. rewrite Z.land_spec, Z.bits_0.
  destruct (Z.ltb_spec n w).
  - by rewrite Z.shiftl_spec_low.
  - rewrite <- (Z.mod_small b (2 ^ w)) by done.
    rewrite Z.mod_pow2_bits_high by lia. apply andb_false_r.
Qed.

Lemma lor_shiftl_add a b w :
  0 <= w -> 0 <= b < 2 ^ w -> Z.lor (Z.shiftl a w) b = a * 2 ^ w + b.
Proof.
  intros Hw Hb. rewrite <- Z.shiftl_mul_pow2 by lia.
  symmetry. apply Z.add_nocarry_lor, land_shiftl_low; done.
Qed.

(** ** Lists *)

Lemma bytes_ok_app l1 l2 : bytes_ok (l1 ++ l2) <-> bytes_ok l1 /\ bytes_ok l2.
Proof. apply Forall_app. Qed.

Lemma bytes_ok_take n l : bytes_ok l -> bytes_ok (take n l).
Proof. apply Forall_take. Qed.

Lemma bytes_ok_drop n l : bytes_ok l -> bytes_ok (drop n l).
Proof. apply Forall_drop. Qed.

(** [&l[start..end]]: the slice of a buffer between two positions. *)
Definition slice {A} (l : list A) (start stop : nat) : list A :=
  take (stop - start) (drop start l).

Lemma slice_app_mid {A} (l1 l2 l3 : list A) (a b : nat) :
  a = length l1 -> b = (length l1 + length l2)%nat ->
  slice (l1 ++ l2 ++ l3) a b = l2.
Proof.
  intros -> ->. unfold slice. rewrite drop_app_length.
  replace (length l1 + length l2 - length l1)%nat with (length l2) by lia.
  apply take_app_length.
Qed.

Lemma slice_app_l {A} (l1 l2 : list A) (a b : nat) :
  (b <= length l1)%nat -> slice (l1 ++ l2) a b = slice l1 a b.
Proof.
  intros Hb. unfold slice. destruct (decide (a <= b)%nat) as [Hab|Hab].
  - rewrite drop_app_le by lia. rewrite take_app_le; [done|].
    rewrite length_drop. lia.
  - by replace (b - a)%nat with 0%nat by lia.
Qed.

Lemma filter_ext_in {A} (P Q : A -> Prop) `{forall x, Decision (P x)}
    `{forall x, Decision (Q x)} (l : list A) :
  (forall x, x ∈ l -> P x <-> Q x) -> filter P l = filter Q l.
Proof.
  induction l as [| x l IH]; intros HPQ; [done |]. rewrite !filter_cons.
  rewrite IH by (intros y Hy; apply HPQ; by right).
  assert (P x <-> Q x) by (apply HPQ; left). repeat case_decide; tauto || done.
Qed.

Lemma NoDup_snoc {A} (l : list A) x : NoDup l -> x ∉ l -> NoDup (l ++ [x]).
Proof.
  intros Hl Hx. apply NoDup_app. split; [done |]. split; [| apply NoDup_singleton].
  intros y Hy. rewrite list_elem_of_singleton. by intros ->.
Qed.

Lemma map_size_delete_le {A} (m : gmap Z A) k : (size (delete k m) <= size m)%nat.
Proof. rewrite map_size_delete. destruct (m !! k); cbn; lia. Qed.

Lemma filter_all {A} (P : A -> Prop) `{forall x, Decision (P x)} l :
  Forall P l -> filter P l = l.
Proof.
  induction 1 as [| x l Hx Hl IH]; [done |]. by rewrite filter_cons, decide_True, IH.
Qed.

Lemma filter_none {A} (P : A -> Prop) `{forall x, Decision (P x)} l :
  Forall (fun x => ~ P x) l -> filter P l = [].
Proof.
  induction 1 as [| x l Hx Hl IH]; [done |]. by rewrite filter_cons, decide_False, IH.
Qed.

Lemma StronglySorted_filter {A} (R : relation A) (P : A -> Prop) `{forall x, Decision (P x)} l :
  StronglySorted R l -> StronglySorted R (filter P l).
Proof.
  induction 1 as [| x l Hl IH Hx]; [constructor |]. rewrite filter_cons. case_decide; [| done].
  constructor; [done |]. apply Forall_forall. intros y [_ Hy]%list_elem_of_filter.
  rewrite Forall_forall in Hx. by apply Hx.
Qed.

Lemma bind_ext_in {A B} (f g : A -> list B) l :
  (forall x, x ∈ l -> f x = g x) -> l ≫= f = l ≫= g.
Proof.
  induction l as [| x l IH]; intros H; [done |]. rewrite !bind_cons. f_equal; [apply H; left |].
  apply IH. intros y Hy. apply H. by right.
Qed.

Lemma forallb_range (P : Z -> bool) (n : nat) (z : Z) :
  forallb P (Z.of_nat <$> seq 0 n) = true -> 0 <= z < Z.of_nat n -> P z = true.
Proof.
  intros H Hz. rewrite forallb_forall in H. apply H.
  apply list_elem_of_In, list_elem_of_fmap. exists (Z.to_nat z).
  split; [lia|]. apply elem_of_seq. lia.
Qed.

(** ** Octet strings *)

(** The octets of a Rust byte-string literal [b"..."]. *)
Fixpoint bstr (s : string) : list Z :=
  match s with
  | EmptyString => []
  | String c s => Z.of_N (Ascii.N_of_ascii c) :: bstr s
  end.

Lemma bstr_ok s : bytes_ok (bstr s).
Proof.
  induction s as [|c s IH]; [by constructor|]. constructor; [|done].
  pose proof (Ascii.N_ascii_bounded c). unfold uint_ok. lia.
Qed.

(** ** Big-endian integers ([to_be_bytes], [from_be_bytes]) *)

Fixpoint be_bytes (n : nat) (z : Z) : list Z :=
  match n with
  | O => []
  | S n => to_u8 (z / 2 ^ (8 * Z.of_nat n)) :: be_bytes n z
  end.

Definition be_value (l : list Z) : Z := fold_left (fun acc b => acc * 256 + b) l 0.

Lemma length_be_bytes n z : length (be_bytes n z) = n.
Proof. induction n; simpl; congruence. Qed.

Lemma be_bytes_ok n z : bytes_ok (be_bytes n z).
Proof. induction n; constructor; [apply wrap_ok; lia | done]. Qed.

Lemma be_value_acc l a :
  fold_left (fun acc b => acc * 256 + b) l a = a * 256 ^ Z.of_nat (length l) + be_value l.
Proof.
  unfold be_value. revert a. induction l as [|b l IH]; intros a; cbn [fold_left length].
  { simpl. lia. }
  rewrite IH, (IH (0 * 256 + b)). rewrite Nat2Z.inj_succ, Z.pow_succ_r by lia. ring.
Qed.

Lemma be_value_cons b l : be_value (b :: l) = b * 256 ^ Z.of_nat (length l) + be_value l.
Proof. unfold be_value at 1. simpl. apply be_value_acc. Qed.

Lemma be_value_app l1 l2 :
  be_value (l1 ++ l2) = be_value l1 * 256 ^ Z.of_nat (length l2) + be_value l2.
Proof. unfold be_value at 1. rewrite fold_left_app. apply be_value_acc. Qed.

Lemma be_value_bound l :
  bytes_ok l -> 0 <= be_value l < 256 ^ Z.of_nat (length l).
Proof.
  induction 1 as [|b l Hb Hl IH]; [unfold be_value; simpl; lia|].
  rewrite be_value_cons. simpl length. rewrite Nat2Z.inj_succ, Z.pow_succ_r by lia.
  widths. nia.
Qed.

Lemma be_value_be_bytes n z : be_value (be_bytes n z) = z mod 2 ^ (8 * Z.of_nat n).
Proof.
  induction n as [|n IH]; [by rewrite Z.mod_1_r|].
  simpl be_bytes. rewrite be_value_cons, IH, length_be_bytes. unfold wrap.
  replace (8 * Z.of_nat (S n)) with (8 * Z.of_nat n + 8) by lia.
  rewrite Z.pow_add_r by lia.
  change 256 with (2 ^ 8). rewrite <- Z.pow_mul_r by lia.
  rewrite (Z.rem_mul_r z) by lia. ring.
Qed.

Lemma be_value_be_bytes_small n z :
  uint_ok (8 * Z.of_nat n) z -> be_value (be_bytes n z) = z.
Proof. intros. rewrite be_value_be_bytes. by apply Z.mod_small. Qed.

Lemma be_bytes_be_value l n :
  bytes_ok l -> length l = n -> be_bytes n (be_value l) = l.
Proof.
  intros Hl <-. induction Hl as [|b l Hb Hl IH]; [done|].
  simpl be_bytes. rewrite be_value_cons. pose proof (be_value_bound l Hl) as Hv.
  replace (256 ^ Z.of_nat (length l)) with (2 ^ (8 * Z.of_nat (length l))) in *
    by (rewrite Z.pow_mul_r by lia; done).
  f_equal.
  - rewrite Z.div_add_l, (Z.div_small (be_value l)), Z.add_0_r by lia. by apply wrap_small.
  - assert (Hgen : forall m k, (m <= length l)%nat ->
      be_bytes m (k * 2 ^ (8 * Z.of_nat (length l)) + be_value l) = be_bytes m (be_value l)).
    { induction m as [|m IHm]; intros k Hm; [done|]. simpl. rewrite IHm by lia. f_equal.
      unfold wrap. replace (8 * Z.of_nat (length l))
        with (8 * Z.of_nat (length l - S m) + 8 + 8 * Z.of_nat m) by lia.
      rewrite !Z.pow_add_r, !Z.mul_assoc, Z.div_add_l by lia.
      rewrite Z.add_comm. apply Z.mod_add. lia. }
    by rewrite Hgen.
Qed.

(** ** Bit strings, most significant bit first *)

Fixpoint bits_msb (n : nat) (z : Z) : list bool :=
  match n with
  | O => []
  | S n => Z.testbit z (Z.of_nat n) :: bits_msb n z
  end.

(** The bit string of an octet string. *)
Definition bits_of_bytes (l : list Z) : list bool := l ≫= bits_msb 8.

Lemma length_bits_msb n z : length (bits_msb n z) = n.
Proof. induction n; simpl; congruence. Qed.

Lemma bits_msb_mod n m z :
  (n <= m)%nat -> bits_msb n (z mod 2 ^ Z.of_nat m) = bits_msb n z.
Proof.
  induction n as [|n IH]; intros H; [done|]. simpl. rewrite IH by lia.
  by rewrite Z.mod_pow2_bits_low by lia.
Qed.

Lemma bits_msb_app n m a b :
  0 <= b < 2 ^ Z.of_nat m ->
  bits_msb (n + m) (a * 2 ^ Z.of_nat m + b) = bits_msb n a ++ bits_msb m b.
Proof.
  intros Hb. induction n as [|n IH]; simpl.
  - rewrite <- (bits_msb_mod m m (_ + _)) by lia.
    rewrite Z.add_comm, Z.mod_add, Z.mod_small by lia. done.
  - rewrite IH. f_equal. rewrite Nat2Z.inj_add.
    rewrite <- lor_shiftl_add by lia. rewrite Z.lor_spec, Z.shiftl_spec by lia.
    replace (Z.of_nat n + Z.of_nat m - Z.of_nat m) with (Z.of_nat n) by lia.
    rewrite <- (Z.mod_small b (2 ^ Z.of_nat m)) by done.
    rewrite Z.mod_pow2_bits_high by lia. apply orb_false_r.
Qed.

Lemma bits_msb_split n m z :
  bits_msb (n + m) z = bits_msb n (z / 2 ^ Z.of_nat m) ++ bits_msb m (z mod 2 ^ Z.of_nat m).
Proof.
  rewrite <- bits_msb_app by (apply Z.mod_pos_bound; lia).
  f_equal. rewrite Z.mul_comm. apply Z.div_mod. lia.
Qed.

Lemma bits_msb_inj n a b :
  0 <= a < 2 ^ Z.of_nat n -> 0 <= b < 2 ^ Z.of_nat n ->
  bits_msb n a = bits_msb n b -> a = b.
Proof.
  intros Ha Hb H. apply Z.bits_inj'. intros k Hk.
  destruct (Z.ltb_spec k (Z.of_nat n)) as [Hlt|Hge].
  - clear Ha Hb. induction n as [|n IH]; [lia|]. simpl in H. injection H as H0 H.
    destruct (decide (k = Z.of_nat n)) as [->|]; [done|]. apply IH; [done|lia].
  - rewrite <- (Z.mod_small a (2 ^ Z.of_nat n)), <- (Z.mod_small b (2 ^ Z.of_nat n)) by done.
    by rewrite !Z.mod_pow2_bits_high by lia.
Qed.

Lemma bits_msb_ones n : bits_msb n (2 ^ Z.of_nat n - 1) = replicate n true.
Proof.
  assert (H : forall m, (m <= n)%nat -> bits_msb m (2 ^ Z.of_nat n - 1) = replicate m true).
  { induction m as [|m IH]; intros Hm; [done|]. simpl. rewrite IH by lia. f_equal.
    replace (2 ^ Z.of_nat n - 1) with (Z.ones (Z.of_nat n)) by (rewrite Z.ones_equiv; lia).
    apply Z.ones_spec_low. lia. }
  by apply H.
Qed.

Lemma length_bits_of_bytes l : length (bits_of_bytes l) = (8 * length l)%nat.
Proof.
  induction l as [|b l IH]; [done|].
  change (bits_of_bytes (b :: l)) with (bits_msb 8 b ++ bits_of_bytes l).
  rewrite length_app, length_bits_msb, IH. simpl length. lia.
Qed.

Lemma bits_of_bytes_app l1 l2 :
  bits_of_bytes (l1 ++ l2) = bits_of_bytes l1 ++ bits_of_bytes l2.
Proof. apply bind_app. Qed.

Lemma bits_of_bytes_inj l1 l2 :
  bytes_ok l1 -> bytes_ok l2 -> bits_of_bytes l1 = bits_of_bytes l2 -> l1 = l2.
Proof.
  intros H1. revert l2. induction H1 as [|a l1 Ha H1 IH]; intros l2 H2 E.
  - apply (f_equal length) in E. rewrite !length_bits_of_bytes in E. by destruct l2.
  - destruct H2 as [|b l2 Hb H2].
    { apply (f_equal length) in E. rewrite !length_bits_of_bytes in E. done. }
    change (bits_msb 8 a ++ bits_of_bytes l1 = bits_msb 8 b ++ bits_of_bytes l2) in E.
    apply app_inj_1 in E as [E1 E2]; [|by rewrite !length_bits_msb].
    f_equal; [by apply (bits_msb_inj 8)|by apply IH].
Qed.

Global Arguments bits_msb : simpl never.

(** ** Automation *)

Create HintDb sozu.
Create Rewrite HintDb sozu_len.
#[export] Hint Resolve bstr_ok be_bytes_ok bytes_ok_take bytes_ok_drop wrap_ok : sozu.
#[export] Hint Rewrite @length_app @length_take @length_drop length_be_bytes
  length_bits_msb length_bits_of_bytes : sozu_len.
