(* ===== verification/BTreeMap.v ===== *)
(** * Ordered maps

    The standard library's [BTreeMap] with integer keys, as the list of its
    entries in ascending key order: its iteration order is part of what the
    code relies on. *)

From Stdlib Require Import Sorting.Sorted.
From S2P Require Import Prelude.

Section BTreeMap.

Context {V : Type}.

Abbreviation btree := (list (Z * V)).

Fixpoint btree_get (k : Z) (m : btree) : option V :=
  match m with
  | [] => None
  | (k', v) :: m => if k =? k' then Some v else btree_get k m
  end.

Fixpoint btree_insert (k : Z) (v : V) (m : btree) : btree :=
  match m with
  | [] => [(k, v)]
  | (k', v') :: m' =>
      if k <? k' then (k, v) :: m
      else if k =? k' then (k, v) :: m'
      else (k', v') :: btree_insert k v m'
  end.

Definition btree_remove (k : Z) (m : btree) : btree := filter (fun e => e.1 <> k) m.

(** The entries are in strictly ascending key order. *)
Definition btree_ok (m : btree) : Prop := StronglySorted Z.lt m.*1.

Lemma btree_ok_nil : btree_ok [].
Proof. constructor. Qed.

Lemma btree_ok_cons k v m :
  btree_ok ((k, v) :: m) <-> btree_ok m /\ Forall (fun e => k < e.1) m.
Proof.
  unfold btree_ok. cbn. split.
  - intros H. inversion H; subst. split; [done |].
    exact (proj1 (Forall_fmap _ _ _) H3).
  - intros [H1 H2]. constructor; [done |]. exact (proj2 (Forall_fmap _ _ _) H2).
Qed.

Lemma btree_ok_drop n m : btree_ok m -> btree_ok (drop n m).
Proof.
  revert m. induction n as [| n IH]; intros [| [k v] m] Hm; try done.
  apply btree_ok_cons in Hm as [Hm _]. by apply IH.
Qed.

Lemma btree_get_Some k v m : btree_get k m = Some v -> (k, v) ∈ m.
Proof.
  induction m as [| [k' v'] m IH]; cbn; [done |].
  destruct (Z.eqb_spec k k') as [-> |]; intros H.
  - injection H as ->. left.
  - right. by apply IH.
Qed.

Lemma btree_get_above k m : Forall (fun e => k < e.1) m -> btree_get k m = None.
Proof.
  induction 1 as [| [k' v'] m Hk Hm IH]; cbn in *; [done |].
  destruct (Z.eqb_spec k k'); [lia | done].
Qed.

Lemma btree_elem_of k v m : btree_ok m -> (k, v) ∈ m <-> btree_get k m = Some v.
Proof.
  intros Hm. split; [| apply btree_get_Some].
  induction m as [| [k' v'] m IH]; [by intros ?%not_elem_of_nil |].
  apply btree_ok_cons in Hm as [Hm Hk]. cbn.
  intros [[= -> ->] | Hin]%elem_of_cons; [by rewrite Z.eqb_refl |].
  rewrite Forall_forall in Hk. pose proof (Hk _ Hin) as Hlt. cbn in Hlt.
  destruct (Z.eqb_spec k k'); [lia | by apply IH].
Qed.

Lemma btree_get_insert k v k' m :
  btree_ok m -> btree_get k' (btree_insert k v m) = if k' =? k then Some v else btree_get k' m.
Proof.
  induction m as [| [j w] m IH]; intros Hm; [done |].
  apply btree_ok_cons in Hm as [Hm Hk]. cbn.
  destruct (Z.ltb_spec k j); [done |]. destruct (Z.eqb_spec k j) as [-> |]; cbn.
  - by destruct (k' =? j).
  - rewrite IH by done. destruct (Z.eqb_spec k' j), (Z.eqb_spec k' k); done || lia.
Qed.

Lemma btree_insert_fst k v m e : e ∈ btree_insert k v m -> e = (k, v) \/ e ∈ m.
Proof.
  induction m as [| [j w] m IH]; cbn; [rewrite elem_of_cons; tauto |].
  rewrite elem_of_cons. destruct (k <? j), (k =? j); rewrite ?elem_of_cons; tauto.
Qed.

Lemma Forall_btree_insert (P : Z * V -> Prop) k v m :
  Forall P m -> P (k, v) -> Forall P (btree_insert k v m).
Proof.
  rewrite !Forall_forall. intros Hm Hk e [-> | He]%btree_insert_fst; [done | by apply Hm].
Qed.

Lemma btree_insert_ok k v m : btree_ok m -> btree_ok (btree_insert k v m).
Proof.
  induction m as [| [j w] m IH]; intros Hm; cbn.
  - by apply btree_ok_cons.
  - pose proof Hm as [Hm' Hk]%btree_ok_cons.
    destruct (Z.ltb_spec k j); [| destruct (Z.eqb_spec k j) as [-> |]].
    + apply btree_ok_cons. split; [done |]. constructor; [done |].
      eapply Forall_impl; [exact Hk |]. intros [? ?] ?; cbn in *; lia.
    + by apply btree_ok_cons.
    + apply btree_ok_cons. split; [by apply IH |]. apply Forall_forall.
      intros e [-> | He]%btree_insert_fst; [cbn; lia |].
      rewrite Forall_forall in Hk. by apply Hk.
Qed.

Lemma btree_get_not_in k m : btree_get k m = None <-> k ∉ m.*1.
Proof.
  induction m as [| [j w] m IH]; cbn.
  - split; [intros _; apply not_elem_of_nil | done].
  - rewrite not_elem_of_cons, <- IH. destruct (Z.eqb_spec k j); intuition congruence.
Qed.

Lemma length_btree_insert k v m :
  btree_ok m ->
  length (btree_insert k v m) = (length m + if btree_get k m is Some _ then 0 else 1)%nat.
Proof.
  induction m as [| [j w] m IH]; intros Hm; [done |].
  apply btree_ok_cons in Hm as [Hm Hk]. cbn.
  destruct (Z.ltb_spec k j).
  - destruct (Z.eqb_spec k j); [lia |]. rewrite btree_get_above; [cbn; lia |].
    eapply Forall_impl; [exact Hk |]. intros [? ?] ?; cbn in *; lia.
  - destruct (Z.eqb_spec k j); cbn; [lia |]. rewrite IH by done. lia.
Qed.

Lemma btree_remove_ok k m : btree_ok m -> btree_ok (btree_remove k m).
Proof.
  unfold btree_remove. induction m as [| [j w] m IH]; intros Hm; [done |].
  apply btree_ok_cons in Hm as [Hm Hk]. rewrite filter_cons. case_decide; [| by apply IH].
  apply btree_ok_cons. split; [by apply IH |]. rewrite Forall_forall in Hk |- *.
  intros e [_ He]%list_elem_of_filter. by apply Hk.
Qed.

Lemma btree_get_remove k k' m :
  btree_get k' (btree_remove k m) = if k' =? k then None else btree_get k' m.
Proof.
  unfold btree_remove. induction m as [| [j w] m IH]; [by destruct (k' =? k) |].
  rewrite filter_cons. cbn [fst]. case_decide; cbn [btree_get]; rewrite IH;
    destruct (Z.eqb_spec k' j), (Z.eqb_spec k' k); done || lia.
Qed.

(** Removing the first entries, one key at a time, leaves the others. *)
Lemma btree_remove_first l m :
  btree_ok (l ++ m) -> foldl (fun m k => btree_remove k m) (l ++ m) l.*1 = m.
Proof.
  induction l as [| [k v] l IH]; intros Hm; [done |].
  change (((k, v) :: l) ++ m) with ((k, v) :: (l ++ m)) in *. rewrite fmap_cons. cbn [foldl fst].
  apply btree_ok_cons in Hm as [Hm Hk].
  assert (btree_remove k ((k, v) :: l ++ m) = l ++ m) as ->; [| by apply IH].
  unfold btree_remove. rewrite filter_cons, decide_False by (cbn; tauto).
  apply filter_all. eapply Forall_impl; [exact Hk |]. intros [? ?] ?; cbn in *; lia.
Qed.

End BTreeMap.

Arguments btree_ok {V} m.

(** [contains_key] *)
Definition btree_mem {V} (k : Z) (m : list (Z * V)) : bool :=
  if btree_get k m is Some _ then true else false.

(** Maps with the same keys stay so under the same insertions and removals. *)
Lemma btree_same_keys_insert {V W} k (v : V) (w : W) m m' :
  m.*1 = m'.*1 -> (btree_insert k v m).*1 = (btree_insert k w m').*1.
Proof.
  revert m'. induction m as [| [j x] m IH]; intros [| [j' x'] m'] E; try done.
  rewrite !fmap_cons in E. cbn [fst] in E. injection E as <- E. cbn [btree_insert].
  destruct (k <? j); [| destruct (k =? j)]; rewrite !fmap_cons; cbn [fst]; try by rewrite E.
  by rewrite (IH m').
Qed.

Lemma btree_same_keys_remove {V W} k (m : list (Z * V)) (m' : list (Z * W)) :
  m.*1 = m'.*1 -> (btree_remove k m).*1 = (btree_remove k m').*1.
Proof.
  unfold btree_remove.
  revert m'. induction m as [| [j x] m IH]; intros [| [j' x'] m'] E; try done.
  rewrite !fmap_cons in E. cbn [fst] in E. injection E as <- E. rewrite !filter_cons.
  cbn [fst]. case_decide; [| by apply IH]. rewrite !fmap_cons. by rewrite (IH m').
Qed.

Lemma btree_same_keys_ok {V W} (m : list (Z * V)) (m' : list (Z * W)) :
  m.*1 = m'.*1 -> btree_ok m -> btree_ok m'.
Proof. unfold btree_ok. by intros ->. Qed.

Lemma btree_insert_present {V} k (v : V) m :
  btree_ok m -> btree_mem k m = true -> (btree_insert k v m).*1 = m.*1.
Proof.
  unfold btree_mem. induction m as [| [j x] m IH]; intros Hm Hk; [done |].
  apply btree_ok_cons in Hm as [Hm Hj]. cbn in Hk |- *.
  destruct (Z.eqb_spec k j) as [-> | Hne].
  - by rewrite Z.ltb_irrefl.
  - destruct (Z.ltb_spec k j) as [Hlt | Hge]; [| by rewrite fmap_cons, IH].
    rewrite btree_get_above in Hk; [done |].
    eapply Forall_impl; [exact Hj |]. intros [? ?] ?; cbn in *; lia.
Qed.

Lemma btree_mem_keys {V W} k (m : list (Z * V)) (m' : list (Z * W)) :
  m.*1 = m'.*1 -> btree_mem k m = btree_mem k m'.
Proof.
  unfold btree_mem.
  revert m'. induction m as [| [j x] m IH]; intros [| [j' x'] m'] E; try done.
  rewrite !fmap_cons in E. cbn [fst] in E. injection E as <- E. cbn.
  destruct (k =? j); [done | by apply IH].
Qed.

Lemma btree_mem_remove {V} k (m : list (Z * V)) : btree_mem k (btree_remove k m) = false.
Proof. unfold btree_mem. by rewrite btree_get_remove, Z.eqb_refl. Qed.

Lemma btree_mem_insert {V} k (v : V) m : btree_ok m -> btree_mem k (btree_insert k v m) = true.
Proof. intros Hm. unfold btree_mem. by rewrite btree_get_insert, Z.eqb_refl. Qed.

#[export] Hint Resolve btree_ok_nil btree_insert_ok btree_remove_ok : sozu.
