(* ===== verification/Readiness.v ===== *)
(** * Readiness words

    [command/src/ready.rs], the bit set of the events of a file descriptor, and
    [Readiness] of [lib/src/lib.rs], the pair of what happened and what a
    session waits for. *)

From S2P Require Import Prelude.

Module Ready.

(** [Ready(u16)] is its word. *)
Definition EMPTY : Z := 0.
Definition READABLE : Z := 0x01.
Definition WRITABLE : Z := 0x02.
Definition ERROR : Z := 0x04.
Definition HUP : Z := 0x08.
Definition WRITE_CLOSED : Z := 0x10.
Definition ALL : Z := 0x03.

Definition is_empty (r : Z) : bool := r =? 0.
Definition insert (r other : Z) : Z := Z.lor r other.

(** [self.0 &= !other.0], on 16 bits *)
Definition remove (r other : Z) : Z := Z.land r (Z.lxor 0xffff other).
Definition contains (r other : Z) : bool := Z.land r other =? other.

Definition is_readable (r : Z) : bool := contains r READABLE.
Definition is_writable (r : Z) : bool := contains r WRITABLE.
Definition is_error (r : Z) : bool := contains r ERROR.
Definition is_hup (r : Z) : bool := contains r HUP.
Definition is_write_closed (r : Z) : bool := contains r WRITE_CLOSED.

End Ready.

Record Readiness := mkReadiness {
  event : Z;
  interest : Z;
}.

Definition KNOWN_BITS : Z :=
  Z.lor (Z.lor (Z.lor (Z.lor Ready.READABLE Ready.WRITABLE) Ready.ERROR) Ready.HUP)
    Ready.WRITE_CLOSED.

Definition readiness_new : Readiness := mkReadiness Ready.EMPTY Ready.EMPTY.

(** The assertions of [Readiness::check_invariants]. *)
Definition check_readiness (r : Readiness) : checked unit :=
  _ ← debug_assert (Z.land (event r) KNOWN_BITS =? event r);
  debug_assert (Z.land (interest r) KNOWN_BITS =? interest r).

Definition readiness_reset (r : Readiness) : checked Readiness :=
  let r := mkReadiness Ready.EMPTY Ready.EMPTY in
  _ ← debug_assert (Ready.is_empty (event r) && Ready.is_empty (interest r));
  _ ← check_readiness r;
  Val r.

Definition filter_interest (r : Readiness) : checked Z :=
  _ ← check_readiness r;
  let filtered := Z.land (event r) (interest r) in
  _ ← debug_assert (Z.land filtered KNOWN_BITS =? filtered);
  _ ← debug_assert (Ready.contains (interest r) filtered && Ready.contains (event r) filtered);
  Val filtered.

Definition signal_pending_write (r : Readiness) : checked Readiness :=
  let other_event_before := Ready.remove (event r) Ready.WRITABLE in
  let r := mkReadiness (Ready.insert (event r) Ready.WRITABLE) (interest r) in
  _ ← debug_assert (Ready.is_writable (event r));
  _ ← debug_assert (Ready.remove (event r) Ready.WRITABLE =? other_event_before);
  _ ← check_readiness r;
  Val r.

Definition signal_pending_read (r : Readiness) : checked Readiness :=
  let other_event_before := Ready.remove (event r) Ready.READABLE in
  let r := mkReadiness (Ready.insert (event r) Ready.READABLE) (interest r) in
  _ ← debug_assert (Ready.is_readable (event r));
  _ ← debug_assert (Ready.remove (event r) Ready.READABLE =? other_event_before);
  _ ← check_readiness r;
  Val r.

Definition arm_writable (r : Readiness) : checked Readiness :=
  let other_interest_before := Ready.remove (interest r) Ready.WRITABLE in
  let other_event_before := Ready.remove (event r) Ready.WRITABLE in
  let r := mkReadiness (event r) (Ready.insert (interest r) Ready.WRITABLE) in
  r ← signal_pending_write r;
  _ ← debug_assert (Ready.is_writable (interest r) && Ready.is_writable (event r));
  _ ← debug_assert (Ready.remove (interest r) Ready.WRITABLE =? other_interest_before);
  _ ← debug_assert (Ready.remove (event r) Ready.WRITABLE =? other_event_before);
  _ ← check_readiness r;
  Val r.

(** ** Properties *)

Definition readiness_ok (r : Readiness) : Prop :=
  uint_ok 5 (event r) /\ uint_ok 5 (interest r).

(** Every operation is a function of two five-bit words: a boolean property of
    all of them is checked by enumeration. *)
Lemma five_bits (P : Z -> bool) z :
  forallb P (Z.of_nat <$> seq 0 32) = true -> uint_ok 5 z -> P z = true.
Proof.
  intros HP Hz. change (2 ^ 5) with 32 in Hz.
  apply (forallb_range P 32); [done | unfold uint_ok in Hz; lia].
Qed.

Definition forall_readiness (P : Readiness -> bool) : bool :=
  forallb (fun e => forallb (fun i => P (mkReadiness e i)) (Z.of_nat <$> seq 0 32))
    (Z.of_nat <$> seq 0 32).

Lemma forall_readiness_ok P r : forall_readiness P = true -> readiness_ok r -> P r = true.
Proof.
  intros HP [He Hi]. destruct r as [e i].
  apply (five_bits (fun i => P (mkReadiness e i))); [| done].
  by apply (five_bits (fun e => forallb (fun i => P (mkReadiness e i)) (Z.of_nat <$> seq 0 32))).
Qed.

(** The outcome of an operation is a well-formed pair equal to [r]. *)
Definition is_readiness (o : checked Readiness) (r : Readiness) : bool :=
  match o with
  | Val r' => (event r' =? event r) && (interest r' =? interest r)
  | _ => false
  end.

Lemma is_readiness_Val o r : is_readiness o r = true -> o = Val r.
Proof.
  destruct o as [[e i] | |], r as [e' i']; [| done..]. cbn.
  intros [->%Z.eqb_eq ->%Z.eqb_eq]%andb_true_iff. done.
Qed.

(** No operation panics on a well-formed pair, and each does what it says. *)
Lemma readiness_ops_val r :
  readiness_ok r ->
  readiness_reset r = Val readiness_new /\
  filter_interest r = Val (Z.land (event r) (interest r)) /\
  signal_pending_write r = Val (mkReadiness (Z.lor (event r) Ready.WRITABLE) (interest r)) /\
  signal_pending_read r = Val (mkReadiness (Z.lor (event r) Ready.READABLE) (interest r)) /\
  arm_writable r =
    Val (mkReadiness (Z.lor (event r) Ready.WRITABLE) (Z.lor (interest r) Ready.WRITABLE)).
Proof.
  intros Hr. split; [done |]. split.
  - assert (match filter_interest r with
            | Val f => f =? Z.land (event r) (interest r) | _ => false end = true) as H.
    { apply (forall_readiness_ok (fun r => match filter_interest r with
        | Val f => f =? Z.land (event r) (interest r) | _ => false end)); [by vm_compute | done]. }
    destruct (filter_interest r); [| done..]. by apply Z.eqb_eq in H as ->.
  - repeat split; apply is_readiness_Val.
    + apply (forall_readiness_ok (fun r => is_readiness (signal_pending_write r)
        (mkReadiness (Z.lor (event r) Ready.WRITABLE) (interest r)))); [by vm_compute | done].
    + apply (forall_readiness_ok (fun r => is_readiness (signal_pending_read r)
        (mkReadiness (Z.lor (event r) Ready.READABLE) (interest r)))); [by vm_compute | done].
    + apply (forall_readiness_ok (fun r => is_readiness (arm_writable r)
        (mkReadiness (Z.lor (event r) Ready.WRITABLE) (Z.lor (interest r) Ready.WRITABLE))));
        [by vm_compute | done].
Qed.

Lemma lor_five_bits a b : uint_ok 5 a -> uint_ok 5 b -> uint_ok 5 (Z.lor a b).
Proof.
  intros Ha Hb. unfold uint_ok in *. change (2 ^ 5) with 32 in *.
  split; [apply Z.lor_nonneg; lia |].
  destruct (Z.eq_dec (Z.lor a b) 0) as [-> |]; [lia |].
  assert (0 <= Z.lor a b) by (apply Z.lor_nonneg; lia).
  apply (Z.log2_lt_pow2 _ 5); [lia |]. rewrite Z.log2_lor by lia.
  apply Z.max_lub_lt; [destruct (Z.eq_dec a 0) as [-> |] | destruct (Z.eq_dec b 0) as [-> |]];
    [done | apply Z.log2_lt_pow2; lia | done | apply Z.log2_lt_pow2; lia].
Qed.

Lemma arm_writable_ok r r' : readiness_ok r -> arm_writable r = Val r' -> readiness_ok r'.
Proof.
  intros Hr. destruct (readiness_ops_val r Hr) as (_ & _ & _ & _ & ->). intros [= <-].
  destruct Hr. split; by apply lor_five_bits.
Qed.

(** Arming a write wakes the session under edge-triggered polling: on any
    well-formed readiness [arm_writable] succeeds, the next [filter_interest]
    reports WRITABLE, and no other bit of either word changes. *)
Theorem arm_writable_wakes r :
  readiness_ok r ->
  exists r' ready,
    arm_writable r = Val r' /\ readiness_ok r' /\
    filter_interest r' = Val ready /\ Ready.is_writable ready = true /\
    Ready.remove (event r') Ready.WRITABLE = Ready.remove (event r) Ready.WRITABLE /\
    Ready.remove (interest r') Ready.WRITABLE = Ready.remove (interest r) Ready.WRITABLE.
Proof.
  intros Hr. destruct (readiness_ops_val r Hr) as (_ & _ & _ & _ & Ha).
  pose proof (arm_writable_ok _ _ Hr Ha) as Hr'.
  destruct (readiness_ops_val _ Hr') as (_ & Hf & _).
  refine (ex_intro _ _ (ex_intro _ _ (conj Ha (conj Hr' (conj Hf _))))). cbn [event interest].
  split; [| split].
  - apply (forall_readiness_ok (fun r => Z.land (Z.land (Z.lor (event r) Ready.WRITABLE)
      (Z.lor (interest r) Ready.WRITABLE)) Ready.WRITABLE =? Ready.WRITABLE)); [by vm_compute | done].
  - apply Z.eqb_eq, (five_bits (fun e => Ready.remove (Z.lor e Ready.WRITABLE) Ready.WRITABLE =?
      Ready.remove e Ready.WRITABLE)); [by vm_compute | apply Hr].
  - apply Z.eqb_eq, (five_bits (fun e => Ready.remove (Z.lor e Ready.WRITABLE) Ready.WRITABLE =?
      Ready.remove e Ready.WRITABLE)); [by vm_compute | apply Hr].
Qed.

Lemma arm_writable_wakes_witness :
  exists r' ready,
    arm_writable (mkReadiness Ready.HUP Ready.READABLE) = Val r' /\ readiness_ok r' /\
    filter_interest r' = Val ready /\ Ready.is_writable ready = true /\
    Ready.remove (event r') Ready.WRITABLE = Ready.HUP /\
    Ready.remove (interest r') Ready.WRITABLE = Ready.READABLE.
Proof. by apply (arm_writable_wakes (mkReadiness Ready.HUP Ready.READABLE)). Defined.
