(* ===== verification/HpackInteger.v ===== *)
(** * HPACK integers and errors

    [lib/src/protocol/mux/hpack/mod.rs]: the prefixed variable-length integers
    of RFC 7541 section 5.1, shared by the decoder and the encoder, and the
    error type of the decoder. *)

From S2P Require Import Prelude.

(** A Huffman string the decoder rejects. *)
Inductive HuffmanError : Type :=
| Eos
| InvalidPadding
| PaddingTooLong.

(** Why a header block could not be decoded. *)
Inductive DecoderError : Type :=
| Truncated
| IntegerOverflow
| InvalidIndex
| Huffman (e : HuffmanError)
| TableSizeTooLarge
| SizeUpdateNotAtStart
| TooManySizeUpdates
| SizeUpdateAtEnd.

Global Instance HuffmanError_eq_dec : EqDecision HuffmanError.
Proof. solve_decision. Defined.
Global Instance DecoderError_eq_dec : EqDecision DecoderError.
Proof. solve_decision. Defined.

Definition MAX_INTEGER_OCTETS : nat := 5.

(** [((1u16 << prefix_bits) - 1) as u8] *)
Definition prefix_mask (prefix_bits : Z) : Z := to_u8 (Z.shiftl 1 prefix_bits - 1).

(** The [for] loop of [decode_integer] from octet [position] on. *)
Fixpoint decode_integer_loop (octets : list Z) (position : nat) (value : Z)
    : res DecoderError (Z * nat) :=
  match octets with
  | [] => Err Truncated
  | octet :: octets =>
      if (MAX_INTEGER_OCTETS <=? position)%nat then Err IntegerOverflow
      else
        let value := value + Z.shiftl (Z.land octet 0x7f) (7 * (Z.of_nat position - 1)) in
        if Z.land octet 0x80 =? 0 then Ok (value, S position)
        else decode_integer_loop octets (S position) value
  end.

Definition decode_integer (input : list Z) (prefix_bits : Z) : res DecoderError (Z * nat) :=
  match input with
  | [] => Err Truncated
  | first :: octets =>
      let mask := prefix_mask prefix_bits in
      let value := Z.land first mask in
      if value <? mask then Ok (value, 1%nat)
      else decode_integer_loop octets 1 value
  end.

(** The [while] loop of [encode_integer]. A [usize] has 64 bits and every turn
    drops seven of them, so ten turns of fuel cover every value. *)
Fixpoint encode_integer_loop (fuel : nat) (rest : Z) (out : list Z) : list Z :=
  match fuel with
  | O => out ++ [to_u8 rest]
  | S fuel =>
      if 0x80 <=? rest
      then encode_integer_loop fuel (Z.shiftr rest 7)
             (out ++ [Z.lor (to_u8 (Z.land rest 0x7f)) 0x80])
      else out ++ [to_u8 rest]
  end.

Definition encode_integer_fuel : nat := 10.

Definition encode_integer (value prefix_bits flags : Z) (out : list Z) : list Z :=
  let mask := prefix_mask prefix_bits in
  if value <? mask then out ++ [Z.lor flags (to_u8 value)]
  else encode_integer_loop encode_integer_fuel (value - mask) (out ++ [Z.lor flags mask]).

(** What the callers guarantee of a prefix and of the flags above it: the two
    [debug_assert]s of [encode_integer]. *)
Definition prefix_ok (prefix_bits flags : Z) : Prop :=
  1 <= prefix_bits <= 8 /\ u8_ok flags /\ Z.land flags (prefix_mask prefix_bits) = 0.

Global Instance prefix_ok_dec p f : Decision (prefix_ok p f).
Proof. unfold prefix_ok. apply _. Defined.

(** ** Lemmas *)

Lemma prefix_mask_eq p : 1 <= p <= 8 -> prefix_mask p = 2 ^ p - 1.
Proof.
  intros Hp. unfold prefix_mask. rewrite Z.shiftl_1_l. apply wrap_small.
  assert (2 ^ 1 <= 2 ^ p <= 2 ^ 8) by (split; apply Z.pow_le_mono_r; lia).
  widths. lia.
Qed.

Lemma prefix_mask_bounds p : 1 <= p <= 8 -> 1 <= prefix_mask p <= 255.
Proof.
  intros Hp. rewrite prefix_mask_eq by done.
  assert (2 ^ 1 <= 2 ^ p <= 2 ^ 8) by (split; apply Z.pow_le_mono_r; lia). lia.
Qed.

Lemma land_prefix_mask z p : 1 <= p <= 8 -> Z.land z (prefix_mask p) = z mod 2 ^ p.
Proof. intros Hp. rewrite prefix_mask_eq by done. apply land_mask_mod. lia. Qed.

(** Flags above the prefix do not disturb the value stored in it. *)
Lemma flags_land p f v :
  prefix_ok p f -> 0 <= v <= prefix_mask p -> Z.land (Z.lor f v) (prefix_mask p) = v.
Proof.
  intros (Hp & Hf & Hfm) Hv. rewrite Z.land_lor_distr_l, Hfm, Z.lor_0_l.
  rewrite land_prefix_mask by done. apply Z.mod_small.
  rewrite prefix_mask_eq in Hv by done. lia.
Qed.

Lemma land_7f z : Z.land z 0x7f = z mod 128.
Proof. apply (land_mask_mod z 7). lia. Qed.

Lemma lor_80 z : 0 <= z < 128 -> Z.lor z 0x80 = 128 + z.
Proof. intros Hz. rewrite Z.lor_comm. apply (lor_shiftl_add 1 z 7); lia. Qed.

Lemma land_80 z : 0 <= z < 128 -> Z.land z 0x80 = 0.
Proof. intros Hz. rewrite Z.land_comm. apply (land_shiftl_low 1 z 7); lia. Qed.

Lemma land_80_set z : 0 <= z < 128 -> Z.land (128 + z) 0x80 = 0x80.
Proof.
  intros Hz. rewrite <- lor_80, Z.land_lor_distr_l, land_80 by done. done.
Qed.

Lemma encode_integer_loop_out fuel rest out :
  encode_integer_loop fuel rest out = out ++ encode_integer_loop fuel rest [].
Proof.
  revert rest out. induction fuel as [|fuel IH]; intros rest out; simpl; [done|].
  destruct (0x80 <=? rest); [|done].
  rewrite IH, (IH _ [_]), app_assoc. done.
Qed.

Lemma encode_integer_out v p f out :
  encode_integer v p f out = out ++ encode_integer v p f [].
Proof.
  unfold encode_integer. destruct (v <? prefix_mask p); [done|].
  rewrite encode_integer_loop_out, (encode_integer_loop_out _ _ ([] ++ _)), app_assoc. done.
Qed.

(** One turn of the encoding loop on an accumulator-free output. *)
Lemma encode_integer_loop_S fuel rest :
  0 <= rest ->
  encode_integer_loop (S fuel) rest [] =
  if 0x80 <=? rest
  then (128 + rest mod 128) :: encode_integer_loop fuel (rest / 128) []
  else [rest].
Proof.
  intros Hr. cbn [encode_integer_loop]. destruct (Z.leb_spec 0x80 rest).
  - rewrite encode_integer_loop_out. rewrite land_7f, Z.shiftr_div_pow2 by lia.
    assert (0 <= rest mod 128 < 128) by (apply Z.mod_pos_bound; lia).
    rewrite wrap_small by (widths; lia). by rewrite lor_80.
  - rewrite wrap_small by (widths; lia). done.
Qed.

(** The limit of the decoding loop, one octet further. *)
Lemma octet_budget_S position :
  (1 <= position < 5)%nat ->
  2 ^ (7 * (5 - Z.of_nat position)) = 128 * 2 ^ (7 * (5 - Z.of_nat (S position))).
Proof.
  intros H. replace (7 * (5 - Z.of_nat position))
    with (7 + 7 * (5 - Z.of_nat (S position))) by lia.
  by rewrite Z.pow_add_r by lia.
Qed.

Lemma octet_weight_S position :
  (1 <= position)%nat ->
  2 ^ (7 * (Z.of_nat (S position) - 1)) = 128 * 2 ^ (7 * (Z.of_nat position - 1)).
Proof.
  intros H. replace (7 * (Z.of_nat (S position) - 1))
    with (7 + 7 * (Z.of_nat position - 1)) by lia.
  by rewrite Z.pow_add_r by lia.
Qed.

(** What reading the octets written for [rest] at [position] gives. *)
Definition loop_result (rest : Z) (position : nat) (value : Z) (n : nat)
    : res DecoderError (Z * nat) :=
  if rest <? 2 ^ (7 * (5 - Z.of_nat position))
  then Ok (value + rest * 2 ^ (7 * (Z.of_nat position - 1)), (position + n)%nat)
  else Err IntegerOverflow.

Lemma decode_loop_overflow octet octets position value rest n :
  position = 5%nat -> 1 <= rest ->
  decode_integer_loop (octet :: octets) position value = loop_result rest position value n.
Proof.
  intros -> Hr. unfold loop_result. replace (7 * (5 - Z.of_nat 5)) with 0 by lia.
  destruct (Z.ltb_spec rest (2 ^ 0)); [lia|done].
Qed.

Lemma decode_loop_last rest position value tail :
  0 <= rest < 128 -> (1 <= position <= 5)%nat -> ((position < 5)%nat \/ 1 <= rest) ->
  decode_integer_loop (rest :: tail) position value = loop_result rest position value 1.
Proof.
  intros Hr Hp Hp5. destruct (decide (position = 5%nat)) as [E|E].
  { apply decode_loop_overflow; [done|]. lia. }
  cbn [decode_integer_loop]. unfold MAX_INTEGER_OCTETS, loop_result.
  destruct (Nat.leb_spec 5 position); [lia|].
  rewrite land_80, land_7f, Z.mod_small by lia. cbn [Z.eqb].
  rewrite Z.shiftl_mul_pow2 by lia. rewrite octet_budget_S by lia.
  assert (1 <= 2 ^ (7 * (5 - Z.of_nat (S position))))
    by (assert (0 < 2 ^ (7 * (5 - Z.of_nat (S position)))) by (apply Z.pow_pos_nonneg; lia); lia).
  destruct (Z.ltb_spec rest (128 * 2 ^ (7 * (5 - Z.of_nat (S position))))); [|lia].
  f_equal. f_equal. lia.
Qed.

(** The decoding loop reads back what the encoding loop wrote, up to the four
    continuation octets it accepts. *)
Lemma decode_encode_loop fuel rest position value tail :
  0 <= rest < 2 ^ (7 * (Z.of_nat fuel + 1)) ->
  (1 <= position <= 5)%nat -> ((position < 5)%nat \/ 1 <= rest) ->
  decode_integer_loop (encode_integer_loop fuel rest [] ++ tail) position value =
  loop_result rest position value (length (encode_integer_loop fuel rest [])).
Proof.
  revert rest position value. induction fuel as [|fuel IH]; intros rest position value Hr Hp Hp5.
  { change (2 ^ (7 * (Z.of_nat 0 + 1))) with 128 in Hr.
    replace (encode_integer_loop 0 rest []) with [rest]
      by (simpl; by rewrite wrap_small by (widths; lia)).
    apply decode_loop_last; lia. }
  rewrite encode_integer_loop_S by lia.
  destruct (Z.leb_spec 0x80 rest) as [H80|H80]; [|apply decode_loop_last; lia].
  destruct (decide (position = 5%nat)) as [E|E].
  { apply decode_loop_overflow; [done|lia]. }
  assert (Hm : 0 <= rest mod 128 < 128) by (apply Z.mod_pos_bound; lia).
  pose proof (Z.div_mod rest 128 ltac:(lia)) as Hdm.
  cbn [app decode_integer_loop length]. unfold MAX_INTEGER_OCTETS.
  destruct (Nat.leb_spec 5 position); [lia|].
  rewrite land_80_set by done. change (0x80 =? 0) with false. cbv iota.
  rewrite land_7f. replace ((128 + rest mod 128) mod 128) with (rest mod 128) by zify_div.
  rewrite Z.shiftl_mul_pow2 by lia.
  assert (Hbig : 2 ^ (7 * (Z.of_nat (S fuel) + 1)) = 128 * 2 ^ (7 * (Z.of_nat fuel + 1)))
    by (replace (7 * (Z.of_nat (S fuel) + 1)) with (7 + 7 * (Z.of_nat fuel + 1)) by lia;
        rewrite Z.pow_add_r by lia; done).
  rewrite Hbig in Hr. clear Hbig.
  rewrite IH; [|split; [lia|apply Z.div_lt_upper_bound; lia]|lia|right; lia].
  unfold loop_result. rewrite (octet_budget_S position), (octet_weight_S position) by lia.
  cmps; [|done]. f_equal. f_equal; [|lia]. rewrite Hdm at 3. ring.
Qed.

(** The largest value five octets carry with this prefix, plus one. *)
Definition integer_limit (prefix_bits : Z) : Z := 2 ^ 28 + prefix_mask prefix_bits.

(** Reading back an encoded integer. *)
Lemma decode_encode_integer_eq (value prefix_bits flags : Z) (tail : list Z) :
  u64_ok value -> prefix_ok prefix_bits flags ->
  decode_integer (encode_integer value prefix_bits flags [] ++ tail) prefix_bits =
  if value <? integer_limit prefix_bits
  then Ok (value, length (encode_integer value prefix_bits flags []))
  else Err IntegerOverflow.
Proof.
  intros Hv Hp. pose proof Hp as (Hb & Hf & _).
  pose proof (prefix_mask_bounds _ Hb) as Hm. unfold encode_integer, integer_limit.
  destruct (Z.ltb_spec value (prefix_mask prefix_bits)).
  - rewrite wrap_small by (widths; lia). cbn [app decode_integer length].
    rewrite flags_land by (done || widths; lia). cmps. done.
  - rewrite encode_integer_loop_out. cbn [app decode_integer length].
    rewrite flags_land by (done || lia). rewrite Z.ltb_irrefl.
    rewrite decode_encode_loop; [|widths; unfold encode_integer_fuel; lia|lia|lia].
    unfold loop_result. change (2 ^ (7 * (5 - Z.of_nat 1))) with (2 ^ 28).
    change (2 ^ (7 * (Z.of_nat 1 - 1))) with 1.
    cmps; [|done]. f_equal. f_equal. lia.
Qed.

(** Encoding a [usize] and decoding it gives back the same value and the
    number of octets written, whatever follows it in the block; a value that
    needs more than five octets is rejected as [IntegerOverflow]. *)
Theorem decode_encode_integer (value prefix_bits flags : Z) (tail : list Z) :
  u64_ok value -> prefix_ok prefix_bits flags ->
  decode_integer (encode_integer value prefix_bits flags [] ++ tail) prefix_bits =
  if value <? integer_limit prefix_bits
  then Ok (value, length (encode_integer value prefix_bits flags []))
  else Err IntegerOverflow.
Proof. apply decode_encode_integer_eq. Qed.

Lemma decode_encode_integer_witness :
  decode_integer (encode_integer 1337 5 0x20 [] ++ [7]) 5 = Ok (1337, 3%nat) /\
  decode_integer (encode_integer (2 ^ 40) 5 0x20 []) 5 = Err IntegerOverflow.
Proof.
  split.
  - apply (decode_encode_integer 1337 5 0x20 [7]); by vm_compute.
  - rewrite <- (app_nil_r (encode_integer _ _ _ _)).
    apply (decode_encode_integer (2 ^ 40) 5 0x20 []); by vm_compute.
Defined.

Lemma decode_loop_bounds octets position value v n base :
  bytes_ok octets -> (1 <= position)%nat -> 0 <= base <= value ->
  value < base + 2 ^ (7 * (Z.of_nat position - 1)) ->
  decode_integer_loop octets position value = Ok (v, n) ->
  base <= v < base + 2 ^ 28 /\ (position < n <= 5)%nat /\
  (n <= position + length octets)%nat.
Proof.
  intros Hok. revert position value.
  induction Hok as [|o octets Ho Hok IH]; intros position value Hp Hb Hv; [done|].
  cbn [decode_integer_loop length]. unfold MAX_INTEGER_OCTETS.
  destruct (Nat.leb_spec 5 position); [done|]. rewrite land_7f.
  assert (Hm : 0 <= o mod 128 < 128) by (apply Z.mod_pos_bound; lia).
  assert (Hw : 0 < 2 ^ (7 * (Z.of_nat position - 1))) by (apply Z.pow_pos_nonneg; lia).
  pose proof (octet_weight_S position ltac:(lia)) as HS.
  assert (H28 : 2 ^ (7 * (Z.of_nat (S position) - 1)) <= 2 ^ 28)
    by (apply Z.pow_le_mono_r; lia).
  rewrite Z.shiftl_mul_pow2 by lia. destruct (_ =? 0).
  - intros [= <- <-]. nia.
  - intros H1. apply IH in H1; [lia|lia|nia|nia].
Qed.

Lemma decode_integer_range (input : list Z) (prefix_bits v : Z) (n : nat) :
  bytes_ok input -> 1 <= prefix_bits <= 8 ->
  decode_integer input prefix_bits = Ok (v, n) ->
  0 <= v < integer_limit prefix_bits /\ u32_ok v /\
  (1 <= n <= MAX_INTEGER_OCTETS)%nat /\ (n <= length input)%nat.
Proof.
  intros Hok Hp. pose proof (prefix_mask_bounds _ Hp) as Hm.
  destruct Hok as [|first octets Hf Hok]; [done|].
  unfold decode_integer, integer_limit, MAX_INTEGER_OCTETS.
  rewrite land_prefix_mask by done.
  assert (0 <= first mod 2 ^ prefix_bits < 2 ^ prefix_bits)
    by (apply Z.mod_pos_bound, Z.pow_pos_nonneg; lia).
  pose proof (prefix_mask_eq _ Hp) as He. cbn [length]. widths.
  destruct (Z.ltb_spec (first mod 2 ^ prefix_bits) (prefix_mask prefix_bits)).
  - intros [= <- <-]. lia.
  - intros Hd. apply (decode_loop_bounds _ _ _ _ _ (prefix_mask prefix_bits)) in Hd;
      [lia|done|lia|lia|]. change (2 ^ (7 * (Z.of_nat 1 - 1))) with 1. lia.
Qed.

(** Octets that announce more octets of their integer: a full prefix, and
    continuation octets with their high bit set. *)
Definition unfinished (prefix_bits : Z) (octets : list Z) : Prop :=
  match octets with
  | [] => True
  | first :: octets => Z.land first (prefix_mask prefix_bits) = prefix_mask prefix_bits /\ Forall (fun o => 128 <= o) octets
  end.

Lemma continuation_bit o : u8_ok o -> Z.land o 0x80 = 0 <-> o < 128.
Proof.
  intros Ho. widths. destruct (Z.lt_ge_cases o 128); [split; [done | by rewrite land_80 by lia] |].
  replace o with (128 + (o - 128)) at 1 by lia. rewrite land_80_set by lia. split; [done | lia].
Qed.

Lemma decode_loop_error octets position value :
  bytes_ok octets -> (position <= MAX_INTEGER_OCTETS)%nat ->
  let unread := take (MAX_INTEGER_OCTETS - position) octets in
  match decode_integer_loop octets position value with
  | Ok _ => ~ Forall (fun o => 128 <= o) unread
  | Err e => Forall (fun o => 128 <= o) unread /\
      e = if decide (MAX_INTEGER_OCTETS - position < length octets)%nat then IntegerOverflow else Truncated
  end.
Proof.
  intros Hok. revert position value. induction Hok as [| o octets Ho Hok IH]; intros position value Hp unread.
  { subst unread. cbn. by rewrite take_nil. }
  subst unread. cbn [decode_integer_loop length]. destruct (Nat.leb_spec MAX_INTEGER_OCTETS position).
  { replace (MAX_INTEGER_OCTETS - position)%nat with 0%nat by lia. rewrite decide_True by lia. by split; [constructor |]. }
  replace (MAX_INTEGER_OCTETS - position)%nat with (S (MAX_INTEGER_OCTETS - S position)) by lia. cbn [take].
  destruct (Z.eqb_spec (Z.land o 0x80) 0) as [Hz | Hz]; rewrite (continuation_bit _ Ho) in Hz;
    [intros [? _]%Forall_cons; lia |].
  specialize (IH (S position) (value + Z.shiftl (Z.land o 0x7f) (7 * (Z.of_nat position - 1))) ltac:(lia)). cbn zeta in IH.
  destruct (decode_integer_loop octets (S position) _) as [|]; [by intros [_ ?]%Forall_cons |].
  destruct IH as [Hf ->]. split; [constructor; [lia | done] |]. repeat case_decide; done || lia.
Qed.

(** C34. A decoded integer is bounded by what four continuation octets can add
    to its prefix, so it fits 32 bits and the additions never overflow; it
    takes one to five octets, all of them inside the input.  It is refused
    exactly when none of its first five octets ends it, as truncated when the
    input has no sixth and as an overflow when it has. *)
Theorem decode_integer_bounds (input : list Z) (prefix_bits : Z) :
  bytes_ok input -> 1 <= prefix_bits <= 8 ->
  match decode_integer input prefix_bits with
  | Ok (v, n) =>
      0 <= v < integer_limit prefix_bits /\ u32_ok v /\
      (1 <= n <= MAX_INTEGER_OCTETS)%nat /\ (n <= length input)%nat /\
      ~ unfinished prefix_bits (take MAX_INTEGER_OCTETS input)
  | Err e =>
      unfinished prefix_bits (take MAX_INTEGER_OCTETS input) /\
      e = if decide (MAX_INTEGER_OCTETS < length input)%nat then IntegerOverflow else Truncated
  end.
Proof.
  intros Hok Hp. destruct (decode_integer input prefix_bits) as [[v n] | e] eqn:Hd.
  - destruct (decode_integer_range _ _ _ _ Hok Hp Hd) as (? & ? & ? & ?). do 4 (split; [done |]).
    destruct Hok as [| first octets Hf Hok]; [done |]. intros [Hm Hu]. unfold decode_integer in Hd.
    rewrite Hm, (proj2 (Z.ltb_ge _ _)) in Hd by lia.
    pose proof (decode_loop_error octets 1 (prefix_mask prefix_bits) Hok ltac:(unfold MAX_INTEGER_OCTETS; lia)) as Hl.
    rewrite Hd in Hl. by apply Hl.
  - destruct Hok as [| first octets Hf Hok]; [by injection Hd as <- |]. unfold decode_integer in Hd.
    assert (Z.land first (prefix_mask prefix_bits) <= prefix_mask prefix_bits).
    { rewrite land_prefix_mask by done. rewrite prefix_mask_eq by done.
      pose proof (Z.mod_pos_bound first (2 ^ prefix_bits) ltac:(apply Z.pow_pos_nonneg; lia)). lia. }
    destruct (Z.ltb_spec (Z.land first (prefix_mask prefix_bits)) (prefix_mask prefix_bits)); [done |].
    pose proof (decode_loop_error octets 1 (Z.land first (prefix_mask prefix_bits)) Hok ltac:(unfold MAX_INTEGER_OCTETS; lia)) as Hl.
    rewrite Hd in Hl. destruct Hl as [Hu ->]. split; [split; [lia | done] |]. cbn [length]. unfold MAX_INTEGER_OCTETS. repeat case_decide; done || lia.
Qed.

(** The largest integer of five octets, and its octets with the last marked as
    continued, before the end of the input and before a sixth octet. *)
Lemma decode_integer_bounds_witness :
  (decode_integer [0xff; 0xff; 0xff; 0xff; 0x7f] 8 = Ok (268435710, 5%nat) /\ u32_ok 268435710) /\
  (decode_integer [0xff; 0xff; 0xff; 0xff; 0xff] 8 = Err Truncated /\
   decode_integer [0xff; 0xff; 0xff; 0xff; 0xff; 0] 8 = Err IntegerOverflow).
Proof.
  split; [| by split]. split; [done |].
  assert (Hb : bytes_ok [0xff; 0xff; 0xff; 0xff; 0x7f]) by (repeat constructor; by vm_compute).
  pose proof (decode_integer_bounds [0xff; 0xff; 0xff; 0xff; 0x7f] 8 Hb ltac:(lia)) as H.
  exact (proj1 (proj2 H)).
Defined.

Lemma decode_loop_prefix octets position value v n tail :
  decode_integer_loop octets position value = Ok (v, n) ->
  decode_integer_loop (take (n - position) octets ++ tail) position value = Ok (v, n) /\
  (position < n)%nat.
Proof.
  revert position value. induction octets as [|o octets IH]; intros position value; [done|].
  cbn [decode_integer_loop]. destruct (_ <=? _)%nat eqn:E5; [done|].
  destruct (Z.land o 0x80 =? 0) eqn:E.
  - intros [= <- <-]. replace (S position - position)%nat with 1%nat by lia.
    cbn [take app decode_integer_loop]. rewrite E5, E. split; [done|lia].
  - intros H. apply IH in H as [H Hn]. split; [|lia].
    replace (n - position)%nat with (S (n - S position)) by lia.
    cbn [take app decode_integer_loop]. by rewrite E5, E.
Qed.

(** Decoding only reads the octets it reports. *)
Lemma decode_integer_prefix input p v n tail :
  decode_integer input p = Ok (v, n) ->
  decode_integer (take n input ++ tail) p = Ok (v, n).
Proof.
  destruct input as [|first octets]; [done|]. unfold decode_integer.
  destruct (_ <? _) eqn:E.
  - intros [= <- <-]. cbn. by rewrite E.
  - intros H. apply (decode_loop_prefix _ _ _ _ _ tail) in H as [H Hn].
    destruct n as [|n]; [lia|]. cbn [take app]. rewrite E.
    by replace (S n - 1)%nat with n in H by lia.
Qed.

(** The first octet of an encoding carries the flags and a prefix value. *)
Lemma encode_integer_head v p f :
  0 <= v -> 1 <= p <= 8 ->
  exists x tl, encode_integer v p f [] = Z.lor f x :: tl /\ 0 <= x <= prefix_mask p.
Proof.
  intros Hv Hp. pose proof (prefix_mask_bounds p Hp). unfold encode_integer.
  destruct (Z.ltb_spec v (prefix_mask p)).
  - rewrite wrap_small by (widths; lia). cbn. eexists _, _. split; [done|lia].
  - rewrite encode_integer_loop_out. cbn. eexists _, _. split; [done|lia].
Qed.

Lemma encode_integer_loop_ok fuel rest : 0 <= rest -> bytes_ok (encode_integer_loop fuel rest []).
Proof.
  revert rest. induction fuel as [|fuel IH]; intros rest Hr.
  { repeat constructor; apply wrap_ok; lia. }
  rewrite encode_integer_loop_S by done.
  assert (0 <= rest mod 128 < 128) by (apply Z.mod_pos_bound; lia).
  destruct (Z.leb_spec 0x80 rest); constructor; try (widths; lia); [|constructor].
  apply IH, Z.div_pos; lia.
Qed.

Lemma encode_integer_ok v p f : 0 <= v -> prefix_ok p f -> bytes_ok (encode_integer v p f []).
Proof.
  intros Hv (Hp & Hf & Hd). pose proof (prefix_mask_bounds p Hp).
  assert (Hlor : forall x, 0 <= x <= prefix_mask p -> u8_ok (Z.lor f x)).
  { intros x Hx. split; [apply Z.lor_nonneg; widths; lia|].
    destruct (decide (Z.lor f x = 0)) as [->|Hz]; [widths; lia|].
    assert (0 <= Z.lor f x) by (apply Z.lor_nonneg; widths; lia).
    apply Z.log2_lt_pow2; [lia|]. rewrite Z.log2_lor by (widths; lia).
    apply Z.max_lub_lt.
    - destruct (decide (f = 0)) as [->|]; [done|]. apply Z.log2_lt_pow2; widths; lia.
    - destruct (decide (x = 0)) as [->|]; [done|]. apply Z.log2_lt_pow2; widths; lia. }
  unfold encode_integer. destruct (Z.ltb_spec v (prefix_mask p)).
  - rewrite wrap_small by (widths; lia). repeat constructor; apply Hlor; lia.
  - rewrite encode_integer_loop_out. constructor; [apply Hlor; lia|].
    apply encode_integer_loop_ok. lia.
Qed.

Lemma decode_integer_consumed input p v n : decode_integer input p = Ok (v, n) -> (1 <= n)%nat.
Proof.
  destruct input as [|first octets]; [done|]. unfold decode_integer.
  destruct (_ <? _); [intros [= <- <-]; lia|].
  intros H. apply (decode_loop_prefix _ _ _ _ _ []) in H. lia.
Qed.
