(* ===== verification/HpackHuffman.v ===== *)
(** * HPACK Huffman code

    [lib/src/protocol/mux/hpack/huffman.rs]: the code of RFC 7541 Appendix B,
    the nibble-driven decoding machine that [build_machine] derives from it at
    compile time, the decoder and the encoder. A compile-time [assert!] is an
    [option]: [None] is a build that fails.

    The theorems go through a bit-by-bit reading of the code tree
    ([bit_decode]): the machine is shown to take the same steps four bits at a
    time, and the tree to be exactly the tree of [CODES]. *)

From S2P Require Import Prelude HpackInteger.

(** ** The code *)

Definition CODES : list (Z * nat) :=
  [(0x1ff8, 13%nat); (0x7fffd8, 23%nat); (0xfffffe2, 28%nat); (0xfffffe3, 28%nat);
   (0xfffffe4, 28%nat); (0xfffffe5, 28%nat); (0xfffffe6, 28%nat); (0xfffffe7, 28%nat);
   (0xfffffe8, 28%nat); (0xffffea, 24%nat); (0x3ffffffc, 30%nat); (0xfffffe9, 28%nat);
   (0xfffffea, 28%nat); (0x3ffffffd, 30%nat); (0xfffffeb, 28%nat); (0xfffffec, 28%nat);
   (0xfffffed, 28%nat); (0xfffffee, 28%nat); (0xfffffef, 28%nat); (0xffffff0, 28%nat);
   (0xffffff1, 28%nat); (0xffffff2, 28%nat); (0x3ffffffe, 30%nat); (0xffffff3, 28%nat);
   (0xffffff4, 28%nat); (0xffffff5, 28%nat); (0xffffff6, 28%nat); (0xffffff7, 28%nat);
   (0xffffff8, 28%nat); (0xffffff9, 28%nat); (0xffffffa, 28%nat); (0xffffffb, 28%nat);
   (0x14, 6%nat); (0x3f8, 10%nat); (0x3f9, 10%nat); (0xffa, 12%nat);
   (0x1ff9, 13%nat); (0x15, 6%nat); (0xf8, 8%nat); (0x7fa, 11%nat);
   (0x3fa, 10%nat); (0x3fb, 10%nat); (0xf9, 8%nat); (0x7fb, 11%nat);
   (0xfa, 8%nat); (0x16, 6%nat); (0x17, 6%nat); (0x18, 6%nat);
   (0x0, 5%nat); (0x1, 5%nat); (0x2, 5%nat); (0x19, 6%nat);
   (0x1a, 6%nat); (0x1b, 6%nat); (0x1c, 6%nat); (0x1d, 6%nat);
   (0x1e, 6%nat); (0x1f, 6%nat); (0x5c, 7%nat); (0xfb, 8%nat);
   (0x7ffc, 15%nat); (0x20, 6%nat); (0xffb, 12%nat); (0x3fc, 10%nat);
   (0x1ffa, 13%nat); (0x21, 6%nat); (0x5d, 7%nat); (0x5e, 7%nat);
   (0x5f, 7%nat); (0x60, 7%nat); (0x61, 7%nat); (0x62, 7%nat);
   (0x63, 7%nat); (0x64, 7%nat); (0x65, 7%nat); (0x66, 7%nat);
   (0x67, 7%nat); (0x68, 7%nat); (0x69, 7%nat); (0x6a, 7%nat);
   (0x6b, 7%nat); (0x6c, 7%nat); (0x6d, 7%nat); (0x6e, 7%nat);
   (0x6f, 7%nat); (0x70, 7%nat); (0x71, 7%nat); (0x72, 7%nat);
   (0xfc, 8%nat); (0x73, 7%nat); (0xfd, 8%nat); (0x1ffb, 13%nat);
   (0x7fff0, 19%nat); (0x1ffc, 13%nat); (0x3ffc, 14%nat); (0x22, 6%nat);
   (0x7ffd, 15%nat); (0x3, 5%nat); (0x23, 6%nat); (0x4, 5%nat);
   (0x24, 6%nat); (0x5, 5%nat); (0x25, 6%nat); (0x26, 6%nat);
   (0x27, 6%nat); (0x6, 5%nat); (0x74, 7%nat); (0x75, 7%nat);
   (0x28, 6%nat); (0x29, 6%nat); (0x2a, 6%nat); (0x7, 5%nat);
   (0x2b, 6%nat); (0x76, 7%nat); (0x2c, 6%nat); (0x8, 5%nat);
   (0x9, 5%nat); (0x2d, 6%nat); (0x77, 7%nat); (0x78, 7%nat);
   (0x79, 7%nat); (0x7a, 7%nat); (0x7b, 7%nat); (0x7ffe, 15%nat);
   (0x7fc, 11%nat); (0x3ffd, 14%nat); (0x1ffd, 13%nat); (0xffffffc, 28%nat);
   (0xfffe6, 20%nat); (0x3fffd2, 22%nat); (0xfffe7, 20%nat); (0xfffe8, 20%nat);
   (0x3fffd3, 22%nat); (0x3fffd4, 22%nat); (0x3fffd5, 22%nat); (0x7fffd9, 23%nat);
   (0x3fffd6, 22%nat); (0x7fffda, 23%nat); (0x7fffdb, 23%nat); (0x7fffdc, 23%nat);
   (0x7fffdd, 23%nat); (0x7fffde, 23%nat); (0xffffeb, 24%nat); (0x7fffdf, 23%nat);
   (0xffffec, 24%nat); (0xffffed, 24%nat); (0x3fffd7, 22%nat); (0x7fffe0, 23%nat);
   (0xffffee, 24%nat); (0x7fffe1, 23%nat); (0x7fffe2, 23%nat); (0x7fffe3, 23%nat);
   (0x7fffe4, 23%nat); (0x1fffdc, 21%nat); (0x3fffd8, 22%nat); (0x7fffe5, 23%nat);
   (0x3fffd9, 22%nat); (0x7fffe6, 23%nat); (0x7fffe7, 23%nat); (0xffffef, 24%nat);
   (0x3fffda, 22%nat); (0x1fffdd, 21%nat); (0xfffe9, 20%nat); (0x3fffdb, 22%nat);
   (0x3fffdc, 22%nat); (0x7fffe8, 23%nat); (0x7fffe9, 23%nat); (0x1fffde, 21%nat);
   (0x7fffea, 23%nat); (0x3fffdd, 22%nat); (0x3fffde, 22%nat); (0xfffff0, 24%nat);
   (0x1fffdf, 21%nat); (0x3fffdf, 22%nat); (0x7fffeb, 23%nat); (0x7fffec, 23%nat);
   (0x1fffe0, 21%nat); (0x1fffe1, 21%nat); (0x3fffe0, 22%nat); (0x1fffe2, 21%nat);
   (0x7fffed, 23%nat); (0x3fffe1, 22%nat); (0x7fffee, 23%nat); (0x7fffef, 23%nat);
   (0xfffea, 20%nat); (0x3fffe2, 22%nat); (0x3fffe3, 22%nat); (0x3fffe4, 22%nat);
   (0x7ffff0, 23%nat); (0x3fffe5, 22%nat); (0x3fffe6, 22%nat); (0x7ffff1, 23%nat);
   (0x3ffffe0, 26%nat); (0x3ffffe1, 26%nat); (0xfffeb, 20%nat); (0x7fff1, 19%nat);
   (0x3fffe7, 22%nat); (0x7ffff2, 23%nat); (0x3fffe8, 22%nat); (0x1ffffec, 25%nat);
   (0x3ffffe2, 26%nat); (0x3ffffe3, 26%nat); (0x3ffffe4, 26%nat); (0x7ffffde, 27%nat);
   (0x7ffffdf, 27%nat); (0x3ffffe5, 26%nat); (0xfffff1, 24%nat); (0x1ffffed, 25%nat);
   (0x7fff2, 19%nat); (0x1fffe3, 21%nat); (0x3ffffe6, 26%nat); (0x7ffffe0, 27%nat);
   (0x7ffffe1, 27%nat); (0x3ffffe7, 26%nat); (0x7ffffe2, 27%nat); (0xfffff2, 24%nat);
   (0x1fffe4, 21%nat); (0x1fffe5, 21%nat); (0x3ffffe8, 26%nat); (0x3ffffe9, 26%nat);
   (0xffffffd, 28%nat); (0x7ffffe3, 27%nat); (0x7ffffe4, 27%nat); (0x7ffffe5, 27%nat);
   (0xfffec, 20%nat); (0xfffff3, 24%nat); (0xfffed, 20%nat); (0x1fffe6, 21%nat);
   (0x3fffe9, 22%nat); (0x1fffe7, 21%nat); (0x1fffe8, 21%nat); (0x7ffff3, 23%nat);
   (0x3fffea, 22%nat); (0x3fffeb, 22%nat); (0x1ffffee, 25%nat); (0x1ffffef, 25%nat);
   (0xfffff4, 24%nat); (0xfffff5, 24%nat); (0x3ffffea, 26%nat); (0x7ffff4, 23%nat);
   (0x3ffffeb, 26%nat); (0x7ffffe6, 27%nat); (0x3ffffec, 26%nat); (0x3ffffed, 26%nat);
   (0x7ffffe7, 27%nat); (0x7ffffe8, 27%nat); (0x7ffffe9, 27%nat); (0x7ffffea, 27%nat);
   (0x7ffffeb, 27%nat); (0xffffffe, 28%nat); (0x7ffffec, 27%nat); (0x7ffffed, 27%nat);
   (0x7ffffee, 27%nat); (0x7ffffef, 27%nat); (0x7fffff0, 27%nat); (0x3ffffee, 26%nat);
   (0x3fffffff, 30%nat)].

(** Index of EOS in [CODES]. *)
Definition EOS : Z := 256.

(** ** The decoding machine *)

Definition EMIT : Z := 1.
Definition FAIL : Z := 2.
Definition NOT_PADDING : Z := 255.

Record Transition := mkTransition {
  next : Z;
  flags : Z;
  symbol : Z;
}.

Record Machine := mkMachine {
  transitions : list (list Transition);
  padding : list Z;
}.

(** A child of an internal node: an internal node below 256, or
    [LEAF + symbol], or [NONE] while the tree is being built. *)
Definition NONE : Z := 65535.
Definition LEAF : Z := 256.

Definition tree : Type := list (Z * Z).

(** [children[node][branch]] *)
Definition child_of (children : tree) (node : Z) (branch : bool) : Z :=
  match children !! Z.to_nat node with
  | Some (l, r) => if branch then r else l
  | None => NONE
  end.

(** [children[node][branch] = child] *)
Definition set_child (children : tree) (node : Z) (branch : bool) (child : Z) : tree :=
  alter (fun lr => if branch then (lr.1, child) else (child, lr.2)) (Z.to_nat node) children.

(** The inner [while bit > 1] loop: walks the code from its most significant
    bit to the node its last bit leaves from, adding the missing nodes. *)
Fixpoint descend (bit : nat) (code : Z) (children : tree) (internal node : Z)
    : option (tree * Z * Z) :=
  match bit with
  | S (S _ as bit) =>
      let branch := Z.testbit code (Z.of_nat bit) in
      let child := child_of children node branch in
      if child =? NONE then
        if internal <? 256
        then descend bit code (set_child children node branch internal) (internal + 1) internal
        else None
      else if child <? LEAF then descend bit code children internal child
      else None
  | _ => Some (children, internal, node)
  end.

(** The outer [while symbol < CODES.len()] loop. *)
Fixpoint add_codes (codes : list (Z * nat)) (symbol : Z) (children : tree) (internal : Z)
    : option (tree * Z) :=
  match codes with
  | [] => Some (children, internal)
  | (code, length) :: codes =>
      '(children, internal, node) ← descend length code children internal 0;
      let branch := Z.testbit code 0 in
      if child_of children node branch =? NONE
      then add_codes codes (symbol + 1)
             (set_child children node branch (LEAF + symbol)) internal
      else None
  end.

(** The tree, with the assertion that it has exactly 256 internal nodes. *)
Definition build_children : option tree :=
  '(children, internal) ← add_codes CODES 0 (replicate 256 (NONE, NONE)) 1;
  if internal =? 256 then Some children else None.

(** The [while children[node][1] < LEAF] loop, at most one turn per node. *)
Fixpoint mark_padding (fuel : nat) (children : tree) (node depth : Z) (padding : list Z)
    : Z * list Z :=
  match fuel with
  | O => (node, padding)
  | S fuel =>
      let child := child_of children node true in
      if child <? LEAF
      then mark_padding fuel children child (depth + 1)
             (<[Z.to_nat child := depth + 1]> padding)
      else (node, padding)
  end.

Definition build_padding (children : tree) : option (list Z) :=
  let '(node, padding) :=
    mark_padding 256 children 0 0 (<[0%nat := 0]> (replicate 256 NOT_PADDING)) in
  if child_of children node true =? LEAF + EOS then Some padding else None.

(** The [while bit > 0] loop that follows the four bits of a nibble. *)
Fixpoint follow_nibble (bit : nat) (children : tree) (nibble node flags emitted : Z)
    : option Transition :=
  match bit with
  | O => Some (mkTransition node flags emitted)
  | S bit =>
      let child := child_of children node (Z.testbit nibble (Z.of_nat bit)) in
      if LEAF <=? child then
        let symbol := child - LEAF in
        if symbol =? EOS then Some (mkTransition 0 FAIL emitted)
        else if Z.land flags EMIT =? 0
        then follow_nibble bit children nibble 0 (Z.lor flags EMIT) (to_u8 symbol)
        else None
      else follow_nibble bit children nibble child flags emitted
  end.

Definition build_transitions (children : tree) : option (list (list Transition)) :=
  mapM (fun state =>
    mapM (fun nibble => follow_nibble 4 children (Z.of_nat nibble) (Z.of_nat state) 0 0)
      (seq 0 16)) (seq 0 256).

Definition build_machine : option Machine :=
  children ← build_children;
  padding ← build_padding children;
  transitions ← build_transitions children;
  Some (mkMachine transitions padding).

(** [static MACHINE: Machine = build_machine()] *)
Definition MACHINE : Machine :=
  default (mkMachine [] []) build_machine.

(** ** Decoding *)

Definition max_decoded_len (encoded_len : nat) : nat := (encoded_len / 5 * 8 + 8)%nat.

(** [MACHINE.transitions[state][nibble]] *)
Definition transition_at (m : Machine) (state nibble : Z) : option Transition :=
  row ← transitions m !! Z.to_nat state; row !! Z.to_nat nibble.

(** The loop over the nibbles. An access outside the table would be a panic,
    [None]. *)
Fixpoint decode_nibbles (m : Machine) (nibbles : list Z) (state : Z) (out : list Z)
    : option (res HuffmanError (Z * list Z)) :=
  match nibbles with
  | [] => Some (Ok (state, out))
  | nibble :: nibbles =>
      t ← transition_at m state nibble;
      if negb (Z.land (flags t) FAIL =? 0) then Some (Err Eos)
      else
        let out := if negb (Z.land (flags t) EMIT =? 0) then out ++ [symbol t] else out in
        decode_nibbles m nibbles (next t) out
  end.

(** [[byte >> 4, byte & 0x0f]] for every octet, in order. *)
Definition nibbles_of (src : list Z) : list Z :=
  src ≫= fun byte => [Z.shiftr byte 4; Z.land byte 0x0f].

(** [huffman::decode], [None] when it panics. *)
Definition huffman_decode_opt (m : Machine) (src out : list Z)
    : option (res HuffmanError (list Z)) :=
  decoded ← decode_nibbles m (nibbles_of src) 0 out;
  match decoded with
  | Err e => Some (Err e)
  | Ok (state, out) =>
      ones ← padding m !! Z.to_nat state;
      Some (if ones =? NOT_PADDING then Err InvalidPadding
            else if 7 <? ones then Err PaddingTooLong
            else Ok out)
  end.

(** [huffman::decode] on the machine of the build. It never panics
    ([huffman_decode_total]), so the default is never taken. *)
Definition huffman_decode (src out : list Z) : res HuffmanError (list Z) :=
  default (Err Eos) (huffman_decode_opt MACHINE src out).

(** ** Encoding *)

Definition code_of (byte : Z) : Z * nat := default (0, 0%nat) (CODES !! Z.to_nat byte).

Definition encoded_len (src : list Z) : nat :=
  let bits := sum_list (map (fun byte => (code_of byte).2) src) in
  ((bits + 7) / 8)%nat.

(** The [while bits >= 8] loop. *)
Fixpoint flush_octets (bits : nat) (pending : Z) (out : list Z) : nat * list Z :=
  match bits with
  | S (S (S (S (S (S (S (S bits))))))) =>
      flush_octets bits pending (out ++ [to_u8 (Z.shiftr pending (Z.of_nat bits))])
  | _ => (bits, out)
  end.

(** The [for &byte in src] loop, returning the pending bits with the output. *)
Fixpoint encode_codes (src : list Z) (pending : Z) (bits : nat) (out : list Z)
    : Z * nat * list Z :=
  match src with
  | [] => (pending, bits, out)
  | byte :: src =>
      let '(code, length) := code_of byte in
      let pending := Z.lor (to_u64 (Z.shiftl pending (Z.of_nat length))) code in
      let '(bits, out) := flush_octets (bits + length) pending out in
      encode_codes src (Z.land pending (Z.shiftl 1 (Z.of_nat bits) - 1)) bits out
  end.

Definition huffman_encode (src out : list Z) : list Z :=
  let '(pending, bits, out) := encode_codes src 0 0 out in
  if (0 <? bits)%nat
  then out ++ [Z.lor (to_u8 (Z.shiftl pending (8 - Z.of_nat bits)))
                     (Z.shiftr 0xff (Z.of_nat bits))]
  else out.

(** ** The code tree, bit by bit *)

Definition TREE : tree := default [] build_children.

(** Reads a bit string from a node: the symbols it completes and the node it
    ends on, or [None] when it reaches the EOS leaf. *)
Fixpoint bit_decode (t : tree) (node : Z) (bits : list bool) : option (list Z * Z) :=
  match bits with
  | [] => Some ([], node)
  | b :: bits =>
      let child := child_of t node b in
      if child <? LEAF then bit_decode t child bits
      else if child =? LEAF + EOS then None
      else '(symbols, last) ← bit_decode t 0 bits; Some (child - LEAF :: symbols, last)
  end.

(** The bit string of one symbol and of a string of octets. *)
Definition code_bits (byte : Z) : list bool := bits_msb (code_of byte).2 (code_of byte).1.
Definition codes_bits (src : list Z) : list bool := src ≫= code_bits.

(** The bits that lead from the root to every internal node. *)
Fixpoint paths_from (fuel : nat) (t : tree) (node : Z) (path : list bool)
    (paths : list (list bool)) : list (list bool) :=
  match fuel with
  | O => paths
  | S fuel =>
      let visit b paths :=
        let child := child_of t node b in
        if child <? LEAF then paths_from fuel t child (path ++ [b]) paths else paths in
      visit true (visit false (<[Z.to_nat node := path]> paths))
  end.

Definition PATHS : list (list bool) := paths_from 31 TREE 0 [] (replicate 256 []).
Definition path_of (node : Z) : list bool := default [] (PATHS !! Z.to_nat node).

(** ** Facts about the tables, by evaluation

    The tables stay folded outside [vm_compute]. *)

Lemma MACHINE_eq : MACHINE = default (mkMachine [] []) build_machine.
Proof. reflexivity. Qed.

Lemma is_Some_default {A} (o : option A) (d : A) : is_Some o -> o = Some (default d o).
Proof. by intros [x ->]. Qed.

Global Opaque build_machine MACHINE TREE PATHS.

Definition states : list Z := Z.of_nat <$> seq 0 256.
Definition nibbles : list Z := Z.of_nat <$> seq 0 16.

Definition transition_agrees (m : Machine) (t : tree) (state nibble : Z) : bool :=
  match transition_at m state nibble, bit_decode t state (bits_msb 4 nibble) with
  | Some tr, None => negb (Z.land (flags tr) FAIL =? 0)
  | Some tr, Some (symbols, last) =>
      (Z.land (flags tr) FAIL =? 0) && (next tr =? last) &&
      bool_decide (symbols = if Z.land (flags tr) EMIT =? 0 then [] else [symbol tr])
  | None, _ => false
  end.

(** The child of a node is an internal node whose path extends the node's, or
    the leaf of a symbol whose code is the path extended. *)
Definition edge_agrees (t : tree) (path : Z -> list bool) (node : Z) (b : bool) : bool :=
  let child := child_of t node b in
  if child <? LEAF then (0 <=? child) && bool_decide (path child = path node ++ [b])
  else (child <=? LEAF + EOS) && bool_decide (code_bits (child - LEAF) = path node ++ [b]).

Definition padding_agrees (m : Machine) (path : Z -> list bool) (node : Z) : bool :=
  bool_decide (padding m !! Z.to_nat node =
    Some (if bool_decide (path node = replicate (length (path node)) true)
          then Z.of_nat (length (path node)) else NOT_PADDING)) &&
  (length (path node) <? 31)%nat.

Definition code_agrees (t : tree) (byte : Z) : bool :=
  let '(code, length) := code_of byte in
  bool_decide (bit_decode t 0 (code_bits byte) = Some ([byte], 0)) &&
  (5 <=? length)%nat && (length <=? 30)%nat && (0 <=? code) && (code <? 2 ^ Z.of_nat length).

Definition ones_agree (m : Machine) (t : tree) (k : nat) : bool :=
  match bit_decode t 0 (replicate k true) with
  | Some ([], node) => bool_decide (padding m !! Z.to_nat node = Some (Z.of_nat k))
  | _ => false
  end.

Lemma build_machine_is_Some : bool_decide (is_Some build_machine) = true.
Proof. vm_compute. reflexivity. Qed.

Lemma transitions_agree :
  forallb (fun state => forallb (transition_agrees MACHINE TREE state) nibbles) states = true.
Proof. vm_compute. reflexivity. Qed.

Lemma edges_agree :
  forallb (fun node => edge_agrees TREE path_of node false && edge_agrees TREE path_of node true) states = true.
Proof. vm_compute. reflexivity. Qed.

Lemma paddings_agree : forallb (padding_agrees MACHINE path_of) states = true.
Proof. vm_compute. reflexivity. Qed.

Lemma codes_agree : forallb (code_agrees TREE) states = true.
Proof. vm_compute. reflexivity. Qed.

Lemma all_ones_agree : forallb (ones_agree MACHINE TREE) (seq 0 8) = true.
Proof. vm_compute. reflexivity. Qed.

Lemma path_root : path_of 0 = [].
Proof. vm_compute. reflexivity. Qed.

(** ** The decoder of any machine that agrees with a code tree

    The tables are variables here, so that no proof step evaluates them. *)

Definition state_ok (node : Z) : Prop := 0 <= node < 256.

Lemma state_ok_root : state_ok 0.
Proof. unfold state_ok. lia. Qed.
#[local] Hint Resolve state_ok_root : core.

Lemma codes_bits_nil : codes_bits [] = [].
Proof. done. Qed.

Lemma codes_bits_cons byte src : codes_bits (byte :: src) = code_bits byte ++ codes_bits src.
Proof. done. Qed.

Lemma codes_bits_app s1 s2 : codes_bits (s1 ++ s2) = codes_bits s1 ++ codes_bits s2.
Proof. apply bind_app. Qed.

Lemma length_codes_bits src :
  length (codes_bits src) = sum_list (map (fun byte => (code_of byte).2) src).
Proof.
  induction src as [|b src IH]; [done|].
  rewrite codes_bits_cons, length_app, IH. unfold code_bits. by rewrite length_bits_msb.
Qed.

Lemma code_bits_eq byte : code_bits byte = bits_msb (code_of byte).2 (code_of byte).1.
Proof. done. Qed.

#[local] Opaque code_of code_bits codes_bits.

Section Agreement.

Context (m : Machine) (t : tree) (path : Z -> list bool).

Hypothesis transitions_ok :
  forallb (fun state => forallb (transition_agrees m t state) nibbles) states = true.
Hypothesis edges_ok :
  forallb (fun node => edge_agrees t path node false && edge_agrees t path node true) states
  = true.
Hypothesis padding_ok : forallb (padding_agrees m path) states = true.
Hypothesis codes_ok : forallb (code_agrees t) states = true.
Hypothesis ones_ok : forallb (ones_agree m t) (seq 0 8) = true.
Hypothesis root_ok : path 0 = [].

Lemma edge_fact node b : state_ok node -> edge_agrees t path node b = true.
Proof.
  intros Hn. pose proof (forallb_range _ 256 node edges_ok Hn) as H.
  cbn beta in H. apply andb_prop in H as [H1 H2]. by destruct b.
Qed.

(** What an edge of the tree leads to. *)
Lemma edge_cases node b :
  state_ok node ->
  ((child_of t node b <? LEAF) = true /\ state_ok (child_of t node b) /\
   path (child_of t node b) = path node ++ [b]) \/
  ((child_of t node b <? LEAF) = false /\
   0 <= child_of t node b - LEAF <= EOS /\
   code_bits (child_of t node b - LEAF) = path node ++ [b]).
Proof.
  intros Hn. pose proof (edge_fact node b Hn) as He. unfold edge_agrees in He.
  destruct (child_of t node b <? LEAF) eqn:El; [left|right];
    apply andb_prop in He as [H0 He]; apply bool_decide_eq_true in He;
    unfold state_ok, LEAF in *; (split; [done|split; [lia|done]]).
Qed.

Lemma code_fact byte :
  u8_ok byte ->
  bit_decode t 0 (code_bits byte) = Some ([byte], 0) /\
  (5 <= (code_of byte).2 <= 30)%nat /\ 0 <= (code_of byte).1 < 2 ^ Z.of_nat (code_of byte).2.
Proof.
  intros Hb. pose proof (forallb_range _ 256 byte codes_ok Hb) as H.
  unfold code_agrees in H. destruct (code_of byte) as [code len].
  repeat (apply andb_prop in H as [H ?]). apply bool_decide_eq_true in H.
  repeat match goal with
  | E : (_ <=? _)%nat = true |- _ => apply Nat.leb_le in E
  end.
  simpl. split; [done|]. lia.
Qed.

Lemma transition_fact state nibble :
  state_ok state -> 0 <= nibble < 16 -> transition_agrees m t state nibble = true.
Proof.
  intros Hs Hn. pose proof (forallb_range _ 256 state transitions_ok Hs) as H.
  exact (forallb_range _ 16 nibble H Hn).
Qed.

(** Internal nodes lead to internal nodes. *)
Lemma bit_decode_state_ok bits : forall node symbols last,
  state_ok node -> bit_decode t node bits = Some (symbols, last) ->
  state_ok last /\ bytes_ok symbols.
Proof.
  induction bits as [|b bits IH]; intros node symbols last Hn; simpl.
  { intros [= <- <-]. split; [done|constructor]. }
  destruct (edge_cases node b Hn) as [(-> & Hc & _)|(-> & Hc & _)]; [by apply IH|].
  destruct (Z.eqb_spec (child_of t node b) (LEAF + EOS)); [done|].
  destruct (bit_decode t 0 bits) as [[ss l]|] eqn:E; [|done].
  simpl. intros [= <- <-]. apply IH in E as [Hl Hss]; [|done].
  split; [done|]. constructor; [|done]. unfold EOS, LEAF in *. widths. lia.
Qed.

(** Every accepted bit string is the codes of the symbols it gives, between the
    paths of the nodes it starts and ends on. *)
Lemma bit_decode_sound bits : forall node symbols last,
  state_ok node -> bit_decode t node bits = Some (symbols, last) ->
  path node ++ bits = codes_bits symbols ++ path last.
Proof.
  induction bits as [|b bits IH]; intros node symbols last Hn; simpl.
  { intros [= <- <-]. by rewrite codes_bits_nil, app_nil_r. }
  destruct (edge_cases node b Hn) as [(-> & Hc & Hp)|(-> & Hc & Hp)].
  - intros H. apply IH in H; [|done]. by rewrite <- H, Hp, <- app_assoc.
  - destruct (_ =? LEAF + EOS); [done|].
    destruct (bit_decode t 0 bits) as [[ss l]|] eqn:E; [|done].
    simpl. intros [= <- <-]. apply IH in E; [|done].
    rewrite root_ok in E. simpl in E.
    by rewrite codes_bits_cons, Hp, <- !app_assoc, <- E.
Qed.

Lemma bit_decode_app b1 b2 : forall node,
  bit_decode t node (b1 ++ b2) =
  '(s1, n1) ← bit_decode t node b1;
  '(s2, n2) ← bit_decode t n1 b2; Some (s1 ++ s2, n2).
Proof.
  induction b1 as [|b b1 IH]; intros node; simpl.
  { destruct (bit_decode t node b2) as [[]|]; done. }
  destruct (_ <? LEAF); [apply IH|]. destruct (_ =? LEAF + EOS); [done|].
  rewrite IH. destruct (bit_decode t 0 b1) as [[s1 n1]|]; [|done]. simpl.
  destruct (bit_decode t n1 b2) as [[s2 n2]|]; done.
Qed.

(** The codes of a string read back as the string. *)
Lemma bit_decode_codes src rest :
  bytes_ok src ->
  bit_decode t 0 (codes_bits src ++ rest) =
  '(s, n) ← bit_decode t 0 rest; Some (src ++ s, n).
Proof.
  induction 1 as [|byte src Hb Hsrc IH].
  { rewrite codes_bits_nil. simpl. destruct (bit_decode t 0 rest) as [[]|]; done. }
  rewrite codes_bits_cons, <- app_assoc, bit_decode_app.
  destruct (code_fact byte Hb) as [-> _]. simpl. rewrite IH.
  destruct (bit_decode t 0 rest) as [[]|]; done.
Qed.

(** Four bits at a time or one at a time, the decoder does the same. *)
Lemma decode_nibbles_bits ns : forall state out,
  Forall (fun n => 0 <= n < 16) ns -> state_ok state ->
  decode_nibbles m ns state out =
  Some match bit_decode t state (ns ≫= bits_msb 4) with
       | None => Err Eos
       | Some (symbols, last) => Ok (last, out ++ symbols)
       end.
Proof.
  induction ns as [|n ns IH]; intros state out Hns Hs.
  { simpl. by rewrite app_nil_r. }
  apply Forall_cons in Hns as [Hn Hns].
  pose proof (transition_fact state n Hs Hn) as Ht. unfold transition_agrees in Ht.
  cbn [decode_nibbles]. rewrite bind_cons, bit_decode_app.
  destruct (transition_at m state n) as [tr|] eqn:Etr; [|done].
  destruct (bit_decode t state (bits_msb 4 n)) as [[symbols last]|] eqn:Ed; simpl.
  - apply andb_prop in Ht as [Ht Hsym]. apply andb_prop in Ht as [Hf Hnext].
    apply bool_decide_eq_true in Hsym. rewrite Hf. simpl.
    apply Z.eqb_eq in Hnext. rewrite Hnext.
    destruct (bit_decode_state_ok _ _ _ _ Hs Ed) as [Hlast _].
    rewrite IH by done. destruct (bit_decode t last _) as [[s2 n2]|]; [|done]. simpl.
    rewrite Hsym. destruct (Z.land (flags tr) EMIT =? 0); simpl.
    + done.
    + by rewrite <- app_assoc.
  - by rewrite Ht.
Qed.

Lemma padding_fact node :
  state_ok node ->
  padding m !! Z.to_nat node =
    Some (if bool_decide (path node = replicate (length (path node)) true)
          then Z.of_nat (length (path node)) else NOT_PADDING) /\
  (length (path node) < 31)%nat.
Proof.
  intros Hn. pose proof (forallb_range _ 256 node padding_ok Hn) as H.
  unfold padding_agrees in H. apply andb_prop in H as [H1 H2].
  apply bool_decide_eq_true in H1. apply Nat.ltb_lt in H2. done.
Qed.

Lemma land_0f z : Z.land z 0x0f = z mod 2 ^ 4.
Proof. apply (land_mask_mod z 4). lia. Qed.

Lemma nibbles_of_bits src : nibbles_of src ≫= bits_msb 4 = bits_of_bytes src.
Proof.
  induction src as [|b src IH]; [done|].
  change (nibbles_of (b :: src)) with (Z.shiftr b 4 :: Z.land b 0x0f :: nibbles_of src).
  rewrite !bind_cons, IH. unfold bits_of_bytes. rewrite bind_cons, app_assoc. f_equal.
  rewrite land_0f, Z.shiftr_div_pow2 by lia.
  symmetry. apply (bits_msb_split 4 4 b).
Qed.

Lemma nibbles_of_range src : bytes_ok src -> Forall (fun n => 0 <= n < 16) (nibbles_of src).
Proof.
  induction 1 as [|b src Hb Hsrc IH]; [constructor|].
  change (nibbles_of (b :: src)) with (Z.shiftr b 4 :: Z.land b 0x0f :: nibbles_of src).
  rewrite land_0f, Z.shiftr_div_pow2 by lia.
  widths. repeat constructor; try done; zify_div.
Qed.

(** The whole decoder, in terms of the bits of its input. *)
Lemma huffman_decode_bits src out :
  bytes_ok src ->
  huffman_decode_opt m src out =
  Some match bit_decode t 0 (bits_of_bytes src) with
       | None => Err Eos
       | Some (symbols, last) =>
           let p := path last in
           if bool_decide (p = replicate (length p) true)
           then if (7 <? length p)%nat then Err PaddingTooLong else Ok (out ++ symbols)
           else Err InvalidPadding
       end.
Proof.
  intros Hok. unfold huffman_decode_opt.
  rewrite decode_nibbles_bits by (done || by apply nibbles_of_range).
  rewrite nibbles_of_bits. cbn [mbind option_bind].
  destruct (bit_decode t 0 (bits_of_bytes src)) as [[symbols last]|] eqn:E; [|done].
  destruct (bit_decode_state_ok _ _ _ _ state_ok_root E) as [Hl _].
  destruct (padding_fact last Hl) as [-> Hlen]. cbn [mbind option_bind]. f_equal.
  case_bool_decide; [|done]. unfold NOT_PADDING.
  destruct (Z.eqb_spec (Z.of_nat (length (path last))) 255); [lia|].
  destruct (Z.ltb_spec 7 (Z.of_nat (length (path last))));
  destruct (Nat.ltb_spec 7 (length (path last))); (done || lia).
Qed.

Lemma huffman_decode_sound src out out' :
  bytes_ok src -> huffman_decode_opt m src out = Some (Ok out') ->
  exists s k, out' = out ++ s /\ bytes_ok s /\ (k <= 7)%nat /\
    bits_of_bytes src = codes_bits s ++ replicate k true.
Proof.
  intros Hok. rewrite huffman_decode_bits by done.
  destruct (bit_decode t 0 (bits_of_bytes src)) as [[s last]|] eqn:E; [|done].
  cbv zeta. case_bool_decide as Hp; [|done].
  destruct (Nat.ltb_spec 7 (length (path last))); [done|]. intros [= <-].
  exists s, (length (path last)).
  destruct (bit_decode_state_ok _ _ _ _ state_ok_root E) as [_ Hs].
  apply bit_decode_sound in E; [|done]. rewrite root_ok in E. simpl in E.
  by rewrite E, <- Hp.
Qed.

Lemma ones_fact k :
  (k <= 7)%nat ->
  exists node, bit_decode t 0 (replicate k true) = Some ([], node) /\
    padding m !! Z.to_nat node = Some (Z.of_nat k).
Proof.
  intros Hk. pose proof ones_ok as H. rewrite forallb_forall in H.
  specialize (H k). unfold ones_agree in H.
  assert (HIn : In k (seq 0 8)) by (apply in_seq; lia). specialize (H HIn).
  destruct (bit_decode t 0 (replicate k true)) as [[[|? ?] node]|]; [|done..].
  apply bool_decide_eq_true in H. eauto.
Qed.

Lemma huffman_decode_complete src s k out :
  bytes_ok src -> bytes_ok s -> (k <= 7)%nat ->
  bits_of_bytes src = codes_bits s ++ replicate k true ->
  huffman_decode_opt m src out = Some (Ok (out ++ s)).
Proof.
  intros Hok Hs Hk Hbits. unfold huffman_decode_opt.
  rewrite decode_nibbles_bits by (done || by apply nibbles_of_range).
  rewrite nibbles_of_bits, Hbits, bit_decode_codes by done.
  destruct (ones_fact k Hk) as (node & -> & Hpad). cbn [mbind option_bind].
  rewrite Hpad. cbn [mbind option_bind]. unfold NOT_PADDING.
  destruct (Z.eqb_spec (Z.of_nat k) 255); [lia|].
  destruct (Z.ltb_spec 7 (Z.of_nat k)); [lia|]. by rewrite app_nil_r.
Qed.

End Agreement.

(** ** The encoder *)

(** [while bits >= 8] leaves fewer than eight bits and moves the others out. *)
Lemma flush_octets_bits n : forall bits pending out,
  (bits <= n)%nat ->
  let '(bits', out') := flush_octets bits pending out in
  (bits' < 8)%nat /\ (bytes_ok out -> bytes_ok out') /\
  bits_of_bytes out' ++ bits_msb bits' pending = bits_of_bytes out ++ bits_msb bits pending.
Proof.
  induction n as [|n IH]; intros bits pending out Hn.
  { destruct bits; [|lia]. simpl. split; [lia|done]. }
  destruct (decide (bits < 8)%nat) as [Hlt|Hge].
  { do 8 (destruct bits as [|bits]; [simpl; split; [lia|done]|]). lia. }
  replace bits with (8 + (bits - 8))%nat by lia. set (b := (bits - 8)%nat).
  change (flush_octets (8 + b) pending out) with
    (flush_octets b pending (out ++ [to_u8 (Z.shiftr pending (Z.of_nat b))])).
  specialize (IH b pending (out ++ [to_u8 (Z.shiftr pending (Z.of_nat b))]) ltac:(lia)).
  destruct (flush_octets _ _ _) as [bits' out']. destruct IH as (H1 & H2 & H3).
  split; [done|]. split.
  { intros Hout. apply H2, bytes_ok_app. split; [done|].
    repeat constructor; apply wrap_ok; lia. }
  rewrite H3, bits_of_bytes_app, <- app_assoc. f_equal.
  rewrite (bits_msb_split 8 b), bits_msb_mod by lia. f_equal.
  unfold bits_of_bytes. rewrite bind_cons, app_nil_r. unfold wrap.
  rewrite (bits_msb_mod 8 8) by lia. by rewrite Z.shiftr_div_pow2 by lia.
Qed.

(** Appending a code to fewer than eight pending bits stays within a [u64]. *)
Lemma append_code_value pending bits code len :
  0 <= pending < 2 ^ Z.of_nat bits -> (bits < 8)%nat -> (len <= 30)%nat ->
  0 <= code < 2 ^ Z.of_nat len ->
  Z.lor (to_u64 (Z.shiftl pending (Z.of_nat len))) code = pending * 2 ^ Z.of_nat len + code.
Proof.
  intros Hp Hb Hl Hc. rewrite wrap_small; [by apply lor_shiftl_add; [lia|]|].
  rewrite Z.shiftl_mul_pow2 by lia.
  assert (2 ^ Z.of_nat bits <= 2 ^ 7) by (apply Z.pow_le_mono_r; lia).
  assert (2 ^ Z.of_nat len <= 2 ^ 30) by (apply Z.pow_le_mono_r; lia).
  widths. nia.
Qed.

Lemma encode_codes_bits src : forall pending bits out,
  bytes_ok src -> bytes_ok out -> (bits < 8)%nat -> 0 <= pending < 2 ^ Z.of_nat bits ->
  let '(pending', bits', out') := encode_codes src pending bits out in
  (bits' < 8)%nat /\ 0 <= pending' < 2 ^ Z.of_nat bits' /\ bytes_ok out' /\
  bits_of_bytes out' ++ bits_msb bits' pending' =
  bits_of_bytes out ++ bits_msb bits pending ++ codes_bits src.
Proof.
  induction src as [|byte src IH]; intros pending bits out Hsrc Hout Hbits Hp.
  { simpl. rewrite codes_bits_nil, app_nil_r. done. }
  apply Forall_cons in Hsrc as [Hb Hsrc].
  destruct (code_fact TREE codes_agree byte Hb) as (_ & Hlen & Hcode).
  cbn [encode_codes]. rewrite codes_bits_cons, code_bits_eq.
  destruct (code_of byte) as [code len]. cbn [fst snd] in *.
  rewrite (append_code_value _ bits) by (done || lia).
  set (pend := pending * 2 ^ Z.of_nat len + code).
  pose proof (flush_octets_bits (bits + len) (bits + len) pend out ltac:(lia)) as Hf.
  destruct (flush_octets (bits + len) pend out) as [bits1 out1].
  destruct Hf as (Hb1 & Hok1 & Hf). rewrite Z.shiftl_1_l, land_mask_mod by lia.
  specialize (IH (pend mod 2 ^ Z.of_nat bits1) bits1 out1 Hsrc (Hok1 Hout) Hb1
    ltac:(apply Z.mod_pos_bound; lia)).
  destruct (encode_codes _ _ _ _) as [[pending' bits'] out'].
  destruct IH as (H1 & H2 & H3 & H4). repeat split; try done; try lia.
  rewrite H4, bits_msb_mod, app_assoc, Hf by lia. unfold pend.
  rewrite bits_msb_app by done. by rewrite <- !app_assoc.
Qed.

(** The encoding is the codes followed by at most seven ones. *)
Lemma huffman_encode_bits src out :
  bytes_ok src -> bytes_ok out ->
  bytes_ok (huffman_encode src out) /\
  exists k, (k <= 7)%nat /\ bits_of_bytes (huffman_encode src out) =
    bits_of_bytes out ++ codes_bits src ++ replicate k true.
Proof.
  intros Hsrc Hout. unfold huffman_encode.
  pose proof (encode_codes_bits src 0 0 out Hsrc Hout ltac:(lia) ltac:(simpl; lia)) as H.
  destruct (encode_codes src 0 0 out) as [[pending bits] out'].
  destruct H as (Hb & Hp & Hok & H). simpl in H.
  destruct (Nat.ltb_spec 0 bits) as [Hpos|Hz].
  - set (w := (8 - bits)%nat).
    assert (Hones : Z.shiftr 0xff (Z.of_nat bits) = 2 ^ Z.of_nat w - 1).
    { do 8 (destruct bits as [|bits]; [try lia; done|]). lia. }
    assert (Hpow : 2 ^ Z.of_nat bits * 2 ^ Z.of_nat w = 256).
    { rewrite <- Z.pow_add_r by lia. by replace (Z.of_nat bits + Z.of_nat w) with 8 by lia. }
    assert (Hw : 0 < 2 ^ Z.of_nat w) by (apply Z.pow_pos_nonneg; lia).
    replace (8 - Z.of_nat bits) with (Z.of_nat w) by lia.
    rewrite wrap_small
      by (rewrite Z.shiftl_mul_pow2 by lia; widths; nia).
    rewrite Hones, lor_shiftl_add by lia. split.
    { apply bytes_ok_app. split; [done|]. repeat constructor; widths; nia. }
    exists w. split; [lia|]. rewrite bits_of_bytes_app, app_assoc, <- H, <- app_assoc. f_equal.
    unfold bits_of_bytes. rewrite bind_cons, app_nil_r.
    replace 8%nat with (bits + w)%nat at 1 by lia. rewrite bits_msb_app by lia.
    by rewrite bits_msb_ones.
  - replace bits with 0%nat in * by lia. split; [done|]. exists 0%nat. split; [lia|].
    rewrite app_nil_r in *. done.
Qed.

Lemma flush_octets_out n : forall bits pending out,
  (bits <= n)%nat ->
  flush_octets bits pending out =
  ((flush_octets bits pending []).1, out ++ (flush_octets bits pending []).2).
Proof.
  induction n as [|n IH]; intros bits pending out Hn.
  { destruct bits; [|lia]. simpl. by rewrite app_nil_r. }
  destruct (decide (bits < 8)%nat) as [Hlt|Hge].
  { do 8 (destruct bits as [|bits]; [simpl; by rewrite app_nil_r|]). lia. }
  replace bits with (8 + (bits - 8))%nat by lia. set (b := (bits - 8)%nat).
  change (flush_octets (8 + b) pending ?o) with
    (flush_octets b pending (o ++ [to_u8 (Z.shiftr pending (Z.of_nat b))])).
  rewrite (IH b pending (out ++ _)), (IH b pending ([] ++ _)) by lia. simpl.
  by rewrite <- app_assoc.
Qed.

Lemma encode_codes_out src : forall pending bits out,
  encode_codes src pending bits out =
  ((encode_codes src pending bits []).1, out ++ (encode_codes src pending bits []).2).
Proof.
  induction src as [|byte src IH]; intros pending bits out; cbn [encode_codes].
  { by rewrite app_nil_r. }
  destruct (code_of byte) as [code len].
  rewrite (flush_octets_out _ _ _ out (Nat.le_refl _)).
  destruct (flush_octets _ _ []) as [b o]. cbn [fst snd].
  rewrite (IH _ _ (out ++ o)), (IH _ _ o). simpl. by rewrite app_assoc.
Qed.

Lemma huffman_encode_out src out : huffman_encode src out = out ++ huffman_encode src [].
Proof.
  unfold huffman_encode. rewrite (encode_codes_out _ _ _ out).
  destruct (encode_codes src 0 0 []) as [[p b] o]. simpl.
  destruct (_ <? _)%nat; [|done]. by rewrite app_assoc.
Qed.

(** ** Properties *)

Lemma bits_of_bytes_len_mod l b k :
  bits_of_bytes l = b ++ replicate k true -> (k <= 7)%nat ->
  (Nat.div (length b + 7) 8 = length l)%nat.
Proof.
  intros H Hk. apply (f_equal length) in H.
  rewrite length_bits_of_bytes, length_app, length_replicate in H.
  symmetry. apply (Nat.div_unique _ _ _ (7 - k)); lia.
Qed.

(** The compile-time assertions of [build_machine] all hold: the code is a
    complete prefix code of 256 internal nodes whose all-ones code is EOS, and
    no nibble completes two symbols. *)
Theorem build_machine_succeeds : build_machine = Some MACHINE.
Proof.
  rewrite MACHINE_eq. apply is_Some_default. eapply bool_decide_eq_true.
  exact build_machine_is_Some.
Qed.

Lemma huffman_decode_encode_eq (s out : list Z) :
  bytes_ok s -> huffman_decode (huffman_encode s []) out = Ok (out ++ s).
Proof.
  intros Hs. destruct (huffman_encode_bits s [] Hs (Forall_nil_2 _)) as (Hok & k & Hk & Hbits).
  unfold huffman_decode.
  rewrite (huffman_decode_complete MACHINE TREE path_of transitions_agree edges_agree
    codes_agree all_ones_agree _ s k) by done. done.
Qed.

(** Huffman decoding inverts Huffman encoding on every octet string. *)
Theorem huffman_decode_encode (s out : list Z) :
  bytes_ok s -> huffman_decode (huffman_encode s []) out = Ok (out ++ s).
Proof. apply huffman_decode_encode_eq. Qed.

Lemma huffman_decode_encode_witness :
  huffman_decode (huffman_encode (bstr "no-cache") []) [] = Ok (bstr "no-cache").
Proof. apply (huffman_decode_encode (bstr "no-cache") []). apply bstr_ok. Defined.

(** Huffman coding is canonical: the decoder accepts exactly the encoder's
    outputs, so no two inputs decode to the same string and every other
    padding, an EOS symbol or a truncated code is an error. *)
Theorem huffman_decode_canonical (src s : list Z) :
  bytes_ok src ->
  (huffman_decode src [] = Ok s <-> bytes_ok s /\ src = huffman_encode s []).
Proof.
  intros Hsrc. split.
  - unfold huffman_decode.
    destruct (huffman_decode_opt MACHINE src []) as [r|] eqn:E; [|done].
    simpl. intros ->.
    apply (huffman_decode_sound MACHINE TREE path_of transitions_agree edges_agree
      paddings_agree path_root) in E as (s' & k & Hs' & Hok & Hk & Hbits); [|done].
    simpl in Hs'. subst s'. split; [done|].
    destruct (huffman_encode_bits s [] Hok (Forall_nil_2 _)) as (Hok' & k' & Hk' & Hbits').
    simpl in Hbits'. apply bits_of_bytes_inj; [done|done|].
    pose proof (bits_of_bytes_len_mod _ _ _ Hbits Hk).
    pose proof (bits_of_bytes_len_mod _ _ _ Hbits' Hk').
    rewrite Hbits, Hbits'. do 2 f_equal.
    apply (f_equal length) in Hbits, Hbits'.
    rewrite length_bits_of_bytes, length_app, length_replicate in Hbits, Hbits'. lia.
  - intros [Hs ->].
    destruct (huffman_encode_bits s [] Hs (Forall_nil_2 _)) as (Hok & k & Hk & Hbits).
    unfold huffman_decode.
    by rewrite (huffman_decode_complete MACHINE TREE path_of transitions_agree edges_agree
      codes_agree all_ones_agree _ s k) by done.
Qed.

Lemma huffman_decode_canonical_witness :
  huffman_decode [0xa8; 0xeb; 0x10; 0x64; 0x9c; 0xbf] [] = Ok (bstr "no-cache") <->
  bytes_ok (bstr "no-cache") /\
  [0xa8; 0xeb; 0x10; 0x64; 0x9c; 0xbf] = huffman_encode (bstr "no-cache") [].
Proof.
  apply (huffman_decode_canonical [0xa8; 0xeb; 0x10; 0x64; 0x9c; 0xbf] (bstr "no-cache")).
  repeat constructor; by vm_compute.
Defined.

(** The decoder never indexes outside its tables. *)
Lemma huffman_decode_total src out :
  bytes_ok src -> huffman_decode_opt MACHINE src out = Some (huffman_decode src out).
Proof.
  intros Hsrc. unfold huffman_decode.
  by rewrite (huffman_decode_bits MACHINE TREE path_of transitions_agree edges_agree
    paddings_agree) by done.
Qed.

Lemma length_huffman_encode (src : list Z) :
  bytes_ok src -> length (huffman_encode src []) = encoded_len src.
Proof.
  intros Hs. destruct (huffman_encode_bits src [] Hs (Forall_nil_2 _)) as (_ & k & Hk & Hbits).
  simpl in Hbits. apply bits_of_bytes_len_mod in Hbits; [|done].
  unfold encoded_len. by rewrite <- length_codes_bits.
Qed.

(** [encoded_len] is the number of octets [encode] appends, so one
    reservation covers the whole output. *)
Theorem encoded_len_correct (src : list Z) :
  bytes_ok src -> length (huffman_encode src []) = encoded_len src.
Proof. apply length_huffman_encode. Qed.

Lemma encoded_len_correct_witness :
  length (huffman_encode (bstr "www.example.com") []) = 12%nat.
Proof. apply (encoded_len_correct (bstr "www.example.com")). apply bstr_ok. Defined.

Lemma length_codes_bits_ge s : bytes_ok s -> (5 * length s <= length (codes_bits s))%nat.
Proof.
  rewrite length_codes_bits. induction 1 as [|b s Hb Hs IH]; [done|].
  destruct (code_fact TREE codes_agree b Hb) as (_ & Hlen & _). simpl. lia.
Qed.

(** A decoded string fits the octets reserved for it: [max_decoded_len] of
    the input's length bounds what decoding appends. *)
Theorem huffman_decode_bounded (src out out' : list Z) :
  bytes_ok src -> huffman_decode src out = Ok out' ->
  exists s, out' = out ++ s /\ bytes_ok s /\
    (length s <= max_decoded_len (length src))%nat.
Proof.
  intros Hsrc Hd. pose proof (huffman_decode_total src out Hsrc) as Ht. rewrite Hd in Ht.
  apply (huffman_decode_sound MACHINE TREE path_of transitions_agree edges_agree
    paddings_agree path_root) in Ht as (s & k & -> & Hok & Hk & Hbits); [|done].
  exists s. split_and!; [done|done|].
  pose proof (length_codes_bits_ge s Hok).
  apply (f_equal length) in Hbits. rewrite length_bits_of_bytes, length_app in Hbits.
  unfold max_decoded_len. pose proof (Nat.div_mod_eq (length src) 5).
  pose proof (Nat.mod_upper_bound (length src) 5 ltac:(lia)). lia.
Qed.

Lemma huffman_decode_bounded_witness :
  exists s, bstr "no-cache" = [] ++ s /\ bytes_ok s /\ (length s <= max_decoded_len 6)%nat.
Proof.
  apply (huffman_decode_bounded [0xa8; 0xeb; 0x10; 0x64; 0x9c; 0xbf] []);
    [repeat constructor; by vm_compute|by vm_compute].
Defined.
