(* ===== verification/HpackTable.v ===== *)
(** * HPACK tables

    [lib/src/protocol/mux/hpack/table.rs]: the static table, and the dynamic
    table that keeps every entry in one byte buffer ([DynamicTable]).

    The abstract table is the list of its fields, newest first, cut to the
    longest prefix that fits the maximum size ([fit]). [represents] relates the
    buffer to it, and every operation is shown to refine the abstract one. *)

From S2P Require Import Prelude.

Abbreviation field := (list Z * list Z)%type.

Definition STATIC_TABLE : list field :=
  [(bstr ":authority", bstr "");
   (bstr ":method", bstr "GET");
   (bstr ":method", bstr "POST");
   (bstr ":path", bstr "/");
   (bstr ":path", bstr "/index.html");
   (bstr ":scheme", bstr "http");
   (bstr ":scheme", bstr "https");
   (bstr ":status", bstr "200");
   (bstr ":status", bstr "204");
   (bstr ":status", bstr "206");
   (bstr ":status", bstr "304");
   (bstr ":status", bstr "400");
   (bstr ":status", bstr "404");
   (bstr ":status", bstr "500");
   (bstr "accept-charset", bstr "");
   (bstr "accept-encoding", bstr "gzip, deflate");
   (bstr "accept-language", bstr "");
   (bstr "accept-ranges", bstr "");
   (bstr "accept", bstr "");
   (bstr "access-control-allow-origin", bstr "");
   (bstr "age", bstr "");
   (bstr "allow", bstr "");
   (bstr "authorization", bstr "");
   (bstr "cache-control", bstr "");
   (bstr "content-disposition", bstr "");
   (bstr "content-encoding", bstr "");
   (bstr "content-language", bstr "");
   (bstr "content-length", bstr "");
   (bstr "content-location", bstr "");
   (bstr "content-range", bstr "");
   (bstr "content-type", bstr "");
   (bstr "cookie", bstr "");
   (bstr "date", bstr "");
   (bstr "etag", bstr "");
   (bstr "expect", bstr "");
   (bstr "expires", bstr "");
   (bstr "from", bstr "");
   (bstr "host", bstr "");
   (bstr "if-match", bstr "");
   (bstr "if-modified-since", bstr "");
   (bstr "if-none-match", bstr "");
   (bstr "if-range", bstr "");
   (bstr "if-unmodified-since", bstr "");
   (bstr "last-modified", bstr "");
   (bstr "link", bstr "");
   (bstr "location", bstr "");
   (bstr "max-forwards", bstr "");
   (bstr "proxy-authenticate", bstr "");
   (bstr "proxy-authorization", bstr "");
   (bstr "range", bstr "");
   (bstr "referer", bstr "");
   (bstr "refresh", bstr "");
   (bstr "retry-after", bstr "");
   (bstr "server", bstr "");
   (bstr "set-cookie", bstr "");
   (bstr "strict-transport-security", bstr "");
   (bstr "transfer-encoding", bstr "");
   (bstr "user-agent", bstr "");
   (bstr "vary", bstr "");
   (bstr "via", bstr "");
   (bstr "www-authenticate", bstr "")].

Definition DYNAMIC_TABLE_START : Z := Z.of_nat (length STATIC_TABLE) + 1.
Definition ENTRY_OVERHEAD : Z := 32.
Definition DEFAULT_MAX_SIZE : Z := 4096.
Definition INITIAL_BYTES : Z := 512.

Record Entry := mkEntry {
  offset : nat;
  name_len : nat;
  value_len : nat;
}.

(** [capacity] is the capacity of the [bytes] vector, which [insert] reads. *)
Record DynamicTable := mkTable {
  bytes : list Z;
  capacity : nat;
  start : nat;
  entries : list Entry;
  size : Z;
  max_size : Z;
}.

Definition table_new (max_size : Z) : DynamicTable := mkTable [] 0 0 [] 0 max_size.

Definition table_len (t : DynamicTable) : nat := length (entries t).

(** [Vec<u8>::reserve]: no growth when the capacity suffices, else at least
    double, at least what is asked and at least eight octets. *)
Definition vec_reserve (cap len additional : nat) : nat :=
  if (cap - len <? additional)%nat then Nat.max 8 (Nat.max (2 * cap) (len + additional)) else cap.

(** [&self.bytes[offset..]] split into the name and the value of an entry. *)
Definition entry_field (bytes : list Z) (e : Entry) : field :=
  let value_start := (offset e + name_len e)%nat in
  (slice bytes (offset e) value_start, slice bytes value_start (value_start + value_len e)).

Definition table_get (t : DynamicTable) (index : nat) : option field :=
  if (index + 1 <=? table_len t)%nat
  then entry_field (bytes t) <$> entries t !! (table_len t - (index + 1))%nat
  else None.

(** Every entry, from the newest to the oldest. *)
Definition table_iter (t : DynamicTable) : list field :=
  omap (table_get t) (seq 0 (table_len t)).

Definition entry_size (name_len value_len : nat) : Z :=
  Z.of_nat name_len + Z.of_nat value_len + ENTRY_OVERHEAD.

Definition evict_oldest (t : DynamicTable) : DynamicTable :=
  match entries t with
  | [] => mkTable (bytes t) (capacity t) (start t) [] 0 (max_size t)
  | oldest :: rest =>
      let size := size t - entry_size (name_len oldest) (value_len oldest) in
      match rest with
      | next :: _ => mkTable (bytes t) (capacity t) (offset next) rest size (max_size t)
      | [] => mkTable [] (capacity t) 0 [] size (max_size t)
      end
  end.

(** [while self.size + needed > self.max_size { self.evict_oldest() }], which
    runs at most once per entry and once more on an empty table. *)
Fixpoint evict_while (fuel : nat) (needed : Z) (t : DynamicTable) : DynamicTable :=
  match fuel with
  | O => t
  | S fuel =>
      if max_size t <? size t + needed then evict_while fuel needed (evict_oldest t) else t
  end.

Definition evict_for (needed : Z) (t : DynamicTable) : DynamicTable :=
  evict_while (S (table_len t)) needed t.

Definition set_max_size (new_max : Z) (t : DynamicTable) : DynamicTable :=
  evict_for 0 (mkTable (bytes t) (capacity t) (start t) (entries t) (size t) new_max).

Definition table_clear (t : DynamicTable) : DynamicTable :=
  mkTable [] (capacity t) 0 [] 0 (max_size t).

Definition table_compact (t : DynamicTable) : DynamicTable :=
  let move e := mkEntry (offset e - start t) (name_len e) (value_len e) in
  mkTable (drop (start t) (bytes t)) (capacity t) 0 (move <$> entries t) (size t) (max_size t).

Definition table_insert (name value : list Z) (t : DynamicTable) : DynamicTable :=
  let esize := entry_size (length name) (length value) in
  if max_size t <? esize then table_clear t
  else
    let t := evict_for esize t in
    let needed := (length name + length value)%nat in
    let live := (length (bytes t) - start t)%nat in
    let t :=
      if (capacity t <? length (bytes t) + needed)%nat && (0 <? start t)%nat
         && (live <=? start t)%nat
      then table_compact t else t in
    let cap :=
      if (capacity t =? 0)%nat
      then vec_reserve 0 (length (bytes t))
             (Nat.max needed (Z.to_nat (Z.min INITIAL_BYTES (max_size t))))
      else vec_reserve (capacity t) (length (bytes t)) needed in
    mkTable (bytes t ++ name ++ value) cap (start t)
      (entries t ++ [mkEntry (length (bytes t)) (length name) (length value)])
      (size t + esize) (max_size t).

(** ** The abstract table *)

Definition field_size (f : field) : Z := entry_size (length f.1) (length f.2).

Definition fields_size (fs : list field) : Z := foldr (fun f acc => field_size f + acc) 0 fs.

(** The longest prefix of a list of fields, newest first, that fits a budget. *)
Fixpoint fit (budget : Z) (fs : list field) : list field :=
  match fs with
  | [] => []
  | f :: fs => if field_size f <=? budget then f :: fit (budget - field_size f) fs else []
  end.

(** The entries of consecutive fields laid out from [pos]. *)
Fixpoint layout (pos : nat) (fs : list field) : list Entry :=
  match fs with
  | [] => []
  | (n, v) :: fs =>
      mkEntry pos (length n) (length v) :: layout (pos + length n + length v) fs
  end.

Definition field_octets (f : field) : list Z := f.1 ++ f.2.

(** The table holds the fields [fs], oldest first: its entries tile the buffer
    from [start] in insertion order and their sizes add up to [size]. *)
Record holds (t : DynamicTable) (fs : list field) : Prop := mkHolds {
  holds_entries : entries t = layout (start t) fs;
  holds_start : (start t <= length (bytes t))%nat;
  holds_bytes : drop (start t) (bytes t) = fs ≫= field_octets;
  holds_size : size t = fields_size fs;
  holds_capacity : (length (bytes t) <= capacity t)%nat;
}.

(** The conditions of [check_invariants]: the table holds some fields, and they
    fit its maximum size. *)
Definition table_ok (t : DynamicTable) : Prop :=
  size t <= max_size t /\ exists fs, holds t fs.

(** ** Lemmas on the abstract table *)

Lemma field_size_pos f : 32 <= field_size f.
Proof. unfold field_size, entry_size, ENTRY_OVERHEAD. lia. Qed.

Lemma fields_size_nonneg fs : 0 <= fields_size fs.
Proof. induction fs as [|f fs IH]; simpl; [lia|]. pose proof (field_size_pos f). lia. Qed.

Lemma fields_size_app l1 l2 : fields_size (l1 ++ l2) = fields_size l1 + fields_size l2.
Proof. induction l1; simpl; lia. Qed.

Lemma fields_size_rev fs : fields_size (reverse fs) = fields_size fs.
Proof. induction fs as [|f fs IH]; [done|]. rewrite reverse_cons, fields_size_app. simpl. lia. Qed.

Lemma fields_size_octets fs :
  fields_size fs = Z.of_nat (length (fs ≫= field_octets)) + 32 * Z.of_nat (length fs).
Proof.
  induction fs as [|[n v] fs IH]; [done|].
  rewrite bind_cons, length_app. cbn [fields_size foldr length]. fold (fields_size fs).
  rewrite IH. unfold field_size, entry_size, ENTRY_OVERHEAD, field_octets. simpl.
  rewrite length_app. lia.
Qed.

Lemma fit_all budget fs : fields_size fs <= budget -> fit budget fs = fs.
Proof.
  revert budget. induction fs as [|f fs IH]; intros budget H; [done|]. simpl in *.
  pose proof (fields_size_nonneg fs). cmps. rewrite IH by lia. done.
Qed.

Lemma fit_size budget fs : 0 <= budget -> fields_size (fit budget fs) <= budget.
Proof.
  revert budget. induction fs as [|f fs IH]; intros budget H; simpl; [lia|].
  cmps; simpl; [|lia]. specialize (IH (budget - field_size f)). lia.
Qed.

Lemma fit_snoc budget l f :
  fit budget (l ++ [f]) =
  if fields_size (l ++ [f]) <=? budget then l ++ [f] else fit budget l.
Proof.
  revert budget. induction l as [|g l IH]; intros budget; simpl.
  { rewrite Z.add_0_r. done. }
  pose proof (fields_size_nonneg (l ++ [f])). rewrite IH.
  cmps; done.
Qed.

(** Eviction on a list that is oldest first. *)
Fixpoint evicted (budget : Z) (fs : list field) : list field :=
  match fs with
  | [] => []
  | f :: rest => if fields_size fs <=? budget then fs else evicted budget rest
  end.

Lemma rev_evicted budget fs : reverse (evicted budget fs) = fit budget (reverse fs).
Proof.
  induction fs as [|f fs IH]; [done|].
  cbn [evicted]. rewrite reverse_cons, fit_snoc.
  replace (fields_size (reverse fs ++ [f])) with (fields_size (f :: fs))
    by (rewrite fields_size_app, fields_size_rev; simpl; lia).
  destruct (_ <=? _); [apply reverse_cons|apply IH].
Qed.

Lemma evicted_size budget fs : 0 <= budget -> fields_size (evicted budget fs) <= budget.
Proof.
  intros H. rewrite <- fields_size_rev, rev_evicted. by apply fit_size.
Qed.

(** ** Lemmas on the layout *)

Lemma layout_app pos l1 l2 :
  layout pos (l1 ++ l2) = layout pos l1 ++ layout (pos + length (l1 ≫= field_octets)) l2.
Proof.
  revert pos. induction l1 as [|[n v] l1 IH]; intros pos.
  { simpl. by rewrite Nat.add_0_r. }
  rewrite bind_cons. cbn [app layout]. rewrite IH. do 2 f_equal.
  unfold field_octets. simpl. rewrite !length_app. f_equal. lia.
Qed.

Lemma layout_shift k pos fs :
  (fun e => mkEntry (offset e - k) (name_len e) (value_len e)) <$> layout (k + pos) fs
  = layout pos fs.
Proof.
  revert pos. induction fs as [|[n v] fs IH]; intros pos; [done|]. cbn.
  f_equal; [f_equal; lia|].
  replace (k + pos + length n + length v)%nat with (k + (pos + length n + length v))%nat by lia.
  apply IH.
Qed.

Lemma length_layout pos fs : length (layout pos fs) = length fs.
Proof. revert pos. induction fs as [|[n v] fs IH]; intros pos; simpl; [done|]. by rewrite IH. Qed.

Lemma entry_field_layout b pos fs rest i :
  drop pos b = (fs ≫= field_octets) ++ rest ->
  entry_field b <$> layout pos fs !! i = fs !! i.
Proof.
  revert pos i. induction fs as [|[n v] fs IH]; intros pos i H; [done|].
  rewrite bind_cons in H. unfold field_octets at 1 in H. simpl in H.
  rewrite <- !app_assoc in H. destruct i as [|i]; cbn.
  - unfold entry_field, slice. simpl. do 2 f_equal.
    + rewrite H. replace (pos + length n - pos)%nat with (length n) by lia.
      apply take_app_length.
    + rewrite <- drop_drop, H, drop_app_length.
      replace (_ - _)%nat with (length v) by lia. apply take_app_length.
  - apply IH. rewrite <- Nat.add_assoc, <- drop_drop, H, <- drop_drop, drop_app_length.
    by rewrite drop_app_length.
Qed.

Section Holds.

Context (t : DynamicTable) (fs : list field).
Hypothesis H : holds t fs.

Lemma holds_len : table_len t = length fs.
Proof. unfold table_len. rewrite (holds_entries _ _ H). apply length_layout. Qed.

Lemma holds_get i : table_get t i = reverse fs !! i.
Proof.
  unfold table_get. rewrite holds_len, (holds_entries _ _ H).
  destruct (Nat.leb_spec (i + 1) (length fs)) as [Hle|Hgt].
  - rewrite (entry_field_layout _ _ _ []) by (rewrite app_nil_r; apply H).
    rewrite reverse_lookup by lia. f_equal. lia.
  - symmetry. apply lookup_ge_None_2. rewrite length_reverse. lia.
Qed.

Lemma holds_iter : table_iter t = reverse fs.
Proof.
  unfold table_iter. rewrite holds_len.
  transitivity (omap (fun i => reverse fs !! i) (seq 0 (length (reverse fs)))).
  { rewrite length_reverse. apply list_omap_ext.
    apply Forall2_same_length_lookup_2; [done|]. intros i x y Hx Hy. simplify_eq.
    apply holds_get. }
  generalize (reverse fs). clear. intros l.
  induction l as [|x l IH] using rev_ind; [done|].
  rewrite length_app, Nat.add_1_r, seq_S, omap_app. cbn.
  rewrite lookup_app_r, Nat.sub_diag by lia. simpl. f_equal.
  rewrite <- IH at 2. apply list_omap_ext.
  apply Forall2_same_length_lookup_2; [done|]. intros i a b Ha Hb. simplify_eq.
  apply lookup_seq in Ha as [-> ?]. rewrite lookup_app_l by lia. done.
Qed.

End Holds.

(** ** The operations refine the abstract ones *)

Lemma holds_nil cap max : holds (mkTable [] cap 0 [] 0 max) [].
Proof. split; simpl; (done || lia). Qed.

Lemma evict_oldest_holds t f fs :
  holds t (f :: fs) ->
  holds (evict_oldest t) fs /\ max_size (evict_oldest t) = max_size t /\
  capacity (evict_oldest t) = capacity t.
Proof.
  intros [He Hs Hb Hz Hc]. destruct f as [n v]. unfold evict_oldest. rewrite He. cbn [layout].
  rewrite bind_cons in Hb. unfold field_octets at 1 in Hb. simpl in Hb.
  assert (Hsz : size t - entry_size (length n) (length v) = fields_size fs)
    by (rewrite Hz; simpl; unfold field_size; simpl; lia).
  destruct fs as [|[n2 v2] fs]; cbn [layout].
  - split; [|done]. split; simpl in *; try done; lia.
  - split; [|done]. split; try done; cbn [start bytes entries size max_size offset capacity].
    + apply (f_equal length) in Hb.
      rewrite length_drop, !length_app in Hb. lia.
    + rewrite <- Nat.add_assoc, <- drop_drop, Hb, <- app_assoc, <- drop_drop, drop_app_length.
      by rewrite drop_app_length.
Qed.

Lemma evict_while_holds fs : forall fuel needed t,
  holds t fs -> (length fs < fuel)%nat -> 0 <= needed <= max_size t ->
  holds (evict_while fuel needed t) (evicted (max_size t - needed) fs) /\
  max_size (evict_while fuel needed t) = max_size t /\
  capacity (evict_while fuel needed t) = capacity t.
Proof.
  induction fs as [|f fs IH]; intros [|fuel] needed t Ht Hfuel Hn; simpl in Hfuel; try lia.
  - cbn [evict_while evicted]. rewrite (holds_size _ _ Ht). simpl. cmps. done.
  - cbn [evict_while evicted]. rewrite (holds_size _ _ Ht).
    destruct (Z.ltb_spec (max_size t) (fields_size (f :: fs) + needed));
    destruct (Z.leb_spec (fields_size (f :: fs)) (max_size t - needed)); try lia; [|done].
    destruct (evict_oldest_holds t f fs Ht) as (H1 & H2 & H3).
    destruct (IH fuel needed (evict_oldest t)) as (H4 & H5 & H6); [done|lia|lia|].
    rewrite H2 in H4, H5. rewrite H3 in H6. done.
Qed.

Lemma evict_for_holds t fs needed :
  holds t fs -> 0 <= needed <= max_size t ->
  holds (evict_for needed t) (evicted (max_size t - needed) fs) /\
  max_size (evict_for needed t) = max_size t /\
  capacity (evict_for needed t) = capacity t.
Proof.
  intros Ht Hn. unfold evict_for. apply evict_while_holds; [done| |done].
  rewrite (holds_len _ _ Ht). lia.
Qed.

Lemma set_max_size_holds t fs m :
  holds t fs -> 0 <= m ->
  holds (set_max_size m t) (evicted m fs) /\ max_size (set_max_size m t) = m.
Proof.
  intros [He Hs Hb Hz Hc] Hm. unfold set_max_size.
  destruct (evict_for_holds
    (mkTable (bytes t) (capacity t) (start t) (entries t) (size t) m) fs 0)
    as (H1 & H2 & _); [by split|simpl; lia|].
  simpl in *. by replace (m - 0) with m in H1 by lia.
Qed.

Lemma table_compact_holds t fs : holds t fs -> holds (table_compact t) fs.
Proof.
  intros [He Hs Hb Hz Hc]. split; simpl; try done.
  - rewrite He, <- (layout_shift (start t) 0 fs). by rewrite Nat.add_0_r.
  - lia.
  - rewrite length_drop. lia.
Qed.

Lemma vec_reserve_enough cap len additional :
  (len <= cap)%nat -> (len + additional <= vec_reserve cap len additional)%nat.
Proof. intros H. unfold vec_reserve. destruct (Nat.ltb_spec (cap - len) additional); lia. Qed.

(** Appending one field at the end of the buffer. *)
Lemma push_holds t fs n v cap :
  holds t fs -> (length (bytes t) + (length n + length v) <= cap)%nat ->
  holds (mkTable (bytes t ++ n ++ v) cap (start t)
          (entries t ++ [mkEntry (length (bytes t)) (length n) (length v)])
          (size t + entry_size (length n) (length v)) (max_size t)) (fs ++ [(n, v)]).
Proof.
  intros [He Hs Hb Hz Hc] Hcap. split; cbn [start bytes entries size max_size capacity].
  - rewrite layout_app, He. cbn [layout]. do 3 f_equal. rewrite <- Hb, length_drop. lia.
  - rewrite length_app. lia.
  - rewrite drop_app_le, Hb, bind_app, bind_cons by done. unfold field_octets at 3. simpl.
    by rewrite app_nil_r.
  - rewrite Hz, fields_size_app. simpl. unfold field_size. simpl. lia.
  - rewrite !length_app. lia.
Qed.

Lemma table_insert_holds t fs n v :
  holds t fs -> 0 <= max_size t ->
  holds (table_insert n v t) (reverse (fit (max_size t) ((n, v) :: reverse fs))) /\
  max_size (table_insert n v t) = max_size t.
Proof.
  intros Ht Hm. unfold table_insert. cbn [fit]. change (field_size (n, v)) with
    (entry_size (length n) (length v)). pose proof (field_size_pos (n, v)) as Hpos.
  unfold field_size in Hpos. simpl in Hpos.
  destruct (Z.ltb_spec (max_size t) (entry_size (length n) (length v)));
  destruct (Z.leb_spec (entry_size (length n) (length v)) (max_size t)); try lia.
  { split; [apply holds_nil|done]. }
  destruct (evict_for_holds t fs (entry_size (length n) (length v))) as (H1 & H2 & _);
    [done|lia|]. set (t1 := evict_for _ t) in *.
  rewrite reverse_cons, <- rev_evicted, reverse_involutive.
  set (fs1 := evicted _ fs) in *.
  match goal with |- context [if ?b then table_compact t1 else t1] => destruct b end.
  - apply table_compact_holds in H1. split; [|done].
    apply push_holds; [done|]. pose proof (holds_capacity _ _ H1).
    destruct (Nat.eqb_spec (capacity (table_compact t1)) 0) as [E|E].
    + rewrite E in *. etransitivity; [|apply vec_reserve_enough; lia]. lia.
    + by apply vec_reserve_enough.
  - split; [|done]. apply push_holds; [done|]. pose proof (holds_capacity _ _ H1).
    destruct (Nat.eqb_spec (capacity t1) 0) as [E|E].
    + rewrite E in *. etransitivity; [|apply vec_reserve_enough; lia]. lia.
    + by apply vec_reserve_enough.
Qed.

Lemma table_ok_iter t fs : holds t fs -> fs = reverse (table_iter t).
Proof. intros H. by rewrite (holds_iter _ _ H), reverse_involutive. Qed.

(** ** Properties *)

Lemma table_insert_spec (t : DynamicTable) (name value : list Z) :
  table_ok t ->
  table_ok (table_insert name value t) /\
  max_size (table_insert name value t) = max_size t /\
  table_iter (table_insert name value t) = fit (max_size t) ((name, value) :: table_iter t).
Proof.
  intros (Hfit & fs & Ht). pose proof (fields_size_nonneg fs) as Hnn.
  rewrite (holds_size _ _ Ht) in Hfit.
  destruct (table_insert_holds t fs name value Ht) as [H1 H2]; [lia|].
  rewrite (holds_iter _ _ Ht), (holds_iter _ _ H1), reverse_involutive.
  split_and!; [|done|done]. split; [|eauto].
  rewrite (holds_size _ _ H1), H2, fields_size_rev. apply fit_size. lia.
Qed.

(** Inserting a field keeps the invariants of [check_invariants] and gives
    the abstract insertion of RFC 7541 section 4.4: the new field first, then
    the newest fields that still fit, and nothing at all when the new field
    alone is larger than the table. *)
Theorem table_insert_refines (t : DynamicTable) (name value : list Z) :
  table_ok t ->
  table_ok (table_insert name value t) /\
  max_size (table_insert name value t) = max_size t /\
  table_iter (table_insert name value t) = fit (max_size t) ((name, value) :: table_iter t).
Proof. apply table_insert_spec. Qed.

Lemma table_insert_refines_witness :
  table_iter (table_insert (bstr "a") (bstr "b") (table_new 40)) = [(bstr "a", bstr "b")].
Proof.
  apply (table_insert_refines (table_new 40) (bstr "a") (bstr "b")).
  split; [simpl; lia|]. exists []. apply holds_nil.
Defined.

Lemma set_max_size_spec (t : DynamicTable) (m : Z) :
  table_ok t -> 0 <= m ->
  table_ok (set_max_size m t) /\ max_size (set_max_size m t) = m /\
  table_iter (set_max_size m t) = fit m (table_iter t).
Proof.
  intros (_ & fs & Ht) Hm. destruct (set_max_size_holds t fs m Ht Hm) as [H1 H2].
  rewrite (holds_iter _ _ Ht), (holds_iter _ _ H1), rev_evicted.
  split_and!; [|done|done]. split; [|eauto].
  rewrite (holds_size _ _ H1), H2. by apply evicted_size.
Qed.

(** Changing the maximum size keeps the invariants and evicts exactly the
    oldest fields that no longer fit (RFC 7541 section 4.3). *)
Theorem set_max_size_refines (t : DynamicTable) (m : Z) :
  table_ok t -> 0 <= m ->
  table_ok (set_max_size m t) /\ max_size (set_max_size m t) = m /\
  table_iter (set_max_size m t) = fit m (table_iter t).
Proof. apply set_max_size_spec. Qed.

Lemma set_max_size_refines_witness :
  table_iter (set_max_size 35 (table_insert (bstr "c") (bstr "d")
    (table_insert (bstr "a") (bstr "b") (table_new 80)))) = [(bstr "c", bstr "d")].
Proof.
  apply (set_max_size_refines (table_insert (bstr "c") (bstr "d")
    (table_insert (bstr "a") (bstr "b") (table_new 80))) 35); [|lia].
  split; [by vm_compute|]. exists [(bstr "a", bstr "b"); (bstr "c", bstr "d")].
  split; vm_compute; (done || lia).
Defined.

Lemma table_get_spec (t : DynamicTable) (index : nat) :
  table_ok t -> table_get t index = table_iter t !! index.
Proof. intros (_ & fs & Ht). by rewrite (holds_get _ _ Ht), (holds_iter _ _ Ht). Qed.

(** A lookup by index reads the abstract table: index 0 is the newest
    field, and an index past the last entry finds nothing. *)
Theorem table_get_iter (t : DynamicTable) (index : nat) :
  table_ok t -> table_get t index = table_iter t !! index.
Proof. apply table_get_spec. Qed.

Lemma table_get_iter_witness :
  table_get (table_insert (bstr "a") (bstr "b") (table_new 40)) 0 = Some (bstr "a", bstr "b").
Proof.
  rewrite (table_get_iter (table_insert (bstr "a") (bstr "b") (table_new 40)) 0); [done|].
  split; [by vm_compute|]. exists [(bstr "a", bstr "b")]. split; vm_compute; (done || lia).
Defined.

(** The tables a decoder or an encoder can reach when every maximum size set
    is at most [M]. *)
Inductive table_reach (M : Z) : DynamicTable -> Prop :=
| reach_new m : 0 <= m <= M -> table_reach M (table_new m)
| reach_insert t name value : table_reach M t -> table_reach M (table_insert name value t)
| reach_set_max_size t m : 0 <= m <= M -> table_reach M t -> table_reach M (set_max_size m t).

Lemma set_max_size_capacity t m : table_ok t -> 0 <= m -> capacity (set_max_size m t) = capacity t.
Proof.
  intros (_ & fs & [He Hs Hb Hz Hc]) Hm. unfold set_max_size.
  destruct (evict_for_holds
    (mkTable (bytes t) (capacity t) (start t) (entries t) (size t) m) fs 0)
    as (_ & _ & H); [by split|simpl; lia|done].
Qed.

(** The live octets of a table never exceed its accounted size. *)
Lemma holds_live t fs :
  holds t fs -> Z.of_nat (length (bytes t) - start t) <= size t.
Proof.
  intros H. rewrite (holds_size _ _ H), fields_size_octets, <- (holds_bytes _ _ H), length_drop.
  lia.
Qed.

Lemma vec_reserve_bound cap len additional B :
  (cap <= B)%nat -> (8 <= B)%nat -> (2 * (len + additional) <= B)%nat -> (len <= cap)%nat ->
  (vec_reserve cap len additional <= B)%nat.
Proof.
  intros. unfold vec_reserve. destruct (Nat.ltb_spec (cap - len) additional); lia.
Qed.

(** The buffer only grows while it is shorter than twice the live octets plus
    the new entry. *)
Lemma table_insert_capacity t name value M :
  table_ok t -> max_size t <= M -> Z.of_nat (capacity t) <= 4 * M + 8 ->
  Z.of_nat (capacity (table_insert name value t)) <= 4 * M + 8.
Proof.
  intros (Hfit & fs & Ht) HM Hcap. unfold table_insert.
  set (esize := entry_size (length name) (length value)).
  assert (He : esize = Z.of_nat (length name) + Z.of_nat (length value) + 32) by done.
  destruct (Z.ltb_spec (max_size t) esize); [done|].
  destruct (evict_for_holds t fs esize) as (H1 & H2 & H3); [done|lia|].
  set (t1 := evict_for esize t) in *. set (fs1 := evicted (max_size t - esize) fs) in *.
  assert (Hs1 : size t1 + esize <= max_size t).
  { rewrite (holds_size _ _ H1).
    assert (fields_size fs1 <= max_size t - esize) by (apply evicted_size; lia). lia. }
  pose proof (holds_live _ _ H1) as Hl1. pose proof (holds_capacity _ _ H1) as Hc1.
  pose proof (holds_start _ _ H1) as Hst1.
  set (needed := (length name + length value)%nat).
  match goal with |- context [if ?b then table_compact t1 else t1] => destruct b eqn:Ec end;
    cbn [capacity table_compact bytes start max_size].
  - rewrite !andb_true_iff in Ec. destruct Ec as [[Ec1 Ec2] Ec3].
    destruct (Nat.eqb_spec (capacity t1) 0); [rewrite Nat.ltb_lt in *; lia|].
    assert (vec_reserve (capacity t1) (length (drop (start t1) (bytes t1))) needed
            <= Z.to_nat (4 * M + 8))%nat; [|lia].
    apply vec_reserve_bound; rewrite ?length_drop; lia.
  - destruct (Nat.eqb_spec (capacity t1) 0) as [E|E].
    + assert (vec_reserve 0 (length (bytes t1))
        (Nat.max needed (Z.to_nat (Z.min INITIAL_BYTES (max_size t1))))
        <= Z.to_nat (4 * M + 8))%nat; [|lia].
      apply vec_reserve_bound; rewrite ?H2; lia.
    + destruct (decide (length (bytes t1) + needed <= capacity t1)%nat) as [Hin|Hout].
      { unfold vec_reserve. destruct (Nat.ltb_spec (capacity t1 - length (bytes t1)) needed); lia. }
      assert (vec_reserve (capacity t1) (length (bytes t1)) needed
              <= Z.to_nat (4 * M + 8))%nat; [|lia].
      rewrite !andb_false_iff, !Nat.ltb_ge, Nat.leb_gt in Ec.
      apply vec_reserve_bound; lia.
Qed.

(** Whatever a peer makes the table do, it keeps its invariants, never
    holds more than its maximum size accounts for, and the buffer's capacity
    stays below four times the largest maximum size ever set. *)
Theorem table_reach_bounded (M : Z) (t : DynamicTable) :
  table_reach M t ->
  table_ok t /\ 0 <= max_size t <= M /\ Z.of_nat (capacity t) <= 4 * M + 8 /\
  32 * Z.of_nat (table_len t) <= M.
Proof.
  intros H. assert (Hinv : table_ok t /\ 0 <= max_size t <= M /\
    Z.of_nat (capacity t) <= 4 * M + 8).
  { induction H as [m Hm|t name value H (Hok & Hmax & Hcap)|t m Hm H (Hok & Hmax & Hcap)].
    - split_and!; simpl; try lia. split; [simpl; lia|]. exists []. apply holds_nil.
    - destruct (table_insert_spec t name value Hok) as (H1 & H2 & _).
      split_and!; [done|lia|lia|]. apply table_insert_capacity; [done|lia|done].
    - destruct (set_max_size_spec t m Hok) as (H1 & H2 & _); [lia|].
      split_and!; [done|lia|lia|]. rewrite set_max_size_capacity by (done || lia). done. }
  destruct Hinv as (Hok & Hmax & Hcap). split_and!; try done; try lia.
  destruct Hok as (Hfit & fs & Ht). rewrite (holds_len _ _ Ht).
  rewrite (holds_size _ _ Ht), fields_size_octets in Hfit. lia.
Qed.

Lemma table_reach_bounded_witness :
  table_ok (set_max_size 10 (table_insert (bstr "a") (bstr "b") (table_new 64))) /\
  0 <= 10 <= 64 /\ Z.of_nat 64 <= 4 * 64 + 8 /\ 32 * 0 <= 64.
Proof.
  apply (table_reach_bounded 64 (set_max_size 10 (table_insert (bstr "a") (bstr "b") (table_new 64)))).
  apply reach_set_max_size; [lia|]. apply reach_insert, reach_new. lia.
Defined.
