(* ===== verification/HpackDecoder.v ===== *)
(** * HPACK decoder

    [lib/src/protocol/mux/hpack/decoder.rs]. The scratch buffer is emptied when
    a literal starts and read before it ends, so it is a local of [literal]
    here; its capacity, and [shrink_scratch] which only releases it, are not
    modelled. The callback is the list of the fields it received, in order; it
    is returned with an error too, as are the changes made to the table. *)

From S2P Require Import Prelude HpackInteger HpackHuffman HpackTable.

Definition MAX_LEADING_SIZE_UPDATES : nat := 2.

(** Where a decoded name or value lives until the callback reads it. *)
Inductive Source : Type :=
| Input (first last : nat)
| Scratch (first last : nat)
| Static (name : list Z).

Inductive Name : Type :=
| NameSource (s : Source)
| NameDynamic (index : nat).

Record Decoder := mkDecoder {
  table : DynamicTable;
  max_allowed_size : Z;
}.

(** [usize::MAX] *)
Definition decoder_new : Decoder := mkDecoder (table_new DEFAULT_MAX_SIZE) USIZE_MAX.

Definition set_max_allowed_table_size (m : Z) (d : Decoder) : Decoder :=
  mkDecoder (table d) m.

Definition decoder_set_max_table_size (m : Z) (d : Decoder) : Decoder :=
  mkDecoder (set_max_size m (table d)) (max_allowed_size d).

(** Resolves an index of the combined address space. *)
Definition lookup_index (t : DynamicTable) (index : Z) : res DecoderError field :=
  if index =? 0 then Err InvalidIndex
  else if index <? DYNAMIC_TABLE_START
  then ok_or InvalidIndex (STATIC_TABLE !! Z.to_nat (index - 1))
  else ok_or InvalidIndex (table_get t (Z.to_nat (index - DYNAMIC_TABLE_START))).

Definition resolve (s : Source) (block scratch : list Z) : list Z :=
  match s with
  | Input first last => slice block first last
  | Scratch first last => slice scratch first last
  | Static name => name
  end.

(** Returns where the string lives, the position after it and the scratch
    buffer. *)
Definition decode_string (block : list Z) (position : nat) (scratch : list Z)
    : res DecoderError (Source * nat * list Z) :=
  let rest := drop position block in
  match rest with
  | [] => Err Truncated
  | first :: _ =>
      '(len, consumed) ← decode_integer rest 7;
      if Z.of_nat (length rest - consumed) <? len then Err Truncated
      else
        let begin := (position + consumed)%nat in
        let stop := (begin + Z.to_nat len)%nat in
        if Z.land first 0x80 =? 0 then Ok (Input begin stop, stop, scratch)
        else
          scratch' ← map_err Huffman (huffman_decode (slice block begin stop) scratch);
          Ok (Scratch (length scratch) (length scratch'), stop, scratch')
  end.

(** The literal field at [block[position]]: the field handed to the callback,
    the table after the insertion if [indexing], and the next position. *)
Definition literal (t : DynamicTable) (block : list Z) (position : nat)
    (prefix : Z) (indexing : bool) : res DecoderError (field * DynamicTable * nat) :=
  '(index, consumed) ← decode_integer (drop position block) prefix;
  let position := (position + consumed)%nat in
  '(name, position, scratch) ←
    (if index =? 0 then
       '(name, next, scratch) ← decode_string block position [];
       Ok (NameSource name, next, scratch)
     else if index <? DYNAMIC_TABLE_START then
       '(name, _) ← ok_or InvalidIndex (STATIC_TABLE !! Z.to_nat (index - 1));
       Ok (NameSource (Static name), position, [])
     else
       let dynamic := Z.to_nat (index - DYNAMIC_TABLE_START) in
       '(name, _) ← ok_or InvalidIndex (table_get t dynamic);
       Ok (if indexing then (NameSource (Scratch 0 (length name)), position, name)
           else (NameDynamic dynamic, position, [])));
  '(value, position, scratch) ← decode_string block position scratch;
  let value := resolve value block scratch in
  match name with
  | NameSource name =>
      let name := resolve name block scratch in
      Ok ((name, value), if indexing then table_insert name value t else t, position)
  | NameDynamic index =>
      '(name, _) ← ok_or InvalidIndex (table_get t index);
      Ok ((name, value), t, position)
  end.

(** What one turn of the loop of [decode_with_cb] does. *)
Inductive Turn : Type :=
| TurnField (f : field) (t : DynamicTable) (position : nat)
| TurnSizeUpdate (t : DynamicTable) (position : nat).

Definition decode_turn (t : DynamicTable) (max_allowed : Z) (block : list Z)
    (position fields leading_size_updates : nat) (first : Z) : res DecoderError Turn :=
  if negb (Z.land first 0x80 =? 0) then
    '(index, consumed) ← decode_integer (drop position block) 7;
    f ← lookup_index t index;
    Ok (TurnField f t (position + consumed))
  else if negb (Z.land first 0x40 =? 0) then
    '(f, t, position) ← literal t block position 6 true;
    Ok (TurnField f t position)
  else if negb (Z.land first 0x20 =? 0) then
    if (0 <? fields)%nat then Err SizeUpdateNotAtStart
    else if (MAX_LEADING_SIZE_UPDATES <? leading_size_updates + 1)%nat
    then Err TooManySizeUpdates
    else
      '(size, consumed) ← decode_integer (drop position block) 5;
      if max_allowed <? size then Err TableSizeTooLarge
      else Ok (TurnSizeUpdate (set_max_size size t) (position + consumed))
  else
    '(f, t, position) ← literal t block position 4 false;
    Ok (TurnField f t position).

(** The [while position < block.len()] loop. Every turn consumes an octet, so
    the length of the block is enough fuel ([decode_loop_fuel]). *)
Fixpoint decode_loop (fuel : nat) (max_allowed : Z) (block : list Z)
    (position fields leading : nat) (last_was_size_update : bool)
    (t : DynamicTable) (delivered : list field)
    : DynamicTable * list field * res DecoderError unit :=
  match block !! position with
  | None => (t, delivered, if last_was_size_update then Err SizeUpdateAtEnd else Ok tt)
  | Some first =>
      match fuel with
      | O => (t, delivered, Err Truncated)
      | S fuel =>
          match decode_turn t max_allowed block position fields leading first with
          | Err e => (t, delivered, Err e)
          | Ok (TurnField f t position) =>
              decode_loop fuel max_allowed block position (S fields) leading false t
                (delivered ++ [f])
          | Ok (TurnSizeUpdate t position) =>
              decode_loop fuel max_allowed block position fields (S leading) true t delivered
          end
      end
  end.

Definition decode_with_cb (d : Decoder) (block : list Z)
    : Decoder * list field * res DecoderError unit :=
  let '(t, delivered, r) :=
    decode_loop (length block) (max_allowed_size d) block 0 0 0 false (table d) [] in
  (mkDecoder t (max_allowed_size d), delivered, r).

(** ** Every turn moves forward *)

Lemma decode_string_forward block position scratch source next scratch' :
  decode_string block position scratch = Ok (source, next, scratch') -> (position < next)%nat.
Proof.
  unfold decode_string. cbv zeta. destruct (drop position block) as [|first tl]; [done|].
  intros H. apply bind_Ok in H as ([len consumed] & Hd & H).
  pose proof (decode_integer_consumed _ _ _ _ Hd).
  destruct (_ <? _); [done|]. destruct (_ =? 0).
  - simplify_eq. lia.
  - apply bind_Ok in H as (scr & _ & [= <- <- <-]). lia.
Qed.

Lemma literal_forward t block position prefix indexing f t' next :
  literal t block position prefix indexing = Ok (f, t', next) -> (position < next)%nat.
Proof.
  unfold literal. intros H. apply bind_Ok in H as ([index consumed] & Hd & H).
  pose proof (decode_integer_consumed _ _ _ _ Hd).
  apply bind_Ok in H as ([[name position1] scratch] & Hn & H).
  apply bind_Ok in H as ([[value position2] scratch2] & Hv & H).
  apply decode_string_forward in Hv.
  assert (position2 = next) as <-.
  { destruct name; [by simplify_eq|]. by apply bind_Ok in H as ([? ?] & _ & [= <- <- <-]). }
  destruct (_ =? 0).
  - apply bind_Ok in Hn as ([[? ?] ?] & Hs & [= <- <- <-]). apply decode_string_forward in Hs. lia.
  - destruct (_ <? _); apply bind_Ok in Hn as ([? ?] & _ & Hn).
    + simplify_eq. lia.
    + destruct indexing; simplify_eq; lia.
Qed.

Definition turn_position (turn : Turn) : nat :=
  match turn with TurnField _ _ p => p | TurnSizeUpdate _ p => p end.

Lemma decode_turn_forward t m block position fields leading first turn :
  decode_turn t m block position fields leading first = Ok turn ->
  (position < turn_position turn)%nat.
Proof.
  unfold decode_turn. intros H. repeat destruct (negb _).
  - apply bind_Ok in H as ([index consumed] & Hd & H).
    pose proof (decode_integer_consumed _ _ _ _ Hd).
    apply bind_Ok in H as (f & _ & [= <-]). simpl. lia.
  - apply bind_Ok in H as ([[f t'] p] & Hl & [= <-]). by apply literal_forward in Hl.
  - destruct (_ <? _)%nat; [done|]. destruct (_ <? _)%nat; [done|].
    apply bind_Ok in H as ([size consumed] & Hd & H).
    pose proof (decode_integer_consumed _ _ _ _ Hd).
    destruct (_ <? _); [done|]. simplify_eq. simpl. lia.
  - apply bind_Ok in H as ([[f t'] p] & Hl & [= <-]). by apply literal_forward in Hl.
Qed.

(** C33. The loop over a header block terminates on every input: one turn per
    octet is always enough, and more fuel never changes the outcome. *)
Theorem decode_loop_fuel (m : Z) (block : list Z) (fuel1 : nat) :
  forall (fuel2 position fields leading : nat) (last : bool) (t : DynamicTable)
    (delivered : list field),
  (length block - position <= fuel1)%nat -> (length block - position <= fuel2)%nat ->
  decode_loop fuel1 m block position fields leading last t delivered =
  decode_loop fuel2 m block position fields leading last t delivered.
Proof.
  induction fuel1 as [|fuel1 IH]; intros fuel2 position fields leading last t delivered H1 H2.
  - destruct fuel2; cbn [decode_loop]; by rewrite (lookup_ge_None_2 block) by lia.
  - destruct fuel2 as [|fuel2]; cbn [decode_loop].
    { by rewrite (lookup_ge_None_2 block) by lia. }
    destruct (block !! position) as [first|] eqn:E; [|done]. apply lookup_lt_Some in E.
    destruct (decode_turn _ _ _ _ _ _ _) as [turn|] eqn:Et; [|done].
    apply decode_turn_forward in Et. destruct turn; simpl in Et; apply IH; lia.
Qed.

Lemma decode_loop_fuel_witness :
  decode_loop 2 4096 [0x82; 0x84] 0 0 0 false (table_new 4096) [] =
  decode_loop 100 4096 [0x82; 0x84] 0 0 0 false (table_new 4096) [].
Proof. apply (decode_loop_fuel 4096 [0x82; 0x84] 2 100); simpl; lia. Defined.

(** ** Untrusted blocks *)

Lemma literal_table t block position prefix indexing f t' next :
  literal t block position prefix indexing = Ok (f, t', next) ->
  t' = t \/ t' = table_insert f.1 f.2 t.
Proof.
  unfold literal. intros H. apply bind_Ok in H as ([index consumed] & _ & H).
  apply bind_Ok in H as ([[name position1] scratch] & _ & H).
  apply bind_Ok in H as ([[value position2] scratch2] & _ & H).
  destruct name; [destruct indexing; simplify_eq; auto|].
  apply bind_Ok in H as ([? ?] & _ & [= <- <- <-]). auto.
Qed.

(** The table after a turn: unchanged, one insertion, or an allowed resize. *)
Lemma decode_turn_table t m block position fields leading first turn :
  bytes_ok block ->
  decode_turn t m block position fields leading first = Ok turn ->
  match turn with
  | TurnField f t' _ => t' = t \/ t' = table_insert f.1 f.2 t
  | TurnSizeUpdate t' _ => exists size, t' = set_max_size size t /\ 0 <= size <= m
  end.
Proof.
  intros Hok. unfold decode_turn. intros H. repeat destruct (negb _).
  - apply bind_Ok in H as ([index consumed] & _ & H).
    apply bind_Ok in H as (f & _ & [= <-]). auto.
  - apply bind_Ok in H as ([[f t'] p] & Hl & [= <-]). by apply literal_table in Hl.
  - destruct (_ <? _)%nat; [done|]. destruct (_ <? _)%nat; [done|].
    apply bind_Ok in H as ([size consumed] & Hd & H).
    apply decode_integer_range in Hd; [|by apply bytes_ok_drop|lia].
    destruct (Z.ltb_spec m size); [done|]. simplify_eq. exists size. split; [done|lia].
  - apply bind_Ok in H as ([[f t'] p] & Hl & [= <-]). by apply literal_table in Hl.
Qed.

Lemma decode_loop_table m block fuel : bytes_ok block ->
  forall position fields leading last t delivered M,
  table_ok t -> 0 <= max_size t <= M -> m <= M ->
  let '(t', delivered', _) := decode_loop fuel m block position fields leading last t delivered in
  table_ok t' /\ 0 <= max_size t' <= M /\ delivered `prefix_of` delivered'.
Proof.
  intros Hok. induction fuel as [|fuel IH];
    intros position fields leading last t delivered M Ht Hm HM; cbn [decode_loop].
  { by destruct (block !! position). }
  destruct (block !! position) as [first|]; [|done].
  destruct (decode_turn _ _ _ _ _ _ _) as [turn|] eqn:Et; [|done].
  apply decode_turn_table in Et; [|done]. destruct turn as [f t' p|t' p].
  - assert (Ht' : table_ok t' /\ max_size t' = max_size t).
    { destruct Et as [-> | ->]; [done|].
      destruct (table_insert_spec t f.1 f.2 Ht) as (? & ? & _). done. }
    specialize (IH p (S fields) leading false t' (delivered ++ [f]) M ltac:(apply Ht') ltac:(lia) HM).
    destruct (decode_loop _ _ _ _ _ _ _ _ _) as [[t2 d2] r]. destruct IH as (? & ? & Hpre).
    split_and!; try done; try lia. etransitivity; [|exact Hpre]. by apply prefix_app_r.
  - destruct Et as (size & -> & Hs).
    destruct (set_max_size_spec t size Ht) as (? & ? & _); [lia|].
    apply IH; [done|lia|done].
Qed.

(** C24. Whatever octets a peer sends, decoding a block leaves the dynamic
    table with its invariants and never larger than the bound this endpoint
    advertised (or the size it already had): a malformed block is an error
    value, not a broken table. *)
Theorem decode_untrusted_block (d : Decoder) (block : list Z) :
  bytes_ok block -> table_ok (table d) -> 0 <= max_size (table d) <= max_allowed_size d ->
  let d' := (decode_with_cb d block).1.1 in
  table_ok (table d') /\ 0 <= max_size (table d') <= max_allowed_size d /\
  max_allowed_size d' = max_allowed_size d.
Proof.
  intros Hok Ht Hm. unfold decode_with_cb.
  pose proof (decode_loop_table (max_allowed_size d) block (length block) Hok
    0 0 0 false (table d) [] (max_allowed_size d) Ht Hm ltac:(lia)) as H.
  destruct (decode_loop _ _ _ _ _ _ _ _ _) as [[t' delivered] r]. simpl.
  by destruct H as (? & ? & _).
Qed.

Lemma decode_untrusted_block_witness :
  let d := mkDecoder (table_new 4096) 4096 in
  decode_with_cb d [0x3f; 0xe2; 0x1f] = (d, [], Err TableSizeTooLarge) /\
  table_ok (table (decode_with_cb d [0x3f; 0xe2; 0x1f]).1.1).
Proof.
  split; [by vm_compute|].
  apply (decode_untrusted_block (mkDecoder (table_new 4096) 4096) [0x3f; 0xe2; 0x1f]).
  - repeat constructor; by vm_compute.
  - split; [simpl; lia|]. exists []. apply holds_nil.
  - simpl. lia.
Defined.
