(* ===== verification/HpackEncoder.v ===== *)
(** * HPACK encoder

    [lib/src/protocol/mux/hpack/encoder.rs]: the representation policy, the
    table search, and the table-size changes a peer has not been told yet. *)

From S2P Require Import Prelude HpackInteger HpackHuffman HpackTable.

Inductive Representation : Type :=
| Proxy
| IncrementalIndexing
| WithoutIndexing
| NeverIndexed.

(** What a table search found; the indexes are those of the combined address
    space. *)
Inductive Found : Type :=
| FoundField (index : nat)
| FoundName (first last : nat)
| FoundNothing.

Record PendingSizeUpdate := mkPending {
  smallest : Z;
  last_size : Z;
}.

Record Encoder := mkEncoder {
  etable : DynamicTable;
  pending_size_update : option PendingSizeUpdate;
}.

Definition encoder_new : Encoder := mkEncoder (table_new DEFAULT_MAX_SIZE) None.

Definition encoder_set_max_table_size (m : Z) (e : Encoder) : Encoder :=
  mkEncoder (set_max_size m (etable e)) (pending_size_update e).

Definition change_max_table_size (m : Z) (e : Encoder) : Encoder :=
  let smallest :=
    match pending_size_update e with
    | None => m
    | Some pending => Z.min (smallest pending) m
    end in
  mkEncoder (set_max_size m (etable e)) (Some (mkPending smallest m)).

(** Returns the number of updates appended with the encoder and the output. *)
Definition encode_size_updates_into (last : Z) (e : Encoder) (out : list Z)
    : nat * Encoder * list Z :=
  let '(updates, out) :=
    match pending_size_update e with
    | Some pending =>
        if smallest pending <? last
        then (1%nat, encode_integer (smallest pending) 5 0x20 out)
        else (0%nat, out)
    | None => (0%nat, out)
    end in
  (S updates, mkEncoder (etable e) None, encode_integer last 5 0x20 out).

Definition reset_table (e : Encoder) : Z * Encoder :=
  let m := max_size (etable e) in
  (m, change_max_table_size m (change_max_table_size 0 e)).

(** The loop of [find] over the enumerated entries, from [position] on. *)
Fixpoint find_loop (name value : list Z) (fields : list field) (position : nat)
    (found : Found) : Found :=
  match fields with
  | [] => found
  | (entry_name, entry_value) :: fields =>
      if bool_decide (entry_name = name) then
        let index := S position in
        if bool_decide (entry_value = value) then FoundField index
        else
          find_loop name value fields (S position)
            match found with
            | FoundName first _ => FoundName first index
            | _ => FoundName index index
            end
      else find_loop name value fields (S position) found
  end.

Definition find_field (t : DynamicTable) (name value : list Z) : Found :=
  find_loop name value (STATIC_TABLE ++ table_iter t) 0 FoundNothing.

Definition encode_string (s : list Z) (huffman : bool) (out : list Z) : list Z :=
  if huffman
  then huffman_encode s (encode_integer (Z.of_nat (encoded_len s)) 7 0x80 out)
  else encode_integer (Z.of_nat (length s)) 7 0x00 out ++ s.

(** Appends one field; the table is the encoder's after the call. *)
Definition encode_field (name value : list Z) (representation : Representation)
    (huffman : bool) (t : DynamicTable) (out : list Z) : DynamicTable * list Z :=
  let insert := table_insert name value t in
  match representation, find_field t name value with
  | (Proxy | IncrementalIndexing), FoundField index =>
      (t, encode_integer (Z.of_nat index) 7 0x80 out)
  | Proxy, FoundName _ last =>
      (t, encode_string value huffman (encode_integer (Z.of_nat last) 4 0x00 out))
  | (Proxy | IncrementalIndexing), FoundNothing =>
      (insert, encode_string value huffman (encode_string name huffman (out ++ [0x40])))
  | IncrementalIndexing, FoundName first _ =>
      (insert, encode_string value huffman (encode_integer (Z.of_nat first) 6 0x40 out))
  | (WithoutIndexing | NeverIndexed), found =>
      let flags := match representation with NeverIndexed => 0x10 | _ => 0x00 end in
      (t, encode_string value huffman
        match found with
        | FoundField index | FoundName index _ => encode_integer (Z.of_nat index) 4 flags out
        | FoundNothing => encode_string name huffman (out ++ [flags])
        end)
  end.

Definition encode_header_into (f : field) (e : Encoder) (out : list Z) : Encoder * list Z :=
  let '(t, out) := encode_field f.1 f.2 Proxy false (etable e) out in
  (mkEncoder t (pending_size_update e), out).

Fixpoint encode_into (headers : list field) (e : Encoder) (out : list Z) : Encoder * list Z :=
  match headers with
  | [] => (e, out)
  | f :: headers => let '(e, out) := encode_header_into f e out in encode_into headers e out
  end.

(** ** The table search *)

(** The combined address space: index [i] names the field at [i - 1]. *)
Definition combined (t : DynamicTable) : list field := STATIC_TABLE ++ table_iter t.

Definition name_at (fields : list field) (i : nat) (name : list Z) : Prop :=
  exists value, fields !! i = Some (name, value).

(** What a search over [fields] must answer: the first field holding both name
    and value; failing that the first and the last one holding the name; and
    nothing only when no field holds the name. *)
Definition found_spec (fields : list field) (name value : list Z) (found : Found) : Prop :=
  match found with
  | FoundField i =>
      (1 <= i)%nat /\ fields !! (i - 1)%nat = Some (name, value) /\
      (name, value) ∉ take (i - 1) fields
  | FoundName a b =>
      (1 <= a <= b)%nat /\ name_at fields (a - 1) name /\ name_at fields (b - 1) name /\
      ((name, value) ∉ fields) /\
      (forall j, name_at fields j name -> (a - 1 <= j <= b - 1)%nat)
  | FoundNothing => forall j, ~ name_at fields j name
  end.

Lemma name_at_snoc fields n v j name :
  name_at (fields ++ [(n, v)]) j name <->
  name_at fields j name \/ (j = length fields /\ n = name).
Proof.
  unfold name_at. split.
  - intros [value H]. apply lookup_app_Some in H as [H|[Hle H]]; [left; eauto|].
    apply list_lookup_singleton_Some in H as [Hj [= -> ->]]. right. split; [lia|done].
  - intros [[value H]|[-> ->]].
    + exists value. by apply lookup_app_l_Some.
    + exists v. rewrite lookup_app_r, Nat.sub_diag by lia. done.
Qed.

Lemma name_at_lt fields j name : name_at fields j name -> (j < length fields)%nat.
Proof. intros [v H]. by apply lookup_lt_Some in H. Qed.

Lemma find_loop_spec name value fields : forall seen found,
  found_spec seen name value found ->
  (forall i, found <> FoundField i) ->
  found_spec (seen ++ fields) name value (find_loop name value fields (length seen) found).
Proof.
  induction fields as [|[n v] fields IH]; intros seen found Hs Hnf.
  { by rewrite app_nil_r. }
  cbn [find_loop].
  assert (Hsplit : seen ++ (n, v) :: fields = (seen ++ [(n, v)]) ++ fields)
    by (by rewrite <- app_assoc).
  replace (S (length seen)) with (length (seen ++ [(n, v)])) by (rewrite length_app; simpl; lia).
  case_bool_decide as En; [subst n; case_bool_decide as Ev; [subst v|]|].
  - assert (Hseen : (name, value) ∉ seen).
    { destruct found as [i|a b|]; [by destruct (Hnf i)|by destruct Hs as (_ & _ & _ & ? & _)|].
      intros Hin. apply list_elem_of_lookup in Hin as [j Hj]. apply (Hs j). by exists value. }
    rewrite length_app. cbn [found_spec length]. split; [lia|].
    replace (length seen + 1 - 1)%nat with (length seen) by lia. split.
    + by apply list_lookup_middle.
    + by rewrite take_app_length.
  - rewrite Hsplit. apply IH; [|by destruct found]. rewrite length_app. simpl.
    assert (Hnew : name_at (seen ++ [(name, v)]) (length seen) name)
      by (apply name_at_snoc; by right).
    destruct found as [i|a b|]; [by destruct (Hnf i)| |].
    + destruct Hs as (Hab & Ha & Hb & Hnv & Hall). pose proof (name_at_lt _ _ _ Hb).
      simpl. split_and!; try lia.
      * apply name_at_snoc. by left.
      * by replace (length seen + 1 - 1)%nat with (length seen) by lia.
      * rewrite elem_of_app, list_elem_of_singleton. intros [?|[=]]; congruence.
      * intros j Hj. apply name_at_snoc in Hj as [Hj|[-> _]]; [|lia].
        specialize (Hall j Hj). lia.
    + simpl. replace (length seen + 1 - 1)%nat with (length seen) by lia. split_and!; try lia; try done.
      * rewrite elem_of_app, list_elem_of_singleton. intros [Hin|[=]]; [|congruence].
        apply list_elem_of_lookup in Hin as [j Hj]. apply (Hs j). by exists value.
      * intros j Hj. apply name_at_snoc in Hj as [Hj|[-> _]]; [|lia]. by destruct (Hs j).
  - rewrite Hsplit. apply IH; [|done]. destruct found as [i|a b|]; [by destruct (Hnf i)| |].
    + destruct Hs as (Hab & Ha & Hb & Hnv & Hall). simpl. split_and!; try lia.
      * apply name_at_snoc. by left.
      * apply name_at_snoc. by left.
      * rewrite elem_of_app, list_elem_of_singleton. intros [?|[=]]; congruence.
      * intros j Hj. apply name_at_snoc in Hj as [Hj|[_ ?]]; [by apply Hall|congruence].
    + intros j Hj. apply name_at_snoc in Hj as [Hj|[_ ?]]; [by apply (Hs j)|congruence].
Qed.

Lemma find_field_found t name value :
  found_spec (combined t) name value (find_field t name value).
Proof.
  apply (find_loop_spec name value (combined t) [] FoundNothing); [|done].
  intros j [v H]. done.
Qed.

(** The table search of the encoder answers the first index holding name
    and value, else the first and the last index holding the name, else
    nothing, over the static table followed by the dynamic one. *)
Theorem find_field_correct (t : DynamicTable) (name value : list Z) :
  found_spec (combined t) name value (find_field t name value).
Proof. apply find_field_found. Qed.
