(* ===== verification/HpackSync.v ===== *)
(** * HPACK: the two ends of a connection

    What the encoder writes, the peer's decoder reads back, and the two dynamic
    tables keep holding the same fields: the contract of RFC 7541 between
    [encoder.rs] and [decoder.rs], for every representation the encoder emits
    and through the table-size changes. *)

From S2P Require Import Prelude HpackInteger HpackHuffman HpackTable HpackDecoder HpackEncoder.

(** ** Flag bits of the first octet of a representation *)

(** The three tests [decode_with_cb] makes on a first octet. *)
Definition octet_kind (first : Z) : bool * bool * bool :=
  (negb (Z.land first 0x80 =? 0), negb (Z.land first 0x40 =? 0), negb (Z.land first 0x20 =? 0)).

Definition kind_is (flags : Z) (n : nat) (kind : bool * bool * bool) : bool :=
  forallb (fun x => bool_decide (octet_kind (Z.lor flags x) = kind)) (Z.of_nat <$> seq 0 n).

Lemma kind_spec flags n kind x :
  kind_is flags n kind = true -> 0 <= x < Z.of_nat n -> octet_kind (Z.lor flags x) = kind.
Proof.
  intros H Hx. pose proof (forallb_range _ n x H Hx) as H'. cbn beta in H'.
  by apply bool_decide_eq_true in H'.
Qed.

Lemma kind_literal_noindex flags x :
  flags = 0x00 \/ flags = 0x10 -> 0 <= x <= 15 -> octet_kind (Z.lor flags x) = (false, false, false).
Proof. intros [-> | ->] Hx; apply (kind_spec _ 16); first [lia | by vm_compute]. Qed.

Lemma kind_literal_index x :
  0 <= x <= 63 -> (octet_kind (Z.lor 0x40 x)).1 = (false, true).
Proof.
  intros Hx.
  assert (H : forallb (fun x => bool_decide ((octet_kind (Z.lor 0x40 x)).1 = (false, true)))
    (Z.of_nat <$> seq 0 64) = true) by (vm_compute; reflexivity).
  pose proof (forallb_range _ 64 x H ltac:(lia)) as H'. cbn beta in H'.
  by apply bool_decide_eq_true in H'.
Qed.

Lemma kind_size_update x : 0 <= x <= 31 -> octet_kind (Z.lor 0x20 x) = (false, false, true).
Proof. intros Hx; apply (kind_spec _ 32); first [lia | by vm_compute]. Qed.

Lemma land_80_flag x : 0 <= x <= 127 -> Z.land (Z.lor 0x80 x) 0x80 = 0x80.
Proof. intros Hx. rewrite Z.lor_comm, lor_80 by lia. apply land_80_set. lia. Qed.

(** ** Strings *)

(** The length octets of a string fit what the decoder accepts. *)
Definition string_fits (huffman : bool) (s : list Z) : Prop :=
  Z.of_nat (if huffman then encoded_len s else length s) < integer_limit 7.

Lemma encode_string_out s h out : encode_string s h out = out ++ encode_string s h [].
Proof.
  unfold encode_string. destruct h.
  - rewrite huffman_encode_out, (huffman_encode_out _ (encode_integer _ _ _ [])).
    rewrite (encode_integer_out _ _ _ out). by rewrite app_assoc.
  - rewrite (encode_integer_out _ _ _ out). by rewrite app_assoc.
Qed.

Lemma prefix_ok_7 f : f = 0x00 \/ f = 0x80 -> prefix_ok 7 f.
Proof. intros [-> | ->]; by vm_compute. Qed.

(** Reads an integer written in the middle of a block. *)
Lemma decode_integer_at v p f pre post :
  u64_ok v -> prefix_ok p f -> v < integer_limit p ->
  decode_integer (drop (length pre) (pre ++ encode_integer v p f [] ++ post)) p =
  Ok (v, length (encode_integer v p f [])).
Proof.
  intros Hv Hp Hl. rewrite drop_app_length, decode_encode_integer_eq by done.
  destruct (Z.ltb_spec v (integer_limit p)); [done|lia].
Qed.

Lemma encode_string_ne s h : exists first tl,
  encode_string s h [] = first :: tl /\
  (Z.land first 0x80 =? 0) = negb h /\ u8_ok first.
Proof.
  destruct h; unfold encode_string.
  - rewrite huffman_encode_out.
    destruct (encode_integer_head (Z.of_nat (encoded_len s)) 7 0x80) as (x & tl & E & Hx);
      [lia|lia|]. rewrite E. cbn [app]. eexists _, _. split; [done|].
    change (prefix_mask 7) with 127 in Hx. rewrite land_80_flag by lia. split; [done|].
    rewrite Z.lor_comm, lor_80 by lia. widths. lia.
  - destruct (encode_integer_head (Z.of_nat (length s)) 7 0x00) as (x & tl & E & Hx);
      [lia|lia|]. rewrite E. cbn [app]. eexists _, _. split; [done|].
    change (prefix_mask 7) with 127 in Hx. rewrite Z.lor_0_l, land_80 by lia.
    split; [done|]. widths. lia.
Qed.

Lemma encoded_octets_fit n : Z.of_nat n < integer_limit 7 -> u64_ok (Z.of_nat n).
Proof. change (integer_limit 7) with 268435583. widths. lia. Qed.

Lemma string_length_octets n f tail :
  Z.of_nat n < integer_limit 7 -> f = 0x00 \/ f = 0x80 ->
  decode_integer (encode_integer (Z.of_nat n) 7 f [] ++ tail) 7 =
  Ok (Z.of_nat n, length (encode_integer (Z.of_nat n) 7 f [])).
Proof.
  intros Hn Hf. rewrite decode_encode_integer_eq
    by (by apply encoded_octets_fit || by apply prefix_ok_7).
  destruct (Z.ltb_spec (Z.of_nat n) (integer_limit 7)); [done|lia].
Qed.

Lemma decode_string_cons block position scratch first tl :
  drop position block = first :: tl ->
  decode_string block position scratch =
  '(len, consumed) ← decode_integer (drop position block) 7;
  if Z.of_nat (length (drop position block) - consumed) <? len then Err Truncated
  else if Z.land first 0x80 =? 0
  then Ok (Input (position + consumed) (position + consumed + Z.to_nat len),
           (position + consumed + Z.to_nat len)%nat, scratch)
  else
    scratch' ← map_err Huffman
      (huffman_decode (slice block (position + consumed) (position + consumed + Z.to_nat len))
        scratch);
    Ok (Scratch (length scratch) (length scratch'),
        (position + consumed + Z.to_nat len)%nat, scratch').
Proof. intros E. unfold decode_string. cbv zeta. by rewrite E. Qed.

(** A string written in the middle of a block reads back, whatever the scratch
    buffer held. *)
Lemma decode_string_encode s h pre post scratch :
  bytes_ok s -> string_fits h s ->
  exists source more,
    decode_string (pre ++ encode_string s h [] ++ post) (length pre) scratch =
      Ok (source, (length pre + length (encode_string s h []))%nat, scratch ++ more) /\
    forall rest, resolve source (pre ++ encode_string s h [] ++ post)
      (scratch ++ more ++ rest) = s.
Proof.
  intros Hs Hfit.
  destruct (encode_string_ne s h) as (first & tl & E & Hflag & _).
  rewrite (decode_string_cons _ _ _ first (tl ++ post))
    by (rewrite drop_app_length, E; done).
  rewrite drop_app_length, Hflag. clear E Hflag first tl.
  unfold encode_string, string_fits in *. destruct h; cbn [negb].
  - rewrite huffman_encode_out. set (len := encode_integer _ _ _ []).
    rewrite <- !app_assoc.
    unfold len. rewrite string_length_octets by (done || by right). fold len.
    cbn [mbind res_bind].
    assert (Hlen : length (huffman_encode s []) = encoded_len s)
      by (by apply length_huffman_encode).
    rewrite !length_app, Hlen. cmps.
    rewrite Nat2Z.id.
    assert (Hsl : slice (pre ++ len ++ huffman_encode s [] ++ post) (length pre + length len)
      (length pre + length len + encoded_len s) = huffman_encode s []).
    { rewrite (app_assoc pre len). apply slice_app_mid; rewrite ?length_app; lia. }
    rewrite Hsl, huffman_decode_encode_eq by done. cbn [map_err mbind res_bind].
    eexists _, s. split; [rewrite Nat.add_assoc; reflexivity|]. intros rest. cbn [resolve].
    rewrite app_assoc, slice_app_l by (rewrite !length_app; lia).
    rewrite <- (app_nil_r (scratch ++ s)), <- app_assoc.
    apply slice_app_mid; rewrite ?length_app; simpl; lia.
  - set (len := encode_integer _ _ _ []). rewrite <- !app_assoc.
    unfold len. rewrite string_length_octets by (done || by left). fold len.
    cbn [mbind res_bind]. rewrite !length_app. cmps. rewrite Nat2Z.id.
    eexists _, []. rewrite app_nil_r. split; [rewrite Nat.add_assoc; reflexivity|]. intros rest. cbn [resolve].
    rewrite (app_assoc pre len). apply slice_app_mid; rewrite ?length_app; lia.
Qed.

(** ** Indexes *)

Lemma length_static : length STATIC_TABLE = 61%nat.
Proof. vm_compute. reflexivity. Qed.

#[local] Opaque STATIC_TABLE.

Lemma dynamic_start : DYNAMIC_TABLE_START = 62.
Proof. unfold DYNAMIC_TABLE_START. by rewrite length_static. Qed.

(** The two tables as one list: the static branch, then the dynamic one. *)
Lemma combined_lookup t i f :
  table_ok t -> (1 <= i)%nat -> combined t !! (i - 1)%nat = Some f ->
  (Z.of_nat i =? 0) = false /\
  if Z.of_nat i <? DYNAMIC_TABLE_START
  then STATIC_TABLE !! Z.to_nat (Z.of_nat i - 1) = Some f
  else table_get t (Z.to_nat (Z.of_nat i - DYNAMIC_TABLE_START)) = Some f.
Proof.
  intros Hok Hi Hf. rewrite dynamic_start. split; [lia|]. unfold combined in Hf.
  destruct (Z.ltb_spec (Z.of_nat i) 62).
  - rewrite lookup_app_l in Hf by (rewrite length_static; lia).
    by replace (Z.to_nat (Z.of_nat i - 1)) with (i - 1)%nat by lia.
  - rewrite lookup_app_r, length_static in Hf by (rewrite length_static; lia).
    rewrite table_get_spec by done.
    by replace (Z.to_nat (Z.of_nat i - 62)) with (i - 1 - 61)%nat by lia.
Qed.

Lemma lookup_index_combined t i f :
  table_ok t -> (1 <= i)%nat -> combined t !! (i - 1)%nat = Some f ->
  lookup_index t (Z.of_nat i) = Ok f.
Proof.
  intros Hok Hi Hf. destruct (combined_lookup t i f Hok Hi Hf) as [E H]. unfold lookup_index.
  rewrite E. destruct (_ <? _); by rewrite H.
Qed.

(** Indexes stay far below the integers the decoder accepts. *)
Lemma combined_index_small t i f :
  table_ok t -> max_size t < 2 ^ 32 -> combined t !! i = Some f ->
  Z.of_nat (S i) < 2 ^ 28.
Proof.
  intros (Hfit & fs & Ht) Hm Hf. apply lookup_lt_Some in Hf. unfold combined in Hf.
  rewrite length_app, length_static, (holds_iter _ _ Ht), length_reverse in Hf.
  rewrite (holds_size _ _ Ht), fields_size_octets in Hfit. lia.
Qed.

(** ** Literals *)

Section Literal.

Context (t : DynamicTable) (prefix flags : Z) (indexing : bool) (value : list Z) (h : bool).
Hypothesis t_ok : table_ok t.
Hypothesis prefix_flags : prefix_ok prefix flags.
Hypothesis value_ok : bytes_ok value.
Hypothesis value_fits : string_fits h value.

(** A literal that names its field by index. *)
Lemma literal_indexed i name v0 pre post :
  (1 <= i)%nat -> combined t !! (i - 1)%nat = Some (name, v0) -> Z.of_nat i < 2 ^ 28 ->
  let enc := encode_string value h (encode_integer (Z.of_nat i) prefix flags []) in
  literal t (pre ++ enc ++ post) (length pre) prefix indexing =
  Ok ((name, value), if indexing then table_insert name value t else t,
      (length pre + length enc)%nat).
Proof.
  intros Hi Hf Hsmall. rewrite encode_string_out. cbv zeta.
  unfold literal. rewrite <- app_assoc.
  pose proof (prefix_mask_bounds prefix ltac:(apply prefix_flags)) as Hm.
  rewrite decode_integer_at by (done || unfold integer_limit; widths; lia).
  set (idx := encode_integer (Z.of_nat i) prefix flags []). cbn [mbind res_bind].
  destruct (combined_lookup t i _ t_ok Hi Hf) as [-> Hl].
  rewrite app_assoc. set (pre' := pre ++ idx).
  replace (length pre + length idx)%nat with (length pre') by (unfold pre'; by rewrite length_app).
  assert (Hstr := decode_string_encode value h pre' post).
  destruct (Z.of_nat i <? DYNAMIC_TABLE_START).
  - rewrite Hl. cbn [mbind res_bind ok_or].
    destruct (Hstr [] value_ok value_fits) as (source & more & E & Hres).
    rewrite E. cbn [mbind res_bind resolve].
    specialize (Hres []). rewrite !app_nil_r in Hres. rewrite Hres.
    unfold pre'. by rewrite !length_app, Nat.add_assoc.
  - rewrite Hl. cbn [mbind res_bind ok_or]. destruct indexing.
    + destruct (Hstr name value_ok value_fits) as (source & more & E & Hres).
      rewrite E. cbn [mbind res_bind resolve].
      specialize (Hres []). rewrite !app_nil_r in Hres. rewrite Hres.
      rewrite slice_app_l by lia.
      assert (Hs : slice name 0 (length name) = name)
        by (unfold slice; rewrite drop_0, Nat.sub_0_r; by apply firstn_all).
      rewrite Hs. unfold pre'. by rewrite !length_app, Nat.add_assoc.
    + destruct (Hstr [] value_ok value_fits) as (source & more & E & Hres).
      rewrite E. cbn [mbind res_bind]. rewrite Hl. cbn [mbind res_bind ok_or].
      specialize (Hres []). rewrite !app_nil_r in Hres. rewrite Hres.
      unfold pre'. by rewrite !length_app, Nat.add_assoc.
Qed.

(** A literal that spells its name; the index octet is the flags alone. *)
Lemma literal_new_name name pre post :
  bytes_ok name -> string_fits h name ->
  let enc := encode_string value h (encode_string name h [flags]) in
  literal t (pre ++ enc ++ post) (length pre) prefix indexing =
  Ok ((name, value), if indexing then table_insert name value t else t,
      (length pre + length enc)%nat).
Proof.
  intros Hn Hnf. cbv zeta. rewrite encode_string_out, (encode_string_out name).
  unfold literal. pose proof (prefix_mask_bounds prefix ltac:(apply prefix_flags)) as Hm.
  assert (Hidx : [flags] = encode_integer 0 prefix flags []).
  { unfold encode_integer. destruct (Z.ltb_spec 0 (prefix_mask prefix)); [|lia].
    by rewrite (wrap_small 8 0), Z.lor_0_r by (widths; lia). }
  rewrite <- !app_assoc, Hidx.
  rewrite decode_integer_at by (done || unfold integer_limit; widths; lia).
  cbn [mbind res_bind]. rewrite <- Hidx. simpl (length [flags]). simpl (0 =? 0).
  rewrite (app_assoc pre [flags]). set (pre' := pre ++ [flags]).
  replace (length pre + 1)%nat with (length pre') by (unfold pre'; by rewrite length_app).
  destruct (decode_string_encode name h pre' (encode_string value h [] ++ post) [] Hn Hnf)
    as (source & more & E & Hres).
  rewrite E. cbn [mbind res_bind]. clear E.
  rewrite (app_assoc pre' (encode_string name h [])) in *.
  set (pre2 := pre' ++ encode_string name h []) in *.
  replace (length pre' + length (encode_string name h []))%nat with (length pre2)
    by (unfold pre2; by rewrite length_app).
  destruct (decode_string_encode value h pre2 post ([] ++ more) value_ok value_fits)
    as (source2 & more2 & E2 & Hres2).
  rewrite E2. cbn [mbind res_bind].
  specialize (Hres more2). specialize (Hres2 []). rewrite !app_nil_r in Hres2.
  simpl in Hres, Hres2 |- *. rewrite Hres, Hres2.
  unfold pre2, pre'. rewrite !length_app. simpl. f_equal. f_equal. lia.
Qed.

End Literal.

(** ** One field *)

(** Both ends of a connection hold the same fields under the same bound. Their
    buffers may differ: where the octets lie is not observable. *)
Definition in_sync (te td : DynamicTable) : Prop :=
  table_ok te /\ table_ok td /\ max_size te = max_size td /\ table_iter te = table_iter td.

Global Instance in_sync_sym : Symmetric in_sync.
Proof. intros t u (? & ? & ? & ?). by split_and!. Qed.

Lemma in_sync_insert te td name value :
  in_sync te td -> in_sync (table_insert name value te) (table_insert name value td).
Proof.
  intros (He & Hd & Hm & Hi).
  destruct (table_insert_spec te name value He) as (? & ? & ?).
  destruct (table_insert_spec td name value Hd) as (? & ? & ?).
  split_and!; congruence.
Qed.

Lemma in_sync_combined te td : in_sync te td -> combined te = combined td.
Proof. intros (_ & _ & _ & H). unfold combined. by rewrite H. Qed.

Lemma decode_turn_literal_noindex t m block position fields leading flags x prefix :
  flags = 0x00 \/ flags = 0x10 -> 0 <= x <= 15 -> prefix = 4 ->
  decode_turn t m block position fields leading (Z.lor flags x) =
  '(f, t, position) ← literal t block position prefix false; Ok (TurnField f t position).
Proof.
  intros Hf Hx ->. pose proof (kind_literal_noindex flags x Hf Hx) as E.
  unfold octet_kind in E. injection E as E1 E2 E3. unfold decode_turn. by rewrite E1, E2, E3.
Qed.

Lemma decode_turn_literal_index t m block position fields leading x :
  0 <= x <= 63 ->
  decode_turn t m block position fields leading (Z.lor 0x40 x) =
  '(f, t, position) ← literal t block position 6 true; Ok (TurnField f t position).
Proof.
  intros Hx. pose proof (kind_literal_index x Hx) as E.
  unfold octet_kind in E. cbn [fst] in E. injection E as E1 E2.
  unfold decode_turn. by rewrite E1, E2.
Qed.

(** What the encoder must be given: octets, and strings whose length the
    decoder's integers can carry. *)
Definition field_fits (f : field) (h : bool) : Prop :=
  bytes_ok f.1 /\ bytes_ok f.2 /\ string_fits h f.1 /\ string_fits h f.2.

Lemma encode_integer_first v p f tail d :
  0 <= v -> 1 <= p <= 8 -> exists x,
    nth 0 (encode_integer v p f [] ++ tail) d = Z.lor f x /\ 0 <= x <= prefix_mask p.
Proof.
  intros Hv Hp. destruct (encode_integer_head v p f Hv Hp) as (x & tl & E & Hx).
  exists x. by rewrite E.
Qed.

(** The two families of literals, by their prefix and flags. *)
Inductive literal_form : Z -> Z -> bool -> Prop :=
| form_index : literal_form 6 0x40 true
| form_noindex flags : flags = 0x00 \/ flags = 0x10 -> literal_form 4 flags false.

Lemma literal_form_prefix p f b : literal_form p f b -> prefix_ok p f.
Proof. destruct 1 as [|f [-> | ->]]; by vm_compute. Qed.

Lemma decode_turn_form p f b t m block position fields leading x :
  literal_form p f b -> 0 <= x <= prefix_mask p ->
  decode_turn t m block position fields leading (Z.lor f x) =
  '(fd, t, position) ← literal t block position p b; Ok (TurnField fd t position).
Proof.
  destruct 1 as [|f Hf]; intros Hx.
  - by apply decode_turn_literal_index.
  - by apply decode_turn_literal_noindex.
Qed.

(** The turn that reads [enc] gives the field [f] and moves past [enc]. *)
Definition reads_as (td : DynamicTable) (enc : list Z) (f : field) (td' : DynamicTable) : Prop :=
  exists first tl, enc = first :: tl /\ forall pre post m fields leading,
    decode_turn td m (pre ++ enc ++ post) (length pre) fields leading first =
    Ok (TurnField f td' (length pre + length enc)).

Lemma reads_indexed td i f :
  table_ok td -> max_size td < 2 ^ 32 -> (1 <= i)%nat -> combined td !! (i - 1)%nat = Some f ->
  reads_as td (encode_integer (Z.of_nat i) 7 0x80 []) f td.
Proof.
  intros Hok Hm Hi Hf. pose proof (combined_index_small td (i - 1) f Hok Hm Hf) as Hs.
  replace (S (i - 1)) with i in Hs by lia.
  destruct (encode_integer_head (Z.of_nat i) 7 0x80) as (x & tl & E & Hx); [lia|lia|].
  change (prefix_mask 7) with 127 in Hx.
  exists (Z.lor 0x80 x), tl. split; [done|]. intros pre post m fields leading.
  unfold decode_turn. rewrite land_80_flag by done. simpl negb. cbv iota.
  rewrite decode_integer_at; [|widths; lia|by apply prefix_ok_7; right|].
  2: { change (integer_limit 7) with 268435583. lia. }
  cbn [mbind res_bind]. by rewrite (lookup_index_combined td i f).
Qed.

Lemma reads_literal_indexed td i name v0 value h p f b :
  table_ok td -> max_size td < 2 ^ 32 -> literal_form p f b ->
  bytes_ok value -> string_fits h value ->
  (1 <= i)%nat -> combined td !! (i - 1)%nat = Some (name, v0) ->
  reads_as td (encode_string value h (encode_integer (Z.of_nat i) p f []))
    (name, value) (if b then table_insert name value td else td).
Proof.
  intros Hok Hm Hform Hv Hfit Hi Hf.
  pose proof (combined_index_small td (i - 1) _ Hok Hm Hf) as Hs.
  replace (S (i - 1)) with i in Hs by lia.
  pose proof (literal_form_prefix _ _ _ Hform) as Hp.
  destruct (encode_integer_head (Z.of_nat i) p f) as (x & tl & E & Hx); [lia|apply Hp|].
  exists (Z.lor f x), (tl ++ encode_string value h []). split.
  { by rewrite encode_string_out, E. }
  intros pre post m fields leading. rewrite (decode_turn_form p f b) by done.
  by rewrite (literal_indexed td p f b value h Hok Hp Hv Hfit i name v0) by done.
Qed.

Lemma reads_literal_new td name value h p f b :
  table_ok td -> literal_form p f b -> field_fits (name, value) h ->
  reads_as td (encode_string value h (encode_string name h [f]))
    (name, value) (if b then table_insert name value td else td).
Proof.
  intros Hok Hform (Hn & Hv & Hnf & Hvf). simpl in *.
  pose proof (literal_form_prefix _ _ _ Hform) as Hp.
  pose proof (prefix_mask_bounds p ltac:(apply Hp)).
  exists (Z.lor f 0), (encode_string name h [] ++ encode_string value h []). split.
  { rewrite encode_string_out, (encode_string_out name), Z.lor_0_r, <- app_assoc. done. }
  intros pre post m fields leading. rewrite (decode_turn_form p f b) by (done || lia).
  by rewrite (literal_new_name td p f b value h Hp Hv Hvf) by done.
Qed.

(** One encoded field reads back as itself, and the tables stay in step. *)
Lemma encode_field_reads te td name value r h :
  in_sync te td -> max_size te < 2 ^ 32 -> field_fits (name, value) h ->
  exists td', reads_as td (encode_field name value r h te []).2 (name, value) td' /\
    in_sync (encode_field name value r h te []).1 td'.
Proof.
  intros Hsync Hm Hfits. pose proof Hfits as (Hn & Hv & Hnf & Hvf). simpl in Hn, Hv, Hnf, Hvf.
  pose proof Hsync as (_ & Hd & Hmax & _). rewrite Hmax in Hm.
  pose proof (in_sync_insert te td name value Hsync) as Hins.
  pose proof (find_field_found te name value) as Hfound.
  rewrite (in_sync_combined te td Hsync) in Hfound. unfold encode_field.
  destruct (find_field te name value) as [i|a b|].
  - destruct Hfound as (Hi & Hf & _). destruct r; simpl; eexists; (split; [|eassumption]).
    1,2: by apply reads_indexed.
    1,2: eapply (reads_literal_indexed _ _ _ _ _ _ 4 _ false); try done;
         constructor; auto.
  - destruct Hfound as (Hab & (va & Ha) & (vb & Hb) & _).
    destruct r; simpl; eexists; (split; [|eassumption]).
    1: eapply (reads_literal_indexed _ _ _ _ _ _ 4 _ false); try done;
       [constructor; auto|lia].
    1: eapply (reads_literal_indexed _ _ _ _ _ _ 6 _ true); try done;
       [constructor|lia].
    1,2: eapply (reads_literal_indexed _ _ _ _ _ _ 4 _ false); try done;
       [constructor; auto|lia].
  - destruct r; simpl; eexists; (split; [|eassumption]).
    1,2: apply (reads_literal_new _ _ _ _ 6 _ true); done || constructor.
    1,2: apply (reads_literal_new _ _ _ _ 4 _ false); done || (constructor; auto).
Qed.

(** ** A block of fields *)

Lemma encode_field_out name value r h t out :
  encode_field name value r h t out =
  ((encode_field name value r h t []).1, out ++ (encode_field name value r h t []).2).
Proof.
  unfold encode_field.
  destruct r, (find_field t name value); simpl; f_equal;
    rewrite ?(encode_string_out _ _ (encode_string _ _ _)),
      ?(encode_string_out _ _ (encode_integer _ _ _ _)),
      ?(encode_string_out _ _ (out ++ _)), ?(encode_string_out _ _ [_]),
      ?(encode_integer_out _ _ _ out), <- ?app_assoc; done.
Qed.

Lemma encode_field_max name value r h t out :
  table_ok t -> max_size (encode_field name value r h t out).1 = max_size t.
Proof.
  intros Hok. destruct (table_insert_spec t name value Hok) as (_ & Hm & _).
  unfold encode_field. destruct r, (find_field t name value); simpl; done.
Qed.

(** A field with the representation and the string coding to send it in. *)
Abbreviation request := (field * Representation * bool)%type.

Fixpoint encode_requests (rs : list request) (t : DynamicTable) (out : list Z)
    : DynamicTable * list Z :=
  match rs with
  | [] => (t, out)
  | (f, r, h) :: rs =>
      let '(t, out) := encode_field f.1 f.2 r h t out in encode_requests rs t out
  end.

Lemma encode_requests_out rs : forall t out,
  encode_requests rs t out =
  ((encode_requests rs t []).1, out ++ (encode_requests rs t []).2).
Proof.
  induction rs as [|[[f r] h] rs IH]; intros t out; cbn [encode_requests].
  { by rewrite app_nil_r. }
  rewrite encode_field_out. destruct (encode_field _ _ _ _ _ []) as [t1 o1]. cbn [fst snd].
  rewrite IH, (IH _ o1). cbn [fst snd]. by rewrite app_assoc.
Qed.

Definition request_fits (q : request) : Prop := field_fits q.1.1 q.2.

(** The loop reads a whole block of encoded fields, in order, and leaves the
    two tables in step. *)
Lemma decode_loop_requests m rs : forall te td pre fuel fields leading last delivered,
  in_sync te td -> max_size te < 2 ^ 32 -> Forall request_fits rs ->
  (rs <> [] \/ last = false) ->
  (length (encode_requests rs te []).2 <= fuel)%nat ->
  exists td',
    decode_loop fuel m (pre ++ (encode_requests rs te []).2) (length pre)
      fields leading last td delivered = (td', delivered ++ (fst <$> (fst <$> rs)), Ok tt) /\
    in_sync (encode_requests rs te []).1 td'.
Proof.
  induction rs as [|[[f r] h] rs IH];
    intros te td pre fuel fields leading last delivered Hsync Hm Hfits Hlast Hfuel.
  { exists td. split; [|done]. cbn [encode_requests snd fmap list_fmap]. rewrite !app_nil_r.
    destruct Hlast as [?| ->]; [done|].
    destruct fuel; cbn [decode_loop]; by rewrite lookup_ge_None_2 by lia. }
  apply Forall_cons in Hfits as [Hf Hfits]. unfold request_fits in Hf. simpl in Hf.
  destruct f as [name value].
  destruct (encode_field_reads te td name value r h Hsync Hm Hf)
    as (td1 & (first & tl & E & Hread) & Hsync1).
  cbn [encode_requests fst snd] in *.
  pose proof (encode_field_max name value r h te [] ltac:(apply Hsync)) as Hm1.
  destruct (encode_field name value r h te []) as [te1 enc]. cbn [fst snd] in *.
  rewrite encode_requests_out in Hfuel |- *. cbn [fst snd] in Hfuel |- *.
  rewrite length_app in Hfuel.
  set (rest := (encode_requests rs te1 []).2) in *.
  assert (Henc : (1 <= length enc)%nat) by (rewrite E; simpl; lia).
  destruct fuel as [|fuel]; [lia|].
  assert (Hfirst : (pre ++ enc ++ rest) !! length pre = Some first)
    by (rewrite E; by apply list_lookup_middle).
  cbn [decode_loop]. rewrite Hfirst, Hread.
  rewrite app_assoc. replace (length pre + length enc)%nat with (length (pre ++ enc))
    by (by rewrite length_app).
  destruct (IH te1 td1 (pre ++ enc) fuel (S fields) leading false (delivered ++ [(name, value)]))
    as (td' & Hd & Hs); [done|lia|done|by right|unfold rest in Hfuel; lia|].
  exists td'. split; [|done]. fold rest in Hd. rewrite Hd. by rewrite <- app_assoc.
Qed.

Lemma encode_into_requests headers : forall e out,
  encode_into headers e out =
  (mkEncoder (encode_requests ((fun f => (f, Proxy, false)) <$> headers) (etable e) out).1
     (pending_size_update e),
   (encode_requests ((fun f => (f, Proxy, false)) <$> headers) (etable e) out).2).
Proof.
  induction headers as [|f headers IH]; intros e out; cbn [encode_into encode_requests fmap list_fmap].
  { by destruct e. }
  unfold encode_header_into. destruct (encode_field _ _ _ _ _ _) as [t o].
  rewrite IH. done.
Qed.

(** ** Properties *)

Lemma decode_encode_requests_eq (rs : list request) (te : DynamicTable) (d : Decoder) :
  in_sync te (table d) -> max_size te < 2 ^ 32 -> Forall request_fits rs ->
  exists d',
    decode_with_cb d (encode_requests rs te []).2 = (d', fst <$> (fst <$> rs), Ok tt) /\
    in_sync (encode_requests rs te []).1 (table d').
Proof.
  intros Hsync Hm Hfits.
  destruct (decode_loop_requests (max_allowed_size d) rs te (table d) []
    (length (encode_requests rs te []).2) 0 0 false []) as (td' & Hd & Hs);
    [done|done|done|by right|done|].
  exists (mkDecoder td' (max_allowed_size d)). split; [|done].
  unfold decode_with_cb. simpl in Hd. by rewrite Hd.
Qed.

(** C1. A block of fields, each sent in any representation and with or
    without Huffman coding, decodes to exactly these fields in order, and the
    decoder's table stays in step with the encoder's. *)
Theorem decode_encode_requests (rs : list request) (te : DynamicTable) (d : Decoder) :
  in_sync te (table d) -> max_size te < 2 ^ 32 -> Forall request_fits rs ->
  exists d',
    decode_with_cb d (encode_requests rs te []).2 = (d', fst <$> (fst <$> rs), Ok tt) /\
    in_sync (encode_requests rs te []).1 (table d').
Proof. apply decode_encode_requests_eq. Qed.

Lemma table_ok_new m : 0 <= m -> table_ok (table_new m).
Proof. intros Hm. split; [simpl; lia|]. exists []. apply holds_nil. Qed.

Lemma decode_encode_requests_witness :
  exists d',
    decode_with_cb decoder_new
      (encode_requests [((bstr "x-key", bstr "v"), IncrementalIndexing, true);
                        ((bstr ":method", bstr "PUT"), Proxy, false)] (table_new 4096) []).2 =
      (d', [(bstr "x-key", bstr "v"); (bstr ":method", bstr "PUT")], Ok tt) /\
    in_sync (encode_requests [((bstr "x-key", bstr "v"), IncrementalIndexing, true);
                        ((bstr ":method", bstr "PUT"), Proxy, false)] (table_new 4096) []).1
      (table d').
Proof.
  apply (decode_encode_requests
    [((bstr "x-key", bstr "v"), IncrementalIndexing, true);
     ((bstr ":method", bstr "PUT"), Proxy, false)] (table_new 4096) decoder_new).
  - split_and!; try done; by apply table_ok_new.
  - simpl. lia.
  - repeat constructor; simpl; try apply bstr_ok; by vm_compute.
Defined.

(** ** Size updates *)

Lemma fit_fit a b fs : fit a (fit b fs) = fit (Z.min a b) fs.
Proof.
  revert a b. induction fs as [|f fs IH]; intros a b; [done|]. cbn [fit].
  destruct (Z.leb_spec (field_size f) b); cbn [fit];
  destruct (Z.leb_spec (field_size f) (Z.min a b)); try lia; try done.
  - destruct (Z.leb_spec (field_size f) a); [|lia]. rewrite IH. do 2 f_equal. lia.
  - destruct (Z.leb_spec (field_size f) a); [lia|done].
Qed.

(** One size update at the start of a block: the table changes, no field is
    delivered. *)
Lemma decode_loop_size_update m size t pre rest fuel leading last :
  0 <= size < integer_limit 5 -> size <= m -> (leading < 2)%nat ->
  let enc := encode_integer size 5 0x20 [] in
  decode_loop (S fuel) m (pre ++ enc ++ rest) (length pre) 0 leading last t [] =
  decode_loop fuel m ((pre ++ enc) ++ rest) (length (pre ++ enc)) 0 (S leading) true
    (set_max_size size t) [].
Proof.
  intros Hs Hm Hl. cbv zeta.
  destruct (encode_integer_head size 5 0x20) as (x & tl & E & Hx); [lia|lia|].
  change (prefix_mask 5) with 31 in Hx. change (integer_limit 5) with 268435487 in *.
  assert (Hfirst : (pre ++ encode_integer size 5 0x20 [] ++ rest) !! length pre
    = Some (Z.lor 0x20 x)) by (rewrite E; by apply list_lookup_middle).
  cbn [decode_loop]. rewrite Hfirst. unfold decode_turn.
  pose proof (kind_size_update x Hx) as Hk. unfold octet_kind in Hk. injection Hk as -> -> ->.
  simpl (0 <? 0)%nat. unfold MAX_LEADING_SIZE_UPDATES.
  destruct (Nat.ltb_spec 2 (leading + 1)); [lia|].
  rewrite decode_integer_at;
    [|widths; lia|by vm_compute|change (integer_limit 5) with 268435487; lia].
  cbn [mbind res_bind]. destruct (Z.ltb_spec m size); [lia|].
  rewrite (app_assoc pre), length_app. done.
Qed.

(** The encoder's table against a decoder that has not heard of the pending
    size changes yet. *)
Definition pending_sync (e : Encoder) (td : DynamicTable) : Prop :=
  match pending_size_update e with
  | None => in_sync (etable e) td
  | Some p =>
      table_ok (etable e) /\ table_ok td /\ max_size (etable e) = last_size p /\
      0 <= smallest p <= last_size p /\ table_iter (etable e) = fit (smallest p) (table_iter td)
  end.

Lemma change_max_pending_sync m e td :
  pending_sync e td -> 0 <= m -> pending_sync (change_max_table_size m e) td.
Proof.
  unfold pending_sync, change_max_table_size. intros H Hm. cbn [pending_size_update etable].
  destruct (pending_size_update e) as [p|]; cbn [smallest last_size].
  - destruct H as (He & Hd & Hmax & Hp & Hi).
    destruct (set_max_size_spec (etable e) m He Hm) as (H1 & H2 & H3).
    split_and!; try done; try lia. rewrite H3, Hi, fit_fit. f_equal. lia.
  - destruct H as (He & Hd & Hmax & Hi).
    destruct (set_max_size_spec (etable e) m He Hm) as (H1 & H2 & H3).
    split_and!; try done; try lia. by rewrite H3, Hi.
Qed.

(** A block that opens with the pending size updates brings the decoder's table
    in step with the encoder's before its first field is read. *)
Lemma decode_loop_size_updates m e td p rest fuel :
  pending_size_update e = Some p -> pending_sync e td ->
  last_size p < integer_limit 5 -> last_size p <= m ->
  let '(updates, e', out) := encode_size_updates_into (last_size p) e [] in
  (1 <= updates <= 2)%nat /\ (updates <= length out)%nat /\ e' = mkEncoder (etable e) None /\
  exists td', in_sync (etable e) td' /\
    decode_loop (updates + fuel) m (out ++ rest) 0 0 0 false td [] =
    decode_loop fuel m (out ++ rest) (length out) 0 updates true td' [].
Proof.
  intros Hp Hsync Hlim Hm. unfold pending_sync in Hsync. rewrite Hp in Hsync.
  destruct Hsync as (He & Hd & Hmax & Hs & Hi).
  unfold encode_size_updates_into. rewrite Hp.
  destruct (Z.ltb_spec (smallest p) (last_size p)) as [Hlt|Hge].
  - rewrite encode_integer_out. set (e1 := encode_integer (smallest p) 5 0x20 []).
    set (e2 := encode_integer (last_size p) 5 0x20 []).
    destruct (encode_integer_head (smallest p) 5 0x20) as (x1 & t1 & E1 & _); [lia|lia|].
    destruct (encode_integer_head (last_size p) 5 0x20) as (x2 & t2 & E2 & _); [lia|lia|].
    destruct (set_max_size_spec td (smallest p) Hd) as (Ha1 & Ha2 & Ha3); [lia|].
    destruct (set_max_size_spec _ (last_size p) Ha1) as (Hb1 & Hb2 & Hb3); [lia|].
    split_and!; [lia|lia|unfold e1, e2; rewrite length_app, E1, E2; simpl; lia|done|].
    exists (set_max_size (last_size p) (set_max_size (smallest p) td)). split.
    + split_and!; try done; [by rewrite Hb2|].
      rewrite Hb3, Ha3, fit_fit, Hi. f_equal. lia.
    + rewrite <- app_assoc.
      etransitivity; [exact (decode_loop_size_update m (smallest p) td [] (e2 ++ rest)
        (1 + fuel) 0 false ltac:(lia) ltac:(lia) ltac:(lia))|].
      etransitivity; [exact (decode_loop_size_update m (last_size p) _ e1 rest
        fuel 1 true ltac:(lia) ltac:(lia) ltac:(lia))|].
      by rewrite <- app_assoc.
  - set (e2 := encode_integer (last_size p) 5 0x20 []).
    destruct (encode_integer_head (last_size p) 5 0x20) as (x2 & t2 & E2 & _); [lia|lia|].
    destruct (set_max_size_spec td (last_size p) Hd) as (Hb1 & Hb2 & Hb3); [lia|].
    split_and!; [lia|lia|unfold e2; rewrite E2; simpl; lia|done|].
    exists (set_max_size (last_size p) td). split.
    + split_and!; try done; [by rewrite Hb2|]. rewrite Hb3, Hi. f_equal. lia.
    + exact (decode_loop_size_update m (last_size p) td [] rest fuel 0 false
        ltac:(lia) ltac:(lia) ltac:(lia)).
Qed.

(** The whole block a connection sends after its table size changed. *)
Definition encode_block (last : Z) (headers : list field) (e : Encoder) : Encoder * list Z :=
  let '(_, e, out) := encode_size_updates_into last e [] in encode_into headers e out.

Lemma decode_encode_block e d p headers :
  pending_size_update e = Some p -> pending_sync e (table d) ->
  last_size p < integer_limit 5 -> last_size p <= max_allowed_size d ->
  headers <> [] -> Forall (fun f => field_fits f false) headers ->
  exists d',
    decode_with_cb d (encode_block (last_size p) headers e).2 = (d', headers, Ok tt) /\
    in_sync (etable (encode_block (last_size p) headers e).1) (table d') /\
    pending_size_update (encode_block (last_size p) headers e).1 = None.
Proof.
  intros Hp Hsync Hlim Hm Hne Hfits. unfold encode_block, decode_with_cb.
  set (rs := (fun f => (f, Proxy, false)) <$> headers).
  set (block := (encode_requests rs (etable e) []).2).
  pose proof (decode_loop_size_updates (max_allowed_size d) e (table d) p block) as Hup.
  destruct (encode_size_updates_into (last_size p) e []) as [[k e'] out].
  rewrite encode_into_requests, encode_requests_out.
  destruct (Hup 0%nat Hp Hsync Hlim Hm) as (_ & Hk2 & -> & _).
  cbn [etable pending_size_update fst snd]. fold rs. fold block.
  set (fuel := (length out - k + length block)%nat).
  destruct (Hup fuel Hp Hsync Hlim Hm) as (_ & _ & _ & td1 & Hs1 & Hd1).
  replace (length (out ++ block)) with (k + fuel)%nat
    by (unfold fuel; rewrite length_app; lia). rewrite Hd1.
  assert (Hmax : max_size (etable e) < 2 ^ 32).
  { unfold pending_sync in Hsync. rewrite Hp in Hsync. destruct Hsync as (_ & _ & -> & _).
    change (integer_limit 5) with 268435487 in Hlim. lia. }
  destruct (decode_loop_requests (max_allowed_size d) rs (etable e) td1 out
    fuel 0 k true []) as (td' & Hd & Hs2); [done|done| | | |].
  - unfold rs. apply Forall_fmap. done.
  - left. unfold rs. by destruct headers.
  - fold block. unfold fuel. lia.
  - fold block in Hd. rewrite Hd. exists (mkDecoder td' (max_allowed_size d)).
    split_and!; [|done|done]. do 2 f_equal. simpl. unfold rs. rewrite <- !list_fmap_compose.
    by rewrite list_fmap_id.
Qed.

(** Any sequence of table-size changes, announced by the size updates
    that open the next block, leaves both ends in step: the peer is told the
    smallest size and the last one, and evicts exactly what the encoder
    evicted. *)
Theorem size_changes_keep_sync (e : Encoder) (d : Decoder) (ms : list Z) (headers : list field) :
  let e1 := fold_left (fun e m => change_max_table_size m e) ms e in
  let last := max_size (etable e1) in
  pending_size_update e = None -> in_sync (etable e) (table d) ->
  ms <> [] -> Forall (fun m => 0 <= m) ms ->
  last < integer_limit 5 -> last <= max_allowed_size d ->
  headers <> [] -> Forall (fun f => field_fits f false) headers ->
  exists d',
    decode_with_cb d (encode_block last headers e1).2 = (d', headers, Ok tt) /\
    in_sync (etable (encode_block last headers e1).1) (table d').
Proof.
  intros e1 last Hp Hsync Hms Hpos Hlim Hmax Hne Hfits.
  assert (H : pending_sync e1 (table d) /\ pending_size_update e1 <> None).
  { assert (Hs0 : pending_sync e (table d)) by (unfold pending_sync; by rewrite Hp).
    unfold e1. clear e1 last Hp Hsync Hlim Hmax. revert e Hs0.
    induction Hpos as [|m ms Hm Hpos IH]; intros e Hs0; [done|]. cbn [fold_left].
    destruct ms as [|m' ms].
    - split; [by apply change_max_pending_sync|done].
    - apply IH; [done|by apply change_max_pending_sync]. }
  destruct H as [Hs Hp1]. destruct (pending_size_update e1) as [p|] eqn:Ep; [|done].
  assert (last_size p = last) as <-.
  { unfold pending_sync in Hs. rewrite Ep in Hs. by destruct Hs as (_ & _ & ? & _). }
  destruct (decode_encode_block e1 d p headers) as (d' & H1 & H2 & _); try done. by exists d'.
Qed.

Lemma size_changes_keep_sync_witness :
  exists d',
    decode_with_cb decoder_new
      (encode_block 4096 [(bstr "x-a", bstr "1")]
        (change_max_table_size 4096 (change_max_table_size 100 encoder_new))).2 =
      (d', [(bstr "x-a", bstr "1")], Ok tt) /\
    in_sync (etable (encode_block 4096 [(bstr "x-a", bstr "1")]
        (change_max_table_size 4096 (change_max_table_size 100 encoder_new))).1) (table d').
Proof.
  apply (size_changes_keep_sync encoder_new decoder_new [100; 4096] [(bstr "x-a", bstr "1")]);
    try done.
  - split_and!; try done; by apply table_ok_new.
  - repeat constructor; lia.
  - repeat constructor; simpl; try apply bstr_ok; by vm_compute.
Defined.

Lemma fit_0 fs : fit 0 fs = [].
Proof. destruct fs as [|f fs]; [done|]. simpl. pose proof (field_size_pos f). by cmps. Qed.

(** After [reset_table] the next block resynchronises the peer whatever
    its table holds: insertions it missed no longer matter, because both
    tables are emptied first (sozu-proxy/sozu#1627). *)
Theorem reset_table_resyncs (e : Encoder) (d : Decoder) (headers : list field) :
  let m := (reset_table e).1 in
  let e1 := (reset_table e).2 in
  table_ok (etable e) -> 0 <= max_size (etable e) ->
  match pending_size_update e with Some p => 0 <= smallest p | None => True end ->
  table_ok (table d) ->
  m < integer_limit 5 -> m <= max_allowed_size d ->
  headers <> [] -> Forall (fun f => field_fits f false) headers ->
  exists d',
    decode_with_cb d (encode_block m headers e1).2 = (d', headers, Ok tt) /\
    in_sync (etable (encode_block m headers e1).1) (table d').
Proof.
  intros m e1 He Hm0 Hpend Hd Hlim Hmax Hne Hfits. unfold reset_table in m, e1. simpl in m, e1.
  assert (Hp : pending_size_update e1 = Some (mkPending 0 m)).
  { unfold e1, change_max_table_size. cbn [pending_size_update smallest]. do 2 f_equal.
    destruct (pending_size_update e); lia. }
  destruct (decode_encode_block e1 d (mkPending 0 m) headers) as (d' & H1 & H2 & _);
    try done; [|by exists d'].
  unfold pending_sync. rewrite Hp. cbn [smallest last_size].
  destruct (set_max_size_spec (etable e) 0 He) as (Ha1 & Ha2 & Ha3); [lia|].
  destruct (set_max_size_spec _ m Ha1) as (Hb1 & Hb2 & Hb3); [lia|].
  split_and!; try done; try lia.
  rewrite fit_0. etransitivity; [exact Hb3|]. by rewrite Ha3, fit_0.
Qed.

(** A decoder that holds a field the encoder never sent still reads the next
    block correctly after a reset. *)
Lemma reset_table_resyncs_witness :
  let stale := mkDecoder (table_insert (bstr "lost") (bstr "entry") (table_new 4096)) 65536 in
  exists d',
    decode_with_cb stale
      (encode_block (reset_table encoder_new).1 [(bstr "x-a", bstr "1")]
        (reset_table encoder_new).2).2 = (d', [(bstr "x-a", bstr "1")], Ok tt) /\
    in_sync (etable (encode_block (reset_table encoder_new).1 [(bstr "x-a", bstr "1")]
        (reset_table encoder_new).2).1) (table d').
Proof.
  apply (reset_table_resyncs encoder_new
    (mkDecoder (table_insert (bstr "lost") (bstr "entry") (table_new 4096)) 65536)
    [(bstr "x-a", bstr "1")]); try done.
  - by apply table_ok_new.
  - apply table_insert_spec. by apply table_ok_new.
  - repeat constructor; simpl; try apply bstr_ok; by vm_compute.
Defined.
