(* ===== verification/H2Parser.v ===== *)
(** * HTTP/2 frame parser

    [lib/src/protocol/mux/parser.rs]: the nine-octet frame header and the body
    of every frame type. The parser is written with nom, and refers to the
    octets it keeps through kawa's [Slice]; neither is part of the repository,
    so both are interfaces here ([Nom], [Kawa]) with the documented behaviour
    the parser relies on ([NomLaws], [KawaLaws]).

    A [debug_assert!] that fails, and an index out of range, is the outcome
    [Panic]. *)

From Stdlib Require Import ZifyBool.
From S2P Require Import Prelude.

(** ** Errors *)

Inductive H2Error : Type :=
| NoError
| ProtocolError
| InternalError
| FlowControlError
| SettingsTimeout
| StreamClosed
| FrameSizeError
| RefusedStream
| Cancel
| CompressionError
| ConnectError
| EnhanceYourCalm
| InadequateSecurity
| HTTP11Required.

Global Instance H2Error_eq_dec : EqDecision H2Error.
Proof. solve_decision. Defined.

Definition H2Error_all : list H2Error :=
  [NoError; ProtocolError; InternalError; FlowControlError; SettingsTimeout; StreamClosed;
   FrameSizeError; RefusedStream; Cancel; CompressionError; ConnectError; EnhanceYourCalm;
   InadequateSecurity; HTTP11Required].

(** [error as u32] *)
Definition H2Error_code (e : H2Error) : Z :=
  match e with
  | NoError => 0x0
  | ProtocolError => 0x1
  | InternalError => 0x2
  | FlowControlError => 0x3
  | SettingsTimeout => 0x4
  | StreamClosed => 0x5
  | FrameSizeError => 0x6
  | RefusedStream => 0x7
  | Cancel => 0x8
  | CompressionError => 0x9
  | ConnectError => 0xa
  | EnhanceYourCalm => 0xb
  | InadequateSecurity => 0xc
  | HTTP11Required => 0xd
  end.

Definition H2Error_try_from (code : Z) : res Z H2Error :=
  match code with
  | 0x0 => Ok NoError
  | 0x1 => Ok ProtocolError
  | 0x2 => Ok InternalError
  | 0x3 => Ok FlowControlError
  | 0x4 => Ok SettingsTimeout
  | 0x5 => Ok StreamClosed
  | 0x6 => Ok FrameSizeError
  | 0x7 => Ok RefusedStream
  | 0x8 => Ok Cancel
  | 0x9 => Ok CompressionError
  | 0xa => Ok ConnectError
  | 0xb => Ok EnhanceYourCalm
  | 0xc => Ok InadequateSecurity
  | 0xd => Ok HTTP11Required
  | other => Err other
  end.

Definition H2Error_as_str (e : H2Error) : string :=
  match e with
  | NoError => "NO_ERROR"
  | ProtocolError => "PROTOCOL_ERROR"
  | InternalError => "INTERNAL_ERROR"
  | FlowControlError => "FLOW_CONTROL_ERROR"
  | SettingsTimeout => "SETTINGS_TIMEOUT"
  | StreamClosed => "STREAM_CLOSED"
  | FrameSizeError => "FRAME_SIZE_ERROR"
  | RefusedStream => "REFUSED_STREAM"
  | Cancel => "CANCEL"
  | CompressionError => "COMPRESSION_ERROR"
  | ConnectError => "CONNECT_ERROR"
  | EnhanceYourCalm => "ENHANCE_YOUR_CALM"
  | InadequateSecurity => "INADEQUATE_SECURITY"
  | HTTP11Required => "HTTP_1_1_REQUIRED"
  end.

(** The [match] on the text, one literal per line. *)
Definition H2Error_names : list (string * H2Error) :=
  [("NO_ERROR", NoError); ("PROTOCOL_ERROR", ProtocolError);
   ("INTERNAL_ERROR", InternalError); ("FLOW_CONTROL_ERROR", FlowControlError);
   ("SETTINGS_TIMEOUT", SettingsTimeout); ("STREAM_CLOSED", StreamClosed);
   ("FRAME_SIZE_ERROR", FrameSizeError); ("REFUSED_STREAM", RefusedStream);
   ("CANCEL", Cancel); ("COMPRESSION_ERROR", CompressionError);
   ("CONNECT_ERROR", ConnectError); ("ENHANCE_YOUR_CALM", EnhanceYourCalm);
   ("INADEQUATE_SECURITY", InadequateSecurity); ("HTTP_1_1_REQUIRED", HTTP11Required)]%string.

Definition H2Error_from_str (s : string) : res unit H2Error :=
  match find (fun p => String.eqb p.1 s) H2Error_names with
  | Some (_, e) => Ok e
  | None => Err tt
  end.

(** ** Wire format constants *)

Definition FRAME_HEADER_SIZE : nat := 9.
Definition STREAM_ID_MASK : Z := 0x7FFFFFFF.
Definition FLAG_END_STREAM : Z := 0x1.
Definition FLAG_END_HEADERS : Z := 0x4.
Definition FLAG_PADDED : Z := 0x8.
Definition FLAG_PRIORITY : Z := 0x20.
Definition FLAG_ACK : Z := 0x1.
Definition PRIORITY_PAYLOAD_SIZE : Z := 5.
Definition RST_STREAM_PAYLOAD_SIZE : Z := 4.
Definition SETTINGS_ENTRY_SIZE : Z := 6.
Definition PING_PAYLOAD_SIZE : Z := 8.
Definition WINDOW_UPDATE_PAYLOAD_SIZE : Z := 4.
Definition GOAWAY_PAYLOAD_SIZE : Z := 8.
Definition SETTINGS_HEADER_TABLE_SIZE : Z := 1.
Definition SETTINGS_ENABLE_PUSH : Z := 2.
Definition SETTINGS_MAX_CONCURRENT_STREAMS : Z := 3.
Definition SETTINGS_INITIAL_WINDOW_SIZE : Z := 4.
Definition SETTINGS_MAX_FRAME_SIZE : Z := 5.
Definition SETTINGS_MAX_HEADER_LIST_SIZE : Z := 6.
Definition SETTINGS_ENABLE_CONNECT_PROTOCOL : Z := 8.
Definition SETTINGS_NO_RFC7540_PRIORITIES : Z := 9.
Definition SETTINGS_COUNT : Z := 8.
Definition MAX_SETTINGS_ENTRIES : Z := 64.
Definition PRIORITY_UPDATE_MIN_PAYLOAD : Z := 4.
Definition PRIORITY_UPDATE_MAX_VALUE : Z := 1024.

(** [flags & FLAG != 0] *)
Definition has_flag (flags flag : Z) : bool := negb (Z.land flags flag =? 0).

(** ** Frames *)

Module FrameType.
Inductive t : Type :=
| Data
| Headers
| Priority
| RstStream
| Settings
| PushPromise
| Ping
| GoAway
| WindowUpdate
| Continuation
| PriorityUpdate
| Unknown (raw : Z).

Global Instance eq_dec : EqDecision t.
Proof. solve_decision. Defined.
End FrameType.

Record FrameHeader := mkFrameHeader {
  payload_len : Z;
  frame_type : FrameType.t;
  flags : Z;
  stream_id : Z;
}.

Definition convert_frame_type (t : Z) : FrameType.t :=
  match t with
  | 0 => FrameType.Data
  | 1 => FrameType.Headers
  | 2 => FrameType.Priority
  | 3 => FrameType.RstStream
  | 4 => FrameType.Settings
  | 5 => FrameType.PushPromise
  | 6 => FrameType.Ping
  | 7 => FrameType.GoAway
  | 8 => FrameType.WindowUpdate
  | 9 => FrameType.Continuation
  | 0x10 => FrameType.PriorityUpdate
  | other => FrameType.Unknown other
  end.

Record StreamDependency := mkStreamDependency {
  exclusive : bool;
  dependency_id : Z;
}.

Inductive PriorityPart : Type :=
| Rfc7540 (stream_dependency : StreamDependency) (weight : Z)
| Rfc9218 (urgency : Z) (incremental : bool).

Record Setting := mkSetting {
  identifier : Z;
  value : Z;
}.

(** ** The libraries the parser is written with *)

(** The error of a parser: [nom::Err<ParserError>], whose [kind] is one of
    nom's or an HTTP/2 error. *)
Section Outcomes.

Context (ErrorKind : Type).

Inductive ParserErrorKind : Type :=
| KindNom (kind : ErrorKind)
| KindH2 (error : H2Error).

Record ParserError := mkParserError {
  error_input : list Z;
  kind : ParserErrorKind;
}.

Inductive NomErr : Type :=
| NomError (e : ParserError)
| NomFailure (e : ParserError).

End Outcomes.

Arguments KindNom {ErrorKind} kind.
Arguments KindH2 {ErrorKind} error.
Arguments mkParserError {ErrorKind} error_input kind.
Arguments NomError {ErrorKind} e.
Arguments NomFailure {ErrorKind} e.
(** [IResult]: the remaining input with the value. *)
Abbreviation iresult K A := (outcome (NomErr K) (list Z * A)).

(** What the parser calls of nom: the complete big-endian numbers, [take], [tag]
    and [many0]. A number, [take] or [tag] answers the kind of its error. *)
Class Nom := {
  ErrorKind : Type;
  nom_be_u8 : list Z -> res ErrorKind (list Z * Z);
  nom_be_u16 : list Z -> res ErrorKind (list Z * Z);
  nom_be_u24 : list Z -> res ErrorKind (list Z * Z);
  nom_be_u32 : list Z -> res ErrorKind (list Z * Z);
  nom_take : Z -> list Z -> res ErrorKind (list Z * list Z);
  nom_tag : list Z -> list Z -> res ErrorKind (list Z * list Z);
  nom_many0 : forall A, (list Z -> iresult ErrorKind A) -> list Z -> iresult ErrorKind (list A);
}.

(** A complete [n]-octet number: the first [n] octets in network order, or an
    error when there are fewer. *)
Definition number_law {K} (n : nat) (p : list Z -> res K (list Z * Z)) : Prop :=
  forall i,
    ((n <= length i)%nat -> p i = Ok (drop n i, be_value (take n i))) /\
    ((length i < n)%nat -> exists k, p i = Err k).

Class NomLaws `{Nom} : Prop := {
  law_be_u8 : number_law 1 nom_be_u8;
  law_be_u16 : number_law 2 nom_be_u16;
  law_be_u24 : number_law 3 nom_be_u24;
  law_be_u32 : number_law 4 nom_be_u32;
  law_take_enough n i :
    0 <= n <= Z.of_nat (length i) ->
    nom_take n i = Ok (drop (Z.to_nat n) i, take (Z.to_nat n) i);
  law_take_short n i : Z.of_nat (length i) < n -> exists k, nom_take n i = Err k;
  law_tag_match t i : nom_tag t (t ++ i) = Ok (i, t);
  law_tag_mismatch t i : ~ (t `prefix_of` i) -> exists k, nom_tag t i = Err k;
  (** [many0] stops, successfully, where its parser errors; *)
  law_many0_stop A (p : list Z -> iresult ErrorKind A) i e :
    p i = Fails (NomError e) -> nom_many0 A p i = Val (i, []);
  (** and goes on after every element that consumed input. *)
  law_many0_step A (p : list Z -> iresult ErrorKind A) i i' x rest xs :
    p i = Val (i', x) -> (length i' < length i)%nat ->
    nom_many0 A p i' = Val (rest, xs) -> nom_many0 A p i = Val (rest, x :: xs);
}.

(** kawa's [Slice]: [Slice::new(buffer, data)] keeps where [data], a part of
    [buffer], starts in it and how long it is; [slice_data] is the octets it
    denotes in a buffer. The position of [data], which the code has in its
    pointer, is an argument here. *)
Class Kawa := {
  Slice : Type;
  slice_new : list Z -> nat -> nat -> Slice;
  slice_data : list Z -> Slice -> list Z;
}.

Class KawaLaws `{Kawa} : Prop := {
  law_slice_data buffer start len :
    (start + len <= length buffer)%nat ->
    slice_data buffer (slice_new buffer start len) = take len (drop start buffer);
}.

(** ** The parser *)

Section Parser.

Context `{Nom} `{Kawa}.

(** A nom error becomes a [ParserError] through [from_error_kind]. *)
Definition lift {A} (i : list Z) (r : res ErrorKind (list Z * A)) : iresult ErrorKind A :=
  match r with
  | Ok x => Val x
  | Err k => Fails (NomError (mkParserError i (KindNom k)))
  end.

Definition be_u8 (i : list Z) : iresult ErrorKind Z := lift i (nom_be_u8 i).
Definition be_u16 (i : list Z) : iresult ErrorKind Z := lift i (nom_be_u16 i).
Definition be_u24 (i : list Z) : iresult ErrorKind Z := lift i (nom_be_u24 i).
Definition be_u32 (i : list Z) : iresult ErrorKind Z := lift i (nom_be_u32 i).
Definition take_octets (n : Z) (i : list Z) : iresult ErrorKind (list Z) := lift i (nom_take n i).

Definition CLIENT_PREFACE_MAGIC : list Z :=
  bstr "PRI * HTTP/2.0" ++ [13; 10; 13; 10] ++ bstr "SM" ++ [13; 10; 13; 10].

Definition preface (i : list Z) : res ErrorKind (list Z * list Z) :=
  nom_tag CLIENT_PREFACE_MAGIC i.

(** [Err(Err::Failure(ParserError::new_h2(input, error)))] *)
Definition h2_failure {A} (input : list Z) (e : H2Error) : outcome (NomErr ErrorKind) A :=
  Fails (NomFailure (mkParserError input (KindH2 e))).

(** The [ensure_frame_size!] macro. *)
Definition ensure_frame_size (input : list Z) (cond : bool) : outcome (NomErr ErrorKind) unit :=
  if negb cond then h2_failure input FrameSizeError else Val tt.

(** [debug_assert_eq!(remaining.len(), in_len - payload_len as usize)], with
    the subtraction checked as in a debug build. *)
Definition assert_consumed (input remaining : list Z) (n : Z) : outcome (NomErr ErrorKind) unit :=
  debug_assert ((n <=? Z.of_nat (length input)) &&
                (Z.of_nat (length remaining) =? Z.of_nat (length input) - n)).

Definition valid_stream_id (t : FrameType.t) (stream_id : Z) : bool :=
  match t with
  | FrameType.Data | FrameType.Headers | FrameType.Priority | FrameType.RstStream
  | FrameType.PushPromise | FrameType.Continuation => negb (stream_id =? 0)
  | FrameType.Settings | FrameType.Ping | FrameType.GoAway | FrameType.PriorityUpdate =>
      stream_id =? 0
  | FrameType.WindowUpdate | FrameType.Unknown _ => true
  end.

Definition frame_header (input : list Z) (max_frame_size : Z)
    : iresult ErrorKind FrameHeader :=
  '(i, payload_len) ← be_u24 input;
  if max_frame_size <? payload_len then h2_failure i FrameSizeError
  else
    '(i, t) ← be_u8 i;
    let frame_type := convert_frame_type t in
    '(i, flags) ← be_u8 i;
    '(i, raw_stream_id) ← be_u32 i;
    let stream_id := Z.land raw_stream_id STREAM_ID_MASK in
    _ ← debug_assert (length i <=? length input)%nat;
    _ ← assert_consumed input i (Z.of_nat FRAME_HEADER_SIZE);
    _ ← debug_assert (payload_len <=? max_frame_size);
    _ ← debug_assert (Z.land stream_id (Z.lnot STREAM_ID_MASK) =? 0);
    if negb (valid_stream_id frame_type stream_id) then h2_failure i ProtocolError
    else Val (i, mkFrameHeader payload_len frame_type flags stream_id).

Inductive Frame : Type :=
| FrameData (stream_id : Z) (payload : Slice) (end_stream : bool)
| FrameHeaders (stream_id : Z) (priority : option PriorityPart)
    (header_block_fragment : Slice) (end_stream end_headers : bool)
| FramePriority (stream_id : Z) (inner : PriorityPart)
| FrameRstStream (stream_id error_code : Z)
| FrameSettings (settings : list Setting) (ack : bool)
| FramePushPromise
| FramePing (payload : list Z) (ack : bool)
| FrameGoAway (last_stream_id error_code : Z) (additional_debug_data : Slice)
| FrameWindowUpdate (stream_id increment : Z)
| FrameContinuation
| FramePriorityUpdate (prioritized_stream_id : Z) (priority_field_value : list Z)
| FrameUnknown (raw : Z).

Definition frame_type_of (f : Frame) : FrameType.t :=
  match f with
  | FrameData _ _ _ => FrameType.Data
  | FrameHeaders _ _ _ _ _ => FrameType.Headers
  | FramePriority _ _ => FrameType.Priority
  | FrameRstStream _ _ => FrameType.RstStream
  | FrameSettings _ _ => FrameType.Settings
  | FramePushPromise => FrameType.PushPromise
  | FramePing _ _ => FrameType.Ping
  | FrameGoAway _ _ _ => FrameType.GoAway
  | FrameWindowUpdate _ _ => FrameType.WindowUpdate
  | FrameContinuation => FrameType.Continuation
  | FramePriorityUpdate _ _ => FrameType.PriorityUpdate
  | FrameUnknown raw => FrameType.Unknown raw
  end.

(** The content after the pad-length octet, and the padding to trim. *)
Definition strip_padding (i : list Z) (flags : Z) (error_input : list Z) : iresult ErrorKind Z :=
  let in_len := length i in
  '(i, pad_length) ← (if has_flag flags FLAG_PADDED then be_u8 i else Val (i, 0));
  _ ← debug_assert (Z.of_nat (length i) =?
        Z.of_nat in_len - (if has_flag flags FLAG_PADDED then 1 else 0));
  if Z.of_nat (length i) <? pad_length then h2_failure error_input ProtocolError
  else
    _ ← debug_assert (pad_length <=? Z.of_nat (length i));
    Val (i, pad_length).

Definition unpad (i : list Z) (pad_length : Z) (error_input : list Z)
    : outcome (NomErr ErrorKind) (list Z) :=
  if Z.of_nat (length i) <? pad_length then h2_failure error_input ProtocolError
  else
    let content_len := Z.of_nat (length i) - pad_length in
    _ ← debug_assert (content_len <=? Z.of_nat (length i));
    _ ← debug_assert (content_len + pad_length =? Z.of_nat (length i));
    Val (take (Z.to_nat content_len) i).

(** [Slice::new(input, data)] for a prefix [data] of [i], itself the end of
    the payload that [remaining] follows in [input]. *)
Definition slice_at (input remaining i data : list Z) : Slice :=
  slice_new input (length input - length remaining - length i) (length data).

Definition data_frame (input : list Z) (header : FrameHeader) : iresult ErrorKind Frame :=
  '(remaining, i) ← take_octets (payload_len header) input;
  '(i, pad_length) ← strip_padding i (flags header) input;
  payload ← unpad i pad_length input;
  _ ← assert_consumed input remaining (payload_len header);
  _ ← debug_assert (Z.of_nat (length payload) <=? payload_len header);
  _ ← debug_assert (pad_length <=? payload_len header);
  Val (remaining, FrameData (stream_id header) (slice_at input remaining i payload)
                    (has_flag (flags header) FLAG_END_STREAM)).

Definition stream_dependency (i : list Z) : iresult ErrorKind StreamDependency :=
  '(i, raw) ← be_u32 i;
  Val (i, mkStreamDependency (has_flag raw 0x80000000) (Z.land raw STREAM_ID_MASK)).

(** The priority fields of HEADERS, under [FLAG_PRIORITY]. *)
Definition headers_priority (flags : Z) (i : list Z) : iresult ErrorKind (option PriorityPart) :=
  if has_flag flags FLAG_PRIORITY then
    '(i, dependency) ← stream_dependency i;
    '(i, weight) ← be_u8 i;
    Val (i, Some (Rfc7540 dependency weight))
  else Val (i, None).

Definition headers_frame (input : list Z) (header : FrameHeader) : iresult ErrorKind Frame :=
  '(remaining, i) ← take_octets (payload_len header) input;
  '(i, pad_length) ← strip_padding i (flags header) input;
  '(i, priority) ← headers_priority (flags header) i;
  header_block_fragment ← unpad i pad_length input;
  _ ← assert_consumed input remaining (payload_len header);
  _ ← debug_assert (Z.of_nat (length header_block_fragment) <=? payload_len header);
  Val (remaining, FrameHeaders (stream_id header) priority
                    (slice_at input remaining i header_block_fragment)
                    (has_flag (flags header) FLAG_END_STREAM)
                    (has_flag (flags header) FLAG_END_HEADERS)).

Definition priority_frame (input : list Z) (header : FrameHeader) : iresult ErrorKind Frame :=
  '(i, data) ← take_octets (payload_len header) input;
  _ ← assert_consumed input i (payload_len header);
  _ ← debug_assert (Z.of_nat (length data) =? PRIORITY_PAYLOAD_SIZE);
  '(data, dependency) ← stream_dependency data;
  '(_, weight) ← be_u8 data;
  Val (i, FramePriority (stream_id header) (Rfc7540 dependency weight)).

Definition rst_stream_frame (input : list Z) (header : FrameHeader) : iresult ErrorKind Frame :=
  '(i, data) ← take_octets (payload_len header) input;
  _ ← assert_consumed input i (payload_len header);
  _ ← debug_assert (Z.of_nat (length data) =? RST_STREAM_PAYLOAD_SIZE);
  '(_, error_code) ← be_u32 data;
  Val (i, FrameRstStream (stream_id header) error_code).

(** The embedded parser of [many0]: an identifier and its value. *)
Definition setting_entry (i : list Z) : iresult ErrorKind Setting :=
  '(i, identifier) ← be_u16 i;
  '(i, value) ← be_u32 i;
  Val (i, mkSetting identifier value).

Definition settings_frame (input : list Z) (header : FrameHeader) : iresult ErrorKind Frame :=
  if MAX_SETTINGS_ENTRIES <? payload_len header / SETTINGS_ENTRY_SIZE
  then h2_failure input FrameSizeError
  else
    '(i, data) ← take_octets (payload_len header) input;
    '(_, settings) ← nom_many0 _ setting_entry data;
    _ ← assert_consumed input i (payload_len header);
    _ ← debug_assert (Z.of_nat (length settings) =? payload_len header / SETTINGS_ENTRY_SIZE);
    _ ← debug_assert (Z.of_nat (length settings) <=? MAX_SETTINGS_ENTRIES);
    Val (i, FrameSettings settings (has_flag (flags header) FLAG_ACK)).

Definition push_promise_frame (input : list Z) (header : FrameHeader) : iresult ErrorKind Frame :=
  '(_, _) ← take_octets (payload_len header) input;
  h2_failure input ProtocolError.

(** [&data[..8]] panics on a shorter slice. *)
Definition ping_frame (input : list Z) (header : FrameHeader) : iresult ErrorKind Frame :=
  '(i, data) ← take_octets (payload_len header) input;
  _ ← assert_consumed input i (payload_len header);
  _ ← debug_assert (Z.of_nat (length data) =? PING_PAYLOAD_SIZE);
  _ ← debug_assert (8 <=? Z.of_nat (length data));
  Val (i, FramePing (take 8 data) (has_flag (flags header) FLAG_ACK)).

Definition goaway_frame (input : list Z) (header : FrameHeader) : iresult ErrorKind Frame :=
  '(remaining, i) ← take_octets (payload_len header) input;
  '(i, raw_last_stream_id) ← be_u32 i;
  let last_stream_id := Z.land raw_last_stream_id STREAM_ID_MASK in
  '(additional_debug_data, error_code) ← be_u32 i;
  _ ← assert_consumed input remaining (payload_len header);
  _ ← debug_assert (Z.of_nat (length additional_debug_data) =?
                    payload_len header - GOAWAY_PAYLOAD_SIZE);
  _ ← debug_assert (Z.land last_stream_id (Z.lnot STREAM_ID_MASK) =? 0);
  Val (remaining, FrameGoAway last_stream_id error_code 
                    (slice_at input remaining additional_debug_data additional_debug_data)).

Definition window_update_frame (input : list Z) (header : FrameHeader) : iresult ErrorKind Frame :=
  '(i, data) ← take_octets (payload_len header) input;
  _ ← assert_consumed input i (payload_len header);
  _ ← debug_assert (Z.of_nat (length data) =? WINDOW_UPDATE_PAYLOAD_SIZE);
  '(_, increment) ← be_u32 data;
  let increment := Z.land increment STREAM_ID_MASK in
  _ ← debug_assert (increment <=? STREAM_ID_MASK);
  Val (i, FrameWindowUpdate (stream_id header) increment).

Definition continuation_frame (input : list Z) (header : FrameHeader) : iresult ErrorKind Frame :=
  '(remaining, _) ← take_octets (payload_len header) input;
  _ ← assert_consumed input remaining (payload_len header);
  Val (remaining, FrameContinuation).

Definition unknown_frame (input : list Z) (header : FrameHeader) : iresult ErrorKind Frame :=
  '(remaining, _) ← take_octets (payload_len header) input;
  _ ← assert_consumed input remaining (payload_len header);
  let raw := match frame_type header with FrameType.Unknown t => t | _ => 0 end in
  Val (remaining, FrameUnknown raw).

(** [split_at] panics when the payload is shorter than the prefix. *)
Definition priority_update_frame (input : list Z) (header : FrameHeader)
    : iresult ErrorKind Frame :=
  if payload_len header <? PRIORITY_UPDATE_MIN_PAYLOAD then h2_failure input FrameSizeError
  else
    let value_len := payload_len header - PRIORITY_UPDATE_MIN_PAYLOAD in
    if PRIORITY_UPDATE_MAX_VALUE <? value_len then h2_failure input ProtocolError
    else
      '(remaining, payload) ← take_octets (payload_len header) input;
      _ ← debug_assert (PRIORITY_UPDATE_MIN_PAYLOAD <=? Z.of_nat (length payload));
      let raw_id_bytes := take (Z.to_nat PRIORITY_UPDATE_MIN_PAYLOAD) payload in
      let value_bytes := drop (Z.to_nat PRIORITY_UPDATE_MIN_PAYLOAD) payload in
      _ ← assert_consumed input remaining (payload_len header);
      _ ← debug_assert (Z.of_nat (length raw_id_bytes) =? PRIORITY_UPDATE_MIN_PAYLOAD);
      _ ← debug_assert (Z.of_nat (length value_bytes) <=? PRIORITY_UPDATE_MAX_VALUE);
      let prioritized_stream_id := Z.land (be_value raw_id_bytes) STREAM_ID_MASK in
      _ ← debug_assert (Z.land prioritized_stream_id (Z.lnot STREAM_ID_MASK) =? 0);
      Val (remaining, FramePriorityUpdate prioritized_stream_id value_bytes).

Definition frame_body (i : list Z) (header : FrameHeader) : iresult ErrorKind Frame :=
  let len := payload_len header in
  '(rest, f) ←
    match frame_type header with
    | FrameType.Data => data_frame i header
    | FrameType.Headers => headers_frame i header
    | FrameType.Priority =>
        _ ← ensure_frame_size i (len =? PRIORITY_PAYLOAD_SIZE);
        priority_frame i header
    | FrameType.RstStream =>
        _ ← ensure_frame_size i (len =? RST_STREAM_PAYLOAD_SIZE);
        rst_stream_frame i header
    | FrameType.PushPromise => push_promise_frame i header
    | FrameType.Continuation => continuation_frame i header
    | FrameType.Settings =>
        _ ← ensure_frame_size i (negb (has_flag (flags header) FLAG_ACK && negb (len =? 0)));
        _ ← ensure_frame_size i (len mod SETTINGS_ENTRY_SIZE =? 0);
        settings_frame i header
    | FrameType.Ping =>
        _ ← ensure_frame_size i (len =? PING_PAYLOAD_SIZE);
        ping_frame i header
    | FrameType.GoAway =>
        _ ← ensure_frame_size i (GOAWAY_PAYLOAD_SIZE <=? len);
        goaway_frame i header
    | FrameType.WindowUpdate =>
        _ ← ensure_frame_size i (len =? WINDOW_UPDATE_PAYLOAD_SIZE);
        window_update_frame i header
    | FrameType.PriorityUpdate => priority_update_frame i header
    | FrameType.Unknown _ => unknown_frame i header
    end;
  _ ← debug_assert (length rest <=? length i)%nat;
  _ ← debug_assert (Z.of_nat (length rest) <=? Z.max 0 (Z.of_nat (length i) - len));
  Val (rest, f).

End Parser.

(** ** What the parser guarantees *)

Section ParserSpec.

Context `{HN : Nom} `{!NomLaws} `{HK : Kawa}.

Definition header_ok (h : FrameHeader) : Prop :=
  uint_ok 24 (payload_len h) /\ u8_ok (flags h) /\ uint_ok 31 (stream_id h).

(** A number is read, or there are too few octets. *)
Definition reads_number (n : nat) (p : list Z -> iresult ErrorKind Z) : Prop :=
  forall i,
    ((n <= length i)%nat /\ p i = Val (drop n i, be_value (take n i))) \/
    ((length i < n)%nat /\ exists e, p i = Fails (NomError e)).

Lemma lift_reads n p : number_law n p -> reads_number n (fun i => lift i (p i)).
Proof.
  intros Hp i. destruct (Hp i) as [Hok Hko], (decide (n <= length i)%nat) as [Hn | Hn].
  - left. by rewrite Hok.
  - right. destruct Hko as [k ->]; [lia |]. split; [lia | by eexists].
Qed.

Lemma be_u8_reads : reads_number 1 be_u8.
Proof. apply lift_reads, law_be_u8. Qed.
Lemma be_u16_reads : reads_number 2 be_u16.
Proof. apply lift_reads, law_be_u16. Qed.
Lemma be_u24_reads : reads_number 3 be_u24.
Proof. apply lift_reads, law_be_u24. Qed.
Lemma be_u32_reads : reads_number 4 be_u32.
Proof. apply lift_reads, law_be_u32. Qed.

Lemma reads_number_app n p l i :
  reads_number n p -> length l = n -> p (l ++ i) = Val (i, be_value l).
Proof.
  intros Hp <-. destruct (Hp (l ++ i)) as [[_ ->] | [Hl _]].
  - by rewrite drop_app_length, take_app_length.
  - rewrite length_app in Hl. lia.
Qed.

Lemma take_octets_reads n i :
  0 <= n ->
  (n <= Z.of_nat (length i) /\
   take_octets n i = Val (drop (Z.to_nat n) i, take (Z.to_nat n) i)) \/
  (Z.of_nat (length i) < n /\ exists e, take_octets n i = Fails (NomError e)).
Proof.
  intros Hn. unfold take_octets. destruct (decide (n <= Z.of_nat (length i))) as [Hl | Hl].
  - left. by rewrite law_take_enough by lia.
  - right. destruct (law_take_short n i) as [k ->]; [lia |]. split; [lia | by eexists].
Qed.

Lemma take_octets_app n l i :
  n = Z.of_nat (length l) -> take_octets n (l ++ i) = Val (i, l).
Proof.
  intros ->. destruct (take_octets_reads (Z.of_nat (length l)) (l ++ i)) as [[_ ->] | [Hl _]].
  - lia.
  - by rewrite Nat2Z.id, drop_app_length, take_app_length.
  - rewrite length_app in Hl. lia.
Qed.

Lemma land_id_range z : 0 <= Z.land z STREAM_ID_MASK < 2 ^ 31.
Proof.
  unfold STREAM_ID_MASK. change 0x7FFFFFFF with (2 ^ 31 - 1). rewrite land_mask_mod by lia.
  apply Z.mod_pos_bound. lia.
Qed.

Lemma land_id_masked z : (Z.land (Z.land z STREAM_ID_MASK) (Z.lnot STREAM_ID_MASK) =? 0) = true.
Proof. by rewrite <- Z.land_assoc, Z.land_lnot_diag, Z.land_0_r. Qed.

Lemma assert_consumed_drop input n :
  0 <= n <= Z.of_nat (length input) ->
  assert_consumed input (drop (Z.to_nat n) input) n = Val tt.
Proof.
  intros Hn. unfold assert_consumed. rewrite length_drop.
  destruct (Z.leb_spec n (Z.of_nat (length input))) as [_ | ?]; [| lia].
  destruct (Z.eqb_spec (Z.of_nat (length input - Z.to_nat n)) (Z.of_nat (length input) - n));
    [done | lia].
Qed.

(** A parser that [safely] parses the body: it does not panic, and when it
    succeeds it has consumed the payload and nothing else, and the frame is of
    the type of its header. *)
Definition safely (input : list Z) (header : FrameHeader) (r : iresult ErrorKind Frame) : Prop :=
  match r with
  | Val (rest, f) =>
      payload_len header <= Z.of_nat (length input) /\
      rest = drop (Z.to_nat (payload_len header)) input /\
      frame_type_of f = frame_type header
  | Fails _ => True
  | Panic => False
  end.

Ltac read_with H :=
  destruct H as [[? ->] | [? [? ->]]]; cbn [mbind outcome_bind]; [| exact I].

(** One step of a parser: a read (whose failure is an error, not a panic), an
    assertion, or an early return. *)
Ltac parse_step :=
  lazymatch goal with
  | |- safely _ _ (mbind _ ?m) =>
      lazymatch m with
      | take_octets ?n ?i =>
          destruct (take_octets_reads n i) as [[? ->] | [? [? ->]]];
          [lia | cbn [mbind outcome_bind] | exact I]
      | be_u8 ?i => read_with (be_u8_reads i)
      | be_u32 ?i => read_with (be_u32_reads i)
      | assert_consumed _ (drop _ _) _ =>
          rewrite assert_consumed_drop by lia; cbn [mbind outcome_bind]
      | debug_assert (Z.land (Z.land _ _) _ =? 0) =>
          rewrite land_id_masked; cbn [debug_assert mbind outcome_bind]
      | debug_assert ?b =>
          let E := fresh in
          destruct b eqn:E; cbn [debug_assert mbind outcome_bind];
          [| exfalso; autorewrite with sozu_len in *; lia]
      end
  | |- safely _ _ (if ?b then h2_failure _ _ else _) => destruct b eqn:?; [exact I |]
  | |- safely _ _ (Val _) => cbn [safely]
  end.

Lemma strip_padding_cases i f input :
  bytes_ok i ->
  (exists e, strip_padding i f input = Fails e) \/
  (exists pad (n : nat),
     strip_padding i f input = Val (drop n i, pad) /\
     (n <= length i)%nat /\ 0 <= pad <= Z.of_nat (length i - n) /\ pad < 256 /\
     (if has_flag f FLAG_PADDED then n = 1%nat /\ head i = Some pad else n = 0%nat /\ pad = 0)).
Proof.
  intros Hi. unfold strip_padding, debug_assert, h2_failure.
  destruct (has_flag f FLAG_PADDED); [destruct (be_u8_reads i) as [[Hl ->] | [_ [e ->]]] |];
    cbn [mbind outcome_bind].
  - destruct i as [| b i]; [cbn in Hl; lia |]. inversion Hi as [| ? ? Hb _]; subst.
    cbn [length drop take]. rewrite drop_0, take_0. replace (be_value [b]) with b by (cbn; lia).
    replace (Z.of_nat (length i) =? Z.of_nat (S (length i)) - 1) with true by (symmetry; lia).
    cbn [mbind outcome_bind].
    destruct (Z.ltb_spec (Z.of_nat (length i)) b); [left; by eexists | right].
    rewrite (proj2 (Z.leb_le b _)) by lia. cbn [mbind outcome_bind].
    exists b, 1%nat. widths. cbn. repeat split; lia.
  - left. by eexists.
  - rewrite Z.sub_0_r, Z.eqb_refl. cbn [mbind outcome_bind].
    rewrite (proj2 (Z.ltb_ge (Z.of_nat (length i)) 0)) by lia.
    rewrite (proj2 (Z.leb_le 0 _)) by lia. cbn [mbind outcome_bind].
    right. exists 0, 0%nat. repeat split; lia.
Qed.

Lemma unpad_cases i pad input :
  0 <= pad ->
  unpad i pad input =
    if decide (pad <= Z.of_nat (length i)) then Val (take (length i - Z.to_nat pad) i)
    else h2_failure input ProtocolError.
Proof.
  intros Hp. unfold unpad. destruct (Z.ltb_spec (Z.of_nat (length i)) pad).
  - by rewrite decide_False by lia.
  - rewrite decide_True by lia.
    rewrite (proj2 (Z.leb_le _ _)), (proj2 (Z.eqb_eq _ _)) by lia. cbn.
    do 2 f_equal. lia.
Qed.

(** The entries of a payload of [k] settings. *)
Fixpoint settings_of (k : nat) (data : list Z) : list Setting :=
  match k with
  | O => []
  | S k =>
      mkSetting (be_value (take 2 data)) (be_value (take 4 (drop 2 data)))
      :: settings_of k (drop 6 data)
  end.

Lemma length_settings_of k data : length (settings_of k data) = k.
Proof. revert data. induction k; intros; cbn; [done | by rewrite IHk]. Qed.

Lemma many0_settings k data :
  length data = (6 * k)%nat -> nom_many0 _ setting_entry data = Val ([], settings_of k data).
Proof.
  revert data. induction k as [| k IH]; intros data Hl.
  - apply nil_length_inv in Hl. subst.
    destruct (be_u16_reads []) as [[Hl _] | [_ [e He]]]; [cbn in Hl; lia |].
    apply law_many0_stop with e. unfold setting_entry. by rewrite He.
  - apply law_many0_step with (drop 6 data).
    + unfold setting_entry.
      destruct (be_u16_reads data) as [[_ ->] | [? _]]; [| lia]. cbn [mbind outcome_bind].
      destruct (be_u32_reads (drop 2 data)) as [[_ ->] | [Hd _]];
        [| rewrite length_drop in Hd; lia].
      cbn [mbind outcome_bind]. by rewrite drop_drop.
    + rewrite length_drop. lia.
    + apply IH. rewrite length_drop. lia.
Qed.

Lemma data_frame_safe input header :
  bytes_ok input -> header_ok header -> frame_type header = FrameType.Data ->
  safely input header (data_frame input header).
Proof.
  intros Hi [Hlen _] Ht. widths. unfold data_frame. parse_step.
  destruct (strip_padding_cases (take (Z.to_nat (payload_len header)) input) (flags header) input)
    as [[e ->] | (pad & n & -> & Hn & Hpad & _)]; [auto with sozu | exact I |].
  cbn [mbind outcome_bind]. rewrite unpad_cases by lia. autorewrite with sozu_len in *.
  case_decide; cbn [mbind outcome_bind h2_failure]; [| exact I].
  by repeat parse_step.
Qed.

Lemma headers_priority_cases f j :
  (exists m priority, headers_priority f j = Val (drop m j, priority)) \/
  (exists e, headers_priority f j = Fails e).
Proof.
  unfold headers_priority, stream_dependency.
  destruct (has_flag _ _); [| left; by exists 0%nat, None].
  destruct (be_u32_reads j) as [[_ ->] | [_ [e ->]]]; [| right; by eexists].
  cbn [mbind outcome_bind].
  destruct (be_u8_reads (drop 4 j)) as [[_ ->] | [_ [e ->]]]; [| right; by eexists].
  left. eexists 5%nat, _. cbn [mbind outcome_bind]. by rewrite drop_drop.
Qed.

Lemma headers_frame_safe input header :
  bytes_ok input -> header_ok header -> frame_type header = FrameType.Headers ->
  safely input header (headers_frame input header).
Proof.
  intros Hi [Hlen _] Ht. widths. unfold headers_frame. parse_step.
  destruct (strip_padding_cases (take (Z.to_nat (payload_len header)) input) (flags header) input)
    as [[e ->] | (pad & n & -> & Hn & Hpad & _)]; [auto with sozu | exact I |].
  cbn [mbind outcome_bind].
  destruct (headers_priority_cases (flags header) (drop n (take (Z.to_nat (payload_len header)) input)))
    as [(m & priority & ->) | [e ->]]; [| exact I].
  cbn [mbind outcome_bind]. rewrite unpad_cases by lia.
  case_decide; cbn [mbind outcome_bind h2_failure]; [| exact I].
  by repeat parse_step.
Qed.

(** The frames of a fixed size, and those whose payload is only skipped. *)
Lemma fixed_frames_safe input header :
  bytes_ok input -> header_ok header ->
  (frame_type header = FrameType.Priority -> payload_len header = PRIORITY_PAYLOAD_SIZE ->
   safely input header (priority_frame input header)) /\
  (frame_type header = FrameType.RstStream -> payload_len header = RST_STREAM_PAYLOAD_SIZE ->
   safely input header (rst_stream_frame input header)) /\
  (frame_type header = FrameType.Ping -> payload_len header = PING_PAYLOAD_SIZE ->
   safely input header (ping_frame input header)) /\
  (frame_type header = FrameType.WindowUpdate ->
   payload_len header = WINDOW_UPDATE_PAYLOAD_SIZE ->
   safely input header (window_update_frame input header)) /\
  (frame_type header = FrameType.Continuation ->
   safely input header (continuation_frame input header)) /\
  safely input header (push_promise_frame input header) /\
  (forall t, frame_type header = FrameType.Unknown t ->
   safely input header (unknown_frame input header)).
Proof.
  intros Hi [Hlen _]. widths.
  unfold PRIORITY_PAYLOAD_SIZE, RST_STREAM_PAYLOAD_SIZE, PING_PAYLOAD_SIZE,
    WINDOW_UPDATE_PAYLOAD_SIZE.
  repeat split.
  - intros Ht Hs. unfold priority_frame, stream_dependency, PRIORITY_PAYLOAD_SIZE.
    repeat parse_step. read_with (be_u32_reads (take (Z.to_nat (payload_len header)) input)).
    by repeat parse_step.
  - intros Ht Hs. unfold rst_stream_frame, RST_STREAM_PAYLOAD_SIZE. by repeat parse_step.
  - intros Ht Hs. unfold ping_frame, PING_PAYLOAD_SIZE. by repeat parse_step.
  - intros Ht Hs. unfold window_update_frame, WINDOW_UPDATE_PAYLOAD_SIZE.
    do 4 parse_step. pose proof (land_id_range
      (be_value (take 4 (take (Z.to_nat (payload_len header)) input)))) as Hr.
    unfold STREAM_ID_MASK in *. by repeat parse_step.
  - intros Ht. unfold continuation_frame. by repeat parse_step.
  - unfold push_promise_frame. parse_step. exact I.
  - intros t Ht. unfold unknown_frame. repeat parse_step. by rewrite Ht.
Qed.

Lemma settings_frame_safe input header :
  header_ok header -> frame_type header = FrameType.Settings ->
  payload_len header mod SETTINGS_ENTRY_SIZE = 0 ->
  safely input header (settings_frame input header).
Proof.
  intros [Hlen _] Ht Hm. unfold settings_frame, SETTINGS_ENTRY_SIZE, MAX_SETTINGS_ENTRIES in *.
  widths. do 2 parse_step.
  rewrite (many0_settings (Z.to_nat (payload_len header / 6)))
    by (rewrite length_take; zify_div).
  cbn [mbind outcome_bind].
  pose proof (length_settings_of (Z.to_nat (payload_len header / 6))
    (take (Z.to_nat (payload_len header)) input)) as Hs.
  rewrite Hs. assert (0 <= payload_len header / 6) by zify_div. by repeat parse_step.
Qed.

Lemma goaway_frame_safe input header :
  header_ok header -> frame_type header = FrameType.GoAway ->
  GOAWAY_PAYLOAD_SIZE <= payload_len header ->
  safely input header (goaway_frame input header).
Proof.
  intros [Hlen _] Ht Hs. unfold goaway_frame, GOAWAY_PAYLOAD_SIZE in *. widths.
  do 6 parse_step. by repeat parse_step.
Qed.

Lemma priority_update_frame_safe input header :
  header_ok header -> frame_type header = FrameType.PriorityUpdate ->
  safely input header (priority_update_frame input header).
Proof.
  intros [Hlen _] Ht.
  unfold priority_update_frame, PRIORITY_UPDATE_MIN_PAYLOAD, PRIORITY_UPDATE_MAX_VALUE.
  widths. change (Z.to_nat 4) with 4%nat. by repeat parse_step.
Qed.

(** The assertions at the end of [frame_body]. *)
Lemma frame_body_asserts_safe input header r :
  0 <= payload_len header -> safely input header r ->
  safely input header
    ('(rest, f) ← r;
     _ ← debug_assert (length rest <=? length input)%nat;
     _ ← debug_assert (Z.of_nat (length rest) <=?
           Z.max 0 (Z.of_nat (length input) - payload_len header));
     Val (rest, f)).
Proof.
  destruct r as [[rest f] | e |]; cbn [mbind outcome_bind safely]; [| done..].
  intros ? (Hl & -> & Ht). do 2 parse_step. by parse_step.
Qed.

(** A size check passes, and then the parser is [safely] run. *)
Lemma ensure_frame_size_safe input header (b : bool) (r : iresult ErrorKind Frame) :
  (b = true -> safely input header r) ->
  safely input header (_ ← ensure_frame_size input b; r).
Proof. destruct b; intros Hr; [by apply Hr | exact I]. Qed.

(** C9. The body parser is safe on any input: whatever octets follow a frame
    header, [frame_body] does not panic (no assertion fails, no index is out of
    range), and when it accepts a frame it has consumed exactly the payload the
    header declares and the frame is of the type the header announces. *)
Theorem frame_body_safe input header :
  bytes_ok input -> header_ok header -> safely input header (frame_body input header).
Proof.
  intros Hi Hh. assert (0 <= payload_len header) by (destruct Hh; widths; lia).
  unfold frame_body. apply frame_body_asserts_safe; [done |].
  destruct (fixed_frames_safe input header Hi Hh) as (Hpr & Hrst & Hping & Hwu & Hc & Hpp & Hu).
  destruct (frame_type header) eqn:Ht; repeat (apply ensure_frame_size_safe; intros ?);
    repeat match goal with
    | H : (_ =? _) = true |- _ => apply Z.eqb_eq in H
    | H : (_ <=? _) = true |- _ => apply Z.leb_le in H
    end;
    eauto using data_frame_safe, headers_frame_safe, settings_frame_safe, goaway_frame_safe,
      priority_update_frame_safe.
Qed.

(** The header parser on any input. *)
Lemma frame_header_eq input max_frame_size :
  (if decide (length input < 9)%nat then
     exists e, frame_header input max_frame_size = Fails e
   else
     let len := be_value (take 3 input) in
     let t := convert_frame_type (be_value (take 1 (drop 3 input))) in
     let id := Z.land (be_value (take 4 (drop 5 input))) STREAM_ID_MASK in
     frame_header input max_frame_size =
       if max_frame_size <? len then h2_failure (drop 3 input) FrameSizeError
       else if valid_stream_id t id
       then Val (drop 9 input, mkFrameHeader len t (be_value (take 1 (drop 4 input))) id)
       else h2_failure (drop 9 input) ProtocolError).
Proof.
  unfold frame_header.
  destruct (be_u24_reads input) as [[Hl ->] | [Hl [e ->]]]; cbn [mbind outcome_bind];
    [| rewrite decide_True by lia; by eexists].
  destruct (max_frame_size <? _) eqn:Hmax; [case_decide; [by eexists | done] |].
  destruct (be_u8_reads (drop 3 input)) as [[Hl1 ->] | [Hl1 [e ->]]]; cbn [mbind outcome_bind];
    rewrite length_drop in Hl1; [| rewrite decide_True by lia; by eexists].
  rewrite !drop_drop. cbn [Nat.add].
  destruct (be_u8_reads (drop 4 input)) as [[Hl2 ->] | [Hl2 [e ->]]]; cbn [mbind outcome_bind];
    rewrite length_drop in Hl2; [| rewrite decide_True by lia; by eexists].
  rewrite !drop_drop. cbn [Nat.add].
  destruct (be_u32_reads (drop 5 input)) as [[Hl3 ->] | [Hl3 [e ->]]]; cbn [mbind outcome_bind];
    rewrite length_drop in Hl3; [| rewrite decide_True by lia; by eexists].
  rewrite decide_False by lia. rewrite !drop_drop. cbn [Nat.add]. cbn zeta.
  rewrite (proj2 (Nat.leb_le _ _)) by (rewrite length_drop; lia).
  pose proof (assert_consumed_drop input 9) as Ha. change (Z.to_nat 9) with 9%nat in Ha.
  cbn [debug_assert mbind outcome_bind]. change (Z.of_nat FRAME_HEADER_SIZE) with 9.
  rewrite Ha by lia. cbn [mbind outcome_bind].
  rewrite (proj2 (Z.leb_le _ _)) by lia. cbn [debug_assert mbind outcome_bind].
  rewrite land_id_masked. cbn [debug_assert mbind outcome_bind].
  by destruct (valid_stream_id _ _).
Qed.

(** The header parser, on any input: with fewer than nine octets it asks
    for more or rejects the size; with nine it accepts exactly the headers
    whose length is within [max_frame_size] and whose stream identifier suits
    their type, answers the right error otherwise, and never panics. *)
Theorem frame_header_spec input max_frame_size :
  (if decide (length input < 9)%nat then
     exists e, frame_header input max_frame_size = Fails e
   else
     let len := be_value (take 3 input) in
     let t := convert_frame_type (be_value (take 1 (drop 3 input))) in
     let id := Z.land (be_value (take 4 (drop 5 input))) STREAM_ID_MASK in
     frame_header input max_frame_size =
       if max_frame_size <? len then h2_failure (drop 3 input) FrameSizeError
       else if valid_stream_id t id
       then Val (drop 9 input, mkFrameHeader len t (be_value (take 1 (drop 4 input))) id)
       else h2_failure (drop 9 input) ProtocolError).
Proof. apply frame_header_eq. Qed.

(** The payload layout of a frame that may be padded (RFC 9113, 6.1): the
    length of the padding, the content, the padding. *)
Definition padded (padding : option (list Z)) (content : list Z) : list Z :=
  match padding with
  | Some p => Z.of_nat (length p) :: content ++ p
  | None => content
  end.

Definition padding_ok (padding : option (list Z)) (flags : Z) : Prop :=
  match padding with
  | Some p => has_flag flags FLAG_PADDED = true /\ (length p < 256)%nat
  | None => has_flag flags FLAG_PADDED = false
  end.

Definition padding_of (padding : option (list Z)) : list Z := default [] padding.

Lemma strip_padding_padded padding content f input :
  padding_ok padding f ->
  strip_padding (padded padding content) f input =
    Val (content ++ padding_of padding, Z.of_nat (length (padding_of padding))).
Proof.
  unfold strip_padding, padding_ok. destruct padding as [p |]; cbn [padded padding_of].
  - intros [-> Hp]. pose proof (reads_number_app 1 be_u8 [Z.of_nat (length p)] (content ++ p)
      be_u8_reads eq_refl) as Hr. cbn [app] in Hr. rewrite Hr. cbn [mbind outcome_bind].
    replace (be_value [_]) with (Z.of_nat (length p)) by (cbn; lia).
    cbn [length default from_option id]. rewrite length_app.
    rewrite (proj2 (Z.eqb_eq _ _)) by lia. cbn [debug_assert mbind outcome_bind].
    rewrite (proj2 (Z.ltb_ge _ _)), (proj2 (Z.leb_le _ _)) by lia. done.
  - intros ->. cbn [mbind outcome_bind default from_option length]. rewrite app_nil_r.
    rewrite (proj2 (Z.eqb_eq _ _)) by lia. cbn [debug_assert mbind outcome_bind].
    rewrite (proj2 (Z.ltb_ge _ _)), (proj2 (Z.leb_le _ _)) by lia. done.
Qed.

Lemma unpad_content content p input :
  unpad (content ++ p) (Z.of_nat (length p)) input = Val content.
Proof.
  rewrite unpad_cases, decide_True by (rewrite ?length_app; lia).
  rewrite length_app, Nat2Z.id, Nat.add_sub. by rewrite take_app_length.
Qed.

Lemma length_padded padding content :
  length (padded padding content) =
    ((if padding is Some _ then 1 else 0) + length content + length (padding_of padding))%nat.
Proof. destruct padding; cbn; rewrite ?length_app; lia. Qed.

Lemma assert_consumed_app l rest n :
  n = Z.of_nat (length l) -> assert_consumed (l ++ rest) rest n = Val tt.
Proof.
  intros ->. unfold assert_consumed. rewrite length_app.
  rewrite (proj2 (Z.leb_le _ _)), (proj2 (Z.eqb_eq _ _)) by lia. done.
Qed.

(** The slice of a content that [pre] and [post] surround in the buffer. *)
Lemma slice_at_data `{!KawaLaws} pre content post rest :
  slice_data (pre ++ content ++ post ++ rest)
    (slice_at (pre ++ content ++ post ++ rest) rest (content ++ post) content) = content.
Proof.
  unfold slice_at. rewrite law_slice_data by (autorewrite with sozu_len; lia).
  autorewrite with sozu_len.
  replace (_ - _ - _)%nat with (length pre) by lia.
  by rewrite drop_app_length, take_app_length.
Qed.

(** The end of [frame_body] after a parser that left [rest]. *)
Lemma frame_body_finish payload rest header f (r : iresult ErrorKind Frame) :
  payload_len header = Z.of_nat (length payload) -> r = Val (rest, f) ->
  ('(rest', f') ← r;
   _ ← debug_assert (length rest' <=? length (payload ++ rest))%nat;
   _ ← debug_assert (Z.of_nat (length rest') <=?
         Z.max 0 (Z.of_nat (length (payload ++ rest)) - payload_len header));
   Val (rest', f')) = Val (rest, f).
Proof.
  intros Hlen ->. cbn [mbind outcome_bind]. rewrite length_app.
  rewrite !debug_assert_true by lia. done.
Qed.

(** A DATA frame in the layout of RFC 9113, padded or not, is accepted
    whatever follows it, and its payload slice denotes exactly the content:
    neither the pad-length octet nor the padding leaks into it. *)
Theorem data_frame_wire `{!KawaLaws} padding content rest header :
  frame_type header = FrameType.Data -> padding_ok padding (flags header) ->
  payload_len header = Z.of_nat (length (padded padding content)) ->
  exists s,
    frame_body (padded padding content ++ rest) header =
      Val (rest, FrameData (stream_id header) s (has_flag (flags header) FLAG_END_STREAM)) /\
    slice_data (padded padding content ++ rest) s = content.
Proof.
  intros Ht Hp Hlen.
  exists (slice_at (padded padding content ++ rest) rest (content ++ padding_of padding) content).
  split.
  - unfold frame_body. rewrite Ht. apply frame_body_finish; [done |]. unfold data_frame.
    rewrite take_octets_app by done. cbn [mbind outcome_bind].
    rewrite strip_padding_padded by done. cbn [mbind outcome_bind].
    rewrite unpad_content. cbn [mbind outcome_bind].
    rewrite assert_consumed_app by done. cbn [mbind outcome_bind].
    rewrite length_padded in Hlen. rewrite !debug_assert_true by lia. done.
  - destruct padding as [p |]; cbn [padded padding_of default from_option].
    + pose proof (slice_at_data [Z.of_nat (length p)] content p rest) as Hs.
      cbn [app] in *. by rewrite <- app_assoc.
    + pose proof (slice_at_data [] content [] rest) as Hs. by rewrite app_nil_r in Hs |- *.
Qed.

(** A frame whose declared padding does not fit the payload is refused
    with PROTOCOL_ERROR, for DATA and HEADERS alike. *)
Theorem padding_overflow_refused pad body rest header :
  frame_type header = FrameType.Data \/ frame_type header = FrameType.Headers ->
  has_flag (flags header) FLAG_PADDED = true ->
  payload_len header = Z.of_nat (length (pad :: body)) -> Z.of_nat (length body) < pad ->
  frame_body ((pad :: body) ++ rest) header = h2_failure ((pad :: body) ++ rest) ProtocolError.
Proof.
  intros Ht Hf Hlen Hpad.
  assert (forall input, strip_padding (pad :: body) (flags header) input =
            h2_failure input ProtocolError) as Hs.
  { intros input. unfold strip_padding. rewrite Hf.
    pose proof (reads_number_app 1 be_u8 [pad] body be_u8_reads eq_refl) as Hr.
    cbn [app] in Hr. rewrite Hr. cbn [mbind outcome_bind length].
    rewrite (debug_assert_true (_ =? _)) by lia. cbn [mbind outcome_bind].
    replace (be_value [pad]) with pad by (cbn; lia).
    by rewrite (proj2 (Z.ltb_lt _ _)) by lia. }
  unfold frame_body. destruct Ht as [-> | ->]; unfold data_frame, headers_frame;
    rewrite take_octets_app by done; cbn [mbind outcome_bind]; by rewrite Hs.
Qed.

(** The priority fields of HEADERS and PRIORITY (RFC 9113, 6.2 and 6.3). *)
Definition priority_octets (d : StreamDependency) (weight : Z) : list Z :=
  be_bytes 4 (Z.b2z (exclusive d) * 2 ^ 31 + dependency_id d) ++ [weight].

Definition dependency_ok (d : StreamDependency) : Prop := uint_ok 31 (dependency_id d).

Lemma stream_dependency_octets d rest :
  dependency_ok d ->
  stream_dependency (be_bytes 4 (Z.b2z (exclusive d) * 2 ^ 31 + dependency_id d) ++ rest) =
    Val (rest, d).
Proof.
  intros Hd. unfold dependency_ok, uint_ok in Hd. unfold stream_dependency.
  rewrite (reads_number_app 4 be_u32 _ rest be_u32_reads) by apply length_be_bytes.
  cbn [mbind outcome_bind]. destruct d as [x id]. cbn [exclusive dependency_id] in *.
  assert (0 <= Z.b2z x * 2 ^ 31 + id < 2 ^ 32) as Hr by (destruct x; cbn [Z.b2z]; lia).
  rewrite be_value_be_bytes_small by exact Hr.
  do 3 f_equal.
  - unfold has_flag. rewrite <- lor_shiftl_add by lia.
    change 0x80000000 with (Z.shiftl 1 31). rewrite Z.land_lor_distr_l, <- Z.shiftl_land.
    rewrite (Z.land_comm id), land_shiftl_low by lia. by destruct x.
  - unfold STREAM_ID_MASK. change 0x7FFFFFFF with (2 ^ 31 - 1). rewrite land_mask_mod by lia.
    rewrite Z.add_comm, Z.mod_add by lia. apply Z.mod_small. lia.
Qed.

(** The layout of a HEADERS payload without its padding. *)
Definition headers_octets (priority : option (StreamDependency * Z)) (fragment : list Z) : list Z :=
  match priority with
  | Some (d, weight) => priority_octets d weight ++ fragment
  | None => fragment
  end.

Definition priority_ok (priority : option (StreamDependency * Z)) (flags : Z) : Prop :=
  match priority with
  | Some (d, weight) => has_flag flags FLAG_PRIORITY = true /\ dependency_ok d
  | None => has_flag flags FLAG_PRIORITY = false
  end.

Lemma headers_priority_octets priority f fragment :
  priority_ok priority f ->
  headers_priority f (headers_octets priority fragment) =
    Val (fragment, (fun '(d, weight) => Rfc7540 d weight) <$> priority).
Proof.
  unfold headers_priority. destruct priority as [[d weight] |]; cbn [priority_ok headers_octets].
  - intros [-> Hd]. unfold priority_octets. rewrite <- app_assoc.
    rewrite stream_dependency_octets by done. cbn [mbind outcome_bind].
    rewrite (reads_number_app 1 be_u8 [weight] fragment be_u8_reads eq_refl).
    cbn. by rewrite ?Z.add_0_r.
  - by intros ->.
Qed.

Lemma headers_octets_app priority fragment p :
  headers_octets priority fragment ++ p = headers_octets priority (fragment ++ p).
Proof.
  destruct priority as [[d weight] |]; cbn [headers_octets]; [by rewrite <- app_assoc | done].
Qed.

Definition priority_prefix (priority : option (StreamDependency * Z)) : list Z :=
  headers_octets priority [].

Lemma headers_octets_prefix priority fragment :
  headers_octets priority fragment = priority_prefix priority ++ fragment.
Proof.
  unfold priority_prefix.
  destruct priority as [[d weight] |]; cbn [headers_octets]; [by rewrite app_nil_r | done].
Qed.

(** A HEADERS frame in the layout of RFC 9113, with or without padding and
    priority fields, is accepted whatever follows it; the dependency and weight
    are those sent and the fragment slice denotes exactly the header block. *)
Theorem headers_frame_wire `{!KawaLaws} padding priority fragment rest header :
  frame_type header = FrameType.Headers ->
  padding_ok padding (flags header) -> priority_ok priority (flags header) ->
  let payload := padded padding (headers_octets priority fragment) in
  payload_len header = Z.of_nat (length payload) ->
  exists s,
    frame_body (payload ++ rest) header =
      Val (rest, FrameHeaders (stream_id header)
             ((fun '(d, weight) => Rfc7540 d weight) <$> priority) s
             (has_flag (flags header) FLAG_END_STREAM)
             (has_flag (flags header) FLAG_END_HEADERS)) /\
    slice_data (payload ++ rest) s = fragment.
Proof.
  intros Ht Hp Hpr payload Hlen.
  exists (slice_at (payload ++ rest) rest (fragment ++ padding_of padding) fragment).
  split.
  - unfold frame_body. rewrite Ht. apply frame_body_finish; [done |]. unfold headers_frame.
    rewrite take_octets_app by done. cbn [mbind outcome_bind]. unfold payload in *.
    rewrite strip_padding_padded by done. cbn [mbind outcome_bind].
    rewrite headers_octets_app, headers_priority_octets by done. cbn [mbind outcome_bind].
    rewrite unpad_content. cbn [mbind outcome_bind].
    rewrite assert_consumed_app by done. cbn [mbind outcome_bind].
    rewrite length_padded, headers_octets_prefix, length_app in Hlen.
    rewrite !debug_assert_true by lia. done.
  - unfold payload. destruct padding as [p |]; cbn [padded padding_of default from_option];
      rewrite headers_octets_prefix.
    + pose proof (slice_at_data (Z.of_nat (length p) :: priority_prefix priority) fragment p rest)
        as Hs. cbn [app] in *. by rewrite <- !app_assoc.
    + pose proof (slice_at_data (priority_prefix priority) fragment [] rest) as Hs.
      rewrite app_nil_r in Hs |- *. by rewrite <- app_assoc.
Qed.

End ParserSpec.

(** ** A concrete nom and kawa

    The laws are satisfiable: an implementation whose errors carry no kind. *)

Definition number_of (n : nat) (i : list Z) : res unit (list Z * Z) :=
  if decide (n <= length i)%nat then Ok (drop n i, be_value (take n i)) else Err tt.

Definition take_of (n : Z) (i : list Z) : res unit (list Z * list Z) :=
  if decide (n <= Z.of_nat (length i)) then Ok (drop (Z.to_nat n) i, take (Z.to_nat n) i)
  else Err tt.

Definition tag_of (t i : list Z) : res unit (list Z * list Z) :=
  if decide (t `prefix_of` i) then Ok (drop (length t) i, t) else Err tt.

Fixpoint many0_of (fuel : nat) A (p : list Z -> iresult unit A) (i : list Z)
    : iresult unit (list A) :=
  match fuel with
  | O => Panic
  | S fuel =>
      match p i with
      | Val (i', x) =>
          if decide (length i' < length i)%nat then
            '(rest, xs) ← many0_of fuel A p i'; Val (rest, x :: xs)
          else Fails (NomError (mkParserError i (KindNom tt)))
      | Fails (NomError _) => Val (i, [])
      | Fails e => Fails e
      | Panic => Panic
      end
  end.

Lemma many0_of_enough A (p : list Z -> iresult unit A) n m i :
  (length i < n)%nat -> (length i < m)%nat -> many0_of n A p i = many0_of m A p i.
Proof.
  revert m i. induction n as [| n IH]; intros [| m] i Hn Hm; [lia.. |]. cbn [many0_of].
  destruct (p i) as [[i' x] | e |]; [| done..].
  case_decide; [| done]. by rewrite (IH m i') by lia.
Qed.

Global Instance simple_nom : Nom := {
  ErrorKind := unit;
  nom_be_u8 := number_of 1;
  nom_be_u16 := number_of 2;
  nom_be_u24 := number_of 3;
  nom_be_u32 := number_of 4;
  nom_take := take_of;
  nom_tag := tag_of;
  nom_many0 A p i := many0_of (S (length i)) A p i;
}.

Lemma number_of_law n : number_law n (number_of n).
Proof.
  intros i. unfold number_of. split; intros.
  - by rewrite decide_True.
  - rewrite decide_False by lia. by eexists.
Qed.

Global Instance simple_nom_laws : NomLaws.
Proof.
  split; try apply number_of_law.
  - intros n i Hn. cbn. unfold take_of. by rewrite decide_True by lia.
  - intros n i Hn. cbn. unfold take_of. rewrite decide_False by lia. by eexists.
  - intros t i. cbn. unfold tag_of. rewrite decide_True by by apply prefix_app_r.
    by rewrite drop_app_length.
  - intros t i Ht. cbn. unfold tag_of. rewrite decide_False by done. by eexists.
  - intros A p i e Hp. cbn. by rewrite Hp.
  - intros A p i i' x rest xs Hp Hl Hm. cbn [nom_many0 simple_nom many0_of] in *.
    rewrite Hp, decide_True by done.
    change (many0_of (S (length i')) A p i' = Val (rest, xs)) in Hm.
    by rewrite (many0_of_enough A p (length i) (S (length i')) i'), Hm by lia.
Qed.

Global Instance simple_kawa : Kawa := {
  Slice := nat * nat;
  slice_new _ start len := (start, len);
  slice_data buffer s := take s.2 (drop s.1 buffer);
}.

Global Instance simple_kawa_laws : KawaLaws.
Proof. by split. Qed.

(** ** Witnesses *)

Definition ping_header : FrameHeader := mkFrameHeader 8 FrameType.Ping 0 0.

Lemma frame_body_safe_witness :
  safely [1; 2; 3; 4; 5; 6; 7; 8; 9] ping_header
    (frame_body [1; 2; 3; 4; 5; 6; 7; 8; 9] ping_header).
Proof.
  apply (frame_body_safe (HN := simple_nom) (HK := simple_kawa)).
  - apply (bool_decide_unpack _). by vm_compute.
  - repeat split; vm_compute; congruence.
Defined.

Lemma frame_header_spec_witness :
  frame_header [0; 0; 8; 6; 0; 0; 0; 0; 0; 7] 16384 = Val ([7], ping_header) /\
  frame_header [0; 0; 8; 6; 0; 0; 0; 0; 1; 7] 16384 = h2_failure [7] ProtocolError.
Proof.
  split.
  - exact (frame_header_spec (HN := simple_nom) [0; 0; 8; 6; 0; 0; 0; 0; 0; 7] 16384).
  - exact (frame_header_spec (HN := simple_nom) [0; 0; 8; 6; 0; 0; 0; 0; 1; 7] 16384).
Defined.

Lemma data_frame_wire_witness :
  exists s,
    frame_body ([2; 104; 105; 0; 0] ++ [42]) (mkFrameHeader 5 FrameType.Data 0x9 1) =
      Val ([42], FrameData 1 s true) /\
    slice_data ([2; 104; 105; 0; 0] ++ [42]) s = [104; 105].
Proof.
  apply (data_frame_wire (HN := simple_nom) (HK := simple_kawa) (Some [0; 0]) [104; 105] [42]
           (mkFrameHeader 5 FrameType.Data 0x9 1)); cbn; repeat split; lia.
Defined.

Lemma padding_overflow_refused_witness :
  frame_body ([3; 104; 105] ++ [42]) (mkFrameHeader 3 FrameType.Data 0x8 1) =
    h2_failure ([3; 104; 105] ++ [42]) ProtocolError.
Proof.
  apply (padding_overflow_refused (HN := simple_nom) (HK := simple_kawa)); cbn; auto; lia.
Defined.

Lemma headers_frame_wire_witness :
  exists s,
    frame_body ([1; 128; 0; 0; 3; 16; 130; 0] ++ [42])
        (mkFrameHeader 8 FrameType.Headers 0x2d 5) =
      Val ([42], FrameHeaders 5 (Some (Rfc7540 (mkStreamDependency true 3) 16)) s true true) /\
    slice_data ([1; 128; 0; 0; 3; 16; 130; 0] ++ [42]) s = [130].
Proof.
  apply (headers_frame_wire (HN := simple_nom) (HK := simple_kawa) (Some [0])
           (Some (mkStreamDependency true 3, 16)) [130] [42]
           (mkFrameHeader 8 FrameType.Headers 0x2d 5)); repeat split; cbn; lia.
Defined.

(** ** Error codes and frame types *)

(** The error codes of the wire and the names of the logs both identify
    the error: [try_from] inverts the code and accepts no other number, and
    [from_str] inverts [as_str]. *)
Theorem H2Error_codes e code s :
  (H2Error_try_from code = Ok e <-> H2Error_code e = code) /\
  (H2Error_from_str s = Ok e <-> H2Error_as_str e = s).
Proof.
  split.
  - split; [| by intros <-; destruct e].
    unfold H2Error_try_from. intros H. repeat case_match; simplify_eq; reflexivity.
  - split; [| intros <-; by destruct e].
    unfold H2Error_from_str. destruct (find _ _) as [[s' e'] |] eqn:Hf; [| done].
    intros [= ->]. apply find_some in Hf as [Hin Heq]. apply String.eqb_eq in Heq. cbn in Heq.
    subst s'. cbn in Hin. by repeat destruct Hin as [[= <- <-] | Hin].
Qed.
