(* ===== verification/H2Serializer.v ===== *)
(** * HTTP/2 frame serializer

    [lib/src/protocol/mux/serializer.rs]: the frame header and the control
    frames the proxy emits. The code is written with cookie_factory, which is
    not part of the repository and so an interface here ([CookieFactory]) with
    its documented behaviour ([CookieFactoryLaws]): a serializer that fits
    writes its octets at the front of the buffer and answers the rest of the
    buffer with the number of octets written. The theorems close the loop with
    [H2Parser]: what is emitted parses back. *)

From Stdlib Require Import ZifyBool.
From S2P Require Import Prelude H2Parser.

(** The serializers the code builds: big-endian numbers and verbatim octets;
    [tuple] is their sequence. *)
Inductive piece : Type :=
| be_u8_of (z : Z)
| be_u16_of (z : Z)
| be_u24_of (z : Z)
| be_u32_of (z : Z)
| slice_of (l : list Z).

Definition piece_octets (p : piece) : list Z :=
  match p with
  | be_u8_of z => be_bytes 1 z
  | be_u16_of z => be_bytes 2 z
  | be_u24_of z => be_bytes 3 z
  | be_u32_of z => be_bytes 4 z
  | slice_of l => l
  end.

Definition octets (ps : list piece) : list Z := ps ≫= piece_octets.

(** [gen(serializer, buf)]: the octets written at the front of [buf], the rest
    of [buf] and the count. *)
Class CookieFactory := {
  GenError : Type;
  cf_gen : list piece -> list Z -> res GenError (list Z * list Z * Z);
}.

Class CookieFactoryLaws `{CookieFactory} : Prop := {
  law_gen_fits ps buf :
    (length (octets ps) <= length buf)%nat ->
    cf_gen ps buf =
      Ok (octets ps, drop (length (octets ps)) buf, Z.of_nat (length (octets ps)));
  law_gen_short ps buf :
    (length buf < length (octets ps))%nat -> exists e, cf_gen ps buf = Err e;
}.

(** [h2.rs], [H2Settings]. *)
Record H2Settings := mkH2Settings {
  settings_header_table_size : Z;
  settings_enable_push : bool;
  settings_max_concurrent_streams : Z;
  settings_initial_window_size : Z;
  settings_max_frame_size : Z;
  settings_max_header_list_size : Z;
  settings_enable_connect_protocol : bool;
  settings_no_rfc7540_priorities : bool;
}.

Definition H2_PRI : list Z := CLIENT_PREFACE_MAGIC.
Definition SETTINGS_ACKNOWLEDGEMENT : list Z := [0; 0; 0; 4; 1; 0; 0; 0; 0].
Definition PING_ACKNOWLEDGEMENT_HEADER : list Z := [0; 0; 8; 6; 1; 0; 0; 0; 0].

Definition serialize_frame_type (f : FrameType.t) : Z :=
  match f with
  | FrameType.Data => 0
  | FrameType.Headers => 1
  | FrameType.Priority => 2
  | FrameType.RstStream => 3
  | FrameType.Settings => 4
  | FrameType.PushPromise => 5
  | FrameType.Ping => 6
  | FrameType.GoAway => 7
  | FrameType.WindowUpdate => 8
  | FrameType.Continuation => 9
  | FrameType.PriorityUpdate => 0x10
  | FrameType.Unknown t => t
  end.

Section Serializer.

Context `{CookieFactory}.

(** What was written, the rest of the buffer, and the count. *)
Abbreviation generated := (outcome GenError (list Z * list Z * Z)).

Definition run (ps : list piece) (buf : list Z) : generated :=
  match cf_gen ps buf with Ok x => Val x | Err e => Fails e end.

Definition gen_frame_header (buf : list Z) (frame : FrameHeader) : generated :=
  '(out, buf, size) ← run
    [be_u24_of (payload_len frame); be_u8_of (serialize_frame_type (frame_type frame));
     be_u8_of (flags frame); be_u32_of (Z.land (stream_id frame) STREAM_ID_MASK)] buf;
  _ ← debug_assert (size =? Z.of_nat FRAME_HEADER_SIZE);
  Val (out, buf, size).

Definition gen_ping_acknowledgement (buf payload : list Z) : generated :=
  '(out, buf, size) ← run [slice_of PING_ACKNOWLEDGEMENT_HEADER; slice_of payload] buf;
  _ ← debug_assert (size =?
        Z.of_nat (length PING_ACKNOWLEDGEMENT_HEADER) + Z.of_nat (length payload));
  Val (out, buf, size).

Definition gen_settings (buf : list Z) (settings : H2Settings) : generated :=
  let payload_len := SETTINGS_ENTRY_SIZE * SETTINGS_COUNT in
  '(header, buf, old_size) ← gen_frame_header buf (mkFrameHeader payload_len FrameType.Settings 0 0);
  '(out, buf, size) ← run
    [be_u16_of SETTINGS_HEADER_TABLE_SIZE;
     be_u32_of (settings_header_table_size settings);
     be_u16_of SETTINGS_ENABLE_PUSH;
     be_u32_of (Z.b2z (settings_enable_push settings));
     be_u16_of SETTINGS_MAX_CONCURRENT_STREAMS;
     be_u32_of (settings_max_concurrent_streams settings);
     be_u16_of SETTINGS_INITIAL_WINDOW_SIZE;
     be_u32_of (settings_initial_window_size settings);
     be_u16_of SETTINGS_MAX_FRAME_SIZE;
     be_u32_of (settings_max_frame_size settings);
     be_u16_of SETTINGS_MAX_HEADER_LIST_SIZE;
     be_u32_of (settings_max_header_list_size settings);
     be_u16_of SETTINGS_ENABLE_CONNECT_PROTOCOL;
     be_u32_of (Z.b2z (settings_enable_connect_protocol settings));
     be_u16_of SETTINGS_NO_RFC7540_PRIORITIES;
     be_u32_of (Z.b2z (settings_no_rfc7540_priorities settings))] buf;
  _ ← debug_assert (old_size =? Z.of_nat FRAME_HEADER_SIZE);
  _ ← debug_assert (size =? payload_len);
  Val (header ++ out, buf, old_size + size).

(** The closure [payload] runs a serializer. *)
Definition gen_control_frame (buf : list Z) (header : FrameHeader) (payload : list piece)
    : generated :=
  let declared_payload_len := payload_len header in
  '(head, buf, old_size) ← gen_frame_header buf header;
  _ ← debug_assert (old_size =? Z.of_nat FRAME_HEADER_SIZE);
  '(out, buf, size) ← run payload buf;
  _ ← debug_assert (size =? declared_payload_len);
  Val (head ++ out, buf, old_size + size).

Definition gen_rst_stream (buf : list Z) (stream_id : Z) (error_code : H2Error) : generated :=
  gen_control_frame buf (mkFrameHeader RST_STREAM_PAYLOAD_SIZE FrameType.RstStream 0 stream_id)
    [be_u32_of (H2Error_code error_code)].

Definition gen_window_update (buf : list Z) (stream_id increment : Z) : generated :=
  gen_control_frame buf
    (mkFrameHeader WINDOW_UPDATE_PAYLOAD_SIZE FrameType.WindowUpdate 0 stream_id)
    [be_u32_of (Z.land increment STREAM_ID_MASK)].

Definition gen_goaway (buf : list Z) (last_stream_id : Z) (error_code : H2Error) : generated :=
  gen_control_frame buf (mkFrameHeader GOAWAY_PAYLOAD_SIZE FrameType.GoAway 0 0)
    [be_u32_of (Z.land last_stream_id STREAM_ID_MASK); be_u32_of (H2Error_code error_code)].

End Serializer.

(** ** Round trips *)

Section RoundTrips.

Context `{HC : CookieFactory} `{!CookieFactoryLaws} `{HN : Nom} `{!NomLaws} `{HK : Kawa}.

(** A frame type a header can carry: one whose octet reads back. *)
Definition type_ok (t : FrameType.t) : Prop :=
  match t with
  | FrameType.Unknown raw => u8_ok raw /\ convert_frame_type raw = FrameType.Unknown raw
  | _ => True
  end.

Lemma convert_serialize t :
  type_ok t -> u8_ok (serialize_frame_type t) /\ convert_frame_type (serialize_frame_type t) = t.
Proof. destruct t; cbn [type_ok serialize_frame_type]; [by split.. | done]. Qed.

Definition header_octets (h : FrameHeader) : list Z :=
  be_bytes 3 (payload_len h) ++ be_bytes 1 (serialize_frame_type (frame_type h)) ++
  be_bytes 1 (flags h) ++ be_bytes 4 (Z.land (stream_id h) STREAM_ID_MASK).

Lemma length_header_octets h : length (header_octets h) = 9%nat.
Proof. unfold header_octets. by autorewrite with sozu_len. Qed.

Lemma run_fits ps buf :
  (length (octets ps) <= length buf)%nat ->
  run ps buf = Val (octets ps, drop (length (octets ps)) buf, Z.of_nat (length (octets ps))).
Proof. intros. unfold run. by rewrite law_gen_fits. Qed.

Lemma gen_frame_header_fits buf h :
  (9 <= length buf)%nat -> gen_frame_header buf h = Val (header_octets h, drop 9 buf, 9).
Proof.
  intros Hl. unfold gen_frame_header. set (ps := [_; _; _; _]).
  assert (octets ps = header_octets h) as E.
  { unfold ps, octets, header_octets. rewrite !bind_cons. cbn [mbind list_bind piece_octets].
    by rewrite app_nil_r. }
  rewrite run_fits; rewrite E, length_header_octets; done.
Qed.

Lemma gen_control_frame_fits buf h ps :
  payload_len h = Z.of_nat (length (octets ps)) ->
  (9 + length (octets ps) <= length buf)%nat ->
  gen_control_frame buf h ps =
    Val (header_octets h ++ octets ps, drop (9 + length (octets ps)) buf, 9 + payload_len h).
Proof.
  intros Hp Hl. unfold gen_control_frame. rewrite gen_frame_header_fits by lia.
  cbn [mbind outcome_bind]. rewrite debug_assert_true by done. cbn [mbind outcome_bind].
  rewrite run_fits by (rewrite length_drop; lia). cbn [mbind outcome_bind].
  rewrite debug_assert_true by lia. cbn [mbind outcome_bind].
  by rewrite drop_drop, <- Hp.
Qed.

Lemma run_short ps buf : (length buf < length (octets ps))%nat -> exists e, run ps buf = Fails e.
Proof.
  intros Hl. destruct (law_gen_short ps buf Hl) as [e He]. exists e. unfold run. by rewrite He.
Qed.

(** A frame that does not fit is an error, not a panic. *)
Lemma gen_control_frame_short buf h ps :
  (length buf < 9 + length (octets ps))%nat -> exists e, gen_control_frame buf h ps = Fails e.
Proof.
  intros Hl. unfold gen_control_frame. destruct (decide (9 <= length buf)%nat) as [H9 | H9].
  - rewrite gen_frame_header_fits by done. cbn [mbind outcome_bind debug_assert].
    rewrite debug_assert_true by done. cbn [mbind outcome_bind].
    destruct (run_short ps (drop 9 buf)) as [e ->]; [rewrite length_drop; lia | by eexists].
  - unfold gen_frame_header. set (hd := [_; _; _; _]).
    destruct (run_short hd buf) as [e ->]; [cbn; lia | by eexists].
Qed.

Definition window_update_octets (stream_id increment : Z) : list Z :=
  header_octets (mkFrameHeader WINDOW_UPDATE_PAYLOAD_SIZE FrameType.WindowUpdate 0 stream_id)
    ++ be_bytes 4 (Z.land increment STREAM_ID_MASK).

Definition rst_stream_octets (stream_id : Z) (code : H2Error) : list Z :=
  header_octets (mkFrameHeader RST_STREAM_PAYLOAD_SIZE FrameType.RstStream 0 stream_id)
    ++ be_bytes 4 (H2Error_code code).

Lemma gen_window_update_cases buf id increment :
  ((13 <= length buf)%nat /\
   gen_window_update buf id increment = Val (window_update_octets id increment, drop 13 buf, 13)) \/
  ((length buf < 13)%nat /\ exists e, gen_window_update buf id increment = Fails e).
Proof.
  destruct (decide (13 <= length buf)%nat) as [Hl | Hl]; [left | right].
  - split; [done |]. by apply gen_control_frame_fits.
  - split; [lia |]. apply gen_control_frame_short. cbn. lia.
Qed.

Lemma gen_rst_stream_cases buf id code :
  ((13 <= length buf)%nat /\
   gen_rst_stream buf id code = Val (rst_stream_octets id code, drop 13 buf, 13)) \/
  ((length buf < 13)%nat /\ exists e, gen_rst_stream buf id code = Fails e).
Proof.
  destruct (decide (13 <= length buf)%nat) as [Hl | Hl]; [left | right].
  - split; [done |]. by apply gen_control_frame_fits.
  - split; [lia |]. apply gen_control_frame_short. cbn. lia.
Qed.

(** How many of [n] frames of 13 octets go into a buffer. *)
Definition frames_that_fit (n room : nat) : nat := Nat.min n (room / 13).

Lemma frames_that_fit_step n room :
  (13 <= room)%nat -> frames_that_fit (S n) room = S (frames_that_fit n (room - 13)).
Proof.
  intros Hr. unfold frames_that_fit.
  replace (room / 13)%nat with (S ((room - 13) / 13)); [lia |].
  replace room with (1 * 13 + (room - 13))%nat at 2 by lia.
  rewrite Nat.div_add_l by lia. lia.
Qed.

Lemma frames_that_fit_none n room : (room < 13)%nat -> frames_that_fit n room = 0%nat.
Proof. intros Hr. unfold frames_that_fit. rewrite Nat.div_small by lia. lia. Qed.

Lemma be_value_small n z :
  0 <= z < 2 ^ (8 * Z.of_nat n) -> be_value (be_bytes n z) = z.
Proof. apply be_value_be_bytes_small. Qed.

Lemma land_id_small z : uint_ok 31 z -> Z.land z STREAM_ID_MASK = z.
Proof.
  intros Hz. unfold STREAM_ID_MASK. change 0x7FFFFFFF with (2 ^ 31 - 1).
  rewrite land_mask_mod by lia. by apply Z.mod_small.
Qed.

(** What a peer reads of a header: the same header, its reserved bit cleared. *)
Lemma frame_header_octets h rest max_frame_size :
  uint_ok 24 (payload_len h) -> u8_ok (flags h) -> type_ok (frame_type h) ->
  payload_len h <= max_frame_size ->
  let id := Z.land (stream_id h) STREAM_ID_MASK in
  valid_stream_id (frame_type h) id = true ->
  frame_header (header_octets h ++ rest) max_frame_size =
    Val (rest, mkFrameHeader (payload_len h) (frame_type h) (flags h) id).
Proof.
  intros Hp Hf Ht Hmax id Hid. destruct (convert_serialize _ Ht) as [Hs Hc].
  pose proof (frame_header_eq (header_octets h ++ rest) max_frame_size) as E.
  rewrite decide_False in E by (rewrite length_app, length_header_octets; lia).
  assert (take 3 (header_octets h ++ rest) = be_bytes 3 (payload_len h)) as E1 by done.
  assert (take 1 (drop 3 (header_octets h ++ rest)) =
          be_bytes 1 (serialize_frame_type (frame_type h))) as E2 by done.
  assert (take 1 (drop 4 (header_octets h ++ rest)) = be_bytes 1 (flags h)) as E3 by done.
  assert (take 4 (drop 5 (header_octets h ++ rest)) = be_bytes 4 id) as E4 by done.
  assert (drop 9 (header_octets h ++ rest) = rest) as E5 by done.
  rewrite E1, E2, E3, E4, E5 in E. cbn zeta in E.
  pose proof (land_id_range (stream_id h)) as Hr. fold id in Hr.
  rewrite !be_value_small in E by (unfold uint_ok in *; cbn; lia).
  rewrite Hc, (land_id_small id), Hid in E by (unfold uint_ok; lia).
  by rewrite (proj2 (Z.ltb_ge _ _)) in E by lia.
Qed.

(** A frame as a peer reads it: its header, then its body. *)
Definition read_frame (max_frame_size : Z) (input : list Z) : iresult ErrorKind Frame :=
  '(i, h) ← frame_header input max_frame_size; frame_body i h.

(** The bodies of the control frames, as octets. *)
Lemma rst_stream_body h code rest :
  frame_type h = FrameType.RstStream -> payload_len h = RST_STREAM_PAYLOAD_SIZE ->
  u32_ok code ->
  frame_body (be_bytes 4 code ++ rest) h = Val (rest, FrameRstStream (stream_id h) code).
Proof.
  intros Ht Hl Hc. unfold frame_body. rewrite Ht.
  apply frame_body_finish; [by rewrite Hl |]. unfold ensure_frame_size. rewrite Hl.
  cbn [mbind outcome_bind]. unfold rst_stream_frame. rewrite Hl.
  rewrite take_octets_app by done. cbn [mbind outcome_bind].
  rewrite assert_consumed_app by done. cbn [mbind outcome_bind].
  rewrite debug_assert_true by done. cbn [mbind outcome_bind].
  pose proof (reads_number_app 4 be_u32 (be_bytes 4 code) [] be_u32_reads eq_refl) as Hr.
  rewrite app_nil_r in Hr. rewrite Hr. cbn [mbind outcome_bind].
  by rewrite be_value_small by (unfold uint_ok in *; cbn; lia).
Qed.

Lemma window_update_body h increment rest :
  frame_type h = FrameType.WindowUpdate -> payload_len h = WINDOW_UPDATE_PAYLOAD_SIZE ->
  uint_ok 31 increment ->
  frame_body (be_bytes 4 increment ++ rest) h =
    Val (rest, FrameWindowUpdate (stream_id h) increment).
Proof.
  intros Ht Hl Hc. unfold frame_body. rewrite Ht.
  apply frame_body_finish; [by rewrite Hl |]. unfold ensure_frame_size. rewrite Hl.
  cbn [mbind outcome_bind]. unfold window_update_frame. rewrite Hl.
  rewrite take_octets_app by done. cbn [mbind outcome_bind].
  rewrite assert_consumed_app by done. cbn [mbind outcome_bind].
  rewrite debug_assert_true by done. cbn [mbind outcome_bind].
  pose proof (reads_number_app 4 be_u32 (be_bytes 4 increment) [] be_u32_reads eq_refl) as Hr.
  rewrite app_nil_r in Hr. rewrite Hr. cbn [mbind outcome_bind].
  rewrite be_value_small, land_id_small by (unfold uint_ok in *; cbn; lia).
  by rewrite debug_assert_true by (unfold STREAM_ID_MASK, uint_ok in *; lia).
Qed.

Lemma goaway_body h last code rest :
  frame_type h = FrameType.GoAway -> payload_len h = GOAWAY_PAYLOAD_SIZE ->
  uint_ok 31 last -> u32_ok code ->
  exists s, frame_body ((be_bytes 4 last ++ be_bytes 4 code) ++ rest) h =
              Val (rest, FrameGoAway last code s).
Proof.
  intros Ht Hl Hlast Hc. eexists. unfold frame_body. rewrite Ht.
  apply frame_body_finish; [by rewrite Hl |]. unfold ensure_frame_size. rewrite Hl.
  cbn [mbind outcome_bind]. unfold goaway_frame. rewrite Hl.
  rewrite take_octets_app by done. cbn [mbind outcome_bind].
  rewrite (reads_number_app 4 be_u32 (be_bytes 4 last) (be_bytes 4 code) be_u32_reads eq_refl).
  cbn [mbind outcome_bind].
  pose proof (reads_number_app 4 be_u32 (be_bytes 4 code) [] be_u32_reads eq_refl) as Hr.
  rewrite app_nil_r in Hr. rewrite Hr. cbn [mbind outcome_bind].
  rewrite assert_consumed_app by done. cbn [mbind outcome_bind].
  rewrite (debug_assert_true (Z.of_nat _ =? _)) by done. cbn [mbind outcome_bind].
  rewrite land_id_masked. cbn [debug_assert mbind outcome_bind].
  by rewrite !be_value_small, land_id_small by (unfold uint_ok in *; cbn; lia).
Qed.

Lemma ping_body h payload rest :
  frame_type h = FrameType.Ping -> payload_len h = PING_PAYLOAD_SIZE -> length payload = 8%nat ->
  frame_body (payload ++ rest) h =
    Val (rest, FramePing payload (has_flag (flags h) FLAG_ACK)).
Proof.
  intros Ht Hl Hp. unfold frame_body. rewrite Ht.
  apply frame_body_finish; [by rewrite Hl, Hp |]. unfold ensure_frame_size. rewrite Hl.
  cbn [mbind outcome_bind]. unfold ping_frame. rewrite Hl.
  rewrite take_octets_app by (by rewrite Hp). cbn [mbind outcome_bind].
  rewrite assert_consumed_app by (by rewrite Hp). cbn [mbind outcome_bind].
  rewrite Hp. cbn [Z.of_nat debug_assert mbind outcome_bind].
  by rewrite (take_ge payload) by lia.
Qed.

Lemma settings_body h k payload rest :
  frame_type h = FrameType.Settings -> has_flag (flags h) FLAG_ACK = false ->
  length payload = (6 * k)%nat -> (k <= 64)%nat -> payload_len h = Z.of_nat (length payload) ->
  frame_body (payload ++ rest) h = Val (rest, FrameSettings (settings_of k payload) false).
Proof.
  intros Ht Hf Hp Hk Hl. unfold frame_body. rewrite Ht.
  apply frame_body_finish; [done |]. unfold ensure_frame_size, SETTINGS_ENTRY_SIZE.
  assert (payload_len h = Z.of_nat k * 6) as Hl' by lia.
  rewrite Hf, (proj2 (Z.eqb_eq (payload_len h mod 6) 0)) by (rewrite Hl'; apply Z.mod_mul; lia).
  cbn [negb andb mbind outcome_bind]. unfold settings_frame, SETTINGS_ENTRY_SIZE, MAX_SETTINGS_ENTRIES.
  assert (payload_len h / 6 = Z.of_nat k) as -> by (rewrite Hl'; apply Z.div_mul; lia).
  rewrite (proj2 (Z.ltb_ge _ _)) by lia.
  rewrite take_octets_app by done. cbn [mbind outcome_bind].
  rewrite (many0_settings k) by done. cbn [mbind outcome_bind].
  rewrite assert_consumed_app by done. cbn [mbind outcome_bind].
  rewrite length_settings_of, !debug_assert_true by lia. by rewrite Hf.
Qed.

(** A header followed by a body that parses is a frame that parses. *)
Lemma read_frame_octets h body rest max_frame_size f :
  uint_ok 24 (payload_len h) -> u8_ok (flags h) -> type_ok (frame_type h) ->
  payload_len h <= max_frame_size ->
  let id := Z.land (stream_id h) STREAM_ID_MASK in
  valid_stream_id (frame_type h) id = true ->
  frame_body (body ++ rest) (mkFrameHeader (payload_len h) (frame_type h) (flags h) id) =
    Val (rest, f) ->
  read_frame max_frame_size ((header_octets h ++ body) ++ rest) = Val (rest, f).
Proof.
  intros Hp Hf Ht Hmax id Hid Hb. unfold read_frame. rewrite <- app_assoc.
  by rewrite frame_header_octets.
Qed.

Lemma H2Error_code_ok e : u32_ok (H2Error_code e).
Proof. by destruct e. Qed.

(** The emitted octets, whatever follows them, are read by a peer as [f]. *)
Definition reads_as (max_frame_size : Z) (out : list Z) (f : Frame) : Prop :=
  forall rest, read_frame max_frame_size (out ++ rest) = Val (rest, f).

(** [n] frames in a row. *)
Fixpoint read_frames (max_frame_size : Z) (n : nat) (input : list Z)
    : iresult ErrorKind (list Frame) :=
  match n with
  | O => Val (input, [])
  | S n =>
      '(i, f) ← read_frame max_frame_size input;
      '(i, fs) ← read_frames max_frame_size n i;
      Val (i, f :: fs)
  end.

Lemma read_frames_octets {A} max_frame_size (octets_of : A -> list Z) (frame_of : A -> Frame) l rest :
  Forall (fun x => reads_as max_frame_size (octets_of x) (frame_of x)) l ->
  read_frames max_frame_size (length l) ((l ≫= octets_of) ++ rest) = Val (rest, frame_of <$> l).
Proof.
  induction 1 as [| x l Hx Hl IH]; [done |]. rewrite bind_cons, <- app_assoc.
  cbn [length read_frames]. rewrite Hx. cbn [mbind outcome_bind]. by rewrite IH.
Qed.

Lemma window_update_reads id increment max_frame_size :
  4 <= max_frame_size ->
  reads_as max_frame_size (window_update_octets id increment)
    (FrameWindowUpdate (Z.land id STREAM_ID_MASK) (Z.land increment STREAM_ID_MASK)).
Proof.
  intros Hmax rest. apply read_frame_octets; try done.
  apply window_update_body; try done. apply land_id_range.
Qed.

Lemma rst_stream_reads id code max_frame_size :
  4 <= max_frame_size -> Z.land id STREAM_ID_MASK <> 0 ->
  reads_as max_frame_size (rst_stream_octets id code)
    (FrameRstStream (Z.land id STREAM_ID_MASK) (H2Error_code code)).
Proof.
  intros Hmax Hid rest. apply read_frame_octets; try done.
  - cbn. by apply negb_true_iff, Z.eqb_neq.
  - apply rst_stream_body; try done. apply H2Error_code_ok.
Qed.

(** RST_STREAM and WINDOW_UPDATE round trip: in a buffer with room for
    the frame they are written in 13 octets, which a peer reads back as the
    same stream, error code and increment, reserved bits cleared. *)
Theorem stream_frames_roundtrip buf stream_id code increment max_frame_size :
  (13 <= length buf)%nat -> 4 <= max_frame_size -> u32_ok stream_id ->
  let id := Z.land stream_id STREAM_ID_MASK in
  (id <> 0 -> exists out,
     gen_rst_stream buf stream_id code = Val (out, drop 13 buf, 13) /\
     reads_as max_frame_size out (FrameRstStream id (H2Error_code code))) /\
  (exists out,
     gen_window_update buf stream_id increment = Val (out, drop 13 buf, 13) /\
     reads_as max_frame_size out (FrameWindowUpdate id (Z.land increment STREAM_ID_MASK))).
Proof.
  intros Hl Hmax Hid id. split; [intros Hnz |].
  - exists (rst_stream_octets stream_id code). split; [| by apply rst_stream_reads].
    by apply gen_control_frame_fits.
  - exists (window_update_octets stream_id increment). split; [| by apply window_update_reads].
    by apply gen_control_frame_fits.
Qed.

(** GOAWAY round trips: the last stream and the error code a peer reads
    are those given, reserved bit cleared. *)
Theorem goaway_roundtrip buf last_stream_id code max_frame_size :
  (17 <= length buf)%nat -> 8 <= max_frame_size ->
  exists out,
    gen_goaway buf last_stream_id code = Val (out, drop 17 buf, 17) /\
    forall rest, exists s,
      read_frame max_frame_size (out ++ rest) =
        Val (rest, FrameGoAway (Z.land last_stream_id STREAM_ID_MASK) (H2Error_code code) s).
Proof.
  intros Hl Hmax. eexists. split; [by apply gen_control_frame_fits |]. intros rest.
  destruct (goaway_body (mkFrameHeader GOAWAY_PAYLOAD_SIZE FrameType.GoAway 0 0)
    (Z.land last_stream_id STREAM_ID_MASK) (H2Error_code code) rest) as [s Hs]; try done.
  - apply land_id_range.
  - apply H2Error_code_ok.
  - exists s. by apply read_frame_octets.
Qed.

(** The acknowledgement of a PING echoes its eight octets: a peer reads
    an acknowledged PING with the payload it sent. *)
Theorem ping_ack_roundtrip buf payload max_frame_size :
  (17 <= length buf)%nat -> 8 <= max_frame_size -> length payload = 8%nat ->
  exists out,
    gen_ping_acknowledgement buf payload = Val (out, drop 17 buf, 17) /\
    reads_as max_frame_size out (FramePing payload true).
Proof.
  intros Hl Hmax Hp. exists (PING_ACKNOWLEDGEMENT_HEADER ++ payload).
  unfold gen_ping_acknowledgement, octets. split.
  - assert (octets [slice_of PING_ACKNOWLEDGEMENT_HEADER; slice_of payload] =
            PING_ACKNOWLEDGEMENT_HEADER ++ payload) as E.
    { unfold octets. rewrite !bind_cons. cbn [piece_octets mbind list_bind].
      by rewrite app_nil_r. }
    rewrite run_fits by (rewrite E, length_app, Hp; cbn; lia). by rewrite E, length_app, Hp.
  - intros rest.
    apply (read_frame_octets (mkFrameHeader 8 FrameType.Ping 1 0) payload rest); try done.
    by rewrite ping_body.
Qed.

Definition settings_ok (s : H2Settings) : Prop :=
  u32_ok (settings_header_table_size s) /\ u32_ok (settings_max_concurrent_streams s) /\
  u32_ok (settings_initial_window_size s) /\ u32_ok (settings_max_frame_size s) /\
  u32_ok (settings_max_header_list_size s).

(** The parameters a SETTINGS frame announces, in order. *)
Definition settings_entries (s : H2Settings) : list Setting :=
  [mkSetting SETTINGS_HEADER_TABLE_SIZE (settings_header_table_size s);
   mkSetting SETTINGS_ENABLE_PUSH (Z.b2z (settings_enable_push s));
   mkSetting SETTINGS_MAX_CONCURRENT_STREAMS (settings_max_concurrent_streams s);
   mkSetting SETTINGS_INITIAL_WINDOW_SIZE (settings_initial_window_size s);
   mkSetting SETTINGS_MAX_FRAME_SIZE (settings_max_frame_size s);
   mkSetting SETTINGS_MAX_HEADER_LIST_SIZE (settings_max_header_list_size s);
   mkSetting SETTINGS_ENABLE_CONNECT_PROTOCOL (Z.b2z (settings_enable_connect_protocol s));
   mkSetting SETTINGS_NO_RFC7540_PRIORITIES (Z.b2z (settings_no_rfc7540_priorities s))].

Definition entries_octets (l : list Setting) : list Z :=
  l ≫= fun e => be_bytes 2 (identifier e) ++ be_bytes 4 (value e).

Lemma settings_of_octets l :
  Forall (fun e => u16_ok (identifier e) /\ u32_ok (value e)) l ->
  settings_of (length l) (entries_octets l) = l.
Proof.
  induction 1 as [| [i v] l [Hi Hv] Hl IH]; [done |]. unfold entries_octets.
  rewrite bind_cons. fold (entries_octets l). cbn [identifier value length settings_of] in *.
  rewrite <- app_assoc, take_app_length', drop_app_length', take_app_length' by done.
  rewrite !be_value_small by (unfold uint_ok in *; cbn; lia). f_equal.
  rewrite app_assoc, drop_app_length' by done. exact IH.
Qed.

(** SETTINGS round trips: the frame takes 57 octets and a peer reads
    exactly the eight parameters of the settings, in order, without ACK. *)
Theorem settings_roundtrip buf s max_frame_size :
  (57 <= length buf)%nat -> 48 <= max_frame_size -> settings_ok s ->
  exists out,
    gen_settings buf s = Val (out, drop 57 buf, 57) /\
    reads_as max_frame_size out (FrameSettings (settings_entries s) false).
Proof.
  intros Hl Hmax (H1 & H2 & H3 & H4 & H5).
  exists (header_octets (mkFrameHeader 48 FrameType.Settings 0 0) ++ entries_octets (settings_entries s)).
  split.
  - unfold gen_settings. rewrite gen_frame_header_fits by lia. cbn [mbind outcome_bind].
    rewrite run_fits by (rewrite length_drop; cbn; lia). cbn [mbind outcome_bind].
    rewrite !debug_assert_true by done. cbn [mbind outcome_bind]. by rewrite drop_drop.
  - intros rest. apply read_frame_octets; try done.
    rewrite (settings_body _ 8) by (done || lia). do 3 f_equal.
    apply (settings_of_octets (settings_entries s)).
    unfold settings_entries, Z.b2z. rewrite !Forall_cons. cbn [identifier value].
    repeat lazymatch goal with |- _ /\ _ => split end; try done; by case_match.
Qed.

(** The two constant frames: SETTINGS_ACKNOWLEDGEMENT is read as an
    acknowledged empty SETTINGS frame, and the connection preface is accepted
    by [preface]. *)
Theorem constant_frames_read max_frame_size rest :
  0 <= max_frame_size ->
  (exists h, frame_header (SETTINGS_ACKNOWLEDGEMENT ++ rest) max_frame_size = Val (rest, h) /\
             frame_body rest h = Val (rest, FrameSettings [] true)) /\
  preface (H2_PRI ++ rest) = Ok (rest, H2_PRI).
Proof.
  intros Hmax. split.
  - exists (mkFrameHeader 0 FrameType.Settings 1 0). split.
    + by apply (frame_header_octets (mkFrameHeader 0 FrameType.Settings 1 0) rest).
    + pose proof (many0_settings 0 [] eq_refl) as Hm. cbn [settings_of] in Hm.
      unfold frame_body. cbn [frame_type]. apply (frame_body_finish [] rest); [done |].
      change (settings_frame rest (mkFrameHeader 0 FrameType.Settings 1 0) =
              Val (rest, FrameSettings [] true)). unfold settings_frame.
      change (MAX_SETTINGS_ENTRIES <? _) with false. cbn [payload_len].
      pose proof (take_octets_app 0 [] rest eq_refl) as Ht. cbn [app] in Ht. rewrite Ht.
      cbn [mbind outcome_bind]. rewrite Hm.
      cbn [mbind outcome_bind]. pose proof (assert_consumed_app [] rest 0 eq_refl) as Ha.
      cbn [app] in Ha. rewrite Ha. done.
  - unfold preface, H2_PRI. apply law_tag_match.
Qed.

End RoundTrips.

(** ** A concrete cookie_factory, and witnesses *)

Global Instance simple_cookie_factory : CookieFactory := {
  GenError := unit;
  cf_gen ps buf :=
    if decide (length (octets ps) <= length buf)%nat
    then Ok (octets ps, drop (length (octets ps)) buf, Z.of_nat (length (octets ps)))
    else Err tt;
}.

Global Instance simple_cookie_factory_laws : CookieFactoryLaws.
Proof.
  split; intros ps buf Hl; cbn.
  - by rewrite decide_True.
  - rewrite decide_False by lia. by eexists.
Qed.

Lemma stream_frames_roundtrip_witness :
  (exists out, gen_rst_stream (replicate 16 0) 3 Cancel = Val (out, [0; 0; 0], 13) /\
               reads_as 16384 out (FrameRstStream 3 8)) /\
  (exists out, gen_window_update (replicate 16 0) 3 0x80000005 = Val (out, [0; 0; 0], 13) /\
               reads_as 16384 out (FrameWindowUpdate 3 5)).
Proof.
  destruct (stream_frames_roundtrip (HC := simple_cookie_factory) (HN := simple_nom)
    (HK := simple_kawa) (replicate 16 0) 3 Cancel 0x80000005 16384) as [H1 H2];
    [cbn; lia | lia | done |].
  split; [by apply H1 | exact H2].
Defined.

Lemma goaway_roundtrip_witness :
  exists out, gen_goaway (replicate 17 0) 7 EnhanceYourCalm = Val (out, [], 17) /\
    forall rest, exists s, read_frame 16384 (out ++ rest) = Val (rest, FrameGoAway 7 0xb s).
Proof.
  apply (goaway_roundtrip (HC := simple_cookie_factory) (HN := simple_nom) (HK := simple_kawa)
           (replicate 17 0) 7 EnhanceYourCalm 16384); [cbn; lia | lia].
Defined.

Lemma ping_ack_roundtrip_witness :
  exists out, gen_ping_acknowledgement (replicate 17 0) [1; 2; 3; 4; 5; 6; 7; 8] = Val (out, [], 17) /\
    reads_as 16384 out (FramePing [1; 2; 3; 4; 5; 6; 7; 8] true).
Proof.
  apply (ping_ack_roundtrip (HC := simple_cookie_factory) (HN := simple_nom) (HK := simple_kawa)
           (replicate 17 0) [1; 2; 3; 4; 5; 6; 7; 8] 16384); [cbn; lia | lia | done].
Defined.

Definition some_settings : H2Settings := mkH2Settings 4096 false 100 65535 16384 65536 false true.

Lemma settings_roundtrip_witness :
  exists out, gen_settings (replicate 60 0) some_settings = Val (out, [0; 0; 0], 57) /\
    reads_as 16384 out (FrameSettings (settings_entries some_settings) false).
Proof.
  apply (settings_roundtrip (HC := simple_cookie_factory) (HN := simple_nom) (HK := simple_kawa)
           (replicate 60 0) some_settings 16384); [cbn; lia | lia | done].
Defined.

Lemma constant_frames_read_witness :
  (exists h, frame_header (SETTINGS_ACKNOWLEDGEMENT ++ [7]) 16384 = Val ([7], h) /\
             frame_body [7] h = Val ([7], FrameSettings [] true)) /\
  preface (H2_PRI ++ [7]) = Ok ([7], H2_PRI).
Proof. by apply (constant_frames_read (HN := simple_nom) (HK := simple_kawa)). Defined.
