(* ===== verification/H2FlowControl.v ===== *)
(** * Connection-level flow control

    [lib/src/protocol/mux/h2_flow_control.rs]: the send window of stream 0, the
    accounting of received octets, and the queue of WINDOW_UPDATE frames not
    yet written, with the assertions of a debug build. *)

From Stdlib Require Import ZifyBool.
From S2P Require Import Prelude BTreeMap H2Parser H2Serializer.

Record H2FlowControl := mkFlow {
  window : Z;
  received_bytes_since_update : Z;
  pending_window_updates : list (Z * Z);
}.

Inductive QueueWindowUpdateOutcome : Type :=
| Coalesced (old new : Z)
| Inserted (increment : Z)
| Dropped
| Noop.

Inductive ApplyWindowUpdateOutcome : Type :=
| Applied (new_window : Z) (should_arm_writable : bool)
| Overflow.

Global Instance QueueWindowUpdateOutcome_eq_dec : EqDecision QueueWindowUpdateOutcome.
Proof. solve_decision. Defined.

(** The assertions of [check_invariants]. *)
Definition check_flow (self : H2FlowControl) : checked unit :=
  debug_assert (forallb (fun e => negb (e.2 =? 0)) (pending_window_updates self)).

Definition flow_new (initial_window : Z) : checked H2FlowControl :=
  let flow_control := mkFlow initial_window 0 [] in
  _ ← check_flow flow_control;
  Val flow_control.

Definition set_window (self : H2FlowControl) (w : Z) : H2FlowControl :=
  mkFlow w (received_bytes_since_update self) (pending_window_updates self).

Definition set_pending (self : H2FlowControl) (m : list (Z * Z)) : H2FlowControl :=
  mkFlow (window self) (received_bytes_since_update self) m.

Definition consume_send_window (self : H2FlowControl) (consumed : Z) : checked H2FlowControl :=
  _ ← debug_assert (0 <=? consumed);
  let before := window self in
  let self := set_window self (i32_saturating_sub (window self) consumed) in
  _ ← debug_assert (window self <=? before);
  _ ← check_flow self;
  Val self.

Definition refund_send_window (self : H2FlowControl) (refunded : Z)
    : checked (H2FlowControl * ApplyWindowUpdateOutcome) :=
  _ ← debug_assert (0 <? refunded);
  let before := window self in
  match i32_checked_add (window self) refunded with
  | None =>
      _ ← debug_assert (window self =? before);
      Val (self, Overflow)
  | Some w =>
      let self := set_window self w in
      _ ← debug_assert (window self =? before + refunded);
      _ ← debug_assert (before <? window self);
      _ ← check_flow self;
      Val (self, Applied w ((before <=? 0) && (0 <? w)))
  end.

(** [window_before + increment], an [i32] addition, panics on overflow. *)
Definition apply_window_update (self : H2FlowControl) (increment : Z)
    : checked (H2FlowControl * ApplyWindowUpdateOutcome) :=
  _ ← debug_assert (0 <? increment);
  let window_before := window self in
  match i32_checked_add (window self) increment with
  | Some new_window =>
      let should_arm_writable := (window self <=? 0) && (0 <? new_window) in
      let self := set_window self new_window in
      _ ← debug_assert (bool_decide (i32_ok (window_before + increment)));
      _ ← debug_assert (window self =? window_before + increment);
      _ ← debug_assert (window_before <? window self);
      _ ← check_flow self;
      Val (self, Applied new_window should_arm_writable)
  | None =>
      _ ← debug_assert (I32_MAX <? window_before + increment);
      Val (self, Overflow)
  end.

Definition account_received_bytes (self : H2FlowControl) (wire_payload_len threshold : Z)
    : checked (H2FlowControl * option Z) :=
  let total := u32_saturating_add (received_bytes_since_update self) wire_payload_len in
  let '(total, increment) := if threshold <=? total then (0, Some total) else (total, None) in
  let self := mkFlow (window self) total (pending_window_updates self) in
  _ ← check_flow self;
  Val (self, increment).

Definition clear_pending_window_updates (self : H2FlowControl) : checked H2FlowControl :=
  let self := set_pending self [] in
  _ ← check_flow self;
  Val self.

Definition queue_window_update (self : H2FlowControl) (stream_id increment : Z) (max_pending : nat)
    : checked (H2FlowControl * QueueWindowUpdateOutcome) :=
  if increment =? 0 then Val (self, Noop)
  else
    let max_increment := I32_MAX in
    let pending := pending_window_updates self in
    let len_before := length pending in
    '(pending, result) ←
      match btree_get stream_id pending with
      | Some old =>
          let new := Z.min (u32_saturating_add old increment) max_increment in
          _ ← debug_assert (old <=? new);
          _ ← debug_assert (new <=? max_increment);
          Val (btree_insert stream_id new pending, Coalesced old new)
      | None =>
          if (length pending <? max_pending)%nat then
            let capped := Z.min increment max_increment in
            Val (btree_insert stream_id capped pending, Inserted capped)
          else Val (pending, Dropped)
      end;
    let self := set_pending self pending in
    _ ← debug_assert (len_before <=? length (pending_window_updates self))%nat;
    _ ← check_flow self;
    Val (self, result).

Section Drain.

Context `{CookieFactory}.

(** The loop over the entries: what is written, how many octets and frames,
    and the identifiers to remove. [&mut buf[offset..]] panics past the end. *)
Fixpoint drain_updates_loop (buf : list Z) (entries : list (Z * Z))
    (out : list Z) (offset frames_written : Z) (drained_ids : list Z)
    : checked (list Z * Z * Z * list Z) :=
  match entries with
  | [] => Val (out, offset, frames_written, drained_ids)
  | (stream_id, increment) :: entries =>
      if increment =? 0 then
        _ ← debug_assert false;
        drain_updates_loop buf entries out offset frames_written (drained_ids ++ [stream_id])
      else
        _ ← debug_assert (offset <=? Z.of_nat (length buf));
        match gen_window_update (drop (Z.to_nat offset) buf) stream_id increment with
        | Val (frame, _, size) =>
            drain_updates_loop buf entries (out ++ frame) (offset + size) (frames_written + 1)
              (drained_ids ++ [stream_id])
        | Fails _ => Val (out, offset, frames_written, drained_ids)
        | Panic => Panic
        end
  end.

(** The octets written at the front of [buf], with [(offset, frames)]. *)
Definition drain_window_updates_into (self : H2FlowControl) (buf : list Z)
    : checked (H2FlowControl * list Z * (Z * Z)) :=
  let len_before := length (pending_window_updates self) in
  '(out, offset, frames_written, drained_ids) ←
    drain_updates_loop buf (pending_window_updates self) [] 0 0 [];
  let self := set_pending self
    (foldl (fun m id => btree_remove id m) (pending_window_updates self) drained_ids) in
  _ ← debug_assert (length (pending_window_updates self) <=? len_before)%nat;
  _ ← debug_assert (Z.of_nat (length drained_ids) =? frames_written);
  _ ← check_flow self;
  Val (self, out, (offset, frames_written)).

End Drain.

(** ** The invariant *)

Definition update_ok (e : Z * Z) : Prop := uint_ok 31 e.1 /\ 1 <= e.2 <= I32_MAX.

Record flow_ok (self : H2FlowControl) : Prop := {
  flow_ok_window : i32_ok (window self);
  flow_ok_received : u32_ok (received_bytes_since_update self);
  flow_ok_sorted : btree_ok (pending_window_updates self);
  flow_ok_pending : Forall update_ok (pending_window_updates self);
}.

Lemma check_flow_Val self :
  Forall update_ok (pending_window_updates self) -> check_flow self = Val tt.
Proof.
  intros Hp. unfold check_flow. apply debug_assert_true, forallb_forall.
  intros e He%list_elem_of_In. rewrite Forall_forall in Hp. destruct (Hp e He) as [_ Hv].
  apply negb_true_iff, Z.eqb_neq. lia.
Qed.

(** ** The send window *)

(** Consuming credit that the window's width can express is exact. *)
Lemma consume_send_window_Val self consumed :
  flow_ok self -> 0 <= consumed ->
  consume_send_window self consumed =
    Val (set_window self (Z.max I32_MIN (window self - consumed))).
Proof.
  intros Hs Hc. pose proof (flow_ok_window _ Hs) as Hw. unfold i32_ok in Hw.
  unfold consume_send_window, i32_saturating_sub. rewrite Z.min_r by lia.
  run_assert by lia. run_assert by (cbn; unfold I32_MIN in *; lia).
  by rewrite check_flow_Val by apply Hs.
Qed.

(** What [refund_send_window] and [apply_window_update] both do. *)
Definition grow_window (self : H2FlowControl) (n : Z)
    : H2FlowControl * ApplyWindowUpdateOutcome :=
  if window self + n <=? I32_MAX then
    (set_window self (window self + n),
     Applied (window self + n) ((window self <=? 0) && (0 <? window self + n)))
  else (self, Overflow).

Lemma i32_checked_add_cases a n :
  i32_ok a -> 0 < n ->
  i32_checked_add a n = if a + n <=? I32_MAX then Some (a + n) else None.
Proof.
  intros Ha Hn. unfold i32_checked_add, i32_ok in *.
  by rewrite (proj2 (Z.leb_le I32_MIN _)) by lia.
Qed.

Lemma refund_send_window_Val self n :
  flow_ok self -> 0 < n -> refund_send_window self n = Val (grow_window self n).
Proof.
  intros Hs Hn. unfold refund_send_window, grow_window.
  rewrite i32_checked_add_cases by (done || apply Hs).
  run_assert by lia. destruct (_ <=? I32_MAX) eqn:E.
  - do 2 run_assert by (cbn; lia). by rewrite check_flow_Val by apply Hs.
  - by run_assert by lia.
Qed.

Lemma apply_window_update_Val self n :
  flow_ok self -> 0 < n -> apply_window_update self n = Val (grow_window self n).
Proof.
  intros Hs Hn. pose proof (flow_ok_window _ Hs) as Hw. unfold i32_ok in Hw.
  unfold apply_window_update, grow_window.
  rewrite i32_checked_add_cases by (done || apply Hs).
  run_assert by lia. destruct (_ <=? I32_MAX) eqn:E.
  - run_assert by (apply bool_decide_true; unfold i32_ok; lia).
    do 2 run_assert by (cbn; lia). by rewrite check_flow_Val by apply Hs.
  - by run_assert by lia.
Qed.

Lemma set_window_ok self w : flow_ok self -> i32_ok w -> flow_ok (set_window self w).
Proof. intros [] Hw. by constructor. Qed.

Lemma grow_window_ok self n : flow_ok self -> 0 < n -> flow_ok (grow_window self n).1.
Proof.
  intros Hs Hn. unfold grow_window. destruct (_ <=? I32_MAX) eqn:E; [| done].
  apply set_window_ok; [done |]. pose proof (flow_ok_window _ Hs). unfold i32_ok in *. lia.
Qed.

(** ** The queue *)

Lemma queue_window_update_Val self id increment max_pending :
  flow_ok self -> uint_ok 31 id -> u32_ok increment ->
  queue_window_update self id increment max_pending =
    if increment =? 0 then Val (self, Noop)
    else
      match btree_get id (pending_window_updates self) with
      | Some old =>
          let new := Z.min (old + increment) I32_MAX in
          Val (set_pending self (btree_insert id new (pending_window_updates self)),
               Coalesced old new)
      | None =>
          if (length (pending_window_updates self) <? max_pending)%nat then
            Val (set_pending self
                   (btree_insert id (Z.min increment I32_MAX) (pending_window_updates self)),
                 Inserted (Z.min increment I32_MAX))
          else Val (self, Dropped)
      end.
Proof.
  intros Hs Hid Hi. unfold queue_window_update. destruct (Z.eqb_spec increment 0) as [| Hnz]; [done |].
  pose proof (flow_ok_sorted _ Hs) as Hsort. pose proof (flow_ok_pending _ Hs) as Hp.
  destruct (btree_get id _) as [old |] eqn:Hget.
  - assert (update_ok (id, old)) as [_ Hold].
    { rewrite Forall_forall in Hp. by apply Hp, btree_get_Some. }
    cbn in Hold. unfold uint_ok in Hi.
    assert (Z.min (u32_saturating_add old increment) I32_MAX = Z.min (old + increment) I32_MAX)
      as -> by (unfold u32_saturating_add, U32_MAX, I32_MAX in *; lia).
    run_assert by lia. run_assert by lia.
    run_assert by (cbn; rewrite length_btree_insert by done; lia).
    by rewrite check_flow_Val by (apply Forall_btree_insert; [done | split; [done | cbn; lia]]).
  - destruct (_ <? max_pending)%nat; cbn [mbind outcome_bind].
    + run_assert by (cbn; rewrite length_btree_insert by done; lia).
      rewrite check_flow_Val; [done |]. apply Forall_btree_insert; [done |].
      split; [done |]. unfold uint_ok, I32_MAX in *. cbn. lia.
    + run_assert by (cbn; lia). destruct self. by rewrite check_flow_Val.
Qed.

Lemma set_pending_ok self m :
  flow_ok self -> btree_ok m -> Forall update_ok m -> flow_ok (set_pending self m).
Proof. intros [] Hm Hp. by constructor. Qed.

Lemma queue_window_update_ok self id increment max_pending self' o :
  flow_ok self -> uint_ok 31 id -> u32_ok increment ->
  queue_window_update self id increment max_pending = Val (self', o) -> flow_ok self'.
Proof.
  intros Hs Hid Hi. rewrite queue_window_update_Val by done.
  pose proof (flow_ok_sorted _ Hs) as Hsort. pose proof (flow_ok_pending _ Hs) as Hp.
  destruct (Z.eqb_spec increment 0) as [| Hnz]; [by intros [= <- _] |].
  unfold uint_ok in Hi.
  destruct (btree_get id _) as [old |] eqn:Hget; [| destruct (_ <? max_pending)%nat];
    intros [= <- _]; [| | done]; apply set_pending_ok; auto with sozu;
    apply Forall_btree_insert; try done; (split; [done |]); cbn; unfold I32_MAX.
  - assert (update_ok (id, old)) as [_ Hold].
    { rewrite Forall_forall in Hp. by apply Hp, btree_get_Some. }
    cbn in Hold. lia.
  - lia.
Qed.

(** ** The drain *)

Section DrainSpec.

Context `{HC : CookieFactory} `{!CookieFactoryLaws} `{HN : Nom} `{!NomLaws} `{HK : Kawa}.

Definition updates_octets (entries : list (Z * Z)) : list Z :=
  entries ≫= fun e => window_update_octets e.1 e.2.

Lemma drain_updates_loop_Val buf entries out (offset : nat) frames ids :
  Forall update_ok entries -> (offset <= length buf)%nat ->
  let n := frames_that_fit (length entries) (length buf - offset) in
  drain_updates_loop buf entries out (Z.of_nat offset) frames ids =
    Val (out ++ updates_octets (take n entries), Z.of_nat (offset + 13 * n),
         frames + Z.of_nat n, ids ++ (take n entries).*1).
Proof.
  revert out offset frames ids.
  induction entries as [| [id inc] entries IH]; intros out offset frames ids Hp Ho n.
  - unfold n, frames_that_fit. cbn. rewrite !app_nil_r. do 4 f_equal; lia.
  - inversion Hp as [| ? ? [_ Hinc] Hp']; subst. cbn [drain_updates_loop]. cbn in Hinc.
    rewrite (proj2 (Z.eqb_neq inc 0)) by lia. run_assert by lia. rewrite Nat2Z.id.
    destruct (gen_window_update_cases (drop offset buf) id inc) as [[Hl ->] | [Hl [e ->]]];
      rewrite length_drop in Hl.
    + assert (n = S (frames_that_fit (length entries) (length buf - (offset + 13)))) as ->.
      { unfold n. cbn [length]. rewrite frames_that_fit_step by lia. do 2 f_equal. lia. }
      replace (Z.of_nat offset + 13) with (Z.of_nat (offset + 13)) by lia.
      rewrite IH by (done || lia). cbn [take fmap list_fmap]. unfold updates_octets.
      rewrite bind_cons. cbn [fst snd]. rewrite <- !app_assoc. do 3 f_equal; [| lia].
      f_equal. lia.
    + assert (n = 0%nat) as -> by (apply frames_that_fit_none; lia).
      cbn. rewrite !app_nil_r. do 3 f_equal; [| lia]. f_equal. lia.
Qed.

Lemma drain_window_updates_Val self buf :
  flow_ok self ->
  let pending := pending_window_updates self in
  let n := frames_that_fit (length pending) (length buf) in
  drain_window_updates_into self buf =
    Val (set_pending self (drop n pending), updates_octets (take n pending),
         (13 * Z.of_nat n, Z.of_nat n)).
Proof.
  intros Hs pending n. unfold drain_window_updates_into.
  pose proof (drain_updates_loop_Val buf pending [] 0 0 []) as Hd. cbn zeta in Hd.
  rewrite Nat.sub_0_r in Hd. fold n pending in Hd |- *.
  change (Z.of_nat 0) with 0 in Hd. rewrite Hd by (apply Hs || lia). cbn [mbind outcome_bind app].
  pose proof (btree_remove_first (take n pending) (drop n pending)) as Hr.
  rewrite (take_drop n pending) in Hr. fold pending. rewrite Hr by apply Hs.
  assert (n <= length pending)%nat by (unfold n, frames_that_fit; lia).
  run_assert by (cbn; rewrite length_drop; fold pending; lia).
  run_assert by (rewrite length_fmap, length_take; lia).
  rewrite check_flow_Val by (apply Forall_drop, Hs).
  by replace (Z.of_nat (0 + 13 * n)) with (13 * Z.of_nat n) by lia.
Qed.

Lemma drain_ok self n :
  flow_ok self -> flow_ok (set_pending self (drop n (pending_window_updates self))).
Proof.
  intros Hs. apply set_pending_ok; [done | apply btree_ok_drop, Hs | apply Forall_drop, Hs].
Qed.

Lemma length_updates_octets entries : length (updates_octets entries) = (13 * length entries)%nat.
Proof.
  unfold updates_octets. induction entries as [| e entries IH]; [done |].
  rewrite bind_cons, length_app, IH. cbn [length].
  change (length (window_update_octets e.1 e.2)) with 13%nat. lia.
Qed.

(** C29. The drain writes whole frames in ascending stream order and loses
    nothing: the first entries that fit, as many as the buffer has room for,
    leave the queue, and a peer reading the octets written gets exactly their
    WINDOW_UPDATE frames; the other entries stay queued. *)
Theorem drain_emits_prefix self buf max_frame_size rest :
  flow_ok self -> 4 <= max_frame_size ->
  let pending := pending_window_updates self in
  let n := Nat.min (length pending) (length buf / 13) in
  exists out,
    drain_window_updates_into self buf =
      Val (set_pending self (drop n pending), out, (13 * Z.of_nat n, Z.of_nat n)) /\
    length out = (13 * n)%nat /\
    read_frames max_frame_size n (out ++ rest) =
      Val (rest, (fun '(id, increment) => FrameWindowUpdate id increment) <$> take n pending).
Proof.
  intros Hs Hmax pending n. exists (updates_octets (take n pending)).
  split; [by apply drain_window_updates_Val |].
  assert (length (take n pending) = n) as Hn by (rewrite length_take; lia).
  split.
  - by rewrite length_updates_octets, Hn.
  - rewrite <- Hn at 1. apply (read_frames_octets max_frame_size
      (fun e : Z * Z => window_update_octets e.1 e.2)). apply Forall_take.
    eapply Forall_impl; [apply Hs |]. intros [id inc] [Hid Hinc] tail. cbn in Hid, Hinc |- *.
    rewrite (window_update_reads id inc max_frame_size Hmax tail).
    by rewrite !land_id_small by (unfold uint_ok, I32_MAX in *; lia).
Qed.

(** ** Sequences of operations *)

Inductive flow_op : Type :=
| OpConsume (consumed : Z)
| OpRefund (refunded : Z)
| OpApply (increment : Z)
| OpAccount (wire_payload_len threshold : Z)
| OpClear
| OpQueue (stream_id increment : Z) (max_pending : nat)
| OpDrain (buf : list Z).

(** What the callers guarantee of the arguments. *)
Definition op_ok (op : flow_op) : Prop :=
  match op with
  | OpConsume n => 0 <= n <= I32_MAX
  | OpRefund n | OpApply n => 1 <= n <= I32_MAX
  | OpAccount len threshold => u32_ok len /\ u32_ok threshold
  | OpClear | OpDrain _ => True
  | OpQueue id increment _ => uint_ok 31 id /\ u32_ok increment
  end.

Definition flow_step (self : H2FlowControl) (op : flow_op) : checked H2FlowControl :=
  match op with
  | OpConsume n => consume_send_window self n
  | OpRefund n => '(self, _) ← refund_send_window self n; Val self
  | OpApply n => '(self, _) ← apply_window_update self n; Val self
  | OpAccount len threshold => '(self, _) ← account_received_bytes self len threshold; Val self
  | OpClear => clear_pending_window_updates self
  | OpQueue id increment max_pending =>
      '(self, _) ← queue_window_update self id increment max_pending; Val self
  | OpDrain buf => '(self, _, _) ← drain_window_updates_into self buf; Val self
  end.

Fixpoint flow_run (self : H2FlowControl) (ops : list flow_op) : checked H2FlowControl :=
  match ops with
  | [] => Val self
  | op :: ops => self ← flow_step self op; flow_run self ops
  end.

Lemma account_received_bytes_Val self len threshold :
  flow_ok self -> u32_ok len ->
  exists total increment,
    account_received_bytes self len threshold =
      Val (mkFlow (window self) total (pending_window_updates self), increment) /\
    u32_ok total /\ default 0 increment + total =
      Z.min U32_MAX (received_bytes_since_update self + len) /\
    (increment = None -> total < threshold).
Proof.
  intros Hs Hl. pose proof (flow_ok_received _ Hs) as Hr. unfold account_received_bytes.
  unfold u32_saturating_add, uint_ok, U32_MAX in *.
  destruct (threshold <=? _) eqn:E; cbn [mbind outcome_bind];
    (eexists _, _; split; [by rewrite check_flow_Val by apply Hs |]); cbn; repeat split; try lia; done.
Qed.

Lemma flow_step_safe self op :
  flow_ok self -> op_ok op -> exists self', flow_step self op = Val self' /\ flow_ok self'.
Proof.
  intros Hs Ho. destruct op as [n | n | n | len threshold | | id increment max_pending | buf];
    cbn [flow_step op_ok] in *.
  - rewrite consume_send_window_Val by (done || lia). eexists. split; [done |].
    apply set_window_ok; [done |]. pose proof (flow_ok_window _ Hs). unfold i32_ok in *.
    unfold I32_MIN, I32_MAX in *. lia.
  - rewrite refund_send_window_Val by (done || lia). pose proof (grow_window_ok self n Hs) as Hg.
    destruct (grow_window self n) as [self' o]. eexists. split; [done |]. apply Hg. lia.
  - rewrite apply_window_update_Val by (done || lia). pose proof (grow_window_ok self n Hs) as Hg.
    destruct (grow_window self n) as [self' o]. eexists. split; [done |]. apply Hg. lia.
  - destruct Ho as [Hl _].
    destruct (account_received_bytes_Val self len threshold Hs Hl) as (t & i & -> & Ht & _).
    eexists. split; [done |]. destruct Hs. by constructor.
  - eexists. split; [done |]. by apply set_pending_ok; auto with sozu.
  - destruct Ho as [Hid Hi]. pose proof (queue_window_update_ok self id increment max_pending) as Hq.
    destruct (queue_window_update self id increment max_pending) as [[self' o] | e |] eqn:E.
    + eexists. split; [done |]. by eapply Hq.
    + destruct e.
    + rewrite queue_window_update_Val in E by done. by repeat case_match.
  - rewrite drain_window_updates_Val by done. eexists. split; [done |]. by apply drain_ok.
Qed.

(** No sequence of operations makes the flow control panic: from any
    initial window, with arguments in their types' ranges, every assertion
    holds, the window stays a signed 32-bit value, and every queued update
    keeps an increment between 1 and 2^31-1 under a distinct stream. *)
Theorem flow_never_panics initial_window ops :
  i32_ok initial_window -> Forall op_ok ops ->
  exists self,
    (start ← flow_new initial_window; flow_run start ops) = Val self /\ flow_ok self.
Proof.
  intros Hw Hops.
  assert (forall self, flow_ok self -> exists self', flow_run self ops = Val self' /\ flow_ok self')
    as Hrun.
  { induction Hops as [| op ops Ho Hops IH]; intros self Hs; [by exists self |].
    destruct (flow_step_safe self op Hs Ho) as (self' & E & Hs'). cbn [flow_run]. rewrite E.
    by apply IH. }
  apply Hrun. constructor; cbn; auto with sozu. by split.
Qed.

End DrainSpec.

(** A WINDOW_UPDATE received, or credit refunded, grows the send window
    exactly or not at all: up to 2^31-1 the new window is the old one plus the
    increment and the writer is woken just when the window opens; past it the
    state is untouched and the answer is an overflow. *)
Theorem window_growth_exact self increment :
  flow_ok self -> 1 <= increment <= I32_MAX ->
  exists self' result,
    apply_window_update self increment = Val (self', result) /\
    refund_send_window self increment = Val (self', result) /\
    (window self + increment <= 2 ^ 31 - 1 ->
       self' = set_window self (window self + increment) /\
       exists arm, result = Applied (window self + increment) arm /\
                   (arm = true <-> window self <= 0 < window self + increment)) /\
    (2 ^ 31 - 1 < window self + increment -> self' = self /\ result = Overflow).
Proof.
  intros Hs Hi. exists (grow_window self increment).1, (grow_window self increment).2.
  rewrite <- surjective_pairing.
  rewrite apply_window_update_Val, refund_send_window_Val by (done || lia).
  repeat split; unfold grow_window, I32_MAX in *.
  - by rewrite (proj2 (Z.leb_le _ _)) by lia.
  - rewrite (proj2 (Z.leb_le _ _)) by lia. eexists. split; [done |]. lia.
  - by rewrite (proj2 (Z.leb_gt _ _)) by lia.
  - by rewrite (proj2 (Z.leb_gt _ _)) by lia.
Qed.

(** Queueing credit for a stream loses none of it and touches no other
    stream: the entry of the stream grows by the increment, up to the largest
    increment a frame can carry, unless the queue has no entry for the stream
    and is at its bound; the bound is never exceeded. *)
Theorem queue_window_update_credit self id increment max_pending :
  flow_ok self -> uint_ok 31 id -> u32_ok increment -> 0 < increment ->
  let old := btree_get id (pending_window_updates self) in
  exists self' result,
    queue_window_update self id increment max_pending = Val (self', result) /\
    (forall id', id' <> id ->
       btree_get id' (pending_window_updates self') = btree_get id' (pending_window_updates self)) /\
    btree_get id (pending_window_updates self') =
      (if bool_decide (result = Dropped) then None
       else Some (Z.min (default 0 old + increment) I32_MAX)) /\
    (result = Dropped <->
       old = None /\ (max_pending <= length (pending_window_updates self))%nat) /\
    (length (pending_window_updates self') <=
       Nat.max max_pending (length (pending_window_updates self)))%nat.
Proof.
  intros Hs Hid Hi Hpos old. pose proof (flow_ok_sorted _ Hs) as Hsort.
  rewrite queue_window_update_Val, (proj2 (Z.eqb_neq _ _)) by (done || lia). fold old.
  destruct old as [v |] eqn:Hold; [| destruct (_ <? max_pending)%nat eqn:Hlen];
    (eexists _, _; split; [done |]); cbn [pending_window_updates set_pending].
  - rewrite btree_get_insert, Z.eqb_refl by done. split; [| split; [done |]].
    { intros id' Hne. rewrite btree_get_insert by done. by rewrite (proj2 (Z.eqb_neq _ _)). }
    rewrite length_btree_insert by done. unfold old in Hold. rewrite Hold.
    split; [by split; [| intros []] | lia].
  - rewrite btree_get_insert, Z.eqb_refl by done. split; [| split; [done |]].
    { intros id' Hne. rewrite btree_get_insert by done. by rewrite (proj2 (Z.eqb_neq _ _)). }
    rewrite length_btree_insert by done. unfold old in Hold. rewrite Hold.
    split; [split; [done | intros []; lia] | lia].
  - split; [done |]. split; [done |]. split; [| lia]. split; [| done]. intros _. split; [done | lia].
Qed.

(** ** Witnesses *)

Definition some_flow : H2FlowControl := mkFlow (-5) 100 [(0, 7); (3, 20)].

Lemma some_flow_ok : flow_ok some_flow.
Proof.
  constructor; [by vm_compute | by vm_compute | |].
  - repeat constructor.
  - repeat constructor; by vm_compute.
Qed.

Lemma drain_emits_prefix_witness :
  exists out,
    drain_window_updates_into some_flow (replicate 20 0) =
      Val (set_pending some_flow [(3, 20)], out, (13, 1)) /\
    length out = 13%nat /\
    read_frames 16384 1 (out ++ [9]) = Val ([9], [FrameWindowUpdate 0 7]).
Proof.
  apply (drain_emits_prefix (HC := simple_cookie_factory) (HN := simple_nom) (HK := simple_kawa)
           some_flow (replicate 20 0) 16384 [9]); [apply some_flow_ok | lia].
Defined.

Lemma flow_never_panics_witness :
  exists self,
    (start ← flow_new 65535;
     flow_run start [OpConsume 70000; OpApply 100; OpQueue 3 20 8; OpDrain (replicate 20 0)])
      = Val self /\ flow_ok self.
Proof.
  apply (flow_never_panics (HC := simple_cookie_factory)); [by vm_compute |].
  repeat constructor; by vm_compute.
Defined.

Lemma window_growth_exact_witness :
  exists self' result,
    apply_window_update some_flow 10 = Val (self', result) /\
    refund_send_window some_flow 10 = Val (self', result) /\
    (-5 + 10 <= 2 ^ 31 - 1 ->
       self' = set_window some_flow 5 /\
       exists arm, result = Applied 5 arm /\ (arm = true <-> -5 <= 0 < 5)) /\
    (2 ^ 31 - 1 < -5 + 10 -> self' = some_flow /\ result = Overflow).
Proof. apply (window_growth_exact some_flow 10 some_flow_ok). by vm_compute. Defined.

Lemma queue_window_update_credit_witness :
  exists self' result,
    queue_window_update some_flow 3 5 8 = Val (self', result) /\
    (forall id', id' <> 3 ->
       btree_get id' (pending_window_updates self') = btree_get id' [(0, 7); (3, 20)]) /\
    btree_get 3 (pending_window_updates self') =
      (if bool_decide (result = Dropped) then None else Some 25) /\
    (result = Dropped <-> Some 20 = None /\ (8 <= 2)%nat) /\
    (length (pending_window_updates self') <= 8)%nat.
Proof. by apply (queue_window_update_credit some_flow 3 5 8 some_flow_ok). Defined.
