(* ===== verification/H2ControlTx.v ===== *)
(** * The queue of emitted RST_STREAM frames

    [lib/src/protocol/mux/h2_control_tx.rs]: the resets a connection has
    decided on and not yet written, bounded per insertion and deduplicated by
    the set of the streams already reset, which the stream table owns and each
    call receives. *)

From Stdlib Require Import ZifyBool.
From S2P Require Import Prelude Readiness H2Parser H2Serializer.

Definition MIN_PENDING_RST_STREAMS : Z := 4000.

Definition pending_rst_bound (max_concurrent_streams : Z) : Z :=
  Z.max MIN_PENDING_RST_STREAMS (Z.min USIZE_MAX (max_concurrent_streams * 4)).

Module EnqueueRstOutcome.
Inductive t : Type :=
| Queued
| Deduped
| Dropped.

Global Instance eq_dec : EqDecision t.
Proof. solve_decision. Defined.
End EnqueueRstOutcome.

Record H2ControlTx := mkControlTx {
  pending_rst_streams : list (Z * H2Error);
  total_rst_streams_queued : Z;
  max_pending : Z;
  overflowed : bool;
}.

Definition pending_count (self : H2ControlTx) : Z := Z.of_nat (length (pending_rst_streams self)).

Definition with_cap (max_pending : Z) : H2ControlTx := mkControlTx [] 0 max_pending false.

Definition control_new (max_concurrent_streams : Z) : H2ControlTx :=
  with_cap (pending_rst_bound max_concurrent_streams).

(** The assertions of [check_invariants]. *)
Definition check_control (self : H2ControlTx) : checked unit :=
  _ ← debug_assert (pending_count self <=? total_rst_streams_queued self);
  _ ← debug_assert (pending_count self <=? max_pending self + 1);
  debug_assert (negb (overflowed self) || (max_pending self <=? total_rst_streams_queued self)).

Definition set_overflowed (self : H2ControlTx) : H2ControlTx :=
  mkControlTx (pending_rst_streams self) (total_rst_streams_queued self) (max_pending self) true.

(** Pushes the frame; the counter is a [usize], whose increment overflows. *)
Definition push_rst (self : H2ControlTx) (wire_stream_id : Z) (error : H2Error)
    : checked H2ControlTx :=
  _ ← debug_assert (total_rst_streams_queued self <? USIZE_MAX);
  Val (mkControlTx (pending_rst_streams self ++ [(wire_stream_id, error)])
         (total_rst_streams_queued self + 1) (max_pending self) (overflowed self)).

Definition enqueue_rst (self : H2ControlTx) (rst_sent : option (gset Z)) (readiness : Readiness)
    (wire_stream_id : Z) (error : H2Error)
    : checked (H2ControlTx * option (gset Z) * Readiness * EnqueueRstOutcome.t) :=
  let pending_before := pending_count self in
  let total_before := total_rst_streams_queued self in
  if max_pending self <=? pending_before then
    let self := set_overflowed self in
    _ ← debug_assert (pending_count self =? pending_before);
    _ ← check_control self;
    Val (self, rst_sent, readiness, EnqueueRstOutcome.Dropped)
  else
    let present := match rst_sent with
                   | Some sent => bool_decide (wire_stream_id ∈ sent)
                   | None => false
                   end in
    let rst_sent := (fun sent => {[wire_stream_id]} ∪ sent) <$> rst_sent in
    if present then
      _ ← debug_assert (match rst_sent with
                        | Some sent => bool_decide (wire_stream_id ∈ sent)
                        | None => true
                        end);
      _ ← debug_assert (pending_count self =? pending_before);
      _ ← debug_assert (total_rst_streams_queued self =? total_before);
      _ ← check_control self;
      Val (self, rst_sent, readiness, EnqueueRstOutcome.Deduped)
    else
      self ← push_rst self wire_stream_id error;
      readiness ← arm_writable readiness;
      _ ← debug_assert (pending_count self =? pending_before + 1);
      _ ← debug_assert (total_rst_streams_queued self =? total_before + 1);
      _ ← debug_assert (bool_decide (fst <$> last (pending_rst_streams self) = Some wire_stream_id));
      _ ← check_control self;
      Val (self, rst_sent, readiness, EnqueueRstOutcome.Queued).

Section Drain.

Context `{CookieFactory}.

(** The loop over the queue: what is written, its length, and how many frames. *)
Fixpoint drain_rst_loop (buf : list Z) (queue : list (Z * H2Error))
    (out : list Z) (offset : Z) (written_count : nat) : checked (list Z * Z * nat) :=
  match queue with
  | [] => Val (out, offset, written_count)
  | (stream_id, error) :: queue =>
      let frame_size := Z.of_nat FRAME_HEADER_SIZE + RST_STREAM_PAYLOAD_SIZE in
      if Z.of_nat (length buf) <? offset + frame_size then Val (out, offset, written_count)
      else
        match gen_rst_stream (drop (Z.to_nat offset) buf) stream_id error with
        | Val (frame, _, _) =>
            drain_rst_loop buf queue (out ++ frame) (offset + frame_size) (S written_count)
        | Fails _ => Val (out, offset, written_count)
        | Panic => Panic
        end
  end.

(** [drain(..written_count)] panics past the end of the queue. *)
Definition drain_rst_streams_into (self : H2ControlTx) (buf : list Z)
    : checked (H2ControlTx * list Z * (Z * Z)) :=
  let pending_before := pending_count self in
  '(out, offset, written_count) ← drain_rst_loop buf (pending_rst_streams self) [] 0 0;
  _ ← debug_assert (written_count <=? length (pending_rst_streams self))%nat;
  let self := mkControlTx (drop written_count (pending_rst_streams self))
                (total_rst_streams_queued self) (max_pending self) (overflowed self) in
  _ ← debug_assert (pending_count self =? pending_before - Z.of_nat written_count);
  _ ← debug_assert (offset <=? Z.of_nat (length buf));
  _ ← debug_assert (eqb (offset =? 0) (written_count =? 0)%nat);
  _ ← check_control self;
  Val (self, out, (offset, Z.of_nat written_count)).

End Drain.

Definition has_pending (self : H2ControlTx) : bool :=
  negb (bool_decide (pending_rst_streams self = [])).

Definition clear_pending (self : H2ControlTx) : checked H2ControlTx :=
  let total_before := total_rst_streams_queued self in
  let self := mkControlTx [] (total_rst_streams_queued self) (max_pending self) (overflowed self) in
  _ ← debug_assert (total_rst_streams_queued self =? total_before);
  _ ← check_control self;
  Val self.

(** ** The invariant *)

Record control_ok (self : H2ControlTx) : Prop := {
  control_ok_total : pending_count self <= total_rst_streams_queued self <= USIZE_MAX;
  control_ok_bound : pending_count self <= max_pending self;
  control_ok_overflow : overflowed self = true -> max_pending self <= total_rst_streams_queued self;
}.

Lemma check_control_Val self : control_ok self -> check_control self = Val tt.
Proof.
  intros [Ht Hb Ho]. unfold check_control. run_assert by lia. run_assert by lia.
  apply debug_assert_true. destruct (overflowed self); [cbn; by apply Z.leb_le, Ho | done].
Qed.

Lemma with_cap_ok cap : 0 <= cap -> control_ok (with_cap cap).
Proof. intros Hc. constructor; cbn; unfold USIZE_MAX, pending_count; cbn; lia || done. Qed.

(** The three outcomes of [enqueue_rst]. *)
Lemma enqueue_rst_cases self rst_sent readiness id error :
  control_ok self -> readiness_ok readiness -> total_rst_streams_queued self < USIZE_MAX ->
  exists self' rst_sent' readiness' result,
    enqueue_rst self rst_sent readiness id error = Val (self', rst_sent', readiness', result) /\
    control_ok self' /\ readiness_ok readiness' /\
    match result with
    | EnqueueRstOutcome.Dropped =>
        pending_count self = max_pending self /\ self' = set_overflowed self /\
        rst_sent' = rst_sent /\ readiness' = readiness
    | EnqueueRstOutcome.Deduped =>
        pending_count self < max_pending self /\ self' = self /\
        rst_sent' = rst_sent /\ readiness' = readiness /\
        exists sent, rst_sent = Some sent /\ id ∈ sent
    | EnqueueRstOutcome.Queued =>
        pending_count self < max_pending self /\
        self' = mkControlTx (pending_rst_streams self ++ [(id, error)])
                  (total_rst_streams_queued self + 1) (max_pending self) (overflowed self) /\
        rst_sent' = (fun sent => {[id]} ∪ sent) <$> rst_sent /\
        arm_writable readiness = Val readiness' /\
        (forall sent, rst_sent = Some sent -> id ∉ sent)
    end.
Proof.
  intros Hs Hr Ht. pose proof Hs as [Hs1 Hs2 Hs3]. unfold enqueue_rst.
  destruct (Z.leb_spec (max_pending self) (pending_count self)) as [Hfull | Hroom].
  - assert (control_ok (set_overflowed self)) as Ho by (constructor; cbn; unfold pending_count in *; cbn; lia).
    eexists _, _, _, EnqueueRstOutcome.Dropped. split.
    + run_assert by (unfold pending_count; cbn; lia). by rewrite check_control_Val.
    + split; [done |]. split; [done |]. split; [lia | done].
  - destruct (match rst_sent with Some sent => bool_decide (id ∈ sent) | None => false end) eqn:Hin.
    + destruct rst_sent as [sent |]; [| done]. apply bool_decide_eq_true in Hin.
      eexists _, _, _, EnqueueRstOutcome.Deduped. split.
      * run_assert by (cbn; by apply bool_decide_true, elem_of_union_l, elem_of_singleton). do 2 run_assert by lia.
        by rewrite check_control_Val.
      * cbn. rewrite (subseteq_union_1_L {[id]} sent) by by apply singleton_subseteq_l.
        split; [done |]. split; [done |]. repeat split; try done. by eexists.
    + destruct (readiness_ops_val _ Hr) as (_ & _ & _ & _ & Harm).
      assert (control_ok (mkControlTx (pending_rst_streams self ++ [(id, error)])
                (total_rst_streams_queued self + 1) (max_pending self) (overflowed self))) as Ho.
      { constructor; cbn; unfold pending_count in *; cbn; rewrite ?length_app; cbn; lia. }
      eexists _, _, _, EnqueueRstOutcome.Queued. split.
      * unfold push_rst. run_assert by lia. rewrite Harm. cbn [mbind outcome_bind].
        run_assert by (unfold pending_count; cbn; rewrite length_app; cbn; lia).
        run_assert by (cbn; lia). run_assert by (apply bool_decide_true; cbn; by rewrite last_snoc).
        by rewrite check_control_Val.
      * split; [done |]. split; [by eapply arm_writable_ok |]. repeat split; try done.
        intros sent ->. by apply bool_decide_eq_false in Hin.
Qed.

(** ** The drain *)

Section DrainSpec.

Context `{HC : CookieFactory} `{!CookieFactoryLaws} `{HN : Nom} `{!NomLaws} `{HK : Kawa}.

Definition resets_octets (queue : list (Z * H2Error)) : list Z :=
  queue ≫= fun e => rst_stream_octets e.1 e.2.

Lemma length_resets_octets queue : length (resets_octets queue) = (13 * length queue)%nat.
Proof.
  unfold resets_octets. induction queue as [| e queue IH]; [done |].
  rewrite bind_cons, length_app, IH. cbn [length].
  change (length (rst_stream_octets e.1 e.2)) with 13%nat. lia.
Qed.

Lemma drain_rst_loop_Val buf queue out (offset written : nat) :
  (offset <= length buf)%nat ->
  let n := frames_that_fit (length queue) (length buf - offset) in
  drain_rst_loop buf queue out (Z.of_nat offset) written =
    Val (out ++ resets_octets (take n queue), Z.of_nat (offset + 13 * n), (written + n)%nat).
Proof.
  revert out offset written.
  induction queue as [| [id error] queue IH]; intros out offset written Ho n.
  - unfold n, frames_that_fit. cbn. rewrite app_nil_r. do 3 f_equal; lia.
  - cbn [drain_rst_loop]. change (Z.of_nat FRAME_HEADER_SIZE + RST_STREAM_PAYLOAD_SIZE) with 13.
    destruct (Z.ltb_spec (Z.of_nat (length buf)) (Z.of_nat offset + 13)) as [Hs | Hl].
    + assert (n = 0%nat) as -> by (apply frames_that_fit_none; lia).
      cbn. rewrite app_nil_r. do 3 f_equal; lia.
    + rewrite Nat2Z.id.
      destruct (gen_rst_stream_cases (drop offset buf) id error) as [[_ ->] | [Hs _]];
        [| rewrite length_drop in Hs; lia].
      assert (n = S (frames_that_fit (length queue) (length buf - (offset + 13)))) as ->.
      { unfold n. cbn [length]. rewrite frames_that_fit_step by lia. do 2 f_equal. lia. }
      replace (Z.of_nat offset + 13) with (Z.of_nat (offset + 13)) by lia.
      rewrite IH by lia. cbn [take]. unfold resets_octets. rewrite bind_cons. cbn [fst snd].
      rewrite <- app_assoc. do 2 f_equal; [| lia]. f_equal. lia.
Qed.

Lemma clear_control_ok self :
  control_ok self ->
  control_ok (mkControlTx [] (total_rst_streams_queued self) (max_pending self) (overflowed self)).
Proof.
  intros [Ht Hb Ho]. constructor; cbn; unfold pending_count in *; cbn; try done; lia.
Qed.

Lemma clear_pending_Val self :
  control_ok self ->
  clear_pending self =
    Val (mkControlTx [] (total_rst_streams_queued self) (max_pending self) (overflowed self)).
Proof.
  intros Hs. unfold clear_pending. run_assert by (cbn; lia).
  by rewrite check_control_Val by by apply clear_control_ok.
Qed.

Lemma drain_control_ok self n :
  control_ok self ->
  control_ok (mkControlTx (drop n (pending_rst_streams self)) (total_rst_streams_queued self)
                (max_pending self) (overflowed self)).
Proof.
  intros [Ht Hb Ho]. constructor; cbn; unfold pending_count in *; cbn; try done;
    rewrite length_drop; lia.
Qed.

Lemma drain_rst_streams_Val self buf :
  control_ok self ->
  let queue := pending_rst_streams self in
  let n := Nat.min (length queue) (length buf / 13) in
  drain_rst_streams_into self buf =
    Val (mkControlTx (drop n queue) (total_rst_streams_queued self) (max_pending self)
           (overflowed self), resets_octets (take n queue), (13 * Z.of_nat n, Z.of_nat n)).
Proof.
  intros Hs queue n. assert (n <= length queue)%nat as Hn' by lia.
  unfold drain_rst_streams_into. pose proof (drain_rst_loop_Val buf queue [] 0 0) as Hd.
  cbn zeta in Hd. rewrite Nat.sub_0_r in Hd. change (Z.of_nat 0) with 0 in Hd.
  fold queue. rewrite Hd by lia. cbn [mbind outcome_bind app Nat.add].
  change (frames_that_fit (length queue) (length buf)) with n.
  assert (13 * n <= length buf)%nat.
  { pose proof (Nat.Div0.mul_div_le (length buf) 13). lia. }
  run_assert by lia.
  run_assert by (unfold pending_count; cbn; rewrite length_drop; fold queue; lia).
  run_assert by lia.
  run_assert by (apply eqb_true_iff; destruct n; cbn; lia).
  rewrite check_control_Val by by apply drain_control_ok.
  by replace (Z.of_nat (13 * n)) with (13 * Z.of_nat n) by lia.
Qed.

(** The drain writes the oldest resets first, whole frames only, and
    removes exactly those it wrote: a peer reading the octets gets their
    RST_STREAM frames in order; the others stay queued, and no assertion
    fails. *)
Theorem drain_rst_emits_prefix self buf max_frame_size rest :
  control_ok self -> 4 <= max_frame_size ->
  Forall (fun e => uint_ok 31 e.1 /\ e.1 <> 0) (pending_rst_streams self) ->
  let queue := pending_rst_streams self in
  let n := Nat.min (length queue) (length buf / 13) in
  exists out,
    drain_rst_streams_into self buf =
      Val (mkControlTx (drop n queue) (total_rst_streams_queued self) (max_pending self)
             (overflowed self), out, (13 * Z.of_nat n, Z.of_nat n)) /\
    length out = (13 * n)%nat /\
    read_frames max_frame_size n (out ++ rest) =
      Val (rest, (fun '(id, error) => FrameRstStream id (H2Error_code error)) <$> take n queue).
Proof.
  intros Hs Hmax Hids queue n. exists (resets_octets (take n queue)).
  assert (length (take n queue) = n) as Hn by (rewrite length_take; lia).
  split; [| split; [by rewrite length_resets_octets, Hn |]].
  - by apply drain_rst_streams_Val.
  - rewrite <- Hn at 1. apply (read_frames_octets max_frame_size
      (fun e : Z * H2Error => rst_stream_octets e.1 e.2)). apply Forall_take.
    eapply Forall_impl; [exact Hids |]. intros [id error] [Hid Hnz] tail. cbn in Hid, Hnz |- *.
    pose proof (rst_stream_reads id error max_frame_size Hmax) as Hr.
    rewrite land_id_small in Hr by done. by apply Hr.
Qed.

(** ** Reachable queues

    A connection that tracks its resets in [sent]: what was written so far, the
    queue, the set and the readiness. *)
Inductive control_reach (cap : Z)
    : list (Z * H2Error) -> H2ControlTx -> gset Z -> Readiness -> Prop :=
| reach_new readiness : readiness_ok readiness -> control_reach cap [] (with_cap cap) ∅ readiness
| reach_enqueue written self sent readiness id error self' sent' readiness' result :
    control_reach cap written self sent readiness ->
    total_rst_streams_queued self < USIZE_MAX ->
    enqueue_rst self (Some sent) readiness id error = Val (self', Some sent', readiness', result) ->
    control_reach cap written self' sent' readiness'
| reach_drain written self sent readiness buf self' out offset n :
    control_reach cap written self sent readiness ->
    drain_rst_streams_into self buf = Val (self', out, (offset, n)) ->
    control_reach cap (written ++ take (Z.to_nat n) (pending_rst_streams self)) self' sent readiness
| reach_clear written self sent readiness self' :
    control_reach cap written self sent readiness ->
    clear_pending self = Val self' -> control_reach cap written self' sent readiness.

Definition sent_ok (written : list (Z * H2Error)) (self : H2ControlTx) (sent : gset Z) : Prop :=
  NoDup (written ++ pending_rst_streams self).*1 /\
  Forall (fun id => id ∈ sent) (written ++ pending_rst_streams self).*1.

Lemma sent_ok_push written self self' sent id error :
  sent_ok written self sent -> id ∉ sent ->
  pending_rst_streams self' = pending_rst_streams self ++ [(id, error)] ->
  sent_ok written self' ({[id]} ∪ sent).
Proof.
  intros [Hnd Hin] Hid E. unfold sent_ok. rewrite E, app_assoc, fmap_app. cbn. split.
  - apply NoDup_snoc; [done |]. intros Hx. rewrite Forall_forall in Hin. by apply Hin in Hx.
  - apply Forall_app. split.
    + eapply Forall_impl; [exact Hin |]. intros x Hx. by apply elem_of_union_r.
    + repeat constructor. by apply elem_of_union_l, elem_of_singleton.
Qed.

Lemma control_reach_ok cap written self sent readiness :
  0 <= cap -> control_reach cap written self sent readiness ->
  control_ok self /\ readiness_ok readiness /\ max_pending self = cap /\ sent_ok written self sent.
Proof.
  intros Hcap. induction 1 as [r Hr | written self sent r id error self' sent' r' result Hreach IH Ht E
    | written self sent r buf self' out offset n Hreach IH E | written self sent r self' Hreach IH E].
  - split; [by apply with_cap_ok |]. split; [done |]. split; [done |]. split; constructor.
  - destruct IH as (Hs & Hr & Hm & Hsent).
    destruct (enqueue_rst_cases self (Some sent) r id error Hs Hr Ht)
      as (self2 & sent2 & r2 & result2 & E2 & Hs2 & Hr2 & Hcase).
    rewrite E in E2. injection E2 as <- <- <- <-.
    destruct result.
    + destruct Hcase as (_ & -> & [= ->] & _ & Hnin). split; [done |]. split; [done |].
      split; [done |]. by eapply sent_ok_push; eauto.
    + by destruct Hcase as (_ & -> & [= ->] & -> & _).
    + by destruct Hcase as (_ & -> & [= ->] & ->).
  - destruct IH as (Hs & Hr & Hm & Hsent). rewrite drain_rst_streams_Val in E by done.
    injection E as <- _ _ <-. split; [by apply drain_control_ok |]. split; [done |].
    split; [done |].
    unfold sent_ok in *. cbn. by rewrite Nat2Z.id, <- app_assoc, take_drop.
  - destruct IH as (Hs & Hr & Hm & [Hnd Hin]).
    rewrite clear_pending_Val in E by done. injection E as <-.
    split; [by apply clear_control_ok |]. split; [done |]. split; [done |].
    unfold sent_ok. cbn. rewrite app_nil_r. rewrite fmap_app in Hnd, Hin.
    apply NoDup_app in Hnd as [Hnd _]. by apply Forall_app in Hin as [Hin _].
Qed.

(** Every reachable queue stays within its bound and never resets a
    stream twice: among the frames written and those still queued no stream
    appears twice, whatever the interleaving of insertions, drains and
    clears. *)
Theorem control_reach_bounded cap written self sent readiness :
  0 <= cap -> control_reach cap written self sent readiness ->
  pending_count self <= cap /\
  NoDup (written ++ pending_rst_streams self).*1 /\
  (overflowed self = true -> cap <= total_rst_streams_queued self).
Proof.
  intros Hcap Hr. destruct (control_reach_ok _ _ _ _ _ Hcap Hr) as (Hs & _ & <- & [Hnd _]).
  destruct Hs. done.
Qed.

End DrainSpec.

(** Queueing a reset, in every case: at the bound it is refused, the
    overflow is recorded and the set of sent resets is left alone, so a later
    attempt is not mistaken for a duplicate; a stream already reset changes
    nothing; otherwise the frame joins the end of the queue, its stream the
    set, and the connection is woken to write. No assertion fails. *)
Theorem enqueue_rst_spec self sent readiness id error :
  control_ok self -> readiness_ok readiness -> total_rst_streams_queued self < USIZE_MAX ->
  exists self' sent' readiness' result,
    enqueue_rst self (Some sent) readiness id error = Val (self', Some sent', readiness', result) /\
    (pending_count self = max_pending self ->
       result = EnqueueRstOutcome.Dropped /\ self' = set_overflowed self /\ sent' = sent /\
       readiness' = readiness) /\
    (pending_count self < max_pending self -> id ∈ sent ->
       result = EnqueueRstOutcome.Deduped /\ self' = self /\ sent' = sent /\
       readiness' = readiness) /\
    (pending_count self < max_pending self -> id ∉ sent ->
       result = EnqueueRstOutcome.Queued /\
       pending_rst_streams self' = pending_rst_streams self ++ [(id, error)] /\
       sent' = {[id]} ∪ sent /\ arm_writable readiness = Val readiness').
Proof.
  intros Hs Hr Ht.
  destruct (enqueue_rst_cases self (Some sent) readiness id error Hs Hr Ht)
    as (self' & sent' & r' & result & -> & _ & _ & Hcase).
  destruct result; cbn in Hcase.
  - destruct Hcase as (Hroom & -> & -> & Ha & Hnin). specialize (Hnin _ eq_refl).
    eexists _, _, _, _. split; [done |]. repeat split; intros; try done; lia.
  - destruct Hcase as (Hroom & -> & -> & -> & sent2 & [= <-] & Hin).
    eexists _, _, _, _. split; [done |]. repeat split; intros; try done; lia.
  - destruct Hcase as (Hfull & -> & -> & ->).
    eexists _, _, _, _. split; [done |]. repeat split; intros; try done; lia.
Qed.

(** ** Witnesses *)

Definition some_control : H2ControlTx := mkControlTx [(1, Cancel); (3, RefusedStream)] 5 4 false.

Lemma some_control_ok : control_ok some_control.
Proof. constructor; [by vm_compute | by vm_compute | done]. Qed.

Lemma drain_rst_emits_prefix_witness :
  exists out,
    drain_rst_streams_into some_control (replicate 25 0) =
      Val (mkControlTx [(3, RefusedStream)] 5 4 false, out, (13, 1)) /\
    length out = 13%nat /\
    read_frames 16384 1 (out ++ [9]) = Val ([9], [FrameRstStream 1 8]).
Proof.
  apply (drain_rst_emits_prefix (HC := simple_cookie_factory) (HN := simple_nom)
    (HK := simple_kawa) some_control (replicate 25 0) 16384 [9] some_control_ok); [lia |].
  repeat constructor; by vm_compute.
Defined.

Lemma control_reach_bounded_witness :
  pending_count (mkControlTx [(1, Cancel)] 1 2 false) <= 2 /\
  NoDup ([] ++ [(1, Cancel)]).*1 /\
  (overflowed (mkControlTx [(1, Cancel)] 1 2 false) = true -> 2 <= 1).
Proof.
  apply (control_reach_bounded (HC := simple_cookie_factory) 2 []
           (mkControlTx [(1, Cancel)] 1 2 false) ({[1]} ∪ ∅)
           (mkReadiness Ready.WRITABLE Ready.WRITABLE)); [lia |].
  apply (reach_enqueue 2 [] (with_cap 2) ∅ readiness_new 1 Cancel _ _ _ EnqueueRstOutcome.Queued);
    [by apply reach_new | by vm_compute | by vm_compute].
Defined.

Lemma enqueue_rst_spec_witness :
  exists self' sent' readiness' result,
    enqueue_rst some_control (Some {[3]}) readiness_new 7 Cancel =
      Val (self', Some sent', readiness', result) /\
    (2 = 4 ->
       result = EnqueueRstOutcome.Dropped /\ self' = set_overflowed some_control /\
       sent' = {[3]} /\ readiness' = readiness_new) /\
    (2 < 4 -> 7 ∈ ({[3]} : gset Z) ->
       result = EnqueueRstOutcome.Deduped /\ self' = some_control /\ sent' = {[3]} /\
       readiness' = readiness_new) /\
    (2 < 4 -> 7 ∉ ({[3]} : gset Z) ->
       result = EnqueueRstOutcome.Queued /\
       pending_rst_streams self' = [(1, Cancel); (3, RefusedStream); (7, Cancel)] /\
       sent' = {[7]} ∪ {[3]} /\ arm_writable readiness_new = Val readiness').
Proof.
  apply (enqueue_rst_spec some_control {[3]} readiness_new 7 Cancel some_control_ok);
    by vm_compute.
Defined.
