(* ===== verification/H2HeaderReassembly.v ===== *)
(** * Reassembly of a field block

    [lib/src/protocol/mux/h2_header_reassembly.rs]: the octets of a HEADERS
    frame and of the CONTINUATION frames that follow it, until the block is
    decoded or abandoned. *)

From S2P Require Import Prelude HpackTable HpackDecoder HpackEncoder HpackSync.

Record HeaderBlockAccumulator := mkAccumulator {
  acc_bytes : list Z;
  in_progress : bool;
}.

Definition accumulator_new : HeaderBlockAccumulator := mkAccumulator [] false.

Definition is_in_progress (self : HeaderBlockAccumulator) : bool := in_progress self.

(** The assertion of [check_invariants]. *)
Definition check_accumulator (self : HeaderBlockAccumulator) : checked unit :=
  debug_assert (in_progress self || bool_decide (acc_bytes self = [])).

Definition acc_begin (self : HeaderBlockAccumulator) (fragment : list Z)
    : checked HeaderBlockAccumulator :=
  _ ← debug_assert (negb (in_progress self));
  let self := mkAccumulator fragment true in
  _ ← check_accumulator self;
  Val self.

Definition acc_append (self : HeaderBlockAccumulator) (fragment : list Z)
    : checked HeaderBlockAccumulator :=
  _ ← debug_assert (in_progress self);
  let self := mkAccumulator (acc_bytes self ++ fragment) (in_progress self) in
  _ ← check_accumulator self;
  Val self.

Definition acc_data (self : HeaderBlockAccumulator) : list Z := acc_bytes self.

(** The bytes taken, and the accumulator left behind. *)
Definition acc_finish (self : HeaderBlockAccumulator)
    : checked (HeaderBlockAccumulator * list Z) :=
  _ ← debug_assert (in_progress self);
  Val (mkAccumulator [] false, acc_bytes self).

(** A block in the order of its frames: the HEADERS fragment, then every
    CONTINUATION. *)
Fixpoint append_all (self : HeaderBlockAccumulator) (fragments : list (list Z))
    : checked HeaderBlockAccumulator :=
  match fragments with
  | [] => Val self
  | f :: fragments => self ← acc_append self f; append_all self fragments
  end.

Definition reassemble (self : HeaderBlockAccumulator) (first : list Z) (others : list (list Z))
    : checked (HeaderBlockAccumulator * list Z) :=
  self ← acc_begin self first;
  self ← append_all self others;
  acc_finish self.

Lemma append_all_Val bytes fragments :
  append_all (mkAccumulator bytes true) fragments =
    Val (mkAccumulator (bytes ++ concat fragments) true).
Proof.
  revert bytes. induction fragments as [| f fragments IH]; intros bytes; cbn.
  - by rewrite app_nil_r.
  - by rewrite IH, app_assoc.
Qed.

Lemma reassemble_Val first others :
  reassemble accumulator_new first others = Val (accumulator_new, first ++ concat others).
Proof. unfold reassemble. cbn. by rewrite append_all_Val. Qed.

(** C32. Fragmentation is transparent: a field block, cut in any way between
    its HEADERS frame and any number of CONTINUATION frames, is put back
    together without a panic, leaves the accumulator idle for the next block,
    and decodes to the fields the encoder was given, the two HPACK tables
    still in step. *)
Theorem fragmented_block_decodes (rs : list request) te d first others :
  in_sync te (table d) -> max_size te < 2 ^ 32 -> Forall request_fits rs ->
  first ++ concat others = (encode_requests rs te []).2 ->
  exists block d',
    reassemble accumulator_new first others = Val (accumulator_new, block) /\
    decode_with_cb d block = (d', fst <$> (fst <$> rs), Ok tt) /\
    in_sync (encode_requests rs te []).1 (table d').
Proof.
  intros Hs Hm Hf Hcut. destruct (decode_encode_requests_eq rs te d Hs Hm Hf) as (d' & Hd & Hs').
  exists (first ++ concat others), d'. split; [apply reassemble_Val |]. by rewrite Hcut.
Qed.

Lemma fragmented_block_decodes_witness :
  exists block d',
    reassemble accumulator_new [130] [[]; [131; 132]] = Val (accumulator_new, block) /\
    decode_with_cb decoder_new block =
      (d', [(bstr ":method", bstr "GET"); (bstr ":method", bstr "POST");
            (bstr ":path", bstr "/")], Ok tt) /\
    in_sync (encode_requests
      [((bstr ":method", bstr "GET"), Proxy, false); ((bstr ":method", bstr "POST"), Proxy, false);
       ((bstr ":path", bstr "/"), Proxy, false)] (table_new 4096) []).1 (table d').
Proof.
  apply (fragmented_block_decodes
    [((bstr ":method", bstr "GET"), Proxy, false); ((bstr ":method", bstr "POST"), Proxy, false);
     ((bstr ":path", bstr "/"), Proxy, false)] (table_new 4096) decoder_new [130] [[]; [131; 132]]).
  - split_and!; try done; by apply table_ok_new.
  - by vm_compute.
  - repeat constructor; vm_compute; congruence.
  - by vm_compute.
Defined.
