(* ===== verification/H2StreamTable.v ===== *)
(** * The stream table

    [lib/src/protocol/mux/h2_stream_table.rs]: the map from wire stream
    identifiers to slots, with the caches that must follow it: parked reads and
    writes, the resets sent and recently sent, the allowances of a reset
    stream, and the liveness and stall timers from which the idle reaper picks
    its victims. *)

From Stdlib Require Import ZifyBool Sorting.Sorted.
From S2P Require Import Prelude BTreeMap.

Definition RECENTLY_RESET_CAPACITY : nat := 256.
Definition RESET_STREAM_HEADER_BLOCKS : Z := 2.
Definition RESET_ALLOWANCES_CAPACITY : nat := 2 * RECENTLY_RESET_CAPACITY.

(** [h2.rs], [H2StreamId]. *)
Inductive H2StreamId : Type :=
| StreamZero
| StreamOther (id gid : Z).

(** Instants and durations are counts of nanoseconds. *)
Record H2StreamTable := mkStreamTable {
  streams : list (Z * Z);
  highest_peer_stream_id : Z;
  expect_read : option (H2StreamId * Z);
  expect_write : option H2StreamId;
  rst_sent : gset Z;
  recently_reset : list Z;
  recently_reset_ids : gset Z;
  reset_data_allowance : gmap Z Z;
  reset_header_blocks : gmap Z Z;
  stream_last_activity_at : list (Z * Z);
  stream_fc_stalled_since : list (Z * Z);
  stream_fc_stalled_progress : list (Z * Z);
}.

Inductive RemoveOutcome : Type :=
| Removed
| NotPresent.

(** The assertions of [check_invariants]. *)
Definition check_table (t : H2StreamTable) : checked unit :=
  _ ← debug_assert ((length (recently_reset t) <=? RECENTLY_RESET_CAPACITY)%nat &&
                    (size (recently_reset_ids t) =? length (recently_reset t))%nat);
  _ ← debug_assert ((size (reset_data_allowance t) <=? RESET_ALLOWANCES_CAPACITY)%nat &&
                    (size (reset_header_blocks t) <=? RESET_ALLOWANCES_CAPACITY)%nat);
  debug_assert (bool_decide ((stream_fc_stalled_since t).*1 = (stream_fc_stalled_progress t).*1)).

Definition stream_table_new (expect_read : option (H2StreamId * Z)) : checked H2StreamTable :=
  let table := mkStreamTable [] 0 expect_read None ∅ [] ∅ ∅ ∅ [] [] [] in
  _ ← check_table table;
  Val table.

Definition stream_get (t : H2StreamTable) (stream_id : Z) : option Z :=
  btree_get stream_id (streams t).

Definition register (t : H2StreamTable) (stream_id gid now : Z) : checked H2StreamTable :=
  let t := mkStreamTable (btree_insert stream_id gid (streams t)) (highest_peer_stream_id t)
             (expect_read t) (expect_write t) (rst_sent t) (recently_reset t)
             (recently_reset_ids t) (reset_data_allowance t) (reset_header_blocks t)
             (btree_insert stream_id now (stream_last_activity_at t))
             (stream_fc_stalled_since t) (stream_fc_stalled_progress t) in
  _ ← debug_assert (bool_decide (btree_get stream_id (streams t) = Some gid));
  _ ← debug_assert (btree_mem stream_id (stream_last_activity_at t));
  _ ← check_table t;
  Val t.

(** The ring: a no-op for an identifier already in it, else the oldest one
    leaves, with its allowances, when the ring is full. *)
Definition remember_reset (t : H2StreamTable) (stream_id : Z) : H2StreamTable :=
  if bool_decide (stream_id ∈ recently_reset_ids t) then t
  else
    let ids := {[stream_id]} ∪ recently_reset_ids t in
    let '(ring, ids, data, blocks) :=
      match (length (recently_reset t) =? RECENTLY_RESET_CAPACITY)%nat, recently_reset t with
      | true, oldest :: ring =>
          (ring, ids ∖ {[oldest]}, delete oldest (reset_data_allowance t),
           delete oldest (reset_header_blocks t))
      | _, ring => (ring, ids, reset_data_allowance t, reset_header_blocks t)
      end in
    mkStreamTable (streams t) (highest_peer_stream_id t) (expect_read t) (expect_write t)
      (rst_sent t) (ring ++ [stream_id]) ids data blocks (stream_last_activity_at t)
      (stream_fc_stalled_since t) (stream_fc_stalled_progress t).

(** A parked read or write that refers to the slot [gid]. *)
Definition refers_to (gid : Z) (s : H2StreamId) : bool :=
  match s with StreamOther _ g => g =? gid | StreamZero => false end.

Definition table_remove (t : H2StreamTable) (stream_id global_stream_id : Z)
    : checked (H2StreamTable * RemoveOutcome) :=
  let result := if btree_mem stream_id (streams t) then Removed else NotPresent in
  let was_sent := bool_decide (stream_id ∈ rst_sent t) in
  let t := mkStreamTable (btree_remove stream_id (streams t)) (highest_peer_stream_id t)
             (expect_read t) (expect_write t) (rst_sent t ∖ {[stream_id]}) (recently_reset t)
             (recently_reset_ids t) (reset_data_allowance t) (reset_header_blocks t)
             (stream_last_activity_at t) (stream_fc_stalled_since t)
             (stream_fc_stalled_progress t) in
  let t := if was_sent then remember_reset t stream_id else t in
  let t := mkStreamTable (streams t) (highest_peer_stream_id t)
             (match expect_read t with
              | Some (s, n) => if refers_to global_stream_id s then None else Some (s, n)
              | None => None
              end)
             (match expect_write t with
              | Some s => if refers_to global_stream_id s then None else Some s
              | None => None
              end)
             (rst_sent t) (recently_reset t) (recently_reset_ids t) (reset_data_allowance t)
             (reset_header_blocks t)
             (btree_remove stream_id (stream_last_activity_at t))
             (btree_remove stream_id (stream_fc_stalled_since t))
             (btree_remove stream_id (stream_fc_stalled_progress t)) in
  _ ← debug_assert (negb (bool_decide (stream_id ∈ rst_sent t)));
  _ ← debug_assert (negb (btree_mem stream_id (stream_last_activity_at t)));
  _ ← debug_assert (negb (btree_mem stream_id (stream_fc_stalled_since t)));
  _ ← debug_assert (negb (btree_mem stream_id (stream_fc_stalled_progress t)));
  _ ← check_table t;
  Val (t, result).

Definition remember_refused (t : H2StreamTable) (stream_id : Z) : checked H2StreamTable :=
  _ ← debug_assert (negb (btree_mem stream_id (streams t)));
  let t := remember_reset t stream_id in
  _ ← check_table t;
  Val t.

Definition observe_peer_stream_id (t : H2StreamTable) (stream_id : Z) : checked H2StreamTable :=
  let before := highest_peer_stream_id t in
  let t := mkStreamTable (streams t)
             (if highest_peer_stream_id t <? stream_id then stream_id
              else highest_peer_stream_id t)
             (expect_read t) (expect_write t) (rst_sent t) (recently_reset t)
             (recently_reset_ids t) (reset_data_allowance t) (reset_header_blocks t)
             (stream_last_activity_at t) (stream_fc_stalled_since t)
             (stream_fc_stalled_progress t) in
  _ ← debug_assert (before <=? highest_peer_stream_id t);
  Val t.

Definition set_expect_read (t : H2StreamTable) (v : option (H2StreamId * Z)) : H2StreamTable :=
  mkStreamTable (streams t) (highest_peer_stream_id t) v (expect_write t) (rst_sent t)
    (recently_reset t) (recently_reset_ids t) (reset_data_allowance t) (reset_header_blocks t)
    (stream_last_activity_at t) (stream_fc_stalled_since t) (stream_fc_stalled_progress t).

Definition set_expect_write (t : H2StreamTable) (v : option H2StreamId) : H2StreamTable :=
  mkStreamTable (streams t) (highest_peer_stream_id t) (expect_read t) v (rst_sent t)
    (recently_reset t) (recently_reset_ids t) (reset_data_allowance t) (reset_header_blocks t)
    (stream_last_activity_at t) (stream_fc_stalled_since t) (stream_fc_stalled_progress t).

Definition was_reset_locally (t : H2StreamTable) (stream_id : Z) : bool :=
  bool_decide (stream_id ∈ rst_sent t) || bool_decide (stream_id ∈ recently_reset_ids t).

(** What the callers of [rst_sent_mut] do with it. *)
Definition rst_sent_insert (t : H2StreamTable) (stream_id : Z) : H2StreamTable :=
  mkStreamTable (streams t) (highest_peer_stream_id t) (expect_read t) (expect_write t)
    ({[stream_id]} ∪ rst_sent t) (recently_reset t) (recently_reset_ids t)
    (reset_data_allowance t) (reset_header_blocks t) (stream_last_activity_at t)
    (stream_fc_stalled_since t) (stream_fc_stalled_progress t).

Definition set_allowances (t : H2StreamTable) (data blocks : gmap Z Z) : H2StreamTable :=
  mkStreamTable (streams t) (highest_peer_stream_id t) (expect_read t) (expect_write t)
    (rst_sent t) (recently_reset t) (recently_reset_ids t) data blocks
    (stream_last_activity_at t) (stream_fc_stalled_since t) (stream_fc_stalled_progress t).

Definition charge_reset_stream_header_block (t : H2StreamTable) (stream_id : Z)
    : H2StreamTable * bool :=
  if negb (bool_decide (is_Some (reset_header_blocks t !! stream_id))) &&
     (RESET_ALLOWANCES_CAPACITY <=? size (reset_header_blocks t))%nat
  then (t, false)
  else
    let blocks := Z.min 255 (default 0 (reset_header_blocks t !! stream_id) + 1) in
    (set_allowances t (reset_data_allowance t) (<[stream_id := blocks]> (reset_header_blocks t)),
     blocks <=? RESET_STREAM_HEADER_BLOCKS).

Definition charge_reset_stream_data (t : H2StreamTable) (stream_id len granted : Z)
    : H2StreamTable * bool :=
  if negb (bool_decide (is_Some (reset_data_allowance t !! stream_id))) &&
     (RESET_ALLOWANCES_CAPACITY <=? size (reset_data_allowance t))%nat
  then (t, false)
  else
    let allowance := default granted (reset_data_allowance t !! stream_id) in
    let '(remains, fits) := if len <=? allowance then (allowance - len, true) else (0, false) in
    (set_allowances t (<[stream_id := remains]> (reset_data_allowance t)) (reset_header_blocks t), fits).

Definition touch_activity (t : H2StreamTable) (stream_id at_ : Z) : H2StreamTable * bool :=
  if btree_mem stream_id (stream_last_activity_at t) then
    (mkStreamTable (streams t) (highest_peer_stream_id t) (expect_read t) (expect_write t)
       (rst_sent t) (recently_reset t) (recently_reset_ids t) (reset_data_allowance t)
       (reset_header_blocks t) (btree_insert stream_id at_ (stream_last_activity_at t))
       (stream_fc_stalled_since t) (stream_fc_stalled_progress t), true)
  else (t, false).

Definition set_stalls (t : H2StreamTable) (since progress : list (Z * Z)) : H2StreamTable :=
  mkStreamTable (streams t) (highest_peer_stream_id t) (expect_read t) (expect_write t)
    (rst_sent t) (recently_reset t) (recently_reset_ids t) (reset_data_allowance t)
    (reset_header_blocks t) (stream_last_activity_at t) since progress.

Definition clear_fc_stall (t : H2StreamTable) (stream_id : Z) : H2StreamTable :=
  set_stalls t (btree_remove stream_id (stream_fc_stalled_since t))
    (btree_remove stream_id (stream_fc_stalled_progress t)).

(** [entry().or_insert(now)] does not refresh an armed deadline. *)
Definition arm_fc_stall (t : H2StreamTable) (stream_id now progress : Z) : H2StreamTable :=
  set_stalls t
    (if btree_mem stream_id (stream_fc_stalled_since t) then stream_fc_stalled_since t
     else btree_insert stream_id now (stream_fc_stalled_since t))
    (btree_insert stream_id progress (stream_fc_stalled_progress t)).

(** One of the two loops of [collect_timed_out]. *)
Fixpoint collect_loop (eligible : Z -> bool) (expired : Z -> bool) (label : string)
    (m : list (Z * Z)) (seen : gset Z) : gset Z * list (Z * string) :=
  match m with
  | [] => (seen, [])
  | (sid, t) :: m =>
      if eligible sid && expired t && negb (bool_decide (sid ∈ seen)) then
        let '(seen, out) := collect_loop eligible expired label m ({[sid]} ∪ seen) in
        (seen, (sid, label) :: out)
      else collect_loop eligible expired label m seen
  end.

Definition collect_timed_out (t : H2StreamTable) (now deadline : Z) : list (Z * string) :=
  let eligible sid := btree_mem sid (streams t) && negb (bool_decide (sid ∈ rst_sent t)) in
  let expired at_ := deadline <? Z.max 0 (now - at_) in
  let '(seen, idle) :=
    collect_loop eligible expired "H2::IdleTimeout" (stream_last_activity_at t) ∅ in
  let '(_, stalled) :=
    collect_loop eligible expired "H2::WindowStall" (stream_fc_stalled_since t) seen in
  idle ++ stalled.

(** ** The invariant *)

Record slots_ok (t : H2StreamTable) : Prop := {
  slots_streams : btree_ok (streams t);
  slots_activity : (stream_last_activity_at t).*1 = (streams t).*1;
  slots_since : btree_ok (stream_fc_stalled_since t);
  slots_progress : (stream_fc_stalled_progress t).*1 = (stream_fc_stalled_since t).*1;
  slots_ring : NoDup (recently_reset t);
  slots_ring_ids : recently_reset_ids t = list_to_set (recently_reset t);
  slots_ring_bound : (length (recently_reset t) <= RECENTLY_RESET_CAPACITY)%nat;
  slots_data : (size (reset_data_allowance t) <= RESET_ALLOWANCES_CAPACITY)%nat;
  slots_blocks : (size (reset_header_blocks t) <= RESET_ALLOWANCES_CAPACITY)%nat;
}.

Lemma check_table_Val t : slots_ok t -> check_table t = Val tt.
Proof.
  intros Hs. unfold check_table. rewrite (slots_ring_ids _ Hs), size_list_to_set by apply Hs.
  run_assert by (pose proof (slots_ring_bound _ Hs); lia).
  run_assert by (pose proof (slots_data _ Hs); pose proof (slots_blocks _ Hs); lia).
  apply debug_assert_true, bool_decide_true. symmetry. apply Hs.
Qed.

Lemma remember_reset_ok t id : slots_ok t -> slots_ok (remember_reset t id).
Proof.
  intros Hs. unfold remember_reset. case_bool_decide as Hin; [done |].
  rewrite (slots_ring_ids _ Hs) in Hin |- *. rewrite elem_of_list_to_set in Hin.
  pose proof (slots_ring _ Hs) as Hnd. pose proof (slots_ring_bound _ Hs) as Hb.
  destruct (length (recently_reset t) =? RECENTLY_RESET_CAPACITY)%nat eqn:Hfull;
    [destruct (recently_reset t) as [| oldest ring] eqn:Hring; [done |] |].
  - inversion Hnd as [| ? ? Hold Hnd']; subst. apply not_elem_of_cons in Hin as [Hne Hin].
    constructor; cbn; try apply Hs.
    + by apply NoDup_snoc.
    + apply set_eq. intros x. rewrite list_to_set_app_L. set_unfold. naive_solver.
    + rewrite length_app. cbn in *. lia.
    + etrans; [apply map_size_delete_le |]. apply Hs.
    + etrans; [apply map_size_delete_le |]. apply Hs.
  - apply Nat.eqb_neq in Hfull. constructor; cbn; try apply Hs.
    + by apply NoDup_snoc.
    + rewrite list_to_set_app_L. set_solver.
    + rewrite length_app. cbn in *. lia.
Qed.

Lemma register_Val t id gid now :
  slots_ok t -> exists t', register t id gid now = Val t' /\ slots_ok t' /\
    streams t' = btree_insert id gid (streams t) /\
    stream_last_activity_at t' = btree_insert id now (stream_last_activity_at t).
Proof.
  intros Hs. eexists. split.
  - unfold register. run_assert by (apply bool_decide_true; cbn;
      rewrite btree_get_insert, Z.eqb_refl by apply Hs; done).
    run_assert by (apply btree_mem_insert; eapply btree_same_keys_ok; [| apply Hs];
      symmetry; apply Hs).
    rewrite check_table_Val; [done |]. constructor; cbn; try apply Hs.
    + apply btree_insert_ok, Hs.
    + apply btree_same_keys_insert, Hs.
  - split; [| done]. constructor; cbn; try apply Hs.
    + apply btree_insert_ok, Hs.
    + apply btree_same_keys_insert, Hs.
Qed.

(** [remember_reset] only touches the ring and the allowances. *)
Lemma remember_reset_frame t id :
  streams (remember_reset t id) = streams t /\
  rst_sent (remember_reset t id) = rst_sent t /\
  expect_read (remember_reset t id) = expect_read t /\
  expect_write (remember_reset t id) = expect_write t /\
  stream_last_activity_at (remember_reset t id) = stream_last_activity_at t /\
  stream_fc_stalled_since (remember_reset t id) = stream_fc_stalled_since t /\
  stream_fc_stalled_progress (remember_reset t id) = stream_fc_stalled_progress t.
Proof. unfold remember_reset. repeat case_match; simplify_eq; done. Qed.

(** The table without its entry for [id], before the ring is updated. *)
Lemma remove_unringed_ok t id r w :
  slots_ok t ->
  slots_ok (mkStreamTable (btree_remove id (streams t)) (highest_peer_stream_id t) r w
              (rst_sent t ∖ {[id]}) (recently_reset t) (recently_reset_ids t)
              (reset_data_allowance t) (reset_header_blocks t)
              (btree_remove id (stream_last_activity_at t))
              (btree_remove id (stream_fc_stalled_since t))
              (btree_remove id (stream_fc_stalled_progress t))).
Proof.
  intros Hs. constructor; cbn; try apply Hs.
  - apply btree_remove_ok, Hs.
  - apply btree_same_keys_remove, Hs.
  - apply btree_remove_ok, Hs.
  - apply btree_same_keys_remove, Hs.
Qed.

Lemma remember_reset_ids t id :
  slots_ok t -> id ∈ recently_reset_ids (remember_reset t id).
Proof.
  intros Hs. pose proof (remember_reset_ok t id Hs) as Hs'.
  rewrite (slots_ring_ids _ Hs'), elem_of_list_to_set.
  unfold remember_reset. case_bool_decide as Hin.
  - by rewrite (slots_ring_ids _ Hs), elem_of_list_to_set in Hin.
  - repeat case_match; simplify_eq; cbn; set_solver.
Qed.

(** What a parked read or write of the slot becomes. *)
Definition unpark_read (gid : Z) (r : option (H2StreamId * Z)) : option (H2StreamId * Z) :=
  match r with
  | Some (s, n) => if refers_to gid s then None else Some (s, n)
  | None => None
  end.

Definition unpark_write (gid : Z) (w : option H2StreamId) : option H2StreamId :=
  match w with
  | Some s => if refers_to gid s then None else Some s
  | None => None
  end.

(** The table after the removal of [id] from everything but the ring. *)
Definition evicted (t : H2StreamTable) (id gid : Z) : H2StreamTable :=
  mkStreamTable (btree_remove id (streams t)) (highest_peer_stream_id t)
    (unpark_read gid (expect_read t)) (unpark_write gid (expect_write t))
    (rst_sent t ∖ {[id]}) (recently_reset t) (recently_reset_ids t)
    (reset_data_allowance t) (reset_header_blocks t)
    (btree_remove id (stream_last_activity_at t))
    (btree_remove id (stream_fc_stalled_since t))
    (btree_remove id (stream_fc_stalled_progress t)).

Lemma table_remove_Val t id gid :
  slots_ok t ->
  let t' := if bool_decide (id ∈ rst_sent t) then remember_reset (evicted t id gid) id
            else evicted t id gid in
  table_remove t id gid =
    Val (t', if btree_mem id (streams t) then Removed else NotPresent) /\ slots_ok t'.
Proof.
  intros Hs t'. assert (slots_ok t') as Hs'.
  { unfold t'. case_bool_decide; [apply remember_reset_ok |]; by apply remove_unringed_ok. }
  split; [| done]. unfold table_remove.
  match goal with |- context [check_table ?x] => assert (x = t') as Hx end.
  { unfold t', evicted. destruct (bool_decide (id ∈ rst_sent t)); [| done].
    unfold remember_reset. cbn. case_bool_decide; [done |].
    by destruct (length (recently_reset t) =? RECENTLY_RESET_CAPACITY)%nat, (recently_reset t). }
  rewrite Hx.
  assert (rst_sent t' = rst_sent t ∖ {[id]} /\
          stream_last_activity_at t' = btree_remove id (stream_last_activity_at t) /\
          stream_fc_stalled_since t' = btree_remove id (stream_fc_stalled_since t) /\
          stream_fc_stalled_progress t' = btree_remove id (stream_fc_stalled_progress t))
    as (E1 & E2 & E3 & E4).
  { unfold t'. case_bool_decide; [| done].
    by destruct (remember_reset_frame (evicted t id gid) id) as (_ & -> & _ & _ & -> & -> & ->). }
  rewrite E1, E2, E3, E4, !btree_mem_remove.
  run_assert by (rewrite negb_true_iff; apply bool_decide_false; set_solver).
  run_assert by done. by rewrite check_table_Val.
Qed.

(** Retiring a stream leaves no trace of it: no map, timer or pending
    reset mentions it, no parked read or write refers to its slot, the other
    streams keep their slots and timers, and if this endpoint had reset it the
    table still remembers so. No assertion fails. *)
Theorem table_remove_complete t id gid :
  slots_ok t ->
  exists t' result,
    table_remove t id gid = Val (t', result) /\ slots_ok t' /\
    (result = Removed <-> (stream_get t id <> None)) /\
    stream_get t' id = None /\ ~ (id ∈ rst_sent t') /\
    btree_get id (stream_last_activity_at t') = None /\
    btree_get id (stream_fc_stalled_since t') = None /\
    (forall s n, expect_read t' = Some (s, n) -> refers_to gid s = false) /\
    (forall s, expect_write t' = Some s -> refers_to gid s = false) /\
    (was_reset_locally t id = true -> was_reset_locally t' id = true) /\
    (forall id', id' <> id ->
       stream_get t' id' = stream_get t id' /\
       btree_get id' (stream_last_activity_at t') = btree_get id' (stream_last_activity_at t)).
Proof.
  intros Hs. destruct (table_remove_Val t id gid Hs) as [E Hs'].
  set (t' := if bool_decide (id ∈ rst_sent t) then _ else _) in *.
  assert (streams t' = btree_remove id (streams t) /\ rst_sent t' = rst_sent t ∖ {[id]} /\
          expect_read t' = unpark_read gid (expect_read t) /\
          expect_write t' = unpark_write gid (expect_write t) /\
          stream_last_activity_at t' = btree_remove id (stream_last_activity_at t) /\
          stream_fc_stalled_since t' = btree_remove id (stream_fc_stalled_since t))
    as (E1 & E2 & E3 & E4 & E5 & E6).
  { unfold t'. case_bool_decide; [| done].
    by destruct (remember_reset_frame (evicted t id gid) id)
      as (-> & -> & -> & -> & -> & -> & _). }
  exists t', (if btree_mem id (streams t) then Removed else NotPresent).
  split; [done |]. split; [done |].
  unfold stream_get, btree_mem. rewrite E1, E2, E3, E4, E5, E6, !btree_get_remove, Z.eqb_refl.
  split; [by destruct (btree_get id (streams t)) |]. split; [done |]. split; [set_solver |].
  split; [done |]. split; [done |].
  split; [intros s n; unfold unpark_read; repeat case_match; naive_solver |].
  split; [intros s; unfold unpark_write; repeat case_match; naive_solver |]. split.
  - unfold was_reset_locally. intros [Hin | Hin]%orb_true_iff; apply orb_true_iff; right;
      apply bool_decide_eq_true in Hin; apply bool_decide_eq_true; unfold t';
      case_bool_decide as Hsent; try done; try (by apply remember_reset_ids, remove_unringed_ok).
  - intros id' Hne. by rewrite !btree_get_remove, (proj2 (Z.eqb_neq _ _)).
Qed.

(** ** The idle reaper *)

(** A stream the reaper may reset, and a timer it finds expired. *)
Definition reapable (t : H2StreamTable) (id : Z) : Prop :=
  stream_get t id <> None /\ id ∉ rst_sent t.

Lemma collect_loop_spec (eligible expired : Z -> bool) label m seen :
  NoDup m.*1 ->
  let ids := (filter (fun e => eligible e.1 && expired e.2 && negb (bool_decide (e.1 ∈ seen)) = true)
                m).*1 in
  collect_loop eligible expired label m seen =
    (list_to_set ids ∪ seen, (fun id => (id, label)) <$> ids).
Proof.
  revert seen. induction m as [| [id at_] m IH]; intros seen Hnd ids.
  { unfold ids. cbn. by rewrite union_empty_l_L. }
  rewrite fmap_cons in Hnd. inversion Hnd as [| ? ? Hid Hnd']; subst.
  unfold ids. rewrite filter_cons. cbn [collect_loop fst snd].
  destruct (eligible id && expired at_ && negb (bool_decide (id ∈ seen))) eqn:E.
  - rewrite decide_True by done. rewrite IH by done. rewrite fmap_cons. cbn [fst].
    assert (filter (fun e => eligible e.1 && expired e.2 &&
                      negb (bool_decide (e.1 ∈ ({[id]} ∪ seen : gset Z))) = true) m =
            filter (fun e => eligible e.1 && expired e.2 && negb (bool_decide (e.1 ∈ seen)) = true) m)
      as ->.
    { apply filter_ext_in. intros [id' at'] Hin. cbn. rewrite !andb_true_iff, !negb_true_iff.
      assert (id' <> id) by (intros ->; apply Hid; by apply (list_elem_of_fmap_2' fst m (id, at'))).
      rewrite !bool_decide_eq_false. set_solver. }
    rewrite fmap_cons, list_to_set_cons. f_equal. set_solver.
  - rewrite decide_False by congruence. by rewrite IH.
Qed.

Lemma btree_ok_NoDup {V} (m : list (Z * V)) : btree_ok m -> NoDup m.*1.
Proof.
  unfold btree_ok. induction 1 as [| k l Hl IH Hk]; constructor; [| done].
  intros Hin. rewrite Forall_forall in Hk. apply Hk in Hin. lia.
Qed.

Lemma slots_activity_ok t : slots_ok t -> btree_ok (stream_last_activity_at t).
Proof. intros Hs. eapply btree_same_keys_ok; [symmetry |]; apply Hs. Qed.

(** The streams whose timer in [m] is past the deadline, in order. *)
Definition late (t : H2StreamTable) (now deadline : Z) (m : list (Z * Z)) : list Z :=
  (filter (fun e => reapable t e.1 /\ deadline < now - e.2) m).*1.

Global Instance reapable_dec t id : Decision (reapable t id).
Proof. unfold reapable. apply _. Defined.

Lemma collect_timed_out_eq t now deadline :
  slots_ok t -> 0 <= deadline ->
  let idle := late t now deadline (stream_last_activity_at t) in
  let stalled := late t now deadline (stream_fc_stalled_since t) in
  collect_timed_out t now deadline =
    ((fun id => (id, "H2::IdleTimeout"%string)) <$> idle) ++
    ((fun id => (id, "H2::WindowStall"%string)) <$> filter (fun id => id ∉ idle) stalled).
Proof.
  intros Hs Hd idle stalled. unfold collect_timed_out.
  assert (forall seen : gset Z, forall m : list (Z * Z),
    (filter (fun e => (btree_mem e.1 (streams t) && negb (bool_decide (e.1 ∈ rst_sent t))) &&
       (deadline <? Z.max 0 (now - e.2)) && negb (bool_decide (e.1 ∈ seen)) = true) m).*1 =
    filter (fun id => id ∉ seen) (late t now deadline m)) as Hlate.
  { intros seen m. unfold late. induction m as [| [id at_] m IH]; [done |].
    rewrite !filter_cons. unfold reapable, stream_get, btree_mem in *. cbn [fst snd].
    assert ((btree_get id (streams t) <> None /\ id ∉ rst_sent t) /\ deadline < now - at_ <->
            (if btree_get id (streams t) is Some _ then true else false) &&
            negb (bool_decide (id ∈ rst_sent t)) && (deadline <? Z.max 0 (now - at_)) = true) as Hiff.
    { rewrite !andb_true_iff, negb_true_iff, bool_decide_eq_false, Z.ltb_lt.
      destruct (btree_get id (streams t)); split; intros; destruct_and?; repeat split; try done; lia. }
    destruct (decide (_ && _ = true)) as [Hc | Hc].
    - apply andb_true_iff in Hc as [Hc Hseen]. rewrite decide_True by by apply Hiff.
      rewrite !fmap_cons, filter_cons. cbn [fst]. rewrite decide_True; [by rewrite IH |].
      by apply negb_true_iff, bool_decide_eq_false in Hseen.
    - destruct (decide (_ /\ deadline < now - at_)) as [Hr | Hr]; [| done].
      rewrite fmap_cons, filter_cons. cbn [fst]. rewrite decide_False; [done |]. intros Hseen. apply Hc.
      apply andb_true_iff. split; [by apply Hiff |]. by apply negb_true_iff, bool_decide_eq_false. }
  rewrite collect_loop_spec by by apply btree_ok_NoDup, slots_activity_ok.
  rewrite Hlate, (filter_all (fun id : Z => id ∉ ∅)) by (apply Forall_forall; set_solver).
  fold idle. rewrite collect_loop_spec by apply btree_ok_NoDup, Hs. rewrite Hlate. fold stalled.
  do 2 f_equal. apply filter_ext_in. intros x _. set_solver.
Qed.

Lemma elem_of_late t now deadline m id :
  btree_ok m ->
  id ∈ late t now deadline m <->
  reapable t id /\ exists at_, btree_get id m = Some at_ /\ deadline < now - at_.
Proof.
  intros Hm. unfold late. rewrite list_elem_of_fmap. split.
  - intros ([id' at_] & -> & [[Hr Hd] Hin]%list_elem_of_filter). cbn in *. split; [done |].
    exists at_. split; [by apply btree_elem_of | done].
  - intros (Hr & at_ & Hget & Hd). exists (id, at_). split; [done |].
    apply list_elem_of_filter. split; [done |]. by apply btree_get_Some.
Qed.

Lemma late_sorted t now deadline m : btree_ok m -> StronglySorted Z.lt (late t now deadline m).
Proof.
  intros Hm. unfold late. induction m as [| [k v] m IH]; [constructor |].
  apply btree_ok_cons in Hm as [Hm Hk]. rewrite filter_cons. case_decide; [| by apply IH].
  rewrite fmap_cons. constructor; [by apply IH |]. apply Forall_fmap, Forall_forall.
  intros e [_ He]%list_elem_of_filter. rewrite Forall_forall in Hk. by apply Hk.
Qed.

(** The reaper picks exactly the streams it should, once each and in a
    fixed order: those registered, not already reset, whose last activity or
    whose stall is older than the deadline; the idle ones first, each group by
    ascending identifier. *)
Theorem collect_timed_out_spec t now deadline :
  slots_ok t -> 0 <= deadline ->
  exists idle stalled,
    collect_timed_out t now deadline =
      ((fun id => (id, "H2::IdleTimeout"%string)) <$> idle) ++
      ((fun id => (id, "H2::WindowStall"%string)) <$> stalled) /\
    StronglySorted Z.lt idle /\ StronglySorted Z.lt stalled /\ NoDup (idle ++ stalled) /\
    (forall id, id ∈ idle <->
       reapable t id /\ exists at_, btree_get id (stream_last_activity_at t) = Some at_ /\
                                   deadline < now - at_) /\
    (forall id, id ∈ stalled <-> ~ (id ∈ idle) /\
       reapable t id /\ exists at_, btree_get id (stream_fc_stalled_since t) = Some at_ /\
                                   deadline < now - at_).
Proof.
  intros Hs Hd. pose proof (slots_activity_ok t Hs) as Ha. pose proof (slots_since t Hs) as Hf.
  set (idle := late t now deadline (stream_last_activity_at t)).
  set (stalled := filter (fun id => id ∉ idle) (late t now deadline (stream_fc_stalled_since t))).
  exists idle, stalled. split; [by apply collect_timed_out_eq |].
  assert (StronglySorted Z.lt idle) as Hi by by apply late_sorted.
  assert (StronglySorted Z.lt stalled) as Hst by by apply StronglySorted_filter, late_sorted.
  assert (forall l, StronglySorted Z.lt l -> NoDup l) as Hnd.
  { induction 1 as [| x l Hl IH Hx]; constructor; [| done]. intros Hin.
    rewrite Forall_forall in Hx. apply Hx in Hin. lia. }
  split; [done |]. split; [done |]. split; [| split].
  - apply NoDup_app. split; [by apply Hnd |]. split; [| by apply Hnd].
    intros x Hx Hx'. unfold stalled in Hx'. by apply list_elem_of_filter in Hx' as [Hx' _].
  - intros id. by apply elem_of_late.
  - intros id. unfold stalled. by rewrite list_elem_of_filter, elem_of_late.
Qed.

(** ** Sequences of operations *)

Inductive table_op : Type :=
| OpRegister (id gid now : Z)
| OpRemove (id gid : Z)
| OpRefused (id : Z)
| OpObserve (id : Z)
| OpExpectRead (v : option (H2StreamId * Z))
| OpExpectWrite (v : option H2StreamId)
| OpRstSent (id : Z)
| OpChargeBlock (id : Z)
| OpChargeData (id len granted : Z)
| OpTouch (id at_ : Z)
| OpClearStall (id : Z)
| OpArmStall (id now progress : Z).

Definition table_step (t : H2StreamTable) (op : table_op) : checked H2StreamTable :=
  match op with
  | OpRegister id gid now => register t id gid now
  | OpRemove id gid => '(t, _) ← table_remove t id gid; Val t
  | OpRefused id => remember_refused t id
  | OpObserve id => observe_peer_stream_id t id
  | OpExpectRead v => Val (set_expect_read t v)
  | OpExpectWrite v => Val (set_expect_write t v)
  | OpRstSent id => Val (rst_sent_insert t id)
  | OpChargeBlock id => Val (charge_reset_stream_header_block t id).1
  | OpChargeData id len granted => Val (charge_reset_stream_data t id len granted).1
  | OpTouch id at_ => Val (touch_activity t id at_).1
  | OpClearStall id => Val (clear_fc_stall t id)
  | OpArmStall id now progress => Val (arm_fc_stall t id now progress)
  end.

(** The states a connection can bring the table to; a refused stream is one
    that was never registered. *)
Inductive table_reach : H2StreamTable -> Prop :=
| table_reach_new v t : stream_table_new v = Val t -> table_reach t
| table_reach_step t op t' :
    table_reach t -> table_step t op = Val t' -> table_reach t'.

Lemma map_size_insert_le {A} (m : gmap Z A) k v :
  (size (<[k := v]> m) <= if m !! k is Some _ then size m else S (size m))%nat.
Proof. rewrite map_size_insert. by destruct (m !! k). Qed.

Lemma set_allowances_ok t data blocks :
  slots_ok t -> (size data <= RESET_ALLOWANCES_CAPACITY)%nat ->
  (size blocks <= RESET_ALLOWANCES_CAPACITY)%nat -> slots_ok (set_allowances t data blocks).
Proof. intros [] Hd Hb. by constructor. Qed.

(** An entry is added only below the capacity. *)
Lemma charge_size (m : gmap Z Z) k v :
  (size m <= RESET_ALLOWANCES_CAPACITY)%nat ->
  negb (bool_decide (is_Some (m !! k))) && (RESET_ALLOWANCES_CAPACITY <=? size m)%nat = false ->
  (size (<[k := v]> m) <= RESET_ALLOWANCES_CAPACITY)%nat.
Proof.
  intros Hm Hc. pose proof (map_size_insert_le m k v) as Hi.
  destruct (m !! k) eqn:E; [lia |]. rewrite bool_decide_false in Hc by by intros [].
  cbn [negb andb] in Hc. apply Nat.leb_gt in Hc. lia.
Qed.

Lemma stalls_ok t since progress :
  slots_ok t -> btree_ok since -> progress.*1 = since.*1 -> slots_ok (set_stalls t since progress).
Proof. intros [] Hs Hp. by constructor. Qed.

Lemma arm_fc_stall_ok t id now progress : slots_ok t -> slots_ok (arm_fc_stall t id now progress).
Proof.
  intros Hs. pose proof (slots_progress t Hs) as Hp. pose proof (slots_since t Hs) as Hf.
  unfold arm_fc_stall. destruct (btree_mem id _) eqn:Hmem; apply stalls_ok; auto with sozu.
  - rewrite btree_insert_present; [done | |].
    + by eapply btree_same_keys_ok; [symmetry |].
    + by rewrite (btree_mem_keys id _ (stream_fc_stalled_since t)).
  - by apply btree_same_keys_insert.
Qed.

Lemma touch_activity_ok t id at_ : slots_ok t -> slots_ok (touch_activity t id at_).1.
Proof.
  intros Hs. unfold touch_activity. destruct (btree_mem id _) eqn:Hmem; [| done].
  constructor; cbn; try apply Hs.
  rewrite btree_insert_present by (done || by apply slots_activity_ok). apply Hs.
Qed.

Lemma table_step_safe t op :
  slots_ok t -> (forall id, op = OpRefused id -> stream_get t id = None) ->
  exists t', table_step t op = Val t' /\ slots_ok t'.
Proof.
  intros Hs Hop. destruct op as [id gid now | id gid | id | id | v | v | id | id | id len granted
    | id at_ | id | id now progress]; cbn [table_step].
  - destruct (register_Val t id gid now Hs) as (t' & ? & ? & _). by exists t'.
  - destruct (table_remove_Val t id gid Hs) as [-> Hs']. by eexists.
  - unfold remember_refused, btree_mem. specialize (Hop id eq_refl). unfold stream_get in Hop.
    rewrite Hop. exists (remember_reset t id). split; [| by apply remember_reset_ok].
    run_assert by done. by rewrite check_table_Val by by apply remember_reset_ok.
  - unfold observe_peer_stream_id. eexists. split.
    + run_assert by (cbn; destruct (_ <? id) eqn:E; lia). done.
    + destruct Hs. by constructor.
  - eexists. split; [done |]. destruct Hs. by constructor.
  - eexists. split; [done |]. destruct Hs. by constructor.
  - eexists. split; [done |]. destruct Hs. by constructor.
  - eexists. split; [done |]. unfold charge_reset_stream_header_block.
    destruct (_ && _) eqn:E; [done |]. apply set_allowances_ok; try apply Hs.
    apply charge_size; [apply Hs | done].
  - eexists. split; [done |]. unfold charge_reset_stream_data.
    destruct (_ && _) eqn:E; [done |].
    destruct (len <=? _); apply set_allowances_ok; try apply Hs; apply charge_size; done || apply Hs.
  - eexists. split; [done |]. by apply touch_activity_ok.
  - eexists. split; [done |]. apply stalls_ok; [done | apply btree_remove_ok, Hs |].
    apply btree_same_keys_remove, Hs.
  - eexists. split; [done |]. by apply arm_fc_stall_ok.
Qed.

(** C11. No operation panics on a reachable table: whatever the sequence of
    operations that led to it, the maps and caches agree (same streams in the
    table and its timers, bounded ring and allowances, one entry per stalled
    stream in both stall maps) and every next operation succeeds, a refusal
    being one of a stream that is not registered. *)
Theorem table_reach_safe t op :
  table_reach t -> (forall id, op = OpRefused id -> stream_get t id = None) ->
  slots_ok t /\ exists t', table_step t op = Val t' /\ table_reach t'.
Proof.
  intros Hr Hop. assert (slots_ok t) as Hs.
  { clear op Hop. induction Hr as [v t E | t op t' Hr IH E].
    - injection E as <-. by constructor; try constructor; vm_compute; lia.
    - assert (forall id, op = OpRefused id -> stream_get t id = None) as Hop.
      { intros id ->. cbn in E. unfold remember_refused, btree_mem in E. unfold stream_get.
        by destruct (btree_get id (streams t)). }
      destruct (table_step_safe t op IH Hop) as (t2 & E2 & Hs2). congruence. }
  split; [done |]. destruct (table_step_safe t op Hs Hop) as (t' & E & _).
  exists t'. split; [done |]. by econstructor.
Qed.

(** ** Witnesses *)

Definition some_table : H2StreamTable :=
  mkStreamTable [(1, 0); (3, 1)] 3 (Some (StreamOther 3 1, 10)) None {[3]} [] ∅ ∅ ∅
    [(1, 5); (3, 7)] [(1, 6)] [(1, 0)].

Lemma some_table_ok : slots_ok some_table.
Proof. constructor; try (vm_compute; lia); repeat constructor. Qed.

Lemma table_remove_complete_witness :
  exists t' result,
    table_remove some_table 3 1 = Val (t', result) /\ slots_ok t' /\
    (result = Removed <-> (stream_get some_table 3 <> None)) /\
    stream_get t' 3 = None /\ ~ (3 ∈ rst_sent t') /\
    btree_get 3 (stream_last_activity_at t') = None /\
    btree_get 3 (stream_fc_stalled_since t') = None /\
    (forall s n, expect_read t' = Some (s, n) -> refers_to 1 s = false) /\
    (forall s, expect_write t' = Some s -> refers_to 1 s = false) /\
    (was_reset_locally some_table 3 = true -> was_reset_locally t' 3 = true) /\
    (forall id', id' <> 3 ->
       stream_get t' id' = stream_get some_table id' /\
       btree_get id' (stream_last_activity_at t') =
         btree_get id' (stream_last_activity_at some_table)).
Proof. apply (table_remove_complete some_table 3 1 some_table_ok). Defined.

Lemma collect_timed_out_spec_witness :
  exists idle stalled,
    collect_timed_out some_table 100 90 =
      ((fun id => (id, "H2::IdleTimeout"%string)) <$> idle) ++
      ((fun id => (id, "H2::WindowStall"%string)) <$> stalled) /\
    StronglySorted Z.lt idle /\ StronglySorted Z.lt stalled /\ NoDup (idle ++ stalled) /\
    (forall id, id ∈ idle <->
       reapable some_table id /\
       exists at_, btree_get id [(1, 5); (3, 7)] = Some at_ /\ 90 < 100 - at_) /\
    (forall id, id ∈ stalled <-> ~ (id ∈ idle) /\
       reapable some_table id /\
       exists at_, btree_get id [(1, 6)] = Some at_ /\ 90 < 100 - at_).
Proof. apply (collect_timed_out_spec some_table 100 90 some_table_ok). lia. Defined.

Lemma table_reach_safe_witness :
  slots_ok (mkStreamTable [] 0 None None ∅ [] ∅ ∅ ∅ [] [] []) /\
  exists t', table_step (mkStreamTable [] 0 None None ∅ [] ∅ ∅ ∅ [] [] []) (OpRefused 5) = Val t' /\
             table_reach t'.
Proof.
  apply (table_reach_safe (mkStreamTable [] 0 None None ∅ [] ∅ ∅ ∅ [] [] []) (OpRefused 5));
    [by apply (table_reach_new None) | done].
Defined.
