(* ===== verification/H2FloodDetector.v ===== *)
(** * Flood detection

    [lib/src/protocol/mux/h2_flood_detector.rs]: the counters that bound what a
    peer may make a connection do (Rapid Reset, MadeYouReset, ping, settings,
    empty frame, continuation and window update floods), their thresholds, and
    the decision to end the connection with ENHANCE_YOUR_CALM. Rate counters
    halve every second; lifetime counters never decay.

    Instants and durations are counts of nanoseconds. *)

From Stdlib Require Import ZifyBool.
From S2P Require Import Prelude H2Parser.

Definition DEFAULT_MAX_RST_STREAM_PER_WINDOW : Z := 2000.
Definition DEFAULT_MAX_RST_STREAM_LIFETIME : Z := 200000.
Definition DEFAULT_MAX_RST_STREAM_ABUSIVE_LIFETIME : Z := 1000.
Definition DEFAULT_MAX_RST_STREAM_EMITTED_LIFETIME : Z := 10000.
Definition DEFAULT_MAX_PING_PER_WINDOW : Z := 2000.
Definition DEFAULT_MAX_PING_LIFETIME : Z := 200000.
Definition DEFAULT_MAX_SETTINGS_PER_WINDOW : Z := 1000.
Definition DEFAULT_MAX_SETTINGS_LIFETIME : Z := 200000.
Definition DEFAULT_MAX_EMPTY_DATA_PER_WINDOW : Z := 2000.
Definition DEFAULT_MAX_WINDOW_UPDATE_STREAM0_PER_WINDOW : Z := 2000.
Definition WINDOW_UPDATE_STREAM0_CREDIT_PER_DATA_FRAME : Z := 2.
Definition DEFAULT_MAX_CONTINUATION_FRAMES : Z := 20.
Definition DEFAULT_MAX_HEADER_TABLE_SIZE : Z := 65536.
Definition DEFAULT_MAX_HEADER_FIELDS : Z := 128.
Definition DEFAULT_STREAM_REFUSAL_PERCENT : Z := 50.
Definition FLOOD_WINDOW_DURATION : Z := 1000000000.
Definition DEFAULT_MAX_GLITCH_COUNT : Z := 2000.
Definition MAX_HEADER_LIST_SIZE : Z := 65536.

Record H2FloodConfig := mkFloodConfig {
  max_rst_stream_per_window : Z;
  max_ping_per_window : Z;
  max_settings_per_window : Z;
  max_empty_data_per_window : Z;
  max_window_update_stream0_per_window : Z;
  max_continuation_frames : Z;
  max_glitch_count : Z;
  max_rst_stream_lifetime : Z;
  max_rst_stream_abusive_lifetime : Z;
  max_rst_stream_emitted_lifetime : Z;
  max_header_list_size : Z;
  max_header_table_size : Z;
  max_header_fields : Z;
  stream_refusal_percent : Z;
}.

Definition flood_config_default : H2FloodConfig := mkFloodConfig
  DEFAULT_MAX_RST_STREAM_PER_WINDOW DEFAULT_MAX_PING_PER_WINDOW
  DEFAULT_MAX_SETTINGS_PER_WINDOW DEFAULT_MAX_EMPTY_DATA_PER_WINDOW
  DEFAULT_MAX_WINDOW_UPDATE_STREAM0_PER_WINDOW DEFAULT_MAX_CONTINUATION_FRAMES
  DEFAULT_MAX_GLITCH_COUNT DEFAULT_MAX_RST_STREAM_LIFETIME
  DEFAULT_MAX_RST_STREAM_ABUSIVE_LIFETIME DEFAULT_MAX_RST_STREAM_EMITTED_LIFETIME
  MAX_HEADER_LIST_SIZE DEFAULT_MAX_HEADER_TABLE_SIZE DEFAULT_MAX_HEADER_FIELDS
  DEFAULT_STREAM_REFUSAL_PERCENT.

(** The assertions on the clamped thresholds. *)
Definition flood_config_clamped (c : H2FloodConfig) : bool :=
  (1 <=? max_rst_stream_per_window c) &&
  (1 <=? max_ping_per_window c) &&
  (1 <=? max_settings_per_window c) &&
  (1 <=? max_empty_data_per_window c) &&
  (1 <=? max_window_update_stream0_per_window c) &&
  (1 <=? max_continuation_frames c) &&
  (1 <=? max_glitch_count c) &&
  (1 <=? max_rst_stream_lifetime c) &&
  (1 <=? max_rst_stream_abusive_lifetime c) &&
  (1 <=? max_rst_stream_emitted_lifetime c) &&
  (1 <=? max_header_list_size c) &&
  (1 <=? max_header_table_size c) &&
  (1 <=? max_header_fields c).

(** [H2FloodConfig::new]: every threshold is at least 1, the refusal percentage
    is taken as it is. *)
Definition flood_config_new
    (max_rst_stream_per_window max_ping_per_window max_settings_per_window
     max_empty_data_per_window max_window_update_stream0_per_window
     max_continuation_frames max_glitch_count max_rst_stream_lifetime
     max_rst_stream_abusive_lifetime max_rst_stream_emitted_lifetime
     max_header_list_size max_header_table_size max_header_fields stream_refusal_percent : Z)
    : checked H2FloodConfig :=
  let config := mkFloodConfig
    (Z.max max_rst_stream_per_window 1)
    (Z.max max_ping_per_window 1)
    (Z.max max_settings_per_window 1)
    (Z.max max_empty_data_per_window 1)
    (Z.max max_window_update_stream0_per_window 1)
    (Z.max max_continuation_frames 1)
    (Z.max max_glitch_count 1)
    (Z.max max_rst_stream_lifetime 1)
    (Z.max max_rst_stream_abusive_lifetime 1)
    (Z.max max_rst_stream_emitted_lifetime 1)
    (Z.max max_header_list_size 1)
    (Z.max max_header_table_size 1)
    (Z.max max_header_fields 1)
    stream_refusal_percent in
  _ ← debug_assert (flood_config_clamped config);
  Val config.

(** Each [None] takes the compile-time default. *)
Definition flood_config_from_optional
    (max_rst_stream_per_window max_ping_per_window max_settings_per_window
     max_empty_data_per_window max_window_update_stream0_per_window
     max_continuation_frames max_glitch_count max_rst_stream_lifetime
     max_rst_stream_abusive_lifetime max_rst_stream_emitted_lifetime
     max_header_list_size max_header_table_size max_header_fields stream_refusal_percent : option Z)
    : checked H2FloodConfig :=
  flood_config_new
    (default DEFAULT_MAX_RST_STREAM_PER_WINDOW max_rst_stream_per_window)
    (default DEFAULT_MAX_PING_PER_WINDOW max_ping_per_window)
    (default DEFAULT_MAX_SETTINGS_PER_WINDOW max_settings_per_window)
    (default DEFAULT_MAX_EMPTY_DATA_PER_WINDOW max_empty_data_per_window)
    (default DEFAULT_MAX_WINDOW_UPDATE_STREAM0_PER_WINDOW max_window_update_stream0_per_window)
    (default DEFAULT_MAX_CONTINUATION_FRAMES max_continuation_frames)
    (default DEFAULT_MAX_GLITCH_COUNT max_glitch_count)
    (default DEFAULT_MAX_RST_STREAM_LIFETIME max_rst_stream_lifetime)
    (default DEFAULT_MAX_RST_STREAM_ABUSIVE_LIFETIME max_rst_stream_abusive_lifetime)
    (default DEFAULT_MAX_RST_STREAM_EMITTED_LIFETIME max_rst_stream_emitted_lifetime)
    (default MAX_HEADER_LIST_SIZE max_header_list_size)
    (default DEFAULT_MAX_HEADER_TABLE_SIZE max_header_table_size)
    (default DEFAULT_MAX_HEADER_FIELDS max_header_fields)
    (default DEFAULT_STREAM_REFUSAL_PERCENT stream_refusal_percent).

Record H2FloodViolation := mkViolation {
  violation_error : H2Error;
  reason : string;
  metric_key : string;
  count : Z;
  threshold : Z;
}.

Record H2FloodDetector := mkDetector {
  rst_stream_count : Z;
  total_rst_received_lifetime : Z;
  total_abusive_rst_received_lifetime : Z;
  total_rst_streams_emitted_lifetime : Z;
  streams_opened : Z;
  window_update_stream0_credit : Z;
  data_frames_recent : Z;
  ping_count : Z;
  total_ping_received_lifetime : Z;
  settings_count : Z;
  total_settings_received_lifetime : Z;
  empty_data_count : Z;
  window_update_stream0_count : Z;
  continuation_count : Z;
  accumulated_header_size : Z;
  glitch_count : Z;
  last_pre_response_rst_at : option Z;
  window_start : Z;
  config : H2FloodConfig;
}.

(** The assignments to the fields. *)
Definition set_rst_stream_count (v : Z) (d : H2FloodDetector) : H2FloodDetector :=
  mkDetector v (total_rst_received_lifetime d) (total_abusive_rst_received_lifetime d)
    (total_rst_streams_emitted_lifetime d) (streams_opened d)
    (window_update_stream0_credit d) (data_frames_recent d) (ping_count d)
    (total_ping_received_lifetime d) (settings_count d) (total_settings_received_lifetime d)
    (empty_data_count d) (window_update_stream0_count d) (continuation_count d)
    (accumulated_header_size d) (glitch_count d) (last_pre_response_rst_at d)
    (window_start d) (config d).
Definition set_total_rst_received_lifetime (v : Z) (d : H2FloodDetector) : H2FloodDetector :=
  mkDetector (rst_stream_count d) v (total_abusive_rst_received_lifetime d)
    (total_rst_streams_emitted_lifetime d) (streams_opened d)
    (window_update_stream0_credit d) (data_frames_recent d) (ping_count d)
    (total_ping_received_lifetime d) (settings_count d) (total_settings_received_lifetime d)
    (empty_data_count d) (window_update_stream0_count d) (continuation_count d)
    (accumulated_header_size d) (glitch_count d) (last_pre_response_rst_at d)
    (window_start d) (config d).
Definition set_total_abusive_rst_received_lifetime (v : Z) (d : H2FloodDetector) : H2FloodDetector :=
  mkDetector (rst_stream_count d) (total_rst_received_lifetime d) v
    (total_rst_streams_emitted_lifetime d) (streams_opened d)
    (window_update_stream0_credit d) (data_frames_recent d) (ping_count d)
    (total_ping_received_lifetime d) (settings_count d) (total_settings_received_lifetime d)
    (empty_data_count d) (window_update_stream0_count d) (continuation_count d)
    (accumulated_header_size d) (glitch_count d) (last_pre_response_rst_at d)
    (window_start d) (config d).
Definition set_total_rst_streams_emitted_lifetime (v : Z) (d : H2FloodDetector) : H2FloodDetector :=
  mkDetector (rst_stream_count d) (total_rst_received_lifetime d)
    (total_abusive_rst_received_lifetime d) v (streams_opened d)
    (window_update_stream0_credit d) (data_frames_recent d) (ping_count d)
    (total_ping_received_lifetime d) (settings_count d) (total_settings_received_lifetime d)
    (empty_data_count d) (window_update_stream0_count d) (continuation_count d)
    (accumulated_header_size d) (glitch_count d) (last_pre_response_rst_at d)
    (window_start d) (config d).
Definition set_streams_opened (v : Z) (d : H2FloodDetector) : H2FloodDetector :=
  mkDetector (rst_stream_count d) (total_rst_received_lifetime d)
    (total_abusive_rst_received_lifetime d) (total_rst_streams_emitted_lifetime d) v
    (window_update_stream0_credit d) (data_frames_recent d) (ping_count d)
    (total_ping_received_lifetime d) (settings_count d) (total_settings_received_lifetime d)
    (empty_data_count d) (window_update_stream0_count d) (continuation_count d)
    (accumulated_header_size d) (glitch_count d) (last_pre_response_rst_at d)
    (window_start d) (config d).
Definition set_window_update_stream0_credit (v : Z) (d : H2FloodDetector) : H2FloodDetector :=
  mkDetector (rst_stream_count d) (total_rst_received_lifetime d)
    (total_abusive_rst_received_lifetime d) (total_rst_streams_emitted_lifetime d)
    (streams_opened d) v (data_frames_recent d) (ping_count d)
    (total_ping_received_lifetime d) (settings_count d) (total_settings_received_lifetime d)
    (empty_data_count d) (window_update_stream0_count d) (continuation_count d)
    (accumulated_header_size d) (glitch_count d) (last_pre_response_rst_at d)
    (window_start d) (config d).
Definition set_data_frames_recent (v : Z) (d : H2FloodDetector) : H2FloodDetector :=
  mkDetector (rst_stream_count d) (total_rst_received_lifetime d)
    (total_abusive_rst_received_lifetime d) (total_rst_streams_emitted_lifetime d)
    (streams_opened d) (window_update_stream0_credit d) v (ping_count d)
    (total_ping_received_lifetime d) (settings_count d) (total_settings_received_lifetime d)
    (empty_data_count d) (window_update_stream0_count d) (continuation_count d)
    (accumulated_header_size d) (glitch_count d) (last_pre_response_rst_at d)
    (window_start d) (config d).
Definition set_ping_count (v : Z) (d : H2FloodDetector) : H2FloodDetector :=
  mkDetector (rst_stream_count d) (total_rst_received_lifetime d)
    (total_abusive_rst_received_lifetime d) (total_rst_streams_emitted_lifetime d)
    (streams_opened d) (window_update_stream0_credit d) (data_frames_recent d) v
    (total_ping_received_lifetime d) (settings_count d) (total_settings_received_lifetime d)
    (empty_data_count d) (window_update_stream0_count d) (continuation_count d)
    (accumulated_header_size d) (glitch_count d) (last_pre_response_rst_at d)
    (window_start d) (config d).
Definition set_total_ping_received_lifetime (v : Z) (d : H2FloodDetector) : H2FloodDetector :=
  mkDetector (rst_stream_count d) (total_rst_received_lifetime d)
    (total_abusive_rst_received_lifetime d) (total_rst_streams_emitted_lifetime d)
    (streams_opened d) (window_update_stream0_credit d) (data_frames_recent d) (ping_count d)
    v (settings_count d) (total_settings_received_lifetime d) (empty_data_count d)
    (window_update_stream0_count d) (continuation_count d) (accumulated_header_size d)
    (glitch_count d) (last_pre_response_rst_at d) (window_start d) (config d).
Definition set_settings_count (v : Z) (d : H2FloodDetector) : H2FloodDetector :=
  mkDetector (rst_stream_count d) (total_rst_received_lifetime d)
    (total_abusive_rst_received_lifetime d) (total_rst_streams_emitted_lifetime d)
    (streams_opened d) (window_update_stream0_credit d) (data_frames_recent d) (ping_count d)
    (total_ping_received_lifetime d) v (total_settings_received_lifetime d)
    (empty_data_count d) (window_update_stream0_count d) (continuation_count d)
    (accumulated_header_size d) (glitch_count d) (last_pre_response_rst_at d)
    (window_start d) (config d).
Definition set_total_settings_received_lifetime (v : Z) (d : H2FloodDetector) : H2FloodDetector :=
  mkDetector (rst_stream_count d) (total_rst_received_lifetime d)
    (total_abusive_rst_received_lifetime d) (total_rst_streams_emitted_lifetime d)
    (streams_opened d) (window_update_stream0_credit d) (data_frames_recent d) (ping_count d)
    (total_ping_received_lifetime d) (settings_count d) v (empty_data_count d)
    (window_update_stream0_count d) (continuation_count d) (accumulated_header_size d)
    (glitch_count d) (last_pre_response_rst_at d) (window_start d) (config d).
Definition set_empty_data_count (v : Z) (d : H2FloodDetector) : H2FloodDetector :=
  mkDetector (rst_stream_count d) (total_rst_received_lifetime d)
    (total_abusive_rst_received_lifetime d) (total_rst_streams_emitted_lifetime d)
    (streams_opened d) (window_update_stream0_credit d) (data_frames_recent d) (ping_count d)
    (total_ping_received_lifetime d) (settings_count d) (total_settings_received_lifetime d)
    v (window_update_stream0_count d) (continuation_count d) (accumulated_header_size d)
    (glitch_count d) (last_pre_response_rst_at d) (window_start d) (config d).
Definition set_window_update_stream0_count (v : Z) (d : H2FloodDetector) : H2FloodDetector :=
  mkDetector (rst_stream_count d) (total_rst_received_lifetime d)
    (total_abusive_rst_received_lifetime d) (total_rst_streams_emitted_lifetime d)
    (streams_opened d) (window_update_stream0_credit d) (data_frames_recent d) (ping_count d)
    (total_ping_received_lifetime d) (settings_count d) (total_settings_received_lifetime d)
    (empty_data_count d) v (continuation_count d) (accumulated_header_size d)
    (glitch_count d) (last_pre_response_rst_at d) (window_start d) (config d).
Definition set_continuation_count (v : Z) (d : H2FloodDetector) : H2FloodDetector :=
  mkDetector (rst_stream_count d) (total_rst_received_lifetime d)
    (total_abusive_rst_received_lifetime d) (total_rst_streams_emitted_lifetime d)
    (streams_opened d) (window_update_stream0_credit d) (data_frames_recent d) (ping_count d)
    (total_ping_received_lifetime d) (settings_count d) (total_settings_received_lifetime d)
    (empty_data_count d) (window_update_stream0_count d) v (accumulated_header_size d)
    (glitch_count d) (last_pre_response_rst_at d) (window_start d) (config d).
Definition set_accumulated_header_size (v : Z) (d : H2FloodDetector) : H2FloodDetector :=
  mkDetector (rst_stream_count d) (total_rst_received_lifetime d)
    (total_abusive_rst_received_lifetime d) (total_rst_streams_emitted_lifetime d)
    (streams_opened d) (window_update_stream0_credit d) (data_frames_recent d) (ping_count d)
    (total_ping_received_lifetime d) (settings_count d) (total_settings_received_lifetime d)
    (empty_data_count d) (window_update_stream0_count d) (continuation_count d) v
    (glitch_count d) (last_pre_response_rst_at d) (window_start d) (config d).
Definition set_glitch_count (v : Z) (d : H2FloodDetector) : H2FloodDetector :=
  mkDetector (rst_stream_count d) (total_rst_received_lifetime d)
    (total_abusive_rst_received_lifetime d) (total_rst_streams_emitted_lifetime d)
    (streams_opened d) (window_update_stream0_credit d) (data_frames_recent d) (ping_count d)
    (total_ping_received_lifetime d) (settings_count d) (total_settings_received_lifetime d)
    (empty_data_count d) (window_update_stream0_count d) (continuation_count d)
    (accumulated_header_size d) v (last_pre_response_rst_at d) (window_start d) (config d).
Definition set_last_pre_response_rst_at (v : option Z) (d : H2FloodDetector) : H2FloodDetector :=
  mkDetector (rst_stream_count d) (total_rst_received_lifetime d)
    (total_abusive_rst_received_lifetime d) (total_rst_streams_emitted_lifetime d)
    (streams_opened d) (window_update_stream0_credit d) (data_frames_recent d) (ping_count d)
    (total_ping_received_lifetime d) (settings_count d) (total_settings_received_lifetime d)
    (empty_data_count d) (window_update_stream0_count d) (continuation_count d)
    (accumulated_header_size d) (glitch_count d) v (window_start d) (config d).
Definition set_window_start (v : Z) (d : H2FloodDetector) : H2FloodDetector :=
  mkDetector (rst_stream_count d) (total_rst_received_lifetime d)
    (total_abusive_rst_received_lifetime d) (total_rst_streams_emitted_lifetime d)
    (streams_opened d) (window_update_stream0_credit d) (data_frames_recent d) (ping_count d)
    (total_ping_received_lifetime d) (settings_count d) (total_settings_received_lifetime d)
    (empty_data_count d) (window_update_stream0_count d) (continuation_count d)
    (accumulated_header_size d) (glitch_count d) (last_pre_response_rst_at d) v (config d).

(** The assertion of [check_invariants]. *)
Definition check_detector (d : H2FloodDetector) : checked unit :=
  debug_assert (total_abusive_rst_received_lifetime d <=? total_rst_received_lifetime d).

Definition detector_new (config : H2FloodConfig) (now : Z) : checked H2FloodDetector :=
  _ ← debug_assert (flood_config_clamped config);
  let detector := mkDetector 0 0 0 0 0 0 0 0 0 0 0 0 0 0 0 0 None now config in
  _ ← check_detector detector;
  Val detector.

(** [now.saturating_duration_since(earlier)] *)
Definition duration_since (now earlier : Z) : Z := Z.max 0 (now - earlier).

Definition record_stream_opened (d : H2FloodDetector) : checked H2FloodDetector :=
  let before := streams_opened d in
  let d := set_streams_opened (u64_saturating_add (streams_opened d) 1) d in
  _ ← debug_assert ((before <? streams_opened d) || (before =? U64_MAX));
  _ ← check_detector d;
  Val d.

Definition window_update_stream0_credit_cap (d : H2FloodDetector) : Z :=
  u64_saturating_mul
    (u64_saturating_add (max_window_update_stream0_per_window (config d)) (data_frames_recent d))
    WINDOW_UPDATE_STREAM0_CREDIT_PER_DATA_FRAME.

Definition record_data_frames_sent (d : H2FloodDetector) (frames : Z) : checked H2FloodDetector :=
  let before := window_update_stream0_credit d in
  let d := set_data_frames_recent (u64_saturating_add (data_frames_recent d) frames) d in
  let cap := window_update_stream0_credit_cap d in
  let d := set_window_update_stream0_credit
    (Z.min (u64_saturating_add (window_update_stream0_credit d)
              (u64_saturating_mul frames WINDOW_UPDATE_STREAM0_CREDIT_PER_DATA_FRAME)) cap) d in
  _ ← debug_assert (Z.min before cap <=? window_update_stream0_credit d);
  _ ← debug_assert (window_update_stream0_credit d <=? cap);
  _ ← check_detector d;
  Val d.

Definition exceeds_floor_and_ratio (count floor ratio_count streams_opened : Z) : bool :=
  (floor <? count) && (streams_opened <? ratio_count).

Definition pre_response_resets (d : H2FloodDetector) : Z :=
  u64_saturating_add (total_abusive_rst_received_lifetime d) (total_rst_streams_emitted_lifetime d).

Definition record_rst_lifetime (d : H2FloodDetector) (response_started : bool)
    : checked (H2FloodDetector * option H2FloodViolation) :=
  let total_before := total_rst_received_lifetime d in
  let abusive_before := total_abusive_rst_received_lifetime d in
  let d := set_total_rst_received_lifetime
             (u64_saturating_add (total_rst_received_lifetime d) 1) d in
  let d := if negb response_started then
             set_total_abusive_rst_received_lifetime
               (u64_saturating_add (total_abusive_rst_received_lifetime d) 1) d
           else d in
  _ ← debug_assert (total_before <=? total_rst_received_lifetime d);
  _ ← debug_assert (eqb (abusive_before <? total_abusive_rst_received_lifetime d)
                        (negb response_started));
  _ ← debug_assert (total_abusive_rst_received_lifetime d <=? total_rst_received_lifetime d);
  _ ← check_detector d;
  if exceeds_floor_and_ratio (total_rst_received_lifetime d)
       (max_rst_stream_lifetime (config d))
       (u64_saturating_sub (total_rst_received_lifetime d) (total_abusive_rst_received_lifetime d))
       (streams_opened d)
  then Val (d, Some (mkViolation EnhanceYourCalm "Rapid Reset: lifetime RST_STREAM"
                       "h2.flood.violation.rst_stream_lifetime"
                       (total_rst_received_lifetime d) (max_rst_stream_lifetime (config d))))
  else if exceeds_floor_and_ratio (total_abusive_rst_received_lifetime d)
            (max_rst_stream_abusive_lifetime (config d)) (pre_response_resets d)
            (streams_opened d)
  then Val (d, Some (mkViolation EnhanceYourCalm "Rapid Reset: lifetime pre-response RST_STREAM"
                       "h2.flood.violation.rst_stream_pre_response_lifetime"
                       (total_abusive_rst_received_lifetime d)
                       (max_rst_stream_abusive_lifetime (config d))))
  else Val (d, None).

Definition record_rst_received (d : H2FloodDetector) (response_started answered : bool) (now : Z)
    : checked (H2FloodDetector * option H2FloodViolation) :=
  _ ← debug_assert (response_started || negb answered);
  d ← (if answered then record_stream_opened d else Val d);
  let d := if negb response_started then set_last_pre_response_rst_at (Some now) d else d in
  _ ← debug_assert (response_started || bool_decide (last_pre_response_rst_at d = Some now));
  record_rst_lifetime d response_started.

Definition refuses_new_streams (d : H2FloodDetector) (now : Z) : checked bool :=
  let percent := stream_refusal_percent (config d) in
  if percent =? 0 then Val false
  else
    let recent := match last_pre_response_rst_at d with
                  | Some at_ => duration_since now at_ <? FLOOD_WINDOW_DURATION
                  | None => false
                  end in
    let past_soft_floor := max_rst_stream_abusive_lifetime (config d) * percent <?
                           total_abusive_rst_received_lifetime d * 100 in
    let refuses := recent && past_soft_floor && (streams_opened d <? pre_response_resets d) in
    _ ← debug_assert (negb refuses || (0 <? total_abusive_rst_received_lifetime d));
    _ ← debug_assert (negb refuses || bool_decide (is_Some (last_pre_response_rst_at d)));
    Val refuses.

Definition record_rst_emitted (d : H2FloodDetector)
    : checked (H2FloodDetector * option H2FloodViolation) :=
  let before := total_rst_streams_emitted_lifetime d in
  let d := set_total_rst_streams_emitted_lifetime
             (u64_saturating_add (total_rst_streams_emitted_lifetime d) 1) d in
  _ ← debug_assert ((before <? total_rst_streams_emitted_lifetime d) || (before =? U64_MAX));
  _ ← check_detector d;
  if exceeds_floor_and_ratio (total_rst_streams_emitted_lifetime d)
       (max_rst_stream_emitted_lifetime (config d)) (pre_response_resets d) (streams_opened d)
  then Val (d, Some (mkViolation EnhanceYourCalm
                       "MadeYouReset: lifetime server-emitted RST_STREAM"
                       "h2.flood.violation.rst_stream_emitted_lifetime"
                       (total_rst_streams_emitted_lifetime d)
                       (max_rst_stream_emitted_lifetime (config d))))
  else Val (d, None).

Definition record_rst_stream_window (d : H2FloodDetector) : checked H2FloodDetector :=
  let before := rst_stream_count d in
  c ← u32_incr (rst_stream_count d);
  let d := set_rst_stream_count c d in
  _ ← debug_assert (rst_stream_count d =? before + 1);
  _ ← check_detector d;
  Val d.

Definition record_ping_frame (d : H2FloodDetector) : checked H2FloodDetector :=
  let count_before := ping_count d in
  let lifetime_before := total_ping_received_lifetime d in
  c ← u32_incr (ping_count d);
  let d := set_ping_count c d in
  let d := set_total_ping_received_lifetime
             (u32_saturating_add (total_ping_received_lifetime d) 1) d in
  _ ← debug_assert (ping_count d =? count_before + 1);
  _ ← debug_assert ((lifetime_before <? total_ping_received_lifetime d) ||
                    (lifetime_before =? U32_MAX));
  _ ← check_detector d;
  Val d.

Definition record_settings_frame (d : H2FloodDetector) : checked H2FloodDetector :=
  let count_before := settings_count d in
  let lifetime_before := total_settings_received_lifetime d in
  c ← u32_incr (settings_count d);
  let d := set_settings_count c d in
  let d := set_total_settings_received_lifetime
             (u32_saturating_add (total_settings_received_lifetime d) 1) d in
  _ ← debug_assert (settings_count d =? count_before + 1);
  _ ← debug_assert ((lifetime_before <? total_settings_received_lifetime d) ||
                    (lifetime_before =? U32_MAX));
  _ ← check_detector d;
  Val d.

Definition record_empty_data_frame (d : H2FloodDetector) : checked H2FloodDetector :=
  let before := empty_data_count d in
  c ← u32_incr (empty_data_count d);
  let d := set_empty_data_count c d in
  _ ← debug_assert (empty_data_count d =? before + 1);
  _ ← check_detector d;
  Val d.

Definition record_window_update_stream0 (d : H2FloodDetector) : checked H2FloodDetector :=
  let count_before := window_update_stream0_count d in
  let credit_before := window_update_stream0_credit d in
  let d := if 0 <? window_update_stream0_credit d
           then set_window_update_stream0_credit (window_update_stream0_credit d - 1) d
           else set_window_update_stream0_count
                  (u32_saturating_add (window_update_stream0_count d) 1) d in
  _ ← debug_assert (eqb (0 <? credit_before) (window_update_stream0_credit d <? credit_before));
  _ ← debug_assert (eqb (credit_before =? 0)
                        ((count_before <? window_update_stream0_count d) ||
                         (count_before =? U32_MAX)));
  _ ← check_detector d;
  Val d.

Definition record_glitch (d : H2FloodDetector) : checked H2FloodDetector :=
  let before := glitch_count d in
  c ← u32_incr (glitch_count d);
  let d := set_glitch_count c d in
  _ ← debug_assert ((before <? glitch_count d) || (before =? U32_MAX));
  _ ← check_detector d;
  Val d.

Definition record_continuation_frame (d : H2FloodDetector) (payload_len : Z)
    : checked H2FloodDetector :=
  let cont_count_before := continuation_count d in
  let acc_size_before := accumulated_header_size d in
  c ← u32_incr (continuation_count d);
  let d := set_continuation_count c d in
  let d := set_accumulated_header_size
             (u32_saturating_add (accumulated_header_size d) payload_len) d in
  _ ← debug_assert (continuation_count d =? cont_count_before + 1);
  _ ← debug_assert (acc_size_before <=? accumulated_header_size d);
  _ ← check_detector d;
  Val d.

Definition begin_header_block_if_new (d : H2FloodDetector) (initial_fragment_len : Z)
    : checked H2FloodDetector :=
  let d := if continuation_count d =? 0
           then set_accumulated_header_size initial_fragment_len d else d in
  _ ← check_detector d;
  Val d.

Definition reset_continuation (d : H2FloodDetector) : checked H2FloodDetector :=
  let d := set_accumulated_header_size 0 (set_continuation_count 0 d) in
  _ ← debug_assert (continuation_count d =? 0);
  _ ← debug_assert (accumulated_header_size d =? 0);
  _ ← check_detector d;
  Val d.

Definition maybe_reset_window (d : H2FloodDetector) (now : Z) : checked H2FloodDetector :=
  d ←
    (if FLOOD_WINDOW_DURATION <=? duration_since now (window_start d) then
       let rst_before := rst_stream_count d in
       let ping_before := ping_count d in
       let settings_before := settings_count d in
       let empty_before := empty_data_count d in
       let wu0_before := window_update_stream0_count d in
       let glitch_before := glitch_count d in
       let d := set_rst_stream_count (rst_stream_count d / 2) d in
       let d := set_ping_count (ping_count d / 2) d in
       let d := set_settings_count (settings_count d / 2) d in
       let d := set_empty_data_count (empty_data_count d / 2) d in
       let d := set_window_update_stream0_count (window_update_stream0_count d / 2) d in
       let d := set_data_frames_recent (data_frames_recent d / 2) d in
       let d := set_window_update_stream0_credit
                  (Z.min (window_update_stream0_credit d) (window_update_stream0_credit_cap d)) d in
       let d := set_glitch_count (glitch_count d / 2) d in
       let d := set_window_start now d in
       _ ← debug_assert (rst_stream_count d =? rst_before / 2);
       _ ← debug_assert (ping_count d =? ping_before / 2);
       _ ← debug_assert (settings_count d =? settings_before / 2);
       _ ← debug_assert (empty_data_count d =? empty_before / 2);
       _ ← debug_assert (window_update_stream0_count d =? wu0_before / 2);
       _ ← debug_assert (glitch_count d =? glitch_before / 2);
       _ ← debug_assert (duration_since now (window_start d) <? FLOOD_WINDOW_DURATION);
       Val d
     else Val d);
  _ ← check_detector d;
  Val d.

(** [flag] *)
Definition flag (why metric : string) (n limit : Z) : option H2FloodViolation :=
  if limit <? n then Some (mkViolation EnhanceYourCalm why metric n limit) else None.

(** The checks in the order of the [or_else] chain. *)
Definition flood_flags (d : H2FloodDetector) : list (option H2FloodViolation) :=
  [flag "RST_STREAM" "h2.flood.violation.rst_stream_window"
     (rst_stream_count d) (max_rst_stream_per_window (config d));
   flag "PING" "h2.flood.violation.ping_window"
     (ping_count d) (max_ping_per_window (config d));
   flag "PING lifetime" "h2.flood.violation.ping_lifetime"
     (total_ping_received_lifetime d) DEFAULT_MAX_PING_LIFETIME;
   flag "SETTINGS" "h2.flood.violation.settings_window"
     (settings_count d) (max_settings_per_window (config d));
   flag "SETTINGS lifetime" "h2.flood.violation.settings_lifetime"
     (total_settings_received_lifetime d) DEFAULT_MAX_SETTINGS_LIFETIME;
   flag "empty DATA" "h2.flood.violation.empty_data_window"
     (empty_data_count d) (max_empty_data_per_window (config d));
   flag "CONTINUATION" "h2.flood.violation.continuation_per_block"
     (continuation_count d) (max_continuation_frames (config d));
   flag "WINDOW_UPDATE stream 0" "h2.flood.violation.window_update_stream0_window"
     (window_update_stream0_count d) (max_window_update_stream0_per_window (config d));
   flag "accumulated header size" "h2.flood.violation.header_size_per_block"
     (accumulated_header_size d) (max_header_list_size (config d));
   flag "glitch" "h2.flood.violation.glitch_window"
     (glitch_count d) (max_glitch_count (config d))].

Definition check_flood (d : H2FloodDetector) (now : Z)
    : checked (H2FloodDetector * option H2FloodViolation) :=
  d ← maybe_reset_window d now;
  let violation := foldr (fun a b => if a is Some v then Some v else b) None (flood_flags d) in
  _ ← debug_assert (match violation with
                    | None => true
                    | Some v => bool_decide (violation_error v = EnhanceYourCalm) &&
                                (threshold v <? count v)
                    end);
  Val (d, violation).

(** ** The invariant

    After [n] operations every event counter is within [n]: no increment
    overflows, and the lifetime counters are exact, as long as [n] fits a
    [u32]. *)

Record det_ok (n : Z) (d : H2FloodDetector) : Prop := {
  ok_config : flood_config_clamped (config d) = true;
  ok_rst : 0 <= rst_stream_count d <= n;
  ok_ping : 0 <= ping_count d <= n;
  ok_settings : 0 <= settings_count d <= n;
  ok_empty : 0 <= empty_data_count d <= n;
  ok_wu0 : 0 <= window_update_stream0_count d <= n;
  ok_continuation : 0 <= continuation_count d <= n;
  ok_glitch : 0 <= glitch_count d <= n;
  ok_total : 0 <= total_abusive_rst_received_lifetime d <= total_rst_received_lifetime d;
  ok_total_bound : total_rst_received_lifetime d <= n;
  ok_emitted : 0 <= total_rst_streams_emitted_lifetime d <= n;
  ok_opened : 0 <= streams_opened d <= n;
  ok_ping_lifetime : 0 <= total_ping_received_lifetime d <= n;
  ok_settings_lifetime : 0 <= total_settings_received_lifetime d <= n;
  ok_size : u32_ok (accumulated_header_size d);
  ok_credit : 0 <= window_update_stream0_credit d <= U64_MAX;
  ok_recent : 0 <= data_frames_recent d <= U64_MAX;
}.

Inductive flood_op : Type :=
| FStreamOpened
| FDataSent (frames : Z)
| FRst (response_started answered : bool) (now : Z)
| FRstEmitted
| FRstWindow
| FPing
| FSettings
| FEmptyData
| FWindowUpdate0
| FGlitch
| FContinuation (payload_len : Z)
| FBeginBlock (initial_fragment_len : Z)
| FResetContinuation
| FCheck (now : Z).

Definition flood_op_ok (op : flood_op) : Prop :=
  match op with
  | FDataSent frames => u64_ok frames
  | FRst response_started answered _ => response_started = true \/ answered = false
  | FContinuation len | FBeginBlock len => u32_ok len
  | _ => True
  end.

Definition flood_step (d : H2FloodDetector) (op : flood_op)
    : checked (H2FloodDetector * option H2FloodViolation) :=
  match op with
  | FStreamOpened => d ← record_stream_opened d; Val (d, None)
  | FDataSent frames => d ← record_data_frames_sent d frames; Val (d, None)
  | FRst response_started answered now => record_rst_received d response_started answered now
  | FRstEmitted => record_rst_emitted d
  | FRstWindow => d ← record_rst_stream_window d; Val (d, None)
  | FPing => d ← record_ping_frame d; Val (d, None)
  | FSettings => d ← record_settings_frame d; Val (d, None)
  | FEmptyData => d ← record_empty_data_frame d; Val (d, None)
  | FWindowUpdate0 => d ← record_window_update_stream0 d; Val (d, None)
  | FGlitch => d ← record_glitch d; Val (d, None)
  | FContinuation len => d ← record_continuation_frame d len; Val (d, None)
  | FBeginBlock len => d ← begin_header_block_if_new d len; Val (d, None)
  | FResetContinuation => d ← reset_continuation d; Val (d, None)
  | FCheck now => check_flood d now
  end.

(** The detector after a sequence of operations, and the last verdict. *)
Fixpoint flood_run (d : H2FloodDetector) (ops : list flood_op)
    : checked (H2FloodDetector * list (option H2FloodViolation)) :=
  match ops with
  | [] => Val (d, [])
  | op :: ops =>
      '(d, v) ← flood_step d op;
      '(d, vs) ← flood_run d ops;
      Val (d, v :: vs)
  end.

Lemma check_detector_Val d :
  total_abusive_rst_received_lifetime d <= total_rst_received_lifetime d ->
  check_detector d = Val tt.
Proof. intros H. by apply debug_assert_true, Z.leb_le. Qed.

Ltac det_facts H :=
  destruct H as [Hcfg Hrst Hping Hset Hempty Hwu Hcont Hgl Htot Htotb Hem Hop Hpl Hsl Hsize Hcr Hrec];
  unfold uint_ok, u64_saturating_add, u64_saturating_mul, u64_saturating_sub, u32_saturating_add,
    U32_MAX, U64_MAX in *.

Ltac det_step :=
  repeat first
    [run_assert by (cbn; lia)
    | rewrite check_detector_Val by (cbn; lia); cbn [mbind outcome_bind]].

(** What an operation adds to the lifetime counters. *)
Definition weight (p : flood_op -> bool) (op : flood_op) : Z := if p op then 1 else 0.

Definition is_reset (op : flood_op) : bool := if op is FRst _ _ _ then true else false.
Definition is_early_reset (op : flood_op) : bool := if op is FRst false _ _ then true else false.
Definition is_answered (op : flood_op) : bool :=
  match op with FStreamOpened | FRst _ true _ => true | _ => false end.
Definition is_emitted (op : flood_op) : bool := if op is FRstEmitted then true else false.
Definition is_ping (op : flood_op) : bool := if op is FPing then true else false.
Definition is_settings (op : flood_op) : bool := if op is FSettings then true else false.
Definition is_rst_window (op : flood_op) : bool := if op is FRstWindow then true else false.
Definition is_empty_data (op : flood_op) : bool := if op is FEmptyData then true else false.
Definition is_window_update0 (op : flood_op) : bool :=
  if op is FWindowUpdate0 then true else false.
Definition is_glitch (op : flood_op) : bool := if op is FGlitch then true else false.
Definition is_check (op : flood_op) : bool := if op is FCheck _ then true else false.

Record accounts (d d' : H2FloodDetector) (op : flood_op) : Prop := {
  acc_config : config d' = config d;
  acc_total : total_rst_received_lifetime d' =
    total_rst_received_lifetime d + weight is_reset op;
  acc_abusive : total_abusive_rst_received_lifetime d' =
    total_abusive_rst_received_lifetime d + weight is_early_reset op;
  acc_emitted : total_rst_streams_emitted_lifetime d' =
    total_rst_streams_emitted_lifetime d + weight is_emitted op;
  acc_opened : streams_opened d' = streams_opened d + weight is_answered op;
  acc_ping : total_ping_received_lifetime d' =
    total_ping_received_lifetime d + weight is_ping op;
  acc_settings : total_settings_received_lifetime d' =
    total_settings_received_lifetime d + weight is_settings op;
  acc_start : is_check op = false -> window_start d' = window_start d;
  acc_rates : is_check op = false ->
    rst_stream_count d' <= rst_stream_count d + weight is_rst_window op /\
    ping_count d' <= ping_count d + weight is_ping op /\
    settings_count d' <= settings_count d + weight is_settings op /\
    empty_data_count d' <= empty_data_count d + weight is_empty_data op /\
    window_update_stream0_count d' <=
      window_update_stream0_count d + weight is_window_update0 op /\
    glitch_count d' <= glitch_count d + weight is_glitch op;
}.

Definition step_ok (n : Z) (d : H2FloodDetector) (op : flood_op)
    (r : checked (H2FloodDetector * option H2FloodViolation)) : Prop :=
  exists d' v, r = Val (d', v) /\ det_ok (n + 1) d' /\ accounts d d' op.

(** Closes a goal on a detector whose fields have been computed. *)
Ltac det_done :=
  split; constructor; cbn; try done;
  unfold uint_ok, weight, U64_MAX in *; cbn; lia.

Lemma record_stream_opened_ok n d :
  det_ok n d -> 0 <= n < U32_MAX ->
  step_ok n d FStreamOpened (flood_step d FStreamOpened).
Proof.
  intros H Hn. det_facts H. eexists _, _. split.
  - cbn. unfold record_stream_opened, u64_saturating_add, U64_MAX. rewrite Z.min_r by lia.
    by det_step.
  - det_done.
Qed.

Lemma record_ping_ok n d :
  det_ok n d -> 0 <= n < U32_MAX -> step_ok n d FPing (flood_step d FPing).
Proof.
  intros H Hn. det_facts H. eexists _, _. split.
  - cbn. unfold record_ping_frame, u32_incr, u32_saturating_add, U32_MAX.
    by det_step.
  - det_done.
Qed.

Lemma record_settings_ok n d :
  det_ok n d -> 0 <= n < U32_MAX -> step_ok n d FSettings (flood_step d FSettings).
Proof.
  intros H Hn. det_facts H. eexists _, _. split.
  - cbn. unfold record_settings_frame, u32_incr, u32_saturating_add, U32_MAX.
    by det_step.
  - det_done.
Qed.

(** The per-window and per-block counters. *)
Lemma record_window_counters_ok n d :
  det_ok n d -> 0 <= n < U32_MAX ->
  step_ok n d FRstWindow (flood_step d FRstWindow) /\
  step_ok n d FEmptyData (flood_step d FEmptyData) /\
  step_ok n d FGlitch (flood_step d FGlitch) /\
  step_ok n d FResetContinuation (flood_step d FResetContinuation).
Proof.
  intros H Hn. det_facts H. repeat split; eexists _, _; cbn;
    unfold record_rst_stream_window, record_empty_data_frame, record_glitch, reset_continuation,
      u32_incr, U32_MAX; (split; [by det_step | det_done]).
Qed.

Lemma record_blocks_ok n d len :
  det_ok n d -> 0 <= n < U32_MAX -> u32_ok len ->
  step_ok n d (FContinuation len) (flood_step d (FContinuation len)) /\
  step_ok n d (FBeginBlock len) (flood_step d (FBeginBlock len)).
Proof.
  intros H Hn Hl. det_facts H. split; unfold step_ok; cbn [flood_step].
  - unfold record_continuation_frame, u32_incr, u32_saturating_add, U32_MAX.
    eexists _, _. split; [by det_step | det_done].
  - unfold begin_header_block_if_new.
    destruct (continuation_count d =? 0); eexists _, _; (split; [by det_step | det_done]).
Qed.

Lemma record_wu0_ok n d :
  det_ok n d -> 0 <= n < U32_MAX -> step_ok n d FWindowUpdate0 (flood_step d FWindowUpdate0).
Proof.
  intros H Hn. det_facts H. unfold step_ok. cbn [flood_step].
  unfold record_window_update_stream0, u32_saturating_add, U32_MAX.
  destruct (0 <? window_update_stream0_credit d) eqn:E; eexists _, _;
    (split; [do 2 (run_assert by (apply eqb_true_iff; cbn; lia)); by det_step | det_done]).
Qed.

Lemma record_data_sent_ok n d frames :
  det_ok n d -> 0 <= n < U32_MAX -> u64_ok frames ->
  step_ok n d (FDataSent frames) (flood_step d (FDataSent frames)).
Proof.
  intros H Hn Hf.
  assert (0 <= max_window_update_stream0_per_window (config d)) as Hc.
  { pose proof (ok_config _ _ H) as Hcfg. unfold flood_config_clamped in Hcfg. lia. }
  det_facts H. cbn. unfold record_data_frames_sent, window_update_stream0_credit_cap,
    u64_saturating_add, u64_saturating_mul, U64_MAX, WINDOW_UPDATE_STREAM0_CREDIT_PER_DATA_FRAME.
  eexists _, _. split; [by det_step | det_done].
Qed.

(** When the resets received so far end the connection. *)
Definition reset_cap (d : H2FloodDetector) : Prop :=
  (max_rst_stream_lifetime (config d) < total_rst_received_lifetime d /\
   streams_opened d < total_rst_received_lifetime d - total_abusive_rst_received_lifetime d) \/
  (max_rst_stream_abusive_lifetime (config d) < total_abusive_rst_received_lifetime d /\
   streams_opened d <
     total_abusive_rst_received_lifetime d + total_rst_streams_emitted_lifetime d).

(** When the resets the peer provoked do. *)
Definition emitted_cap (d : H2FloodDetector) : Prop :=
  max_rst_stream_emitted_lifetime (config d) < total_rst_streams_emitted_lifetime d /\
  streams_opened d <
    total_abusive_rst_received_lifetime d + total_rst_streams_emitted_lifetime d.

Lemma record_rst_lifetime_verdict n d (started : bool) :
  0 <= n < U32_MAX ->
  0 <= total_abusive_rst_received_lifetime d <= total_rst_received_lifetime d ->
  total_rst_received_lifetime d <= n -> 0 <= total_rst_streams_emitted_lifetime d <= n ->
  let d1 := set_total_rst_received_lifetime (total_rst_received_lifetime d + 1) d in
  let d2 := if started then d1
            else set_total_abusive_rst_received_lifetime
                   (total_abusive_rst_received_lifetime d + 1) d1 in
  exists v, record_rst_lifetime d started = Val (d2, v) /\ (is_Some v <-> reset_cap d2).
Proof.
  intros Hn Ha Ht He d1 d2. unfold U32_MAX in Hn.
  assert (u64_saturating_add (total_rst_received_lifetime d) 1 = total_rst_received_lifetime d + 1)
    as E1 by (unfold u64_saturating_add, U64_MAX; lia).
  assert (u64_saturating_add (total_abusive_rst_received_lifetime d) 1 =
          total_abusive_rst_received_lifetime d + 1)
    as E2 by (unfold u64_saturating_add, U64_MAX; lia).
  assert (match (if negb started then
                   set_total_abusive_rst_received_lifetime
                     (u64_saturating_add
                        (total_abusive_rst_received_lifetime
                           (set_total_rst_received_lifetime
                              (u64_saturating_add (total_rst_received_lifetime d) 1) d)) 1)
                     (set_total_rst_received_lifetime
                        (u64_saturating_add (total_rst_received_lifetime d) 1) d)
                 else set_total_rst_received_lifetime
                        (u64_saturating_add (total_rst_received_lifetime d) 1) d)
          with x => x = d2 end) as E3.
  { unfold d2, d1. destruct started; cbn [negb]; rewrite E1; [done |]. cbn. by rewrite E2. }
  unfold record_rst_lifetime. rewrite E3.
  assert (total_abusive_rst_received_lifetime d2 <= total_rst_received_lifetime d2 /\
          total_rst_received_lifetime d2 = total_rst_received_lifetime d + 1 /\
          total_abusive_rst_received_lifetime d2 =
            total_abusive_rst_received_lifetime d + (if started then 0 else 1) /\
          total_rst_streams_emitted_lifetime d2 = total_rst_streams_emitted_lifetime d /\
          config d2 = config d /\ streams_opened d2 = streams_opened d)
    as (F1 & F2 & F3 & F4 & F5 & F6) 
    by (unfold d2, d1; destruct started; cbn; repeat split; lia || done).
  clearbody d2. clear E3.
  assert (pre_response_resets d2 =
    total_abusive_rst_received_lifetime d2 + total_rst_streams_emitted_lifetime d2) as E4
    by (unfold pre_response_resets, u64_saturating_add, U64_MAX; destruct started; lia).
  assert (Hverdict : forall (b1 b2 : bool) v1 v2, (b1 || b2 = true <-> reset_cap d2) ->
    exists v, (if b1 then Val (d2, Some v1) else if b2 then Val (d2, Some v2) else Val (d2, None)) =
      (Val (d2, v) : checked (H2FloodDetector * option H2FloodViolation)) /\
      (is_Some v <-> reset_cap d2)).
  { intros b1 b2 v1 v2 Hb. destruct b1, b2; (eexists; split; [done |]); rewrite <- Hb; cbn;
      split; intros H; (done || by eexists || by destruct H). }
  edestruct Hverdict as (v & Hv & Hcap); [| exists v; split; [| exact Hcap]].
  2: { run_assert by (destruct started; lia). run_assert by (apply eqb_true_iff; destruct started; cbn; lia).
       run_assert by lia. rewrite check_detector_Val by lia. exact Hv. }
  rewrite E4. unfold exceeds_floor_and_ratio, u64_saturating_sub, reset_cap. lia.
Qed.

Lemma record_rst_ok n d started answered now :
  det_ok n d -> 0 <= n < U32_MAX -> started = true \/ answered = false ->
  exists d' v,
    flood_step d (FRst started answered now) = Val (d', v) /\ det_ok (n + 1) d' /\
    accounts d d' (FRst started answered now) /\ (is_Some v <-> reset_cap d').
Proof.
  intros H Hn Hsa. cbn [flood_step].
  set (d0 := if answered then set_streams_opened (streams_opened d + 1) d else d).
  set (d1 := if negb started then set_last_pre_response_rst_at (Some now) d0 else d0).
  assert (record_rst_received d started answered now = record_rst_lifetime d1 started) as ->.
  { unfold record_rst_received.
    run_assert by (destruct Hsa as [-> | ->]; [done | by rewrite orb_true_r]).
    assert ((if answered then record_stream_opened d else Val d) = Val d0) as ->.
    { unfold d0. destruct answered; [| done].
      pose proof (ok_opened _ _ H) as Ho. pose proof (ok_total _ _ H) as Ht.
      unfold record_stream_opened, u64_saturating_add, U64_MAX, U32_MAX in *.
      rewrite Z.min_r by lia. by det_step. }
    cbn [mbind outcome_bind]. fold d1.
    run_assert by (unfold d1; destruct started; [done |]; cbn; by apply bool_decide_true). done. }
  destruct (record_rst_lifetime_verdict n d1 started Hn) as (v & E & Hv).
  1-3: det_facts H; unfold d1, d0; destruct started, answered; cbn; lia.
  eexists _, _. split; [exact E |].
  assert (forall P Q R : Prop, P -> Q -> R -> P /\ Q /\ R) as split3 by done.
  apply split3; [| | exact Hv]; clear Hv E; det_facts H;
    unfold d1, d0; destruct started, answered; try (by destruct Hsa); constructor; cbn;
    try done; unfold uint_ok, weight, U64_MAX in *; cbn; lia.
Qed.

Lemma record_rst_emitted_ok n d :
  det_ok n d -> 0 <= n < U32_MAX ->
  exists d' v,
    flood_step d FRstEmitted = Val (d', v) /\ det_ok (n + 1) d' /\ accounts d d' FRstEmitted /\
    (is_Some v <-> emitted_cap d').
Proof.
  intros H Hn. cbn [flood_step]. unfold record_rst_emitted.
  set (d1 := set_total_rst_streams_emitted_lifetime (total_rst_streams_emitted_lifetime d + 1) d).
  assert (set_total_rst_streams_emitted_lifetime
            (u64_saturating_add (total_rst_streams_emitted_lifetime d) 1) d = d1) as ->.
  { pose proof (ok_emitted _ _ H). unfold d1, u64_saturating_add, U64_MAX, U32_MAX in *.
    f_equal. lia. }
  assert (det_ok (n + 1) d1 /\ accounts d d1 FRstEmitted) as [Hd Ha].
  { det_facts H. unfold d1. split; constructor; cbn; try done;
      unfold uint_ok, weight, U64_MAX in *; cbn; lia. }
  clearbody d1.
  assert (pre_response_resets d1 =
    total_abusive_rst_received_lifetime d1 + total_rst_streams_emitted_lifetime d1) as E.
  { det_facts Hd. unfold pre_response_resets, u64_saturating_add, U64_MAX in *. lia. }
  pose proof (acc_emitted _ _ _ Ha) as He. unfold weight in He. cbn in He.
  destruct (exceeds_floor_and_ratio _ _ _ _) eqn:Ex; eexists _, _;
    (split; [run_assert by lia; rewrite check_detector_Val by apply Hd; done |]);
    (split; [done |]); (split; [done |]); unfold exceeds_floor_and_ratio, emitted_cap in *;
    rewrite E in Ex.
  - split; [lia | by eexists].
  - split; [by intros [] | lia].
Qed.

(** The window after the check: halved once a second has passed. *)
Definition decays (d : H2FloodDetector) (now : Z) : bool :=
  FLOOD_WINDOW_DURATION <=? duration_since now (window_start d).

(** The detector whose window counters have been halved at [now]. *)
Definition halved (d : H2FloodDetector) (now : Z) : H2FloodDetector :=
  mkDetector (rst_stream_count d / 2) (total_rst_received_lifetime d)
    (total_abusive_rst_received_lifetime d) (total_rst_streams_emitted_lifetime d)
    (streams_opened d)
    (Z.min (window_update_stream0_credit d)
       (window_update_stream0_credit_cap (set_data_frames_recent (data_frames_recent d / 2) d)))
    (data_frames_recent d / 2) (ping_count d / 2)
    (total_ping_received_lifetime d) (settings_count d / 2)
    (total_settings_received_lifetime d) (empty_data_count d / 2)
    (window_update_stream0_count d / 2) (continuation_count d) (accumulated_header_size d)
    (glitch_count d / 2) (last_pre_response_rst_at d) now (config d).

Lemma maybe_reset_window_Val n d now :
  det_ok n d -> maybe_reset_window d now = Val (if decays d now then halved d now else d).
Proof.
  intros H. assert (total_abusive_rst_received_lifetime d <= total_rst_received_lifetime d)
    as Ht by apply (ok_total _ _ H).
  clear H. destruct d.
  cbv beta iota zeta delta [decays halved maybe_reset_window window_update_stream0_credit_cap
    set_rst_stream_count set_ping_count set_settings_count set_empty_data_count
    set_window_update_stream0_count set_data_frames_recent set_window_update_stream0_credit
    set_glitch_count set_window_start rst_stream_count total_rst_received_lifetime
    total_abusive_rst_received_lifetime total_rst_streams_emitted_lifetime streams_opened
    window_update_stream0_credit data_frames_recent ping_count total_ping_received_lifetime
    settings_count total_settings_received_lifetime empty_data_count window_update_stream0_count
    continuation_count accumulated_header_size glitch_count last_pre_response_rst_at window_start
    config].
  destruct (_ <=? duration_since _ _).
  - do 6 (run_assert by apply Z.eqb_refl).
    run_assert by (unfold duration_since, FLOOD_WINDOW_DURATION; lia).
    cbn [mbind outcome_bind]. by rewrite check_detector_Val.
  - cbn [mbind outcome_bind]. by rewrite check_detector_Val.
Qed.

Lemma halved_ok n d now : det_ok n d -> 0 <= n -> det_ok n (halved d now).
Proof.
  intros H Hn.
  assert (forall x m, 0 <= x <= m -> 0 <= x / 2 <= m) as Hhalf.
  { intros x m Hx. split; [apply Z.div_pos; lia | apply Z.div_le_upper_bound; lia]. }
  pose proof (Hhalf _ _ (ok_recent _ _ H)) as Hr.
  pose proof (ok_config _ _ H) as Hc. unfold flood_config_clamped in Hc.
  destruct H. constructor; cbn; try done; try (by apply Hhalf).
  unfold window_update_stream0_credit_cap, u64_saturating_mul, u64_saturating_add,
    WINDOW_UPDATE_STREAM0_CREDIT_PER_DATA_FRAME, U64_MAX in *. cbn. lia.
Qed.

Lemma halved_accounts d now at_ : accounts d (halved d now) (FCheck at_).
Proof. constructor; cbn; unfold weight; cbn; lia || done. Qed.

Lemma window_ok n d now :
  det_ok n d -> 0 <= n ->
  let d' := if decays d now then halved d now else d in
  det_ok (n + 1) d' /\ accounts d d' (FCheck now).
Proof.
  intros H Hn d'. assert (det_ok n d') as Hd.
  { unfold d'. destruct (decays d now); [by apply halved_ok | done]. }
  split.
  - destruct Hd. constructor; done || lia.
  - unfold d'. destruct (decays d now); [apply halved_accounts |].
    constructor; cbn; unfold weight; cbn; lia || done.
Qed.

(** ** Every operation *)

Lemma first_flag (os : list (option H2FloodViolation)) v :
  foldr (fun a b => if a is Some v then Some v else b) None os = Some v -> Some v ∈ os.
Proof.
  induction os as [| [w |] os IH]; cbn; [done | |]; intros E; [simplify_eq; left | right; auto].
Qed.

Lemma flag_Some why metric n limit v :
  flag why metric n limit = Some v ->
  v = mkViolation EnhanceYourCalm why metric n limit /\ limit < n.
Proof. unfold flag. case_match; [| done]. intros [= <-]. split; [done | lia]. Qed.

(** A violation of the periodic check is a counter over its limit. *)
Lemma flood_flags_sound d v :
  Some v ∈ flood_flags d -> violation_error v = EnhanceYourCalm /\ threshold v < count v.
Proof.
  unfold flood_flags. intros H.
  repeat (apply elem_of_cons in H as [H | H];
    [symmetry in H; apply flag_Some in H as [-> H]; done |]).
  by apply not_elem_of_nil in H.
Qed.

Lemma check_flood_Val n d now :
  det_ok n d ->
  let d' := if decays d now then halved d now else d in
  check_flood d now =
    Val (d', foldr (fun a b => if a is Some v then Some v else b) None (flood_flags d')).
Proof.
  intros H d'. unfold check_flood. rewrite (maybe_reset_window_Val n) by done.
  fold d'. cbn [mbind outcome_bind].
  destruct (foldr _ _ _) as [v |] eqn:E; [| by rewrite debug_assert_true].
  apply first_flag, flood_flags_sound in E as [E1 E2].
  run_assert by (rewrite bool_decide_true by done; cbn; lia). done.
Qed.

Lemma flood_step_ok n d op :
  det_ok n d -> 0 <= n < U32_MAX -> flood_op_ok op -> step_ok n d op (flood_step d op).
Proof.
  intros H Hn Hop.
  destruct (record_window_counters_ok n d H Hn) as (? & ? & ? & ?).
  destruct op as [| f | s a t | | | | | | | | l | l | | t]; try done; cbn in Hop.
  - by apply record_stream_opened_ok.
  - by apply record_data_sent_ok.
  - destruct (record_rst_ok n d s a t H Hn Hop) as (d' & v & ? & ? & ? & _). by exists d', v.
  - destruct (record_rst_emitted_ok n d H Hn) as (d' & v & ? & ? & ? & _). by exists d', v.
  - by apply record_ping_ok.
  - by apply record_settings_ok.
  - by apply record_wu0_ok.
  - by apply (record_blocks_ok n d l).
  - by apply (record_blocks_ok n d l).
  - cbn [flood_step]. eexists _, _. split; [by apply (check_flood_Val n) |].
    apply (window_ok n); [done | lia].
Qed.

(** ** Histories *)

(** How many operations of a history satisfy a predicate. *)
Definition occurrences (p : flood_op -> bool) (ops : list flood_op) : Z :=
  foldr (fun op n => weight p op + n) 0 ops.

Lemma occurrences_cons p op ops : occurrences p (op :: ops) = weight p op + occurrences p ops.
Proof. done. Qed.

Lemma occurrences_snoc p ops op : occurrences p (ops ++ [op]) = occurrences p ops + weight p op.
Proof.
  induction ops as [| o ops IH]; [cbn; lia |].
  rewrite <- app_comm_cons, !occurrences_cons, IH. lia.
Qed.

Lemma occurrences_zero p ops : Forall (fun op => p op = false) ops -> occurrences p ops = 0.
Proof.
  induction 1 as [| op ops H _ IH]; [done |].
  rewrite occurrences_cons, IH. unfold weight. by rewrite H.
Qed.

Lemma occurrences_le p q ops :
  Forall (fun op => p op = true -> q op = true) ops -> occurrences p ops <= occurrences q ops.
Proof.
  induction 1 as [| op ops H _ IH]; [done |]. rewrite !occurrences_cons. unfold weight.
  destruct (p op), (q op); [lia | by specialize (H eq_refl) | lia..].
Qed.

(** The lifetime counters hold the number of events of the history. *)
Record ledger (d d' : H2FloodDetector) (ops : list flood_op) : Prop := {
  led_config : config d' = config d;
  led_total : total_rst_received_lifetime d' =
    total_rst_received_lifetime d + occurrences is_reset ops;
  led_abusive : total_abusive_rst_received_lifetime d' =
    total_abusive_rst_received_lifetime d + occurrences is_early_reset ops;
  led_emitted : total_rst_streams_emitted_lifetime d' =
    total_rst_streams_emitted_lifetime d + occurrences is_emitted ops;
  led_opened : streams_opened d' = streams_opened d + occurrences is_answered ops;
}.

Lemma flood_run_ok ops : forall n d,
  det_ok n d -> 0 <= n -> n + Z.of_nat (length ops) <= U32_MAX -> Forall flood_op_ok ops ->
  exists d' vs, flood_run d ops = Val (d', vs) /\ det_ok (n + Z.of_nat (length ops)) d' /\
    ledger d d' ops.
Proof.
  induction ops as [| op ops IH]; intros n d H Hn Hlen Hok.
  - exists d, []. cbn. rewrite Z.add_0_r. split; [done |]. split; [done |].
    constructor; cbn; lia || done.
  - apply Forall_cons in Hok as [Hop Hok]. rewrite length_cons in Hlen |- *.
    destruct (flood_step_ok n d op H) as (d1 & v & E & H1 & A); [lia | done |].
    destruct (IH (n + 1) d1 H1) as (d2 & vs & E2 & H2 & L); [lia | lia | done |].
    exists d2, (v :: vs). cbn [flood_run]. rewrite E. cbn [mbind outcome_bind]. rewrite E2.
    split; [done |]. split; [by replace (n + Z.of_nat (S (length ops)))
      with (n + 1 + Z.of_nat (length ops)) by lia |].
    destruct A, L. constructor; rewrite ?occurrences_cons; congruence || lia.
Qed.

Lemma detector_new_ok c now d : detector_new c now = Val d -> det_ok 0 d.
Proof.
  unfold detector_new. destruct (flood_config_clamped c) eqn:E; [| done].
  cbn. intros [= <-]. constructor; cbn; done || (unfold U64_MAX; lia).
Qed.

Lemma detector_new_Val c now :
  flood_config_clamped c = true ->
  detector_new c now = Val (mkDetector 0 0 0 0 0 0 0 0 0 0 0 0 0 0 0 0 None now c).
Proof. intros E. unfold detector_new. by rewrite E. Qed.

Lemma flood_config_new_clamped a1 a2 a3 a4 a5 a6 a7 a8 a9 a10 a11 a12 a13 a14 :
  exists c, flood_config_new a1 a2 a3 a4 a5 a6 a7 a8 a9 a10 a11 a12 a13 a14 = Val c /\
    flood_config_clamped c = true.
Proof.
  unfold flood_config_new. cbv zeta. match goal with |- context [debug_assert (_ ?c)] =>
    exists c; assert (flood_config_clamped c = true) as E end.
  { unfold flood_config_clamped. cbn -[Z.max Z.leb].
    repeat (apply andb_true_intro; split); apply Z.leb_le, Z.le_max_r. }
  rewrite E. done.
Qed.

Lemma detector_new_inv c now d :
  detector_new c now = Val d ->
  d = mkDetector 0 0 0 0 0 0 0 0 0 0 0 0 0 0 0 0 None now c.
Proof. unfold detector_new. destruct (flood_config_clamped c); [| done]. by intros [= <-]. Qed.

Lemma flood_run_length ops : forall d d' vs,
  flood_run d ops = Val (d', vs) -> length vs = length ops.
Proof.
  induction ops as [| op ops IH]; intros d d' vs; cbn [flood_run]; [by intros [= <- <-] |].
  destruct (flood_step d op) as [[d1 v] | |]; [| done..]. cbn [mbind outcome_bind].
  destruct (flood_run d1 ops) as [[d2 vs2] | |] eqn:E; [| done..]. cbn.
  intros [= <- <-]. cbn. by erewrite IH.
Qed.

(** ** Rates

    The six counters that halve every second, each with the event it counts
    and the threshold and metric of its check. *)

Record rate := mkRate {
  rate_count : H2FloodDetector -> Z;
  rate_limit : H2FloodConfig -> Z;
  rate_event : flood_op -> bool;
  rate_metric : string;
}.

Definition rates : list rate :=
  [mkRate rst_stream_count max_rst_stream_per_window is_rst_window
     "h2.flood.violation.rst_stream_window";
   mkRate ping_count max_ping_per_window is_ping "h2.flood.violation.ping_window";
   mkRate settings_count max_settings_per_window is_settings
     "h2.flood.violation.settings_window";
   mkRate empty_data_count max_empty_data_per_window is_empty_data
     "h2.flood.violation.empty_data_window";
   mkRate window_update_stream0_count max_window_update_stream0_per_window is_window_update0
     "h2.flood.violation.window_update_stream0_window";
   mkRate glitch_count max_glitch_count is_glitch "h2.flood.violation.glitch_window"].

(** At most [n] events between two decays: [k] so far in the window that
    started at [start]. *)
Fixpoint paced (r : rate) (n start k : Z) (ops : list flood_op) : bool :=
  match ops with
  | [] => true
  | FCheck now :: ops =>
      if FLOOD_WINDOW_DURATION <=? duration_since now start
      then paced r n now 0 ops else paced r n start k ops
  | op :: ops =>
      (k + weight (rate_event r) op <=? n) && paced r n start (k + weight (rate_event r) op) ops
  end.

Ltac each_rate Hr :=
  unfold rates in Hr;
  repeat (apply elem_of_cons in Hr as [-> | Hr]); [.. | by apply not_elem_of_nil in Hr].

(** What an operation other than the check does to a rate. *)
Lemma rate_step r d d' op :
  r ∈ rates -> accounts d d' op -> is_check op = false ->
  rate_count r d' <= rate_count r d + weight (rate_event r) op.
Proof.
  intros Hr A Hc. destruct (acc_rates _ _ _ A Hc) as (? & ? & ? & ? & ? & ?).
  by each_rate Hr.
Qed.

Lemma rate_halved r d now : r ∈ rates -> rate_count r (halved d now) = rate_count r d / 2.
Proof. intros Hr. by each_rate Hr. Qed.

Lemma rate_event_check r now : r ∈ rates -> rate_event r (FCheck now) = false.
Proof. intros Hr. by each_rate Hr. Qed.

(** A check that reports a rate has found it over its limit. *)
Lemma rate_flagged r d v :
  r ∈ rates -> Some v ∈ flood_flags d -> metric_key v = rate_metric r ->
  rate_limit r (config d) < rate_count r d.
Proof.
  intros Hr Hv Hm. unfold flood_flags in Hv.
  repeat (apply elem_of_cons in Hv as [Hv | Hv];
    [symmetry in Hv; apply flag_Some in Hv as [-> Hv]; cbn in Hm; by each_rate Hr |]).
  by apply not_elem_of_nil in Hv.
Qed.

Lemma assert_inv {A} b (f : unit -> checked A) r :
  debug_assert b ≫= f = Val r -> b = true /\ f tt = Val r.
Proof. by destruct b. Qed.

Ltac assert_inv H := repeat apply assert_inv in H as [_ H].

(** Only the check reports a rate: a reset reports a lifetime counter. *)
Lemma reset_verdict_metric d op d' v r :
  r ∈ rates -> flood_step d op = Val (d', Some v) -> is_check op = false ->
  metric_key v <> rate_metric r.
Proof.
  intros Hr E Hc.
  assert (metric_key v ∈ ["h2.flood.violation.rst_stream_lifetime";
    "h2.flood.violation.rst_stream_pre_response_lifetime";
    "h2.flood.violation.rst_stream_emitted_lifetime"]) as Hm.
  { destruct op; cbn [flood_step] in E;
      try (match type of E with (?m ≫= _) = _ => by destruct m end); [| | done].
    - unfold record_rst_received in E. assert_inv E.
      destruct (if answered then _ else _) as [d1 | |] in E; [| done..].
      cbn [mbind outcome_bind] in E. assert_inv E. unfold record_rst_lifetime in E. assert_inv E.
      unfold check_detector in E. assert_inv E. repeat case_match; simplify_eq; cbn; set_solver.
    - unfold record_rst_emitted in E. assert_inv E. unfold check_detector in E. assert_inv E.
      repeat case_match; simplify_eq; cbn; set_solver. }
  intros Heq. rewrite Heq in Hm. each_rate Hr; cbn in Hm;
    repeat (apply elem_of_cons in Hm as [Hm | Hm]; [done |]); by apply not_elem_of_nil in Hm.
Qed.

Definition reports (r : rate) (v : option H2FloodViolation) : bool :=
  match v with Some v => bool_decide (metric_key v = rate_metric r) | None => false end.

(** The counter of a paced rate stays within [n - 1] at the start of a window,
    so within [2 n - 1] everywhere. *)
Lemma paced_run r m ops : forall n d k d' vs,
  r ∈ rates -> det_ok n d -> 0 <= n -> n + Z.of_nat (length ops) <= U32_MAX ->
  Forall flood_op_ok ops -> 1 <= m -> 2 * m - 1 <= rate_limit r (config d) ->
  rate_count r d <= m - 1 + k -> 0 <= k <= m -> paced r m (window_start d) k ops = true ->
  flood_run d ops = Val (d', vs) -> Forall (fun v => reports r v = false) vs.
Proof.
  induction ops as [| op ops IH];
    intros n d k d' vs Hr Hd Hn Hlen Hok Hm Hlim Hc Hk Hp Hrun; [by simplify_eq/= |].
  apply Forall_cons in Hok as [Hop Hok]. rewrite length_cons in Hlen.
  destruct (flood_step_ok n d op Hd) as (d1 & v & E & H1 & A); [lia | done |].
  cbn [flood_run] in Hrun. rewrite E in Hrun. cbn [mbind outcome_bind] in Hrun.
  destruct (flood_run d1 ops) as [[d2 vs2] | |] eqn:E2; [| done..]. cbn in Hrun. simplify_eq.
  assert (rate_limit r (config d1) = rate_limit r (config d)) as El by by rewrite (acc_config _ _ _ A).
  destruct (is_check op) eqn:Ech.
  - destruct op as [| | | | | | | | | | | | | now]; try done. cbn [flood_step] in E.
    rewrite (check_flood_Val n) in E by done. injection E as E1 Ev.
    cbn [paced] in Hp. fold (decays d now) in Hp.
    assert (exists k1, rate_count r d1 <= m - 1 + k1 /\ 0 <= k1 <= m /\
      paced r m (window_start d1) k1 ops = true) as (k1 & Hc1 & Hk1 & Hp1).
    { subst d1. destruct (decays d now); [exists 0 | by exists k].
      rewrite rate_halved by done. split; [| split; [lia | done]].
      assert (rate_count r d / 2 < m) by (apply Z.div_lt_upper_bound; lia). lia. }
    rewrite E1 in Ev. apply Forall_cons. split; [| by eapply (IH (n + 1) d1 k1); eauto; lia].
    destruct v as [v |]; [| done]. cbn. apply bool_decide_false. intros Hmk.
    apply (first_flag (flood_flags d1)) in Ev. pose proof (rate_flagged r d1 v Hr Ev Hmk). lia.
  - assert (paced r m (window_start d) k (op :: ops) =
      (k + weight (rate_event r) op <=? m) &&
      paced r m (window_start d) (k + weight (rate_event r) op) ops) as Ep by by destruct op.
    rewrite Ep in Hp. apply andb_prop in Hp as [Hk' Hp].
    pose proof (rate_step r d d1 op Hr A Ech) as Hs.
    rewrite <- (acc_start _ _ _ A Ech) in Hp.
    assert (0 <= weight (rate_event r) op) by (unfold weight; by destruct rate_event).
    apply Forall_cons. split; [| by eapply (IH (n + 1) d1 (k + weight (rate_event r) op)); eauto; lia].
    destruct v as [v |]; [| done]. by apply bool_decide_false, (reset_verdict_metric d op d1).
Qed.

(** The refusal of new streams ends by itself: a second after the last reset
    before a response, streams are accepted again. *)
Lemma refusal_ends d at_ now :
  last_pre_response_rst_at d = Some at_ -> at_ + FLOOD_WINDOW_DURATION <= now ->
  refuses_new_streams d now = Val false.
Proof.
  intros E Hnow. unfold refuses_new_streams. destruct (_ =? 0); [done |]. rewrite E.
  replace (duration_since now at_ <? FLOOD_WINDOW_DURATION) with false; [done |].
  unfold duration_since, FLOOD_WINDOW_DURATION in *. lia.
Qed.

(** At the top of their ranges two operations panic, which is why
    [flood_never_panics] counts fewer than 2^32 events. The glitch counter is
    the one counter that does not saturate; and the second assertion of the
    window update counter takes a counter that is already saturated for one
    that moved. *)
Lemma record_glitch_saturated d : record_glitch (set_glitch_count U32_MAX d) = Panic.
Proof. done. Qed.

Lemma record_window_update_saturated d :
  0 < window_update_stream0_credit d ->
  record_window_update_stream0 (set_window_update_stream0_count U32_MAX d) = Panic.
Proof.
  intros H. unfold record_window_update_stream0. cbn -[Z.ltb Z.eqb debug_assert].
  replace (0 <? window_update_stream0_credit d) with true by lia. cbn -[Z.ltb Z.eqb debug_assert].
  replace (_ - 1 <? _) with true by lia. cbn [mbind outcome_bind debug_assert].
  by replace (window_update_stream0_credit d =? 0) with false by lia.
Qed.

(** ** The properties *)

(** Whatever thresholds the listener configures, and whatever fewer than
    2^32 - 1 frames and events arrive in whatever order, no assertion of the
    detector fails and no counter overflows: the configuration is accepted,
    the detector is built, and every operation returns. *)
Theorem flood_never_panics m1 m2 m3 m4 m5 m6 m7 m8 m9 m10 m11 m12 m13 m14 t0 ops :
  Forall flood_op_ok ops -> Z.of_nat (length ops) <= U32_MAX ->
  exists c d0 d vs,
    flood_config_from_optional m1 m2 m3 m4 m5 m6 m7 m8 m9 m10 m11 m12 m13 m14 = Val c /\
    detector_new c t0 = Val d0 /\ flood_run d0 ops = Val (d, vs) /\ length vs = length ops.
Proof.
  intros Hok Hlen. unfold flood_config_from_optional.
  edestruct flood_config_new_clamped as (c & -> & Hc).
  pose proof (detector_new_Val c t0 Hc) as E.
  destruct (flood_run_ok ops 0 _ (detector_new_ok _ _ _ E)) as (d & vs & Hrun & _); [lia.. | done |].
  exists c, (mkDetector 0 0 0 0 0 0 0 0 0 0 0 0 0 0 0 0 None t0 c), d, vs.
  split; [done |]. split; [done |]. split; [done |]. by eapply flood_run_length.
Qed.

Lemma flood_never_panics_witness :
  exists c d0 d vs,
    flood_config_from_optional (Some 0) None None None None None None None None None None None
      None None = Val c /\
    detector_new c 0 = Val d0 /\
    flood_run d0 [FStreamOpened; FRst false false 5; FPing; FCheck 2000000000] = Val (d, vs) /\
    length vs = 4%nat.
Proof.
  apply (flood_never_panics (Some 0) None None None None None None None None None None None
      None None 0 [FStreamOpened; FRst false false 5; FPing; FCheck 2000000000]).
  - repeat (apply Forall_cons; split; [cbn; auto |]). by apply Forall_nil.
  - vm_compute. discriminate.
Defined.

(** C10. The verdict on a RST_STREAM is exact for the whole history of the
    connection. Write R, E, P and A for the resets received, those received
    before any response, those the peer provoked, and the streams a backend
    answered. The reset ends the connection if and only if R is over the
    lifetime cap with R - E > A, or E is over the pre-response cap with
    E + P > A: no reset is forgotten by the decay of the window, and none of a
    stream a backend answered is held against the peer. *)
Theorem rapid_reset_verdict c t0 d0 ops d vs started answered now :
  detector_new c t0 = Val d0 -> Forall flood_op_ok ops -> Z.of_nat (length ops) < U32_MAX ->
  flood_run d0 ops = Val (d, vs) -> started = true \/ answered = false ->
  let history := ops ++ [FRst started answered now] in
  let R := occurrences is_reset history in
  let E := occurrences is_early_reset history in
  let P := occurrences is_emitted history in
  let A := occurrences is_answered history in
  exists d' v, record_rst_received d started answered now = Val (d', v) /\
    (is_Some v <->
       (max_rst_stream_lifetime c < R /\ A < R - E) \/
       (max_rst_stream_abusive_lifetime c < E /\ A < E + P)).
Proof.
  intros E0 Hok Hlen Hrun Hsa history R E P A.
  destruct (flood_run_ok ops 0 _ (detector_new_ok _ _ _ E0)) as (d1 & vs1 & Hrun1 & Hd & L);
    [lia.. | done |].
  assert (d1 = d) as -> by congruence.
  destruct (record_rst_ok _ d started answered now Hd) as (d' & v & Hr & _ & Ac & Hv); [lia | done |].
  exists d', v. split; [exact Hr |]. rewrite Hv. unfold reset_cap.
  assert (config d' = c) as ->.
  { rewrite (acc_config _ _ _ Ac), (led_config _ _ _ L). by rewrite (detector_new_inv _ _ _ E0). }
  unfold R, E, P, A, history. rewrite !occurrences_snoc.
  destruct L, Ac. rewrite (detector_new_inv _ _ _ E0) in *. cbn in *. lia.
Qed.

Lemma rapid_reset_verdict_witness :
  exists d' v,
    record_rst_received
      (mkDetector 0 2 2 0 1 0 0 0 0 0 0 0 0 0 0 0 (Some 7) 0
         (mkFloodConfig 1 1 1 1 1 1 1 9 2 9 1 1 1 0)) false false 9 = Val (d', v) /\
    (is_Some v <-> (9 < 3 /\ 1 < 3 - 3) \/ (2 < 3 /\ 1 < 3 + 0)).
Proof.
  apply (rapid_reset_verdict (mkFloodConfig 1 1 1 1 1 1 1 9 2 9 1 1 1 0) 0
    (mkDetector 0 0 0 0 0 0 0 0 0 0 0 0 0 0 0 0 None 0
       (mkFloodConfig 1 1 1 1 1 1 1 9 2 9 1 1 1 0))
    [FStreamOpened; FRst false false 6; FRst false false 7]
    (mkDetector 0 2 2 0 1 0 0 0 0 0 0 0 0 0 0 0 (Some 7) 0
       (mkFloodConfig 1 1 1 1 1 1 1 9 2 9 1 1 1 0)) [None; None; None] false false 9).
  - done.
  - repeat (apply Forall_cons; split; [cbn; auto |]). by apply Forall_nil.
  - done.
  - done.
  - auto.
Defined.

(** A peer that sends at most [m] frames of a rated kind (resets, PINGs,
    SETTINGS, empty DATA, stream-0 WINDOW_UPDATEs, glitches) between two decays
    is never reported for them, for as long as the connection lives, when the
    threshold is at least 2 m - 1: the halving forgets fast enough that bursts
    do not add up. *)
Theorem paced_peer_not_reported r m c t0 d0 ops d vs :
  r ∈ rates -> 1 <= m -> 2 * m - 1 <= rate_limit r c ->
  detector_new c t0 = Val d0 -> Forall flood_op_ok ops -> Z.of_nat (length ops) <= U32_MAX ->
  paced r m t0 0 ops = true -> flood_run d0 ops = Val (d, vs) ->
  Forall (fun v => reports r v = false) vs.
Proof.
  intros Hr Hm Hl E0 Hok Hlen Hp Hrun. pose proof (detector_new_ok _ _ _ E0) as Hd.
  pose proof (detector_new_inv _ _ _ E0) as ->.
  assert (rate_count r (mkDetector 0 0 0 0 0 0 0 0 0 0 0 0 0 0 0 0 None t0 c) = 0) as Hz
    by by each_rate Hr.
  apply (paced_run r m ops 0 (mkDetector 0 0 0 0 0 0 0 0 0 0 0 0 0 0 0 0 None t0 c) 0 d vs);
    try done; lia.
Qed.

Lemma paced_peer_not_reported_witness :
  Forall (fun v => reports (mkRate ping_count max_ping_per_window is_ping
                              "h2.flood.violation.ping_window") v = false)
    [None; None; None; None; None; None].
Proof.
  apply (paced_peer_not_reported _ 2 (mkFloodConfig 1 3 1 1 1 1 1 1 1 1 1 1 1 0) 0
    (mkDetector 0 0 0 0 0 0 0 0 0 0 0 0 0 0 0 0 None 0 (mkFloodConfig 1 3 1 1 1 1 1 1 1 1 1 1 1 0))
    [FPing; FPing; FCheck 1000000000; FPing; FPing; FCheck 1000000001]
    (mkDetector 0 0 0 0 0 0 0 3 4 0 0 0 0 0 0 0 None 1000000000
       (mkFloodConfig 1 3 1 1 1 1 1 1 1 1 1 1 1 0))).
  - right. left.
  - done.
  - done.
  - done.
  - repeat (apply Forall_cons; split; [cbn; auto |]). by apply Forall_nil.
  - done.
  - done.
  - done.
Defined.
