(* ===== verification/H2Scheduler.v ===== *)
(** * Stream scheduling

    [lib/src/protocol/mux/h2_scheduler.rs]: the RFC 9218 priorities of the
    streams of a connection, the order in which a write pass serves them, the
    census of the streams that interleave, and the round-robin cursors that
    move from one pass to the next.

    An [[_; URGENCY_LEVELS]] array is a list of that length. [order] models the
    content of the reusable buffer; its capacity, which [reclaim_idle_buffer]
    trims, has no counterpart. *)

From stdpp Require Import sorting.
From Stdlib Require Import ZifyBool.
From S2P Require Import Prelude BTreeMap H2Parser.

Definition DEFAULT_URGENCY : Z := 3.
Definition MAX_PRIORITIES : Z := 4096.
Definition PRIORITY_IDLE_LOOKAHEAD : Z := 64.
Definition MAX_URGENCY : Z := 7.
Definition URGENCY_LEVELS : nat := Z.to_nat MAX_URGENCY + 1.

Record Prioriser := mkPrioriser {
  priorities : gmap Z (Z * bool);
  incremental_cursor : list Z;
}.

Definition prioriser_default : Prioriser := mkPrioriser ∅ (replicate URGENCY_LEVELS 0).

Definition set_priorities (p : Prioriser) (m : gmap Z (Z * bool)) : Prioriser :=
  mkPrioriser m (incremental_cursor p).

Definition prio_get (p : Prioriser) (stream_id : Z) : Z * bool :=
  default (DEFAULT_URGENCY, false) (priorities p !! stream_id).

(** [Prioriser::push_priority] *)
Definition push_priority (p : Prioriser) (stream_id : Z) (priority : PriorityPart)
    : checked (Prioriser * bool) :=
  _ ← debug_assert (Z.of_nat (size (priorities p)) <=? MAX_PRIORITIES);
  if negb (bool_decide (is_Some (priorities p !! stream_id))) &&
     (MAX_PRIORITIES <=? Z.of_nat (size (priorities p)))
  then Val (p, false)
  else
    match priority with
    | Rfc7540 dependency _ => Val (p, dependency_id dependency =? stream_id)
    | Rfc9218 urgency incremental =>
        let p := set_priorities p (<[stream_id := (Z.min urgency 7, incremental)]> (priorities p)) in
        _ ← debug_assert (match priorities p !! stream_id with
                          | Some (u, _) => u <=? 7
                          | None => false
                          end);
        _ ← debug_assert (Z.of_nat (size (priorities p)) <=? MAX_PRIORITIES);
        Val (p, false)
    end.

Definition is_acceptable (stream_id last_stream_id : Z) (open_streams : list (Z * Z)) : bool :=
  if bool_decide (is_Some (btree_get stream_id open_streams)) then true
  else
    let upper := u32_saturating_add last_stream_id PRIORITY_IDLE_LOOKAHEAD in
    (last_stream_id <? stream_id) && (stream_id <=? upper).

Definition push_priority_guarded (p : Prioriser) (stream_id : Z) (priority : PriorityPart)
    (last_stream_id : Z) (open_streams : list (Z * Z)) : checked (Prioriser * bool) :=
  if negb (is_acceptable stream_id last_stream_id open_streams) then Val (p, false)
  else push_priority p stream_id priority.

(** [Prioriser::remove] *)
Definition prio_remove (p : Prioriser) (stream_id : Z) : checked Prioriser :=
  let had := bool_decide (is_Some (priorities p !! stream_id)) in
  let before := size (priorities p) in
  let p := set_priorities p (delete stream_id (priorities p)) in
  _ ← debug_assert (negb (bool_decide (is_Some (priorities p !! stream_id))));
  _ ← debug_assert (size (priorities p) =? before - (if had then 1 else 0))%nat;
  Val p.

(** [bucket], the index of an urgency. *)
Definition bucket (urgency : Z) : checked nat :=
  _ ← debug_assert (urgency <=? MAX_URGENCY);
  Val (Z.to_nat (Z.min urgency MAX_URGENCY)).

(** ** The slice methods the rotation uses *)

(** [slice::partition_point], on a slice partitioned by its predicate. *)
Fixpoint partition_point (f : Z -> bool) (l : list Z) : nat :=
  match l with
  | [] => 0
  | x :: l => if f x then S (partition_point f l) else 0
  end.

Definition rotate_left (l : list Z) (k : nat) : list Z := drop k l ++ take k l.

(** [sort_by_key] with a boolean key: stable, [false] first. *)
Definition sort_by_flag (f : Z -> bool) (l : list Z) : list Z :=
  filter (fun x => f x = false) l ++ filter (fun x => f x = true) l.

(** The elements of the leading run of urgency [u], and the rest. *)
Fixpoint split_run (p : Prioriser) (u : Z) (l : list Z) : list Z * list Z :=
  match l with
  | [] => ([], [])
  | id :: l' =>
      if (prio_get p id).1 =? u
      then let '(run, rest) := split_run p u l' in (id :: run, rest)
      else ([], l)
  end.

(** The body of the loop on one same-urgency run. *)
Definition rotate_run (p : Prioriser) (cursor : Z) (run : list Z) : list Z * nat :=
  if (1 <? length run)%nat then
    let run := sort_by_flag (fun id => (prio_get p id).2) run in
    let split := partition_point (fun id => negb (prio_get p id).2) run in
    let tail := drop split run in
    let tail := if (1 <? length tail)%nat
                then rotate_left tail (partition_point (fun id => id <=? cursor) tail)
                else tail in
    (take split run ++ tail, length tail)
  else
    match run with
    | [id] => (run, if (prio_get p id).2 then 1%nat else 0%nat)
    | _ => (run, 0%nat)
    end.

(** The loop over the runs; [fuel] bounds their number. *)
Fixpoint rotation_loop (fuel : nat) (p : Prioriser) (buf : list Z) : checked (list Z * nat) :=
  match buf, fuel with
  | [], _ => Val ([], 0%nat)
  | _ :: _, O => Panic
  | id :: rest, S fuel =>
      let urgency := (prio_get p id).1 in
      let '(run, rest) := split_run p urgency rest in
      b ← bucket urgency;
      cursor ← index (incremental_cursor p) b;
      let '(run, n) := rotate_run p cursor (id :: run) in
      '(rest, total) ← rotation_loop fuel p rest;
      Val (run ++ rest, (n + total)%nat)
  end.

Fixpoint urgency_sorted (p : Prioriser) (buf : list Z) : bool :=
  match buf with
  | a :: (b :: _) as rest => ((prio_get p a).1 <=? (prio_get p b).1) && urgency_sorted p rest
  | _ => true
  end.

Definition apply_incremental_rotation (p : Prioriser) (buf : list Z) : checked (list Z * nat) :=
  _ ← debug_assert (urgency_sorted p buf);
  let expected := length (filter (fun id => (prio_get p id).2 = true) buf) in
  '(out, total) ← rotation_loop (length buf) p buf;
  _ ← debug_assert (length out =? length buf)%nat;
  _ ← debug_assert (total =? expected)%nat;
  Val (out, total).

Definition advance_incremental_cursor (p : Prioriser) (fired : list (option Z)) : Prioriser :=
  mkPrioriser (priorities p)
    (zip_with (fun cursor leader => default cursor leader) (incremental_cursor p) fired).

(** ** One write pass *)

Record ReadyIncrementalCensus := mkCensus {
  ready : list nat;
  incremental_count : nat;
  first_incremental_fired : list (option Z);
}.

Definition incremental_peer_count (c : ReadyIncrementalCensus) (urgency : Z) : checked nat :=
  b ← bucket urgency; index (ready c) b.

Definition note_ineligible (c : ReadyIncrementalCensus) (urgency : Z) (is_incremental : bool)
    : checked ReadyIncrementalCensus :=
  if negb is_incremental then Val c
  else
    b ← bucket urgency;
    slot ← index (ready c) b;
    Val (mkCensus (<[b := (slot - 1)%nat]> (ready c)) (incremental_count c)
           (first_incremental_fired c)).

Definition note_fired (c : ReadyIncrementalCensus) (urgency stream_id : Z)
    (is_incremental : bool) (consumed : Z) : checked ReadyIncrementalCensus :=
  if negb is_incremental || (consumed <=? 0) then Val c
  else
    b ← bucket urgency;
    slot ← index (first_incremental_fired c) b;
    Val (mkCensus (ready c) (incremental_count c)
           (match slot with
            | None => <[b := Some stream_id]> (first_incremental_fired c)
            | Some _ => first_incremental_fired c
            end)).

Definition ready_total (c : ReadyIncrementalCensus) : nat := sum_list (ready c).

Record H2Scheduler := mkScheduler {
  prioriser : Prioriser;
  order : list Z;
}.

Definition scheduler_default : H2Scheduler := mkScheduler prioriser_default [].

Definition scheduler_push_priority (s : H2Scheduler) (stream_id : Z) (priority : PriorityPart)
    : checked (H2Scheduler * bool) :=
  '(p, b) ← push_priority (prioriser s) stream_id priority; Val (mkScheduler p (order s), b).

Definition scheduler_push_priority_guarded (s : H2Scheduler) (stream_id : Z)
    (priority : PriorityPart) (last_stream_id : Z) (open_streams : list (Z * Z))
    : checked (H2Scheduler * bool) :=
  '(p, b) ← push_priority_guarded (prioriser s) stream_id priority last_stream_id open_streams;
  Val (mkScheduler p (order s), b).

Definition remove_stream (s : H2Scheduler) (stream_id : Z) : checked H2Scheduler :=
  p ← prio_remove (prioriser s) stream_id; Val (mkScheduler p (order s)).

(** The key of [sort_by_cached_key], compared in lexicographic order. *)
Definition key_le (p : Prioriser) (a b : Z) : Prop :=
  (prio_get p a).1 < (prio_get p b).1 \/ ((prio_get p a).1 = (prio_get p b).1 /\ a <= b).
Global Instance key_le_dec p a b : Decision (key_le p a b).
Proof. unfold key_le. apply _. Defined.

(** The census loop. *)
Fixpoint count_ready (p : Prioriser) (is_ready : Z -> bool) (order : list Z) (counts : list nat)
    : checked (list nat) :=
  match order with
  | [] => Val counts
  | id :: order =>
      let '(urgency, is_incremental) := prio_get p id in
      if negb is_incremental then count_ready p is_ready order counts
      else if is_ready id then
        b ← bucket urgency;
        n ← index counts b;
        count_ready p is_ready order (<[b := S n]> counts)
      else count_ready p is_ready order counts
  end.

Definition begin_pass (s : H2Scheduler) (stream_ids : list Z) (is_ready : Z -> bool)
    : checked (H2Scheduler * list Z * ReadyIncrementalCensus) :=
  let p := prioriser s in
  let s := mkScheduler p [] in
  let order := merge_sort (key_le p) stream_ids in
  '(order, n) ← apply_incremental_rotation p order;
  counts ← count_ready p is_ready order (replicate URGENCY_LEVELS 0%nat);
  Val (s, order, mkCensus counts n (replicate URGENCY_LEVELS None)).

Definition end_pass (s : H2Scheduler) (order : list Z) (c : ReadyIncrementalCensus) : H2Scheduler :=
  mkScheduler (advance_incremental_cursor (prioriser s) (first_incremental_fired c)) order.

(** ** The order a pass should have

    Reference: by ascending urgency, in each urgency the streams that do not
    interleave by ascending identifier, then those that do, starting after the
    cursor of the urgency and wrapping around. *)

Definition urgencies : list Z := [0; 1; 2; 3; 4; 5; 6; 7].

Definition bucket_members (p : Prioriser) (ids : list Z) (u : Z) (incremental : bool) : list Z :=
  merge_sort Z.le (filter (fun id => prio_get p id = (u, incremental)) ids).

Definition rotate_after (cursor : Z) (l : list Z) : list Z :=
  filter (fun id => cursor < id) l ++ filter (fun id => id <= cursor) l.

Definition cursor_of (p : Prioriser) (u : Z) : Z := nth (Z.to_nat u) (incremental_cursor p) 0.

Definition pass_order (p : Prioriser) (ids : list Z) : list Z :=
  urgencies ≫= fun u =>
    bucket_members p ids u false ++ rotate_after (cursor_of p u) (bucket_members p ids u true).

Record prio_ok (p : Prioriser) : Prop := {
  prio_urgency : forall id, 0 <= (prio_get p id).1 <= MAX_URGENCY;
  prio_size : Z.of_nat (size (priorities p)) <= MAX_PRIORITIES;
  prio_cursors : length (incremental_cursor p) = URGENCY_LEVELS;
}.

(** ** Slices *)

Lemma partition_point_app f l1 l2 :
  Forall (fun x => f x = true) l1 -> Forall (fun x => f x = false) l2 ->
  partition_point f (l1 ++ l2) = length l1.
Proof.
  intros H1 H2. induction H1 as [| x l1 Hx _ IH]; cbn.
  - destruct H2 as [| y l2 Hy _]; [done |]. cbn. by rewrite Hy.
  - by rewrite Hx, IH.
Qed.

Lemma sorted_split l c :
  StronglySorted Z.lt l ->
  l = filter (fun id => id <= c) l ++ filter (fun id => c < id) l.
Proof.
  induction 1 as [| x l Hl IH Hx]; [done |]. rewrite !filter_cons.
  destruct (decide (x <= c)).
  - rewrite decide_False by lia. cbn. by rewrite <- IH.
  - rewrite decide_True by lia. rewrite (filter_none _ l); [cbn; f_equal |].
    + rewrite filter_all; [done |]. eapply Forall_impl; [exact Hx |]. cbn. lia.
    + eapply Forall_impl; [exact Hx |]. cbn. lia.
Qed.

Lemma rotate_left_after l c :
  StronglySorted Z.lt l ->
  rotate_left l (partition_point (fun id => id <=? c) l) = rotate_after c l.
Proof.
  intros Hl. unfold rotate_left, rotate_after. pose proof (sorted_split l c Hl) as E.
  set (a := filter (fun id => id <= c) l) in *. set (b := filter (fun id => c < id) l) in *.
  assert (partition_point (fun id => id <=? c) l = length a) as ->.
  { rewrite E at 1. apply partition_point_app; apply Forall_forall; intros x Hx;
      apply list_elem_of_filter in Hx as [Hx _]; lia. }
  rewrite E at 1 2. by rewrite drop_app_length, take_app_length.
Qed.

Lemma rotate_after_short c l : (length l <= 1)%nat -> rotate_after c l = l.
Proof.
  unfold rotate_after. destruct l as [| x [| y l]]; [done | | cbn; lia]. intros _.
  rewrite !filter_cons. destruct (decide (c < x)).
  - by rewrite decide_False by lia.
  - by rewrite decide_True by lia.
Qed.

Lemma rotate_after_perm c l : rotate_after c l ≡ₚ l.
Proof.
  unfold rotate_after. induction l as [| x l IH]; [done |]. rewrite !filter_cons.
  destruct (decide (c < x)).
  - rewrite decide_False by lia. cbn. by rewrite IH.
  - rewrite decide_True by lia. rewrite <- Permutation_middle. by rewrite IH.
Qed.

Lemma split_run_app p u run rest :
  Forall (fun id => (prio_get p id).1 = u) run ->
  match rest with [] => True | id :: _ => (prio_get p id).1 <> u end ->
  split_run p u (run ++ rest) = (run, rest).
Proof.
  intros Hr Hrest. induction Hr as [| x run Hx _ IH]; cbn.
  - destruct rest as [| y rest]; [done |]. cbn. by replace (_ =? u) with false by lia.
  - replace (_ =? u) with true by lia. by rewrite IH.
Qed.

Lemma rotate_run_eq p c run :
  run <> [] -> StronglySorted Z.lt run ->
  rotate_run p c run =
    (filter (fun id => (prio_get p id).2 = false) run ++
     rotate_after c (filter (fun id => (prio_get p id).2 = true) run),
     length (filter (fun id => (prio_get p id).2 = true) run)).
Proof.
  intros Hne Hs. unfold rotate_run. destruct (Nat.ltb_spec 1 (length run)) as [Hl | Hl].
  - unfold sort_by_flag.
    set (a := filter (fun id => (prio_get p id).2 = false) run).
    set (b := filter (fun id => (prio_get p id).2 = true) run).
    assert (partition_point (fun id => negb (prio_get p id).2) (a ++ b) = length a) as ->.
    { apply partition_point_app; apply Forall_forall; intros x Hx;
        apply list_elem_of_filter in Hx as [Hx _]; by rewrite Hx. }
    rewrite drop_app_length, take_app_length.
    assert (StronglySorted Z.lt b) as Hb by by apply StronglySorted_filter.
    destruct (Nat.ltb_spec 1 (length b)).
    + rewrite rotate_left_after by done. by rewrite (rotate_after_perm c b) at 2.
    + by rewrite rotate_after_short by lia.
  - destruct run as [| id [| y run]]; [done | | cbn in Hl; lia].
    rewrite !filter_cons. destruct (prio_get p id).2.
    + rewrite decide_False, decide_True by done. by rewrite rotate_after_short by (cbn; lia).
    + by rewrite decide_True, decide_False by done.
Qed.

(** ** The rotation of a sorted buffer *)

Definition arrange (p : Prioriser) (u : Z) (run : list Z) : list Z :=
  filter (fun id => (prio_get p id).2 = false) run ++
  rotate_after (cursor_of p u) (filter (fun id => (prio_get p id).2 = true) run).

Lemma cursor_index p u :
  prio_ok p -> 0 <= u <= MAX_URGENCY ->
  exists b, bucket u = Val b /\
    index (incremental_cursor p) b = (Val (cursor_of p u) : checked Z).
Proof.
  intros Hp Hu. exists (Z.to_nat u). unfold bucket, index, cursor_of, MAX_URGENCY in *.
  rewrite debug_assert_true by lia. cbn [mbind outcome_bind]. rewrite Z.min_l by lia.
  split; [done |]. destruct (lookup_lt_is_Some_2 (incremental_cursor p) (Z.to_nat u)) as [x Hx].
  { rewrite (prio_cursors _ Hp). unfold URGENCY_LEVELS, MAX_URGENCY. lia. }
  rewrite Hx. f_equal. symmetry. by apply nth_lookup_Some.
Qed.

(** The loop on a buffer made of one run per urgency. *)
Lemma rotation_loop_runs p (run : Z -> list Z) us : forall fuel,
  prio_ok p -> NoDup us ->
  (forall u, u ∈ us -> 0 <= u <= MAX_URGENCY /\ StronglySorted Z.lt (run u) /\
     Forall (fun id => (prio_get p id).1 = u) (run u)) ->
  (length (us ≫= run) <= fuel)%nat ->
  rotation_loop fuel p (us ≫= run) =
    Val (us ≫= (fun u => arrange p u (run u)),
         length (filter (fun id => (prio_get p id).2 = true) (us ≫= run))).
Proof.
  induction us as [| u us IH]; intros fuel Hp Hnd Hrun Hfuel; [by destruct fuel |].
  apply NoDup_cons in Hnd as [Hu Hnd]. rewrite !bind_cons in *.
  destruct (Hrun u) as (Hb & Hs & Hall); [left |].
  assert (forall u', u' ∈ us -> 0 <= u' <= MAX_URGENCY /\ StronglySorted Z.lt (run u') /\
    Forall (fun id => (prio_get p id).1 = u') (run u')) as Hrun' by (intros; apply Hrun; by right).
  destruct (run u) as [| id ids] eqn:E; [by apply IH |].
  destruct fuel as [| fuel]; [cbn in Hfuel; lia |]. cbn [rotation_loop app].
  apply Forall_cons in Hall as [Hid Hall]. rewrite Hid.
  rewrite split_run_app; [| done |].
  - destruct (cursor_index p u Hp Hb) as (b & -> & Hc). cbn [mbind outcome_bind].
    rewrite Hc. cbn [mbind outcome_bind]. rewrite rotate_run_eq by done.
    fold (arrange p u (id :: ids)). cbn in Hfuel. rewrite length_app in Hfuel.
    rewrite (IH fuel) by (done || lia). cbn [mbind outcome_bind].
    rewrite app_comm_cons, filter_app, length_app. done.
  - destruct (us ≫= run) as [| x l] eqn:El; [done |]. intros Hx.
    assert (x ∈ us ≫= run) as Hin by (rewrite El; left).
    apply list_elem_of_bind in Hin as (u' & Hin & Hu').
    destruct (Hrun' u' Hu') as (_ & _ & Hall'). rewrite Forall_forall in Hall'.
    apply Hall' in Hin. congruence.
Qed.

(** A buffer sorted by urgency is the concatenation of its runs. *)
Lemma runs_of_sorted p us : forall l,
  StronglySorted Z.lt us -> StronglySorted (key_le p) l ->
  (forall id, id ∈ l -> (prio_get p id).1 ∈ us) ->
  l = us ≫= (fun u => filter (fun id => (prio_get p id).1 = u) l).
Proof.
  induction us as [| u us IH]; intros l Hus Hl Hin.
  { destruct l as [| x l]; [done |]. exfalso. apply (not_elem_of_nil (prio_get p x).1), Hin. left. }
  apply StronglySorted_inv in Hus as [Hus Hlt]. rewrite Forall_forall in Hlt.
  set (rest := filter (fun id => (prio_get p id).1 <> u) l).
  assert (l = filter (fun id => (prio_get p id).1 = u) l ++ rest) as E.
  { unfold rest. clear rest IH. induction Hl as [| x l Hl IH Hx]; [done |].
    rewrite !filter_cons. destruct (decide ((prio_get p x).1 = u)) as [Eu | Eu].
    - rewrite decide_False by tauto. cbn. f_equal. apply IH. intros; apply Hin. by right.
    - assert (forall y, y ∈ l -> u < (prio_get p y).1) as Hmin.
      { rewrite Forall_forall in Hx. intros y Hy. specialize (Hx y Hy). unfold key_le in Hx.
        assert ((prio_get p x).1 ∈ u :: us) as Hu by (apply Hin; left).
        apply elem_of_cons in Hu as [| Hu]; [done |]. specialize (Hlt _ Hu). lia. }
      rewrite decide_True by done.
      rewrite (filter_none _ l), (filter_all (fun id => (prio_get p id).1 <> u) l); [done | |];
        apply Forall_forall; intros y Hy; specialize (Hmin y Hy); lia. }
  rewrite bind_cons. rewrite E at 1. f_equal. rewrite (IH rest); [| done | |].
  - apply bind_ext_in. intros u' Hu'. unfold rest. rewrite list_filter_filter.
    apply filter_ext_in. intros x _. specialize (Hlt _ Hu'). lia.
  - by apply StronglySorted_filter.
  - intros x [Hx Hxl]%list_elem_of_filter. specialize (Hin x Hxl).
    apply elem_of_cons in Hin as [|]; done.
Qed.

Global Instance key_le_total p : Total (key_le p).
Proof. intros a b. unfold key_le. lia. Qed.

Global Instance key_le_trans p : Transitive (key_le p).
Proof. intros a b c. unfold key_le. lia. Qed.

Lemma le_sorted_unique l1 l2 :
  StronglySorted Z.le l1 -> StronglySorted Z.le l2 -> l1 ≡ₚ l2 -> l1 = l2.
Proof. apply StronglySorted_unique. apply _. Qed.

Lemma lt_le_sorted l : StronglySorted Z.lt l -> StronglySorted Z.le l.
Proof.
  induction 1 as [| x l Hl IH Hx]; constructor; [done |].
  eapply Forall_impl; [exact Hx |]. cbn. lia.
Qed.

(** The run of an urgency, in the sorted buffer, is strictly ascending. *)
Lemma run_sorted p l u :
  NoDup l -> StronglySorted (key_le p) l ->
  StronglySorted Z.lt (filter (fun id => (prio_get p id).1 = u) l).
Proof.
  intros Hnd. induction 1 as [| x l Hl IH Hx]; [constructor |].
  apply NoDup_cons in Hnd as [Hxl Hnd]. rewrite filter_cons. case_decide as Eu; [| by apply IH].
  constructor; [by apply IH |]. rewrite Forall_forall in Hx |- *.
  intros y [Ey Hy]%list_elem_of_filter. specialize (Hx y Hy). unfold key_le in Hx.
  assert (x <> y) by (intros ->; done). lia.
Qed.

(** Its members, by flag, are those of the reference. *)
Lemma run_members p ids u (b : bool) :
  NoDup ids ->
  filter (fun id => (prio_get p id).2 = b)
    (filter (fun id => (prio_get p id).1 = u) (merge_sort (key_le p) ids)) =
  bucket_members p ids u b.
Proof.
  intros Hnd. apply le_sorted_unique.
  - apply lt_le_sorted, StronglySorted_filter, run_sorted.
    + by rewrite merge_sort_Permutation.
    + apply StronglySorted_merge_sort; apply _.
  - apply StronglySorted_merge_sort; apply _.
  - unfold bucket_members. rewrite (merge_sort_Permutation Z.le), list_filter_filter.
    rewrite (merge_sort_Permutation (key_le p) ids). apply Permutation_refl'.
    apply filter_ext_in. intros x _. destruct (prio_get p x). cbn. naive_solver.
Qed.

Lemma arrange_sorted_runs p ids :
  NoDup ids ->
  urgencies ≫= (fun u => arrange p u (filter (fun id => (prio_get p id).1 = u)
                                       (merge_sort (key_le p) ids))) = pass_order p ids.
Proof.
  intros Hnd. apply bind_ext_in. intros u _. unfold arrange. by rewrite !run_members.
Qed.

Lemma urgency_sorted_true p l : StronglySorted (key_le p) l -> urgency_sorted p l = true.
Proof.
  induction 1 as [| x l Hl IH Hx]; [done |]. cbn. destruct l as [| y l]; [done |].
  rewrite IH, andb_true_r. apply Forall_cons in Hx as [Hx _]. unfold key_le in Hx. lia.
Qed.

(** Every urgency is one of [urgencies], so the runs cover the buffer. *)
Lemma sorted_runs p ids :
  prio_ok p ->
  merge_sort (key_le p) ids =
    urgencies ≫= (fun u => filter (fun id => (prio_get p id).1 = u) (merge_sort (key_le p) ids)).
Proof.
  intros Hp. apply runs_of_sorted.
  - repeat constructor; lia.
  - apply StronglySorted_merge_sort; apply _.
  - intros id _. pose proof (prio_urgency _ Hp id). unfold urgencies, MAX_URGENCY in *.
    repeat rewrite elem_of_cons. lia.
Qed.

Lemma arrange_perm p u run : arrange p u run ≡ₚ run.
Proof.
  unfold arrange. rewrite rotate_after_perm. induction run as [| x l IH]; [done |].
  rewrite !filter_cons. destruct (prio_get p x).2.
  - rewrite decide_False, decide_True by done. by rewrite <- Permutation_middle, IH.
  - rewrite decide_True, decide_False by done. cbn. by rewrite IH.
Qed.

Lemma pass_order_perm p ids : prio_ok p -> NoDup ids -> pass_order p ids ≡ₚ ids.
Proof.
  intros Hp Hnd. rewrite <- arrange_sorted_runs by done.
  transitivity (merge_sort (key_le p) ids); [| apply merge_sort_Permutation].
  etransitivity; [| apply Permutation_refl'; symmetry; apply (sorted_runs p ids Hp)].
  generalize urgencies as us. induction us as [| u us IH]; [done |].
  rewrite !bind_cons, IH. by rewrite arrange_perm.
Qed.

Lemma apply_incremental_rotation_eq p ids :
  prio_ok p -> NoDup ids ->
  apply_incremental_rotation p (merge_sort (key_le p) ids) =
    Val (pass_order p ids, length (filter (fun id => (prio_get p id).2 = true) ids)).
Proof.
  intros Hp Hnd. set (l := merge_sort (key_le p) ids).
  assert (StronglySorted (key_le p) l) as Hl by (apply StronglySorted_merge_sort; apply _).
  pose proof (sorted_runs p ids Hp) as E. fold l in E.
  unfold apply_incremental_rotation.
  assert (rotation_loop (length l) p l = Val (pass_order p ids,
    length (filter (fun id => (prio_get p id).2 = true) l))) as Hloop.
  { rewrite E at 2. rewrite rotation_loop_runs.
    - rewrite <- E. unfold l. by rewrite arrange_sorted_runs.
    - done.
    - repeat constructor; set_solver.
    - intros u Hu. split; [unfold urgencies, MAX_URGENCY in *; set_solver by lia |].
      split; [apply run_sorted; [unfold l; by rewrite merge_sort_Permutation | done] |].
      apply Forall_forall. by intros x [Hx _]%list_elem_of_filter.
    - by rewrite <- E. }
  run_assert by by apply urgency_sorted_true. rewrite Hloop. cbn [mbind outcome_bind].
  run_assert by (rewrite pass_order_perm by done; unfold l; rewrite merge_sort_Permutation;
                 apply Nat.eqb_refl).
  run_assert by apply Nat.eqb_refl. unfold l. by rewrite (merge_sort_Permutation _ ids).
Qed.

(** ** The census *)

Definition interleaves (p : Prioriser) (u id : Z) : Prop := prio_get p id = (u, true).
Global Instance interleaves_dec p u id : Decision (interleaves p u id).
Proof. unfold interleaves. apply _. Defined.

Lemma bucket_ok u : 0 <= u <= MAX_URGENCY -> bucket u = Val (Z.to_nat u).
Proof.
  intros Hu. unfold bucket. rewrite debug_assert_true by lia. cbn. by rewrite Z.min_l by lia.
Qed.

Lemma bucket_lookup {A} (l : list A) u :
  length l = URGENCY_LEVELS -> 0 <= u <= MAX_URGENCY -> is_Some (l !! Z.to_nat u).
Proof.
  intros Hl Hu. apply lookup_lt_is_Some_2. rewrite Hl.
  unfold URGENCY_LEVELS, MAX_URGENCY in *. lia.
Qed.

Lemma count_ready_eq p is_ready order : forall counts,
  prio_ok p -> length counts = URGENCY_LEVELS ->
  exists counts', count_ready p is_ready order counts = Val counts' /\
    length counts' = URGENCY_LEVELS /\
    forall u n, 0 <= u <= MAX_URGENCY -> counts !! Z.to_nat u = Some n ->
      counts' !! Z.to_nat u =
        Some (n + length (filter (fun id => interleaves p u id /\ is_ready id = true) order))%nat.
Proof.
  induction order as [| id order IH]; intros counts Hp Hl.
  { exists counts. split; [done |]. split; [done |]. intros u n _ ->. f_equal. cbn. lia. }
  cbn [count_ready]. pose proof (prio_urgency _ Hp id) as Hu.
  destruct (prio_get p id) as [v b] eqn:Eid. cbn [fst] in Hu.
  assert (forall P : Prop, negb b = true \/ is_ready id = false ->
    exists counts', count_ready p is_ready order counts = Val counts' /\
      length counts' = URGENCY_LEVELS /\
      forall u n, 0 <= u <= MAX_URGENCY -> counts !! Z.to_nat u = Some n ->
        counts' !! Z.to_nat u = Some (n + length (filter
          (fun id => interleaves p u id /\ is_ready id = true) (id :: order)))%nat) as Hskip.
  { intros _ Hb. destruct (IH counts Hp Hl) as (c & Ec & Hc & Hlook). exists c.
    split; [done |]. split; [done |]. intros u n Hun En. rewrite (Hlook u n Hun En).
    rewrite filter_cons, decide_False; [done |]. unfold interleaves. rewrite Eid.
    destruct Hb as [Hb | ->]; [destruct b; naive_solver | naive_solver]. }
  destruct b; cbn [negb]; [| apply (Hskip True); by left].
  destruct (is_ready id) eqn:Er; [| apply (Hskip True); by right].
  rewrite bucket_ok by done. cbn [mbind outcome_bind].
  destruct (bucket_lookup counts v Hl Hu) as [k Hk]. rewrite (index_Some _ _ k) by done.
  cbn [mbind outcome_bind].
  destruct (IH (<[Z.to_nat v := S k]> counts) Hp) as (c & Ec & Hc & Hlook);
    [by rewrite length_insert |].
  exists c. split; [done |]. split; [done |]. intros u n Hun En. rewrite filter_cons.
  destruct (decide (u = v)) as [-> | Hne].
  - rewrite decide_True by done. cbn [length].
    rewrite (Hlook v (S k) Hun); [f_equal; rewrite Hk in En; injection En; lia |].
    apply list_lookup_insert_eq, lookup_lt_is_Some_1. by eexists.
  - rewrite decide_False by (unfold interleaves; rewrite Eid; naive_solver).
    apply Hlook; [done |]. rewrite list_lookup_insert_ne; [done | lia].
Qed.

(** The interleaving streams of an urgency, in the order of the pass. *)
Lemma pass_order_tail p ids u :
  u ∈ urgencies ->
  filter (interleaves p u) (pass_order p ids) =
    rotate_after (cursor_of p u) (bucket_members p ids u true).
Proof.
  intros Hu. unfold pass_order.
  assert (forall v b id, id ∈ bucket_members p ids v b -> prio_get p id = (v, b)) as Hin.
  { intros v b id. unfold bucket_members. rewrite merge_sort_Permutation.
    by intros [H _]%list_elem_of_filter. }
  assert (forall us, u ∉ us -> filter (interleaves p u) (us ≫= fun v =>
    bucket_members p ids v false ++ rotate_after (cursor_of p v) (bucket_members p ids v true)) = [])
    as Hnone.
  { intros us Hus. apply filter_none, Forall_forall. intros id Hid E.
    apply list_elem_of_bind in Hid as (v & Hid & Hv). rewrite rotate_after_perm in Hid.
    unfold interleaves in E. apply elem_of_app in Hid as [Hid | Hid]; apply Hin in Hid;
      rewrite Hid in E; by simplify_eq. }
  assert (filter (interleaves p u) (bucket_members p ids u false ++
    rotate_after (cursor_of p u) (bucket_members p ids u true)) =
    rotate_after (cursor_of p u) (bucket_members p ids u true)) as Hhere.
  { rewrite filter_app, (filter_none _ (bucket_members _ _ _ _)), filter_all; [done | |];
      apply Forall_forall; intros id; rewrite ?rotate_after_perm; intros Hid%Hin; [done |].
    unfold interleaves. by rewrite Hid. }
  apply list_elem_of_split in Hu as (us1 & us2 & E).
  assert (NoDup urgencies) as Hnd by (repeat constructor; set_solver).
  rewrite E in Hnd |- *. apply NoDup_app in Hnd as (_ & H1 & Hnd).
  apply NoDup_cons in Hnd as [H2 _].
  assert (u ∉ us1) as Hus1 by (intros Hu; apply (H1 u Hu); left).
  rewrite bind_app, bind_cons, filter_app, (Hnone us1 Hus1), filter_app, Hhere, (Hnone us2 H2).
  by rewrite app_nil_r.
Qed.

Lemma begin_pass_Val s ids is_ready :
  prio_ok (prioriser s) -> NoDup ids ->
  let p := prioriser s in
  exists counts,
    begin_pass s ids is_ready =
      Val (mkScheduler p [], pass_order p ids,
           mkCensus counts (length (filter (fun id => (prio_get p id).2 = true) ids))
             (replicate URGENCY_LEVELS None)) /\
    forall u, u ∈ urgencies ->
      counts !! Z.to_nat u =
        Some (length (filter (fun id => is_ready id = true) (bucket_members p ids u true))).
Proof.
  intros Hp Hnd p.
  destruct (count_ready_eq p is_ready (pass_order p ids) (replicate URGENCY_LEVELS 0%nat) Hp)
    as (counts & Ec & _ & Hlook); [by rewrite length_replicate |].
  exists counts. split.
  - unfold begin_pass. fold p. rewrite apply_incremental_rotation_eq by done.
    cbn [mbind outcome_bind]. rewrite Ec. done.
  - intros u Hu. assert (0 <= u <= MAX_URGENCY) as Hb
      by (unfold urgencies, MAX_URGENCY in *; set_solver by lia).
    rewrite (Hlook u 0%nat Hb).
    + f_equal. rewrite Nat.add_0_l.
      transitivity (length (filter (fun id => is_ready id = true)
                              (filter (interleaves p u) (pass_order p ids)))).
      * rewrite list_filter_filter. f_equal. apply filter_ext_in. tauto.
      * rewrite pass_order_tail by done. by rewrite rotate_after_perm.
    + apply lookup_replicate. unfold URGENCY_LEVELS, MAX_URGENCY in *. lia.
Qed.

(** ** The invariant *)

Lemma prioriser_default_ok : prio_ok prioriser_default.
Proof.
  constructor; [| by vm_compute | done]. intros id. unfold prio_get, prioriser_default. cbn [priorities].
  rewrite lookup_empty. cbn. unfold DEFAULT_URGENCY, MAX_URGENCY. lia.
Qed.

Lemma prio_insert_ok p id u b :
  prio_ok p -> 0 <= u ->
  is_Some (priorities p !! id) \/ Z.of_nat (size (priorities p)) < MAX_PRIORITIES ->
  prio_ok (set_priorities p (<[id := (Z.min u 7, b)]> (priorities p))).
Proof.
  intros [H1 H2 H3] Hu Hroom. constructor; [| | done].
  - intros id'. unfold prio_get, MAX_URGENCY in *. cbn. specialize (H1 id').
    destruct (decide (id = id')) as [-> |].
    + rewrite lookup_insert_eq. cbn. lia.
    + by rewrite lookup_insert_ne.
  - cbn. rewrite map_size_insert. destruct Hroom as [[x ->] |]; [done |].
    destruct (priorities p !! id); cbn; lia.
Qed.

Definition priority_part_ok (part : PriorityPart) : Prop :=
  match part with Rfc9218 u _ => 0 <= u | Rfc7540 _ _ => True end.

Lemma push_priority_Val p id part :
  prio_ok p -> priority_part_ok part ->
  exists p' b, push_priority p id part = Val (p', b) /\ prio_ok p' /\
    incremental_cursor p' = incremental_cursor p.
Proof.
  intros Hp Hpart. unfold push_priority. pose proof (prio_size _ Hp) as Hsize.
  rewrite debug_assert_true by lia. cbn [mbind outcome_bind].
  destruct (_ && _) eqn:Efull; [by exists p, false |].
  destruct part as [d w | u i]; [by eexists p, _ |]. cbn in Hpart.
  assert (prio_ok (set_priorities p (<[id := (Z.min u 7, i)]> (priorities p)))) as Hp'.
  { apply prio_insert_ok; [done | done |].
    destruct (decide (is_Some (priorities p !! id))); [by left | right].
    rewrite bool_decide_false in Efull by done. cbn in Efull. lia. }
  eexists _, false. split; [| by split].
  run_assert by (cbn; rewrite lookup_insert_eq; lia).
  run_assert by (pose proof (prio_size _ Hp'); lia). done.
Qed.

Lemma prio_remove_Val p id :
  prio_ok p ->
  exists p', prio_remove p id = Val p' /\ prio_ok p' /\ prio_get p' id = (DEFAULT_URGENCY, false) /\
    incremental_cursor p' = incremental_cursor p.
Proof.
  intros Hp. unfold prio_remove. eexists. split.
  - run_assert by (cbn; rewrite lookup_delete_eq; by rewrite bool_decide_false by (by intros [])).
    run_assert by (cbn; rewrite map_size_delete; destruct (priorities p !! id) eqn:E; cbn;
      rewrite ?bool_decide_true, ?bool_decide_false by (done || by intros []);
      apply Nat.eqb_eq; lia). done.
  - destruct Hp as [H1 H2 H3]. split; [constructor; [| | done] |].
    + intros id'. unfold prio_get, MAX_URGENCY in *. cbn. specialize (H1 id').
      destruct (decide (id = id')) as [-> |].
      * rewrite lookup_delete_eq. cbn. unfold DEFAULT_URGENCY. lia.
      * by rewrite lookup_delete_ne.
    + cbn. pose proof (map_size_delete_le (priorities p) id). lia.
    + split; [| done]. unfold prio_get. cbn. by rewrite lookup_delete_eq.
Qed.

Lemma advance_ok p fired :
  prio_ok p -> length fired = URGENCY_LEVELS -> prio_ok (advance_incremental_cursor p fired).
Proof.
  intros [H1 H2 H3] Hf. constructor; [done | done |]. cbn. rewrite length_zip_with. lia.
Qed.

(** ** Passes

    A write pass as the connection runs it: the order, then one report per
    stream with the window it consumed, then the commit of the cursors. The
    leaders are the streams the cursors move to. *)

Fixpoint report_all (p : Prioriser) (consumed : Z -> Z) (order : list Z)
    (c : ReadyIncrementalCensus) : checked ReadyIncrementalCensus :=
  match order with
  | [] => Val c
  | id :: order =>
      let '(urgency, is_incremental) := prio_get p id in
      c ← note_fired c urgency id is_incremental (consumed id);
      report_all p consumed order c
  end.

Definition write_pass (s : H2Scheduler) (ids : list Z) (consumed : Z -> Z)
    : checked (H2Scheduler * list (option Z)) :=
  '(s, order, c) ← begin_pass s ids (fun _ => true);
  c ← report_all (prioriser s) consumed order c;
  Val (end_pass s order c, first_incremental_fired c).


(** The first stream of an urgency that moved octets. *)
Definition first_mover (p : Prioriser) (consumed : Z -> Z) (u : Z) (order : list Z) : option Z :=
  head (filter (fun id => 0 < consumed id) (filter (interleaves p u) order)).

Lemma note_fired_Val c u id (b : bool) consumed :
  length (first_incremental_fired c) = URGENCY_LEVELS -> 0 <= u <= MAX_URGENCY ->
  exists c', note_fired c u id b consumed = Val c' /\
    length (first_incremental_fired c') = URGENCY_LEVELS /\
    forall v, 0 <= v <= MAX_URGENCY ->
      first_incremental_fired c' !! Z.to_nat v =
        (if decide (v = u /\ b = true /\ 0 < consumed /\
                    first_incremental_fired c !! Z.to_nat v = Some None)
         then Some (Some id) else first_incremental_fired c !! Z.to_nat v).
Proof.
  intros Hl Hu. unfold note_fired.
  destruct (negb b || (consumed <=? 0)) eqn:E.
  { exists c. split; [done |]. split; [done |]. intros v Hv. case_decide as H; [| done].
    destruct H as (_ & -> & H & _). cbn in E. lia. }
  rewrite bucket_ok by done. cbn [mbind outcome_bind].
  destruct (bucket_lookup (first_incremental_fired c) u Hl Hu) as [slot Hs].
  rewrite (index_Some _ _ slot) by done. cbn [mbind outcome_bind].
  eexists. split; [done |]. cbn [first_incremental_fired].
  split; [destruct slot; by rewrite ?length_insert |]. intros v Hv.
  destruct (decide (v = u)) as [-> | Hne].
  - rewrite Hs. destruct slot as [x |].
    + rewrite decide_False by naive_solver. done.
    + rewrite decide_True by (destruct b; cbn in E; [split_and!; done || lia | done]).
      apply list_lookup_insert_eq, lookup_lt_is_Some_1. by eexists.
  - rewrite decide_False by naive_solver. destruct slot; [done |].
    apply list_lookup_insert_ne. lia.
Qed.

(** Reports only fill empty slots, each with the first mover of its urgency. *)
Lemma report_all_Val p consumed order : forall c,
  prio_ok p -> length (first_incremental_fired c) = URGENCY_LEVELS ->
  exists c', report_all p consumed order c = Val c' /\
    length (first_incremental_fired c') = URGENCY_LEVELS /\
    forall u, 0 <= u <= MAX_URGENCY ->
      first_incremental_fired c' !! Z.to_nat u =
        match first_incremental_fired c !! Z.to_nat u with
        | Some None => Some (first_mover p consumed u order)
        | o => o
        end.
Proof.
  induction order as [| id order IH]; intros c Hp Hl.
  { exists c. split; [done |]. split; [done |]. intros u _. by repeat case_match. }
  pose proof (prio_urgency _ Hp id) as Hu. cbn [report_all].
  destruct (prio_get p id) as [v b] eqn:Eid. cbn [fst] in Hu.
  destruct (note_fired_Val c v id b (consumed id) Hl Hu) as (c1 & -> & Hl1 & H1).
  cbn [mbind outcome_bind]. destruct (IH c1 Hp Hl1) as (c2 & E2 & Hl2 & H2).
  exists c2. split; [done |]. split; [done |]. intros u Hb. rewrite (H2 u Hb), (H1 u Hb).
  destruct (bucket_lookup (first_incremental_fired c) u Hl Hb) as [slot Hs]. rewrite Hs.
  destruct slot as [x |]; [by rewrite decide_False by naive_solver |].
  unfold first_mover at 2. rewrite filter_cons.
  destruct (decide (interleaves p u id)) as [E | E]; unfold interleaves in E; rewrite Eid in E.
  - injection E as -> ->. rewrite filter_cons. destruct (decide (0 < consumed id)).
    + by rewrite decide_True by done.
    + rewrite decide_False by naive_solver. done.
  - rewrite decide_False by naive_solver. done.
Qed.

(** ** Fairness *)




(** One pass, seen from one urgency. *)
Lemma write_pass_Val s ids consumed u :
  prio_ok (prioriser s) -> NoDup ids -> u ∈ urgencies ->
  let p := prioriser s in
  let leader := head (filter (fun id => 0 < consumed id)
                        (rotate_after (cursor_of p u) (bucket_members p ids u true))) in
  exists s' leaders,
    write_pass s ids consumed = Val (s', leaders) /\ prio_ok (prioriser s') /\
    priorities (prioriser s') = priorities p /\
    leaders !! Z.to_nat u = Some leader /\
    cursor_of (prioriser s') u = default (cursor_of p u) leader.
Proof.
  intros Hp Hnd Hu p leader. unfold write_pass.
  assert (0 <= u <= MAX_URGENCY) as Hb by (unfold urgencies, MAX_URGENCY in *; set_solver by lia).
  destruct (begin_pass_Val s ids (fun _ => true) Hp Hnd) as (counts & -> & _).
  cbn [mbind outcome_bind prioriser].
  destruct (report_all_Val p consumed (pass_order p ids)
    (mkCensus counts (length (filter (fun id => (prio_get p id).2 = true) ids))
       (replicate URGENCY_LEVELS None)) Hp) as (c & Ec & Hl & Hlook); [done |].
  fold p. rewrite Ec. cbn [mbind outcome_bind]. eexists _, _. split; [done |].
  specialize (Hlook u Hb). cbn [first_incremental_fired] in Hlook.
  rewrite lookup_replicate_2 in Hlook by (unfold URGENCY_LEVELS, MAX_URGENCY in *; lia).
  unfold first_mover in Hlook. rewrite pass_order_tail in Hlook by done. fold leader in Hlook.
  split; [by apply advance_ok |]. split; [done |]. split; [done |].
  unfold cursor_of. cbn. destruct (bucket_lookup (incremental_cursor p) u) as [x Hx];
    [apply (prio_cursors _ Hp) | done |].
  rewrite (nth_lookup_Some _ _ 0 x Hx). apply nth_lookup_Some.
  rewrite lookup_zip_with, Hx, Hlook. done.
Qed.






(** ** Reachable schedulers *)

Inductive sched_op : Type :=
| SPush (stream_id : Z) (priority : PriorityPart)
| SPushGuarded (stream_id : Z) (priority : PriorityPart) (last_stream_id : Z)
    (open_streams : list (Z * Z))
| SRemove (stream_id : Z)
| SPass (stream_ids : list Z) (consumed : Z -> Z).

Definition sched_op_ok (op : sched_op) : Prop :=
  match op with
  | SPush _ part | SPushGuarded _ part _ _ => priority_part_ok part
  | SRemove _ => True
  | SPass ids _ => NoDup ids
  end.

Definition sched_step (s : H2Scheduler) (op : sched_op) : checked H2Scheduler :=
  match op with
  | SPush id part => '(s, _) ← scheduler_push_priority s id part; Val s
  | SPushGuarded id part last opens =>
      '(s, _) ← scheduler_push_priority_guarded s id part last opens; Val s
  | SRemove id => remove_stream s id
  | SPass ids consumed => '(s, _) ← write_pass s ids consumed; Val s
  end.

Fixpoint sched_run (s : H2Scheduler) (ops : list sched_op) : checked H2Scheduler :=
  match ops with
  | [] => Val s
  | op :: ops => s ← sched_step s op; sched_run s ops
  end.

Lemma push_priority_guarded_Val p id part last opens :
  prio_ok p -> priority_part_ok part ->
  exists p' b, push_priority_guarded p id part last opens = Val (p', b) /\ prio_ok p'.
Proof.
  intros Hp Hpart. unfold push_priority_guarded. destruct (negb _); [by exists p, false |].
  destruct (push_priority_Val p id part Hp Hpart) as (p' & b & ? & ? & _). by exists p', b.
Qed.

Lemma sched_step_Val s op :
  prio_ok (prioriser s) -> sched_op_ok op ->
  exists s', sched_step s op = Val s' /\ prio_ok (prioriser s').
Proof.
  intros Hp Hop. destruct op as [id part | id part last opens | id | ids consumed]; cbn in *.
  - unfold scheduler_push_priority.
    destruct (push_priority_Val _ id part Hp Hop) as (p' & b & -> & ? & _). by eexists.
  - unfold scheduler_push_priority_guarded.
    destruct (push_priority_guarded_Val _ id part last opens Hp Hop) as (p' & b & -> & ?).
    by eexists.
  - unfold remove_stream. destruct (prio_remove_Val _ id Hp) as (p' & -> & ? & _). by eexists.
  - destruct (write_pass_Val s ids consumed 0 Hp Hop) as (s' & ls & -> & ? & _); [left |].
    by eexists.
Qed.

(** ** The properties *)

(** C26. The order of a write pass, against its reference: the in-place sort,
    partition and rotation give exactly the streams of the connection, by
    ascending urgency, in each urgency the sequential streams first and then
    the interleaving ones, starting after the urgency's own cursor; the census
    counts exactly the ready interleaving streams of each urgency. No assertion
    fails. *)
Theorem begin_pass_order s ids is_ready :
  prio_ok (prioriser s) -> NoDup ids ->
  let p := prioriser s in
  pass_order p ids ≡ₚ ids /\
  exists census,
    begin_pass s ids is_ready = Val (mkScheduler p [], pass_order p ids, census) /\
    forall u, 0 <= u <= MAX_URGENCY ->
      incremental_peer_count census u =
        Val (length (filter (fun id => is_ready id = true) (bucket_members p ids u true))).
Proof.
  intros Hp Hnd p. split; [by apply pass_order_perm |].
  destruct (begin_pass_Val s ids is_ready Hp Hnd) as (counts & E & Hc).
  eexists. split; [exact E |]. intros u Hu. unfold incremental_peer_count.
  rewrite bucket_ok by done. apply index_Some, Hc. unfold urgencies, MAX_URGENCY in *.
  repeat rewrite elem_of_cons. lia.
Qed.

Lemma begin_pass_order_witness :
  exists census,
    begin_pass (mkScheduler (mkPrioriser {[5 := (1, true); 7 := (1, true); 9 := (1, false)]}
                               [0; 5; 0; 0; 0; 0; 0; 0]) []) [3; 5; 7; 9] (fun id => id <? 6) =
      Val (mkScheduler (mkPrioriser {[5 := (1, true); 7 := (1, true); 9 := (1, false)]}
                          [0; 5; 0; 0; 0; 0; 0; 0]) [], [9; 7; 5; 3], census) /\
    incremental_peer_count census 1 = Val 1%nat.
Proof.
  destruct (begin_pass_order
    (mkScheduler (mkPrioriser {[5 := (1, true); 7 := (1, true); 9 := (1, false)]}
       [0; 5; 0; 0; 0; 0; 0; 0]) []) [3; 5; 7; 9] (fun id => id <? 6)) as (_ & c & E & H).
  - constructor; [| by vm_compute | done]. intros id. unfold prio_get. cbn [prioriser priorities].
    destruct (_ !! id) as [[u b] |] eqn:Eid; cbn; [| unfold DEFAULT_URGENCY, MAX_URGENCY; lia].
    repeat apply lookup_insert_Some in Eid as [[_ [= <- <-]] | [_ Eid]]; cbn;
      unfold MAX_URGENCY; try lia.
    by apply lookup_singleton_Some in Eid as [_ [= <- <-]].
  - apply (bool_decide_unpack _). by vm_compute.
  - exists c. split; [exact E |]. rewrite H by (unfold MAX_URGENCY; lia). by vm_compute.
Defined.



(** A PRIORITY flood is bounded: whatever priorities a peer announces, on
    its header blocks or in frames of their own, and whatever passes and
    removals come between, no assertion fails, the map never holds more than
    4096 streams, and every urgency stays within [0, 7]. *)
Theorem priority_flood_bounded ops :
  Forall sched_op_ok ops ->
  exists s, sched_run scheduler_default ops = Val s /\
    Z.of_nat (size (priorities (prioriser s))) <= MAX_PRIORITIES /\
    forall id, 0 <= (prio_get (prioriser s) id).1 <= MAX_URGENCY.
Proof.
  intros Hops.
  assert (forall s, prio_ok (prioriser s) ->
    exists s', sched_run s ops = Val s' /\ prio_ok (prioriser s')) as H.
  { induction Hops as [| op ops Hop _ IH]; intros s Hp; [by exists s |].
    destruct (sched_step_Val s op Hp Hop) as (s1 & E & Hp1). cbn [sched_run]. rewrite E.
    apply (IH s1 Hp1). }
  destruct (H scheduler_default prioriser_default_ok) as (s & E & [? ? ?]). by exists s.
Qed.

Lemma priority_flood_bounded_witness :
  exists s,
    sched_run scheduler_default
      [SPush 1 (Rfc9218 9 true); SPushGuarded 99 (Rfc9218 0 false) 1 []; SRemove 1] = Val s /\
    Z.of_nat (size (priorities (prioriser s))) <= MAX_PRIORITIES /\
    forall id, 0 <= (prio_get (prioriser s) id).1 <= MAX_URGENCY.
Proof. apply priority_flood_bounded. repeat constructor; cbn; lia. Defined.
