(* ===== verification/H2Drain.v ===== *)
(** * Draining and closing a connection

    [lib/src/protocol/mux/h2_drain.rs]: the bookkeeping of the two GOAWAY
    frames and of the time granted to the streams in flight; and
    [lib/src/protocol/mux/h2_close.rs]: the decisions to close a connection
    while the TLS layer may still hold records.

    Instants and durations are counts of nanoseconds. *)

From Stdlib Require Import ZifyBool.
From S2P Require Import Prelude H2FloodDetector.

(** ** Drain state *)

Record H2DrainState := mkDrain {
  draining : bool;
  peer_last_stream_id : option Z;
  started_at : option Z;
  graceful_shutdown_deadline : option Z;
}.

Inductive GracefulDrainDecision : Type :=
| AlreadyDraining
| SendInitial.

Global Instance GracefulDrainDecision_eq_dec : EqDecision GracefulDrainDecision.
Proof. solve_decision. Defined.

(** The assertion of [check_invariants]. *)
Definition check_drain (d : H2DrainState) : checked unit :=
  debug_assert (negb (bool_decide (is_Some (started_at d))) || draining d).

Definition drain_new (deadline : option Z) : checked H2DrainState :=
  let state := mkDrain false None None deadline in
  _ ← check_drain state;
  Val state.

Definition deadline_elapsed (d : H2DrainState) (now : Z) : bool :=
  match started_at d, graceful_shutdown_deadline d with
  | Some started, Some deadline => deadline <=? duration_since now started
  | _, _ => false
  end.

Definition observe_peer_goaway (d : H2DrainState) (last_stream_id : Z) : checked H2DrainState :=
  let d := mkDrain true (Some last_stream_id) (started_at d) (graceful_shutdown_deadline d) in
  _ ← debug_assert (draining d);
  _ ← debug_assert (bool_decide (peer_last_stream_id d = Some last_stream_id));
  _ ← check_drain d;
  Val d.

Definition begin_graceful_drain (d : H2DrainState) (now : Z)
    : checked (H2DrainState * GracefulDrainDecision) :=
  if draining d then Val (d, AlreadyDraining)
  else
    _ ← debug_assert (bool_decide (started_at d = None));
    let d := mkDrain true (peer_last_stream_id d) (Some now) (graceful_shutdown_deadline d) in
    _ ← debug_assert (draining d);
    _ ← debug_assert (bool_decide (started_at d = Some now));
    _ ← check_drain d;
    Val (d, SendInitial).

Definition arm_deadline_if_unarmed (d : H2DrainState) (now : Z) : checked H2DrainState :=
  _ ← debug_assert (draining d);
  let started := started_at d in
  let d := match started with
           | None => mkDrain (draining d) (peer_last_stream_id d) (Some now)
                       (graceful_shutdown_deadline d)
           | Some _ => d
           end in
  _ ← debug_assert (bool_decide (started_at d = Some (default now started)));
  _ ← check_drain d;
  Val d.

Definition enter_final_goaway (d : H2DrainState) : checked H2DrainState :=
  let started := started_at d in
  let d := mkDrain true (peer_last_stream_id d) (started_at d) (graceful_shutdown_deadline d) in
  _ ← debug_assert (draining d);
  _ ← debug_assert (bool_decide (started_at d = started));
  _ ← check_drain d;
  Val d.

(** ** Close decisions *)

Inductive TlsFlushPhase : Type :=
| BeforeFlush
| AfterFlush.

Inductive CloseAction : Type :=
| CloseSession
| Flush
| ReArmAndContinue
| Disconnect.

Definition goaway_close_action (phase : TlsFlushPhase) (peer_gone tls_wants_write : bool)
    : CloseAction :=
  match phase with
  | BeforeFlush =>
      if peer_gone then CloseSession else if tls_wants_write then Flush else Disconnect
  | AfterFlush => if tls_wants_write then ReArmAndContinue else Disconnect
  end.

Definition error_close_action (tls_wants_write : bool) : CloseAction :=
  if tls_wants_write then ReArmAndContinue else CloseSession.

Definition force_disconnect_action (peer_gone tls_wants_write : bool) : CloseAction :=
  if peer_gone then CloseSession
  else if tls_wants_write then ReArmAndContinue else CloseSession.

Module FinalizeAction.
Inductive t : Type :=
| Flush
| SkipFlush
| Parked
| RetainPendingBack
| ArmControlQueue
| Quiesce
| ReArm
| Settled.
End FinalizeAction.

(** The closure [any_pending_back] is a boolean here: it is called at most
    once and reads only. *)
Definition finalize_action (phase : TlsFlushPhase)
    (tls_wants_write socket_write expect_write_parked made_progress any_pending_back
     control_pending : bool) : FinalizeAction.t :=
  match phase with
  | BeforeFlush =>
      if tls_wants_write then
        if socket_write then FinalizeAction.SkipFlush else FinalizeAction.Flush
      else if expect_write_parked then FinalizeAction.Parked
      else if made_progress && any_pending_back then FinalizeAction.RetainPendingBack
      else if control_pending then FinalizeAction.ArmControlQueue
      else FinalizeAction.Quiesce
  | AfterFlush => if tls_wants_write then FinalizeAction.ReArm else FinalizeAction.Settled
  end.

(** ** Histories of a connection's drain *)

Inductive drain_op : Type :=
| DPeerGoaway (last_stream_id : Z)
| DGraceful (now : Z)
| DArm (now : Z)
| DFinal.

(** A soft stop arms the deadline of a connection that is already draining,
    and begins the drain of one that is not. *)
Definition drain_step (d : H2DrainState) (op : drain_op)
    : checked (H2DrainState * option GracefulDrainDecision) :=
  match op with
  | DPeerGoaway last => d ← observe_peer_goaway d last; Val (d, None)
  | DGraceful now => '(d, r) ← begin_graceful_drain d now; Val (d, Some r)
  | DArm now =>
      if draining d then d ← arm_deadline_if_unarmed d now; Val (d, None) else Val (d, None)
  | DFinal => d ← enter_final_goaway d; Val (d, None)
  end.

Fixpoint drain_run (d : H2DrainState) (ops : list drain_op)
    : checked (H2DrainState * list (option GracefulDrainDecision)) :=
  match ops with
  | [] => Val (d, [])
  | op :: ops =>
      '(d, r) ← drain_step d op;
      '(d, rs) ← drain_run d ops;
      Val (d, r :: rs)
  end.

Definition drain_ok (d : H2DrainState) : Prop := is_Some (started_at d) -> draining d = true.

Lemma check_drain_Val d : drain_ok d -> check_drain d = Val tt.
Proof.
  intros H. unfold check_drain. apply debug_assert_true.
  case_bool_decide as E; [cbn; by apply H | done].
Qed.

(** A step keeps the invariant, never ends a drain, never moves an armed
    deadline, and asks for the first GOAWAY only to start the drain. *)
Lemma drain_step_Val d op :
  drain_ok d ->
  exists d' r, drain_step d op = Val (d', r) /\ drain_ok d' /\
    (draining d = true -> draining d' = true) /\
    (forall t, started_at d = Some t -> started_at d' = Some t) /\
    graceful_shutdown_deadline d' = graceful_shutdown_deadline d /\
    (r = Some SendInitial -> draining d = false /\ draining d' = true).
Proof.
  intros Hd. destruct d as [dr last started dl]. unfold drain_ok in Hd. cbn in Hd.
  destruct op as [l | now | now |]; unfold drain_step, observe_peer_goaway, begin_graceful_drain,
    arm_deadline_if_unarmed, enter_final_goaway, drain_ok; cbn [draining started_at].
  - eexists _, _. split; [run_assert by done; run_assert by by apply bool_decide_true |].
    + by rewrite check_drain_Val by done.
    + cbn. naive_solver.
  - destruct dr; [eexists _, _; split; [done |]; cbn; naive_solver |].
    assert (started = None) as -> 
      by (destruct started as [t |]; [by specialize (Hd (mk_is_Some _ _ eq_refl)) | done]).
    eexists _, _. split; [run_assert by by apply bool_decide_true |].
    + do 2 run_assert by (done || by apply bool_decide_true).
      by rewrite check_drain_Val by done.
    + cbn. naive_solver.
  - destruct dr; [| eexists _, _; split; [done |]; cbn; naive_solver].
    destruct started as [t |]; eexists _, _; (split; [run_assert by done |]).
    + run_assert by by apply bool_decide_true. by rewrite check_drain_Val by done.
    + cbn. naive_solver.
    + run_assert by by apply bool_decide_true. by rewrite check_drain_Val by done.
    + cbn. naive_solver.
  - eexists _, _. split; [run_assert by done; run_assert by by apply bool_decide_true |].
    + by rewrite check_drain_Val by done.
    + cbn. naive_solver.
Qed.

Lemma drain_run_Val ops : forall d,
  drain_ok d ->
  exists d' rs, drain_run d ops = Val (d', rs) /\ drain_ok d' /\
    (draining d = true -> draining d' = true /\ Some SendInitial ∉ rs) /\
    (forall t, started_at d = Some t -> started_at d' = Some t) /\
    graceful_shutdown_deadline d' = graceful_shutdown_deadline d /\
    (length (filter (fun r => r = Some SendInitial) rs) <= 1)%nat.
Proof.
  induction ops as [| op ops IH]; intros d Hd.
  { exists d, []. cbn. repeat (split; [done |]). split; [intros; split; [done | apply not_elem_of_nil] |].
    split; [done |]. split; [done |]. lia. }
  destruct (drain_step_Val d op Hd) as (d1 & r & E & Hd1 & Hdr & Hst & Hdl & Hsend).
  destruct (IH d1 Hd1) as (d2 & rs & E2 & Hd2 & Hdr2 & Hst2 & Hdl2 & Hcount).
  exists d2, (r :: rs). cbn [drain_run]. rewrite E. cbn [mbind outcome_bind]. rewrite E2.
  split; [done |]. split; [done |]. split.
  - intros H. destruct (Hdr2 (Hdr H)) as [H2 Hnot]. split; [done |].
    apply not_elem_of_cons. split; [| done]. intros <-. destruct (Hsend eq_refl). congruence.
  - split; [auto |]. split; [congruence |]. rewrite filter_cons. case_decide as Er; [| done].
    destruct (Hsend Er) as [_ H1]. destruct (Hdr2 H1) as [_ Hnot].
    rewrite filter_none; [cbn; lia |]. apply Forall_forall. intros x Hx ->. done.
Qed.

Lemma drain_run_app ops1 ops2 : forall d d1 rs1,
  drain_run d ops1 = Val (d1, rs1) ->
  drain_run d (ops1 ++ ops2) = '(d2, rs2) ← drain_run d1 ops2; Val (d2, rs1 ++ rs2).
Proof.
  induction ops1 as [| op ops1 IH]; intros d d1 rs1 E; cbn [drain_run app] in *.
  { simplify_eq. by destruct (drain_run d1 ops2) as [[] | |]. }
  destruct (drain_step d op) as [[d' r] | |]; [| done..]. cbn [mbind outcome_bind] in *.
  destruct (drain_run d' ops1) as [[d'' rs] | |] eqn:E'; [| done..]. cbn in E. simplify_eq.
  rewrite (IH _ _ _ E'). by destruct (drain_run d1 ops2) as [[] | |].
Qed.

(** ** The properties *)

(** The drain of a connection, over any history of GOAWAYs and soft
    stops: no assertion fails; the first GOAWAY is asked for at most once, and
    never once the connection is draining; draining never ends; and the
    forced-close deadline, once armed, is neither moved nor extended by
    anything that follows, so it elapses exactly when the configured budget has
    passed since it was armed. *)
Theorem drain_budget_armed_once deadline before after :
  exists d1 rs1 d2 rs2,
    (d ← drain_new deadline; drain_run d before) = Val (d1, rs1) /\
    drain_run d1 after = Val (d2, rs2) /\
    (length (filter (fun r => r = Some SendInitial) (rs1 ++ rs2)) <= 1)%nat /\
    (draining d1 = true -> draining d2 = true /\ Some SendInitial ∉ rs2) /\
    forall t, started_at d1 = Some t ->
      started_at d2 = Some t /\
      forall now, deadline_elapsed d2 now =
        match deadline with Some budget => budget <=? duration_since now t | None => false end.
Proof.
  destruct (drain_run_Val before (mkDrain false None None deadline))
    as (d1 & rs1 & E1 & Hd1 & _ & _ & Hdl1 & Hc1); [by intros [] |].
  destruct (drain_run_Val after d1 Hd1) as (d2 & rs2 & E2 & _ & Hdr & Hst & Hdl2 & Hc2).
  exists d1, rs1, d2, rs2. split; [done |]. split; [done |]. split; [| split; [done |]].
  - destruct (drain_run_Val (before ++ after) (mkDrain false None None deadline))
      as (d3 & rs3 & E3 & _ & _ & _ & _ & Hc3); [by intros [] |].
    rewrite (drain_run_app _ _ _ _ _ E1), E2 in E3. cbn in E3. by simplify_eq.
  - intros t Ht. split; [by apply Hst |]. intros now. unfold deadline_elapsed.
    rewrite (Hst t Ht), Hdl2, Hdl1. done.
Qed.

(** ** Closing

    The GOAWAY arm of the writable path: ask, flush if told to, and ask again
    with the answer of the TLS layer after the flush. *)
Definition goaway_close (peer_gone wants_before wants_after : bool) : CloseAction :=
  match goaway_close_action BeforeFlush peer_gone wants_before with
  | Flush => goaway_close_action AfterFlush peer_gone wants_after
  | action => action
  end.

(** No response is truncated: while the peer is there, the session is closed
    or disconnected exactly when the TLS layer holds nothing, as far as its
    last answer tells; and the flush costs no extra turn. *)
Theorem close_never_truncates peer_gone wants_before wants_after :
  let pending := wants_before && wants_after in
  goaway_close peer_gone wants_before wants_after <> Flush /\
  (goaway_close peer_gone wants_before wants_after = ReArmAndContinue <->
     peer_gone = false /\ pending = true) /\
  (error_close_action wants_before = ReArmAndContinue <-> wants_before = true) /\
  (force_disconnect_action peer_gone wants_before = ReArmAndContinue <->
     peer_gone = false /\ wants_before = true).
Proof. destruct peer_gone, wants_before, wants_after; cbn; naive_solver. Qed.

(** WRITABLE interest is withdrawn at the end of a pass only when nothing is
    owed: no TLS record, no parked write, no response left after progress, no
    control frame. *)
Theorem quiesce_owes_nothing phase wants written parked progress back control :
  finalize_action phase wants written parked progress back control = FinalizeAction.Quiesce ->
  wants = false /\ parked = false /\ progress && back = false /\ control = false.
Proof. unfold finalize_action. intros H. repeat case_match; naive_solver. Qed.
