(* ===== verification/ProxyProtocol.v ===== *)
(** * PROXY protocol

    [lib/src/protocol/proxy_protocol]: the version 2 header and its serializer
    ([header.rs]), its parser ([parser.rs]), and the state that reads one from
    a fresh connection ([expect.rs]).

    An IP address is the list of its octets. The version 1 header, which no
    session uses, is not modelled. *)

From Stdlib Require Import ZifyBool.
From S2P Require Import Prelude Readiness.

(** ** Headers *)

Inductive Command : Type :=
| Local
| Proxy.

Record SocketAddrV4 := mkSocketAddrV4 { ip4 : list Z; port4 : Z }.
Record SocketAddrV6 := mkSocketAddrV6 { ip6 : list Z; port6 : Z; flowinfo : Z; scope_id : Z }.

Inductive SocketAddr : Type :=
| V4 (a : SocketAddrV4)
| V6 (a : SocketAddrV6).

Inductive ProxyAddr : Type :=
| Ipv4Addr (src_addr dst_addr : SocketAddrV4)
| Ipv6Addr (src_addr dst_addr : SocketAddrV6)
| UnixAddr (src_addr dst_addr : list Z)
| AfUnspec.

Definition is_ipv4 (a : SocketAddr) : bool := if a is V4 _ then true else false.
Definition is_ipv6 (a : SocketAddr) : bool := if a is V6 _ then true else false.
Definition is_ipv4_pair (a : ProxyAddr) : bool := if a is Ipv4Addr _ _ then true else false.
Definition is_ipv6_pair (a : ProxyAddr) : bool := if a is Ipv6Addr _ _ then true else false.
Definition is_unspec (a : ProxyAddr) : bool := if a is AfUnspec then true else false.

(** [ProxyAddr::from] *)
Definition proxy_addr_from (addr_src addr_dst : SocketAddr) : checked ProxyAddr :=
  let addr := match addr_src, addr_dst with
              | V4 s, V4 d => Ipv4Addr s d
              | V6 s, V6 d => Ipv6Addr s d
              | _, _ => AfUnspec
              end in
  _ ← debug_assert (eqb (is_ipv4_pair addr) (is_ipv4 addr_src && is_ipv4 addr_dst));
  _ ← debug_assert (eqb (is_ipv6_pair addr) (is_ipv6 addr_src && is_ipv6 addr_dst));
  Val addr.

Definition addr_len (a : ProxyAddr) : Z :=
  match a with
  | Ipv4Addr _ _ => 12
  | Ipv6Addr _ _ => 36
  | UnixAddr _ _ => 216
  | AfUnspec => 0
  end.

(** [ProxyAddr::source], [ProxyAddr::destination] *)
Definition source (a : ProxyAddr) : option SocketAddr :=
  match a with
  | Ipv4Addr src _ => Some (V4 src)
  | Ipv6Addr src _ => Some (V6 src)
  | _ => None
  end.
Definition destination (a : ProxyAddr) : option SocketAddr :=
  match a with
  | Ipv4Addr _ dst => Some (V4 dst)
  | Ipv6Addr _ dst => Some (V6 dst)
  | _ => None
  end.

Definition u16_to_array_of_u8 (x : Z) : checked (list Z) :=
  let b1 := to_u8 (Z.land (Z.shiftr x 8) 0xff) in
  let b2 := to_u8 (Z.land x 0xff) in
  let out := [b1; b2] in
  _ ← debug_assert (be_value out =? x);
  Val out.

(** [ProxyAddr::write_bytes_to] *)
Definition write_bytes_to (a : ProxyAddr) (buf : list Z) : checked (list Z) :=
  let before := length buf in
  let declared := addr_len a in
  buf ← match a with
        | Ipv4Addr src dst =>
            sp ← u16_to_array_of_u8 (port4 src);
            dp ← u16_to_array_of_u8 (port4 dst);
            Val (buf ++ ip4 src ++ ip4 dst ++ sp ++ dp)
        | Ipv6Addr src dst =>
            sp ← u16_to_array_of_u8 (port6 src);
            dp ← u16_to_array_of_u8 (port6 dst);
            Val (buf ++ ip6 src ++ ip6 dst ++ sp ++ dp)
        | UnixAddr src dst => Val (buf ++ src ++ dst)
        | AfUnspec => Val buf
        end;
  _ ← debug_assert (before <=? length buf)%nat;
  _ ← debug_assert (Z.of_nat (length buf - before) =? declared);
  Val buf.

Definition get_family (a : ProxyAddr) : checked Z :=
  let family := match a with
                | Ipv4Addr _ _ => Z.lor 0x10 0x01
                | Ipv6Addr _ _ => Z.lor 0x20 0x01
                | UnixAddr _ _ => Z.lor 0x30 0x01
                | AfUnspec => 0x00
                end in
  _ ← debug_assert (Z.shiftr family 4 <=? 0x03);
  _ ← debug_assert (eqb (is_unspec a) (family =? 0x00));
  _ ← debug_assert (is_unspec a || (Z.land family 0x0f =? 0x01));
  Val family.

Record HeaderV2 := mkHeaderV2 {
  command : Command;
  family : Z;
  addr : ProxyAddr;
}.

Definition header_new (cmd : Command) (addr_src addr_dst : SocketAddr) : checked HeaderV2 :=
  a ← proxy_addr_from addr_src addr_dst;
  f ← get_family a;
  f' ← get_family a;
  _ ← debug_assert (f =? f');
  _ ← debug_assert (eqb (is_unspec a) (f =? 0x00));
  Val (mkHeaderV2 cmd f a).

(** [HeaderV2::len] *)
Definition header_len (h : HeaderV2) : checked Z :=
  let total := 12 + 1 + 1 + 2 + addr_len (addr h) in
  _ ← debug_assert (16 <=? total);
  _ ← debug_assert (total <=? 16 + 216);
  Val total.

Definition PROTOCOL_SIGNATURE_V2 : list Z :=
  [0x0D; 0x0A; 0x0D; 0x0A; 0x00; 0x0D; 0x0A; 0x51; 0x55; 0x49; 0x54; 0x0A].

(** [HeaderV2::into_bytes] *)
Definition header_into_bytes (h : HeaderV2) : checked (list Z) :=
  expected_len ← header_len h;
  let header := PROTOCOL_SIGNATURE_V2 in
  _ ← debug_assert (length header =? length PROTOCOL_SIGNATURE_V2)%nat;
  let cmd := match command h with Local => 0 | Proxy => 1 end in
  let header := header ++ [Z.lor 0x20 cmd] in
  let header := header ++ [family h] in
  len ← u16_to_array_of_u8 (addr_len (addr h));
  let header := header ++ len in
  _ ← debug_assert (length header =? 16)%nat;
  header ← write_bytes_to (addr h) header;
  _ ← debug_assert (Z.of_nat (length header) =? expected_len);
  _ ← debug_assert (Z.of_nat (length header) =? 16 + addr_len (addr h));
  Val header.

(** ** nom's streaming parsers

    They ask for more input instead of failing when it ends early. *)

Inductive stream_error (E : Type) : Type :=
| Incomplete
| Error (e : E).
Arguments Incomplete {E}.
Arguments Error {E} e.

Class NomStreaming := {
  NomError : Type;
  (** [Error::from_error_kind(input, ErrorKind::Switch)] *)
  switch_error : list Z -> NomError;
  stream_be_u8 : list Z -> res (stream_error NomError) (list Z * Z);
  stream_be_u16 : list Z -> res (stream_error NomError) (list Z * Z);
  stream_take : Z -> list Z -> res (stream_error NomError) (list Z * list Z);
  stream_tag : list Z -> list Z -> res (stream_error NomError) (list Z * list Z);
}.

Definition stream_number_law {E} (n : nat) (p : list Z -> res (stream_error E) (list Z * Z)) : Prop :=
  forall i, p i = if (n <=? length i)%nat then Ok (drop n i, be_value (take n i))
                  else Err Incomplete.

Class NomStreamingLaws `{NomStreaming} : Prop := {
  law_stream_be_u8 : stream_number_law 1 stream_be_u8;
  law_stream_be_u16 : stream_number_law 2 stream_be_u16;
  law_stream_take n i : 0 <= n ->
    stream_take n i = if n <=? Z.of_nat (length i)
                      then Ok (drop (Z.to_nat n) i, take (Z.to_nat n) i) else Err Incomplete;
  law_stream_tag t i : stream_tag t (t ++ i) = Ok (i, t);
  law_stream_tag_short t i : i `prefix_of` t -> i <> t -> stream_tag t i = Err Incomplete;
  law_stream_tag_mismatch t i :
    ~ (t `prefix_of` i) -> ~ (i `prefix_of` t) -> exists e, stream_tag t i = Err (Error e);
}.

Definition simple_tag (t i : list Z) : res (stream_error unit) (list Z * list Z) :=
  if decide (t `prefix_of` i) then Ok (drop (length t) i, t)
  else if decide (i `prefix_of` t) then Err Incomplete else Err (Error tt).

Definition simple_number (n : nat) (i : list Z) : res (stream_error unit) (list Z * Z) :=
  if (n <=? length i)%nat then Ok (drop n i, be_value (take n i)) else Err Incomplete.

#[local] Instance simple_streaming : NomStreaming := {
  NomError := unit;
  switch_error _ := tt;
  stream_be_u8 := simple_number 1;
  stream_be_u16 := simple_number 2;
  stream_take n i := if n <=? Z.of_nat (length i)
                     then Ok (drop (Z.to_nat n) i, take (Z.to_nat n) i) else Err Incomplete;
  stream_tag := simple_tag;
}.

#[local] Instance simple_streaming_laws : NomStreamingLaws.
Proof.
  constructor; try done.
  - intros t i. cbn. unfold simple_tag. rewrite decide_True by apply prefix_app_r, reflexivity.
    by rewrite drop_app_length.
  - intros t i Hp Hne. cbn. unfold simple_tag. rewrite decide_False.
    + by rewrite decide_True.
    + intros Hp'. apply Hne. by apply (anti_symm prefix).
  - intros t i H1 H2. cbn. unfold simple_tag. rewrite !decide_False by done. by eexists.
Qed.

(** [SocketResult] of [socket.rs]. *)
Module SocketResult.
Inductive t : Type :=
| Continue
| Closed
| WouldBlock
| Error.
End SocketResult.

(** ** The parser *)

Section Parser.

Context `{NomStreaming}.

Abbreviation sresult A := (outcome (stream_error NomError) (list Z * A)).

Definition lift_stream {A} (r : res (stream_error NomError) A) : outcome (stream_error NomError) A :=
  match r with Ok a => Val a | Err e => Fails e end.

Definition parse_command (i : list Z) : sresult Command :=
  let i2 := i in
  '(i, cmd) ← lift_stream (stream_be_u8 i);
  _ ← debug_assert (length i + 1 =? length i2)%nat;
  if cmd =? 0x20 then Val (i, Local)
  else if cmd =? 0x21 then Val (i, Proxy)
  else Fails (Error (switch_error i2)).

(** [Ipv4Addr::new(ip[0], ip[1], ip[2], ip[3])] *)
Definition ipv4_of_slice (ip : list Z) : outcome (stream_error NomError) (list Z) :=
  a ← index ip 0; b ← index ip 1; c ← index ip 2; d ← index ip 3; Val [a; b; c; d].

Definition parse_ipv4_on_v2 (i : list Z) : sresult ProxyAddr :=
  let in_len := length i in
  '(i, src_ip) ← lift_stream (stream_take 4 i);
  '(i, dest_ip) ← lift_stream (stream_take 4 i);
  '(i, src_port) ← lift_stream (stream_be_u16 i);
  '(i, dest_port) ← lift_stream (stream_be_u16 i);
  _ ← debug_assert (length src_ip =? 4)%nat;
  _ ← debug_assert (length dest_ip =? 4)%nat;
  _ ← debug_assert (length i <=? in_len)%nat;
  _ ← debug_assert (in_len - length i =? 12)%nat;
  src ← ipv4_of_slice src_ip;
  dst ← ipv4_of_slice dest_ip;
  Val (i, Ipv4Addr (mkSocketAddrV4 src src_port) (mkSocketAddrV4 dst dest_port)).

Definition slice_to_ipv6 (sl : list Z) : outcome (stream_error NomError) (list Z) :=
  _ ← debug_assert (length sl =? 16)%nat;
  Val sl.

Definition parse_ipv6_on_v2 (i : list Z) : sresult ProxyAddr :=
  let in_len := length i in
  '(i, src_ip) ← lift_stream (stream_take 16 i);
  '(i, dest_ip) ← lift_stream (stream_take 16 i);
  '(i, src_port) ← lift_stream (stream_be_u16 i);
  '(i, dest_port) ← lift_stream (stream_be_u16 i);
  _ ← debug_assert (length src_ip =? 16)%nat;
  _ ← debug_assert (length dest_ip =? 16)%nat;
  _ ← debug_assert (length i <=? in_len)%nat;
  _ ← debug_assert (in_len - length i =? 36)%nat;
  src ← slice_to_ipv6 src_ip;
  dst ← slice_to_ipv6 dest_ip;
  Val (i, Ipv6Addr (mkSocketAddrV6 src src_port 0 0) (mkSocketAddrV6 dst dest_port 0 0)).

Definition parse_addr_v2 (family : Z) (i : list Z) : sresult ProxyAddr :=
  let nibble := Z.land (Z.shiftr family 4) 0x0f in
  if nibble =? 0x00 then Val (i, AfUnspec)
  else if nibble =? 0x01 then parse_ipv4_on_v2 i
  else if nibble =? 0x02 then parse_ipv6_on_v2 i
  else Fails (Error (switch_error i)).

Definition parse_v2_header (i : list Z) : sresult HeaderV2 :=
  let input_len := length i in
  '(i, _) ← lift_stream (stream_tag PROTOCOL_SIGNATURE_V2 i);
  '(i, command) ← parse_command i;
  '(i, family) ← lift_stream (stream_be_u8 i);
  '(i, len) ← lift_stream (stream_be_u16 i);
  '(i, data) ← lift_stream (stream_take len i);
  _ ← debug_assert (Z.of_nat (length data) =? len);
  '(data_rest, parsed_addr) ← parse_addr_v2 family data;
  _ ← debug_assert (length data_rest <=? length data)%nat;
  _ ← debug_assert (length i <=? input_len)%nat;
  _ ← debug_assert (Z.of_nat (input_len - length i) =?
                    Z.of_nat (length PROTOCOL_SIGNATURE_V2) + 1 + 1 + 2 + len);
  let nibble := Z.land (Z.shiftr family 4) 0x0f in
  _ ← debug_assert ((0x00 <=? nibble) && (nibble <=? 0x02));
  let addr := match command with Local => AfUnspec | Proxy => parsed_addr end in
  Val (i, mkHeaderV2 command family addr).

(** ** Expecting a header

    [ExpectProxyProtocol] of [expect.rs]: the fields its [readable] uses. What
    [socket_read] put into the slice it was given, and its result, are
    arguments. *)

Definition V2_FIXED_HEADER_LEN : nat := 16.
Definition MAX_HEADER_LEN : nat := 232.

Inductive SessionResult : Type :=
| Close
| Continue
| Upgrade.

Record ExpectProxyProtocol := mkExpect {
  addresses : option ProxyAddr;
  frontend_buffer : list Z;
  frontend_readiness : Readiness;
  read_target : nat;
  read_index : nat;
}.

Definition expect_new : ExpectProxyProtocol :=
  mkExpect None (replicate MAX_HEADER_LEN 0)
    (mkReadiness Ready.EMPTY (Z.lor (Z.lor Ready.READABLE Ready.HUP) Ready.ERROR))
    V2_FIXED_HEADER_LEN 0.

Definition drop_readable (r : Readiness) : Readiness :=
  mkReadiness (Ready.remove (event r) Ready.READABLE) (interest r).

(** [frontend_buffer[index..index + n].copy_from_slice(data)] *)
Definition fill_buffer (buf : list Z) (at_ : nat) (data : list Z) : list Z :=
  take at_ buf ++ data ++ drop (at_ + length data) buf.

Definition expect_close (s : ExpectProxyProtocol) : checked (ExpectProxyProtocol * SessionResult) :=
  r ← readiness_reset (frontend_readiness s);
  Val (mkExpect (addresses s) (frontend_buffer s) r (read_target s) (read_index s), Close).

Definition expect_parse (s : ExpectProxyProtocol) : checked (ExpectProxyProtocol * SessionResult) :=
  match parse_v2_header (take (read_index s) (frontend_buffer s)) with
  | Panic => Panic
  | Val (rest, header) =>
      _ ← debug_assert (length rest <=? read_index s)%nat;
      _ ← debug_assert (length rest =? 0)%nat;
      Val (mkExpect (Some (addr header)) (frontend_buffer s) (frontend_readiness s)
             (read_target s) (read_index s), Upgrade)
  | Fails Incomplete =>
      if (read_index s <? read_target s)%nat then Val (s, Continue)
      else if (read_target s =? V2_FIXED_HEADER_LEN)%nat then
        b14 ← index (frontend_buffer s) 14;
        b15 ← index (frontend_buffer s) 15;
        let declared_len := Z.to_nat (be_value [b14; b15]) in
        let declared_total := (V2_FIXED_HEADER_LEN + declared_len)%nat in
        if (length (frontend_buffer s) <? declared_total)%nat then expect_close s
        else if (V2_FIXED_HEADER_LEN <? declared_total)%nat then
          Val (mkExpect (addresses s) (frontend_buffer s) (frontend_readiness s) declared_total
                 (read_index s), Continue)
        else expect_close s
      else expect_close s
  | Fails (Error _) => expect_close s
  end.

Definition expect_readable (s : ExpectProxyProtocol) (data : list Z) (result : SocketResult.t)
    : checked (ExpectProxyProtocol * SessionResult) :=
  let total_len := read_target s in
  _ ← debug_assert (read_index s <=? total_len)%nat;
  _ ← debug_assert (total_len <=? length (frontend_buffer s))%nat;
  let index_before := read_index s in
  let sz := length data in
  _ ← debug_assert (sz <=? total_len - index_before)%nat;
  let buf := fill_buffer (frontend_buffer s) index_before data in
  let s := mkExpect (addresses s) buf (frontend_readiness s) (read_target s) (read_index s) in
  s ←
    (if (0 <? sz)%nat then
       let s := mkExpect (addresses s) buf (frontend_readiness s) (read_target s)
                  (read_index s + sz) in
       _ ← debug_assert (read_index s =? index_before + sz)%nat;
       _ ← debug_assert (read_index s <=? length (frontend_buffer s))%nat;
       Val s
     else
       _ ← debug_assert (read_index s =? index_before)%nat;
       Val (mkExpect (addresses s) buf (drop_readable (frontend_readiness s)) (read_target s)
              (read_index s)));
  match result with
  | SocketResult.Error => expect_close s
  | SocketResult.WouldBlock =>
      expect_parse (mkExpect (addresses s) (frontend_buffer s) (drop_readable (frontend_readiness s))
                      (read_target s) (read_index s))
  | SocketResult.Closed => if (read_index s =? 0)%nat then Val (s, Close) else expect_parse s
  | SocketResult.Continue => expect_parse s
  end.

End Parser.

(** ** Lemmas *)

Definition command_octet (c : Command) : Z := match c with Local => 0x20 | Proxy => 0x21 end.

(** The octets of a version 2 header. *)
Definition wire (c : Command) (family : Z) (data : list Z) : list Z :=
  PROTOCOL_SIGNATURE_V2 ++ [command_octet c] ++ [family] ++
  be_bytes 2 (Z.of_nat (length data)) ++ data.

Lemma length_wire c family data : length (wire c family data) = (16 + length data)%nat.
Proof. unfold wire. rewrite !length_app, length_be_bytes. cbn. lia. Qed.

Lemma u16_split x : u16_ok x -> u16_to_array_of_u8 x = Val (be_bytes 2 x).
Proof.
  intros Hx. unfold u16_to_array_of_u8.
  assert ([to_u8 (Z.land (Z.shiftr x 8) 0xff); to_u8 (Z.land x 0xff)] = be_bytes 2 x) as ->.
  { change 0xff with (2 ^ 8 - 1). rewrite !land_mask_mod by lia. cbn [be_bytes].
    rewrite Z.shiftr_div_pow2 by lia. unfold wrap. rewrite !Z.mod_mod by lia.
    change (8 * Z.of_nat 1) with 8. change (2 ^ (8 * Z.of_nat 0)) with 1. by rewrite Z.div_1_r. }
  rewrite be_value_be_bytes_small by done. run_assert by apply Z.eqb_refl. done.
Qed.

Section Laws.

Context {HN : NomStreaming} {HL : NomStreamingLaws}.

Lemma be_u8_cons b i : lift_stream (stream_be_u8 (b :: i)) = Val (i, b).
Proof. rewrite (law_stream_be_u8 (b :: i)). cbn. by rewrite ?Z.mul_0_l. Qed.

Lemma be_u16_app n i :
  u16_ok n -> lift_stream (stream_be_u16 (be_bytes 2 n ++ i)) = Val (i, n).
Proof.
  intros Hn. rewrite (law_stream_be_u16 _), length_app, length_be_bytes.
  replace (2 <=? 2 + length i)%nat with true by (symmetry; apply Nat.leb_le; lia).
  rewrite drop_app_le, take_app_le by (rewrite length_be_bytes; lia).
  rewrite drop_ge, take_ge by (rewrite length_be_bytes; lia).
  by rewrite be_value_be_bytes_small.
Qed.

Lemma be_u16_short i : (length i < 2)%nat -> stream_be_u16 i = Err Incomplete.
Proof. intros Hi. rewrite (law_stream_be_u16 i). by destruct (Nat.leb_spec 2 (length i)); [lia |]. Qed.

Lemma take_split n i :
  (n <= length i)%nat -> lift_stream (stream_take (Z.of_nat n) i) = Val (drop n i, take n i).
Proof.
  intros Hi. rewrite law_stream_take by lia.
  replace (_ <=? _) with true by lia. by rewrite Nat2Z.id.
Qed.

Lemma take_short n i :
  (length i < n)%nat -> stream_take (Z.of_nat n) i = Err Incomplete.
Proof. intros Hi. rewrite law_stream_take by lia. by replace (_ <=? _) with false by lia. Qed.

Lemma be_u16_split i :
  (2 <= length i)%nat -> lift_stream (stream_be_u16 i) = Val (drop 2 i, be_value (take 2 i)).
Proof.
  intros Hi. rewrite (law_stream_be_u16 i). by destruct (Nat.leb_spec 2 (length i)); [| lia].
Qed.

(** The four fields of an address block of two [n]-octet addresses. *)
Definition block_fields (n : nat) (i : list Z) : list Z * Z * list Z * Z :=
  (take n i, be_value (take 2 (drop (n + n) i)), take n (drop n i),
   be_value (take 2 (drop (n + n + 2) i))).

Lemma parse_ipv4_eq i :
  parse_ipv4_on_v2 i =
    if (12 <=? length i)%nat then
      let '(src, sp, dst, dp) := block_fields 4 i in
      Val (drop 12 i, Ipv4Addr (mkSocketAddrV4 src sp) (mkSocketAddrV4 dst dp))
    else Fails Incomplete.
Proof.
  unfold parse_ipv4_on_v2.
  destruct (Nat.leb_spec 12 (length i)) as [Hi | Hi].
  - change 4 with (Z.of_nat 4).
    rewrite take_split by lia. cbn [mbind outcome_bind].
    rewrite take_split by (rewrite length_drop; lia). cbn [mbind outcome_bind].
    rewrite be_u16_split by (rewrite !length_drop; lia). cbn [mbind outcome_bind].
    rewrite be_u16_split by (rewrite !length_drop; lia). cbn [mbind outcome_bind].
    rewrite !drop_drop. change (4 + (4 + (2 + 2)))%nat with 12%nat.
    do 2 run_assert by (apply Nat.eqb_eq; rewrite length_take, ?length_drop; lia).
    run_assert by (apply Nat.leb_le; rewrite length_drop; lia).
    run_assert by (apply Nat.eqb_eq; rewrite length_drop; lia).
    do 12 (destruct i as [| ? i]; [cbn in Hi; lia |]). done.
  - change 4 with (Z.of_nat 4). destruct (Nat.ltb_spec (length i) 4).
    { by rewrite take_short. }
    rewrite take_split by lia. cbn [mbind outcome_bind].
    destruct (Nat.ltb_spec (length i) 8).
    { by rewrite take_short by (rewrite length_drop; lia). }
    rewrite take_split by (rewrite length_drop; lia). cbn [mbind outcome_bind].
    destruct (Nat.ltb_spec (length i) 10).
    { by rewrite be_u16_short by (rewrite !length_drop; lia). }
    rewrite be_u16_split by (rewrite !length_drop; lia). cbn [mbind outcome_bind].
    by rewrite be_u16_short by (rewrite !length_drop; lia).
Qed.

Lemma parse_ipv6_eq i :
  parse_ipv6_on_v2 i =
    if (36 <=? length i)%nat then
      let '(src, sp, dst, dp) := block_fields 16 i in
      Val (drop 36 i, Ipv6Addr (mkSocketAddrV6 src sp 0 0) (mkSocketAddrV6 dst dp 0 0))
    else Fails Incomplete.
Proof.
  unfold parse_ipv6_on_v2.
  destruct (Nat.leb_spec 36 (length i)) as [Hi | Hi].
  - change 16 with (Z.of_nat 16).
    rewrite take_split by lia. cbn [mbind outcome_bind].
    rewrite take_split by (rewrite length_drop; lia). cbn [mbind outcome_bind].
    rewrite be_u16_split by (rewrite !length_drop; lia). cbn [mbind outcome_bind].
    rewrite be_u16_split by (rewrite !length_drop; lia). cbn [mbind outcome_bind].
    rewrite !drop_drop. change (16 + (16 + (2 + 2)))%nat with 36%nat.
    do 2 run_assert by (apply Nat.eqb_eq; rewrite length_take, ?length_drop; lia).
    run_assert by (apply Nat.leb_le; rewrite length_drop; lia).
    run_assert by (apply Nat.eqb_eq; rewrite length_drop; lia).
    unfold slice_to_ipv6.
    do 2 run_assert by (apply Nat.eqb_eq; rewrite length_take, ?length_drop; lia). done.
  - change 16 with (Z.of_nat 16). destruct (Nat.ltb_spec (length i) 16).
    { by rewrite take_short. }
    rewrite take_split by lia. cbn [mbind outcome_bind].
    destruct (Nat.ltb_spec (length i) 32).
    { by rewrite take_short by (rewrite length_drop; lia). }
    rewrite take_split by (rewrite length_drop; lia). cbn [mbind outcome_bind].
    destruct (Nat.ltb_spec (length i) 34).
    { by rewrite be_u16_short by (rewrite !length_drop; lia). }
    rewrite be_u16_split by (rewrite !length_drop; lia). cbn [mbind outcome_bind].
    by rewrite be_u16_short by (rewrite !length_drop; lia).
Qed.

(** An address block is accepted or refused without a panic, within its
    octets; only the families of the protocol are accepted. *)
Lemma parse_addr_cases family i :
  (exists rest a, parse_addr_v2 family i = Val (rest, a) /\ (length rest <= length i)%nat /\
     0 <= Z.land (Z.shiftr family 4) 0x0f <= 2) \/
  (exists e, parse_addr_v2 family i = Fails e).
Proof.
  unfold parse_addr_v2. destruct (Z.eqb_spec (Z.land (Z.shiftr family 4) 15) 0) as [E | _].
  { left. eexists _, _. split; [done |]. rewrite E. lia. }
  destruct (Z.eqb_spec (Z.land (Z.shiftr family 4) 15) 1) as [E | _].
  { rewrite parse_ipv4_eq, E. destruct (12 <=? length i)%nat; [left | right; by eexists].
    eexists _, _. split; [done |]. rewrite length_drop. lia. }
  destruct (Z.eqb_spec (Z.land (Z.shiftr family 4) 15) 2) as [E | _]; [| right; by eexists].
  rewrite parse_ipv6_eq, E. destruct (36 <=? length i)%nat; [left | right; by eexists].
  eexists _, _. split; [done |]. rewrite length_drop. lia.
Qed.

Lemma parse_command_octet c i : parse_command (command_octet c :: i) = Val (i, c).
Proof.
  unfold parse_command. rewrite be_u8_cons. cbn [mbind outcome_bind].
  run_assert by (apply Nat.eqb_eq; cbn; lia). by destruct c.
Qed.

(** The parser, past the signature and the command. *)
Lemma parse_v2_header_wire c family data rest :
  Z.of_nat (length data) < 65536 ->
  parse_v2_header (wire c family data ++ rest) =
    match parse_addr_v2 family data with
    | Val (_, a) => Val (rest, mkHeaderV2 c family (match c with Local => AfUnspec | Proxy => a end))
    | Fails e => Fails e
    | Panic => Panic
    end.
Proof.
  intros Hlen. unfold parse_v2_header.
  assert (length (wire c family data ++ rest) = (16 + length data + length rest)%nat) as ->
    by (rewrite length_app, length_wire; lia).
  unfold wire. rewrite <- !app_assoc, law_stream_tag. cbn [lift_stream mbind outcome_bind].
  cbn [app]. rewrite parse_command_octet. cbn [mbind outcome_bind]. rewrite be_u8_cons.
  cbn [mbind outcome_bind]. rewrite be_u16_app by (split; lia). cbn [mbind outcome_bind].
  rewrite take_split by (rewrite length_app; lia). cbn [mbind outcome_bind].
  rewrite drop_app_length, take_app_length.
  run_assert by apply Z.eqb_refl.
  destruct (parse_addr_cases family data) as [(dr & a & -> & Hdr & Hn) | [e ->]]; [| done].
  cbn [mbind outcome_bind].
  run_assert by by apply Nat.leb_le. run_assert by (apply Nat.leb_le; lia).
  run_assert by (cbn [length PROTOCOL_SIGNATURE_V2]; lia). run_assert by lia. done.
Qed.

(** A header that has not wholly arrived is not refused. *)
Lemma parse_v2_header_prefix c family data k :
  Z.of_nat (length data) < 65536 -> (k < length (wire c family data))%nat ->
  parse_v2_header (take k (wire c family data)) = Fails Incomplete.
Proof.
  intros Hlen Hk. rewrite length_wire in Hk. unfold parse_v2_header.
  destruct (Nat.ltb_spec k 12) as [H | H].
  { unfold wire. rewrite take_app_le by (cbn; lia). rewrite law_stream_tag_short; [done | |].
    - apply prefix_take.
    - intros E. apply (f_equal length) in E. rewrite length_take in E. cbn in E. lia. }
  unfold wire. rewrite take_app_ge by (cbn; lia). change (length PROTOCOL_SIGNATURE_V2) with 12%nat.
  rewrite law_stream_tag. cbn [lift_stream mbind outcome_bind].
  destruct (k - 12)%nat as [| k1] eqn:E1.
  { cbn [take]. unfold parse_command. rewrite (law_stream_be_u8 []). done. }
  cbn [app take]. rewrite parse_command_octet. cbn [mbind outcome_bind].
  destruct k1 as [| k2]; [by rewrite (law_stream_be_u8 []) |].
  cbn [take]. rewrite be_u8_cons. cbn [mbind outcome_bind].
  destruct (Nat.ltb_spec k2 2) as [H2 | H2].
  { by rewrite be_u16_short by (rewrite length_take; lia). }
  rewrite take_app_ge, length_be_bytes by (rewrite length_be_bytes; lia).
  rewrite be_u16_app by (split; lia). cbn [mbind outcome_bind].
  by rewrite take_short by (rewrite length_take; lia).
Qed.

(** Octets that are not refused are a header and what follows it. *)
Lemma parse_v2_header_split i :
  bytes_ok i ->
  (exists e, parse_v2_header (PROTOCOL_SIGNATURE_V2 ++ i) = Fails e) \/
  exists c family data rest,
    PROTOCOL_SIGNATURE_V2 ++ i = wire c family data ++ rest /\ Z.of_nat (length data) < 65536.
Proof.
  intros Hi. unfold parse_v2_header. rewrite law_stream_tag. cbn [lift_stream mbind outcome_bind].
  destruct i as [| b i].
  { left. unfold parse_command. rewrite (law_stream_be_u8 []). by eexists. }
  assert ((exists c, b = command_octet c) \/ b <> 32 /\ b <> 33) as [[c ->] | Hb].
  { destruct (Z.eq_dec b 32) as [-> |]; [left; by exists Local |].
    destruct (Z.eq_dec b 33) as [-> |]; [left; by exists Proxy | by right]. }
  2:{ left. unfold parse_command. rewrite be_u8_cons. cbn [mbind outcome_bind].
      rewrite debug_assert_true by (apply Nat.eqb_eq; cbn; lia). cbn [mbind outcome_bind].
      replace (b =? 32) with false by lia. replace (b =? 33) with false by lia. by eexists. }
  rewrite parse_command_octet. cbn [mbind outcome_bind].
  destruct i as [| f i]; [left; rewrite (law_stream_be_u8 []); by eexists |].
  rewrite be_u8_cons. cbn [mbind outcome_bind].
  destruct (Nat.ltb_spec (length i) 2); [left; rewrite be_u16_short by done; by eexists |].
  rewrite be_u16_split by done. cbn [mbind outcome_bind].
  apply Forall_cons in Hi as [_ Hi]. apply Forall_cons in Hi as [_ Hi].
  pose proof (be_value_bound (take 2 i) (bytes_ok_take 2 i Hi)) as Hn.
  rewrite length_take, Nat.min_l in Hn by done. change (256 ^ Z.of_nat 2) with 65536 in Hn.
  set (n := be_value (take 2 i)) in *.
  destruct (Nat.ltb_spec (length (drop 2 i)) (Z.to_nat n)) as [Hs | Hs].
  { left. rewrite <- (Z2Nat.id n), take_short by lia. by eexists. }
  right. exists c, f, (take (Z.to_nat n) (drop 2 i)), (drop (Z.to_nat n) (drop 2 i)).
  rewrite length_take, Nat.min_l, Z2Nat.id by lia. split; [| lia].
  unfold wire. rewrite length_take, Nat.min_l, Z2Nat.id by lia. unfold n at 1.
  rewrite be_bytes_be_value by (by apply bytes_ok_take || (rewrite length_take; lia)).
  rewrite <- !app_assoc. cbn [app]. by rewrite take_drop, take_drop.
Qed.

(** On any octets: no panic, and what is accepted is a header. *)
Lemma parse_v2_header_cases i :
  bytes_ok i ->
  (exists e, parse_v2_header i = Fails e) \/
  exists c family data rest a,
    i = wire c family data ++ rest /\ parse_v2_header i = Val (rest, mkHeaderV2 c family a) /\
    (c = Local -> a = AfUnspec).
Proof.
  intros Hi. destruct (decide (PROTOCOL_SIGNATURE_V2 `prefix_of` i)) as [[i1 ->] | Hsig].
  - apply bytes_ok_app in Hi as [_ Hi].
    destruct (parse_v2_header_split i1 Hi) as [He | (c & f & data & rest & -> & Hlen)]; [by left |].
    rewrite parse_v2_header_wire by done.
    destruct (parse_addr_cases f data) as [(dr & a & -> & _) | [e ->]]; [right | left; by eexists].
    eexists c, f, data, rest, _. split; [done |]. split; [done |]. by intros ->.
  - left. unfold parse_v2_header.
    destruct (decide (i `prefix_of` PROTOCOL_SIGNATURE_V2)) as [Hp | Hp].
    + rewrite law_stream_tag_short; [by eexists | done |]. intros ->. by destruct Hsig.
    + destruct (law_stream_tag_mismatch _ _ Hsig Hp) as [e ->]. by eexists.
Qed.

(** ** Serialized headers *)

Definition octets_of (a : ProxyAddr) : list Z :=
  match a with
  | Ipv4Addr s d => ip4 s ++ ip4 d ++ be_bytes 2 (port4 s) ++ be_bytes 2 (port4 d)
  | Ipv6Addr s d => ip6 s ++ ip6 d ++ be_bytes 2 (port6 s) ++ be_bytes 2 (port6 d)
  | UnixAddr s d => s ++ d
  | AfUnspec => []
  end.

Definition socket_ok (a : SocketAddr) : Prop :=
  match a with
  | V4 a => length (ip4 a) = 4%nat /\ u16_ok (port4 a)
  | V6 a => length (ip6 a) = 16%nat /\ u16_ok (port6 a)
  end.

(** What the wire carries of an address: not the flow and scope of IPv6. *)
Definition on_wire (a : SocketAddr) : SocketAddr :=
  match a with V4 a => V4 a | V6 a => V6 (mkSocketAddrV6 (ip6 a) (port6 a) 0 0) end.

Definition addr_of (src dst : SocketAddr) : ProxyAddr :=
  match src, dst with
  | V4 s, V4 d => Ipv4Addr s d
  | V6 s, V6 d => Ipv6Addr s d
  | _, _ => AfUnspec
  end.

Definition family_of (a : ProxyAddr) : Z :=
  match a with Ipv4Addr _ _ => 0x11 | Ipv6Addr _ _ => 0x21 | UnixAddr _ _ => 0x31 | AfUnspec => 0 end.

Lemma header_new_Val c src dst :
  header_new c src dst = Val (mkHeaderV2 c (family_of (addr_of src dst)) (addr_of src dst)).
Proof. by destruct src, dst. Qed.

Lemma octets_of_length src dst :
  socket_ok src -> socket_ok dst ->
  Z.of_nat (length (octets_of (addr_of src dst))) = addr_len (addr_of src dst).
Proof.
  destruct src, dst; cbn [addr_of octets_of addr_len socket_ok]; intros [Hs _] [Hd _];
    rewrite ?length_app, ?length_be_bytes; cbn; lia.
Qed.

Lemma write_bytes_Val src dst buf :
  socket_ok src -> socket_ok dst ->
  write_bytes_to (addr_of src dst) buf = Val (buf ++ octets_of (addr_of src dst)).
Proof.
  intros Hs Hd. pose proof (octets_of_length src dst Hs Hd) as Hl.
  assert (match addr_of src dst with
          | Ipv4Addr s d =>
              sp ← u16_to_array_of_u8 (port4 s); dp ← u16_to_array_of_u8 (port4 d);
              Val (buf ++ ip4 s ++ ip4 d ++ sp ++ dp)
          | Ipv6Addr s d =>
              sp ← u16_to_array_of_u8 (port6 s); dp ← u16_to_array_of_u8 (port6 d);
              Val (buf ++ ip6 s ++ ip6 d ++ sp ++ dp)
          | UnixAddr s d => Val (buf ++ s ++ d)
          | AfUnspec => Val buf
          end = (Val (buf ++ octets_of (addr_of src dst)) : checked (list Z))) as E.
  { destruct src, dst; cbn [addr_of octets_of]; cbn in Hs, Hd; rewrite ?app_nil_r; try done;
      rewrite !u16_split by tauto; done. }
  unfold write_bytes_to. rewrite E. cbn [mbind outcome_bind].
  run_assert by (apply Nat.leb_le; rewrite length_app; lia).
  run_assert by (rewrite length_app; lia). done.
Qed.

Lemma header_into_bytes_Val c src dst :
  socket_ok src -> socket_ok dst ->
  let a := addr_of src dst in
  header_into_bytes (mkHeaderV2 c (family_of a) a) = Val (wire c (family_of a) (octets_of a)).
Proof.
  intros Hs Hd a. pose proof (octets_of_length src dst Hs Hd) as Hl. fold a in Hl.
  assert (0 <= addr_len a <= 216) as Hb by (destruct a; cbn; lia).
  unfold header_into_bytes, header_len. cbn [addr command family].
  do 2 run_assert by lia. run_assert by apply Nat.eqb_refl.
  rewrite u16_split by (split; lia). cbn [mbind outcome_bind].
  run_assert by (rewrite !length_app, length_be_bytes; done).
  unfold a at 3. rewrite write_bytes_Val by done. fold a. cbn [mbind outcome_bind].
  do 2 run_assert by (rewrite !length_app, length_be_bytes; cbn [length PROTOCOL_SIGNATURE_V2]; lia).
  unfold wire. rewrite Hl. rewrite <- !app_assoc. by destruct c.
Qed.

(** Reading back the address block. *)
Lemma block_fields_app n src dst sp dp :
  length src = n -> length dst = n -> u16_ok sp -> u16_ok dp ->
  block_fields n (src ++ dst ++ be_bytes 2 sp ++ be_bytes 2 dp) = (src, sp, dst, dp).
Proof.
  intros <- Hd Hsp Hdp. unfold block_fields.
  rewrite <- !drop_drop, take_app_length, drop_app_length. rewrite <- Hd.
  rewrite take_app_length, drop_app_length.
  rewrite take_app_le, take_ge by (rewrite length_be_bytes; lia).
  rewrite (drop_app_ge (be_bytes 2 sp)), length_be_bytes by (rewrite length_be_bytes; lia).
  rewrite drop_0, take_ge by (rewrite length_be_bytes; lia).
  by rewrite !be_value_be_bytes_small.
Qed.

Lemma parse_addr_octets src dst :
  socket_ok src -> socket_ok dst ->
  parse_addr_v2 (family_of (addr_of src dst)) (octets_of (addr_of src dst)) =
    Val ([], addr_of (on_wire src) (on_wire dst)).
Proof.
  intros Hs Hd. pose proof (octets_of_length src dst Hs Hd) as Hl.
  destruct src as [s | s], dst as [d | d]; cbn [addr_of on_wire family_of] in *; try done;
    cbn [socket_ok] in Hs, Hd; destruct Hs as [Hs Hsp], Hd as [Hd Hdp].
  - unfold parse_addr_v2. cbn -[parse_ipv4_on_v2 octets_of]. rewrite parse_ipv4_eq.
    cbn [addr_len] in Hl. replace (12 <=? _)%nat with true by (symmetry; apply Nat.leb_le; lia).
    rewrite drop_ge by lia. cbn [octets_of]. rewrite block_fields_app by done.
    by destruct s, d.
  - unfold parse_addr_v2. cbn -[parse_ipv6_on_v2 octets_of]. rewrite parse_ipv6_eq.
    cbn [addr_len] in Hl. replace (36 <=? _)%nat with true by (symmetry; apply Nat.leb_le; lia).
    rewrite drop_ge by lia. cbn [octets_of]. by rewrite block_fields_app by done.
Qed.

(** ** Reading a header off a socket

    A socket that holds [stream]: each readable event offers some number of
    octets, of which the session takes at most the room it asks for. *)

Fixpoint expect_run (s : ExpectProxyProtocol) (stream : list Z)
    (events : list (nat * SocketResult.t))
    : checked (ExpectProxyProtocol * SessionResult * list Z) :=
  match events with
  | [] => Val (s, Continue, stream)
  | (offered, result) :: events =>
      let n := Nat.min offered (read_target s - read_index s) in
      '(s, r) ← expect_readable s (take n stream) result;
      let stream := drop n stream in
      match r with
      | Continue => expect_run s stream events
      | _ => Val (s, r, stream)
      end
  end.

Definition event_ok (e : nat * SocketResult.t) : Prop :=
  (1 <= e.1)%nat /\ (e.2 = SocketResult.Continue \/ e.2 = SocketResult.WouldBlock).

(** [n] octets of the header [w] have been read. *)
Record expect_at (w : list Z) (n : nat) (s : ExpectProxyProtocol) : Prop := {
  at_index : read_index s = n;
  at_buffer : take n (frontend_buffer s) = take n w;
  at_length : length (frontend_buffer s) = MAX_HEADER_LEN;
  at_target : read_target s = if (n <? 16)%nat then 16%nat else length w;
}.

Lemma fill_buffer_take buf n d :
  (n + length d <= length buf)%nat ->
  take (n + length d) (fill_buffer buf n d) = take n buf ++ d /\
  length (fill_buffer buf n d) = length buf.
Proof.
  intros Hl. unfold fill_buffer. split.
  - rewrite app_assoc. apply take_app_length'. rewrite length_app, length_take. lia.
  - rewrite !length_app, length_take, length_drop. lia.
Qed.

(** The state after a read of [d], whatever the socket reports. *)
Lemma expect_readable_step s d result :
  (1 <= length d)%nat -> (read_index s + length d <= read_target s)%nat ->
  (read_target s <= length (frontend_buffer s))%nat ->
  (result = SocketResult.Continue \/ result = SocketResult.WouldBlock) ->
  exists r,
    expect_readable s d result =
      expect_parse (mkExpect (addresses s) (fill_buffer (frontend_buffer s) (read_index s) d) r
                      (read_target s) (read_index s + length d)).
Proof.
  intros Hd Hi Ht Hr.
  destruct (fill_buffer_take (frontend_buffer s) (read_index s) d) as [_ Hlen]; [lia |].
  unfold expect_readable.
  rewrite (debug_assert_true (read_index s <=? read_target s)%nat) by (apply Nat.leb_le; lia).
  rewrite (debug_assert_true (read_target s <=? _)%nat) by (apply Nat.leb_le; lia).
  rewrite (debug_assert_true (length d <=? _)%nat) by (apply Nat.leb_le; lia).
  cbn [mbind outcome_bind].
  replace (0 <? length d)%nat with true by (symmetry; apply Nat.ltb_lt; lia).
  cbn [read_index frontend_buffer addresses frontend_readiness read_target].
  rewrite Nat.eqb_refl, Hlen.
  replace (read_index s + length d <=? _)%nat with true by (symmetry; apply Nat.leb_le; lia).
  cbn [debug_assert mbind outcome_bind]. destruct Hr as [-> | ->]; by eexists.
Qed.

(** The length field, once the fixed part has been read. *)
Lemma declared_length c family data buf :
  Z.of_nat (length data) < 65536 -> take 16 buf = take 16 (wire c family data) ->
  exists b14 b15, buf !! 14%nat = Some b14 /\ buf !! 15%nat = Some b15 /\
    be_value [b14; b15] = Z.of_nat (length data).
Proof.
  intros Hlen E.
  assert (forall k, (k < 16)%nat -> buf !! k = wire c family data !! k) as Hk.
  { intros k Hk. rewrite <- (lookup_take_lt buf 16), <- (lookup_take_lt (wire c family data) 16), E
      by done. done. }
  rewrite !Hk by lia. unfold wire. cbn [PROTOCOL_SIGNATURE_V2 app lookup list_lookup be_bytes].
  eexists _, _. split; [done |]. split; [done |].
  apply (be_value_be_bytes_small 2). split; lia.
Qed.

Lemma expect_run_header c family data a payload events : forall n s,
  (length data <= 216)%nat ->
  parse_v2_header (wire c family data) = Val ([], mkHeaderV2 c family a) ->
  expect_at (wire c family data) n s -> (n < length (wire c family data))%nat ->
  (length (wire c family data) - n <= length events)%nat -> Forall event_ok events ->
  exists s', expect_run s (drop n (wire c family data) ++ payload) events =
    Val (s', Upgrade, payload) /\ addresses s' = Some a.
Proof.
  set (w := wire c family data). induction events as [| [k result] events IH];
    intros n s Hdata Hparse [Hi Hbuf Hlen Ht] Hn Hev Hok; [rewrite length_nil in Hev; lia |].
  apply Forall_cons in Hok as [[Hk Hres] Hok]. cbn in Hk, Hres. rewrite length_cons in Hev.
  assert (length w = 16 + length data)%nat as Hw by apply length_wire.
  assert (n < read_target s <= length w)%nat as Htw by (rewrite Ht; destruct (Nat.ltb_spec n 16); lia).
  cbn [expect_run]. rewrite Hi. set (m := Nat.min k (read_target s - n)).
  assert (take m (drop n w ++ payload) = take m (drop n w)) as ->
    by (apply take_app_le; rewrite length_drop; lia).
  assert (drop m (drop n w ++ payload) = drop (n + m) w ++ payload) as ->
    by (rewrite drop_app_le by (rewrite length_drop; lia); by rewrite drop_drop).
  assert (length (take m (drop n w)) = m) as Hm by (rewrite length_take, length_drop; lia).
  destruct (expect_readable_step s (take m (drop n w)) result) as [r Er];
    [lia | lia | unfold MAX_HEADER_LEN in *; lia | done |].
  rewrite Er, Hi, Hm. clear Er.
  destruct (fill_buffer_take (frontend_buffer s) n (take m (drop n w))) as [Hf Hfl];
    [unfold MAX_HEADER_LEN in *; lia |].
  rewrite Hm, Hbuf, take_take_drop in Hf. set (buf := fill_buffer _ _ _) in *. clearbody buf.
  unfold expect_parse. cbn [read_index frontend_buffer read_target]. rewrite Hf.
  destruct (decide (n + m < length w)%nat) as [Hlt | Hge].
  - rewrite (parse_v2_header_prefix c family data) by (fold w; lia). fold w.
    destruct (Nat.ltb_spec (n + m) (read_target s)) as [Hlt' | Hge'].
    + cbn [mbind outcome_bind]. apply IH; try done; try lia.
      constructor; cbn [read_index frontend_buffer read_target]; [done | done | by rewrite Hfl |].
      rewrite Ht in Hlt' |- *. destruct (Nat.ltb_spec n 16), (Nat.ltb_spec (n + m) 16); lia.
    + assert (read_target s = 16 /\ n + m = 16)%nat as [Et Enm]
        by (rewrite Ht in *; destruct (Nat.ltb_spec n 16); lia).
      rewrite Et, Nat.eqb_refl.
      destruct (declared_length c family data buf) as (b14 & b15 & E14 & E15 & Eb);
        [lia | by rewrite Enm in Hf |].
      rewrite (index_Some _ _ _ E14). cbn [mbind outcome_bind].
      rewrite (index_Some _ _ _ E15). cbn [mbind outcome_bind]. rewrite Eb, Nat2Z.id.
      replace (length buf <? _)%nat with false
        by (symmetry; apply Nat.ltb_ge; unfold V2_FIXED_HEADER_LEN, MAX_HEADER_LEN in *; lia).
      replace (V2_FIXED_HEADER_LEN <? _)%nat with true
        by (symmetry; apply Nat.ltb_lt; unfold V2_FIXED_HEADER_LEN in *; lia).
      cbn [mbind outcome_bind]. apply IH; try done; try lia.
      constructor; cbn [read_index frontend_buffer read_target]; [done | done | by rewrite Hfl |].
      rewrite Enm, Hw. done.
  - assert (n + m = length w)%nat as E by lia. rewrite E, take_ge, Hparse by done.
    cbn [mbind outcome_bind length debug_assert]. rewrite drop_ge by done. by eexists.
Qed.

(** A header longer than the buffer: its fixed part is read, and the session
    closed without an address. *)
Lemma expect_run_oversized c family data payload events : forall n s,
  (216 < length data)%nat -> Z.of_nat (length data) < 65536 ->
  expect_at (wire c family data) n s -> (n < 16)%nat -> addresses s = None ->
  (16 - n <= length events)%nat -> Forall event_ok events ->
  exists s', expect_run s (drop n (wire c family data) ++ payload) events =
    Val (s', Close, drop 16 (wire c family data) ++ payload) /\ addresses s' = None.
Proof.
  set (w := wire c family data). induction events as [| [k result] events IH];
    intros n s Hlong Hdata [Hi Hbuf Hlen Ht] Hn Ha Hev Hok; cbn [length] in Hev; [lia |].
  apply Forall_cons in Hok as [[Hk Hres] Hok]. cbn in Hk, Hres.
  assert (length w = 16 + length data)%nat as Hw by apply length_wire.
  rewrite (proj2 (Nat.ltb_lt n 16)) in Ht by done.
  cbn [expect_run]. rewrite Hi, Ht. set (m := Nat.min k (16 - n)).
  assert (take m (drop n w ++ payload) = take m (drop n w)) as ->
    by (apply take_app_le; rewrite length_drop; lia).
  assert (drop m (drop n w ++ payload) = drop (n + m) w ++ payload) as ->
    by (rewrite drop_app_le by (rewrite length_drop; lia); by rewrite drop_drop).
  assert (length (take m (drop n w)) = m) as Hm by (rewrite length_take, length_drop; lia).
  destruct (expect_readable_step s (take m (drop n w)) result) as [r Er];
    [lia | lia | unfold MAX_HEADER_LEN in *; lia | done |].
  rewrite Er, Hi, Hm, Ht, Ha. clear Er.
  destruct (fill_buffer_take (frontend_buffer s) n (take m (drop n w))) as [Hf Hfl];
    [unfold MAX_HEADER_LEN in *; lia |].
  rewrite Hm, Hbuf, take_take_drop in Hf. set (buf := fill_buffer _ _ _) in *. clearbody buf.
  unfold expect_parse. cbn [read_index frontend_buffer read_target]. rewrite Hf.
  rewrite (parse_v2_header_prefix c family data) by (fold w; lia).
  destruct (Nat.ltb_spec (n + m) 16) as [Hlt | Hge].
  - cbn [mbind outcome_bind]. apply IH; try done; try lia.
    constructor; cbn [read_index frontend_buffer read_target]; [done | done | by rewrite Hfl |].
    by rewrite (proj2 (Nat.ltb_lt _ _)) by done.
  - assert (n + m = 16)%nat as Enm by lia. rewrite Enm in *. cbn [V2_FIXED_HEADER_LEN Nat.eqb].
    destruct (declared_length c family data buf Hdata Hf) as (b14 & b15 & E14 & E15 & Eb).
    rewrite (index_Some _ _ _ E14). cbn [mbind outcome_bind].
    rewrite (index_Some _ _ _ E15). cbn [mbind outcome_bind]. rewrite Eb, Nat2Z.id.
    replace (length buf <? _)%nat with true
      by (symmetry; apply Nat.ltb_lt; unfold V2_FIXED_HEADER_LEN, MAX_HEADER_LEN in *; lia).
    by eexists.
Qed.

Lemma expect_new_at w : (16 <= length w)%nat -> expect_at w 0 expect_new.
Proof. by constructor. Qed.

(** ** The properties *)

(** C31. A header round trips: the header built for a pair of endpoints is
    serialized without a failed assertion, and the parser reads back, whatever
    follows, the same command and, for a PROXY header of two endpoints of one
    family, their addresses and ports, an IPv6 endpoint without its flow and
    scope ([on_wire]), which the wire does not carry.  A LOCAL header, or one
    for endpoints of different families, comes back without an address. *)
Theorem proxy_header_roundtrip c src dst rest :
  socket_ok src -> socket_ok dst ->
  exists h bytes h',
    header_new c src dst = Val h /\ header_into_bytes h = Val bytes /\
    parse_v2_header (bytes ++ rest) = Val (rest, h') /\ command h' = c /\ family h' = family h /\
    addr h' = match c with Local => AfUnspec | Proxy => addr_of (on_wire src) (on_wire dst) end.
Proof.
  intros Hs Hd. eexists _, _, _. split; [apply header_new_Val |].
  split; [by apply header_into_bytes_Val |]. split.
  - rewrite parse_v2_header_wire.
    + by rewrite parse_addr_octets.
    + rewrite octets_of_length by done. destruct (addr_of src dst); cbn; lia.
  - done.
Qed.

(** The parser is safe on any octets: it never panics, and what it
    accepts is a well-formed header of which it consumed exactly the declared
    length; a LOCAL header never attributes an address, whatever its address
    block says, so a peer cannot forge a client with it. *)
Theorem proxy_parser_safe input :
  bytes_ok input ->
  match parse_v2_header input with
  | Val (rest, h) =>
      (exists data, input = wire (command h) (family h) data ++ rest) /\
      (command h = Local -> source (addr h) = None /\ destination (addr h) = None)
  | Fails _ => True
  | Panic => False
  end.
Proof.
  intros Hi. destruct (parse_v2_header_cases input Hi) as [[e ->] | (c & f & data & rest & a & E & -> & Ha)];
    [done |]. split; [by exists data |]. cbn. intros ->. by rewrite Ha.
Qed.

(** C30. Whatever the pieces in which a valid header arrives, the session that
    expects one reads a header of at most 232 octets whole and not one octet
    more: it ends in an upgrade with the header's address, and the
    application's octets that follow are still in the socket.  Of a longer
    header it reads the sixteen octets of the fixed part, and closes without
    an address.  No assertion fails. *)
Theorem expect_reads_header c family data a payload events :
  Z.of_nat (length data) < 65536 ->
  parse_v2_header (wire c family data) = Val ([], mkHeaderV2 c family a) ->
  (16 + length data <= length events)%nat -> Forall event_ok events ->
  if decide (length (wire c family data) <= MAX_HEADER_LEN)%nat then
    exists s, expect_run expect_new (wire c family data ++ payload) events =
      Val (s, Upgrade, payload) /\ addresses s = Some a
  else
    exists s, expect_run expect_new (wire c family data ++ payload) events =
      Val (s, Close, drop 16 (wire c family data) ++ payload) /\ addresses s = None.
Proof.
  intros Hd Hp Hev Hok. pose proof (length_wire c family data) as Hw.
  assert (Hat : expect_at (wire c family data) 0 expect_new) by (apply expect_new_at; lia).
  case_decide as Hl; unfold MAX_HEADER_LEN in Hl.
  - apply (expect_run_header c family data a payload events 0 expect_new); done || lia.
  - apply (expect_run_oversized c family data payload events 0 expect_new); done || lia.
Qed.

End Laws.

Lemma proxy_header_roundtrip_witness :
  exists h bytes h',
    header_new Proxy (V4 (mkSocketAddrV4 [10; 0; 0; 1] 8080)) (V4 (mkSocketAddrV4 [10; 0; 0; 2] 443)) =
      Val h /\ header_into_bytes h = Val bytes /\
    parse_v2_header (H := simple_streaming) (bytes ++ [71; 69; 84]) = Val ([71; 69; 84], h') /\
    command h' = Proxy /\ family h' = family h /\
    addr h' = Ipv4Addr (mkSocketAddrV4 [10; 0; 0; 1] 8080) (mkSocketAddrV4 [10; 0; 0; 2] 443).
Proof.
  apply (proxy_header_roundtrip (HN := simple_streaming) Proxy
    (V4 (mkSocketAddrV4 [10; 0; 0; 1] 8080)) (V4 (mkSocketAddrV4 [10; 0; 0; 2] 443)) [71; 69; 84]);
    (split; [done | apply (bool_decide_unpack _); by vm_compute]).
Defined.

Lemma proxy_parser_safe_witness :
  exists data, wire Local 0x11 (replicate 12 7) ++ [1; 2] = wire Local 0x11 data ++ [1; 2].
Proof.
  destruct (proxy_parser_safe (HN := simple_streaming) (wire Local 0x11 (replicate 12 7) ++ [1; 2]))
    as [H _]; [| exact H].
  unfold bytes_ok. apply (bool_decide_unpack _). by vm_compute.
Defined.

(** A header of 28 octets, and one of 316 that ends in padding. *)
Lemma expect_reads_header_witness :
  (exists s,
    expect_run (HN := simple_streaming) expect_new (wire Proxy 0x11 (replicate 12 7) ++ [1; 2])
      (replicate 28 (5%nat, SocketResult.WouldBlock)) = Val (s, Upgrade, [1; 2]) /\
    addresses s = Some (Ipv4Addr (mkSocketAddrV4 [7; 7; 7; 7] 1799) (mkSocketAddrV4 [7; 7; 7; 7] 1799))) /\
  exists s,
    expect_run (HN := simple_streaming) expect_new (wire Proxy 0x11 (replicate 300 7) ++ [1; 2])
      (replicate 316 (5%nat, SocketResult.WouldBlock)) = Val (s, Close, replicate 300 7 ++ [1; 2]) /\
    addresses s = None.
Proof.
  split.
  - apply (expect_reads_header (HN := simple_streaming) Proxy 0x11 (replicate 12 7)
      (Ipv4Addr (mkSocketAddrV4 [7; 7; 7; 7] 1799) (mkSocketAddrV4 [7; 7; 7; 7] 1799))); [done | by vm_compute | cbn; lia |].
    apply Forall_replicate. split; [cbn; lia | by right].
  - apply (expect_reads_header (HN := simple_streaming) Proxy 0x11 (replicate 300 7)
      (Ipv4Addr (mkSocketAddrV4 [7; 7; 7; 7] 1799) (mkSocketAddrV4 [7; 7; 7; 7] 1799))); [done | by vm_compute | cbn; lia |].
    apply Forall_replicate. split; [cbn; lia | by right].
Defined.
