(* ===== verification/Buffers.v ===== *)
(** * The byte buffers of the command channel

    Models [command/src/buffer/fixed.rs] and [command/src/buffer/growable.rs]:
    a window [position..end] of pending bytes over a [Vec<u8>], as the record
    of the same fields, lengths and offsets being [nat].  A slice index or a
    [copy_within] out of range panics; [ptr::copy], which checks nothing,
    [Fails] when it would write past the allocation. *)

From S2P Require Import Prelude.

(** ** Slices *)

(** [l[a..b]] *)
Definition slice {E} (l : list Z) (a b : nat) : outcome E (list Z) :=
  if (a <=? b)%nat && (b <=? length l)%nat then Val (take (b - a) (drop a l)) else Panic.

(** [l] with [src] at [at_]. *)
Definition put_at (l : list Z) (at_ : nat) (src : list Z) : list Z :=
  take at_ l ++ src ++ drop (at_ + length src) l.

(** [l[a..b].copy_from_slice(src)] *)
Definition copy_from_slice {E} (l : list Z) (a b : nat) (src : list Z) : outcome E (list Z) :=
  if (a <=? b)%nat && (b <=? length l)%nat && (length src =? b - a)%nat
  then Val (put_at l a src) else Panic.

(** [l.copy_within(a..b, dest)] *)
Definition copy_within {E} (l : list Z) (a b dest : nat) : outcome E (list Z) :=
  src ← slice l a b;
  if (dest + length src <=? length l)%nat then Val (put_at l dest src) else Panic.

(** [a.checked_add(b)] of [usize], and [a + b], which overflows in a debug
    build. *)
Definition checked_add (a b : nat) : option nat :=
  if Z.of_nat (a + b) <=? USIZE_MAX then Some (a + b)%nat else None.
Definition usize_add {E} (a b : nat) : outcome E nat :=
  match checked_add a b with Some c => Val c | None => Panic end.

(** An access outside an allocation, which Rust leaves undefined. *)
Inductive fault := OutOfBounds.

(** [ptr::copy(src.as_ptr(), memory[c..].as_mut_ptr(), src.len())] *)
Definition ptr_copy (memory src : list Z) (c : nat) : outcome fault (list Z) :=
  if (length memory <? c)%nat then Panic
  else if (c + length src <=? length memory)%nat then Val (put_at memory c src) else Fails OutOfBounds.

Record Buffer := mkBuffer { memory : list Z; position : nat; end_ : nat }.

Definition available_data (b : Buffer) : nat := end_ b - position b.
Definition empty (b : Buffer) : bool := (position b =? end_ b)%nat.

(** The pending bytes. *)
Definition pending (b : Buffer) : list Z := take (end_ b - position b) (drop (position b) (memory b)).

Definition data {E} (b : Buffer) : outcome E (list Z) := slice (memory b) (position b) (end_ b).

(** ** The fixed buffer *)

Module Fixed.

Definition with_capacity (capacity : nat) : Buffer := mkBuffer (replicate capacity 0) 0 0.

Definition capacity (b : Buffer) : nat := length (memory b).
Definition available_space (b : Buffer) : nat := capacity b - end_ b.

(** Growing is [unimplemented!()]. *)
Definition grow (b : Buffer) (new_size : nat) : checked (Buffer * bool) :=
  if (new_size <=? capacity b)%nat then Val (b, false) else Panic.

Definition shift (b : Buffer) : checked Buffer :=
  if (0 <? position b)%nat then
    let length := (end_ b - position b)%nat in
    m ← copy_within (memory b) (position b) (end_ b) 0;
    Val (mkBuffer m 0 length)
  else Val b.

Definition consume (b : Buffer) (count : nat) : checked (Buffer * nat) :=
  let cnt := Nat.min count (available_data b) in
  let b := mkBuffer (memory b) (position b + cnt) (end_ b) in
  b ← (if (capacity b / 2 <? position b)%nat then shift b else Val b);
  Val (b, cnt).

Definition fill (b : Buffer) (count : nat) : checked (Buffer * nat) :=
  let cnt := Nat.min count (available_space b) in
  let b := mkBuffer (memory b) (position b) (end_ b + cnt) in
  b ← (if (available_space b <? available_data b + cnt)%nat then shift b else Val b);
  Val (b, cnt).

Definition reset (b : Buffer) : Buffer := mkBuffer (memory b) 0 0.

Definition delete_slice (b : Buffer) (start length : nat) : checked (Buffer * option nat) :=
  match checked_add start length with
  | None => Val (b, None)
  | Some end' =>
      if (available_data b <=? end')%nat then Val (b, None) else
      let begin := (position b + start)%nat in
      let tail_start := (begin + length)%nat in
      m ← copy_within (memory b) tail_start (end_ b) begin;
      let b := mkBuffer m (position b) (end_ b - length) in
      Val (b, Some (available_data b))
  end.

Definition replace_slice (b : Buffer) (data : list Z) (start len : nat) : checked (Buffer * option nat) :=
  let data_len := length data in
  match checked_add start len with
  | None => Val (b, None)
  | Some replaced_end =>
      if (available_data b <? replaced_end)%nat then Val (b, None) else
      let begin := (position b + start)%nat in
      let tail_start := (begin + len)%nat in
      let slice_end := (begin + data_len)%nat in
      match Nat.compare data_len len with
      | Lt =>
          m ← copy_from_slice (memory b) begin slice_end data;
          m ← copy_within m tail_start (end_ b) slice_end;
          let b := mkBuffer m (position b) (end_ b - (len - data_len)) in
          Val (b, Some (available_data b))
      | Eq =>
          m ← copy_from_slice (memory b) begin slice_end data;
          let b := mkBuffer m (position b) (end_ b) in
          Val (b, Some (available_data b))
      | Gt =>
          match checked_add (end_ b) (data_len - len) with
          | None => Val (b, None)
          | Some new_end =>
              if (capacity b <? new_end)%nat then Val (b, None) else
              m ← copy_within (memory b) tail_start (end_ b) slice_end;
              m ← copy_from_slice m begin slice_end data;
              let b := mkBuffer m (position b) new_end in
              Val (b, Some (available_data b))
          end
      end
  end.

Definition insert_slice (b : Buffer) (data : list Z) (start : nat) : checked (Buffer * option nat) :=
  replace_slice b data start 0.

(** [Write::write]: [space] takes what fits. *)
Definition write (b : Buffer) (buf : list Z) : checked (Buffer * nat) :=
  let size := Nat.min (length buf) (available_space b) in
  m ← copy_from_slice (memory b) (end_ b) (end_ b + size) (take size buf);
  '(b, _) ← fill (mkBuffer m (position b) (end_ b)) size;
  Val (b, size).

(** [Read::read] into a slice of [wanted] bytes. *)
Definition read (b : Buffer) (wanted : nat) : checked (Buffer * list Z) :=
  let len := Nat.min (available_data b) wanted in
  out ← slice (memory b) (position b) (position b + len);
  Val (mkBuffer (memory b) (position b + len) (end_ b), out).

End Fixed.

(** ** The growable buffer *)

Module Growable.

Record Buffer := mkBuffer { memory : list Z; capacity : nat; position : nat; end_ : nat }.

Definition with_capacity (capacity : nat) : Buffer := mkBuffer (replicate capacity 0) capacity 0 0.
Definition from_slice (sl : list Z) : Buffer := mkBuffer sl (length sl) 0 (length sl).

Definition set_memory (b : Buffer) (m : list Z) : Buffer := mkBuffer m (capacity b) (position b) (end_ b).

Definition reallocate {E} (b : Buffer) (size : nat) : outcome E Buffer :=
  _ ← debug_assert (end_ b <=? size)%nat;
  _ ← debug_assert (position b <=? end_ b)%nat;
  src ← slice (memory b) (position b) (end_ b);
  destination ← copy_from_slice (replicate size 0) (position b) (end_ b) src;
  Val (set_memory b destination).

Definition erase {E} (b : Buffer) (from to : nat) : outcome E Buffer :=
  _ ← debug_assert (from <=? to)%nat;
  _ ← debug_assert (to <=? length (memory b))%nat;
  m ← copy_from_slice (memory b) from to (replicate (to - from) 0);
  Val (set_memory b m).

Definition available_data (b : Buffer) : nat := end_ b - position b.
Definition available_space (b : Buffer) : nat := capacity b - end_ b.
Definition empty (b : Buffer) : bool := (position b =? end_ b)%nat.
Definition pending (b : Buffer) : list Z := take (end_ b - position b) (drop (position b) (memory b)).
Definition data {E} (b : Buffer) : outcome E (list Z) := slice (memory b) (position b) (end_ b).

Definition grow {E} (b : Buffer) (new_size : nat) : outcome E (Buffer * bool) :=
  if (new_size <=? capacity b)%nat then Val (b, false) else
  b ← reallocate b new_size;
  Val (mkBuffer (memory b) new_size (position b) (end_ b), true).

Definition shift {E} (b : Buffer) : outcome E Buffer :=
  if (0 <? position b)%nat then
    let previous_end := end_ b in
    let length := (end_ b - position b)%nat in
    m ← copy_within (memory b) (position b) (end_ b) 0;
    erase (mkBuffer m (capacity b) 0 length) length previous_end
  else Val b.

Definition shrink {E} (b : Buffer) (target_size : nat) : outcome E (Buffer * bool) :=
  if (capacity b <=? target_size)%nat then Val (b, false) else
  b ← shift b;
  if (target_size <? end_ b)%nat then Val (b, false) else
  b ← reallocate b target_size;
  Val (mkBuffer (memory b) target_size (position b) (end_ b), true).

Definition consume {E} (b : Buffer) (count : nat) : outcome E (Buffer * nat) :=
  let cnt := Nat.min count (available_data b) in
  b ← erase b (position b) (position b + cnt);
  let b := mkBuffer (memory b) (capacity b) (position b + cnt) (end_ b) in
  b ← (if (capacity b / 2 <? position b)%nat then shift b else Val b);
  Val (b, cnt).

Definition fill {E} (b : Buffer) (count : nat) : outcome E (Buffer * nat) :=
  let cnt := Nat.min count (available_space b) in
  let b := mkBuffer (memory b) (capacity b) (position b) (end_ b + cnt) in
  b ← (if (available_space b <? available_data b + cnt)%nat then shift b else Val b);
  Val (b, cnt).

Definition reset {E} (b : Buffer) : outcome E Buffer :=
  b ← erase b (position b) (end_ b);
  Val (mkBuffer (memory b) (capacity b) 0 0).

Definition delete_slice {E} (b : Buffer) (start length : nat) : outcome E (Buffer * option nat) :=
  start_length ← usize_add start length;
  if (available_data b <=? start_length)%nat then Val (b, None) else
  let previous_end := end_ b in
  let begin := (position b + start)%nat in
  let next_end := (end_ b - length)%nat in
  m ← copy_within (memory b) (begin + length) (end_ b) begin;
  b ← erase (mkBuffer m (capacity b) (position b) next_end) next_end previous_end;
  Val (b, Some (available_data b)).

(** The ranges the source takes from [start], without the position, are kept
    as they are. *)
Definition replace_slice (b : Buffer) (data : list Z) (start len : nat) :
    outcome fault (Buffer * option nat) :=
  let data_len := length data in
  start_length ← usize_add start len;
  if (available_data b <? start_length)%nat then Val (b, None) else
  position_start ← usize_add (position b) start;
  new_end ← usize_add position_start data_len;
  if (capacity b <? new_end)%nat then Val (b, None) else
  let previous_end := end_ b in
  let begin := (position b + start)%nat in
  let slice_end := (begin + data_len)%nat in
  b ← (if (data_len <? len)%nat then
         m ← copy_from_slice (memory b) begin slice_end data;
         tail ← slice m (start + len) (end_ b);
         m ← ptr_copy m tail slice_end;
         Val (mkBuffer m (capacity b) (position b) (end_ b - (len - data_len)))
       else
         tail ← slice (memory b) (start + len) (end_ b);
         m ← ptr_copy (memory b) tail (start + data_len);
         m ← copy_from_slice m begin slice_end data;
         Val (mkBuffer m (capacity b) (position b) (end_ b + (data_len - len))));
  b ← (if (end_ b <? previous_end)%nat then erase b (end_ b) previous_end else Val b);
  Val (b, Some (available_data b)).

Definition insert_slice (b : Buffer) (data : list Z) (start : nat) : outcome fault (Buffer * option nat) :=
  let data_len := length data in
  if (available_data b <? start)%nat then Val (b, None) else
  new_end ← usize_add (position b + end_ b) data_len;
  if (capacity b <? new_end)%nat then Val (b, None) else
  let begin := (position b + start)%nat in
  let slice_end := (begin + data_len)%nat in
  tail ← slice (memory b) start (end_ b);
  m ← ptr_copy (memory b) tail (start + data_len);
  m ← copy_from_slice m begin slice_end data;
  let b := mkBuffer m (capacity b) (position b) (end_ b + data_len) in
  Val (b, Some (available_data b)).

(** [Write::write] into [space], [memory[end..capacity]]. *)
Definition write {E} (b : Buffer) (buf : list Z) : outcome E (Buffer * nat) :=
  let size := Nat.min (length buf) (available_space b) in
  m ← copy_from_slice (memory b) (end_ b) (end_ b + size) (take size buf);
  '(b, _) ← fill (set_memory b m) size;
  Val (b, size).

Definition read {E} (b : Buffer) (wanted : nat) : outcome E (Buffer * list Z) :=
  let len := Nat.min (available_data b) wanted in
  out ← slice (memory b) (position b) (position b + len);
  b ← erase b (position b) (position b + len);
  Val (mkBuffer (memory b) (capacity b) (position b + len) (end_ b), out).

End Growable.

(** ** Lists by their elements *)

Lemma lookup_app_if {A} (l1 l2 : list A) i :
  (l1 ++ l2) !! i = if decide (i < length l1)%nat then l1 !! i else l2 !! (i - length l1)%nat.
Proof. case_decide; [by apply lookup_app_l | apply lookup_app_r; lia]. Qed.

Lemma lookup_take_if {A} (l : list A) n i : take n l !! i = if decide (i < n)%nat then l !! i else None.
Proof. case_decide; [by apply lookup_take_lt | apply lookup_take_ge; lia]. Qed.

Lemma lookup_replicate_if {A} (x : A) n i : replicate n x !! i = if decide (i < n)%nat then Some x else None.
Proof.
  case_decide; [by apply lookup_replicate_2 |]. apply lookup_ge_None_2. rewrite length_replicate. lia.
Qed.

(** Equality of lists built from slices, element by element. *)
Ltac slices :=
  unfold put_at in *;
  repeat progress (rewrite ?length_app, ?length_take, ?length_drop, ?length_replicate in * );
  cbn [length] in *.
Ltac slice_lookup :=
  repeat progress (rewrite ?lookup_app_if, ?lookup_take_if, ?lookup_drop, ?lookup_replicate_if, ?lookup_nil;
    rewrite ?length_app, ?length_take, ?length_drop, ?length_replicate);
  cbn [length].
Ltac slice_eq :=
  unfold put_at; apply list_eq; intros i; slice_lookup;
  repeat (case_decide; try (exfalso; lia)); try done;
  try (f_equal; lia); try (symmetry; apply lookup_ge_None_2; slices; lia);
  try (apply lookup_ge_None_2; slices; lia).

Lemma slice_Val {E} (l : list Z) a b :
  (a <= b <= length l)%nat -> slice l a b = @Val E _ (take (b - a) (drop a l)).
Proof. intros [??]. unfold slice. by rewrite !(proj2 (Nat.leb_le _ _)). Qed.

Lemma copy_from_slice_Val {E} (l src : list Z) a b :
  (a <= b <= length l)%nat -> length src = (b - a)%nat -> copy_from_slice l a b src = @Val E _ (put_at l a src).
Proof.
  intros [??] Hs. unfold copy_from_slice. rewrite !(proj2 (Nat.leb_le _ _)) by done.
  by rewrite (proj2 (Nat.eqb_eq _ _)).
Qed.

Lemma copy_within_Val {E} (l : list Z) a b dest :
  (a <= b <= length l)%nat -> (dest + (b - a) <= length l)%nat ->
  copy_within l a b dest = @Val E _ (put_at l dest (take (b - a) (drop a l))).
Proof.
  intros ??. unfold copy_within. rewrite slice_Val by done. cbn [mbind outcome_bind].
  by rewrite (proj2 (Nat.leb_le _ _)) by (slices; lia).
Qed.

Lemma length_put_at l at_ src :
  (at_ + length src <= length l)%nat -> length (put_at l at_ src) = length l.
Proof. intros. slices. lia. Qed.

(** A window that starts at [pos] over memory written at [pos + k]. *)
Lemma window_put (m src : list Z) pos k r :
  (pos + k + length src <= length m)%nat ->
  take (k + length src + r) (drop pos (put_at m (pos + k) src)) =
  take k (drop pos m) ++ src ++ take r (drop (pos + k + length src) m).
Proof.
  intros Hl. unfold put_at. rewrite drop_app_le, skipn_firstn_comm by (slices; lia).
  replace (pos + k - pos)%nat with k by lia.
  assert (Hk : length (take k (drop pos m)) = k) by (slices; lia).
  rewrite take_app_ge, Hk by lia. f_equal. replace (k + length src + r - k)%nat with (length src + r)%nat by lia.
  rewrite take_app_ge by lia. by replace (length src + r - length src)%nat with r by lia.
Qed.

(** Memory behind or before what was written. *)
Lemma drop_put (m src : list Z) at_ n :
  (at_ + length src <= n)%nat -> (n <= length m)%nat -> drop n (put_at m at_ src) = drop n m.
Proof.
  intros Hn Hl. unfold put_at. rewrite app_assoc, drop_app_ge by (slices; lia). rewrite drop_drop.
  f_equal. slices. lia.
Qed.

Lemma take_drop_put (m src : list Z) at_ k pos :
  (pos + k <= at_ <= length m)%nat -> take k (drop pos (put_at m at_ src)) = take k (drop pos m).
Proof.
  intros Hk. unfold put_at. rewrite drop_app_le, take_app_le by (slices; lia).
  rewrite skipn_firstn_comm, take_take. f_equal. lia.
Qed.

(** Pieces of the pending bytes. *)
Lemma take_pending (m : list Z) k n : (k <= n)%nat -> take k (take n m) = take k m.
Proof. intros. rewrite take_take. f_equal. lia. Qed.

Lemma drop_pending (m : list Z) pos k n : drop k (take n (drop pos m)) = take (n - k) (drop (pos + k) m).
Proof. by rewrite skipn_firstn_comm, drop_drop. Qed.

(** The edits of the pending bytes: [m] is the memory, [p] and [e] the window. *)
Section Edits.
Context (m bytes : list Z) (p e start len : nat).
Hypothesis Hwindow : (p <= e <= length m)%nat.
Hypothesis Hin : (start + len <= e - p)%nat.

Let d := take (e - p) (drop p m).
Let tail := take (e - (p + start + len)) (drop (p + start + len) m).

Lemma window_tail : tail = drop (start + len) d.
Proof. subst tail d. rewrite drop_pending. f_equal; [lia | f_equal; lia]. Qed.

Lemma window_length_tail : length tail = (e - (p + start + len))%nat.
Proof. subst tail. slices. lia. Qed.

Lemma window_delete :
  take (e - len - p) (drop p (put_at m (p + start) tail)) = take start d ++ drop (start + len) d.
Proof.
  pose proof window_length_tail as Hl. rewrite <- window_tail.
  replace (e - len - p)%nat with (start + length tail + 0)%nat by lia.
  rewrite window_put by lia. cbn [take]. rewrite app_nil_r. subst d. by rewrite take_pending by lia.
Qed.

Lemma window_overwrite :
  length bytes = len ->
  take (e - p) (drop p (put_at m (p + start) bytes)) = take start d ++ bytes ++ drop (start + len) d.
Proof.
  intros Hb. rewrite <- window_tail.
  replace (e - p)%nat with (start + length bytes + (e - (p + start + len)))%nat by lia.
  rewrite window_put by lia. subst d tail. rewrite take_pending, Hb by lia. done.
Qed.

Lemma window_shrink :
  (length bytes < len)%nat ->
  take (e - (len - length bytes) - p)
    (drop p (put_at (put_at m (p + start) bytes) (p + start + length bytes) tail)) =
  take start d ++ bytes ++ drop (start + len) d.
Proof.
  intros Hb. pose proof window_length_tail as Hl. rewrite <- window_tail.
  replace (e - (len - length bytes) - p)%nat with ((start + length bytes) + length tail + 0)%nat by lia.
  rewrite <- (Nat.add_assoc p), window_put by (rewrite length_put_at by lia; lia).
  cbn [take]. rewrite app_nil_r, app_assoc. f_equal.
  replace (start + length bytes)%nat with (start + length bytes + 0)%nat by lia.
  rewrite window_put by lia. cbn [take]. rewrite app_nil_r. subst d. by rewrite take_pending by lia.
Qed.

Lemma window_widen :
  (len < length bytes)%nat -> (e + (length bytes - len) <= length m)%nat ->
  take (e + (length bytes - len) - p)
    (drop p (put_at (put_at m (p + start + length bytes) tail) (p + start) bytes)) =
  take start d ++ bytes ++ drop (start + len) d.
Proof.
  intros Hb Hroom. pose proof window_length_tail as Hl. rewrite <- window_tail.
  replace (e + (length bytes - len) - p)%nat with (start + length bytes + length tail)%nat by lia.
  rewrite window_put by (rewrite length_put_at by lia; lia).
  rewrite take_drop_put by lia. subst d. rewrite take_pending by lia. do 2 f_equal.
  replace (p + start + length bytes)%nat with (p + start + length bytes + 0)%nat at 2 by lia.
  pose proof (window_put m tail (p + start + length bytes) 0 0) as Hp. cbn [take app] in Hp.
  rewrite Nat.add_0_l, !Nat.add_0_r, app_nil_r in *. apply Hp. lia.
Qed.
End Edits.

Lemma checked_add_Some a b : Z.of_nat (a + b) <= USIZE_MAX -> checked_add a b = Some (a + b)%nat.
Proof. intros H. unfold checked_add. by rewrite (proj2 (Z.leb_le _ _)). Qed.

Lemma checked_add_None a b : USIZE_MAX < Z.of_nat (a + b) -> checked_add a b = None.
Proof. intros H. unfold checked_add. by rewrite (proj2 (Z.leb_gt _ _)). Qed.

(** Both cases of [checked_add a b]. *)
Lemma checked_add_cases a b :
  (checked_add a b = Some (a + b)%nat /\ Z.of_nat (a + b) <= USIZE_MAX) \/
  (checked_add a b = None /\ USIZE_MAX < Z.of_nat (a + b)).
Proof.
  destruct (decide (Z.of_nat (a + b) <= USIZE_MAX)).
  - left. by rewrite checked_add_Some.
  - right. rewrite checked_add_None by lia. split; [done | lia].
Qed.

(** ** The byte queue both buffers implement *)

Inductive buffer_op :=
| OpWrite (bytes : list Z)
| OpRead (wanted : nat)
| OpConsume (count : nat)
| OpShift
| OpReset
| OpDelete (start length : nat)
| OpReplace (bytes : list Z) (start length : nat)
| OpInsert (bytes : list Z) (start : nat).

Inductive buffer_result :=
| RCount (n : nat)
| RBytes (l : list Z)
| RLength (o : option nat)
| RUnit.

(** What an operation does to the pending bytes [d], with room for [space]
    more bytes behind them. *)
Definition queue_step (space : nat) (d : list Z) (op : buffer_op) : list Z * buffer_result :=
  match op with
  | OpWrite bytes =>
      let n := Nat.min (length bytes) space in (d ++ take n bytes, RCount n)
  | OpRead wanted => (drop wanted d, RBytes (take wanted d))
  | OpConsume count => (drop count d, RCount (Nat.min count (length d)))
  | OpShift => (d, RUnit)
  | OpReset => ([], RUnit)
  | OpDelete start len =>
      if (length d <=? start + len)%nat then (d, RLength None)
      else (take start d ++ drop (start + len) d, RLength (Some (length d - len)%nat))
  | OpReplace bytes start len =>
      if (length d <? start + len)%nat then (d, RLength None)
      else if (space <? length bytes - len)%nat then (d, RLength None)
      else (take start d ++ bytes ++ drop (start + len) d, RLength (Some (length d - len + length bytes)%nat))
  | OpInsert bytes start =>
      if (length d <? start)%nat then (d, RLength None)
      else if (space <? length bytes)%nat then (d, RLength None)
      else (take start d ++ bytes ++ drop start d, RLength (Some (length d + length bytes)%nat))
  end.

Definition fixed_step (b : Buffer) (op : buffer_op) : checked (Buffer * buffer_result) :=
  match op with
  | OpWrite bytes => '(b, n) ← Fixed.write b bytes; Val (b, RCount n)
  | OpRead wanted => '(b, l) ← Fixed.read b wanted; Val (b, RBytes l)
  | OpConsume count => '(b, n) ← Fixed.consume b count; Val (b, RCount n)
  | OpShift => b ← Fixed.shift b; Val (b, RUnit)
  | OpReset => Val (Fixed.reset b, RUnit)
  | OpDelete start len => '(b, o) ← Fixed.delete_slice b start len; Val (b, RLength o)
  | OpReplace bytes start len => '(b, o) ← Fixed.replace_slice b bytes start len; Val (b, RLength o)
  | OpInsert bytes start => '(b, o) ← Fixed.insert_slice b bytes start; Val (b, RLength o)
  end.

Module FixedSpec.
Import Fixed.

(** An allocation is at most [isize::MAX] bytes. *)
Record wf (b : Buffer) : Prop := {
  wf_window : (position b <= end_ b <= length (memory b))%nat;
  wf_memory : Z.of_nat (length (memory b)) < 2 ^ 63;
}.

Lemma length_pending b : wf b -> length (pending b) = available_data b.
Proof. intros [? _]. unfold pending, available_data. slices. lia. Qed.

Lemma shift_spec b :
  wf b -> exists b', shift b = Val b' /\ wf b' /\ pending b' = pending b /\ capacity b' = capacity b /\
    position b' = 0%nat.
Proof.
  intros Hb. pose proof Hb as [Hw Hm]. unfold shift. destruct (Nat.ltb_spec 0 (position b)).
  - rewrite copy_within_Val by lia. eexists. split; [done |]. unfold pending, capacity. cbn.
    rewrite length_put_at by (slices; lia).
    split; [split; cbn; rewrite ?length_put_at by (slices; lia); lia |].
    split; [slice_eq | done].
  - exists b. split; [done |]. split; [done |]. split; [done |]. split; [done | lia].
Qed.

Lemma shift_if c b :
  wf b -> exists b', (if c : bool then shift b else Val b) = Val b' /\ wf b' /\ pending b' = pending b /\
    capacity b' = capacity b.
Proof. destruct c; [intros (b' & ? & ? & ? & ? & _)%shift_spec; eauto | eauto]. Qed.

Lemma consume_spec b count :
  wf b -> exists b', consume b count = Val (b', Nat.min count (length (pending b))) /\ wf b' /\
    pending b' = drop count (pending b) /\ capacity b' = capacity b.
Proof.
  intros Hb. rewrite (length_pending b) by done. pose proof Hb as [Hw Hm]. unfold consume.
  set (b1 := mkBuffer _ _ _).
  assert (H1 : wf b1) by (split; subst b1; cbn; unfold available_data; lia).
  destruct (shift_if (capacity b1 / 2 <? position b1)%nat b1 H1) as (b' & -> & Hw' & Hp & Hc).
  exists b'. split; [done |]. split; [done |]. split; [| done]. rewrite Hp. subst b1.
  unfold pending, available_data. cbn. slice_eq.
Qed.

Lemma fill_spec b count :
  wf b -> (count <= available_space b)%nat ->
  exists b', fill b count = Val (b', count) /\ wf b' /\
    pending b' = pending b ++ take count (drop (end_ b) (memory b)) /\ capacity b' = capacity b.
Proof.
  intros Hb Hc. pose proof Hb as [Hw Hm]. unfold fill. rewrite Nat.min_l by done.
  set (b1 := mkBuffer _ _ _). unfold available_space, capacity in Hc.
  assert (H1 : wf b1) by (split; subst b1; cbn; lia).
  destruct (shift_if (available_space b1 <? available_data b1 + count)%nat b1 H1) as (b' & -> & Hw' & Hp & Hc').
  exists b'. split; [done |]. split; [done |]. split; [| done]. rewrite Hp. subst b1.
  unfold pending. cbn. slice_eq.
Qed.

Lemma write_spec b buf :
  wf b -> let n := Nat.min (length buf) (available_space b) in
  exists b', write b buf = Val (b', n) /\ wf b' /\ pending b' = pending b ++ take n buf /\ capacity b' = capacity b.
Proof.
  intros Hb n. pose proof Hb as [Hw Hm]. unfold write. fold n.
  assert (Hn : (n <= available_space b)%nat) by (subst n; lia).
  assert (Hl : length (take n buf) = n) by (slices; subst n; lia). unfold available_space, capacity in Hn.
  rewrite copy_from_slice_Val by lia. cbn [mbind outcome_bind]. set (b1 := mkBuffer _ _ _).
  assert (Hc1 : capacity b1 = capacity b) by (unfold capacity; cbn; rewrite length_put_at by lia; done).
  assert (H1 : wf b1) by (split; cbn; rewrite length_put_at by lia; lia).
  destruct (fill_spec b1 n H1) as (b' & -> & Hw' & Hp & Hc); [unfold available_space; rewrite Hc1; cbn; unfold capacity; lia |].
  exists b'. split; [done |]. split; [done |]. split; [| congruence]. rewrite Hp. subst b1.
  unfold pending. cbn. f_equal; [slice_eq |]. slice_eq.
Qed.

Lemma read_spec b wanted :
  wf b -> exists b', read b wanted = Val (b', take wanted (pending b)) /\ wf b' /\
    pending b' = drop wanted (pending b) /\ capacity b' = capacity b.
Proof.
  intros Hb. pose proof Hb as [Hw Hm]. unfold read, available_data. rewrite slice_Val by lia.
  eexists. split; [cbn [mbind outcome_bind]; do 2 f_equal; unfold pending; slice_eq |].
  split; [split; cbn; lia |]. split; [unfold pending; cbn; slice_eq | done].
Qed.

Lemma delete_slice_spec b start len :
  wf b -> exists b' o, delete_slice b start len = Val (b', o) /\ wf b' /\
    (pending b', RLength o) = queue_step 0 (pending b) (OpDelete start len) /\ capacity b' = capacity b.
Proof.
  intros Hb. cbn [queue_step]. rewrite (length_pending b Hb). pose proof Hb as [Hw Hm]. unfold delete_slice.
  unfold available_data. destruct (checked_add_cases start len) as [[-> Hs] | [-> Hs]].
  - destruct (Nat.leb_spec (end_ b - position b) (start + len)); [by eexists _, _ |].
    rewrite copy_within_Val by lia. eexists _, _. split; [done |].
    split; [split; cbn; rewrite ?length_put_at by (slices; lia); lia |].
    split; [| unfold capacity; cbn; by rewrite length_put_at by (slices; lia)].
    f_equal; [| cbn; do 2 f_equal; lia]. unfold pending at 1. cbn. apply window_delete; lia.
  - rewrite (proj2 (Nat.leb_le _ _)); [by eexists _, _ |]. unfold USIZE_MAX in Hs. lia.
Qed.

Lemma replace_slice_spec b bytes start len :
  wf b -> exists b' o, replace_slice b bytes start len = Val (b', o) /\ wf b' /\
    (pending b', RLength o) = queue_step (available_space b) (pending b) (OpReplace bytes start len) /\
    capacity b' = capacity b.
Proof.
  intros Hb. cbn [queue_step]. rewrite (length_pending b Hb). pose proof Hb as [Hw Hm]. unfold replace_slice.
  unfold available_data, available_space, capacity.
  destruct (checked_add_cases start len) as [[-> Hs] | [-> Hs]].
  2: { rewrite (proj2 (Nat.ltb_lt _ _)); [by eexists _, _ |]. unfold USIZE_MAX in Hs. lia. }
  destruct (Nat.ltb_spec (end_ b - position b) (start + len)); [by eexists _, _ |].
  destruct (Nat.compare_spec (length bytes) len) as [He | Hlt | Hgt].
  - rewrite copy_from_slice_Val by lia. cbn [mbind outcome_bind]. rewrite (proj2 (Nat.ltb_ge _ _)) by lia.
    eexists _, _. split; [done |]. split; [split; cbn; rewrite ?length_put_at by lia; lia |].
    split; [| cbn; by rewrite length_put_at by lia].
    f_equal; [| cbn; do 2 f_equal; lia]. unfold pending. cbn [memory position end_]. by apply window_overwrite.
  - rewrite copy_from_slice_Val by lia. cbn [mbind outcome_bind].
    rewrite copy_within_Val by (rewrite length_put_at by lia; lia). cbn [mbind outcome_bind].
    rewrite (proj2 (Nat.ltb_ge _ _)) by lia. eexists _, _. split; [done |].
    rewrite drop_put by lia. set (tail := take _ (drop _ (memory b))).
    assert (Ht : length tail = (end_ b - (position b + start + len))%nat) by (subst tail; slices; lia).
    split; [split; cbn; rewrite ?length_put_at; rewrite ?length_put_at; lia |].
    split; [| cbn; rewrite !length_put_at; rewrite ?length_put_at; lia].
    f_equal; [| cbn; do 2 f_equal; lia]. unfold pending. cbn [memory position end_].
    by apply window_shrink.
  - destruct (checked_add_cases (end_ b) (length bytes - len)) as [[-> Ha] | [-> Ha]].
    2: { unfold USIZE_MAX in Ha.
         rewrite (proj2 (Nat.ltb_lt (length (memory b) - end_ b) _)) by lia. by eexists _, _. }
    destruct (Nat.ltb_spec (length (memory b)) (end_ b + (length bytes - len))).
    { rewrite (proj2 (Nat.ltb_lt _ _)) by lia. by eexists _, _. }
    rewrite copy_within_Val by lia. cbn [mbind outcome_bind].
    rewrite copy_from_slice_Val by (rewrite ?length_put_at by (slices; lia); lia). cbn [mbind outcome_bind].
    rewrite (proj2 (Nat.ltb_ge _ _)) by lia. eexists _, _. split; [done |].
    set (tail := take _ (drop _ (memory b))).
    assert (Ht : length tail = (end_ b - (position b + start + len))%nat) by (subst tail; slices; lia).
    split; [split; cbn; rewrite ?length_put_at; rewrite ?length_put_at; lia |].
    split; [| cbn; rewrite !length_put_at; rewrite ?length_put_at; lia].
    f_equal; [| cbn; do 2 f_equal; lia]. unfold pending. cbn [memory position end_].
    by apply window_widen.
Qed.

Lemma queue_insert space d bytes start :
  queue_step space d (OpReplace bytes start 0) = queue_step space d (OpInsert bytes start).
Proof. cbn [queue_step]. by rewrite Nat.add_0_r, !Nat.sub_0_r. Qed.

End FixedSpec.

Lemma fixed_step_spec b op :
  FixedSpec.wf b ->
  exists b' r, fixed_step b op = Val (b', r) /\ FixedSpec.wf b' /\
    (pending b', r) = queue_step (Fixed.available_space b) (pending b) op /\
    Fixed.capacity b' = Fixed.capacity b.
Proof.
  intros Hb. destruct op as [bytes | wanted | count | | | start len | bytes start len | bytes start];
    cbn [fixed_step].
  - destruct (FixedSpec.write_spec b bytes Hb) as (b' & -> & ? & Hp & ?). cbn. rewrite <- Hp. by eauto 8.
  - destruct (FixedSpec.read_spec b wanted Hb) as (b' & -> & ? & Hp & ?). cbn. rewrite <- Hp. by eauto 8.
  - destruct (FixedSpec.consume_spec b count Hb) as (b' & -> & ? & Hp & ?). cbn. rewrite <- Hp. by eauto 8.
  - destruct (FixedSpec.shift_spec b Hb) as (b' & -> & ? & Hp & ? & _). cbn. rewrite <- Hp. by eauto 8.
  - pose proof Hb as [? ?]. eexists _, _. split; [done |]. split; [split; cbn; lia | by split].
  - destruct (FixedSpec.delete_slice_spec b start len Hb) as (b' & o & -> & ? & Hp & ?). cbn in *. by eauto 8.
  - destruct (FixedSpec.replace_slice_spec b bytes start len Hb) as (b' & o & -> & ? & Hp & ?). cbn in *. by eauto 8.
  - destruct (FixedSpec.replace_slice_spec b bytes start 0 Hb) as (b' & o & Hr & ? & Hp & ?).
    unfold Fixed.insert_slice. rewrite Hr. rewrite FixedSpec.queue_insert in Hp. by eauto 8.
Qed.

(** The fixed buffer is a byte queue: from every well-formed buffer every
    operation, whatever its arguments, returns without a panic, reports what
    the operation on the pending bytes reports, leaves exactly the bytes that
    operation leaves, and keeps the buffer well formed and its capacity; a
    refused edit changes nothing. *)
Theorem fixed_buffer_refines b op :
  FixedSpec.wf b ->
  exists b' r, fixed_step b op = Val (b', r) /\ FixedSpec.wf b' /\
    (pending b', r) = queue_step (Fixed.available_space b) (pending b) op /\
    Fixed.capacity b' = Fixed.capacity b.
Proof. apply fixed_step_spec. Qed.

(** ** The growable buffer as a window of zeroed memory *)

Module GrowableSpec.
Import Growable.

(** The buffer of capacity [cap] whose pending bytes [d] start at [pos]: every
    other byte is zero. *)
Definition window (cap pos : nat) (d : list Z) : Buffer :=
  mkBuffer (replicate pos 0 ++ d ++ replicate (cap - pos - length d) 0) cap pos (pos + length d).

Definition fits (cap pos : nat) (d : list Z) : Prop :=
  (pos + length d <= cap)%nat /\ Z.of_nat cap < 2 ^ 63.

Lemma length_window cap pos d : (pos + length d <= cap)%nat -> length (memory (window cap pos d)) = cap.
Proof. intros. cbn. slices. lia. Qed.

Lemma window_pending cap pos d : pending (window cap pos d) = d.
Proof.
  unfold pending. cbn [memory position end_ window]. rewrite drop_app_length' by (slices; lia).
  apply take_app_length'. lia.
Qed.

(** Zeroes over the first [k] pending bytes. *)
Lemma put_zeros (d rest : list Z) pos k :
  (k <= length d)%nat ->
  put_at (replicate pos 0 ++ d ++ rest) pos (replicate k 0) = replicate (pos + k) 0 ++ drop k d ++ rest.
Proof.
  intros Hk. unfold put_at. rewrite take_app_length', drop_app_ge by (slices; lia). slices.
  rewrite replicate_add, <- app_assoc. do 2 f_equal. rewrite drop_app_le by lia. do 2 f_equal. lia.
Qed.

Lemma erase_front {E} cap pos d k :
  (k <= length d)%nat -> (pos + length d <= cap)%nat ->
  erase (window cap pos d) pos (pos + k) =
  @Val E _ (mkBuffer (memory (window cap (pos + k) (drop k d))) cap pos (pos + length d)).
Proof.
  intros Hk Hf. unfold erase. rewrite (length_window cap pos d) by done.
  run_assert by (apply Nat.leb_le; lia). run_assert by (apply Nat.leb_le; lia).
  rewrite copy_from_slice_Val by (rewrite ?(length_window cap pos d) by done; slices; lia).
  cbn [mbind outcome_bind]. unfold set_memory. cbn [window memory capacity position end_].
  replace (pos + k - pos)%nat with k by lia. rewrite put_zeros by done.
  do 2 f_equal. slices. do 2 f_equal. f_equal. lia.
Qed.

Lemma put_at_app (l1 l2 src : list Z) n :
  n = length l1 -> put_at (l1 ++ l2) n src = l1 ++ src ++ drop (length src) l2.
Proof.
  intros ->. unfold put_at. rewrite take_app_length, drop_app_ge by lia. do 3 f_equal. lia.
Qed.

Lemma shift_window {E} cap pos d : (pos + length d <= cap)%nat -> shift (window cap pos d) = @Val E _ (window cap 0 d).
Proof.
  intros Hf. unfold shift. cbn [position window]. destruct (Nat.ltb_spec 0 pos) as [Hp | Hp].
  2: { by replace pos with 0%nat by lia. }
  pose proof (length_window cap pos d Hf) as Hl. cbn [memory window end_ capacity] in *.
  set (M := replicate pos 0 ++ d ++ replicate (cap - pos - length d) 0) in *.
  rewrite copy_within_Val by lia. cbn [mbind outcome_bind].
  replace (take (pos + length d - pos) (drop pos M)) with d.
  2: { subst M. rewrite drop_app_length' by (slices; lia). rewrite take_app_length'; [done | lia]. }
  change (put_at M 0 d) with (d ++ drop (length d) M). unfold erase. cbn [memory].
  replace (length (d ++ drop (length d) M)) with cap by (slices; lia).
  run_assert by (apply Nat.leb_le; lia). run_assert by (apply Nat.leb_le; lia).
  rewrite copy_from_slice_Val by (slices; lia). cbn [mbind outcome_bind].
  unfold set_memory, window. cbn [capacity position end_ replicate app]. do 2 f_equal; [| lia].
  rewrite put_at_app, drop_drop by lia. f_equal. subst M. slices.
  rewrite app_assoc, drop_app_length' by (slices; lia). rewrite <- replicate_add. f_equal. lia.
Qed.

Lemma window_shift_if {E} (c : bool) cap pos d :
  (pos + length d <= cap)%nat ->
  exists pos', (if c then shift (window cap pos d) else Val (window cap pos d)) = @Val E _ (window cap pos' d) /\
    (pos' <= pos)%nat.
Proof. intros. destruct c; [exists 0%nat; split; [by apply shift_window | lia] | by exists pos]. Qed.

Lemma drop_window cap pos d k :
  (k <= length d)%nat -> mkBuffer (memory (window cap (pos + k) (drop k d))) cap (pos + k) (pos + length d) =
  window cap (pos + k) (drop k d).
Proof. intros. unfold window. f_equal. slices. lia. Qed.

Lemma consume_window {E} cap pos d count :
  (pos + length d <= cap)%nat ->
  exists pos', consume (window cap pos d) count =
    @Val E _ (window cap pos' (drop count d), Nat.min count (length d)) /\ (pos' + length (drop count d) <= cap)%nat.
Proof.
  intros Hf. unfold consume, available_data. cbn [position end_ window].
  replace (pos + length d - pos)%nat with (length d) by lia. set (k := Nat.min count (length d)).
  assert (Hd : drop count d = drop k d).
  { subst k. destruct (decide (count <= length d)%nat); [by rewrite Nat.min_l |].
    rewrite Nat.min_r by lia. by rewrite !drop_ge by lia. }
  rewrite (erase_front cap pos d k) by (subst k; lia). cbn [mbind outcome_bind memory capacity position end_].
  rewrite drop_window by (subst k; lia). rewrite Hd.
  match goal with |- context [if ?c then shift _ else _] =>
    destruct (window_shift_if (E := E) c cap (pos + k) (drop k d)) as (pos' & -> & Hp); [slices; subst k; lia |] end.
  exists pos'. split; [done |]. slices. subst k. lia.
Qed.

Lemma write_window {E} cap pos d buf :
  (pos + length d <= cap)%nat ->
  let n := Nat.min (length buf) (cap - (pos + length d)) in
  exists pos', write (window cap pos d) buf = @Val E _ (window cap pos' (d ++ take n buf), n) /\
    (pos' + length (d ++ take n buf) <= cap)%nat.
Proof.
  intros Hf n. unfold write, available_space. cbn [position end_ window capacity]. fold n.
  pose proof (length_window cap pos d Hf) as Hl. cbn [memory window] in *.
  assert (Hn : length (take n buf) = n) by (slices; subst n; lia).
  assert (Hn' : (n <= cap - (pos + length d))%nat) by (subst n; lia).
  rewrite copy_from_slice_Val by lia. cbn [mbind outcome_bind]. unfold set_memory, fill, available_space.
  cbn [capacity position end_ memory]. rewrite Nat.min_l by done.
  replace (mkBuffer (put_at _ _ _) cap pos (pos + length d + n)) with (window cap pos (d ++ take n buf)).
  2: { unfold window. rewrite length_app, Hn, Nat.add_assoc. f_equal.
       rewrite (app_assoc (replicate pos 0) d (replicate (cap - pos - length d) 0)), put_at_app by (slices; lia).
       rewrite <- !app_assoc, Hn, drop_replicate. do 4 f_equal. lia. }
  match goal with |- context [if ?c then shift _ else _] =>
    destruct (window_shift_if (E := E) c cap pos (d ++ take n buf)) as (pos' & -> & Hp); [slices; subst n; lia |] end.
  exists pos'. split; [done |]. slices. subst n. lia.
Qed.

Lemma read_window {E} cap pos d wanted :
  (pos + length d <= cap)%nat ->
  exists pos', read (window cap pos d) wanted = @Val E _ (window cap pos' (drop wanted d), take wanted d) /\
    (pos' + length (drop wanted d) <= cap)%nat.
Proof.
  intros Hf. unfold read, available_data. cbn [position end_ window].
  replace (pos + length d - pos)%nat with (length d) by lia. set (k := Nat.min (length d) wanted).
  pose proof (length_window cap pos d Hf) as Hl. cbn [memory window] in *.
  rewrite slice_Val by (subst k; lia). cbn [mbind outcome_bind].
  change (mkBuffer (replicate pos 0 ++ d ++ replicate (cap - pos - length d) 0) cap pos (pos + length d))
    with (window cap pos d).
  rewrite (erase_front cap pos d k) by (subst k; lia). cbn [mbind outcome_bind memory capacity position end_].
  rewrite drop_window by (subst k; lia). exists (pos + k)%nat.
  assert (Hd : drop wanted d = drop k d /\ take wanted d = take k d).
  { subst k. destruct (decide (wanted <= length d)%nat); [by rewrite Nat.min_r |].
    rewrite Nat.min_l by lia. rewrite !drop_ge, !take_ge by lia. done. }
  destruct Hd as [-> ->]. split; [| slices; subst k; lia]. do 2 f_equal.
  rewrite drop_app_length' by (slices; lia). replace (pos + k - pos)%nat with k by lia.
  apply take_app_le. subst k. lia.
Qed.

Lemma reset_window {E} cap pos d : (pos + length d <= cap)%nat -> reset (window cap pos d) = @Val E _ (window cap 0 []).
Proof.
  intros Hf. unfold reset. cbn [position end_ window].
  change (mkBuffer (replicate pos 0 ++ d ++ replicate (cap - pos - length d) 0) cap pos (pos + length d))
    with (window cap pos d).
  rewrite (erase_front cap pos d (length d)) by lia. cbn [mbind outcome_bind memory capacity window].
  unfold window. cbn. rewrite drop_ge by lia. cbn. rewrite <- replicate_add. do 3 f_equal. lia.
Qed.

Lemma reallocate_window {E} cap pos d size :
  (pos + length d <= size)%nat -> (pos + length d <= cap)%nat ->
  reallocate (window cap pos d) size =
  @Val E _ (mkBuffer (memory (window size pos d)) cap pos (pos + length d)).
Proof.
  intros Hs Hf. pose proof (length_window cap pos d Hf) as Hl. unfold reallocate. cbn [end_ position window memory] in *.
  run_assert by (apply Nat.leb_le; lia). run_assert by (apply Nat.leb_le; lia).
  rewrite slice_Val by lia. cbn [mbind outcome_bind]. rewrite drop_app_length' by (slices; lia).
  replace (pos + length d - pos)%nat with (length d) by lia. rewrite take_app_length.
  rewrite copy_from_slice_Val by (slices; lia). cbn [mbind outcome_bind]. unfold set_memory. cbn. do 2 f_equal.
  replace size with (pos + (length d + (size - pos - length d)))%nat at 1 by lia.
  rewrite replicate_add, put_at_app by (slices; lia). do 2 f_equal. rewrite drop_replicate. f_equal. lia.
Qed.

(** Erasing what a shorter window leaves behind. *)
Lemma erase_behind {E} cap pos d x n :
  length (replicate pos 0 ++ d ++ x) = cap -> (length d <= n)%nat -> (pos + n <= cap)%nat ->
  drop (n - length d) x = replicate (cap - pos - n) 0 ->
  erase (mkBuffer (replicate pos 0 ++ d ++ x) cap pos (pos + length d)) (pos + length d) (pos + n) =
  @Val E _ (window cap pos d).
Proof.
  intros Hl Hd Hn Hx. unfold erase. cbn [memory]. rewrite Hl.
  run_assert by (apply Nat.leb_le; lia). run_assert by (apply Nat.leb_le; lia).
  rewrite copy_from_slice_Val by (rewrite ?Hl; slices; lia). cbn [mbind outcome_bind].
  unfold set_memory, window. cbn [capacity position end_]. do 2 f_equal.
  rewrite app_assoc, put_at_app by (slices; lia). rewrite length_replicate, <- app_assoc. do 2 f_equal.
  replace (pos + n - (pos + length d))%nat with (n - length d)%nat by lia. rewrite Hx, <- replicate_add.
  f_equal. lia.
Qed.

Lemma usize_add_Val {E} a b : Z.of_nat (a + b) <= USIZE_MAX -> usize_add a b = @Val E _ (a + b)%nat.
Proof. intros H. unfold usize_add. by rewrite checked_add_Some. Qed.

(** A window cut at [start]. *)
Lemma window_split cap pos d start :
  memory (window cap pos d) =
  (replicate pos 0 ++ take start d) ++ (drop start d ++ replicate (cap - pos - length d) 0).
Proof. cbn. by rewrite <- app_assoc, (app_assoc (take start d)), take_drop. Qed.

Lemma slice_tail {E} cap pos d k :
  (k <= length d)%nat -> (pos + length d <= cap)%nat ->
  slice (memory (window cap pos d)) (pos + k) (pos + length d) = @Val E _ (drop k d).
Proof.
  intros Hk Hf. rewrite slice_Val by (rewrite (length_window cap pos d) by done; lia). f_equal. cbn.
  rewrite drop_app_ge by (slices; lia). slices. replace (pos + k - pos)%nat with k by lia.
  rewrite drop_app_le by lia. apply take_app_length'. slices. lia.
Qed.

Lemma delete_window {E} cap pos d start len :
  fits cap pos d -> Z.of_nat (start + len) <= USIZE_MAX ->
  exists d' o, delete_slice (window cap pos d) start len = @Val E _ (window cap pos d', o) /\
    (d', RLength o) = queue_step 0 d (OpDelete start len) /\ (pos + length d' <= cap)%nat.
Proof.
  intros [Hf Hc] Hs. unfold delete_slice. rewrite usize_add_Val by done. cbn [mbind outcome_bind queue_step].
  unfold available_data at 1. cbn [end_ position window].
  replace (pos + length d - pos)%nat with (length d) by lia.
  destruct (Nat.leb_spec (length d) (start + len)); [by eexists _, _ |].
  unfold copy_within. change (replicate pos 0 ++ d ++ replicate (cap - pos - length d) 0) with (memory (window cap pos d)).
  rewrite <- Nat.add_assoc, slice_tail by lia. cbn [mbind outcome_bind]. rewrite (length_window cap pos d) by done.
  rewrite (proj2 (Nat.leb_le _ _)) by (slices; lia). cbn [mbind outcome_bind capacity].
  set (d' := take start d ++ drop (start + len) d).
  assert (Hd' : length d' = (length d - len)%nat) by (subst d'; slices; lia).
  rewrite (window_split cap pos d start), put_at_app by (slices; lia).
  replace ((replicate pos 0 ++ take start d) ++ drop (start + len) d ++
    drop (length (drop (start + len) d)) (drop start d ++ replicate (cap - pos - length d) 0))
    with (replicate pos 0 ++ d' ++
      drop (length (drop (start + len) d)) (drop start d ++ replicate (cap - pos - length d) 0))
    by (subst d'; by rewrite <- !app_assoc).
  replace (pos + length d - len)%nat with (pos + length d')%nat by lia.
  rewrite (erase_behind cap pos d' _ (length d)); [| slices; lia | lia | lia |].
  - cbn [mbind outcome_bind]. eexists d', _. split; [done |]. split; [| lia].
    unfold available_data. cbn. do 3 f_equal. lia.
  - rewrite drop_drop. rewrite drop_app_ge by (slices; lia). slices. rewrite drop_replicate. f_equal. lia.
Qed.

Lemma grow_window {E} cap pos d size :
  (pos + length d <= cap)%nat ->
  grow (window cap pos d) size = @Val E _ (window (Nat.max cap size) pos d, (cap <? size)%nat).
Proof.
  intros Hf. unfold grow. cbn [capacity window]. destruct (Nat.leb_spec size cap).
  - rewrite Nat.max_l, (proj2 (Nat.ltb_ge _ _)) by lia. done.
  - change (mkBuffer (replicate pos 0 ++ d ++ replicate (cap - pos - length d) 0) cap pos (pos + length d))
      with (window cap pos d).
    rewrite reallocate_window by lia. cbn [mbind outcome_bind memory position end_]. by rewrite Nat.max_r, (proj2 (Nat.ltb_lt _ _)) by lia.
Qed.

Lemma shrink_window {E} cap pos d size :
  (pos + length d <= cap)%nat ->
  exists cap' pos' done_, shrink (window cap pos d) size = @Val E _ (window cap' pos' d, done_) /\
    (pos' + length d <= cap' <= cap)%nat /\ (done_ = true <-> (length d <= size < cap)%nat) /\
    (done_ = true -> cap' = size).
Proof.
  intros Hf. unfold shrink. cbn [capacity window]. destruct (Nat.leb_spec cap size).
  { eexists _, _, _. split; [done |]. split; [lia |]. split; [| done]. split; [done | lia]. }
  change (mkBuffer (replicate pos 0 ++ d ++ replicate (cap - pos - length d) 0) cap pos (pos + length d))
    with (window cap pos d).
  rewrite shift_window by done. cbn [mbind outcome_bind end_ window].
  destruct (Nat.ltb_spec size (0 + length d)).
  { eexists _, _, _. split; [done |]. split; [lia |]. split; [| done]. split; [done | lia]. }
  change (mkBuffer (replicate 0 0 ++ d ++ replicate (cap - 0 - length d) 0) cap 0 (0 + length d))
    with (window cap 0 d).
  rewrite reallocate_window by lia. eexists size, 0%nat, true. split; [done |]. split; [lia |]. split; [| done].
  split; [lia | done].
Qed.

(** *** Edits of a buffer whose pending bytes are at the front *)

Lemma take_put (m src : list Z) at_ k :
  (k <= at_ <= length m)%nat -> take k (put_at m at_ src) = take k m.
Proof. intros. by apply (take_drop_put m src at_ k 0). Qed.

Lemma drop_put_eq (m src : list Z) at_ :
  (at_ <= length m)%nat -> drop at_ (put_at m at_ src) = src ++ drop (at_ + length src) m.
Proof. intros. unfold put_at. apply drop_app_length'. slices. lia. Qed.

Lemma drop_window_front cap d k :
  (length d <= k)%nat -> drop k (memory (window cap 0 d)) = replicate (cap - k) 0.
Proof. intros. cbn. rewrite drop_app_ge, drop_replicate by lia. f_equal. lia. Qed.

Lemma take_window_front cap d k : (k <= length d)%nat -> take k (memory (window cap 0 d)) = take k d.
Proof. intros. cbn. by rewrite take_app_le. Qed.

Lemma slice_front {E} cap d k :
  (k <= length d <= cap)%nat -> slice (memory (window cap 0 d)) k (length d) = @Val E _ (drop k d).
Proof. intros [??]. exact (slice_tail cap 0 d k ltac:(lia) ltac:(lia)). Qed.

Lemma widen_window cap d bytes start len :
  (start + len <= length d)%nat -> (len <= length bytes)%nat -> (length d + length bytes <= cap + len)%nat ->
  put_at (put_at (memory (window cap 0 d)) (start + length bytes) (drop (start + len) d)) start bytes =
  memory (window cap 0 (take start d ++ bytes ++ drop (start + len) d)).
Proof.
  intros Hs Hl Hc. pose proof (length_window cap 0 d ltac:(lia)) as Hm.
  unfold put_at at 1. rewrite take_put by lia. rewrite take_window_front by lia.
  rewrite drop_put_eq by lia. rewrite drop_window_front by (slices; lia).
  cbn. rewrite <- !app_assoc. do 4 f_equal. slices. lia.
Qed.

Lemma shrink_memory cap d bytes start tail :
  (start + length bytes <= length d)%nat ->
  put_at (put_at (memory (window cap 0 d)) start bytes) (start + length bytes) tail =
  take start d ++ bytes ++ tail ++ drop (length tail) (drop (start + length bytes) (memory (window cap 0 d))).
Proof.
  intros Hl. unfold put_at at 2. rewrite take_window_front by lia.
  rewrite (app_assoc (take start d)), put_at_app by (slices; lia). by rewrite <- app_assoc.
Qed.

Lemma ptr_copy_Val m src c : (c + length src <= length m)%nat -> ptr_copy m src c = Val (put_at m c src).
Proof.
  intros. unfold ptr_copy. rewrite (proj2 (Nat.ltb_ge _ _)) by lia. by rewrite (proj2 (Nat.leb_le _ _)).
Qed.

Lemma insert_window cap d bytes start :
  fits cap 0 d -> Z.of_nat (length bytes) < 2 ^ 63 ->
  exists d' o, insert_slice (window cap 0 d) bytes start = Val (window cap 0 d', o) /\
    (d', RLength o) = queue_step (cap - length d) d (OpInsert bytes start) /\ (length d' <= cap)%nat.
Proof.
  intros [Hf Hc] Hb. cbn [Nat.add] in Hf. unfold insert_slice, available_data. cbn [end_ position window queue_step].
  rewrite Nat.add_0_l, Nat.sub_0_r. destruct (Nat.ltb_spec (length d) start); [by eexists _, _ |].
  rewrite usize_add_Val by (unfold USIZE_MAX; lia). cbn [mbind outcome_bind].
  change (capacity (window cap 0 d)) with cap. destruct (Nat.ltb_spec cap (0 + length d + length bytes)).
  { rewrite (proj2 (Nat.ltb_lt _ _)) by lia. by eexists _, _. }
  rewrite (proj2 (Nat.ltb_ge _ _)) by lia.
  change (replicate 0 0 ++ d ++ replicate (cap - 0 - length d) 0) with (memory (window cap 0 d)).
  rewrite slice_front by lia. cbn [mbind outcome_bind]. pose proof (length_window cap 0 d Hf) as Hm.
  rewrite ptr_copy_Val by (slices; lia). cbn [mbind outcome_bind].
  rewrite copy_from_slice_Val by (rewrite ?length_put_at; slices; lia). cbn [mbind outcome_bind].
  change (0 + start)%nat with start. replace (drop start d) with (drop (start + 0) d) by (f_equal; lia).
  rewrite (widen_window cap d bytes start 0) by lia.
  set (d' := take start d ++ bytes ++ drop (start + 0) d).
  assert (Hd' : length d' = (length d + length bytes)%nat) by (subst d'; slices; lia).
  exists d', (Some (length d + length bytes)%nat). split; [| split; [| lia]].
  - unfold window. rewrite Hd'. cbn. do 3 f_equal. lia.
  - subst d'. by rewrite Nat.add_0_r.
Qed.

Lemma replace_window cap d bytes start len :
  fits cap 0 d -> Z.of_nat (start + len) <= USIZE_MAX -> (length d + length bytes <= cap + len)%nat ->
  exists d' o, replace_slice (window cap 0 d) bytes start len = Val (window cap 0 d', o) /\
    (d', RLength o) = queue_step (cap - length d) d (OpReplace bytes start len) /\ (length d' <= cap)%nat.
Proof.
  intros [Hf Hc] Hs Hb. cbn [Nat.add] in Hf. unfold replace_slice, available_data. rewrite (usize_add_Val start len) by done.
  cbn [mbind outcome_bind end_ position window queue_step]. rewrite Nat.add_0_l, Nat.sub_0_r.
  destruct (Nat.ltb_spec (length d) (start + len)); [by eexists _, _ |].
  rewrite usize_add_Val by (unfold USIZE_MAX; lia). cbn [mbind outcome_bind Nat.add].
  rewrite usize_add_Val by (unfold USIZE_MAX; lia). cbn [mbind outcome_bind].
  change (capacity (window cap 0 d)) with cap. rewrite !(proj2 (Nat.ltb_ge _ _)) by lia.
  change (replicate 0 0 ++ d ++ replicate (cap - 0 - length d) 0) with (memory (window cap 0 d)).
  pose proof (length_window cap 0 d Hf) as Hm.
  set (d' := take start d ++ bytes ++ drop (start + len) d).
  assert (Hd' : length d' = (length d - len + length bytes)%nat) by (subst d'; slices; lia).
  assert (Hres : (d', RLength (Some (length d'))) = (d', RLength (Some (length d - len + length bytes)%nat)))
    by (by rewrite Hd').
  destruct (Nat.ltb_spec (length bytes) len) as [Hlt | Hge].
  - rewrite copy_from_slice_Val by lia. cbn [mbind outcome_bind].
    rewrite slice_Val by (rewrite ?length_put_at; lia). cbn [mbind outcome_bind].
    rewrite drop_put by lia.
    replace (take (length d - (start + len)) (drop (start + len) (memory (window cap 0 d)))) with (drop (start + len) d).
    2: { pose proof (slice_front (E := fault) cap d (start + len) ltac:(lia)) as Ht.
         rewrite slice_Val in Ht by lia. by injection Ht. }
    rewrite ptr_copy_Val by (rewrite length_put_at by lia; slices; lia). cbn [mbind outcome_bind end_].
    rewrite (proj2 (Nat.ltb_lt _ _)) by lia.
    replace (length d - (len - length bytes))%nat with (0 + length d')%nat by lia.
    set (x := drop (length (drop (start + len) d)) (drop (start + length bytes) (memory (window cap 0 d)))).
    replace (put_at (put_at _ _ _) _ _) with (replicate 0 0 ++ d' ++ x).
    2: { rewrite (shrink_memory cap d bytes start) by lia. subst d' x. cbn [replicate app]. by rewrite <- !app_assoc. }
    change (length d) with (0 + length d)%nat at 2. rewrite (erase_behind cap 0 d' x (length d)); [| | lia | lia |].
    + cbn [mbind outcome_bind]. eexists d', _. split; [done |]. split; [| lia].
      rewrite (proj2 (Nat.ltb_ge _ _)) by lia. rewrite <- Hres. unfold available_data. cbn [end_ position window]. do 3 f_equal. lia.
    + subst x. rewrite !length_app, !length_drop, Hm. slices. lia.
    + subst x. rewrite !drop_drop, drop_window_front by (slices; lia). f_equal. slices. lia.
  - rewrite slice_front by lia. cbn [mbind outcome_bind]. rewrite ptr_copy_Val by (slices; lia). cbn [mbind outcome_bind].
    rewrite copy_from_slice_Val by (rewrite ?length_put_at; slices; lia). cbn [mbind outcome_bind end_].
    rewrite widen_window by lia. fold d'. cbn [mbind outcome_bind end_]. rewrite (proj2 (Nat.ltb_ge _ _)) by lia.
    eexists d', _. split; [| split; [| lia]].
    + unfold window. cbn. do 3 f_equal. lia.
    + rewrite (proj2 (Nat.ltb_ge _ _)) by lia. rewrite <- Hres. cbn. do 3 f_equal. lia.
Qed.
End GrowableSpec.

Definition growable_step (b : Growable.Buffer) (op : buffer_op) :
    outcome fault (Growable.Buffer * buffer_result) :=
  match op with
  | OpWrite bytes => '(b, n) ← Growable.write b bytes; Val (b, RCount n)
  | OpRead wanted => '(b, l) ← Growable.read b wanted; Val (b, RBytes l)
  | OpConsume count => '(b, n) ← Growable.consume b count; Val (b, RCount n)
  | OpShift => b ← Growable.shift b; Val (b, RUnit)
  | OpReset => b ← Growable.reset b; Val (b, RUnit)
  | OpDelete start len => '(b, o) ← Growable.delete_slice b start len; Val (b, RLength o)
  | OpReplace bytes start len => '(b, o) ← Growable.replace_slice b bytes start len; Val (b, RLength o)
  | OpInsert bytes start => '(b, o) ← Growable.insert_slice b bytes start; Val (b, RLength o)
  end.

(** The pending bytes are within the capacity, the allocation is that of the
    capacity, and every byte outside the pending window is zero. *)
Definition growable_wf (b : Growable.Buffer) : Prop :=
  exists cap pos d, b = GrowableSpec.window cap pos d /\ GrowableSpec.fits cap pos d.

(** The calls on which the growable buffer is a byte queue: an edit indexes
    some ranges without the position, so that its window must start the
    memory, and [replace_slice] does not check that the tail still fits. *)
Definition growable_op_ok (b : Growable.Buffer) (op : buffer_op) : Prop :=
  match op with
  | OpDelete start len => Z.of_nat (start + len) <= USIZE_MAX
  | OpReplace bytes start len =>
      Z.of_nat (start + len) <= USIZE_MAX /\ Growable.position b = 0%nat /\
      (Growable.end_ b + length bytes <= Growable.capacity b + len)%nat
  | OpInsert bytes start => Growable.position b = 0%nat /\ Z.of_nat (length bytes) < 2 ^ 63
  | _ => True
  end.

(** C28. The growable buffer is a byte queue that keeps no secret, on the calls
    [growable_op_ok] allows: every write, read, consume, shift and reset, a
    deletion whose range does not overflow, and a replacement or an insertion
    only on a window that starts the memory, a replacement with room for the
    tail it moves.  On a well-formed buffer such an operation returns without a
    panic or a write outside the allocation, reports and leaves exactly what
    the operation on the pending bytes does, keeps the capacity, and leaves
    zero in every byte of the memory that is not pending.  C40 is what the
    other edits do. *)
Theorem growable_buffer_refines b op :
  growable_wf b -> growable_op_ok b op ->
  exists b' r, growable_step b op = Val (b', r) /\ growable_wf b' /\
    (Growable.pending b', r) = queue_step (Growable.available_space b) (Growable.pending b) op /\
    Growable.capacity b' = Growable.capacity b.
Proof.
  intros (cap & pos & d & -> & Hf) Hop. pose proof Hf as [Hd Hc]. rewrite GrowableSpec.window_pending.
  change (Growable.available_space (GrowableSpec.window cap pos d)) with (cap - (pos + length d))%nat.
  assert (Hgoal : forall (m : outcome fault _) pos' d' r,
    m = Val (GrowableSpec.window cap pos' d', r) -> (pos' + length d' <= cap)%nat ->
    (d', r) = queue_step (cap - (pos + length d)) d op ->
    exists b' r0, m = Val (b', r0) /\ growable_wf b' /\
      (Growable.pending b', r0) = queue_step (cap - (pos + length d)) d op /\ Growable.capacity b' = cap).
  { intros m pos' d' r -> Hl Hr. eexists _, _. split; [done |]. rewrite GrowableSpec.window_pending.
    split; [exists cap, pos', d'; by split; [| split] | done]. }
  destruct op as [bytes | wanted | count | | | start len | bytes start len | bytes start];
    cbn [growable_step growable_op_ok] in *.
  - destruct (GrowableSpec.write_window (E := fault) cap pos d bytes Hd) as (pos' & -> & Hl).
    by eapply Hgoal.
  - destruct (GrowableSpec.read_window (E := fault) cap pos d wanted Hd) as (pos' & -> & Hl).
    by eapply Hgoal.
  - destruct (GrowableSpec.consume_window (E := fault) cap pos d count Hd) as (pos' & -> & Hl).
    by eapply Hgoal.
  - rewrite GrowableSpec.shift_window by done. eapply Hgoal; [done | cbn; lia | done].
  - rewrite GrowableSpec.reset_window by done. eapply Hgoal; [done | cbn; lia | done].
  - destruct (GrowableSpec.delete_window (E := fault) cap pos d start len Hf Hop) as (d' & o & -> & Hr & Hl).
    by eapply Hgoal.
  - destruct Hop as (Hs & Hp & Hroom). cbn in Hp, Hroom. subst pos.
    destruct (GrowableSpec.replace_window cap d bytes start len Hf Hs Hroom) as (d' & o & -> & Hr & Hl).
    by eapply Hgoal.
  - destruct Hop as [Hp Hb]. cbn in Hp. subst pos.
    destruct (GrowableSpec.insert_window cap d bytes start Hf Hb) as (d' & o & -> & Hr & Hl).
    by eapply Hgoal.
Qed.

(** Growing and shrinking keep the pending bytes and erase the rest:
    [grow] never makes the buffer smaller, [shrink] gives the capacity asked
    for exactly when it is smaller than the capacity and the pending bytes fit
    in it, and both leave zero in every byte that is not pending. *)
Theorem growable_resize b size :
  growable_wf b -> Z.of_nat size < 2 ^ 63 ->
  (exists b', Growable.grow b size = @Val fault _ (b', (Growable.capacity b <? size)%nat) /\ growable_wf b' /\
     Growable.pending b' = Growable.pending b /\ Growable.capacity b' = Nat.max (Growable.capacity b) size) /\
  (exists b' shrunk, Growable.shrink b size = @Val fault _ (b', shrunk) /\ growable_wf b' /\
     Growable.pending b' = Growable.pending b /\
     (shrunk = true <-> (Growable.available_data b <= size < Growable.capacity b)%nat) /\
     (shrunk = true -> Growable.capacity b' = size)).
Proof.
  intros (cap & pos & d & -> & Hd & Hc) Hs. rewrite GrowableSpec.window_pending. split.
  - rewrite GrowableSpec.grow_window by done. eexists. split; [done |]. rewrite GrowableSpec.window_pending.
    split; [| done]. eexists _, _, _. split; [done |]. split; lia.
  - destruct (GrowableSpec.shrink_window (E := fault) cap pos d size Hd) as (cap' & pos' & s & -> & Hl & Hiff & Heq).
    eexists _, _. split; [done |]. rewrite GrowableSpec.window_pending. unfold Growable.available_data. cbn.
    replace (pos + length d - pos)%nat with (length d) by lia. split; [| by split].
    exists cap', pos', d. split; [done |]. split; lia.
Qed.

(** ** Examples *)

Definition example_fixed : Buffer := mkBuffer (bstr "xxabcdef..") 2 8.

Lemma fixed_buffer_refines_witness :
  exists b' r, fixed_step example_fixed (OpReplace (bstr "12345") 1 3) = Val (b', r) /\
    (pending b', r) = (bstr "a12345ef", RLength (Some 8%nat)).
Proof.
  destruct (fixed_buffer_refines example_fixed (OpReplace (bstr "12345") 1 3)) as (b' & r & E & _ & Hq & _);
    [split; cbn; lia |].
  exists b', r. split; [exact E |]. rewrite Hq. vm_compute. reflexivity.
Defined.

Lemma growable_buffer_refines_witness :
  exists b' r, growable_step (GrowableSpec.window 10 2 (bstr "secret")) (OpConsume 4) = Val (b', r) /\
    growable_wf b' /\ Growable.pending b' = bstr "et".
Proof.
  destruct (growable_buffer_refines (GrowableSpec.window 10 2 (bstr "secret")) (OpConsume 4))
    as (b' & r & E & Hw & Hq & _); [| exact I |].
  - exists 10%nat, 2%nat, (bstr "secret"). split; [reflexivity |]. split; cbn; lia.
  - exists b', r. split; [exact E |]. split; [exact Hw |].
    rewrite GrowableSpec.window_pending in Hq. vm_compute in Hq. vm_compute. by injection Hq.
Defined.

Lemma growable_resize_witness :
  exists b', Growable.grow (GrowableSpec.window 4 1 (bstr "ab")) 8 = @Val fault _ (b', true) /\
    Growable.pending b' = bstr "ab".
Proof.
  destruct (growable_resize (GrowableSpec.window 4 1 (bstr "ab")) 8) as [(b' & E & _ & Hp & _) _]; [| lia |].
  - exists 4%nat, 1%nat, (bstr "ab"). split; [reflexivity |]. split; cbn; lia.
  - exists b'. split; [exact E |]. rewrite Hp. reflexivity.
Defined.

(** C40. [replace_slice] of the growable buffer can write past its
    allocation, and [insert_slice] loses pending bytes when the pending window
    does not start the memory: on a full buffer of eight bytes, replacing its
    first byte with four passes both checks and moves the seven bytes of the
    tail over four bytes of room; with two bytes read before [cdefgh],
    inserting a byte after [cde] leaves [cdd] before it. *)
Example growable_edit_faults :
  Growable.replace_slice (GrowableSpec.window 8 0 (bstr "abcdefgh")) (bstr "1234") 0 1 = Fails OutOfBounds /\
  exists b, Growable.insert_slice (GrowableSpec.window 20 2 (bstr "cdefgh")) (bstr "1") 3 = Val (b, Some 7%nat) /\
    Growable.pending b = bstr "cdd1fgh".
Proof. split; [reflexivity |]. eexists. split; reflexivity. Qed.
