(* ===== verification/PoolCheckout.v ===== *)
(** * The pooled buffers of a session

    [Checkout] of [lib/src/pool.rs]: the same window [position..end] over the
    bytes of a pool entry as the fixed buffer of the command channel, with its
    invariant asserted before and after each operation.  The pool that hands
    the entries out is the crate [poule]; a fresh entry is the argument of
    [checkout_of].  [ptr::copy] into a range that was sliced checks it; into
    the rest of the memory it [Fails] when it would write past the end. *)

From S2P Require Import Prelude Buffers.

(** A fresh entry of the pool: [BufferMetadata::new] over its bytes. *)
Definition checkout_of (memory : list Z) : Buffer := mkBuffer memory 0 0.

Definition checkout_capacity (b : Buffer) : nat := length (memory b).
Definition checkout_space (b : Buffer) : nat := checkout_capacity b - end_ b.

Section Operations.
Context {E : Type}.

Definition checkout_check (b : Buffer) : outcome E unit :=
  _ ← debug_assert (position b <=? end_ b)%nat;
  _ ← debug_assert (end_ b <=? checkout_capacity b)%nat;
  debug_assert (position b + available_data b + checkout_space b =? checkout_capacity b)%nat.

Definition checkout_shift (b : Buffer) : outcome E Buffer :=
  _ ← checkout_check b;
  let data_before := available_data b in
  b ← (if (0 <? position b)%nat then
         let length := (end_ b - position b)%nat in
         src ← slice (memory b) (position b) (end_ b);
         m ← copy_from_slice (memory b) 0 length src;
         Val (mkBuffer m 0 length)
       else Val b);
  _ ← debug_assert (available_data b =? data_before)%nat;
  _ ← checkout_check b;
  Val b.

Definition checkout_consume (b : Buffer) (count : nat) : outcome E (Buffer * nat) :=
  _ ← checkout_check b;
  let available_before := available_data b in
  let cnt := Nat.min count available_before in
  _ ← debug_assert (cnt <=? available_before)%nat;
  let b := mkBuffer (memory b) (position b + cnt) (end_ b) in
  b ← (if (checkout_capacity b / 2 <? position b)%nat then checkout_shift b else Val b);
  _ ← debug_assert (available_data b =? available_before - cnt)%nat;
  _ ← checkout_check b;
  Val (b, cnt).

Definition checkout_fill (b : Buffer) (count : nat) : outcome E (Buffer * nat) :=
  _ ← checkout_check b;
  let data_before := available_data b in
  let space_before := checkout_space b in
  let cnt := Nat.min count space_before in
  _ ← debug_assert (cnt <=? space_before)%nat;
  let b := mkBuffer (memory b) (position b) (end_ b + cnt) in
  b ← (if (checkout_space b <? available_data b + cnt)%nat then checkout_shift b else Val b);
  _ ← debug_assert (available_data b =? data_before + cnt)%nat;
  _ ← checkout_check b;
  Val (b, cnt).

Definition checkout_reset (b : Buffer) : outcome E Buffer :=
  let b := mkBuffer (memory b) 0 0 in
  _ ← debug_assert (available_data b =? 0)%nat;
  _ ← debug_assert (checkout_space b =? checkout_capacity b)%nat;
  _ ← checkout_check b;
  Val b.

Definition checkout_sync (b : Buffer) (end' position' : nat) : outcome E Buffer :=
  _ ← debug_assert (position' <=? end')%nat;
  _ ← debug_assert (end' <=? checkout_capacity b)%nat;
  let b := mkBuffer (memory b) position' end' in
  _ ← debug_assert (available_data b =? end' - position')%nat;
  _ ← checkout_check b;
  Val b.

Definition checkout_delete_slice (b : Buffer) (start length : nat) : outcome E (Buffer * option nat) :=
  _ ← checkout_check b;
  let data_before := available_data b in
  start_length ← usize_add start length;
  if (available_data b <=? start_length)%nat then
    _ ← debug_assert (available_data b =? data_before)%nat;
    Val (b, None)
  else
    let begin := (position b + start)%nat in
    let next_end := (end_ b - length)%nat in
    src ← slice (memory b) (begin + length) (end_ b);
    m ← copy_from_slice (memory b) begin next_end src;
    let b := mkBuffer m (position b) next_end in
    _ ← debug_assert (available_data b =? data_before - length)%nat;
    _ ← checkout_check b;
    Val (b, Some (available_data b)).

(** [Write::write] into [space], [memory[end..capacity]]. *)
Definition checkout_write (b : Buffer) (buf : list Z) : outcome E (Buffer * nat) :=
  let size := Nat.min (length buf) (checkout_space b) in
  m ← copy_from_slice (memory b) (end_ b) (end_ b + size) (take size buf);
  '(b, _) ← checkout_fill (mkBuffer m (position b) (end_ b)) size;
  Val (b, size).

(** [Read::read] into a slice of [wanted] bytes. *)
Definition checkout_read (b : Buffer) (wanted : nat) : outcome E (Buffer * list Z) :=
  let len := Nat.min (available_data b) wanted in
  out ← slice (memory b) (position b) (position b + len);
  Val (mkBuffer (memory b) (position b + len) (end_ b), out).

End Operations.

(** The ranges the source takes from [start], without the position, are kept
    as they are. *)
Definition checkout_replace_slice (b : Buffer) (data : list Z) (start len : nat) :
    outcome fault (Buffer * option nat) :=
  _ ← checkout_check b;
  let data_before := available_data b in
  let data_len := length data in
  start_length ← usize_add start len;
  too_large ←
    (if (available_data b <? start_length)%nat then Val true
     else
       position_start ← usize_add (position b) start;
       new_end ← usize_add position_start data_len;
       Val (checkout_capacity b <? new_end)%nat);
  if too_large : bool then
    _ ← debug_assert (available_data b =? data_before)%nat;
    Val (b, None)
  else
    _ ← debug_assert (start + len <=? data_before)%nat;
    let begin := (position b + start)%nat in
    let slice_end := (begin + data_len)%nat in
    b ← (if (data_len <? len)%nat then
           m ← copy_from_slice (memory b) begin slice_end data;
           tail ← slice m (start + len) (end_ b);
           m ← ptr_copy m tail slice_end;
           Val (mkBuffer m (position b) (end_ b - (len - data_len)))
         else
           tail ← slice (memory b) (start + len) (end_ b);
           m ← ptr_copy (memory b) tail (start + data_len);
           m ← copy_from_slice m begin slice_end data;
           Val (mkBuffer m (position b) (end_ b + (data_len - len))));
    _ ← debug_assert (Z.of_nat (available_data b) =?
                      Z.of_nat data_before + Z.of_nat data_len - Z.of_nat len);
    _ ← checkout_check b;
    Val (b, Some (available_data b)).

Definition checkout_insert_slice (b : Buffer) (data : list Z) (start : nat) :
    outcome fault (Buffer * option nat) :=
  _ ← checkout_check b;
  let data_before := available_data b in
  let data_len := length data in
  too_large ←
    (if (available_data b <? start)%nat then Val true
     else
       new_end ← usize_add (position b + end_ b) data_len;
       Val (checkout_capacity b <? new_end)%nat);
  if too_large : bool then
    _ ← debug_assert (available_data b =? data_before)%nat;
    Val (b, None)
  else
    _ ← debug_assert (start <=? data_before)%nat;
    let begin := (position b + start)%nat in
    let slice_end := (begin + data_len)%nat in
    tail ← slice (memory b) start (end_ b);
    m ← ptr_copy (memory b) tail (start + data_len);
    m ← copy_from_slice m begin slice_end data;
    let b := mkBuffer m (position b) (end_ b + data_len) in
    _ ← debug_assert (available_data b =? data_before + data_len)%nat;
    _ ← checkout_check b;
    Val (b, Some (available_data b)).

(** ** The checkout is a fixed buffer *)

Definition checkout_step (b : Buffer) (op : buffer_op) : outcome fault (Buffer * buffer_result) :=
  match op with
  | OpWrite bytes => '(b, n) ← checkout_write b bytes; Val (b, RCount n)
  | OpRead wanted => '(b, l) ← checkout_read b wanted; Val (b, RBytes l)
  | OpConsume count => '(b, n) ← checkout_consume b count; Val (b, RCount n)
  | OpShift => b ← checkout_shift b; Val (b, RUnit)
  | OpReset => b ← checkout_reset b; Val (b, RUnit)
  | OpDelete start len => '(b, o) ← checkout_delete_slice b start len; Val (b, RLength o)
  | OpReplace bytes start len => '(b, o) ← checkout_replace_slice b bytes start len; Val (b, RLength o)
  | OpInsert bytes start => '(b, o) ← checkout_insert_slice b bytes start; Val (b, RLength o)
  end.

(** The calls on which it is one: an edit indexes some ranges without the
    position, and [replace_slice] does not check that the tail still fits. *)
Definition checkout_op_ok (b : Buffer) (op : buffer_op) : Prop :=
  match op with
  | OpDelete start len => Z.of_nat (start + len) <= USIZE_MAX
  | OpReplace bytes start len =>
      Z.of_nat (start + len) <= USIZE_MAX /\ position b = 0%nat /\
      (end_ b + length bytes <= checkout_capacity b + len)%nat
  | OpInsert bytes start => position b = 0%nat /\ Z.of_nat (length bytes) < 2 ^ 63
  | _ => True
  end.

(** An operation that agrees with the one of the fixed buffer. *)
Definition agrees {E A} (m : outcome E A) (f : checked A) : Prop :=
  match f with Val a => m = Val a | _ => True end.

Lemma check_Val {E} b : FixedSpec.wf b -> checkout_check b = @Val E unit tt.
Proof.
  intros [[H1 H2] _]. unfold checkout_check, available_data, checkout_space, checkout_capacity.
  run_assert by (apply Nat.leb_le; lia). run_assert by (apply Nat.leb_le; lia).
  apply debug_assert_true, Nat.eqb_eq. lia.
Qed.

Lemma shift_agrees {E} b : FixedSpec.wf b -> agrees (@checkout_shift E b) (Fixed.shift b).
Proof.
  intros Hb. destruct (FixedSpec.shift_spec b Hb) as (b' & Hs & Hb' & Hp & Hc & _). rewrite Hs. cbn.
  unfold checkout_shift. rewrite (check_Val b Hb). cbn [mbind outcome_bind].
  assert (Hd : available_data b' = available_data b) by (rewrite <- !FixedSpec.length_pending by done; by rewrite Hp).
  pose proof Hb as [Hw _]. unfold Fixed.shift in Hs. destruct (0 <? position b)%nat.
  - unfold copy_within in Hs. rewrite slice_Val in Hs by lia. rewrite slice_Val by lia. cbn [mbind outcome_bind] in *.
    rewrite copy_from_slice_Val by (slices; lia).
    destruct (0 + _ <=? _)%nat; [| done]. cbn [mbind outcome_bind] in *. injection Hs as <-.
    rewrite (debug_assert_true (_ =? available_data b)%nat) by (by apply Nat.eqb_eq).
    cbn [mbind outcome_bind]. by rewrite check_Val.
  - injection Hs as <-. cbn [mbind outcome_bind].
    rewrite (debug_assert_true (_ =? available_data b)%nat) by (by apply Nat.eqb_eq).
    cbn [mbind outcome_bind]. by rewrite check_Val.
Qed.

(** The assertion on the amount of data, then the invariant. *)
Lemma epilogue {E A} b n (r : A) :
  FixedSpec.wf b -> available_data b = n ->
  (_ ← debug_assert (available_data b =? n)%nat; _ ← checkout_check b; Val r) = @Val E A r.
Proof.
  intros Hb Hd. rewrite debug_assert_true by (by apply Nat.eqb_eq). cbn [mbind outcome_bind].
  by rewrite check_Val.
Qed.

Lemma shift_if_agrees {E} (c : bool) b :
  FixedSpec.wf b ->
  agrees (if c then @checkout_shift E b else Val b) (if c then Fixed.shift b else Val b).
Proof. intros Hb. destruct c; [by apply shift_agrees | done]. Qed.

Lemma consume_agrees {E} b count : FixedSpec.wf b -> agrees (@checkout_consume E b count) (Fixed.consume b count).
Proof.
  intros Hb. destruct (FixedSpec.consume_spec b count Hb) as (b' & Hs & Hb' & Hp & _). rewrite Hs. cbn.
  rewrite (FixedSpec.length_pending b Hb) in *. unfold checkout_consume. rewrite (check_Val b Hb).
  cbn [mbind outcome_bind]. run_assert by (apply Nat.leb_le; lia). unfold Fixed.consume in Hs.
  set (b1 := mkBuffer _ _ _) in *. pose proof Hb as [Hw Hm].
  assert (H1 : FixedSpec.wf b1) by (split; subst b1; cbn; unfold available_data; lia).
  pose proof (shift_if_agrees (E := E) (Fixed.capacity b1 / 2 <? position b1)%nat b1 H1) as Ha.
  destruct (if _ : bool then Fixed.shift b1 else Val b1) as [b2 | | ]; cbn [mbind outcome_bind] in Hs; [| done..].
  injection Hs as ->. unfold agrees in Ha. unfold Fixed.capacity in Ha.
  change (checkout_capacity b1) with (length (memory b1)). rewrite Ha. cbn [mbind outcome_bind].
  apply epilogue; [done |]. apply (f_equal length) in Hp. rewrite length_drop, !FixedSpec.length_pending in Hp by done. lia.
Qed.

Lemma fill_agrees {E} b count :
  FixedSpec.wf b -> (count <= Fixed.available_space b)%nat ->
  agrees (@checkout_fill E b count) (Fixed.fill b count).
Proof.
  intros Hb Hcnt. destruct (FixedSpec.fill_spec b count Hb Hcnt) as (b' & Hs & Hb' & Hp & _). rewrite Hs. cbn.
  unfold checkout_fill. rewrite (check_Val b Hb). cbn [mbind outcome_bind].
  run_assert by (apply Nat.leb_le; lia). unfold Fixed.fill in Hs.
  change (checkout_space b) with (Fixed.available_space b). rewrite Nat.min_l in * by done.
  set (b1 := mkBuffer _ _ _) in *. pose proof Hb as [Hw Hm].
  unfold Fixed.available_space, Fixed.capacity in Hcnt.
  assert (H1 : FixedSpec.wf b1) by (split; subst b1; cbn; lia).
  pose proof (shift_if_agrees (E := E) (Fixed.available_space b1 <? available_data b1 + count)%nat b1 H1) as Ha.
  destruct (if _ : bool then Fixed.shift b1 else Val b1) as [b2 | | ]; cbn [mbind outcome_bind] in Hs; [| done..].
  injection Hs as ->. unfold agrees in Ha. change (checkout_space b1) with (Fixed.available_space b1).
  rewrite Ha. cbn [mbind outcome_bind]. apply epilogue; [done |].
  apply (f_equal length) in Hp. rewrite length_app, !FixedSpec.length_pending in Hp by done. slices. lia.
Qed.

Lemma write_agrees {E} b buf : FixedSpec.wf b -> agrees (@checkout_write E b buf) (Fixed.write b buf).
Proof.
  intros Hb. destruct (FixedSpec.write_spec b buf Hb) as (b' & Hs & _). rewrite Hs. cbn. pose proof Hb as [Hw Hm].
  unfold checkout_write. change (checkout_space b) with (Fixed.available_space b).
  unfold Fixed.write in Hs. cbv zeta in Hs |- *. set (n := Nat.min _ _) in *.
  assert (Hn : (n <= Fixed.available_space b)%nat) by (subst n; lia).
  assert (Hl : length (take n buf) = n) by (slices; subst n; lia).
  unfold Fixed.available_space, Fixed.capacity in Hn.
  rewrite copy_from_slice_Val in Hs by lia. rewrite copy_from_slice_Val by lia. cbn [mbind outcome_bind] in *. set (b1 := mkBuffer _ _ _) in *.
  assert (H1 : FixedSpec.wf b1) by (split; cbn; rewrite length_put_at by lia; lia).
  pose proof (fill_agrees (E := E) b1 n H1) as Ha.
  destruct (Fixed.fill b1 n) as [[b2 c] | | ]; cbn [mbind outcome_bind] in Hs; [| done..].
  unfold agrees in Ha. rewrite Ha; [cbn; congruence |].
  unfold Fixed.available_space, Fixed.capacity. cbn. rewrite length_put_at by lia. lia.
Qed.

Lemma delete_agrees {E} b start len :
  FixedSpec.wf b -> Z.of_nat (start + len) <= USIZE_MAX ->
  agrees (@checkout_delete_slice E b start len) (Fixed.delete_slice b start len).
Proof.
  intros Hb Hs. destruct (FixedSpec.delete_slice_spec b start len Hb) as (b' & o & He & Hb' & Hq & _).
  rewrite He. cbn. unfold checkout_delete_slice. rewrite (check_Val b Hb). unfold usize_add.
  unfold Fixed.delete_slice in He. rewrite checked_add_Some in He |- * by done. cbn [mbind outcome_bind].
  pose proof Hb as [Hw Hm]. destruct (Nat.leb_spec (available_data b) (start + len)) as [Hle | Hlt].
  - injection He as <- <-. run_assert by (by apply Nat.eqb_eq). done.
  - unfold available_data in Hlt. rewrite copy_within_Val in He by lia.
    rewrite slice_Val by lia. cbn [mbind outcome_bind] in *. injection He as <- <-.
    rewrite copy_from_slice_Val by (slices; lia). cbn [mbind outcome_bind].
    apply epilogue; [done |]. unfold available_data. cbn. lia.
Qed.

Lemma put_at_id (m : list Z) a e : (a <= e <= length m)%nat -> put_at m a (take (e - a) (drop a m)) = m.
Proof.
  intros He. unfold put_at. rewrite length_take, length_drop, Nat.min_l by lia.
  rewrite <- (take_drop a m) at 4. f_equal. rewrite <- (take_drop (e - a) (drop a m)) at 2. f_equal.
  rewrite drop_drop. f_equal; lia.
Qed.

(** The memory after an edit that does not shrink, at the front of the memory:
    moving the tail first does nothing when the lengths are equal. *)
Lemma replace_agrees b bytes start len :
  FixedSpec.wf b -> checkout_op_ok b (OpReplace bytes start len) ->
  agrees (checkout_replace_slice b bytes start len) (Fixed.replace_slice b bytes start len).
Proof.
  intros Hb (Hs & Hp & Hroom). unfold checkout_capacity in Hroom.
  destruct (FixedSpec.replace_slice_spec b bytes start len Hb) as (b' & o & He & Hb' & Hq & _).
  rewrite He. cbn. unfold checkout_replace_slice. rewrite (check_Val b Hb). unfold usize_add.
  cbn [queue_step] in Hq. rewrite (FixedSpec.length_pending b Hb) in Hq.
  unfold Fixed.replace_slice in He. rewrite (checked_add_Some start len Hs) in He |- *. cbn [mbind outcome_bind].
  pose proof Hb as [Hw Hm]. destruct (Nat.ltb_spec (available_data b) (start + len)) as [Hlt | Hle].
  { injection He as <- <-. cbn [mbind outcome_bind]. run_assert by (by apply Nat.eqb_eq). done. }
  rewrite (proj2 (Nat.ltb_ge (Fixed.available_space b) _)) in Hq
    by (unfold Fixed.available_space, Fixed.capacity; lia).
  injection Hq as Hpend ->. unfold available_data in Hle.
  rewrite (checked_add_Some (position b)) by (unfold USIZE_MAX in *; lia). cbn [mbind outcome_bind].
  rewrite (checked_add_Some (position b + start)) by (unfold USIZE_MAX in *; lia). cbn [mbind outcome_bind].
  rewrite (proj2 (Nat.ltb_ge (checkout_capacity b) _)) by (unfold checkout_capacity; lia).
  run_assert by (apply Nat.leb_le; unfold available_data; lia).
  assert (Hlen : available_data b' = (available_data b - len + length bytes)%nat).
  { rewrite <- (FixedSpec.length_pending b' Hb'), Hpend, !length_app, length_take, length_drop,
      (FixedSpec.length_pending b Hb). unfold available_data. lia. }
  assert (Hend : forall o', o' = Some (available_data b') ->
    (_ ← debug_assert (Z.of_nat (available_data b') =?
        Z.of_nat (available_data b) + Z.of_nat (length bytes) - Z.of_nat len);
     _ ← checkout_check b'; Val (b', Some (available_data b'))) = @Val fault _ (b', o')).
  { intros o' ->. rewrite (debug_assert_true (Z.of_nat (available_data b') =? _))
      by (apply Z.eqb_eq; unfold available_data in *; lia). cbn [mbind outcome_bind]. by rewrite check_Val. }
  rewrite Hp in *. cbn [Nat.add] in *.
  destruct (Nat.compare_spec (length bytes) len) as [Heq | Hlt | Hgt].
  - subst len. rewrite copy_from_slice_Val in He by lia. cbn [mbind outcome_bind] in He. injection He as <- Ho.
    rewrite Nat.ltb_irrefl, slice_Val by lia. cbn [mbind outcome_bind].
    rewrite GrowableSpec.ptr_copy_Val, put_at_id by (slices; lia). cbn [mbind outcome_bind].
    rewrite copy_from_slice_Val by lia. cbn [mbind outcome_bind].
    rewrite Nat.sub_diag, Nat.add_0_r. apply Hend. by rewrite Hlen.
  - rewrite copy_from_slice_Val in He by lia. cbn [mbind outcome_bind] in He.
    rewrite copy_within_Val in He by (rewrite length_put_at by lia; lia). cbn [mbind outcome_bind] in He.
    injection He as <- Ho. rewrite (proj2 (Nat.ltb_lt (length bytes) len)), copy_from_slice_Val by lia.
    cbn [mbind outcome_bind]. rewrite slice_Val by (rewrite length_put_at by lia; lia). cbn [mbind outcome_bind].
    rewrite GrowableSpec.ptr_copy_Val by (rewrite length_put_at by lia; slices; lia). cbn [mbind outcome_bind].
    apply Hend. by rewrite Hlen.
  - rewrite checked_add_Some in He by (unfold USIZE_MAX; lia).
    rewrite (proj2 (Nat.ltb_ge (Fixed.capacity b) _)) in He by (unfold Fixed.capacity; lia).
    rewrite copy_within_Val in He by lia. cbn [mbind outcome_bind] in He.
    rewrite copy_from_slice_Val in He by (rewrite ?length_put_at by (slices; lia); lia).
    cbn [mbind outcome_bind] in He. injection He as <- Ho.
    rewrite (proj2 (Nat.ltb_ge (length bytes) len)), slice_Val by lia. cbn [mbind outcome_bind].
    rewrite GrowableSpec.ptr_copy_Val by (slices; lia). cbn [mbind outcome_bind].
    rewrite copy_from_slice_Val by (rewrite ?length_put_at by (slices; lia); lia). cbn [mbind outcome_bind].
    apply Hend. by rewrite Hlen.
Qed.

(** Inserting is replacing nothing, but for the check of the room. *)
Lemma insert_agrees b bytes start :
  FixedSpec.wf b -> checkout_op_ok b (OpInsert bytes start) ->
  agrees (checkout_insert_slice b bytes start) (Fixed.insert_slice b bytes start).
Proof.
  intros Hb [Hp Hlb]. pose proof Hb as [Hw Hm].
  destruct (FixedSpec.replace_slice_spec b bytes start 0 Hb) as (b' & o & He & Hb' & Hq & _).
  rewrite FixedSpec.queue_insert in Hq. unfold Fixed.insert_slice. rewrite He. cbn [agrees].
  cbn [queue_step] in Hq. rewrite (FixedSpec.length_pending b Hb) in Hq.
  unfold checkout_insert_slice. rewrite (check_Val b Hb). cbn [mbind outcome_bind]. unfold Fixed.replace_slice in He.
  destruct (Nat.ltb_spec (available_data b) start) as [Hlt | Hle].
  { cbn [mbind outcome_bind]. run_assert by (by apply Nat.eqb_eq). rewrite Nat.add_0_r in He.
    destruct (checked_add start 0) as [e |] eqn:Ea; [| by injection He as <- <-].
    unfold checked_add in Ea. destruct (_ <=? _); [| done]. injection Ea as <-.
    rewrite (proj2 (Nat.ltb_lt (available_data b) _)) in He by lia. by injection He as <- <-. }
  unfold available_data in Hle. unfold usize_add.
  rewrite (checked_add_Some (position b + end_ b)) by (unfold USIZE_MAX; lia). cbn [mbind outcome_bind].
  rewrite (checked_add_Some start 0), (proj2 (Nat.ltb_ge (available_data b) _)) in He
    by (unfold USIZE_MAX, available_data; lia).
  unfold Fixed.available_space, Fixed.capacity, checkout_capacity in *. rewrite Hp in *. cbn [Nat.add] in *.
  destruct (Nat.ltb_spec (length (memory b)) (end_ b + length bytes)) as [Hbig | Hfit].
  - rewrite (proj2 (Nat.ltb_lt (length (memory b) - end_ b) _)) in Hq by lia.
    rewrite (proj2 (Nat.compare_gt_iff (length bytes) 0)) in He by lia.
    rewrite (checked_add_Some (end_ b)) in He by (unfold USIZE_MAX; lia).
    rewrite (proj2 (Nat.ltb_lt (length (memory b)) _)) in He by lia. injection He as <- <-.
    run_assert by (by apply Nat.eqb_eq). done.
  - rewrite (proj2 (Nat.ltb_ge (length (memory b) - end_ b) _)) in Hq by lia. injection Hq as Hpend ->.
    run_assert by (apply Nat.leb_le; unfold available_data; lia).
    assert (Hlen : available_data b' = (available_data b + length bytes)%nat).
    { rewrite <- (FixedSpec.length_pending b' Hb'), Hpend, !length_app, length_take, length_drop,
        (FixedSpec.length_pending b Hb). unfold available_data. lia. }
    rewrite slice_Val by lia. cbn [mbind outcome_bind].
    rewrite GrowableSpec.ptr_copy_Val by (slices; lia). cbn [mbind outcome_bind].
    rewrite copy_from_slice_Val by (rewrite ?length_put_at by (slices; lia); lia). cbn [mbind outcome_bind].
    enough (Hb2 : b' = mkBuffer (put_at (put_at (memory b) (start + length bytes)
        (take (end_ b - start) (drop start (memory b)))) start bytes) 0 (end_ b + length bytes)).
    { rewrite <- Hb2, <- Hlen. by rewrite epilogue. }
    rewrite !Nat.add_0_r, ?Nat.sub_0_r in He. destruct (Nat.compare_spec (length bytes) 0) as [Hz | ? | Hgt]; [| lia |].
    + apply nil_length_inv in Hz. subst bytes. cbn [length] in *. rewrite !Nat.add_0_r in *.
      rewrite copy_from_slice_Val in He by (cbn; lia). cbn [mbind outcome_bind] in He. injection He as <- _.
      by rewrite put_at_id by lia.
    + rewrite checked_add_Some in He by (unfold USIZE_MAX; lia).
      rewrite (proj2 (Nat.ltb_ge (length (memory b)) _)) in He by lia.
      rewrite copy_within_Val in He by lia. cbn [mbind outcome_bind] in He.
      rewrite copy_from_slice_Val in He by (rewrite ?length_put_at by (slices; lia); lia).
      cbn [mbind outcome_bind] in He. by injection He as <- _.
Qed.

Ltac by_agreement H :=
  let Ha := fresh in
  pose proof H as Ha; unfold agrees in Ha;
  match type of Ha with match ?f with _ => _ end => destruct f; [| done..] end;
  rewrite Ha; cbn [mbind outcome_bind] in *;
  repeat match goal with x : _ * _ |- _ => destruct x end; congruence.

(** C27. A pooled buffer is a byte queue on the calls [checkout_op_ok] allows:
    every write, read, consume, shift and reset, a deletion whose range does not
    overflow, and a replacement or an insertion only on a window that starts
    the memory, a replacement with room for the tail it moves.  From every
    well-formed buffer such an operation returns without a failed assertion or
    a write outside the entry, reports and leaves exactly what the operation
    on the pending bytes does, and keeps the capacity; it is, step by step,
    the fixed buffer of the command channel.  [checkout_edit_faults] is what
    the other edits do. *)
Theorem checkout_refines b op :
  FixedSpec.wf b -> checkout_op_ok b op ->
  exists b' r, checkout_step b op = Val (b', r) /\ fixed_step b op = Val (b', r) /\ FixedSpec.wf b' /\
    (pending b', r) = queue_step (checkout_space b) (pending b) op /\
    checkout_capacity b' = checkout_capacity b.
Proof.
  intros Hb Hop. destruct (fixed_step_spec b op Hb) as (b' & r & Hf & Hb' & Hq & Hc).
  exists b', r. split; [| done].
  destruct op as [bytes | wanted | count | | | start len | bytes start len | bytes start];
    cbn [fixed_step checkout_step] in *.
  - by_agreement (write_agrees (E := fault) b bytes Hb).
  - unfold checkout_read, Fixed.read, available_data in *. pose proof Hb as [Hw _].
    rewrite slice_Val in Hf by lia. rewrite slice_Val by lia. cbn in *. congruence.
  - by_agreement (consume_agrees (E := fault) b count Hb).
  - by_agreement (shift_agrees (E := fault) b Hb).
  - pose proof Hb as [Hw _]. injection Hf as <- <-. unfold checkout_reset. cbn [available_data position end_ memory].
    run_assert by done. run_assert by (apply Nat.eqb_eq; unfold checkout_space; cbn; lia).
    by rewrite check_Val.
  - by_agreement (delete_agrees (E := fault) b start len Hb Hop).
  - by_agreement (replace_agrees b bytes start len Hb Hop).
  - by_agreement (insert_agrees b bytes start Hb Hop).
Qed.

(** [sync] accepts exactly the windows of the memory, and exposes the bytes
    between. *)
Lemma checkout_sync_spec {E} b e p :
  Z.of_nat (length (memory b)) < 2 ^ 63 ->
  if decide (p <= e <= checkout_capacity b)%nat then
    checkout_sync b e p = @Val E _ (mkBuffer (memory b) p e) /\ FixedSpec.wf (mkBuffer (memory b) p e)
  else checkout_sync b e p = @Panic E _.
Proof.
  intros Hm. unfold checkout_sync. case_decide as Hd.
  - assert (Hw : FixedSpec.wf (mkBuffer (memory b) p e)) by (split; cbn; [exact Hd | done]).
    split; [| done]. run_assert by (apply Nat.leb_le; lia). run_assert by (apply Nat.leb_le; lia). by rewrite epilogue.
  - destruct (Nat.leb_spec p e); [| done]. cbn [debug_assert mbind outcome_bind].
    by rewrite (proj2 (Nat.leb_gt _ _)) by lia.
Qed.

(** [replace_slice] of a pooled buffer can write past its entry, and
    [insert_slice] loses pending bytes when the pending window does not start
    the memory: on a full buffer of eight bytes, replacing its first byte with
    four passes both checks and moves the seven bytes of the tail over four
    bytes of room; with two bytes read before [cdefgh], inserting a byte after
    [cde] leaves [cdd] before it. *)
Example checkout_edit_faults :
  checkout_replace_slice (mkBuffer (bstr "abcdefgh") 0 8) (bstr "1234") 0 1 = Fails OutOfBounds /\
  exists b, checkout_insert_slice (mkBuffer (bstr "abcdefgh............") 2 8) (bstr "1") 3 = Val (b, Some 7%nat) /\
    pending b = bstr "cdd1fgh".
Proof. split; [reflexivity |]. eexists. split; reflexivity. Qed.

Lemma checkout_refines_witness :
  exists b' r, checkout_step (mkBuffer (bstr "abcdefgh....") 3 8) (OpConsume 4) = Val (b', r) /\
    (pending b', r) = (bstr "h", RCount 4).
Proof.
  destruct (checkout_refines (mkBuffer (bstr "abcdefgh....") 3 8) (OpConsume 4)) as (b' & r & E & _ & _ & Hq & _);
    [split; cbn; lia | exact I |].
  exists b', r. split; [exact E |]. rewrite Hq. vm_compute. reflexivity.
Defined.
