(* ===== verification/Retry.v ===== *)
(** * Backoff after a failed backend connection

    Models [ExponentialBackoffPolicy] of [lib/src/retry.rs].  Instants and
    durations are [Z] nanoseconds; [random_range] of the [rand] crate is the
    parameter [draw], of which its documentation promises a value of the range
    it is given.  [RetryPolicyWrapper] has one variant and forwards to it. *)

From S2P Require Import Prelude.

Inductive RetryAction := OKAY | WAIT.

Definition secs (n : Z) : Z := n * 1000000000.

Record ExponentialBackoffPolicy := mkPolicy {
  max_tries : Z;
  current_tries : Z;
  last_try : option Z;
  wait : Z;
}.

Definition policy_new (max_tries : Z) : ExponentialBackoffPolicy := mkPolicy max_tries 0 None 0.

Definition saturating_duration_since (now earlier : Z) : Z := Z.max 0 (now - earlier).

Definition since_last_try (p : ExponentialBackoffPolicy) (now : Z) : Z :=
  match last_try p with Some last_try => saturating_duration_since now last_try | None => 0 end.

(** [1u64.checked_shl(tries as u32).unwrap_or(u64::MAX)], at least 1. *)
Definition backoff_cap (tries : Z) : Z :=
  Z.max 1 (if to_u32 tries <? 64 then to_u64 (Z.shiftl 1 (to_u32 tries)) else U64_MAX).

(** [rng.random_range(1..max_secs)] is [draw max_secs]. *)
Definition fail (p : ExponentialBackoffPolicy) (now : Z) (draw : Z -> Z) : checked ExponentialBackoffPolicy :=
  if since_last_try p now <? wait p then Val p else
  let max_secs := backoff_cap (current_tries p) in
  let wait := if max_secs =? 1 then 1 else draw max_secs in
  _ ← debug_assert (current_tries p <? USIZE_MAX);
  Val (mkPolicy (max_tries p) (Z.min (current_tries p + 1) (max_tries p)) (Some now) (secs wait)).

Definition succeed (p : ExponentialBackoffPolicy) (now : Z) : ExponentialBackoffPolicy :=
  mkPolicy (max_tries p) 0 (Some now) 0.

Definition can_try (p : ExponentialBackoffPolicy) (now : Z) : option RetryAction :=
  Some (if wait p <=? since_last_try p now then OKAY else WAIT).

Definition is_down (p : ExponentialBackoffPolicy) : bool := max_tries p <=? current_tries p.

(** ** Histories *)

(** What [rand] documents of [random_range]. *)
Definition draws_in_range (draw : Z -> Z) : Prop := forall m, 1 < m -> 1 <= draw m < m.

Inductive retry_event :=
| Failed (now : Z) (draw : Z -> Z)
| Succeeded (now : Z).

Definition event_ok (e : retry_event) : Prop :=
  match e with Failed _ draw => draws_in_range draw | Succeeded _ => True end.

Definition retry_step (p : ExponentialBackoffPolicy) (e : retry_event) : checked ExponentialBackoffPolicy :=
  match e with
  | Failed now draw => fail p now draw
  | Succeeded now => Val (succeed p now)
  end.

Fixpoint retry_run (p : ExponentialBackoffPolicy) (es : list retry_event) : checked ExponentialBackoffPolicy :=
  match es with
  | [] => Val p
  | e :: es => p ← retry_step p e; retry_run p es
  end.

(** A reference account of a history: the failures counted since the last
    success, and the instant before which no attempt is made. *)
Record account := mkAccount { counted : Z; blocked_until : option Z }.

Definition blocked (a : account) (now : Z) : bool :=
  match blocked_until a with Some t => now <? t | None => false end.

(** A failure while blocked is not counted; any other blocks for a whole number
    of seconds, one after the first failure and less than [2 ^ k] after [k]
    more, [k] at most [max]. *)
Inductive account_step (max : Z) : account -> retry_event -> account -> Prop :=
| step_succeeded a now : account_step max a (Succeeded now) (mkAccount 0 None)
| step_blocked a now draw : blocked a now = true -> account_step max a (Failed now draw) a
| step_counted a now draw s :
    blocked a now = false -> 1 <= s -> s < 2 ^ Z.min (counted a) max \/ counted a = 0 /\ s = 1 ->
    account_step max a (Failed now draw) (mkAccount (counted a + 1) (Some (now + secs s))).

Inductive account_run (max : Z) : account -> list retry_event -> account -> Prop :=
| run_nil a : account_run max a [] a
| run_cons a e a' es a'' :
    account_step max a e a' -> account_run max a' es a'' -> account_run max a (e :: es) a''.

Definition accounts_for (p : ExponentialBackoffPolicy) (a : account) : Prop :=
  0 <= counted a /\ current_tries p = Z.min (counted a) (max_tries p) /\
  (forall now, (since_last_try p now <? wait p) = blocked a now).

Lemma backoff_cap_small k : 0 <= k < 64 -> backoff_cap k = 2 ^ k.
Proof.
  intros Hk. unfold backoff_cap, to_u32, wrap. rewrite (Z.mod_small k) by lia.
  rewrite (proj2 (Z.ltb_lt _ _)) by lia. rewrite Z.shiftl_1_l.
  pose proof (Z.pow_pos_nonneg 2 k ltac:(lia) ltac:(lia)).
  pose proof (Z.pow_lt_mono_r 2 k 64 ltac:(lia) ltac:(lia) ltac:(lia)).
  unfold to_u64, wrap. rewrite Z.mod_small by lia. lia.
Qed.

Lemma backoff_wait k draw :
  0 <= k < 64 -> draws_in_range draw ->
  let s := if backoff_cap k =? 1 then 1 else draw (backoff_cap k) in
  1 <= s /\ (s < 2 ^ k \/ k = 0 /\ s = 1).
Proof.
  intros Hk Hd. rewrite backoff_cap_small by done. cbn zeta. destruct (decide (k = 0)) as [-> | Hne].
  { change (2 ^ 0) with 1. rewrite Z.eqb_refl. lia. }
  pose proof (proj1 (Z.pow_gt_1 2 k ltac:(lia)) ltac:(lia)).
  rewrite (proj2 (Z.eqb_neq _ _)) by lia. destruct (Hd (2 ^ k)); [done | lia].
Qed.

Lemma retry_step_accounts max p a e :
  0 < max < 64 -> max_tries p = max -> accounts_for p a -> event_ok e ->
  exists p' a', retry_step p e = Val p' /\ account_step max a e a' /\ max_tries p' = max /\ accounts_for p' a'.
Proof.
  intros Hmax Hp (Hc & Ht & Hb) He. destruct e as [now draw | now]; cbn [retry_step event_ok] in *.
  - unfold fail. destruct (since_last_try p now <? wait p) eqn:Hw.
    + exists p, a. split; [done |]. rewrite Hb in Hw. split; [by constructor | by split].
    + rewrite Hb in Hw. rewrite Hp in Ht.
      rewrite (debug_assert_true (_ <? _)) by (unfold USIZE_MAX; apply Z.ltb_lt; lia).
      destruct (backoff_wait (current_tries p) draw) as [H1 H2]; [lia | done |]. rewrite Ht in *.
      set (s := if backoff_cap _ =? 1 then 1 else _) in *. cbn [mbind outcome_bind].
      eexists _, _. split; [done |]. split; [apply (step_counted max a now draw s); [done | done |] |].
      * destruct H2 as [| [??]]; [by left | right; split; [lia | done]].
      * split; [done |]. split; [cbn; lia |]. cbn [current_tries max_tries]. rewrite Hp. split; [cbn; lia |].
        intros t. unfold since_last_try, saturating_duration_since, blocked, secs. cbn.
        destruct (Z.ltb_spec t (now + s * 1000000000)); [apply Z.ltb_lt | apply Z.ltb_ge]; lia.
  - eexists _, _. split; [done |]. split; [constructor |]. split; [done |]. split; [done |]. cbn. split; [lia |].
    intros t. apply Z.ltb_ge. unfold since_last_try, saturating_duration_since. cbn. lia.
Qed.

(** What a backend's retry policy does over any history of failures and
    successes: a failure during the backoff is ignored, every other failure is
    counted and starts a backoff of one second after the first and of a whole
    number of seconds below [2 ^ k] after [k] more, a success forgets
    everything; a connection may be tried exactly when no backoff runs, and
    the backend is down exactly when [max] failures were counted since the
    last success. *)
Theorem retry_history max events :
  0 < max < 64 -> Forall event_ok events ->
  exists p a, retry_run (policy_new max) events = Val p /\ account_run max (mkAccount 0 None) events a /\
    is_down p = (max <=? counted a) /\
    forall now, can_try p now = Some (if blocked a now then WAIT else OKAY).
Proof.
  intros Hmax He.
  assert (Hrun : forall p a, max_tries p = max -> accounts_for p a ->
    exists p' a', retry_run p events = Val p' /\ account_run max a events a' /\ max_tries p' = max /\ accounts_for p' a').
  { induction He as [| e es He _ IH]; intros p a Hp Ha.
    - exists p, a. split; [done |]. by split; [constructor |].
    - destruct (retry_step_accounts max p a e Hmax Hp Ha He) as (p1 & a1 & Hs & Has & Hp1 & Ha1).
      destruct (IH p1 a1 Hp1 Ha1) as (p' & a' & Hr & Har & ?).
      exists p', a'. cbn [retry_run]. rewrite Hs. split; [done |]. split; [by econstructor | done]. }
  destruct (Hrun (policy_new max) (mkAccount 0 None)) as (p & a & Hr & Ha & Hm & Hc & Ht & Hb); [done | |].
  { split; [done |]. cbn. split; [lia |]. done. }
  exists p, a. split; [done |]. split; [done |]. split.
  - unfold is_down. rewrite Hm, Ht. rewrite Hm. destruct (Z.leb_spec max (counted a)); [apply Z.leb_le | apply Z.leb_gt]; lia.
  - intros now. unfold can_try. specialize (Hb now). f_equal.
    destruct (Z.leb_spec (wait p) (since_last_try p now)), (Z.ltb_spec (since_last_try p now) (wait p));
      try lia; by rewrite <- Hb.
Qed.

Definition example_events : list retry_event :=
  [Failed (secs 10) (fun m => m - 1); Failed (secs 10) (fun m => m - 1); Failed (secs 11) (fun m => m - 1);
   Succeeded (secs 20); Failed (secs 20) (fun m => m - 1)].

Lemma retry_history_witness :
  exists p a, retry_run (policy_new 6) example_events = Val p /\ account_run 6 (mkAccount 0 None) example_events a /\
    is_down p = (6 <=? counted a) /\
    forall now, can_try p now = Some (if blocked a now then WAIT else OKAY).
Proof.
  apply (retry_history 6 example_events); [lia |]. repeat constructor; cbn; lia.
Defined.
