(* ===== verification/Timer.v ===== *)
(** * The timer wheel of a worker

    [lib/src/timer.rs]: the timing wheel whose slots are doubly linked lists of
    entries in a slab, and the [TimeoutContainer] through which a session holds
    one of them.  Instants and durations are nanoseconds and each reading of
    the clock is an argument; the thread-local [TIMER] is the wheel a method of
    the container receives and returns.  The crate [slab] is the class
    [SlabCrate]: what the wheel uses of it, with the entries as a finite map. *)

From S2P Require Import Prelude.

Definition TICK_MAX : Z := U64_MAX.
Definition EMPTY : Z := USIZE_MAX.

(** [Slab<A>]: an insertion chooses the key. *)
Class SlabCrate := {
  slab : Type -> Type;
  slab_with_capacity : forall {A}, Z -> slab A;
  slab_entries : forall {A}, slab A -> gmap Z A;
  slab_insert : forall {A}, slab A -> A -> slab A * Z;
  slab_remove : forall {A}, slab A -> Z -> slab A;
  slab_update : forall {A}, slab A -> Z -> A -> slab A;
}.

(** The documented behaviour: an insertion returns a key that was vacant. *)
Class SlabLaws `{SlabCrate} : Prop := {
  law_slab_new A n : slab_entries (A := A) (slab_with_capacity n) = ∅;
  law_slab_insert A (s : slab A) a :
    Z.of_nat (size (slab_entries s)) < 2 ^ 63 ->
    slab_entries s !! (slab_insert s a).2 = None /\ 0 <= (slab_insert s a).2 < USIZE_MAX /\
    slab_entries (slab_insert s a).1 = <[(slab_insert s a).2 := a]> (slab_entries s);
  law_slab_remove A (s : slab A) k : slab_entries (slab_remove s k) = delete k (slab_entries s);
  law_slab_update A (s : slab A) k a :
    slab_entries (slab_update s k a) = <[k := a]> (slab_entries s);
}.

(** ** Ticks *)

(** [Duration::as_millis], which rounds down, saturated. *)
Definition millis (duration : Z) : Z := Z.min U64_MAX (duration / 1000000).

Definition duration_to_tick (elapsed tick_ms : Z) : checked Z :=
  if tick_ms =? 0 then Panic
  else Val (u64_saturating_add (millis elapsed) (tick_ms / 2) / tick_ms).

(** [Instant::saturating_duration_since]. *)
Definition duration_since (now start : Z) : Z := Z.max 0 (now - start).

Definition DURATION_MAX : Z := U64_MAX * 1000000000 + 999999999.

Definition duration_add (a b : Z) : checked Z := if a + b <=? DURATION_MAX then Val (a + b) else Panic.

Record WheelEntry := mkWheelEntry { we_next_tick : Z; we_head : Z }.
Record EntryLinks := mkLinks { l_tick : Z; l_prev : Z; l_next : Z }.
Record Timeout := mkTimeout { to_token : Z; to_tick : Z }.

Section Wheel.
Context `{SC : SlabCrate} {T : Type}.

Record Entry := mkEntry { e_state : T; e_links : EntryLinks }.

Definition entry_new (state : T) (tick next : Z) : Entry := mkEntry state (mkLinks tick EMPTY next).

Record Timer := mkTimer {
  tick_ms : Z;
  entries : slab Entry;
  wheel : list WheelEntry;
  start : Z;
  tick : Z;
  next : Z;
  mask : Z;
}.

Definition next_power_of_two (n : Z) : Z := 2 ^ Z.log2_up n.

Definition timer_new (tick_ms num_slots capacity start : Z) : Timer :=
  let num_slots := next_power_of_two num_slots in
  let capacity := next_power_of_two capacity in
  mkTimer tick_ms (slab_with_capacity capacity)
    (replicate (Z.to_nat num_slots) (mkWheelEntry TICK_MAX EMPTY)) start 0 EMPTY (num_slots - 1).

(** [Builder::default().build()]: ticks of 100 ms, 256 slots. *)
Definition timer_default (now : Z) : Timer := timer_new (millis 100000000) 256 65536 now.

Definition slot_for (t : Timer) (tick : Z) : nat := Z.to_nat (Z.land (mask t) tick).

Definition with_entries (t : Timer) (es : slab Entry) : Timer :=
  mkTimer (tick_ms t) es (wheel t) (start t) (tick t) (next t) (mask t).
Definition with_wheel (t : Timer) (w : list WheelEntry) : Timer :=
  mkTimer (tick_ms t) (entries t) w (start t) (tick t) (next t) (mask t).
Definition with_next (t : Timer) (n : Z) : Timer :=
  mkTimer (tick_ms t) (entries t) (wheel t) (start t) (tick t) n (mask t).
Definition with_tick (t : Timer) (k : Z) : Timer :=
  mkTimer (tick_ms t) (entries t) (wheel t) (start t) k (next t) (mask t).

(** [self.entries[token]], which panics on a vacant key. *)
Definition entry_at (t : Timer) (token : Z) : checked Entry :=
  match slab_entries (entries t) !! token with Some e => Val e | None => Panic end.

Definition set_links (t : Timer) (token : Z) (f : EntryLinks -> EntryLinks) : checked Timer :=
  e ← entry_at t token;
  Val (with_entries t (slab_update (entries t) token (mkEntry (e_state e) (f (e_links e))))).

Definition set_prev (t : Timer) (token prev : Z) : checked Timer :=
  set_links t token (fun l => mkLinks (l_tick l) prev (l_next l)).
Definition set_next (t : Timer) (token next : Z) : checked Timer :=
  set_links t token (fun l => mkLinks (l_tick l) (l_prev l) next).

(** [self.wheel[slot] = ..], which panics out of range. *)
Definition set_wheel (t : Timer) (slot : nat) (w : WheelEntry) : checked Timer :=
  _ ← index (wheel t) slot;
  Val (with_wheel t (<[slot := w]> (wheel t))).

(** [self.entries.remove(token)] *)
Definition take_entry (t : Timer) (token : Z) : checked (Timer * T) :=
  e ← entry_at t token;
  Val (with_entries t (slab_remove (entries t) token), e_state e).

Definition timer_insert (t : Timer) (tick : Z) (state : T) : checked (Timer * Timeout) :=
  let slot := slot_for t tick in
  curr ← index (wheel t) slot;
  let entry := entry_new state tick (we_head curr) in
  let '(es, token) := slab_insert (entries t) entry in
  let t := with_entries t es in
  t ← (if we_head curr =? EMPTY then Val t else set_prev t (we_head curr) token);
  t ← set_wheel t slot (mkWheelEntry (Z.min tick (we_next_tick curr)) token);
  Val (t, mkTimeout token tick).

(** [self.tick + 1], and [self.tick += 1]. *)
Definition succ_tick (k : Z) : checked Z := if k <? U64_MAX then Val (k + 1) else Panic.

Definition set_timeout_at (t : Timer) (delay_from_start : Z) (state : T) : checked (Timer * Timeout) :=
  target ← duration_to_tick delay_from_start (tick_ms t);
  target ← (if target <=? tick t then succ_tick (tick t) else Val target);
  timer_insert t target state.

Definition set_timeout_from (t : Timer) (now delay_from_now : Z) (state : T) : checked (Timer * Timeout) :=
  delay_from_start ← duration_add (duration_since now (start t)) delay_from_now;
  set_timeout_at t delay_from_start state.

Definition set_timeout (t : Timer) (now delay_from_now : Z) (state : T) : checked (Timer * Timeout) :=
  set_timeout_from t now delay_from_now state.

Definition unlink (t : Timer) (links : EntryLinks) (token : Z) : checked Timer :=
  t ← (if l_prev links =? EMPTY then
         let slot := slot_for t (l_tick links) in
         w ← index (wheel t) slot;
         set_wheel t slot (mkWheelEntry (we_next_tick w) (l_next links))
       else set_next t (l_prev links) (l_next links));
  if negb (l_next links =? EMPTY) then
    t ← set_prev t (l_next links) (l_prev links);
    Val (if token =? next t then with_next t (l_next links) else t)
  else Val (if token =? next t then with_next t EMPTY else t).

Definition cancel_timeout (t : Timer) (timeout : Timeout) : checked (Timer * option T) :=
  match slab_entries (entries t) !! to_token timeout with
  | None => Val (t, None)
  | Some e =>
      if negb (l_tick (e_links e) =? to_tick timeout) then Val (t, None)
      else
        t ← unlink t (e_links e) (to_token timeout);
        '(t, state) ← take_entry t (to_token timeout);
        Val (t, Some state)
  end.

Definition reset_timeout (t : Timer) (timeout : Timeout) (now delay_from_now : Z) :
    checked (Timer * option Timeout) :=
  '(t, cancelled) ← cancel_timeout t timeout;
  match cancelled with
  | None => Val (t, None)
  | Some state => '(t, timeout) ← set_timeout t now delay_from_now state; Val (t, Some timeout)
  end.

(** The [while] loop of [poll_to]. *)
Fixpoint poll_loop (fuel : nat) (t : Timer) (target_tick : Z) : checked (Timer * option T) :=
  match fuel with
  | O => Panic
  | S fuel =>
      if tick t <=? target_tick then
        let curr := next t in
        if curr =? EMPTY then
          k ← succ_tick (tick t);
          let t := with_tick t k in
          let slot := slot_for t k in
          w ← index (wheel t) slot;
          let t := with_next t (we_head w) in
          t ← (if next t =? EMPTY then set_wheel t slot (mkWheelEntry TICK_MAX (we_head w)) else Val t);
          poll_loop fuel t target_tick
        else
          let slot := slot_for t (tick t) in
          w ← index (wheel t) slot;
          t ← (if curr =? we_head w then set_wheel t slot (mkWheelEntry TICK_MAX (we_head w)) else Val t);
          e ← entry_at t curr;
          let links := e_links e in
          if l_tick links <=? tick t then
            t ← unlink t links curr;
            '(t, state) ← take_entry t curr;
            Val (t, Some state)
          else
            w ← index (wheel t) slot;
            t ← set_wheel t slot (mkWheelEntry (Z.min (we_next_tick w) (l_tick links)) (we_head w));
            poll_loop fuel (with_next t (l_next links)) target_tick
      else Val (t, None)
  end.

(** Each tick is one turn and visits each entry of its slot once. *)
Definition poll_fuel (t : Timer) (target_tick : Z) : nat :=
  S ((Z.to_nat (target_tick - tick t) + 2) * S (size (slab_entries (entries t)))).

Definition poll_to (t : Timer) (target_tick : Z) : checked (Timer * option T) :=
  let target_tick := if target_tick <? tick t then tick t else target_tick in
  poll_loop (poll_fuel t target_tick) t target_tick.

Definition poll_at (t : Timer) (now : Z) : checked (Timer * option T) :=
  target_tick ← duration_to_tick (duration_since now (start t)) (tick_ms t);
  poll_to t target_tick.

(** [poll], with the clock it reads. *)
Definition poll (t : Timer) (now : Z) : checked (Timer * option T) := poll_at t now.

Definition min_tick (ticks : list Z) : option Z :=
  match ticks with [] => None | k :: ks => Some (foldr Z.min k ks) end.

Definition next_tick (t : Timer) : checked (option Z) :=
  ready ← (if next t =? EMPTY then Val false
           else
             e ← entry_at t (next t);
             w ← index (wheel t) (slot_for t (l_tick (e_links e)));
             Val (we_next_tick w =? tick t));
  Val (if ready : bool then Some (tick t) else min_tick (we_next_tick <$> wheel t)).

Definition next_poll_date (t : Timer) : checked (option Z) :=
  k ← next_tick t;
  match k with
  | None => Val None
  | Some k => date ← instant_add (start t) (u64_saturating_mul (tick_ms t) k * 1000000); Val (Some date)
  end.

End Wheel.
Arguments Entry : clear implicits.
Arguments Timer {SC} T.

(** ** The containers of the sessions

    The state of an entry is the token of its session. *)

Record TimeoutContainer := mkContainer {
  tc_timeout : option Timeout;
  tc_duration : Z;
  tc_token : option Z;
  tc_deadline : option Z;
}.

(** [now.checked_add(duration).unwrap_or(now)] *)
Definition deadline_from (now duration : Z) : Z :=
  if now + duration <=? INSTANT_MAX then now + duration else now.

Section Container.
Context `{SC : SlabCrate}.
Implicit Types (t : Timer Z) (c : TimeoutContainer).

(** The wheel reads the clock, then the deadline does. *)
Definition container_new t (now now' duration token : Z) : checked (Timer Z * TimeoutContainer) :=
  '(t, timeout) ← set_timeout t now duration token;
  Val (t, mkContainer (Some timeout) duration (Some token) (Some (deadline_from now' duration))).

Definition container_new_empty (duration : Z) : TimeoutContainer := mkContainer None duration None None.

(** What is left, and what was taken. *)
Definition container_take c : TimeoutContainer * TimeoutContainer :=
  (mkContainer None (tc_duration c) None None, c).

Definition container_triggered c : TimeoutContainer :=
  mkContainer None (tc_duration c) (tc_token c) None.

(** [if let Some(timeout) = self.timeout.take() { .. cancel_timeout(&timeout) }] *)
Definition cancel_held t c : checked (Timer Z) :=
  match tc_timeout c with
  | Some timeout => '(t, _) ← cancel_timeout t timeout; Val t
  | None => Val t
  end.

Definition container_set t c (now now' token : Z) : checked (Timer Z * TimeoutContainer) :=
  t ← cancel_held t c;
  '(t, timeout) ← set_timeout t now (tc_duration c) token;
  Val (t, mkContainer (Some timeout) (tc_duration c) (Some token) (Some (deadline_from now' (tc_duration c)))).

Definition container_set_at t c (now now' token deadline : Z) : checked (Timer Z * TimeoutContainer) :=
  t ← cancel_held t c;
  let delay := duration_since deadline now in
  '(t, timeout) ← set_timeout t now' delay token;
  Val (t, mkContainer (Some timeout) (tc_duration c) (Some token) (Some deadline)).

Definition container_set_duration t c (now now' duration : Z) : checked (Timer Z * TimeoutContainer) :=
  t ← cancel_held t c;
  match tc_token c with
  | Some token =>
      '(t, timeout) ← set_timeout t now duration token;
      Val (t, mkContainer (Some timeout) duration (Some token) (Some (deadline_from now' duration)))
  | None => Val (t, mkContainer None duration None None)
  end.

Definition container_retune c (duration : Z) : TimeoutContainer :=
  mkContainer (tc_timeout c) duration (tc_token c) (tc_deadline c).

Definition is_armed c : bool := if tc_timeout c is Some _ then true else false.

Definition container_cancel t c : checked (Timer Z * TimeoutContainer * bool) :=
  t ← cancel_held t c;
  Val (t, mkContainer None (tc_duration c) (tc_token c) None, is_armed c).

Definition container_reset t c (now now' : Z) : checked (Timer Z * TimeoutContainer * bool) :=
  match tc_timeout c with
  | None =>
      match tc_token c with
      | Some token =>
          '(t, timeout) ← set_timeout t now (tc_duration c) token;
          Val (t, mkContainer (Some timeout) (tc_duration c) (Some token)
                    (Some (deadline_from now' (tc_duration c))), true)
      | None => Val (t, mkContainer None (tc_duration c) None None, false)
      end
  | Some timeout =>
      '(t, timeout) ← reset_timeout t timeout now (tc_duration c);
      let armed := if timeout is Some _ then true else false in
      Val (t, mkContainer timeout (tc_duration c) (tc_token c)
                (if armed then Some (deadline_from now' (tc_duration c)) else None), armed)
  end.

(** [Drop::drop]. *)
Definition container_drop t c : checked (Timer Z) :=
  '(t, _, _) ← container_cancel t c; Val t.

End Container.

(** ** A slab for the examples: the first vacant key *)

Fixpoint first_vacant {A} (fuel : nat) (m : gmap Z A) (k : Z) : Z :=
  match fuel with
  | O => k
  | S fuel => match m !! k with Some _ => first_vacant fuel m (k + 1) | None => k end
  end.

Definition vacant_key {A} (m : gmap Z A) : Z := first_vacant (size m) m 0.

#[local] Instance simple_slab : SlabCrate := {
  slab A := gmap Z A;
  slab_with_capacity A _ := ∅;
  slab_entries A s := s;
  slab_insert A s a := (<[vacant_key s := a]> s, vacant_key s);
  slab_remove A s k := delete k s;
  slab_update A s k a := <[k := a]> s;
}.
