(* ===== verification/TimerSpec.v ===== *)
(** * What the timer wheel promises

    The wheel of [Timer] read as a map of pending timeouts.  [seg] is a stretch
    of a doubly linked list in the slab; [wheel_ok] says that the slots hold the
    lists of the pending entries and that the cursor has passed nothing that is
    due.  Setting, cancelling and polling refine the reference. *)

From S2P Require Import Prelude Timer.

Section Spec.
Context `{SC : SlabCrate} `{SL : !SlabLaws} {T : Type}.
Implicit Types (t : Timer T) (m : gmap Z (Entry T)) (l : list Z).

(** ** Linked lists in the slab *)

Definition first (d : Z) l : Z := default d (head l).
Definition final (d : Z) l : Z := default d (last l).

Fixpoint seg m (p : Z) l (n : Z) : Prop :=
  match l with
  | [] => True
  | k :: l =>
      (exists s i, m !! k = Some (mkEntry s (mkLinks i p (first n l)))) /\ seg m k l n
  end.

Lemma final_cons d k l : final d (k :: l) = final k l.
Proof. unfold final. rewrite last_cons. by destruct (last l). Qed.

Lemma first_app d l1 l2 : first d (l1 ++ l2) = first (first d l2) l1.
Proof. unfold first. by destruct l1. Qed.

Lemma final_app d l1 l2 : final d (l1 ++ l2) = final (final d l1) l2.
Proof. unfold final. rewrite last_app. by destruct (last l2). Qed.

Lemma seg_app m p l1 l2 n : seg m p (l1 ++ l2) n <-> seg m p l1 (first n l2) /\ seg m (final p l1) l2 n.
Proof.
  revert p. induction l1 as [| k l1 IH]; intros p; cbn [app seg]; [tauto |].
  rewrite IH, first_app, final_cons. tauto.
Qed.

Lemma seg_frame m m' p l n : (forall k, k ∈ l -> m' !! k = m !! k) -> seg m p l n -> seg m' p l n.
Proof.
  revert p. induction l as [| k l IH]; intros p Hm; [done |]. cbn [seg]. intros [Hk Hl].
  rewrite Hm by left. split; [done |]. apply IH; [| done]. intros. apply Hm. by right.
Qed.

Lemma seg_elem m p l n k : seg m p l n -> k ∈ l -> is_Some (m !! k).
Proof.
  revert p. induction l as [| k' l IH]; intros p; [by intros _ ?%not_elem_of_nil |].
  cbn [seg]. intros [(s & i & Hk) Hl] [-> | Hin]%elem_of_cons; [by rewrite Hk | by eapply IH].
Qed.

(** Another successor for the last entry, and another predecessor for the
    first. *)
Lemma seg_relast m p l q n n' e :
  seg m p (l ++ [q]) n -> q ∉ l -> m !! q = Some e ->
  seg (<[q := mkEntry (e_state e) (mkLinks (l_tick (e_links e)) (l_prev (e_links e)) n')]> m) p (l ++ [q]) n'.
Proof.
  rewrite !seg_app. intros [Hl [(s & i & Hq) _]] Hni He. split.
  - eapply seg_frame; [| exact Hl]. intros k Hk. apply lookup_insert_ne. by intros ->.
  - split; [| done]. rewrite lookup_insert_eq. rewrite Hq in He. injection He as <-. by eexists _, _.
Qed.

Lemma seg_refirst m p q l n p' e :
  seg m p (q :: l) n -> q ∉ l -> m !! q = Some e ->
  seg (<[q := mkEntry (e_state e) (mkLinks (l_tick (e_links e)) p' (l_next (e_links e)))]> m) p' (q :: l) n.
Proof.
  cbn [seg]. intros [(s & i & Hq) Hl] Hni He. rewrite Hq in He. injection He as <-. split.
  - rewrite lookup_insert_eq. by eexists _, _.
  - eapply seg_frame; [| exact Hl]. intros k Hk. apply lookup_insert_ne. by intros ->.
Qed.

(** ** Pending timeouts *)

Definition ent t : gmap Z (Entry T) := slab_entries (entries t).

Definition timing (e : Entry T) : Z * T := (l_tick (e_links e), e_state e).

(** The pending timeouts: the tick and the state of each key. *)
Definition pending t : gmap Z (Z * T) := timing <$> ent t.

Lemma pending_lookup t k v : pending t !! k = Some v <-> exists e, ent t !! k = Some e /\ timing e = v.
Proof. unfold pending. rewrite lookup_fmap_Some. naive_solver. Qed.

(** The lists of the slots, and the entries from the cursor on. *)
Record wheel_ok (rested : bool) t (L : nat -> list Z) (before rest : list Z) : Prop := {
  wo_mask : exists b, 0 <= b /\ mask t = 2 ^ b - 1 /\ length (wheel t) = Z.to_nat (2 ^ b);
  wo_tick : 0 <= tick t;
  wo_keys : forall k e, ent t !! k = Some e -> 0 <= k < EMPTY;
  wo_place : forall k e, ent t !! k = Some e -> k ∈ L (slot_for t (l_tick (e_links e)));
  wo_member : forall i k, k ∈ L i -> exists e, ent t !! k = Some e /\ slot_for t (l_tick (e_links e)) = i;
  wo_nodup : forall i, NoDup (L i);
  wo_list : forall i w, wheel t !! i = Some w -> we_head w = first EMPTY (L i) /\ seg (ent t) EMPTY (L i) EMPTY;
  wo_cursor : L (slot_for t (tick t)) = before ++ rest /\ next t = first EMPTY rest;
  wo_due : forall k e, ent t !! k = Some e ->
    tick t <= l_tick (e_links e) <= U64_MAX /\ (l_tick (e_links e) = tick t -> k ∈ rest);
  wo_early : forall i w k e, wheel t !! i = Some w -> k ∈ L i -> ent t !! k = Some e ->
    (i = slot_for t (tick t) -> rested = false -> k ∈ before) -> we_next_tick w <= l_tick (e_links e);
}.

Lemma slot_bound t L r before rest k :
  wheel_ok r t L before rest -> 0 <= k -> (slot_for t k < length (wheel t))%nat.
Proof.
  intros [(b & Hb & Hm & Hl) _ _ _ _ _ _ _ _ _] Hk. unfold slot_for. rewrite Hl, Hm.
  change (2 ^ b - 1) with (Z.pred (2 ^ b)).
  replace (Z.pred (2 ^ b)) with (Z.ones b) by (rewrite Z.ones_equiv; lia).
  rewrite Z.land_comm, Z.land_ones by done. pose proof (Z.mod_pos_bound k (2 ^ b) ltac:(lia)). lia.
Qed.

Lemma slot_lookup t L r before rest k :
  wheel_ok r t L before rest -> 0 <= k -> exists w, wheel t !! slot_for t k = Some w /\
    we_head w = first EMPTY (L (slot_for t k)) /\ seg (ent t) EMPTY (L (slot_for t k)) EMPTY.
Proof.
  intros Hw Hk. destruct (lookup_lt_is_Some_2 (wheel t) (slot_for t k)) as [w Hlk]; [by eapply slot_bound |].
  exists w. split; [done |]. by apply (wo_list _ _ _ _ _ Hw).
Qed.

(** ** Taking an entry out *)

Definition re_next (n : Z) (e : Entry T) : Entry T :=
  mkEntry (e_state e) (mkLinks (l_tick (e_links e)) (l_prev (e_links e)) n).
Definition re_prev (p : Z) (e : Entry T) : Entry T :=
  mkEntry (e_state e) (mkLinks (l_tick (e_links e)) p (l_next (e_links e))).

(** The neighbours [p] and [n] of an entry, joined. *)
Definition relink m (p n : Z) : gmap Z (Entry T) :=
  let m := if p =? EMPTY then m else alter (re_next n) p m in
  if n =? EMPTY then m else alter (re_prev p) n m.

Lemma relink_other m p n k : k <> p -> k <> n -> relink m p n !! k = m !! k.
Proof.
  intros Hp Hn. unfold relink. destruct (n =? EMPTY), (p =? EMPTY); rewrite ?lookup_alter_ne by done; done.
Qed.

Lemma relink_timing m p n : timing <$> relink m p n = timing <$> m.
Proof.
  assert (Ha : forall (f : Entry T -> Entry T) k m, (forall e, timing (f e) = timing e) ->
    timing <$> alter f k m = timing <$> m).
  { intros f k m' Hf. apply map_eq. intros j. rewrite !lookup_fmap. destruct (decide (k = j)) as [<- | Hne].
    - rewrite lookup_alter_eq. destruct (m' !! k); cbn; [by rewrite Hf | done].
    - by rewrite lookup_alter_ne. }
  unfold relink. destruct (n =? EMPTY), (p =? EMPTY); rewrite ?Ha by done; done.
Qed.

Lemma first_in d l : l <> [] -> first d l ∈ l.
Proof. destruct l as [| k l]; [done |]. intros _. left. Qed.

Lemma final_in d l : l <> [] -> final d l ∈ l.
Proof.
  destruct l as [| k l _] using rev_ind; [done |]. intros _. unfold final. rewrite last_snoc.
  apply elem_of_app. right. left.
Qed.

Lemma final_snoc d l k : final d (l ++ [k]) = k.
Proof. unfold final. by rewrite last_snoc. Qed.

Lemma seg_alter_last m p l n n' :
  seg m p l n -> NoDup l -> seg (if decide (l = []) then m else alter (re_next n') (final p l) m) p l n'.
Proof.
  intros Hs Hnd. destruct l as [| q l _] using rev_ind; [done |]. rewrite decide_False by (by destruct l).
  rewrite final_snoc. apply NoDup_app in Hnd as (_ & Hq & _).
  assert (Hni : q ∉ l) by (intros Hin; apply (Hq q Hin); left).
  destruct (seg_elem m p _ n q Hs) as [e He]; [apply elem_of_app; right; left |].
  pose proof (seg_relast m p l q n n' e Hs Hni He) as Hr.
  assert (alter (re_next n') q m = <[q := re_next n' e]> m) as ->.
  { apply map_eq. intros j. destruct (decide (q = j)) as [<- | Hne].
    - by rewrite lookup_alter_eq, lookup_insert_eq, He.
    - by rewrite lookup_alter_ne, lookup_insert_ne. }
  exact Hr.
Qed.

Lemma seg_alter_first m p l n p' :
  seg m p l n -> NoDup l -> seg (if decide (l = []) then m else alter (re_prev p') (first n l) m) p' l n.
Proof.
  intros Hs Hnd. destruct l as [| q l]; [done |]. rewrite decide_False by done. unfold first. cbn [head default from_option id].
  apply NoDup_cons in Hnd as [Hni _].
  destruct (seg_elem m p _ n q Hs) as [e He]; [left |].
  pose proof (seg_refirst m p q l n p' e Hs Hni He) as Hr.
  assert (alter (re_prev p') q m = <[q := re_prev p' e]> m) as ->.
  { apply map_eq. intros j. destruct (decide (q = j)) as [<- | Hne].
    - by rewrite lookup_alter_eq, lookup_insert_eq, He.
    - by rewrite lookup_alter_ne, lookup_insert_ne. }
  exact Hr.
Qed.

(** A key is never the empty token. *)
Lemma first_empty l : (EMPTY ∉ l) -> (first EMPTY l =? EMPTY) = bool_decide (l = []).
Proof.
  intros He. destruct l as [| k l]; [done |]. rewrite bool_decide_false by done. apply Z.eqb_neq.
  intros Heq. apply He. rewrite <- Heq. left.
Qed.

Lemma final_empty l : (EMPTY ∉ l) -> (final EMPTY l =? EMPTY) = bool_decide (l = []).
Proof.
  intros He. destruct (decide (l = [])) as [-> | Hne]; [done |]. rewrite bool_decide_false by done.
  apply Z.eqb_neq. intros Heq. apply He. rewrite <- Heq. by apply final_in.
Qed.

Lemma relink_seg m l1 k l2 :
  seg m EMPTY (l1 ++ k :: l2) EMPTY -> NoDup (l1 ++ k :: l2) -> EMPTY ∉ l1 ++ k :: l2 ->
  seg (delete k (relink m (final EMPTY l1) (first EMPTY l2))) EMPTY (l1 ++ l2) EMPTY.
Proof.
  intros Hs Hnd He. rewrite seg_app in Hs. cbn [seg] in Hs. destruct Hs as (H1 & _ & H2).
  apply NoDup_app in Hnd as (Hn1 & Hdis & [Hk Hn2]%NoDup_cons).
  assert (Hk1 : k ∉ l1) by (intros Hin; apply (Hdis k Hin); left).
  assert (H12 : forall j, j ∈ l1 -> j ∉ l2) by (intros j Hj Hj2; apply (Hdis j Hj); by right).
  rewrite elem_of_app, elem_of_cons in He.
  apply seg_app. split.
  - pose proof (seg_alter_last m EMPTY l1 _ (first EMPTY l2) H1 Hn1) as Hr. eapply seg_frame; [| exact Hr].
    intros j Hj. rewrite lookup_delete_ne by (by intros ->). unfold relink.
    rewrite final_empty, first_empty by naive_solver.
    assert (Hne : l1 <> []) by (intros ->; by apply not_elem_of_nil in Hj).
    rewrite !(bool_decide_false (l1 = [])), decide_False by done.
    destruct (decide (l2 = [])) as [-> | Hne2]; [done |]. rewrite bool_decide_false by done. apply lookup_alter_ne. intros <-. apply (H12 (first EMPTY l2) Hj).
    by apply first_in.
  - pose proof (seg_alter_first m k l2 EMPTY (final EMPTY l1) H2 Hn2) as Hr. eapply seg_frame; [| exact Hr].
    intros j Hj. rewrite lookup_delete_ne by (by intros ->). unfold relink.
    rewrite final_empty, first_empty by naive_solver.
    assert (Hne : l2 <> []) by (intros ->; by apply not_elem_of_nil in Hj).
    rewrite (bool_decide_false (l2 = [])), decide_False by done.
    destruct (decide (l1 = [])) as [-> | Hne1]; [done |]. rewrite (bool_decide_false (l1 = [])) by done.
    assert (Hq : final EMPTY l1 <> j) by (intros <-; apply (H12 _ (final_in EMPTY l1 Hne1)); done).
    destruct (decide (first EMPTY l2 = j)) as [<- | Hf].
    + rewrite !lookup_alter_eq. f_equal. by apply lookup_alter_ne.
    + by rewrite !lookup_alter_ne.
Qed.

Lemma entry_at_Val t k e : ent t !! k = Some e -> entry_at t k = Val e.
Proof. intros He. unfold entry_at. fold (ent t). by rewrite He. Qed.

Lemma ent_update t k e : ent (with_entries t (slab_update (entries t) k e)) = <[k := e]> (ent t).
Proof. apply law_slab_update. Qed.

Lemma set_wheel_Val t slot w w0 :
  wheel t !! slot = Some w0 -> set_wheel t slot w = Val (with_wheel t (<[slot := w]> (wheel t))).
Proof. intros Hw. unfold set_wheel, index. by rewrite Hw. Qed.

Lemma alter_insert_map m k (f : Entry T -> Entry T) e : m !! k = Some e -> <[k := f e]> m = alter f k m.
Proof.
  intros He. apply map_eq. intros j. destruct (decide (k = j)) as [<- | Hne].
  - by rewrite lookup_alter_eq, lookup_insert_eq, He.
  - by rewrite lookup_alter_ne, lookup_insert_ne.
Qed.

(** [t'] is [t] but for its entries, its wheel and its cursor. *)
Definition same_clock t t' : Prop := tick t' = tick t /\ mask t' = mask t.

Lemma unlink_Val t links k :
  (l_prev links <> EMPTY -> is_Some (ent t !! l_prev links)) ->
  (l_next links <> EMPTY -> is_Some (ent t !! l_next links)) ->
  (slot_for t (l_tick links) < length (wheel t))%nat ->
  exists t', unlink t links k = Val t' /\ same_clock t t' /\
    ent t' = relink (ent t) (l_prev links) (l_next links) /\
    wheel t' = (if l_prev links =? EMPTY
                then alter (fun w => mkWheelEntry (we_next_tick w) (l_next links)) (slot_for t (l_tick links)) (wheel t)
                else wheel t) /\
    next t' = if k =? next t then l_next links else next t.
Proof.
  intros Hp Hn [w Hw]%lookup_lt_is_Some_2. destruct links as [i p n]. cbn [l_tick l_prev l_next] in *.
  assert (H1 : exists t1, (if p =? EMPTY then
      w ← index (wheel t) (slot_for t i); set_wheel t (slot_for t i) (mkWheelEntry (we_next_tick w) n)
    else set_next t p n) = Val t1 /\ same_clock t t1 /\ next t1 = next t /\
    ent t1 = (if p =? EMPTY then ent t else alter (re_next n) p (ent t)) /\
    wheel t1 = if p =? EMPTY
               then alter (fun w => mkWheelEntry (we_next_tick w) n) (slot_for t i) (wheel t) else wheel t).
  { destruct (Z.eqb_spec p EMPTY) as [-> | Hpe].
    - unfold index. rewrite Hw. cbn [mbind outcome_bind]. rewrite (set_wheel_Val t _ _ w Hw).
      eexists. split; [done |]. split; [done |]. split; [done |]. split; [done |]. cbn [wheel with_wheel].
      apply list_eq. intros j. destruct (decide (slot_for t i = j)) as [<- | Hne].
      + rewrite list_lookup_alter_eq, Hw, list_lookup_insert_eq; [done |]. by eapply lookup_lt_Some.
      + by rewrite list_lookup_alter_ne, list_lookup_insert_ne.
    - destruct (Hp Hpe) as [e He]. unfold set_next, set_links. rewrite (entry_at_Val t p e He). cbn [mbind outcome_bind].
      eexists. split; [done |]. split; [done |]. split; [done |]. split; [| done].
      rewrite ent_update. exact (alter_insert_map (ent t) p (re_next n) e He). }
  destruct H1 as (t1 & Ht1 & [Hk1 Hm1] & Hx1 & He1 & Hw1).
  unfold unlink. cbn [l_tick l_prev l_next]. cbv zeta. rewrite Ht1. cbn [mbind outcome_bind].
  unfold relink. destruct (Z.eqb_spec n EMPTY) as [-> | Hne]; cbn [negb].
  - rewrite Hx1. eexists. split; [done |]. by destruct (k =? next t); cbn.
  - assert (exists e, ent t1 !! n = Some e) as [e He].
    { rewrite He1. destruct (Hn Hne) as [e He]. destruct (p =? EMPTY); [by exists e |].
      destruct (decide (p = n)) as [-> | Hpn]; [rewrite lookup_alter_eq, He; by eexists |].
      rewrite lookup_alter_ne by done. by exists e. }
    unfold set_prev, set_links. rewrite (entry_at_Val t1 n e He). cbn [mbind outcome_bind next with_entries].
    rewrite Hx1. eexists. split; [done |].
    assert (Hent : slab_entries (slab_update (entries t1) n (re_prev p e)) =
      alter (re_prev p) n (if p =? EMPTY then ent t else alter (re_next n) p (ent t))).
    { rewrite law_slab_update. fold (ent t1). rewrite (alter_insert_map _ _ (re_prev p) e He). by rewrite He1. }
    by destruct (k =? next t); cbn.
Qed.

(** Lists without a key. *)
Definition without (k : Z) l : list Z := filter (fun j => j <> k) l.

Lemma without_absent k l : k ∉ l -> without k l = l.
Proof.
  unfold without. induction l as [| j l IH]; [done |]. intros [Hj Hl]%not_elem_of_cons.
  rewrite filter_cons_True by done. by rewrite IH.
Qed.

Lemma without_app k l1 l2 : without k (l1 ++ l2) = without k l1 ++ without k l2.
Proof. apply filter_app. Qed.

Lemma without_mid k l1 l2 : NoDup (l1 ++ k :: l2) -> without k (l1 ++ k :: l2) = l1 ++ l2.
Proof.
  intros (_ & Hd & [Hk _]%NoDup_cons)%NoDup_app. rewrite without_app.
  assert (k ∉ l1) by (intros Hin; apply (Hd k Hin); left).
  rewrite without_absent by done. f_equal. unfold without. rewrite filter_cons_False by naive_solver.
  by apply without_absent.
Qed.

Lemma without_elem k l j : j ∈ without k l <-> j <> k /\ j ∈ l.
Proof. unfold without. by rewrite list_elem_of_filter. Qed.

Lemma without_first k l : k <> first EMPTY l -> first EMPTY (without k l) = first EMPTY l.
Proof. destruct l as [| j l]; [done |]. intros Hk. unfold without. by rewrite filter_cons_True. Qed.

Lemma split_unique (k : Z) l1 l2 l1' l2' :
  NoDup (l1 ++ k :: l2) -> l1 ++ k :: l2 = l1' ++ k :: l2' -> l1 = l1' /\ l2 = l2'.
Proof.
  revert l1'. induction l1 as [| j l1 IH]; intros [| j' l1'] Hnd; cbn [app] in *.
  - by intros [= ->].
  - intros [= <- Heq]. apply NoDup_cons in Hnd as [Hk _]. destruct Hk. rewrite Heq. apply elem_of_app. right. left.
  - intros [= -> Heq]. apply NoDup_cons in Hnd as [Hk _]. destruct Hk. apply elem_of_app. right. left.
  - intros [= -> Heq]. apply NoDup_cons in Hnd as [_ Hnd]. by destruct (IH l1' Hnd Heq) as [-> ->].
Qed.

Lemma empty_not_in r t L before rest i : wheel_ok r t L before rest -> EMPTY ∉ L i.
Proof.
  intros Hw Hin. destruct (wo_member _ _ _ _ _ Hw i EMPTY Hin) as (e & He & _).
  pose proof (wo_keys _ _ _ _ _ Hw _ _ He). lia.
Qed.

(** Where an entry is, and its neighbours. *)
Lemma locate r t L before rest k e :
  wheel_ok r t L before rest -> ent t !! k = Some e ->
  exists l1 l2, L (slot_for t (l_tick (e_links e))) = l1 ++ k :: l2 /\
    l_prev (e_links e) = final EMPTY l1 /\ l_next (e_links e) = first EMPTY l2.
Proof.
  intros Hw He. pose proof (wo_place _ _ _ _ _ Hw k e He) as Hin.
  destruct (wo_due _ _ _ _ _ Hw k e He) as [[Hlo _] _]. pose proof (wo_tick _ _ _ _ _ Hw).
  destruct (slot_lookup t L r before rest (l_tick (e_links e)) Hw ltac:(lia)) as (w & _ & _ & Hs).
  apply list_elem_of_split in Hin as (l1 & l2 & Heq). exists l1, l2. split; [done |]. rewrite Heq in Hs.
  apply seg_app in Hs as [_ Hs]. cbn [seg] in Hs. destruct Hs as [(s & i & Hk) _]. rewrite He in Hk.
  injection Hk as ->. done.
Qed.

Lemma timing_lookup m m' j e' :
  timing <$> m' = timing <$> m -> m' !! j = Some e' -> exists e, m !! j = Some e /\ timing e = timing e'.
Proof.
  intros Heq Hj. apply (f_equal (fun x => x !! j)) in Heq. cbn beta in Heq. rewrite !lookup_fmap, Hj in Heq.
  destruct (m !! j) as [e |]; [| done]. exists e. split; [done |]. cbn in Heq. congruence.
Qed.

Lemma timing_tick e e' : timing e = timing e' -> l_tick (e_links e) = l_tick (e_links e').
Proof. unfold timing. by intros [= ->]. Qed.

(** The wheel after an entry was taken out. *)
Section Removed.
Context (r : bool) (t t' : Timer T) (L : nat -> list Z) (before rest : list Z) (k : Z) (e : Entry T)
  (l1 l2 : list Z).
Let i : nat := slot_for t (l_tick (e_links e)).
Hypothesis Hw : wheel_ok r t L before rest.
Hypothesis He : ent t !! k = Some e.
Hypothesis Hl : L i = l1 ++ k :: l2.
Hypothesis Hclock : same_clock t t'.
Hypothesis Hent : ent t' = delete k (relink (ent t) (final EMPTY l1) (first EMPTY l2)).
Hypothesis Hwheel : wheel t' =
  if final EMPTY l1 =? EMPTY
  then alter (fun w => mkWheelEntry (we_next_tick w) (first EMPTY l2)) i (wheel t) else wheel t.
Hypothesis Hnext : next t' = if k =? next t then first EMPTY l2 else next t.

Lemma removed_slot j : slot_for t' j = slot_for t j.
Proof. unfold slot_for. by rewrite (proj2 Hclock). Qed.

Lemma removed_entry j e' :
  ent t' !! j = Some e' -> j <> k /\ exists e0, ent t !! j = Some e0 /\ l_tick (e_links e0) = l_tick (e_links e').
Proof.
  rewrite Hent. intros [Hj Hr]%lookup_delete_Some. split; [done |].
  destruct (timing_lookup (ent t) _ j e' (relink_timing _ _ _) Hr) as (e0 & He0 & Ht%timing_tick). by exists e0.
Qed.

Lemma kept_entry j e0 :
  j <> k -> ent t !! j = Some e0 -> exists e', ent t' !! j = Some e' /\ l_tick (e_links e') = l_tick (e_links e0).
Proof.
  intros Hj He0. rewrite Hent. setoid_rewrite lookup_delete_ne; [| done].
  destruct (timing_lookup (relink (ent t) (final EMPTY l1) (first EMPTY l2)) (ent t) j e0) as (e' & He' & Ht%timing_tick);
    [by rewrite relink_timing | done |]. by exists e'.
Qed.

Lemma removed_other j : j <> i -> without k (L j) = L j.
Proof.
  intros Hj. apply without_absent. intros Hin. destruct (wo_member _ _ _ _ _ Hw j k Hin) as (e0 & He0 & Hs).
  rewrite He in He0. injection He0 as <-. done.
Qed.

Lemma removed_here : without k (L i) = l1 ++ l2.
Proof. rewrite Hl. apply without_mid. rewrite <- Hl. apply Hw. Qed.

Lemma removed_wheel j w' :
  wheel t' !! j = Some w' -> exists w, wheel t !! j = Some w /\ we_next_tick w' = we_next_tick w /\
    we_head w' = if (final EMPTY l1 =? EMPTY) && bool_decide (j = i) then first EMPTY l2 else we_head w.
Proof.
  rewrite Hwheel. destruct (final EMPTY l1 =? EMPTY); cbn [andb]; [| by exists w'].
  destruct (decide (i = j)) as [<- | Hne].
  - rewrite list_lookup_alter_eq, bool_decide_true by done. destruct (wheel t !! i) as [w |]; [| done].
    intros [= <-]. by exists w.
  - rewrite list_lookup_alter_ne by done. rewrite bool_decide_false by done. by exists w'.
Qed.

Lemma removed_list j w' :
  wheel t' !! j = Some w' -> we_head w' = first EMPTY (without k (L j)) /\ seg (ent t') EMPTY (without k (L j)) EMPTY.
Proof.
  intros (w & Hwj & _ & Hh)%removed_wheel. destruct (wo_list _ _ _ _ _ Hw j w Hwj) as [Hhead Hseg].
  pose proof (empty_not_in _ _ _ _ _ i Hw) as Hem.
  destruct (decide (j = i)) as [-> | Hne].
  - rewrite removed_here, Hent. rewrite Hl in *. split.
    + rewrite Hh, Hhead, bool_decide_true, andb_true_r by done.
      rewrite final_empty by (intros Hin; apply Hem, elem_of_app; by left). by destruct l1.
    + apply relink_seg; [done | | done]. rewrite <- Hl. apply Hw.
  - rewrite removed_other by done. rewrite bool_decide_false, andb_false_r in Hh by done. split; [congruence |].
    eapply seg_frame; [| exact Hseg]. intros j' Hj'.
    assert (Hout : j' ∉ L i).
    { intros Hin. destruct (wo_member _ _ _ _ _ Hw i j' Hin) as (? & Ha & Hs1).
      destruct (wo_member _ _ _ _ _ Hw j j' Hj') as (? & Hb & Hs2). congruence. }
    assert (Hne' : j' <> EMPTY) by (intros ->; by eapply empty_not_in).
    rewrite Hl in Hout. apply not_elem_of_app in Hout as [Ho1 [Ho2 Ho3]%not_elem_of_cons].
    rewrite Hent, lookup_delete_ne by done. apply relink_other; intros ->.
    + destruct (decide (l1 = [])) as [Hl1 | Hl1]; [by rewrite Hl1 in Hne' |]. by apply Ho1, final_in.
    + destruct (decide (l2 = [])) as [Hl2 | Hl2]; [by rewrite Hl2 in Hne' |]. by apply Ho3, first_in.
Qed.

Lemma removed_next : next t' = first EMPTY (without k rest).
Proof.
  destruct (wo_cursor _ _ _ _ _ Hw) as [Hcur Hx]. rewrite Hnext. destruct (Z.eqb_spec k (next t)) as [Hk | Hk].
  - destruct rest as [| x rest']; [pose proof (wo_keys _ _ _ _ _ Hw k e He); cbn in Hx; lia |].
    cbn in Hx. assert (x = k) as -> by congruence.
    assert (Hi : slot_for t (tick t) = i).
    { destruct (wo_member _ _ _ _ _ Hw (slot_for t (tick t)) k) as (e0 & He0 & Hs);
        [rewrite Hcur; apply elem_of_app; right; left |]. rewrite He in He0. injection He0 as <-. done. }
    rewrite Hi, Hl in Hcur. pose proof (wo_nodup _ _ _ _ _ Hw i) as Hnd. rewrite Hl in Hnd.
    destruct (split_unique k _ _ _ _ Hnd Hcur) as [<- <-].
    apply NoDup_app in Hnd as (_ & _ & [Hkl _]%NoDup_cons).
    pose proof (without_absent k l2 Hkl) as Hwo. unfold without in *. rewrite filter_cons_False by naive_solver.
    by rewrite Hwo.
  - rewrite without_first; [done |]. congruence.
Qed.

Lemma removed_ok : wheel_ok r t' (fun j => without k (L j)) (without k before) (without k rest).
Proof.
  pose proof Hw as [Hmask Htick Hkeys Hplace Hmem Hnd Hlist [Hcur Hx] Hdue Hearly]. destruct Hclock as [Hk Hm].
  split.
  - destruct Hmask as (b & ? & ? & Hlen). exists b. rewrite Hm. split; [done |]. split; [done |].
    rewrite Hwheel. destruct (_ =? _); [by rewrite length_alter | done].
  - by rewrite Hk.
  - intros j e' (_ & e0 & He0 & _)%removed_entry. by eapply Hkeys.
  - intros j e' (Hj & e0 & He0 & <-)%removed_entry. rewrite removed_slot. apply without_elem. split; [done |]. by apply Hplace.
  - intros j k' [Hk' Hin]%without_elem. destruct (Hmem j k' Hin) as (e0 & He0 & Hs).
    destruct (kept_entry k' e0 Hk' He0) as (e' & He' & Ht). exists e'. split; [done |]. by rewrite removed_slot, Ht.
  - intros j. by apply NoDup_filter.
  - exact removed_list.
  - rewrite removed_slot, Hk, Hcur, without_app. split; [done | exact removed_next].
  - intros j e' (Hj & e0 & He0 & <-)%removed_entry. rewrite Hk. destruct (Hdue j e0 He0) as [? Hd]. split; [done |].
    intros. apply without_elem. auto.
  - intros j w' k' e' (w & Hwj & -> & _)%removed_wheel [Hk' Hin]%without_elem (_ & e0 & He0 & <-)%removed_entry Hc.
    apply (Hearly j w k' e0); [done | done | done |]. intros Hj Hr. rewrite removed_slot, Hk in Hc.
    by apply (without_elem k before k'), Hc.
Qed.
End Removed.

Lemma remove_spec r t L before rest k e :
  wheel_ok r t L before rest -> ent t !! k = Some e ->
  exists t', (t1 ← unlink t (e_links e) k; take_entry t1 k) = Val (t', e_state e) /\ same_clock t t' /\
    pending t' = delete k (pending t) /\
    wheel_ok r t' (fun i => without k (L i)) (without k before) (without k rest).
Proof.
  intros Hw He. pose proof Hw as [Hmask Htick Hkeys Hplace Hmem Hnd Hlist [Hcur Hnext] Hdue Hearly].
  destruct (locate _ _ _ _ _ _ _ Hw He) as (l1 & l2 & Hl & Hp & Hn).
  set (i := slot_for t (l_tick (e_links e))) in *.
  pose proof (Hnd i) as Hndi. rewrite Hl in Hndi.
  pose proof (empty_not_in _ _ _ _ _ i Hw) as Hem. rewrite Hl in Hem.
  assert (Hin : forall j, j ∈ l1 ++ k :: l2 -> is_Some (ent t !! j)).
  { intros j Hj. rewrite <- Hl in Hj. destruct (Hmem i j Hj) as (? & -> & _). done. }
  assert (Hpin : l_prev (e_links e) <> EMPTY -> l_prev (e_links e) ∈ l1).
  { rewrite Hp. intros Hne. apply final_in. by intros ->. }
  assert (Hnin : l_next (e_links e) <> EMPTY -> l_next (e_links e) ∈ l2).
  { rewrite Hn. intros Hne. apply first_in. by intros ->. }
  destruct (Hdue k e He) as [[Hlo Hhi] _].
  destruct (unlink_Val t (e_links e) k) as (t1 & Hun & [Hk1 Hm1] & He1 & Hw1 & Hx1).
  { intros Hne. apply Hin, elem_of_app. left. auto. }
  { intros Hne. apply Hin, elem_of_app. right. right. auto. }
  { by eapply slot_bound; [| lia]. }
  apply NoDup_app in Hndi as (Hn1 & Hdis & [Hk2 Hn2]%NoDup_cons).
  assert (Hkk : ent t1 !! k = Some e).
  { rewrite He1, relink_other; [done | |]; intros Heq.
    - apply (Hdis k); [| left]. rewrite Heq at 1. apply Hpin. intros Hemp. pose proof (Hkeys k e He). lia.
    - apply Hk2. rewrite Heq at 1. apply Hnin. intros Hemp. pose proof (Hkeys k e He). lia. }
  rewrite Hun. cbn [mbind outcome_bind]. unfold take_entry. rewrite (entry_at_Val t1 k e Hkk).
  cbn [mbind outcome_bind]. eexists. split; [done |]. split; [done |].
  set (t' := with_entries t1 _).
  assert (Hent : ent t' = delete k (relink (ent t) (l_prev (e_links e)) (l_next (e_links e)))).
  { unfold ent, t'. cbn [entries with_entries]. rewrite law_slab_remove. fold (ent t1). by rewrite He1. }
  assert (Hpend : pending t' = delete k (pending t))
    by (unfold pending; rewrite Hent, fmap_delete, relink_timing; done).
  split; [done |]. rewrite Hp, Hn in *. by apply (removed_ok r t t' L before rest k e l1 l2).
Qed.

(** ** Adding an entry *)

(** The first entry of [l] with the predecessor [token]. *)
Definition preceded m (token : Z) l : gmap Z (Entry T) :=
  if decide (l = []) then m else alter (re_prev token) (first EMPTY l) m.

Section Inserted.
Context (r : bool) (t t' : Timer T) (L : nat -> list Z) (before rest : list Z) (token k : Z) (state : T)
  (w : WheelEntry).
Let i : nat := slot_for t k.
Hypothesis Hw : wheel_ok r t L before rest.
Hypothesis Hk : tick t < k <= U64_MAX.
Hypothesis Htok : ent t !! token = None.
Hypothesis Hrange : 0 <= token < EMPTY.
Hypothesis Hslot : wheel t !! i = Some w.
Hypothesis Hclock : same_clock t t'.
Hypothesis Hent : ent t' =
  <[token := entry_new state k (first EMPTY (L i))]>
    (preceded (ent t) token (L i)).
Hypothesis Hwheel : wheel t' = <[i := mkWheelEntry (Z.min k (we_next_tick w)) token]> (wheel t).
Hypothesis Hnext : next t' = next t.

Definition lists_with (j : nat) : list Z := if decide (j = i) then token :: L j else L j.
Definition before_with : list Z := if decide (slot_for t (tick t) = i) then token :: before else before.

Lemma inserted_fresh j : token ∉ L j.
Proof. intros Hin. destruct (wo_member _ _ _ _ _ Hw j token Hin) as (e & He & _). congruence. Qed.

Lemma inserted_elem j k' : k' ∈ lists_with j <-> k' ∈ L j \/ (j = i /\ k' = token).
Proof. unfold lists_with. case_decide; rewrite ?elem_of_cons; tauto. Qed.

Lemma inserted_timing : timing <$> ent t' = <[token := (k, state)]> (pending t).
Proof.
  rewrite Hent, fmap_insert. f_equal. unfold preceded, pending. case_decide; [done |].
  apply map_eq. intros j. rewrite !lookup_fmap. destruct (decide (first EMPTY (L i) = j)) as [<- | Hne].
  - rewrite lookup_alter_eq. by destruct (ent t !! first EMPTY (L i)).
  - by rewrite lookup_alter_ne.
Qed.

Lemma inserted_entry j e' :
  ent t' !! j = Some e' ->
  (j = token /\ l_tick (e_links e') = k) \/
  (j <> token /\ exists e, ent t !! j = Some e /\ l_tick (e_links e) = l_tick (e_links e')).
Proof.
  intros He. pose proof (f_equal (fun x => x !! j) inserted_timing) as Ht. cbn beta in Ht. rewrite lookup_fmap, He in Ht.
  destruct (decide (j = token)) as [-> | Hne].
  - left. rewrite lookup_insert_eq in Ht. cbn in Ht. by injection Ht.
  - right. split; [done |]. rewrite lookup_insert_ne in Ht by done. symmetry in Ht.
    apply pending_lookup in Ht as (e & He0 & Ht%timing_tick). by exists e.
Qed.

Lemma inserted_kept j e :
  ent t !! j = Some e -> exists e', ent t' !! j = Some e' /\ l_tick (e_links e') = l_tick (e_links e).
Proof.
  intros He. assert (Hj : token <> j) by (intros ->; congruence). rewrite Hent.
  setoid_rewrite lookup_insert_ne; [| done]. unfold preceded. case_decide; [by exists e |].
  destruct (decide (first EMPTY (L i) = j)) as [<- | Hne].
  - rewrite lookup_alter_eq, He. by eexists.
  - rewrite lookup_alter_ne by done. by exists e.
Qed.

Lemma inserted_wheel j w' :
  wheel t' !! j = Some w' ->
  (j = i /\ w' = mkWheelEntry (Z.min k (we_next_tick w)) token) \/ (j <> i /\ wheel t !! j = Some w').
Proof.
  rewrite Hwheel. destruct (decide (i = j)) as [<- | Hne].
  - rewrite list_lookup_insert_eq by (by eapply lookup_lt_Some). intros [= <-]. by left.
  - rewrite list_lookup_insert_ne by done. by right.
Qed.

Lemma inserted_list j w' :
  wheel t' !! j = Some w' -> we_head w' = first EMPTY (lists_with j) /\ seg (ent t') EMPTY (lists_with j) EMPTY.
Proof.
  pose proof (inserted_fresh j) as Hfr. unfold lists_with. intros [[-> ->] | [Hj Hwj]]%inserted_wheel.
  - destruct (wo_list _ _ _ _ _ Hw i w Hslot) as [Hh Hs]. rewrite decide_True by done. split; [done |]. cbn [seg].
    rewrite Hent, lookup_insert_eq. split; [by eexists _, _ |].
    pose proof (seg_alter_first (ent t) EMPTY (L i) EMPTY token Hs (wo_nodup _ _ _ _ _ Hw i)) as Ha.
    eapply seg_frame; [| exact Ha]. intros j Hj. apply lookup_insert_ne. by intros ->.
  - destruct (wo_list _ _ _ _ _ Hw j w' Hwj) as [Hh Hs]. rewrite decide_False by done. split; [done |].
    eapply seg_frame; [| exact Hs]. intros j' Hj'. rewrite Hent, lookup_insert_ne by (by intros ->).
    unfold preceded. case_decide as Hne; [done |]. apply lookup_alter_ne. intros <-.
    destruct (wo_member _ _ _ _ _ Hw i _ (first_in EMPTY _ Hne)) as (? & Ha & Hs1).
    destruct (wo_member _ _ _ _ _ Hw j _ Hj') as (? & Hb & Hs2). congruence.
Qed.

Lemma inserted_ok : wheel_ok r t' lists_with before_with rest.
Proof.
  pose proof Hw as [Hmask Htick Hkeys Hplace Hmem Hnd Hlist [Hcur Hx] Hdue Hearly]. destruct Hclock as [Hkk Hm].
  assert (Hsl : forall j, slot_for t' j = slot_for t j) by (intros j; unfold slot_for; by rewrite Hm).
  split.
  - destruct Hmask as (b & ? & ? & Hlen). exists b. rewrite Hm, Hwheel, length_insert. done.
  - by rewrite Hkk.
  - intros j e' [[-> _] | (_ & e & He & _)]%inserted_entry; [done | by eapply Hkeys].
  - intros j e' He. rewrite Hsl. apply inserted_elem.
    apply inserted_entry in He as [[-> ->] | (_ & e & He & <-)]; [by right | left; by apply Hplace].
  - intros j k' [Hin | [-> ->]]%inserted_elem.
    + destruct (Hmem j k' Hin) as (e & He & Hs). destruct (inserted_kept k' e He) as (e' & He' & Ht).
      exists e'. split; [done |]. by rewrite Hsl, Ht.
    + exists (entry_new state k (first EMPTY (L i))). rewrite Hent, lookup_insert_eq. split; [done |]. by rewrite Hsl.
  - intros j. unfold lists_with. case_decide; [| done]. constructor; [apply inserted_fresh | done].
  - exact inserted_list.
  - rewrite Hsl, Hkk, Hnext. unfold lists_with, before_with. split; [| done]. case_decide; [by rewrite Hcur | done].
  - intros j e' He. rewrite Hkk. apply inserted_entry in He as [[-> ->] | (_ & e & He & <-)]; [lia | by apply Hdue].
  - intros j w' k' e' Hwj Hin He Hc. rewrite Hsl, Hkk in Hc.
    apply inserted_entry in He as [[-> Ht] | (Hne & e & He & <-)].
    + apply inserted_elem in Hin as [Hin | [-> _]]; [by apply inserted_fresh in Hin |].
      apply inserted_wheel in Hwj as [[_ ->] | [? _]]; [cbn; lia | done].
    + apply inserted_elem in Hin as [Hin | [_ ->]]; [| done].
      assert (Hb : j = slot_for t (tick t) -> r = false -> k' ∈ before).
      { intros Hj Hr. specialize (Hc Hj Hr). unfold before_with in Hc. case_decide; [| done].
        by apply elem_of_cons in Hc as [-> | Hc]. }
      apply inserted_wheel in Hwj as [[-> ->] | [_ Hwj]]; cbn [we_next_tick].
      * pose proof (Hearly i w k' e Hslot Hin He Hb). lia.
      * by eapply Hearly.
Qed.
End Inserted.

(** The number of entries that fit in memory. *)
Definition room t : Prop := Z.of_nat (size (pending t)) < 2 ^ 63.

Lemma insert_spec r t L before rest k state :
  wheel_ok r t L before rest -> tick t < k <= U64_MAX -> room t ->
  exists t' token L' before', timer_insert t k state = Val (t', mkTimeout token k) /\ same_clock t t' /\
    pending t !! token = None /\ pending t' = <[token := (k, state)]> (pending t) /\
    wheel_ok r t' L' before' rest.
Proof.
  intros Hw Hk Hroom. pose proof (wo_tick _ _ _ _ _ Hw) as Htick.
  destruct (slot_lookup t L r before rest k Hw ltac:(lia)) as (w & Hslot & Hhead & Hseg).
  unfold timer_insert, index. rewrite Hslot. cbn [mbind outcome_bind]. set (e := entry_new _ _ _).
  unfold room, pending in Hroom. rewrite map_size_fmap in Hroom.
  destruct (law_slab_insert _ (entries t) e Hroom) as (Hfree & Hrange & Hins).
  destruct (slab_insert (entries t) e) as [es token]. cbn [fst snd] in *.
  set (i := slot_for t k) in *. set (t1 := with_entries t es).
  assert (He1 : ent t1 = <[token := e]> (ent t)) by exact Hins.
  assert (H2 : exists t2, (if we_head w =? EMPTY then Val t1 else set_prev t1 (we_head w) token) = Val t2 /\
    same_clock t t2 /\ wheel t2 = wheel t /\ next t2 = next t /\
    ent t2 = <[token := e]> (preceded (ent t) token (L i))).
  { rewrite Hhead, first_empty by (by eapply empty_not_in). unfold preceded. case_bool_decide as Hnil.
    - rewrite decide_True by done. by exists t1.
    - rewrite decide_False by done. pose proof (first_in EMPTY (L i) Hnil) as Hin.
      destruct (wo_member _ _ _ _ _ Hw i _ Hin) as (e0 & He0 & _).
      assert (Hne : token <> first EMPTY (L i)) by (intros Heq; unfold ent in He0; rewrite <- Heq in He0; congruence).
      unfold set_prev, set_links. rewrite (entry_at_Val t1 _ e0) by (by rewrite He1, lookup_insert_ne).
      cbn [mbind outcome_bind]. eexists. split; [done |]. split; [done |]. split; [done |]. split; [done |].
      rewrite ent_update, He1. fold (re_prev token e0).
      rewrite <- (alter_insert_map (ent t) _ (re_prev token) e0 He0). by apply insert_insert_ne. }
  destruct H2 as (t2 & -> & Hc2 & Hw2 & Hx2 & He2). cbn [mbind outcome_bind].
  rewrite (set_wheel_Val t2 i _ w) by (by rewrite Hw2). cbn [mbind outcome_bind]. rewrite Hw2.
  eexists _, token, (lists_with t L token k), (before_with t before token k). split; [done |]. split; [done |].
  set (t3 := with_wheel t2 _).
  assert (He3 : ent t3 = <[token := entry_new state k (first EMPTY (L i))]>
    (preceded (ent t) token (L i)))
    by (rewrite <- Hhead; exact He2).
  split; [unfold pending; rewrite lookup_fmap; unfold ent; by rewrite Hfree |].
  split; [by apply (inserted_timing t t3 L token k state) |].
  by eapply inserted_ok.
Qed.

(** ** Polling *)

(** The same lists, another cursor or other ticks of the slots. *)
Lemma recast r r' t t' L before rest before' rest' :
  wheel_ok r t L before rest -> mask t' = mask t -> ent t' = ent t -> length (wheel t') = length (wheel t) ->
  (forall j w', wheel t' !! j = Some w' -> exists w, wheel t !! j = Some w /\ we_head w' = we_head w) ->
  0 <= tick t' -> L (slot_for t (tick t')) = before' ++ rest' /\ next t' = first EMPTY rest' ->
  (forall k e, ent t !! k = Some e ->
     tick t' <= l_tick (e_links e) <= U64_MAX /\ (l_tick (e_links e) = tick t' -> k ∈ rest')) ->
  (forall j w' k e, wheel t' !! j = Some w' -> k ∈ L j -> ent t !! k = Some e ->
     (j = slot_for t (tick t') -> r' = false -> k ∈ before') -> we_next_tick w' <= l_tick (e_links e)) ->
  wheel_ok r' t' L before' rest'.
Proof.
  intros [Hmask Htick Hkeys Hplace Hmem Hnd Hlist _ _ _] Hm He Hlen Hh Hk Hc Hd Hea.
  assert (Hsl : forall j, slot_for t' j = slot_for t j) by (intros j; unfold slot_for; by rewrite Hm).
  split; rewrite ?He, ?Hm; try done.
  - by rewrite Hlen.
  - intros k e Hke. rewrite Hsl. by apply Hplace.
  - intros j k Hin. destruct (Hmem j k Hin) as (e & ? & ?). exists e. by rewrite Hsl.
  - intros j w' Hw'. destruct (Hh j w' Hw') as (w & Hw & ->). by apply Hlist.
  - by rewrite Hsl.
  - intros j w' k e Hw' Hin Hke. rewrite Hsl. by apply Hea.
Qed.

(** The tick of a slot, rewritten. *)
Lemma retick_lookup t i x w j w' :
  wheel t !! i = Some w -> <[i := mkWheelEntry x (we_head w)]> (wheel t) !! j = Some w' ->
  exists w0, wheel t !! j = Some w0 /\ we_head w' = we_head w0 /\
    we_next_tick w' = if decide (j = i) then x else we_next_tick w0.
Proof.
  intros Hw. destruct (decide (i = j)) as [<- | Hne].
  - rewrite list_lookup_insert_eq by (by eapply lookup_lt_Some). intros [= <-]. exists w. by rewrite decide_True.
  - rewrite list_lookup_insert_ne by done. intros Hj. exists w'. by rewrite decide_False.
Qed.

(** To the next tick, when the cursor is at the end of its slot. *)
Lemma advance_spec r t L before :
  wheel_ok r t L before [] -> tick t < U64_MAX ->
  let k := tick t + 1 in
  exists w t', wheel t !! slot_for t k = Some w /\
    (let t1 := with_next (with_tick t k) (we_head w) in
     if next t1 =? EMPTY then set_wheel t1 (slot_for t k) (mkWheelEntry TICK_MAX (we_head w)) else Val t1) = Val t' /\
    tick t' = k /\ mask t' = mask t /\ pending t' = pending t /\
    wheel_ok true t' L [] (L (slot_for t k)).
Proof.
  intros Hw Hlt k. pose proof Hw as [_ Htick _ Hplace _ _ _ [Hcur _] Hdue Hearly].
  assert (Hd : forall j e, ent t !! j = Some e ->
    k <= l_tick (e_links e) <= U64_MAX /\ (l_tick (e_links e) = k -> j ∈ L (slot_for t k))).
  { intros j e He. destruct (Hdue j e He) as [? Hr]. assert (l_tick (e_links e) <> tick t)
      by (intros Heq; by apply Hr, not_elem_of_nil in Heq). split; [lia |]. intros <-. by apply Hplace. }
  assert (Hea : forall j w0 k' e, wheel t !! j = Some w0 -> k' ∈ L j -> ent t !! k' = Some e ->
    we_next_tick w0 <= l_tick (e_links e)).
  { intros j w0 k' e Hj Hin He. apply (Hearly j w0 k' e); try done. intros -> _. by rewrite Hcur, app_nil_r in Hin. }
  destruct (slot_lookup t L r before [] k Hw ltac:(lia)) as (w & Hlk & Hhead & _).
  exists w. cbn zeta. change (next (with_next _ (we_head w))) with (we_head w).
  assert ((we_head w =? EMPTY) = bool_decide (L (slot_for t k) = [])) as ->
    by (rewrite Hhead; apply first_empty; by eapply empty_not_in).
  case_bool_decide as Hnil.
  - rewrite (set_wheel_Val (with_next (with_tick t k) (we_head w)) _ _ w Hlk). eexists. split; [done |]. split; [done |]. cbn. do 3 (split; [done |]).
    eapply (recast r true t _ L before [] [] _ Hw); cbn; [done | done | by rewrite length_insert | | lia | | done |].
    + intros j w' Hw'. destruct (retick_lookup _ _ _ _ _ _ Hlk Hw') as (w0 & ? & ? & _). by exists w0.
    + by split.
    + intros j w' k' e Hw' Hin He _.
      destruct (retick_lookup _ _ _ _ _ _ Hlk Hw') as (w0 & Hj & _ & ->). case_decide as Hji; [| by eapply Hea].
      subst j. rewrite Hnil in Hin. by apply not_elem_of_nil in Hin.
  - eexists. split; [done |]. split; [done |]. cbn. do 3 (split; [done |]).
    eapply (recast r true t _ L before [] [] _ Hw); cbn; [done | done | done | | lia | | done |].
    + intros j w' Hw'. by exists w'.
    + by split.
    + intros j w' k' e Hw' Hin He _. by eapply Hea.
Qed.

(** The entry at the cursor: the tick of its slot is forgotten when it is the
    head. *)
Lemma visit_head r t L before curr rest :
  wheel_ok r t L before (curr :: rest) ->
  let slot := slot_for t (tick t) in
  exists w t', wheel t !! slot = Some w /\
    (if curr =? we_head w then set_wheel t slot (mkWheelEntry TICK_MAX (we_head w)) else Val t) = Val t' /\
    same_clock t t' /\ ent t' = ent t /\ exists r', wheel_ok r' t' L before (curr :: rest).
Proof.
  intros Hw slot. pose proof Hw as [_ Htick _ _ _ Hnd _ Hcursor Hdue Hearly].
  destruct (slot_lookup t L r before (curr :: rest) (tick t) Hw Htick) as (w & Hlk & Hhead & _).
  exists w. destruct (Z.eqb_spec curr (we_head w)) as [Heq | Hne].
  2: { exists t. split; [done |]. split; [done |]. split; [done |]. split; [done |]. by exists r. }
  rewrite (set_wheel_Val t slot _ w Hlk). eexists. split; [done |]. split; [done |]. split; [done |].
  split; [done |]. exists false.
  assert (Hb : before = []).
  { destruct before as [| b before]; [done |]. exfalso. destruct Hcursor as [Hcur _]. specialize (Hnd slot).
    rewrite Hhead in Heq. fold slot in Heq, Hcur. rewrite Hcur in Heq, Hnd. cbn in Heq, Hnd. subst b.
    apply NoDup_cons in Hnd as [Hb _]. apply Hb, elem_of_app. right. left. }
  eapply (recast r false t _ L before (curr :: rest) before (curr :: rest) Hw); cbn;
    [done | done | by rewrite length_insert | | done | done | done |].
  - intros j w' Hw'. destruct (retick_lookup _ _ _ _ _ _ Hlk Hw') as (w0 & ? & ? & _). by exists w0.
  - intros j w' k e Hw' Hin He Hc. destruct (retick_lookup _ _ _ _ _ _ Hlk Hw') as (w0 & Hj & _ & ->).
    case_decide as Hji; [| apply (Hearly j w0 k e); try done; intros ->; done].
    specialize (Hc Hji eq_refl). rewrite Hb in Hc. by apply not_elem_of_nil in Hc.
Qed.

(** Past an entry of a later turn of the wheel. *)
Lemma visit_later r t L before curr rest e w :
  wheel_ok r t L before (curr :: rest) -> ent t !! curr = Some e -> tick t < l_tick (e_links e) ->
  let slot := slot_for t (tick t) in
  wheel t !! slot = Some w ->
  exists t', set_wheel t slot (mkWheelEntry (Z.min (we_next_tick w) (l_tick (e_links e))) (we_head w)) = Val t' /\
    let t2 := with_next t' (l_next (e_links e)) in
    same_clock t t2 /\ ent t2 = ent t /\ wheel_ok r t2 L (before ++ [curr]) rest.
Proof.
  intros Hw He Hlt slot Hlk. pose proof Hw as [_ Htick _ _ Hmem Hnd _ [Hcur Hx] Hdue Hearly].
  rewrite (set_wheel_Val t slot _ w Hlk). eexists. split; [done |]. cbv zeta. split; [done |]. split; [done |].
  assert (Hnx : l_next (e_links e) = first EMPTY rest).
  { destruct (locate _ _ _ _ _ _ _ Hw He) as (l1 & l2 & Hl & _ & ->).
    assert (Hs : slot_for t (l_tick (e_links e)) = slot).
    { destruct (Hmem slot curr) as (e0 & He0 & Hs0); [fold slot in Hcur; rewrite Hcur; apply elem_of_app; right; left |].
      rewrite He in He0. by injection He0 as <-. }
    rewrite Hs in Hl. fold slot in Hcur. rewrite Hl in Hcur. specialize (Hnd slot). rewrite Hl in Hnd.
    by destruct (split_unique curr _ _ _ _ Hnd Hcur) as [_ ->]. }
  eapply (recast r r t _ L before (curr :: rest) (before ++ [curr]) rest Hw); cbn;
    [done | done | by rewrite length_insert | | done | | |].
  - intros j w' Hw'. destruct (retick_lookup _ _ _ _ _ _ Hlk Hw') as (w0 & ? & ? & _). by exists w0.
  - split; [by rewrite <- app_assoc | done].
  - intros k e' He'. destruct (Hdue k e' He') as [? Hr]. split; [done |]. intros Heq.
    destruct (elem_of_cons rest k curr) as [[-> | Hin] _]; [by apply Hr | | done]. rewrite He in He'. injection He' as <-. lia.
  - intros j w' k e' Hw' Hin He' Hc. destruct (retick_lookup _ _ _ _ _ _ Hlk Hw') as (w0 & Hj & _ & ->).
    destruct (decide (k = curr)) as [-> | Hk].
    { rewrite He in He'. injection He' as <-. destruct (Hmem j curr Hin) as (e0 & He0 & Hs). rewrite He in He0.
      injection He0 as <-. case_decide as Hji; [lia |]. destruct Hji. rewrite <- Hs.
      destruct (Hmem slot curr) as (e0 & He0 & Hs0); [fold slot in Hcur; rewrite Hcur; apply elem_of_app; right; left |].
      rewrite He in He0. by injection He0 as <-. }
    assert (Hold : we_next_tick w0 <= l_tick (e_links e')).
    { apply (Hearly j w0 k e'); try done. intros Hji Hr. specialize (Hc Hji Hr).
      apply elem_of_app in Hc as [? | Hc%list_elem_of_singleton]; done. }
    case_decide as Hji; [| done]. subst j. fold slot in Hlk. rewrite Hlk in Hj. injection Hj as <-. lia.
Qed.

(** What a poll up to [target] returns: nothing when nothing is due by then,
    and otherwise a timeout that no pending one comes before. *)
Definition polled (target : Z) t t' (o : option T) : Prop :=
  match o with
  | None =>
      pending t' = pending t /\ tick t' = target + 1 /\
      forall k tk s, pending t !! k = Some (tk, s) -> target < tk
  | Some s =>
      exists k tk, pending t !! k = Some (tk, s) /\ tk <= target /\ tick t' = tk /\
        (forall k' tk' s', pending t !! k' = Some (tk', s') -> tk <= tk') /\ pending t' = delete k (pending t)
  end.

Lemma length_dom {A} (m : gmap Z A) l : NoDup l -> (forall k, k ∈ l -> is_Some (m !! k)) -> (length l <= size m)%nat.
Proof.
  intros Hnd Hl. rewrite <- size_dom, <- (size_list_to_set (C := gset Z) l) by done. apply subseteq_size.
  intros k Hk%elem_of_list_to_set. by apply elem_of_dom, Hl.
Qed.

Lemma list_length r t L before rest i : wheel_ok r t L before rest -> (length (L i) <= size (ent t))%nat.
Proof.
  intros Hw. apply length_dom; [apply Hw |]. intros k Hk.
  destruct (wo_member _ _ _ _ _ Hw i k Hk) as (e & -> & _). done.
Qed.

Lemma pending_ticks r t L before rest k tk s :
  wheel_ok r t L before rest -> pending t !! k = Some (tk, s) -> tick t <= tk <= U64_MAX.
Proof.
  intros Hw (e & He & Ht)%pending_lookup. destruct (wo_due _ _ _ _ _ Hw k e He) as [Hd _].
  by injection Ht as <- _.
Qed.

Lemma rest_no_empty r t L before rest : wheel_ok r t L before rest -> EMPTY ∉ rest.
Proof.
  intros Hw Hin. eapply (empty_not_in _ _ _ _ _ _ Hw). rewrite (proj1 (wo_cursor _ _ _ _ _ Hw)).
  apply elem_of_app. by right.
Qed.

(** One turn of the loop at the end of a slot. *)
Lemma poll_advance fuel target r t L before :
  wheel_ok r t L before [] -> tick t <= target < U64_MAX ->
  exists t1, poll_loop (S fuel) t target = poll_loop fuel t1 target /\
    tick t1 = tick t + 1 /\ mask t1 = mask t /\ pending t1 = pending t /\
    wheel_ok true t1 L [] (L (slot_for t (tick t + 1))).
Proof.
  intros Hw Hle. destruct (advance_spec r t L before Hw ltac:(lia)) as (w & t1 & Hlk & Ht1 & Hk1 & Hm1 & Hp1 & Hw1).
  exists t1. split; [| done]. destruct (wo_cursor _ _ _ _ _ Hw) as [_ Hx]. cbn [poll_loop].
  rewrite (proj2 (Z.leb_le _ _)) by lia. cbv zeta. rewrite Hx. change (first EMPTY []) with EMPTY.
  rewrite Z.eqb_refl. unfold succ_tick. rewrite (proj2 (Z.ltb_lt _ _)) by lia. cbn [mbind outcome_bind].
  change (slot_for (with_tick t (tick t + 1)) (tick t + 1)) with (slot_for t (tick t + 1)).
  change (wheel (with_tick t (tick t + 1))) with (wheel t). unfold index. rewrite Hlk. cbn [mbind outcome_bind].
  cbv zeta in Ht1. by rewrite Ht1.
Qed.

(** One turn at an entry: it is due and is returned, or the cursor passes it. *)
Lemma poll_visit fuel target r t L before curr rest :
  wheel_ok r t L before (curr :: rest) -> tick t <= target ->
  (exists t' s, poll_loop (S fuel) t target = Val (t', Some s) /\ mask t' = mask t /\ polled target t t' (Some s) /\
     exists r' L' before' rest', wheel_ok r' t' L' before' rest') \/
  (exists t1 r1, poll_loop (S fuel) t target = poll_loop fuel t1 target /\ same_clock t t1 /\ ent t1 = ent t /\
     wheel_ok r1 t1 L (before ++ [curr]) rest).
Proof.
  intros Hw Hle. destruct (wo_cursor _ _ _ _ _ Hw) as [Hcur Hx].
  destruct (visit_head r t L before curr rest Hw) as (w & t1 & Hlk & Ht1 & [Hk1 Hm1] & He1 & r1 & Hw1).
  assert (Hp1 : pending t1 = pending t) by (unfold pending; by rewrite He1).
  assert (Hsl : slot_for t (tick t) = slot_for t1 (tick t1)) by (unfold slot_for; by rewrite Hm1, Hk1).
  destruct (wo_member _ _ _ _ _ Hw (slot_for t (tick t)) curr) as (e & He & _);
    [rewrite Hcur; apply elem_of_app; right; left |]. rewrite <- He1 in He.
  cbn [poll_loop]. rewrite (proj2 (Z.leb_le _ _) Hle). cbv zeta. rewrite Hx, (first_empty (curr :: rest))
    by (by eapply rest_no_empty). rewrite bool_decide_false by done. rewrite (index_Some (wheel t) _ w Hlk).
  change (first EMPTY (curr :: rest)) with curr. cbn [mbind outcome_bind]. rewrite Ht1. cbn [mbind outcome_bind].
  rewrite (entry_at_Val t1 curr e He). cbn [mbind outcome_bind].
  destruct (wo_due _ _ _ _ _ Hw1 curr e He) as [[Hlo _] _]. pose proof (wo_tick _ _ _ _ _ Hw1) as Htick.
  destruct (Z.leb_spec (l_tick (e_links e)) (tick t1)) as [Hdue | Hlate].
  - left. destruct (remove_spec r1 t1 L before (curr :: rest) curr e Hw1 He) as (t' & Hrem & [Hk' Hm'] & Hp' & Hw').
    exists t', (e_state e). split; [| split; [congruence | split; [| by eauto]]].
    { destruct (unlink t1 (e_links e) curr) as [t0 | |]; cbn [mbind outcome_bind] in *; [by rewrite Hrem | done..]. }
    exists curr, (l_tick (e_links e)). rewrite <- Hp1. split; [by apply pending_lookup; exists e |].
    split; [lia |]. split; [lia |]. split; [| done]. intros k' tk' s' Hp.
    pose proof (pending_ticks _ _ _ _ _ _ _ _ Hw1 Hp). lia.
  - right. destruct (slot_lookup t1 L r1 before (curr :: rest) (tick t1) Hw1 Htick) as (w1 & Hlk1 & _).
    destruct (visit_later r1 t1 L before curr rest e w1 Hw1 He Hlate Hlk1) as (t2 & Ht2 & [Hk2 Hm2] & He2 & Hw2).
    rewrite Hsl, (index_Some (wheel t1) _ w1 Hlk1). cbn [mbind outcome_bind]. rewrite Ht2. cbn [mbind outcome_bind].
    eexists _, r1. split; [done |]. split; [split; congruence |]. split; [congruence | exact Hw2].
Qed.

Lemma pending_size t t' : pending t' = pending t -> size (ent t') = size (ent t).
Proof. intros Hp%(f_equal size). unfold pending in Hp. by rewrite !map_size_fmap in Hp. Qed.

Lemma poll_loop_spec target : target < U64_MAX -> forall fuel r t L before rest,
  wheel_ok r t L before rest -> tick t <= target ->
  (Z.to_nat (target - tick t) * S (size (ent t)) + length rest + 2 <= fuel)%nat ->
  exists t' o L' before' rest' r', poll_loop fuel t target = Val (t', o) /\
    wheel_ok r' t' L' before' rest' /\ (o = None -> r' = true) /\ mask t' = mask t /\ polled target t t' o.
Proof.
  intros Htop. induction fuel as [| fuel IH]; intros r t L before rest Hw Hle Hf; [lia |].
  destruct rest as [| curr rest]; cbn [length] in Hf.
  - destruct (poll_advance fuel target r t L before Hw ltac:(lia)) as (t1 & -> & Hk1 & Hm1 & Hp1 & Hw1).
    destruct (decide (tick t = target)) as [Heq | Hne].
    + destruct fuel as [| fuel]; [lia |]. cbn [poll_loop]. rewrite (proj2 (Z.leb_gt _ _)) by lia.
      eexists t1, None, L, [], _, true. split; [done |]. split; [exact Hw1 |]. split; [done |]. split; [done |].
      split; [done |]. split; [lia |]. intros k tk s Hp. rewrite <- Hp1 in Hp.
      pose proof (pending_ticks _ _ _ _ _ _ _ _ Hw1 Hp). lia.
    + destruct (IH _ t1 L [] _ Hw1) as (t' & o & L' & b' & rs' & r' & Hrun & Hw' & Hr' & Hm' & Hpol); [lia | |].
      { rewrite (pending_size _ _ Hp1), Hk1. pose proof (list_length _ _ _ _ _ (slot_for t (tick t + 1)) Hw).
        replace (Z.to_nat (target - tick t)) with (S (Z.to_nat (target - (tick t + 1)))) in Hf by lia. lia. }
      exists t', o, L', b', rs', r'. split; [done |]. split; [done |]. split; [done |]. split; [congruence |].
      unfold polled in *. by rewrite Hp1 in Hpol.
  - destruct (poll_visit fuel target r t L before curr rest Hw Hle)
      as [(t' & s & -> & Hm & Hpol & r' & L' & b' & rs' & Hw') | (t1 & r1 & -> & [Hk1 Hm1] & He1 & Hw1)].
    { exists t', (Some s), L', b', rs', r'. done. }
    destruct (IH _ t1 L _ _ Hw1) as (t' & o & L' & b' & rs' & r' & Hrun & Hw' & Hr' & Hm' & Hpol); [lia | |].
    { rewrite He1, Hk1. lia. }
    exists t', o, L', b', rs', r'. split; [done |]. split; [done |]. split; [done |]. split; [congruence |].
    unfold polled, pending in *. by rewrite He1 in Hpol.
Qed.

(** ** Any sequence of operations *)

Inductive timer_op :=
| OpSet (delay_from_start : Z) (state : T)
| OpCancel (timeout : Timeout)
| OpPoll (target_tick : Z).

Inductive timer_result :=
| RTimeout (timeout : Timeout)
| RState (state : option T).

Definition timer_step t (op : timer_op) : checked (Timer T * timer_result) :=
  match op with
  | OpSet delay state => '(t, timeout) ← set_timeout_at t delay state; Val (t, RTimeout timeout)
  | OpCancel timeout => '(t, state) ← cancel_timeout t timeout; Val (t, RState state)
  | OpPoll target => '(t, state) ← poll_to t target; Val (t, RState state)
  end.

Fixpoint timer_run t (ops : list timer_op) : checked (Timer T * list timer_result) :=
  match ops with
  | [] => Val (t, [])
  | op :: ops =>
      '(t, r) ← timer_step t op;
      '(t, rs) ← timer_run t ops;
      Val (t, r :: rs)
  end.

(** The tick a delay is rounded to, the nearest one, in a later tick than [now]. *)
Definition set_tick (tick_ms now delay : Z) : Z :=
  Z.max (u64_saturating_add (millis delay) (tick_ms / 2) / tick_ms) (now + 1).

(** The reference: the pending timeouts and the current tick. *)
Definition ref_step (tick_ms : Z) (P : gmap Z (Z * T)) (now : Z) (op : timer_op) (r : timer_result)
    (P' : gmap Z (Z * T)) (now' : Z) : Prop :=
  match op, r with
  | OpSet delay state, RTimeout timeout =>
      to_tick timeout = set_tick tick_ms now delay /\ P !! to_token timeout = None /\
      P' = <[to_token timeout := (to_tick timeout, state)]> P /\ now' = now
  | OpCancel timeout, RState (Some state) =>
      P !! to_token timeout = Some (to_tick timeout, state) /\ P' = delete (to_token timeout) P /\ now' = now
  | OpCancel timeout, RState None =>
      (forall state, P !! to_token timeout <> Some (to_tick timeout, state)) /\ P' = P /\ now' = now
  | OpPoll target, RState (Some state) =>
      exists k, P !! k = Some (now', state) /\ now' <= Z.max target now /\
        (forall k' tk s, P !! k' = Some (tk, s) -> now' <= tk) /\ P' = delete k P
  | OpPoll target, RState None =>
      (forall k tk s, P !! k = Some (tk, s) -> Z.max target now < tk) /\ P' = P /\ now' = Z.max target now + 1
  | _, _ => False
  end.

Inductive ref_run (tick_ms : Z) : gmap Z (Z * T) -> Z -> list timer_op -> list timer_result ->
    gmap Z (Z * T) -> Z -> Prop :=
| ref_nil P now : ref_run tick_ms P now [] [] P now
| ref_cons P now op ops r rs P1 now1 P2 now2 :
    ref_step tick_ms P now op r P1 now1 -> ref_run tick_ms P1 now1 ops rs P2 now2 ->
    ref_run tick_ms P now (op :: ops) (r :: rs) P2 now2.

(** Polls up to [horizon] only, delays that are durations. *)
Definition timer_op_ok (horizon : Z) (op : timer_op) : Prop :=
  match op with
  | OpSet delay _ => 0 <= delay
  | OpCancel _ => True
  | OpPoll target => target <= horizon
  end.

(** A well-formed wheel; [settled] when it was polled until nothing was due. *)
Definition well_formed (settled : bool) t : Prop :=
  exists rested L before rest, wheel_ok rested t L before rest /\ (settled = true -> rested = true).

Definition settled_by (settled : bool) (op : timer_op) (r : timer_result) : bool :=
  match op, r with
  | OpPoll _, RState None => true
  | OpPoll _, _ => false
  | _, _ => settled
  end.

Lemma well_formed_new tick_ms num_slots capacity start :
  well_formed true (timer_new (T := T) tick_ms num_slots capacity start).
Proof.
  exists true, (fun _ => []), [], []. split; [| done].
  assert (Hent : ent (timer_new (T := T) tick_ms num_slots capacity start) = ∅) by apply law_slab_new.
  split; cbn; try (rewrite Hent); try done.
  - exists (Z.log2_up num_slots). split; [apply Z.log2_up_nonneg |]. split; [done |]. apply length_replicate.
  - intros i k Hk. by apply not_elem_of_nil in Hk.
  - intros i. constructor.
  - intros i w Hi. apply lookup_replicate in Hi as [-> _]. done.
Qed.

Lemma set_spec settled t delay state :
  well_formed settled t -> 0 < tick_ms t -> 0 <= delay -> tick t < U64_MAX -> room t ->
  exists t' token, set_timeout_at t delay state = Val (t', mkTimeout token (set_tick (tick_ms t) (tick t) delay)) /\
    well_formed settled t' /\ tick t' = tick t /\ pending t !! token = None /\
    pending t' = <[token := (set_tick (tick_ms t) (tick t) delay, state)]> (pending t).
Proof.
  intros (rs & L & b & rest & Hw & Hset) Hms Hd Hk Hroom. unfold set_timeout_at, duration_to_tick.
  rewrite (proj2 (Z.eqb_neq _ _)) by lia. cbn [mbind outcome_bind].
  set (x := u64_saturating_add _ _ / _).
  assert (Hx : x <= U64_MAX).
  { subst x. unfold u64_saturating_add. transitivity (Z.min U64_MAX (millis delay + tick_ms t / 2)); [| lia].
    apply Z.div_le_upper_bound; [lia |]. pose proof (wo_tick _ _ _ _ _ Hw).
    assert (0 <= Z.min U64_MAX (millis delay + tick_ms t / 2)).
    { unfold millis, U64_MAX. pose proof (Z.div_pos delay 1000000 ltac:(lia) ltac:(lia)).
      pose proof (Z.div_pos (tick_ms t) 2 ltac:(lia) ltac:(lia)). lia. }
    nia. }
  assert (Hset' : (if x <=? tick t then succ_tick (tick t) else Val x) = Val (set_tick (tick_ms t) (tick t) delay)).
  { unfold set_tick, succ_tick. fold x. rewrite (proj2 (Z.ltb_lt _ _) Hk).
    destruct (Z.leb_spec x (tick t)); f_equal; lia. }
  rewrite Hset'. cbn [mbind outcome_bind]. pose proof (wo_tick _ _ _ _ _ Hw).
  destruct (insert_spec rs t L b rest (set_tick (tick_ms t) (tick t) delay) state Hw)
    as (t' & token & L' & b' & Hi & [Hk' _] & Hn & Hp & Hw'); [unfold set_tick; fold x; lia | done |].
  exists t', token. split; [done |]. split; [by exists rs, L', b', rest |]. done.
Qed.

Lemma cancel_spec settled t timeout :
  well_formed settled t ->
  exists t' o, cancel_timeout t timeout = Val (t', o) /\ well_formed settled t' /\ tick t' = tick t /\
    match o with
    | Some state => pending t !! to_token timeout = Some (to_tick timeout, state) /\
                    pending t' = delete (to_token timeout) (pending t)
    | None => (forall state, pending t !! to_token timeout <> Some (to_tick timeout, state)) /\ pending t' = pending t
    end.
Proof.
  intros Hwf. pose proof Hwf as (rs & L & b & rest & Hw & Hset). unfold cancel_timeout. fold (ent t).
  destruct (ent t !! to_token timeout) as [e |] eqn:He.
  2: { exists t, None. split; [done |]. split; [done |]. split; [done |]. split; [| done].
       intros state (e & He' & _)%pending_lookup. congruence. }
  assert (Hp : pending t !! to_token timeout = Some (timing e)) by (apply pending_lookup; by exists e).
  destruct (Z.eqb_spec (l_tick (e_links e)) (to_tick timeout)) as [Heq | Hne]; cbn [negb].
  - destruct (remove_spec rs t L b rest (to_token timeout) e Hw He) as (t' & Hrem & [Hk _] & Hp' & Hw').
    exists t', (Some (e_state e)). split.
    { destruct (unlink t (e_links e) (to_token timeout)) as [t0 | |]; cbn [mbind outcome_bind] in *; [by rewrite Hrem | done..]. }
    split; [by eexists rs, _, _, _ |]. split; [done |]. split; [| done]. rewrite Hp. unfold timing. by rewrite Heq.
  - exists t, None. split; [done |]. split; [done |]. split; [done |]. split; [| done].
    intros state Hs. rewrite Hp in Hs. by injection Hs.
Qed.

Lemma poll_spec settled t target :
  well_formed settled t -> Z.max target (tick t) < U64_MAX ->
  exists t' o, poll_to t target = Val (t', o) /\ well_formed (if o is Some _ then false else true) t' /\
    polled (Z.max target (tick t)) t t' o.
Proof.
  intros (rs & L & b & rest & Hw & Hset) Hmax. unfold poll_to.
  assert ((if target <? tick t then tick t else target) = Z.max target (tick t)) as -> by (cmps; lia).
  assert (Hrest : (length rest <= size (ent t))%nat).
  { pose proof (list_length _ _ _ _ _ (slot_for t (tick t)) Hw) as Hl.
    rewrite (proj1 (wo_cursor _ _ _ _ _ Hw)), length_app in Hl. lia. }
  destruct (poll_loop_spec _ Hmax (poll_fuel t (Z.max target (tick t))) rs t L b rest Hw ltac:(lia))
    as (t' & o & L' & b' & rs' & r' & Hrun & Hw' & Hr' & _ & Hpol).
  { unfold poll_fuel. fold (ent t). nia. }
  exists t', o. cbv zeta. split; [done |]. split; [| done]. exists r', L', b', rs'. split; [done |].
  destruct o; [done | intros _; by apply Hr'].
Qed.

(** No operation changes the grid. *)
Definition same_grid t t' : Prop := tick_ms t' = tick_ms t /\ start t' = start t.

Lemma set_links_grid t k f t' : set_links t k f = Val t' -> same_grid t t'.
Proof. unfold set_links. destruct (entry_at t k); [| done..]. by intros [= <-]. Qed.

Lemma set_wheel_grid t i w t' : set_wheel t i w = Val t' -> same_grid t t'.
Proof. unfold set_wheel. destruct (index (wheel t) i); [| done..]. by intros [= <-]. Qed.

Lemma same_grid_trans t1 t2 t3 : same_grid t1 t2 -> same_grid t2 t3 -> same_grid t1 t3.
Proof. unfold same_grid. intros [-> ->] [-> ->]. done. Qed.

Lemma unlink_grid t links k t' : unlink t links k = Val t' -> same_grid t t'.
Proof.
  unfold unlink. intros H. apply bind_Val in H as (t1 & H1 & H).
  assert (G1 : same_grid t t1).
  { destruct (_ =? EMPTY); [| by eapply set_links_grid]. apply bind_Val in H1 as (w & _ & H1).
    by eapply set_wheel_grid. }
  apply (same_grid_trans _ _ _ G1). destruct (negb _).
  - apply bind_Val in H as (t2 & H2%set_links_grid & [= <-]). by destruct (k =? next t2).
  - injection H as <-. by destruct (k =? next t1).
Qed.

Lemma take_entry_grid t k t' s : take_entry t k = Val (t', s) -> same_grid t t'.
Proof. unfold take_entry. destruct (entry_at t k); [| done..]. by intros [= <- <-]. Qed.

Lemma set_grid t delay state t' timeout : set_timeout_at t delay state = Val (t', timeout) -> same_grid t t'.
Proof.
  unfold set_timeout_at, timer_insert. intros H. apply bind_Val in H as (x & _ & H). apply bind_Val in H as (y & _ & H).
  apply bind_Val in H as (w & _ & H). destruct (slab_insert _ _) as [es token].
  apply bind_Val in H as (t1 & H1 & H). apply bind_Val in H as (t2 & H2%set_wheel_grid & [= <- <-]).
  refine (same_grid_trans _ _ _ _ H2). destruct (_ =? EMPTY); [by injection H1 as <- |].
  by apply set_links_grid in H1.
Qed.

Lemma cancel_grid t timeout t' o : cancel_timeout t timeout = Val (t', o) -> same_grid t t'.
Proof.
  unfold cancel_timeout. destruct (_ !! _) as [e |]; [| by intros [= <- <-]].
  destruct (negb _); [by intros [= <- <-] |]. intros H. apply bind_Val in H as (t1 & H1%unlink_grid & H).
  apply bind_Val in H as ([t2 s] & H2%take_entry_grid & [= <- <-]). by eapply same_grid_trans.
Qed.

Lemma poll_grid fuel t target t' o : poll_loop fuel t target = Val (t', o) -> same_grid t t'.
Proof.
  revert t. induction fuel as [| fuel IH]; intros t; [done |]. cbn [poll_loop].
  destruct (tick t <=? target); [| by intros [= <- <-]]. destruct (next t =? EMPTY); intros H.
  - apply bind_Val in H as (k & _ & H). apply bind_Val in H as (w & _ & H). apply bind_Val in H as (t1 & H1 & H%IH).
    refine (same_grid_trans _ _ _ _ H). destruct (_ =? EMPTY); [by apply set_wheel_grid in H1 | by injection H1 as <-].
  - apply bind_Val in H as (w & _ & H). apply bind_Val in H as (t1 & H1 & H).
    assert (G1 : same_grid t t1) by (destruct (_ =? _); [by apply set_wheel_grid in H1 | by injection H1 as <-]).
    apply (same_grid_trans _ _ _ G1). apply bind_Val in H as (e & _ & H). destruct (_ <=? _).
    + apply bind_Val in H as (t2 & H2%unlink_grid & H). apply bind_Val in H as ([t3 s] & H3%take_entry_grid & [= <- <-]).
      by eapply same_grid_trans.
    + apply bind_Val in H as (w2 & _ & H). apply bind_Val in H as (t2 & H2%set_wheel_grid & H%IH).
      by eapply same_grid_trans.
Qed.

Lemma step_grid t op t' r : timer_step t op = Val (t', r) -> same_grid t t'.
Proof.
  destruct op; cbn [timer_step]; intros H; apply bind_Val in H as ([t1 x] & H & [= <- _]).
  - by eapply set_grid.
  - by eapply cancel_grid.
  - by eapply poll_grid.
Qed.

(** *** One operation, then all of them *)

(** A wheel within its bounds: the tick it may have reached, and the timeouts
    it may hold, after [n] operations. *)
Definition within (horizon : Z) (n : nat) t : Prop :=
  0 < tick_ms t /\ tick t <= horizon + Z.of_nat n /\ (size (pending t) <= n)%nat.

Lemma timer_step_spec horizon n settled t op :
  well_formed settled t -> within horizon n t -> timer_op_ok horizon op ->
  horizon + Z.of_nat n < U64_MAX -> Z.of_nat n < 2 ^ 63 ->
  exists t' r, timer_step t op = Val (t', r) /\ well_formed (settled_by settled op r) t' /\ within horizon (S n) t' /\
    ref_step (tick_ms t) (pending t) (tick t) op r (pending t') (tick t').
Proof.
  intros Hwf (Hms & Htick & Hsize) Hop Hh Hn.
  assert (Hsteps : exists t' r, timer_step t op = Val (t', r) /\ well_formed (settled_by settled op r) t' /\
    tick t' <= horizon + Z.of_nat (S n) /\ (size (pending t') <= S n)%nat /\
    ref_step (tick_ms t) (pending t) (tick t) op r (pending t') (tick t')).
  2: { destruct Hsteps as (t' & r & Hs & Hwf' & ? & ? & Href). exists t', r. split; [done |]. split; [done |].
       split; [| done]. destruct (step_grid _ _ _ _ Hs) as [Hg _]. unfold within. by rewrite Hg. }
  destruct op as [delay state | timeout | target]; cbn [timer_step timer_op_ok] in *.
  - destruct (set_spec settled t delay state Hwf Hms Hop) as (t' & token & -> & Hwf' & Hk & Hfree & Hp);
      [lia | unfold room; lia |]. eexists t', _. split; [done |]. split; [done |]. rewrite Hk, Hp. split; [lia |].
    split; [rewrite map_size_insert_None by done; lia | done].
  - destruct (cancel_spec settled t timeout Hwf) as (t' & o & -> & Hwf' & Hk & Ho). eexists t', _.
    split; [done |]. split; [done |]. rewrite Hk. split; [lia |]. destruct o as [state |]; destruct Ho as [Ho ->].
    + split; [| done]. pose proof (map_size_delete_Some (to_token timeout) (pending t) ltac:(by rewrite Ho)). lia.
    + split; [lia | done].
  - destruct (poll_spec settled t target Hwf ltac:(lia)) as (t' & o & -> & Hwf' & Hpol). eexists t', _.
    split; [done |]. destruct o as [state |]; cbn [settled_by] in *; (split; [done |]).
    + destruct Hpol as (k & tk & Hk & Hle & Ht & Hmin & ->). rewrite Ht. split; [lia |].
      split; [pose proof (map_size_delete_Some k (pending t) ltac:(by rewrite Hk)); lia |].
      exists k. done.
    + destruct Hpol as (-> & Ht & Hnone). rewrite Ht. split; [lia |]. split; [lia | done].
Qed.

Fixpoint settled_after (settled : bool) (ops : list timer_op) (rs : list timer_result) : bool :=
  match ops, rs with
  | op :: ops, r :: rs => settled_after (settled_by settled op r) ops rs
  | _, _ => settled
  end.

Lemma timer_run_spec horizon ops : forall n settled t,
  well_formed settled t -> within horizon n t -> Forall (timer_op_ok horizon) ops ->
  horizon + Z.of_nat (n + length ops) < U64_MAX -> Z.of_nat (n + length ops) < 2 ^ 63 ->
  exists t' rs, timer_run t ops = Val (t', rs) /\ well_formed (settled_after settled ops rs) t' /\
    within horizon (n + length ops) t' /\ tick_ms t' = tick_ms t /\
    ref_run (tick_ms t) (pending t) (tick t) ops rs (pending t') (tick t').
Proof.
  induction ops as [| op ops IH]; intros n settled t Hwf Hin Hops Hh Hn; cbn [length] in *.
  { exists t, []. rewrite Nat.add_0_r. split; [done |]. split; [done |]. split; [done |]. split; [done | constructor]. }
  apply Forall_cons in Hops as [Hop Hops].
  destruct (timer_step_spec horizon n settled t op Hwf Hin Hop) as (t1 & r & Hs & Hwf1 & Hin1 & Href); [lia | lia |].
  destruct (step_grid _ _ _ _ Hs) as [Hms _].
  destruct (IH (S n) _ t1 Hwf1 Hin1 Hops) as (t' & rs & Hrun & Hwf' & Hin' & Hms' & Href'); [lia | lia |].
  exists t', (r :: rs). cbn [timer_run]. rewrite Hs. cbn [mbind outcome_bind]. rewrite Hrun.
  split; [done |]. split; [done |]. split; [by rewrite <- Nat.add_succ_comm |]. split; [congruence |].
  rewrite Hms in Href'. by econstructor.
Qed.

(** C21. The timer wheel refines a map of pending timeouts: from a fresh wheel, any
    sequence of settings, cancellations (of any handle, live or stale) and
    polls indexes nothing out of range and never exhausts its loop; a timeout
    is set at the nearest tick of its delay that is still to come; a handle
    cancels the timeout it was returned for and no other tick; and a poll
    returns a pending timeout that none comes before, due by the tick polled or
    the one the wheel has reached, or nothing when there is none, and then the
    wheel moves one tick past it. *)
Theorem timer_refines tick_ms num_slots capacity start horizon ops :
  0 < tick_ms -> 0 <= horizon -> Forall (timer_op_ok horizon) ops ->
  horizon + Z.of_nat (length ops) < U64_MAX -> Z.of_nat (length ops) < 2 ^ 63 ->
  exists t rs, timer_run (timer_new tick_ms num_slots capacity start) ops = Val (t, rs) /\
    ref_run tick_ms ∅ 0 ops rs (pending t) (tick t).
Proof.
  intros Hms Hh Hops H1 H2. set (t0 := timer_new tick_ms num_slots capacity start).
  assert (Hp : pending t0 = ∅) by (unfold pending, ent, t0; cbn; by rewrite law_slab_new, fmap_empty).
  destruct (timer_run_spec horizon ops 0 true t0) as (t & rs & Hrun & _ & _ & _ & Href); [apply well_formed_new | | done | done | done |].
  - split; [done |]. rewrite Hp, map_size_empty. cbn. lia.
  - exists t, rs. split; [done |]. by rewrite Hp in Href.
Qed.

Lemma ref_dead tick_ms P now ops rs P' now' timeout :
  ref_run tick_ms P now ops rs P' now' ->
  (forall k tk s, P !! k = Some (tk, s) -> now <= tk) ->
  to_tick timeout <= now -> (forall s, P !! to_token timeout <> Some (to_tick timeout, s)) ->
  to_tick timeout <= now' /\ forall s, P' !! to_token timeout <> Some (to_tick timeout, s).
Proof.
  induction 1 as [| P now op ops r rs P1 now1 P2 now2 Hs _ IH]; intros Hlow Hle Hno; [done |].
  assert (Hdel : forall k s, delete k P !! to_token timeout <> Some (to_tick timeout, s)).
  { intros k s [_ Hk]%lookup_delete_Some. by eapply Hno. }
  assert (Hdlow : forall k0 k tk s, delete k0 P !! k = Some (tk, s) -> exists k, P !! k = Some (tk, s)).
  { intros k0 k tk s [_ Hk]%lookup_delete_Some. by exists k. }
  destruct op as [delay state | handle | target], r as [h | [state' |]]; cbn [ref_step] in Hs; try done.
  - destruct Hs as (Ht & Hfree & -> & ->). unfold set_tick in Ht. apply IH; [| done |].
    + intros k tk s [[<- [= <- <-]] | [_ Hk]]%lookup_insert_Some; [lia | by eapply Hlow].
    + intros s [[_ [= Heq _]] | [_ Hk]]%lookup_insert_Some; [lia | by eapply Hno].
  - destruct Hs as (_ & -> & ->). apply IH; [| done | apply Hdel].
    intros k tk s (k' & Hk)%Hdlow. by eapply Hlow.
  - destruct Hs as (_ & -> & ->). by apply IH.
  - destruct Hs as (k & Hk & _ & Hmin & ->). pose proof (Hlow _ _ _ Hk). apply IH; [| lia | apply Hdel].
    intros k0 tk s (k' & Hk')%Hdlow. by eapply Hmin.
  - destruct Hs as (Hnone & -> & ->). apply IH; [| lia | done]. intros k tk s Hk. pose proof (Hnone k tk s Hk). lia.
Qed.

(** The wheels a worker can have, after [n] operations. *)
Lemma reached tick_ms num_slots capacity start horizon ops t rs :
  0 < tick_ms -> 0 <= horizon -> Forall (timer_op_ok horizon) ops ->
  horizon + Z.of_nat (length ops) < U64_MAX -> Z.of_nat (length ops) < 2 ^ 63 ->
  timer_run (timer_new tick_ms num_slots capacity start) ops = Val (t, rs) ->
  well_formed (settled_after true ops rs) t /\ within horizon (length ops) t.
Proof.
  intros Hms Hh Hops H1 H2 Hrun.
  destruct (timer_run_spec horizon ops 0 true (timer_new tick_ms num_slots capacity start))
    as (t' & rs' & Hrun' & Hwf & Hin & _); [apply well_formed_new | | done | done | done |].
  - split; [done |]. unfold pending, ent. cbn. rewrite law_slab_new, fmap_empty, map_size_empty. lia.
  - rewrite Hrun in Hrun'. by injection Hrun' as <- <-.
Qed.

(** The handle of a delivered timeout cancels nothing: whatever is set,
    cancelled and polled after the delivery, and however the slab reuses the
    key, cancelling with the handle finds nothing and leaves the pending
    timeouts as they are. *)
Theorem delivered_handle_dead tick_ms num_slots capacity start horizon ops1 target ops2 t rs1 h s t1 o t2 rs2 :
  0 < tick_ms -> 0 <= horizon -> Forall (timer_op_ok horizon) (ops1 ++ OpPoll target :: ops2) ->
  horizon + Z.of_nat (length (ops1 ++ OpPoll target :: ops2)) < U64_MAX ->
  Z.of_nat (length (ops1 ++ OpPoll target :: ops2)) < 2 ^ 63 ->
  timer_run (timer_new tick_ms num_slots capacity start) ops1 = Val (t, rs1) ->
  pending t !! to_token h = Some (to_tick h, s) ->
  poll_to t target = Val (t1, o) -> pending t1 !! to_token h = None ->
  timer_run t1 ops2 = Val (t2, rs2) ->
  exists t3, cancel_timeout t2 h = Val (t3, None) /\ pending t3 = pending t2.
Proof.
  intros Hms Hh Hops H1 H2 Hrun Hp Hpoll Hgone Hrun2. rewrite length_app in H1, H2. cbn [length] in H1, H2.
  apply Forall_app in Hops as [Hops1 [Hop Hops2]%Forall_cons].
  destruct (reached tick_ms num_slots capacity start horizon ops1 t rs1) as [Hwf Hin]; [done | done | done | lia | lia | done |].
  destruct (timer_step_spec horizon _ _ t (OpPoll target) Hwf Hin Hop) as (t1' & r & Hs & Hwf1 & Hin1 & Href); [lia | lia |].
  cbn [timer_step] in Hs. rewrite Hpoll in Hs. injection Hs as <- <-.
  destruct (timer_run_spec horizon ops2 _ _ t1 Hwf1 Hin1 Hops2) as (t2' & rs2' & Hr & Hwf2 & _ & _ & Href2); [lia | lia |].
  rewrite Hrun2 in Hr. injection Hr as <- <-.
  destruct o as [s' |]; cbn [ref_step] in Href.
  2: { destruct Href as (_ & Heq & _). rewrite Heq in Hgone. congruence. }
  destruct Href as (k & Hk & _ & _ & Heq).
  assert (k = to_token h) as ->.
  { destruct (decide (k = to_token h)); [done |]. rewrite Heq, lookup_delete_ne in Hgone by done. congruence. }
  rewrite Hp in Hk. injection Hk as Htick _.
  assert (Hlow : forall k tk s0, pending t1 !! k = Some (tk, s0) -> tick t1 <= tk).
  { intros k tk s0 Hk. destruct Hwf1 as (? & ? & ? & ? & Hw1 & _). pose proof (pending_ticks _ _ _ _ _ _ _ _ Hw1 Hk). lia. }
  destruct (ref_dead _ _ _ _ _ _ _ h Href2 Hlow) as [_ Hno]; [lia | intros s0; congruence |].
  destruct (cancel_spec _ t2 h Hwf2) as (t3 & o & -> & _ & _ & Ho).
  destruct o as [s0 |]; [by destruct (Hno s0), Ho |]. exists t3. by destruct Ho.
Qed.

Lemma foldr_min_le x ks k : k ∈ x :: ks -> foldr Z.min x ks <= k.
Proof.
  revert k. induction ks as [| y ks IH]; intros k Hk; cbn [foldr].
  - apply elem_of_cons in Hk as [-> | []%not_elem_of_nil]. lia.
  - apply elem_of_cons in Hk as [-> | [-> | Hk]%elem_of_cons]; [| lia |].
    + pose proof (IH x ltac:(left)). lia.
    + pose proof (IH k ltac:(by right)). lia.
Qed.

Lemma next_tick_spec t L before rest :
  wheel_ok true t L before rest ->
  exists d, next_tick t = Val (Some d) /\ forall k tk s, pending t !! k = Some (tk, s) -> d <= tk.
Proof.
  intros Hw. assert (Hready : exists b, (if next t =? EMPTY then Val false
    else e ← entry_at t (next t); w ← index (wheel t) (slot_for t (l_tick (e_links e)));
         Val (we_next_tick w =? tick t)) = Val b :> checked bool).
  { destruct (wo_cursor _ _ _ _ _ Hw) as [HL Hn]. rewrite Hn, first_empty by (by eapply rest_no_empty).
    case_bool_decide as Hr; [by eexists |].
    destruct (wo_member _ _ _ _ _ Hw (slot_for t (tick t)) (first EMPTY rest)) as (e & He & _).
    { rewrite HL. apply elem_of_app. right. by apply first_in. }
    rewrite (entry_at_Val _ _ _ He). cbn [mbind outcome_bind].
    destruct (slot_lookup t L true before rest (l_tick (e_links e))) as (w & Hlk & _); [done | |].
    { pose proof (wo_due _ _ _ _ _ Hw _ _ He). pose proof (wo_tick _ _ _ _ _ Hw). lia. }
    rewrite (index_Some _ _ _ Hlk). by eexists. }
  destruct Hready as [b Hb]. unfold next_tick. rewrite Hb. cbn [mbind outcome_bind].
  destruct b.
  { eexists. split; [done |]. intros k tk s Hk. pose proof (pending_ticks _ _ _ _ _ _ _ _ Hw Hk). lia. }
  destruct (wheel t) as [| w0 ws] eqn:Hwheel.
  { destruct (slot_lookup t L true before rest (tick t)) as (w & Hlk & _); [done | by eapply wo_tick |]. by rewrite Hwheel in Hlk. }
  eexists. split; [done |]. intros k tk s (e & He & [= <- <-])%pending_lookup.
  destruct (slot_lookup t L true before rest (l_tick (e_links e))) as (w & Hlk & _); [done | |].
  { pose proof (wo_due _ _ _ _ _ Hw _ _ He). pose proof (wo_tick _ _ _ _ _ Hw). lia. }
  etrans; [| by apply (wo_early _ _ _ _ _ Hw _ w k e Hlk); [eapply wo_place | | done]].
  apply foldr_min_le. rewrite <- (fmap_cons we_next_tick), <- Hwheel. apply list_elem_of_fmap. exists w.
  split; [done |]. by eapply list_elem_of_lookup_2.
Qed.

(** The event loop never sleeps past a timeout: whatever was set and cancelled
    since the last poll that came back empty, the tick [next_tick] announces
    comes before or at every pending one. *)
Theorem next_tick_never_late tick_ms num_slots capacity start horizon ops t rs :
  0 < tick_ms -> 0 <= horizon -> Forall (timer_op_ok horizon) ops ->
  horizon + Z.of_nat (length ops) < U64_MAX -> Z.of_nat (length ops) < 2 ^ 63 ->
  timer_run (timer_new tick_ms num_slots capacity start) ops = Val (t, rs) ->
  settled_after true ops rs = true ->
  exists d, next_tick t = Val (Some d) /\ forall k tk s, pending t !! k = Some (tk, s) -> d <= tk.
Proof.
  intros Hms Hh Hops H1 H2 Hrun Hset.
  destruct (reached _ _ _ _ _ _ _ _ Hms Hh Hops H1 H2 Hrun) as [(r & L & before & rest & Hw & Hr) _].
  rewrite Hset in Hr. rewrite (Hr eq_refl) in Hw. by eapply next_tick_spec.
Qed.

End Spec.

(** ** A slab that gives the first vacant key *)

Lemma first_vacant_spec {A} (m : gmap Z A) fuel : forall k,
  k <= first_vacant fuel m k <= k + Z.of_nat fuel /\
  forall j, k <= j < first_vacant fuel m k -> is_Some (m !! j).
Proof.
  induction fuel as [| fuel IH]; intros k; cbn [first_vacant]; [split; intros; lia |].
  destruct (m !! k) as [a |] eqn:Hk; [| split; intros; lia].
  destruct (IH (k + 1)) as [Hb Hj]. split; [lia |]. intros j Hjk.
  destruct (decide (j = k)) as [-> |]; [done | apply Hj; lia].
Qed.

Lemma first_vacant_stops {A} (m : gmap Z A) fuel : forall k,
  m !! first_vacant fuel m k = None \/ first_vacant fuel m k = k + Z.of_nat fuel.
Proof.
  induction fuel as [| fuel IH]; intros k; cbn [first_vacant]; [right; lia |].
  destruct (m !! k) as [a |] eqn:Hk; [| by left]. destruct (IH (k + 1)) as [H | H]; [by left | right; lia].
Qed.

Lemma vacant_key_free {A} (m : gmap Z A) : m !! vacant_key m = None.
Proof.
  destruct (first_vacant_stops m (size m) 0) as [H | H]; [done |].
  destruct (m !! vacant_key m) as [a |] eqn:Hk; [| done].
  pose proof (length_dom m (seqZ 0 (Z.of_nat (S (size m))))) as Hl. rewrite length_seqZ in Hl.
  enough (S (size m) <= size m)%nat by lia. rewrite <- (Nat2Z.id (S (size m))) at 1. apply Hl; [apply NoDup_seqZ |].
  intros j Hj%elem_of_seqZ. unfold vacant_key in Hk. rewrite H in Hk.
  destruct (decide (j = 0 + Z.of_nat (size m))) as [-> |]; [by eexists |].
  apply (first_vacant_spec m (size m) 0). lia.
Qed.

#[local] Existing Instance simple_slab.

#[local] Instance simple_slab_laws : SlabLaws.
Proof.
  split; try done. intros A m a Hs. cbn in *. split; [apply vacant_key_free |]. split; [| done].
  pose proof (proj1 (first_vacant_spec m (size m) 0)). unfold vacant_key, USIZE_MAX. lia.
Qed.

(** ** The theorems at work *)

Definition some_ops : list (timer_op (T := Z)) :=
  [OpSet 300000000 1; OpSet 200000000 2; OpPoll 2; OpCancel (mkTimeout 1 2); OpPoll 3; OpPoll 3].

Lemma timer_refines_witness : exists t rs, timer_run (timer_new 100 8 8 0) some_ops = Val (t, rs) /\
  ref_run 100 ∅ 0 some_ops rs (pending t) (tick t).
Proof.
  apply (timer_refines 100 8 8 0 10 some_ops); [lia | lia | | by vm_compute | by vm_compute].
  repeat constructor; cbn; lia.
Defined.

Definition wheel0 : Timer Z := timer_new 100 8 8 0.

(** The wheel that some operations give, and their results. *)
Definition after (t : Timer Z) (ops : list timer_op) : Timer Z :=
  match timer_run t ops with Val (t', _) => t' | _ => t end.
Definition results (t : Timer Z) (ops : list timer_op) : list timer_result :=
  match timer_run t ops with Val (_, rs) => rs | _ => [] end.

(** The handle returned for state 2, delivered at tick 2; the slab gives its key
    to state 3, which the handle then does not cancel. *)
Lemma delivered_handle_dead_witness :
  let t := after wheel0 (take 2 some_ops) in let t1 := after t [OpPoll 2] in let t2 := after t1 [OpSet 900000000 3] in
  pending t2 !! 1 = Some (9, 3) /\ exists t3, cancel_timeout t2 (mkTimeout 1 2) = Val (t3, None) /\ pending t3 = pending t2.
Proof.
  split; [by vm_compute |].
  apply (delivered_handle_dead 100 8 8 0 10 (take 2 some_ops) 2 [OpSet 900000000 3] (after wheel0 (take 2 some_ops))
    (results wheel0 (take 2 some_ops)) (mkTimeout 1 2) 2 (after (after wheel0 (take 2 some_ops)) [OpPoll 2]) (Some 2)
    (after (after (after wheel0 (take 2 some_ops)) [OpPoll 2]) [OpSet 900000000 3])
    (results (after (after wheel0 (take 2 some_ops)) [OpPoll 2]) [OpSet 900000000 3]));
    try (by vm_compute). repeat constructor; cbn; lia.
Defined.

Lemma next_tick_never_late_witness : exists d, next_tick (after wheel0 some_ops) = Val (Some d) /\
  forall k tk s, pending (after wheel0 some_ops) !! k = Some (tk, s) -> d <= tk.
Proof.
  apply (next_tick_never_late 100 8 8 0 10 some_ops (after wheel0 some_ops) (results wheel0 some_ops));
    try (by vm_compute). repeat constructor; cbn; lia.
Defined.

(** ** A slot whose next tick stays behind *)

Fixpoint polls_at (n : nat) (t : Timer Z) (now : Z) : checked (Timer Z * list (option Z)) :=
  match n with
  | O => Val (t, [])
  | S n =>
      '(t, o) ← poll_at t now;
      '(t, os) ← polls_at n t now;
      Val (t, o :: os)
  end.

(** The worker's wheel: a timeout at 600 ms; at 510 ms, with the wheel already
    on the tick of 600 ms, one set 256 ticks after it, in the same slot, and one
    for ten seconds later. *)
Definition stale_slot : checked (Timer Z) :=
  '(t, _) ← set_timeout (timer_default 0) 0 600000000 1;
  '(t, _) ← poll_at t 500000000;
  '(t, _) ← set_timeout t 510000000 25690000000 2;
  '(t, _) ← set_timeout t 510000000 10000000000 3;
  Val t.

(** C38. The date of the next poll stays behind the clock, and each poll then moves
    the wheel on by one tick: at 600 ms, the timeout set for 10.51 s is
    delivered by the ninety-ninth of the polls that follow. *)
Example stale_slot_early :
  (t ← stale_slot;
   '(t, first) ← polls_at 2 t 600000000;
   date ← next_poll_date t;
   '(_, later) ← polls_at 99 t 600000000;
   Val (first, date, later)) =
  Val ([Some 1; None], Some 600000000, replicate 98 None ++ [Some 3]).
Proof. by vm_compute. Qed.
