(* ===== verification/TimerContainers.v ===== *)
(** * The timeouts that the sessions hold

    The containers of [Timer] over one worker's wheel.  A [ContainerOp] is a
    call on a container or a poll of the wheel; [owned] says that every pending
    timeout is held by exactly one container and carries its token. *)

From S2P Require Import Prelude Timer TimerSpec.

(** ** The calls *)

Inductive ContainerOp :=
| CNew (i : nat) (now now' duration token : Z)
| CNewEmpty (i : nat) (duration : Z)
| CTake (i j : nat)
| CTriggered (i : nat)
| CSet (i : nat) (now now' token : Z)
| CSetAt (i : nat) (now now' token deadline : Z)
| CSetDuration (i : nat) (now now' duration : Z)
| CRetune (i : nat) (duration : Z)
| CCancel (i : nat)
| CReset (i : nat) (now now' : Z)
| CDrop (i : nat)
| CPoll (now : Z).

(** The container a call is on. *)
Definition subject (op : ContainerOp) : option nat :=
  match op with
  | CNew i _ _ _ _ | CNewEmpty i _ | CTake i _ | CTriggered i | CSet i _ _ _ | CSetAt i _ _ _ _
  | CSetDuration i _ _ _ | CRetune i _ | CCancel i | CReset i _ _ | CDrop i => Some i
  | CPoll _ => None
  end.

Section Calls.
Context `{SC : SlabCrate}.
Implicit Types (t : Timer Z) (cs : gmap nat TimeoutContainer).

(** A call on a container in place. *)
Definition on_container cs (i : nat) (f : TimeoutContainer -> checked (Timer Z * TimeoutContainer)) :
    checked (Timer Z * gmap nat TimeoutContainer) :=
  match cs !! i with
  | Some c => '(t, c) ← f c; Val (t, <[i := c]> cs)
  | None => Panic
  end.

Definition container_step t cs (op : ContainerOp) : checked (Timer Z * gmap nat TimeoutContainer) :=
  match op with
  | CNew i now now' duration token => '(t, c) ← container_new t now now' duration token; Val (t, <[i := c]> cs)
  | CNewEmpty i duration => Val (t, <[i := container_new_empty duration]> cs)
  | CTake i j =>
      match cs !! i with
      | Some c => let '(rest, taken) := container_take c in Val (t, <[j := taken]> (<[i := rest]> cs))
      | None => Panic
      end
  | CTriggered i => on_container cs i (fun c => Val (t, container_triggered c))
  | CSet i now now' token => on_container cs i (fun c => container_set t c now now' token)
  | CSetAt i now now' token deadline => on_container cs i (fun c => container_set_at t c now now' token deadline)
  | CSetDuration i now now' duration => on_container cs i (fun c => container_set_duration t c now now' duration)
  | CRetune i duration => on_container cs i (fun c => Val (t, container_retune c duration))
  | CCancel i => on_container cs i (fun c => '(t, c, _) ← container_cancel t c; Val (t, c))
  | CReset i now now' => on_container cs i (fun c => '(t, c, _) ← container_reset t c now now'; Val (t, c))
  | CDrop i =>
      match cs !! i with
      | Some c => t ← container_drop t c; Val (t, delete i cs)
      | None => Panic
      end
  | CPoll now => '(t, _) ← poll t now; Val (t, cs)
  end.

End Calls.

Section Containers.
Context `{SC : SlabCrate} `{SL : !SlabLaws}.
Implicit Types (t : Timer Z) (cs : gmap nat TimeoutContainer) (P : gmap Z (Z * Z)).

(** The pending timeout that a handle names. *)
Definition live P (h : Timeout) (s : Z) : Prop := P !! to_token h = Some (to_tick h, s).

(** A handle whose timeout was delivered. *)
Definition spent P (now : Z) (h : Timeout) : Prop := to_tick h <= now /\ forall s, ~ live P h s.

Record owned P (now : Z) cs : Prop := {
  ow_pending : forall h s, live P h s -> now <= to_tick h /\
    exists i c, cs !! i = Some c /\ tc_timeout c = Some h /\ tc_token c = Some s;
  ow_handle : forall i c h, cs !! i = Some c -> tc_timeout c = Some h ->
    spent P now h \/ exists s, live P h s /\ tc_token c = Some s;
  ow_one : forall i j c c' h s, cs !! i = Some c -> cs !! j = Some c' ->
    tc_timeout c = Some h -> tc_timeout c' = Some h -> live P h s -> i = j;
  ow_deadline : forall i c, cs !! i = Some c -> (is_Some (tc_timeout c) <-> is_Some (tc_deadline c));
}.

(** ** The map after a handle is cancelled, and after one is set *)

Definition release P (o : option Timeout) : gmap Z (Z * Z) :=
  match o with
  | Some h => if decide (fst <$> P !! to_token h = Some (to_tick h)) then delete (to_token h) P else P
  | None => P
  end.

Definition arm P (h : Timeout) (s : Z) : gmap Z (Z * Z) := <[to_token h := (to_tick h, s)]> P.

Lemma live_release P o h s : live (release P o) h s <-> live P h s /\ o <> Some h.
Proof.
  destruct o as [h0 |]; [| by naive_solver]. unfold release, live. case_decide as Hd.
  - rewrite lookup_delete_Some. split.
    + intros [Hne Hl]. split; [done |]. by intros [= ->].
    + intros [Hl Hne]. split; [| done]. intros Heq. apply Hne. f_equal. rewrite Heq, Hl in Hd. cbn in Hd.
      destruct h, h0; cbn in *; congruence.
  - split; [| by intros []]. intros Hl. split; [done |]. intros [= ->]. apply Hd. by rewrite Hl.
Qed.

Lemma live_arm P h s h' s' :
  P !! to_token h = None -> live (arm P h s) h' s' <-> (h' = h /\ s' = s) \/ live P h' s'.
Proof.
  intros Hfree. unfold live, arm. rewrite lookup_insert_Some. split.
  - intros [[Heq [= Ht ->]] | [_ Hl]]; [| by right]. left. destruct h, h'; cbn in *. by subst.
  - intros [[-> ->] | Hl]; [by left |]. right. split; [| done]. intros Heq. rewrite <- Heq, Hfree in Hl. done.
Qed.

Lemma release_spent P now h : spent P now h -> release P (Some h) = P.
Proof.
  intros [_ Hno]. unfold release. case_decide as Hd; [| done].
  apply fmap_Some in Hd as ([tk s] & Hl & Heq). destruct (Hno s). unfold live. by rewrite Hl, Heq.
Qed.

Lemma owned_live P now cs i c h : owned P now cs -> cs !! i = Some c -> tc_timeout c = Some h -> now < to_tick h ->
  exists s, live P h s.
Proof. intros Ho Hc Hh Hlt. destruct (ow_handle _ _ _ Ho i c h Hc Hh) as [[? _] | (s & Hl & _)]; [lia | by exists s]. Qed.

(** A container that gives its timeout up. *)
Lemma owned_release P now cs cs' i :
  owned P now cs -> (forall j, j <> i -> cs' !! j = cs !! j) ->
  (forall c', cs' !! i = Some c' -> tc_timeout c' = None /\ tc_deadline c' = None) ->
  owned (release P (cs !! i ≫= tc_timeout)) now cs'.
Proof.
  intros Ho Hrest Hi.
  assert (Hother : forall j c' h, cs' !! j = Some c' -> tc_timeout c' = Some h -> j <> i /\ cs !! j = Some c').
  { intros j c' h Hj Hh. destruct (decide (j = i)) as [-> | Hne]; [by destruct (Hi _ Hj); congruence |].
    by rewrite Hrest in Hj. }
  split.
  - intros h s [Hl Hne]%live_release. destruct (ow_pending _ _ _ Ho h s Hl) as (Hnow & j & c' & Hj & Hh & Ht).
    split; [done |]. exists j, c'. rewrite Hrest; [done |]. intros ->. by rewrite Hj in Hne.
  - intros j c' h Hj Hh. destruct (Hother _ _ _ Hj Hh) as [Hne Hj'].
    destruct (ow_handle _ _ _ Ho j c' h Hj' Hh) as [[Hs Hno] | (s & Hl & Ht)].
    + left. split; [done |]. intros s [Hl _]%live_release. by eapply Hno.
    + right. exists s. split; [| done]. apply live_release. split; [done |]. intros (c & Hc & Heq)%bind_Some.
      by apply Hne, (ow_one _ _ _ Ho j i c' c h s).
  - intros j1 j2 c1 c2 h s H1 H2 Hh1 Hh2 [Hl _]%live_release.
    destruct (Hother _ _ _ H1 Hh1), (Hother _ _ _ H2 Hh2). by eapply (ow_one _ _ _ Ho).
  - intros j c' Hj. destruct (decide (j = i)) as [-> | Hne].
    + destruct (Hi _ Hj) as [-> ->]. split; by intros [].
    + rewrite Hrest in Hj by done. by eapply (ow_deadline _ _ _ Ho).
Qed.

(** A container that holds nothing and takes a new timeout. *)
Lemma owned_arm P now cs i h s c' :
  owned P now cs -> (forall c, cs !! i = Some c -> tc_timeout c = None) -> P !! to_token h = None -> now < to_tick h ->
  tc_timeout c' = Some h -> tc_token c' = Some s -> is_Some (tc_deadline c') ->
  owned (arm P h s) now (<[i := c']> cs).
Proof.
  intros Ho Hi Hfree Hlt Hh Ht Hd.
  assert (Hnew : forall j c, cs !! j = Some c -> tc_timeout c <> Some h).
  { intros j c Hj Heq. destruct (owned_live _ _ _ _ _ _ Ho Hj Heq Hlt) as [s' Hl]. unfold live in Hl. congruence. }
  split.
  - intros h' s' [[-> ->] | Hl]%live_arm; [| | done].
    + split; [lia |]. exists i, c'. by rewrite lookup_insert_eq.
    + destruct (ow_pending _ _ _ Ho h' s' Hl) as (Hnow & j & c & Hj & Hh' & Ht'). split; [done |].
      exists j, c. rewrite lookup_insert_ne; [done |]. intros ->. specialize (Hi _ Hj). congruence.
  - intros j c h' [[<- <-] | [Hne Hj]]%lookup_insert_Some Hh'.
    + right. exists s. rewrite Hh in Hh'. injection Hh' as <-. split; [| done]. apply live_arm; [done | by left].
    + destruct (ow_handle _ _ _ Ho j c h' Hj Hh') as [[Hs Hno] | (s' & Hl & Ht')].
      * left. split; [done |]. intros s' [[-> _] | Hl]%live_arm; [lia | by eapply Hno | done].
      * right. exists s'. split; [| done]. apply live_arm; [done | by right].
  - intros j1 j2 c1 c2 h' s' [[<- <-] | [Hne1 H1]]%lookup_insert_Some [[<- <-] | [Hne2 H2]]%lookup_insert_Some Hh1 Hh2 Hl;
      [done | by destruct (Hnew j2 c2 H2); congruence | by destruct (Hnew j1 c1 H1); congruence |].
    apply live_arm in Hl as [[-> _] | Hl]; [by destruct (Hnew j1 c1 H1) | by eapply (ow_one _ _ _ Ho) | done].
  - intros j c [[<- <-] | [_ Hj]]%lookup_insert_Some; [by rewrite Hh | by eapply (ow_deadline _ _ _ Ho)].
Qed.

(** A poll spends the handle of what it delivers. *)
Lemma owned_poll t t' o target cs :
  owned (pending t) (tick t) cs -> tick t <= target -> polled target t t' o -> owned (pending t') (tick t') cs.
Proof.
  intros Ho Hle Hpol. assert (Hsub : tick t <= tick t' /\ (forall h s, live (pending t') h s -> live (pending t) h s /\ tick t' <= to_tick h) /\
    forall h s, live (pending t) h s -> live (pending t') h s \/ spent (pending t') (tick t') h).
  { destruct o as [s0 |]; cbn [polled] in Hpol.
    - destruct Hpol as (k & tk & Hk & _ & Ht & Hmin & Hp). rewrite Ht, Hp. split; [| split].
      + apply (ow_pending _ _ _ Ho (mkTimeout k tk) s0 Hk).
      + intros h s [_ Hl]%lookup_delete_Some. split; [done | by eapply Hmin].
      + intros h s Hl. destruct (decide (k = to_token h)) as [-> | Hne].
        * right. unfold live in Hl. split; [unfold live in *; rewrite Hk in Hl; injection Hl; lia |].
          intros s' Hl'. unfold live in Hl'. by rewrite lookup_delete_eq in Hl'.
        * left. unfold live. by rewrite lookup_delete_ne.
    - destruct Hpol as (Hp & Ht & Hnone). rewrite Ht, Hp. split; [lia |]. split; [| by left].
      intros h s Hl. split; [done |]. pose proof (Hnone _ _ _ Hl). lia. }
  destruct Hsub as (Hmono & Hdown & Hup). split.
  - intros h s [Hl Hn]%Hdown. split; [done |]. by apply (ow_pending _ _ _ Ho).
  - intros i c h Hc Hh. destruct (ow_handle _ _ _ Ho i c h Hc Hh) as [[Hs Hno] | (s & Hl & Ht)].
    + left. split; [lia |]. intros s [Hl _]%Hdown. by eapply Hno.
    + destruct (Hup h s Hl) as [Hl' | Hsp]; [right; by exists s | by left].
  - intros i j c c' h s Hi Hj Hh Hh' [Hl _]%Hdown. by eapply (ow_one _ _ _ Ho).
  - apply Ho.
Qed.

(** ** The calls on the wheel *)

(** A worker's wheel after at most [n] calls. *)
Definition in_service (n : nat) t : Prop :=
  (exists settled, well_formed settled t) /\ tick_ms t = 100 /\ tick t <= 2 ^ 63 + Z.of_nat n /\
  (size (pending t) <= n)%nat.

(** A delay whose end is a [Duration] since the wheel's start. *)
Definition clock_ok t (now delay : Z) : Prop := 0 <= delay /\ duration_since now (start t) + delay <= DURATION_MAX.

(** What a call on container [i] does to the wheel and to the others. *)
Record call_spec (n : nat) (i : nat) t cs t' cs' : Prop := {
  cp_service : in_service n t';
  cp_start : start t' = start t;
  cp_owned : owned (pending t') (tick t') cs';
  cp_others : forall j c h s, j <> i -> cs !! j = Some c -> tc_timeout c = Some h ->
    live (pending t) h s -> live (pending t') h s;
}.

Lemma in_service_mono n m t : in_service n t -> (n <= m)%nat -> in_service m t.
Proof. intros (Hwf & Hms & Ht & Hs) Hle. split; [done |]. split; [done |]. lia. Qed.

Lemma call_drop n i t cs cs' c :
  in_service n t -> owned (pending t) (tick t) cs -> cs !! i = Some c ->
  (forall j, j <> i -> cs' !! j = cs !! j) ->
  (forall c', cs' !! i = Some c' -> tc_timeout c' = None /\ tc_deadline c' = None) ->
  exists t', cancel_held t c = Val t' /\ call_spec n i t cs t' cs'.
Proof.
  intros Hsv Ho Hc Hrest Hi. pose proof (owned_release _ _ _ _ _ Ho Hrest Hi) as Ho'. rewrite Hc in Ho'. cbn in Ho'.
  assert (Hothers : forall j c' h s, j <> i -> cs !! j = Some c' -> tc_timeout c' = Some h ->
    live (pending t) h s -> live (release (pending t) (tc_timeout c)) h s).
  { intros j c' h s Hne Hj Hh Hl. apply live_release. split; [done |]. intros Heq.
    by apply Hne, (ow_one _ _ _ Ho j i c' c h s). }
  unfold cancel_held. destruct (tc_timeout c) as [h |] eqn:Hh.
  2: { exists t. split; [done |]. by split. }
  destruct Hsv as ([settled Hwf] & Hms & Ht & Hs).
  destruct (cancel_spec settled t h Hwf) as (t' & o & Hcan & Hwf' & Htick & Hp). rewrite Hcan.
  destruct (cancel_grid _ _ _ _ Hcan) as [Hms' Hst]. exists t'. split; [done |].
  assert (Hp' : pending t' = release (pending t) (Some h) /\ (size (pending t') <= size (pending t))%nat).
  { unfold release. destruct o as [state |]; destruct Hp as [Hl ->].
    - rewrite Hl. cbn. rewrite decide_True by done. split; [done |].
      pose proof (map_size_delete_Some (to_token h) (pending t) ltac:(by rewrite Hl)). lia.
    - split; [| lia]. case_decide as Hd; [| done]. apply fmap_Some in Hd as ([tk s] & Hk & Heq).
      destruct (Hl s). by rewrite Hk, Heq. }
  destruct Hp' as [Hp' Hsize]. split; rewrite ?Hp', ?Htick; try done.
  split; [by eexists |]. rewrite Hms', Htick. split; [done |]. lia.
Qed.

Lemma call_unarm n i t cs c c' :
  in_service n t -> owned (pending t) (tick t) cs -> cs !! i = Some c -> tc_timeout c' = None -> tc_deadline c' = None ->
  exists t', cancel_held t c = Val t' /\ call_spec n i t cs t' (<[i := c']> cs).
Proof.
  intros Hsv Ho Hc Hh Hd. apply call_drop; [done | done | done | |].
  - intros j Hne. by rewrite lookup_insert_ne.
  - intros c0. rewrite lookup_insert_eq. by intros [= <-].
Qed.

(** What the cancellation of a held handle returned. *)
Lemma held_cancel n t c h t1 :
  in_service n t -> tc_timeout c = Some h -> cancel_held t c = Val t1 ->
  exists o, cancel_timeout t h = Val (t1, o) /\ forall s, live (pending t) h s <-> o = Some s.
Proof.
  intros ([settled Hwf] & _) Hh Hcan. unfold cancel_held in Hcan. rewrite Hh in Hcan.
  apply bind_Val in Hcan as ([t2 o] & Hcan & [= ->]). exists o. split; [done |]. intros s.
  destruct (cancel_spec settled t h Hwf) as (t2 & o' & Hcan' & _ & _ & Hp). rewrite Hcan in Hcan'.
  injection Hcan' as <- <-. unfold live. destruct o as [s' |]; destruct Hp as [Hl _]; [rewrite Hl |]; naive_solver.
Qed.

Lemma call_arm n i t cs now delay s :
  in_service n t -> owned (pending t) (tick t) cs -> (forall c, cs !! i = Some c -> tc_timeout c = None) ->
  clock_ok t now delay -> Z.of_nat n < 2 ^ 62 ->
  exists t' h, set_timeout t now delay s = Val (t', h) /\ forall c', tc_timeout c' = Some h -> tc_token c' = Some s ->
    is_Some (tc_deadline c') -> call_spec (S n) i t cs t' (<[i := c']> cs).
Proof.
  intros ([settled Hwf] & Hms & Ht & Hs) Ho Hi [Hd Hsum] Hn.
  set (delay' := duration_since now (start t) + delay).
  destruct (set_spec settled t delay' s Hwf) as (t' & token & Hset & Hwf' & Htick & Hfree & Hp);
    [lia | unfold delay', duration_since; lia | unfold U64_MAX; lia | unfold room; lia |].
  set (h := mkTimeout token (set_tick (tick_ms t) (tick t) delay')) in *.
  change (pending t' = arm (pending t) h s) in Hp. exists t', h. split.
  { unfold set_timeout, set_timeout_from, duration_add. rewrite (proj2 (Z.leb_le _ _) Hsum). exact Hset. }
  destruct (set_grid _ _ _ _ _ Hset) as [Hms' Hst]. intros c' Hh Htok Hdl.
  split; [| done | |]; rewrite ?Hp, ?Htick.
  - split; [by eexists |]. rewrite Hms', Htick, Hp. unfold arm. rewrite map_size_insert_None by done. split; [done |]. lia.
  - apply (owned_arm _ _ _ i h s c'); try done. cbn. unfold set_tick. lia.
  - intros j c h' s' Hne Hj Hh' Hl. apply live_arm; [done | by right].
Qed.

Lemma call_rearm n i t cs c now delay s :
  in_service n t -> owned (pending t) (tick t) cs -> cs !! i = Some c -> clock_ok t now delay -> Z.of_nat n < 2 ^ 62 ->
  exists t1 t' h, cancel_held t c = Val t1 /\ set_timeout t1 now delay s = Val (t', h) /\
    forall c', tc_timeout c' = Some h -> tc_token c' = Some s -> is_Some (tc_deadline c') ->
      call_spec (S n) i t cs t' (<[i := c']> cs).
Proof.
  intros Hsv Ho Hc Hck Hn.
  destruct (call_unarm n i t cs c (container_new_empty 0) Hsv Ho Hc) as (t1 & H1 & Hs1); [done | done |].
  destruct Hs1 as [Hsv1 Hst1 Ho1 Hoth1].
  destruct (call_arm n i t1 (<[i := container_new_empty 0]> cs) now delay s) as (t' & h & H2 & Hs2); [done | done | | | done |].
  { intros c'. rewrite lookup_insert_eq. by intros [= <-]. }
  { unfold clock_ok. by rewrite Hst1. }
  exists t1, t', h. split; [done |]. split; [done |]. intros c' Hh Htok Hdl.
  destruct (Hs2 c' Hh Htok Hdl) as [Hsv2 Hst2 Ho2 Hoth2]. rewrite insert_insert_eq in Ho2.
  split; [done | congruence | done |]. intros j c0 h0 s0 Hne Hj Hh0 Hl.
  apply (Hoth2 j c0 h0 s0 Hne); [by rewrite lookup_insert_ne | done |]. by eapply Hoth1.
Qed.

(** When a call may be made: containers that exist, delays that can be added to
    the clock, and [triggered] only after the timeout was delivered. *)
Definition call_ok t cs (op : ContainerOp) : Prop :=
  match op with
  | CNew i now _ duration _ => cs !! i = None /\ clock_ok t now duration
  | CNewEmpty i _ => cs !! i = None
  | CTake i j => is_Some (cs !! i) /\ cs !! j = None
  | CTriggered i => exists c, cs !! i = Some c /\ forall h, tc_timeout c = Some h -> spent (pending t) (tick t) h
  | CSet i now _ _ | CReset i now _ => exists c, cs !! i = Some c /\ clock_ok t now (tc_duration c)
  | CSetAt i now now' _ deadline => is_Some (cs !! i) /\ clock_ok t now' (duration_since deadline now)
  | CSetDuration i now _ duration => is_Some (cs !! i) /\ clock_ok t now duration
  | CRetune i _ | CCancel i | CDrop i => is_Some (cs !! i)
  | CPoll _ => True
  end.

(** A container that changes nothing of what it holds. *)
Lemma call_keep n i t cs cs' :
  in_service n t -> owned (pending t) (tick t) cs' -> call_spec (S n) i t cs t cs'.
Proof. intros Hsv Ho. split; [eapply in_service_mono; [done | lia] | done | done | done]. Qed.

Lemma call_spec_mono n m i t cs t' cs' : call_spec n i t cs t' cs' -> (n <= m)%nat -> call_spec m i t cs t' cs'.
Proof. intros [H1 H2 H3 H4] Hle. split; [by eapply in_service_mono | done..]. Qed.

(** A container that holds no live timeout can be emptied. *)
Lemma owned_unarm P now cs i c' :
  owned P now cs -> (forall h, cs !! i ≫= tc_timeout = Some h -> spent P now h) ->
  tc_timeout c' = None -> tc_deadline c' = None -> owned P now (<[i := c']> cs).
Proof.
  intros Ho Hsp Hh Hd.
  assert (Hr : release P (cs !! i ≫= tc_timeout) = P).
  { destruct (cs !! i ≫= tc_timeout) as [h |]; [| done]. by apply (release_spent P now), Hsp. }
  rewrite <- Hr. apply (owned_release _ _ cs); [done | |].
  - intros j Hne. by rewrite lookup_insert_ne.
  - intros c0. rewrite lookup_insert_eq. by intros [= <-].
Qed.

Lemma owned_retune P now cs i c duration :
  owned P now cs -> cs !! i = Some c -> owned P now (<[i := container_retune c duration]> cs).
Proof.
  intros Ho Hc.
  assert (Hsame : forall j c', <[i := container_retune c duration]> cs !! j = Some c' ->
    exists c0, cs !! j = Some c0 /\ tc_timeout c' = tc_timeout c0 /\ tc_token c' = tc_token c0 /\ tc_deadline c' = tc_deadline c0).
  { intros j c' [[<- <-] | [_ Hj]]%lookup_insert_Some; [by exists c | by exists c']. }
  split.
  - intros h s Hl. destruct (ow_pending _ _ _ Ho h s Hl) as (Hn & j & c' & Hj & Hh & Ht). split; [done |].
    exists j. destruct (decide (j = i)) as [-> | Hne].
    + exists (container_retune c duration). rewrite lookup_insert_eq. rewrite Hc in Hj. by injection Hj as ->.
    + exists c'. by rewrite lookup_insert_ne.
  - intros j c' h (c0 & Hj & -> & -> & _)%Hsame Hh. by eapply (ow_handle _ _ _ Ho).
  - intros j1 j2 c1 c2 h s (c3 & H1 & -> & _)%Hsame (c4 & H2 & -> & _)%Hsame Hh1 Hh2 Hl. by eapply (ow_one _ _ _ Ho).
  - intros j c' (c0 & Hj & -> & _ & ->)%Hsame. by eapply (ow_deadline _ _ _ Ho).
Qed.

(** The timeout moves with the container that is taken. *)
Lemma owned_take P now cs i j c :
  owned P now cs -> cs !! i = Some c -> cs !! j = None ->
  owned P now (<[j := c]> (<[i := (container_take c).1]> cs)).
Proof.
  intros Ho Hc Hj. assert (Hij : j <> i) by congruence. set (cs' := <[j := c]> _).
  set (from k := if decide (k = j) then i else k).
  assert (Hfrom : forall k c' h, cs' !! k = Some c' -> tc_timeout c' = Some h -> k <> i /\ cs !! from k = Some c').
  { intros k c' h [[<- <-] | [Hne [[<- <-] | [Hne' Hk]]%lookup_insert_Some]]%lookup_insert_Some Hh; [| done |]; unfold from.
    - by rewrite decide_True.
    - by rewrite decide_False. }
  split.
  - intros h s Hl. destruct (ow_pending _ _ _ Ho h s Hl) as (Hn & k & c' & Hk & Hh & Ht). split; [done |].
    destruct (decide (k = i)) as [-> | Hne].
    + exists j, c. unfold cs'. rewrite lookup_insert_eq. rewrite Hc in Hk. by injection Hk as ->.
    + exists k, c'. unfold cs'. by rewrite !lookup_insert_ne by congruence.
  - intros k c' h Hk Hh. destruct (Hfrom _ _ _ Hk Hh) as [_ Hk']. by eapply (ow_handle _ _ _ Ho).
  - intros k1 k2 c1 c2 h s H1 H2 Hh1 Hh2 Hl. destruct (Hfrom _ _ _ H1 Hh1) as [Hne1 H1'], (Hfrom _ _ _ H2 Hh2) as [Hne2 H2'].
    pose proof (ow_one _ _ _ Ho _ _ _ _ _ _ H1' H2' Hh1 Hh2 Hl) as Heq. unfold from in Heq. repeat case_decide; congruence.
  - intros k c' [[<- <-] | [_ [[<- <-] | [_ Hk]]%lookup_insert_Some]]%lookup_insert_Some;
      [by eapply (ow_deadline _ _ _ Ho) | split; by intros [] | by eapply (ow_deadline _ _ _ Ho)].
Qed.

(** [reset] of a container that holds a handle: a live one is set again, a
    spent one is let go. *)
Lemma call_reset n i t cs c now now' :
  in_service n t -> owned (pending t) (tick t) cs -> cs !! i = Some c -> clock_ok t now (tc_duration c) ->
  Z.of_nat n < 2 ^ 62 ->
  exists t' c' b, container_reset t c now now' = Val (t', c', b) /\ call_spec (S n) i t cs t' (<[i := c']> cs) /\
    b = is_armed c'.
Proof.
  intros Hsv Ho Hc Hck Hn. unfold container_reset. destruct (tc_timeout c) as [h |] eqn:Hh.
  - destruct (ow_handle _ _ _ Ho i c h Hc Hh) as [Hsp | (s & Hl & Htok)].
    + destruct (call_unarm n i t cs c (mkContainer None (tc_duration c) (tc_token c) None) Hsv Ho Hc)
        as (t1 & H1 & Hs1); [done | done |].
      destruct (held_cancel _ _ _ _ _ Hsv Hh H1) as (o & Hcan & Hlive).
      destruct o as [s |]; [destruct (proj2 Hsp s); by apply Hlive |].
      unfold reset_timeout. rewrite Hcan. eexists _, _, _. split; [done |]. split; [| done].
      eapply call_spec_mono; [done | lia].
    + destruct (call_rearm n i t cs c now (tc_duration c) s Hsv Ho Hc Hck Hn) as (t1 & t' & h' & H1 & H2 & Hs).
      destruct (held_cancel _ _ _ _ _ Hsv Hh H1) as (o & Hcan & Hlive). rewrite (proj1 (Hlive s) Hl) in Hcan.
      unfold reset_timeout. rewrite Hcan. cbn [mbind outcome_bind]. rewrite H2.
      eexists _, _, _. split; [done |]. split; [| done]. by apply Hs.
  - destruct (tc_token c) as [s |] eqn:Htok.
    + destruct (call_arm n i t cs now (tc_duration c) s Hsv Ho) as (t' & h & -> & Hs); [congruence | done | done |].
      eexists _, _, _. split; [done |]. split; [| done]. by apply Hs.
    + eexists _, _, _. split; [done |]. split; [| done]. apply call_keep; [done |].
      apply owned_unarm; [done | | done | done]. rewrite Hc. cbn. congruence.
Qed.

(** The poll of the clock: what it does to the wheel of the worker. *)
Lemma call_poll n t cs now :
  in_service n t -> owned (pending t) (tick t) cs -> Z.of_nat n < 2 ^ 62 ->
  exists t' o, poll t now = Val (t', o) /\ in_service (S n) t' /\ start t' = start t /\ owned (pending t') (tick t') cs.
Proof.
  intros ([settled Hwf] & Hms & Ht & Hs) Ho Hn. unfold poll, poll_at, duration_to_tick. rewrite Hms.
  cbn [Z.eqb mbind outcome_bind]. set (target := u64_saturating_add _ _ / 100).
  assert (Htarget : target < 2 ^ 63).
  { apply Z.div_lt_upper_bound; [done |]. unfold u64_saturating_add, U64_MAX. lia. }
  destruct (poll_spec settled t target Hwf) as (t' & o & Hpoll & Hwf' & Hpol); [unfold U64_MAX; lia |].
  exists t', o. split; [done |]. destruct (poll_grid _ _ _ _ _ Hpoll) as [Hms' Hst].
  split; [| split; [done |]; by eapply owned_poll; [| | exact Hpol]; [| lia]].
  split; [by eexists |]. split; [congruence |]. destruct o as [s |]; cbn [polled] in Hpol.
  - destruct Hpol as (k & tk & Hk & Hle & -> & _ & ->).
    pose proof (map_size_delete_Some k (pending t) ltac:(by rewrite Hk)). lia.
  - destruct Hpol as (-> & -> & _). lia.
Qed.

(** A call that may be made on container [i] returns. *)
Lemma step_call n t cs op i :
  in_service n t -> owned (pending t) (tick t) cs -> call_ok t cs op -> Z.of_nat n < 2 ^ 62 -> subject op = Some i ->
  exists t' cs', container_step t cs op = Val (t', cs') /\ call_spec (S n) i t cs t' cs'.
Proof.
  intros Hsv Ho Hok Hn Hi.
  destruct op; cbn [subject] in Hi; try done; injection Hi as ->; cbn [call_ok container_step] in *; unfold on_container.
  - destruct Hok as [Hnone Hck]. unfold container_new.
    destruct (call_arm n i t cs now duration token Hsv Ho) as (t' & h & -> & Hs); [congruence | done | done |].
    eexists _, _. split; [done |]. by apply Hs.
  - eexists _, _. split; [done |]. apply call_keep; [done |].
    apply owned_unarm; [done | by rewrite Hok | done | done].
  - destruct Hok as [[c Hc] Hj]. rewrite Hc. eexists _, _. split; [done |]. apply call_keep; [done | by apply owned_take].
  - destruct Hok as (c & Hc & Hsp). rewrite Hc. eexists _, _. split; [done |]. apply call_keep; [done |].
    apply owned_unarm; [done | by rewrite Hc | done | done].
  - destruct Hok as (c & Hc & Hck). rewrite Hc. unfold container_set.
    destruct (call_rearm n i t cs c now (tc_duration c) token Hsv Ho Hc Hck Hn) as (t1 & t' & h & -> & H2 & Hs).
    cbn [mbind outcome_bind]. rewrite H2. eexists _, _. split; [done |]. by apply Hs.
  - destruct Hok as [[c Hc] Hck]. rewrite Hc. unfold container_set_at.
    destruct (call_rearm n i t cs c now' (duration_since deadline now) token Hsv Ho Hc Hck Hn) as (t1 & t' & h & -> & H2 & Hs).
    cbn [mbind outcome_bind]. rewrite H2. eexists _, _. split; [done |]. by apply Hs.
  - destruct Hok as [[c Hc] Hck]. rewrite Hc. unfold container_set_duration. destruct (tc_token c) as [token |].
    + destruct (call_rearm n i t cs c now duration token Hsv Ho Hc Hck Hn) as (t1 & t' & h & -> & H2 & Hs).
      cbn [mbind outcome_bind]. rewrite H2. eexists _, _. split; [done |]. by apply Hs.
    + destruct (call_unarm n i t cs c (mkContainer None duration None None) Hsv Ho Hc) as (t1 & -> & Hs); [done | done |].
      eexists _, _. split; [done |]. eapply call_spec_mono; [done | lia].
  - destruct Hok as [c Hc]. rewrite Hc. eexists _, _. split; [done |]. apply call_keep; [done | by apply owned_retune].
  - destruct Hok as [c Hc]. rewrite Hc. unfold container_cancel.
    destruct (call_unarm n i t cs c (mkContainer None (tc_duration c) (tc_token c) None) Hsv Ho Hc) as (t1 & -> & Hs); [done | done |].
    eexists _, _. split; [done |]. eapply call_spec_mono; [done | lia].
  - destruct Hok as (c & Hc & Hck). rewrite Hc.
    destruct (call_reset n i t cs c now now' Hsv Ho Hc Hck Hn) as (t' & c' & b & -> & Hs & _). by eexists _, _.
  - destruct Hok as [c Hc]. rewrite Hc. unfold container_drop, container_cancel.
    destruct (call_drop n i t cs (delete i cs) c Hsv Ho Hc) as (t1 & -> & Hs).
    { intros j Hne. by rewrite lookup_delete_ne. }
    { intros c'. by rewrite lookup_delete_eq. }
    eexists _, _. split; [done |]. eapply call_spec_mono; [done | lia].
Qed.

(** ** The states of a worker's timers *)

(** From a wheel with the ticks of [timer_default], of any size. *)
Inductive sessions_reach : nat -> Timer Z -> gmap nat TimeoutContainer -> Prop :=
| reach_start num_slots capacity now : sessions_reach 0 (timer_new 100 num_slots capacity now) ∅
| reach_call n t cs op t' cs' :
    sessions_reach n t cs -> call_ok t cs op -> container_step t cs op = Val (t', cs') ->
    sessions_reach (S n) t' cs'.

Lemma step_any n t cs op :
  in_service n t -> owned (pending t) (tick t) cs -> call_ok t cs op -> Z.of_nat n < 2 ^ 62 ->
  exists t' cs', container_step t cs op = Val (t', cs') /\ in_service (S n) t' /\ owned (pending t') (tick t') cs' /\
    forall i j c h s, subject op = Some i -> j <> i -> cs !! j = Some c -> tc_timeout c = Some h ->
      live (pending t) h s -> live (pending t') h s.
Proof.
  intros Hsv Ho Hok Hn. destruct (subject op) as [i |] eqn:Hi.
  - destruct (step_call n t cs op i Hsv Ho Hok Hn Hi) as (t' & cs' & Hs & [H1 _ H3 H4]). exists t', cs'.
    split; [done |]. split; [done |]. split; [done |]. intros i' j c h s [= ->]. apply H4.
  - destruct op; try done. destruct (call_poll n t cs now Hsv Ho Hn) as (t' & o & Hp & Hsv' & _ & Ho').
    exists t', cs. cbn [container_step]. rewrite Hp. done.
Qed.

Lemma reach_owned n t cs :
  sessions_reach n t cs -> Z.of_nat n < 2 ^ 62 -> in_service n t /\ owned (pending t) (tick t) cs.
Proof.
  induction 1 as [num_slots capacity now | n t cs op t' cs' _ IH Hok Hstep]; intros Hn.
  - assert (Hp : pending (timer_new (T := Z) 100 num_slots capacity now) = ∅) by (unfold pending, ent; cbn; by rewrite law_slab_new, fmap_empty).
    split; [split; [exists true; apply well_formed_new | rewrite Hp, map_size_empty; by vm_compute] |].
    rewrite Hp. by split.
  - destruct IH as [Hsv Ho]; [lia |]. destruct (step_any n t cs op Hsv Ho Hok) as (t1 & cs1 & Hs & H1 & H2 & _); [lia |].
    rewrite Hstep in Hs. by injection Hs as <- <-.
Qed.

(** C22. The sessions of a worker never lose a timeout nor touch another's: after any
    sequence of calls on the containers and polls of the wheel, each pending
    timeout is held by exactly one container and carries its token, a container
    that is armed holds either a pending timeout or the handle of one that was
    delivered, and its deadline is set exactly while it is armed; every further
    call returns, and leaves what the other containers hold pending. *)
Theorem containers_own_wheel n t cs :
  sessions_reach n t cs -> Z.of_nat n < 2 ^ 62 ->
  owned (pending t) (tick t) cs /\
  forall op, call_ok t cs op -> exists t' cs', container_step t cs op = Val (t', cs') /\
    forall i j c h s, subject op = Some i -> j <> i -> cs !! j = Some c -> tc_timeout c = Some h ->
      live (pending t) h s -> live (pending t') h s.
Proof.
  intros Hr Hn. destruct (reach_owned n t cs Hr Hn) as [Hsv Ho]. split; [done |]. intros op Hok.
  destruct (step_any n t cs op Hsv Ho Hok Hn) as (t' & cs' & Hs & _ & _ & Hoth). by exists t', cs'.
Qed.

(** A sequence of calls that may be made. *)
Inductive calls t cs : list ContainerOp -> Timer Z -> gmap nat TimeoutContainer -> Prop :=
| calls_nil : calls t cs [] t cs
| calls_cons op ops t1 cs1 t' cs' :
    call_ok t cs op -> container_step t cs op = Val (t1, cs1) -> calls t1 cs1 ops t' cs' ->
    calls t cs (op :: ops) t' cs'.

Lemma reach_calls ops n t cs t' cs' :
  sessions_reach n t cs -> calls t cs ops t' cs' -> sessions_reach (length ops + n) t' cs'.
Proof.
  intros Hr Hc. revert n Hr. induction Hc as [| t cs op ops t1 cs1 t' cs' Hok Hs _ IH]; intros n Hr; [done |].
  cbn [length]. rewrite Nat.add_succ_comm. apply IH. by econstructor.
Qed.

End Containers.

(** ** Two sessions *)

#[local] Existing Instance simple_slab.
#[local] Existing Instance simple_slab_laws.

(** Two containers: the first is delivered and acknowledged, the second is reset
    and takes the slab's key of the first. *)
Definition some_calls : list ContainerOp :=
  [CNew 0 0 0 200000000 7; CNew 1 0 0 900000000 8; CPoll 210000000; CTriggered 0; CReset 1 220000000 220000000].

(** The wheel and the containers after [k] of the calls. *)
Definition at_call (k : nat) : Timer Z * gmap nat TimeoutContainer :=
  foldl (fun st op => match container_step st.1 st.2 op with Val st => st | _ => st end)
    (timer_new 100 4 4 0, ∅) (take k some_calls).

Ltac now_at k := vm_cast_no_check (@eq_refl (checked (Timer Z * gmap nat TimeoutContainer)) (Val (at_call k))).

Lemma containers_own_wheel_witness :
  pending (at_call 5).1 = {[0 := (11, 8)]} /\ owned (pending (at_call 5).1) (tick (at_call 5).1) (at_call 5).2.
Proof.
  split; [by vm_compute |]. refine (proj1 (containers_own_wheel 5 (at_call 5).1 (at_call 5).2 _ eq_refl)).
  apply (reach_calls some_calls 0 (at_call 0).1 (at_call 0).2); [apply reach_start |].
  apply (calls_cons _ _ _ _ (at_call 1).1 (at_call 1).2); [repeat split; by vm_compute | now_at 1%nat |].
  apply (calls_cons _ _ _ _ (at_call 2).1 (at_call 2).2); [repeat split; by vm_compute | now_at 2%nat |].
  apply (calls_cons _ _ _ _ (at_call 3).1 (at_call 3).2); [exact I | now_at 3%nat |].
  apply (calls_cons _ _ _ _ (at_call 4).1 (at_call 4).2); [| now_at 4%nat |].
  { exists (mkContainer (Some (mkTimeout 0 2)) 200000000 (Some 7) (Some 200000000)). split; [by vm_compute |].
    intros h [= <-]. split; [by vm_compute |]. intros s. by vm_compute. }
  apply (calls_cons _ _ _ _ (at_call 5).1 (at_call 5).2); [| now_at 5%nat | apply calls_nil].
  exists (mkContainer (Some (mkTimeout 1 9)) 900000000 (Some 8) (Some 900000000)). repeat split; by vm_compute.
Defined.
