(* ===== verification/Backend.v ===== *)
(** * Backends

    [Backend] and [HealthState] of [lib/src/backends.rs], and [PeakEWMA] of
    [lib/src/lib.rs].  An [f64] is a [spec_float] of the Standard Library with
    the precision and exponent range of binary64; the exponential of the
    platform is a parameter.  Instants and durations are nanoseconds; the jitter
    of a backoff is [draw], as in [Retry]. *)

From Stdlib Require Import SpecFloat.
From S2P Require Import Prelude Retry ProxyProtocol.

(** ** Floating-point numbers *)

Abbreviation f64 := spec_float.

Definition f64_of_Z (z : Z) : f64 := binary_normalize 53 1024 z 0 false.
Definition f64_add : f64 -> f64 -> f64 := SFadd 53 1024.
Definition f64_sub : f64 -> f64 -> f64 := SFsub 53 1024.
Definition f64_mul : f64 -> f64 -> f64 := SFmul 53 1024.
Definition f64_div : f64 -> f64 -> f64 := SFdiv 53 1024.
Definition f64_neg : f64 -> f64 := SFopp.

Definition f64_gt (a b : f64) : bool := SFltb b a.
Definition f64_ge (a b : f64) : bool := SFleb b a.
Definition f64_zero : f64 := S754_zero false.
Definition f64_half : f64 := f64_div (f64_of_Z 1) (f64_of_Z 2).

Definition is_finite (x : f64) : bool :=
  match x with S754_zero _ | S754_finite _ _ _ => true | _ => false end.

(** ** Addresses *)

Global Instance socket_addr_v4_dec : EqDecision SocketAddrV4.
Proof. solve_decision. Defined.
Global Instance socket_addr_v6_dec : EqDecision SocketAddrV6.
Proof. solve_decision. Defined.
Global Instance socket_addr_dec : EqDecision SocketAddr.
Proof. solve_decision. Defined.

Global Instance socket_addr_countable : Countable SocketAddr.
Proof.
  refine (inj_countable'
    (fun a => match a with
              | V4 a => inl (ip4 a, port4 a)
              | V6 a => inr (ip6 a, port6 a, flowinfo a, scope_id a)
              end)
    (fun x => match x with
              | inl (ip, port) => V4 (mkSocketAddrV4 ip port)
              | inr (ip, port, flow, scope) => V6 (mkSocketAddrV6 ip port flow scope)
              end) _).
  by intros [[? ?] | [? ? ? ?]].
Defined.

(** ** The health of a backend *)

Inductive HealthStatus := Healthy | Unhealthy.
Global Instance health_status_dec : EqDecision HealthStatus.
Proof. solve_decision. Defined.

Record HealthState := mkHealth {
  status : HealthStatus;
  consecutive_successes : Z;
  consecutive_failures : Z;
}.

Definition health_default : HealthState := mkHealth Healthy 0 0.

Definition record_success (h : HealthState) (healthy_threshold : Z) : checked (HealthState * bool) :=
  let was_unhealthy := bool_decide (status h = Unhealthy) in
  successes ← u32_incr (consecutive_successes h);
  let h := mkHealth (status h) successes 0 in
  if was_unhealthy && (healthy_threshold <=? consecutive_successes h)
  then Val (mkHealth Healthy (consecutive_successes h) (consecutive_failures h), true)
  else Val (h, false).

Definition record_failure (h : HealthState) (unhealthy_threshold : Z) : checked (HealthState * bool) :=
  let was_healthy := bool_decide (status h = Healthy) in
  failures ← u32_incr (consecutive_failures h);
  let h := mkHealth (status h) 0 failures in
  if was_healthy && (unhealthy_threshold <=? consecutive_failures h)
  then Val (mkHealth Unhealthy (consecutive_successes h) (consecutive_failures h), true)
  else Val (h, false).

Definition is_healthy (h : HealthState) : bool := bool_decide (status h = Healthy).

(** ** The connection-time average *)

Record PeakEWMA := mkEWMA { decay : f64; rtt : f64; last_event : Z }.

Definition ewma_new (now : Z) : PeakEWMA := mkEWMA (f64_of_Z 1000000000) (f64_of_Z 50000000) now.

Section Average.
Variable f64_exp : f64 -> f64.

Definition ewma_observe (e : PeakEWMA) (seen : f64) (now : Z) : PeakEWMA :=
  let dur := saturating_duration_since now (last_event e) in
  let rtt :=
    if f64_gt seen (rtt e) then seen
    else
      let weight := f64_exp (f64_div (f64_neg (f64_of_Z dur)) (decay e)) in
      f64_add (f64_mul (rtt e) weight) (f64_mul seen (f64_sub (f64_of_Z 1) weight)) in
  mkEWMA (decay e) rtt now.

(** The new average, and the cost. *)
Definition ewma_get (e : PeakEWMA) (active_requests : Z) (now : Z) : checked (PeakEWMA * f64) :=
  let e := ewma_observe e f64_zero now in
  _ ← debug_assert (active_requests <? USIZE_MAX);
  Val (e, f64_mul (f64_of_Z (active_requests + 1)) (rtt e)).

End Average.

(** ** The backend *)

Inductive BackendStatus := Normal | Closing | Closed.
Global Instance backend_status_dec : EqDecision BackendStatus.
Proof. solve_decision. Defined.
Global Instance retry_action_dec : EqDecision RetryAction.
Proof. solve_decision. Defined.

Inductive BackendError :=
| NoBackendForCluster (cluster_id : list Z)
| MioConnection
| Status (s : BackendStatus)
| ConnectionFailures (cluster_id : list Z) (backend_address : SocketAddr) (failures : Z).

(** The weight is [load_balancing_parameters.weight], an [i32]. *)
Record Backend := mkBackend {
  sticky_id : option (list Z);
  backend_id : list Z;
  address : SocketAddr;
  b_status : BackendStatus;
  retry_policy : ExponentialBackoffPolicy;
  active_connections : Z;
  active_requests : Z;
  failures : Z;
  load_balancing_parameters : option Z;
  backup : bool;
  connection_time : PeakEWMA;
  health : HealthState;
  unix_path : option (list Z);
}.

Definition backend_new_at (id : list Z) (addr : SocketAddr) (sticky : option (list Z)) (weight : option Z)
    (backup : option bool) (now : Z) : Backend :=
  mkBackend sticky id addr Normal (policy_new 6) 0 0 0 weight (default false backup) (ewma_new now) health_default None.

Definition with_unix_path (b : Backend) (path : option (list Z)) : Backend :=
  mkBackend (sticky_id b) (backend_id b) (address b) (b_status b) (retry_policy b) (active_connections b)
    (active_requests b) (failures b) (load_balancing_parameters b) (backup b) (connection_time b) (health b) path.

Definition with_status (b : Backend) (s : BackendStatus) : Backend :=
  mkBackend (sticky_id b) (backend_id b) (address b) s (retry_policy b) (active_connections b)
    (active_requests b) (failures b) (load_balancing_parameters b) (backup b) (connection_time b) (health b) (unix_path b).
Definition with_connections (b : Backend) (n : Z) : Backend :=
  mkBackend (sticky_id b) (backend_id b) (address b) (b_status b) (retry_policy b) n
    (active_requests b) (failures b) (load_balancing_parameters b) (backup b) (connection_time b) (health b) (unix_path b).
Definition with_failure (b : Backend) (p : ExponentialBackoffPolicy) (n : Z) : Backend :=
  mkBackend (sticky_id b) (backend_id b) (address b) (b_status b) p (active_connections b)
    (active_requests b) n (load_balancing_parameters b) (backup b) (connection_time b) (health b) (unix_path b).
Definition with_time (b : Backend) (e : PeakEWMA) : Backend :=
  mkBackend (sticky_id b) (backend_id b) (address b) (b_status b) (retry_policy b) (active_connections b)
    (active_requests b) (failures b) (load_balancing_parameters b) (backup b) e (health b) (unix_path b).
Definition with_health (b : Backend) (h : HealthState) : Backend :=
  mkBackend (sticky_id b) (backend_id b) (address b) (b_status b) (retry_policy b) (active_connections b)
    (active_requests b) (failures b) (load_balancing_parameters b) (backup b) (connection_time b) h (unix_path b).

Definition set_closing (b : Backend) : Backend := with_status b Closing.

Definition can_open (b : Backend) (now : Z) : bool :=
  if negb (is_healthy (health b)) then false
  else
    match can_try (retry_policy b) now with
    | Some action => bool_decide (b_status b = Normal) && bool_decide (action = OKAY)
    | None => false
    end.

Definition is_available (b : Backend) : bool :=
  is_healthy (health b) && bool_decide (b_status b = Normal) && negb (is_down (retry_policy b)).

Definition inc_connections (b : Backend) : checked (Backend * option Z) :=
  match b_status b with
  | Normal =>
      _ ← debug_assert (active_connections b <? USIZE_MAX);
      let n := active_connections b + 1 in
      Val (with_connections b n, Some n)
  | _ => Val (b, None)
  end.

Definition dec_connections (b : Backend) : checked (Backend * option Z) :=
  let before := active_connections b in
  let n := if 0 <? before then before - 1 else before in
  match b_status b with
  | Normal =>
      _ ← debug_assert (n <=? before);
      _ ← debug_assert (n =? Z.max 0 (before - 1));
      Val (with_connections b n, Some n)
  | Closed => Val (b, None)
  | Closing =>
      _ ← debug_assert (n =? Z.max 0 (before - 1));
      let b := with_connections b n in
      if n =? 0 then Val (with_status b Closed, None) else Val (b, Some n)
  end.

(** The backend and the [Result]. *)
Definition reserve_connection (b : Backend) : checked (Backend * res BackendError unit) :=
  '(b, n) ← inc_connections b;
  match n with
  | Some _ => Val (b, Ok tt)
  | None => Val (b, Err (Status (b_status b)))
  end.

Definition release_failed_dial (b : Backend) (now : Z) (draw : Z -> Z) : checked Backend :=
  let connections_before := active_connections b in
  let failures_before := failures b in
  '(b, _) ← dec_connections b;
  _ ← debug_assert (failures b <? USIZE_MAX);
  policy ← fail (retry_policy b) now draw;
  let b := with_failure b policy (failures b + 1) in
  _ ← debug_assert (active_connections b =? Z.max 0 (connections_before - 1));
  _ ← debug_assert (failures b =? failures_before + 1);
  Val b.

(** [connected] is whether the socket connected. *)
Definition try_connect (b : Backend) (now : Z) (draw : Z -> Z) (connected : bool) :
    checked (Backend * res BackendError unit) :=
  if negb (bool_decide (b_status b = Normal)) then Val (b, Err (Status (b_status b)))
  else
    let failures_before := failures b in
    let connections_before := active_connections b in
    if connected then
      '(b, _) ← inc_connections b;
      _ ← debug_assert (active_connections b =? connections_before + 1);
      _ ← debug_assert (failures b =? failures_before);
      Val (b, Ok tt)
    else
      policy ← fail (retry_policy b) now draw;
      _ ← debug_assert (failures b <? USIZE_MAX);
      let b := with_failure b policy (failures b + 1) in
      _ ← debug_assert (active_connections b =? connections_before);
      Val (b, Err MioConnection).

Section Times.
Variable f64_exp : f64 -> f64.

Definition set_connection_time (b : Backend) (dur now : Z) : Backend :=
  with_time b (ewma_observe f64_exp (connection_time b) (f64_of_Z dur) now).

Definition peak_ewma_connection (b : Backend) (now : Z) : checked (Backend * f64) :=
  '(e, cost) ← ewma_get f64_exp (connection_time b) (active_connections b) now;
  Val (with_time b e, cost).

End Times.
