(* ===== verification/AffinityHash.v ===== *)
(** * Hashes, scores and shard sizes of the affinity policies

    The first part of [lib/src/load_balancing.rs]: the FNV-1a hasher and its
    finalizer, the affinity keys of a client, the weight and the rendezvous
    score of a backend, the primes of Maglev, and shuffle sharding's shard size.
    A [u64] is written in little-endian order, as on the platforms the proxy
    runs on; the logarithm of the platform is a parameter. *)

From Stdlib Require Import SpecFloat.
From S2P Require Import Prelude Retry ProxyProtocol Backend.

Definition DEFAULT_WEIGHT : Z := 100.
Definition DEFAULT_HASH_SEED : Z := 0x9E3779B97F4A7C15.

Definition backend_weight (b : Backend) : Z := Z.max 1 (default DEFAULT_WEIGHT (load_balancing_parameters b)).

Definition outranks_at_address (other : Backend) (other_position : nat) (b : Backend) (position : nat) : bool :=
  if negb (bool_decide (address other = address b)) || (other_position =? position)%nat then false
  else
    let other_weight := backend_weight other in
    let weight := backend_weight b in
    (weight <? other_weight) || ((other_weight =? weight) && (other_position <? position)%nat).

(** ** The hasher *)

Definition FNV_PRIME : Z := 0x00000100000001B3.
Definition FNV_OFFSET : Z := 0xcbf29ce484222325.

Definition wrapping_mul (a b : Z) : Z := to_u64 (a * b).

(** The hasher is its state. *)
Definition fnv_with_seed (seed : Z) : Z := Z.lxor FNV_OFFSET seed.

Definition fnv_write (state : Z) (bytes : list Z) : Z :=
  foldl (fun state b => wrapping_mul (Z.lxor state b) FNV_PRIME) state bytes.

(** [to_ne_bytes] of an unsigned integer of [n] octets. *)
Fixpoint to_le_bytes (n : nat) (z : Z) : list Z :=
  match n with
  | O => []
  | S n => z mod 256 :: to_le_bytes n (z / 256)
  end.

Definition write_u8 (state z : Z) : Z := fnv_write state (to_le_bytes 1 z).
Definition write_u16 (state z : Z) : Z := fnv_write state (to_le_bytes 2 z).
Definition write_u64 (state z : Z) : Z := fnv_write state (to_le_bytes 8 z).

Definition splitmix64_finalize (z : Z) : Z :=
  let z := wrapping_mul (Z.lxor z (Z.shiftr z 30)) 0xBF58476D1CE4E5B9 in
  let z := wrapping_mul (Z.lxor z (Z.shiftr z 27)) 0x94D049BB133111EB in
  Z.lxor z (Z.shiftr z 31).

Definition hash_backend (seed key : Z) (addr : SocketAddr) : Z :=
  let h := write_u64 (fnv_with_seed seed) key in
  let h := match addr with
           | V4 v4 => write_u16 (fnv_write (write_u8 h 4) (ip4 v4)) (port4 v4)
           | V6 v6 => write_u16 (fnv_write (write_u8 h 6) (ip6 v6)) (port6 v6)
           end in
  splitmix64_finalize h.

(** ** The affinity keys *)

Definition AFFINITY_DOMAIN_IP : Z := 0x49.
Definition AFFINITY_DOMAIN_VALUE : Z := 0x56.

Inductive IpAddr := IpV4 (octets : list Z) | IpV6 (octets : list Z).

(** [IpAddr::to_canonical]: an IPv4-mapped address is the IPv4 address. *)
Definition to_canonical (ip : IpAddr) : IpAddr :=
  match ip with
  | IpV4 _ => ip
  | IpV6 octets =>
      if bool_decide (take 12 octets = replicate 10 0 ++ [255; 255]) then IpV4 (drop 12 octets) else ip
  end.

Definition affinity_key_from_ip (ip : IpAddr) : Z :=
  let h := write_u8 (fnv_with_seed DEFAULT_HASH_SEED) AFFINITY_DOMAIN_IP in
  splitmix64_finalize
    (match to_canonical ip with
     | IpV4 octets => fnv_write (write_u8 h 4) octets
     | IpV6 octets => fnv_write (write_u8 h 6) octets
     end).

Definition affinity_key_from_value (value : list Z) : Z :=
  let h := write_u8 (fnv_with_seed DEFAULT_HASH_SEED) AFFINITY_DOMAIN_VALUE in
  splitmix64_finalize (fnv_write h value).

(** ** The rendezvous score *)

Section Score.
Variable f64_ln : f64 -> f64.

(** The hash as a number between 0 and 1. *)
Definition hrw_unit (h : Z) : f64 :=
  f64_div (f64_add (f64_of_Z h) f64_half) (f64_add (f64_of_Z U64_MAX) (f64_of_Z 1)).

Definition hrw_score_with_seed (seed key : Z) (b : Backend) : checked f64 :=
  let weight := f64_of_Z (backend_weight b) in
  let h := hash_backend seed key (address b) in
  let unit := hrw_unit h in
  _ ← debug_assert (f64_gt unit f64_zero && SFltb unit (f64_of_Z 1));
  let score := f64_div (f64_neg weight) (f64_ln unit) in
  _ ← debug_assert (is_finite score && f64_gt score f64_zero);
  Val score.

Definition hrw_score (key : Z) (b : Backend) : checked f64 := hrw_score_with_seed DEFAULT_HASH_SEED key b.

End Score.

(** ** Shard sizes *)

Inductive ShardMode := Fallback | Strict.
Global Instance shard_mode_dec : EqDecision ShardMode.
Proof. solve_decision. Defined.

Definition DEFAULT_SHARD_MIN_BACKENDS : Z := 8.

Record ShuffleSharding := mkSharding { percent : Z; min_backends : Z; mode : ShardMode }.

Definition shard_mode_try_from (n : Z) : option ShardMode :=
  if n =? 0 then Some Fallback else if n =? 1 then Some Strict else None.

Definition sharding_from_cluster (shard_percent shard_min_backends shard_mode : option Z) : option ShuffleSharding :=
  percent ← shard_percent;
  Some (mkSharding percent (default DEFAULT_SHARD_MIN_BACKENDS shard_min_backends)
          (default Fallback (shard_mode ≫= shard_mode_try_from))).

(** [percent * primaries] is a product of [usize]. *)
Definition shard_size (s : ShuffleSharding) (primaries : Z) : checked (option Z) :=
  if (primaries <? min_backends s) || (primaries =? 0) then Val None
  else
    _ ← debug_assert (percent s * primaries <=? USIZE_MAX);
    let k := Z.min (Z.max ((percent s * primaries + 99) / 100) 2) primaries in
    _ ← debug_assert ((1 <=? k) && (k <=? primaries));
    _ ← debug_assert ((2 <=? k) || (primaries <? 2));
    Val (Some k).

(** ** Primes *)

(** [while d * d <= x]; the product is one of [usize]. *)
Fixpoint prime_loop (fuel : nat) (x d : Z) : checked bool :=
  match fuel with
  | O => Panic
  | S fuel =>
      _ ← debug_assert (d * d <=? USIZE_MAX);
      if d * d <=? x then
        if x mod d =? 0 then Val false else prime_loop fuel x (d + 2)
      else Val true
  end.

Definition is_prime (x : Z) : checked bool :=
  if x <? 2 then Val false
  else if x mod 2 =? 0 then Val (x =? 2)
  else prime_loop (Z.to_nat (Z.sqrt x)) x 3.

Fixpoint next_prime_loop (fuel : nat) (candidate : Z) : checked Z :=
  match fuel with
  | O => Panic
  | S fuel =>
      b ← is_prime candidate;
      if b : bool then Val candidate
      else
        _ ← debug_assert (candidate <? USIZE_MAX);
        next_prime_loop fuel (candidate + 1)
  end.

(** There is a prime between a number and its double. *)
Definition next_prime (n : Z) : checked Z :=
  candidate ← next_prime_loop (S (Z.to_nat n)) (Z.max n 2);
  b ← is_prime candidate;
  _ ← debug_assert b;
  _ ← debug_assert (2 <=? candidate);
  _ ← debug_assert (n <=? candidate);
  Val candidate.
