(* ===== verification/LoadBalancing.v ===== *)
(** * Load balancing policies

    [Candidates] and the policies of [lib/src/load_balancing.rs].  A candidate is
    a position of the backend list, and a policy answers a position; a policy
    that reads the connection time of a backend updates it, so that a selection
    returns the policy, the list and the choice.  The generator of the crate
    rand is a class with the documented ranges of its draws. *)

From Stdlib Require Import SpecFloat.
From S2P Require Import Prelude Retry ProxyProtocol Backend AffinityHash.

(** ** The generator *)

Class RandCrate := {
  std_rng : Type;
  seed_from_u64 : Z -> std_rng;
  next_u64 : std_rng -> Z * std_rng;
  (** [UniformInt::<i32>::new(0, total).sample(rng)] *)
  sample_i32 : std_rng -> Z -> Z * std_rng;
  (** [random_range(0..len)]; the index [IndexedRandom::choose] takes. *)
  random_range : std_rng -> nat -> nat * std_rng;
  choose_index : std_rng -> nat -> nat * std_rng;
  (** [random_bool(0.5)] *)
  random_bool : std_rng -> bool * std_rng;
}.

Class RandLaws `{RandCrate} : Prop := {
  law_sample_i32 r total : 0 < total -> 0 <= (sample_i32 r total).1 < total;
  law_random_range r len : (0 < len)%nat -> ((random_range r len).1 < len)%nat;
  law_choose_index r len : (0 < len)%nat -> ((choose_index r len).1 < len)%nat;
  law_next_u64 r : u64_ok (next_u64 r).1;
}.

(** ** Candidates *)

Record Candidates := mkCandidates {
  cd_backends : list Backend;
  cd_indices : list nat;
  cd_siblings : list nat;
  cd_now : Z;
}.

Fixpoint strictly_increasing (l : list nat) : bool :=
  match l with
  | a :: (b :: _) as l' => (a <? b)%nat && strictly_increasing l'
  | _ => true
  end.

Definition candidates_new (backends : list Backend) (indices : list nat) (now : Z) : checked Candidates :=
  _ ← debug_assert (forallb (fun i => i <? length backends)%nat indices);
  _ ← debug_assert (strictly_increasing indices);
  Val (mkCandidates backends indices [] now).

Definition with_siblings (backends : list Backend) (indices siblings : list nat) (now : Z) : checked Candidates :=
  let siblings := if (length siblings =? length backends)%nat then siblings else [] in
  _ ← debug_assert (forallb (fun i => i <? length backends)%nat siblings);
  c ← candidates_new backends indices now;
  Val (mkCandidates (cd_backends c) (cd_indices c) siblings (cd_now c)).

(** The positions of a ring from [position], until it is back at [start]. *)
Fixpoint ring_walk (fuel : nat) (ring : list nat) (start position : nat) : checked (list nat) :=
  match fuel with
  | O => Panic
  | S fuel =>
      if (position =? start)%nat then Val []
      else rest ← ring_walk fuel ring start (default start (ring !! position)); Val (position :: rest)
  end.

Definition position (c : Candidates) (i : nat) : checked nat := index (cd_indices c) i.

Definition siblings (c : Candidates) (i : nat) : checked (list nat) :=
  start ← position c i;
  ring_walk (S (length (cd_siblings c))) (cd_siblings c) start (default start (cd_siblings c !! start)).

(** [backends[index]], of a candidate and of a position. *)
Definition backend_at (c : Candidates) (p : nat) : checked Backend := index (cd_backends c) p.
Definition candidate (c : Candidates) (i : nat) : checked Backend := p ← position c i; backend_at c p.

Definition len (c : Candidates) : nat := length (cd_indices c).
Definition is_empty (c : Candidates) : bool := (len c =? 0)%nat.

(** [get(index).cloned()] *)
Definition get (c : Candidates) (i : nat) : checked (option nat) :=
  match cd_indices c !! i with
  | Some p => _ ← backend_at c p; Val (Some p)
  | None => Val None
  end.

(** [self.iter()]: the candidates with their positions. *)
Fixpoint resolve (backends : list Backend) (indices : list nat) : checked (list (nat * Backend)) :=
  match indices with
  | [] => Val []
  | p :: indices => b ← index backends p; rest ← resolve backends indices; Val ((p, b) :: rest)
  end.
Definition iter (c : Candidates) : checked (list (nat * Backend)) := resolve (cd_backends c) (cd_indices c).

(** ** Round robin *)

Definition i64_ok (z : Z) : bool := (- 2 ^ 63 <=? z) && (z <? 2 ^ 63).
Definition i64_add (a b : Z) : checked Z := _ ← debug_assert (i64_ok (a + b)); Val (a + b).

Record RoundRobin := mkRoundRobin { next_backend : Z; current_weights : list Z }.

Definition round_robin_new : RoundRobin := mkRoundRobin 0 [].

Definition uniform_weights (c : Candidates) : checked bool :=
  bs ← iter c;
  Val (match backend_weight ∘ snd <$> bs with
       | first :: weights => forallb (fun w => w =? first) weights
       | [] => true
       end).

(** The loop of [smooth_weighted] over the candidates that are left: the running
    weights, their total and the position of the best one. *)
Fixpoint smooth_loop (bs : list (nat * Backend)) (weights : list Z) (total : Z) (best : option nat) :
    checked (list Z * Z * option nat) :=
  match bs with
  | [] => Val (weights, total, best)
  | (p, b) :: bs =>
      let weight := backend_weight b in
      old ← index weights p;
      current ← i64_add old weight;
      let weights := <[p := current]> weights in
      total ← i64_add total weight;
      better ← match best with
               | None => Val true
               | Some best => w ← index weights best; Val (w <? current)
               end;
      smooth_loop bs weights total (if better : bool then Some p else best)
  end.

(** [iter().sum::<i64>()] *)
Fixpoint sum_i64 (acc : Z) (l : list Z) : checked Z :=
  match l with
  | [] => Val acc
  | x :: l => acc ← i64_add acc x; sum_i64 acc l
  end.

Definition smooth_weighted (rr : RoundRobin) (c : Candidates) : checked (RoundRobin * nat) :=
  _ ← debug_assert (negb (is_empty c));
  let weights := if (length (current_weights rr) =? length (cd_backends c))%nat then current_weights rr
                 else replicate (length (cd_backends c)) 0 in
  bs ← iter c;
  '(weights, total, best) ← smooth_loop bs weights 0 None;
  match best with
  | None => Panic
  | Some p =>
      old ← index weights p;
      current ← i64_add old (- total);
      let weights := <[p := current]> weights in
      _ ← debug_assert (Z.of_nat (len c) <=? total);
      sum ← sum_i64 0 weights;
      _ ← debug_assert (sum =? 0);
      Val (mkRoundRobin (next_backend rr) weights, p)
  end.

Definition round_robin_next (rr : RoundRobin) (c : Candidates) : checked (RoundRobin * option nat) :=
  if is_empty c then Val (rr, None)
  else
    uniform ← uniform_weights c;
    if negb uniform then '(rr, p) ← smooth_weighted rr c; Val (rr, Some p)
    else
      let i := Z.to_nat (next_backend rr mod Z.of_nat (len c)) in
      _ ← debug_assert (i <? len c)%nat;
      res ← get c i;
      _ ← debug_assert (if res is Some _ then true else false);
      n ← u32_incr (next_backend rr);
      _ ← debug_assert (negb (to_u32 (Z.of_nat (len c)) =? 0));
      let n := n mod to_u32 (Z.of_nat (len c)) in
      _ ← debug_assert (n <? Z.of_nat (len c));
      Val (mkRoundRobin n (current_weights rr), res).

Definition round_robin_rebuild (rr : RoundRobin) (backends : list Backend) : RoundRobin :=
  mkRoundRobin (next_backend rr) (replicate (length backends) 0).

(** ** Random *)

Definition random_weight (b : Backend) : Z := default DEFAULT_WEIGHT (load_balancing_parameters b).

(** The sum of the weights, [None] on a negative weight or past an [i32]. *)
Fixpoint random_total (bs : list (nat * Backend)) (total : Z) : option Z :=
  match bs with
  | [] => Some total
  | (_, b) :: bs =>
      let weight := random_weight b in
      if weight <? 0 then None else total ← i32_checked_add total weight; random_total bs total
  end.

(** The first of the candidates but the last whose prefix sum exceeds the draw. *)
Fixpoint prefix_scan (bs : list (nat * Backend)) (i : nat) (prefix drawn : Z) : checked nat :=
  match bs with
  | [] => Panic
  | [_] => Val i
  | (_, b) :: bs =>
      _ ← debug_assert (bool_decide (i32_ok (prefix + random_weight b)));
      let prefix := prefix + random_weight b in
      if drawn <? prefix then Val i else prefix_scan bs (S i) prefix drawn
  end.

Section Random.
Context `{RC : RandCrate}.

Definition weighted_index (rng : std_rng) (c : Candidates) : checked (std_rng * option nat) :=
  if is_empty c then Val (rng, None)
  else
    bs ← iter c;
    match random_total bs 0 with
    | None => Val (rng, None)
    | Some total =>
        if total =? 0 then Val (rng, None)
        else
          let '(drawn, rng) := sample_i32 rng total in
          _ ← debug_assert ((0 <=? drawn) && (drawn <? total));
          i ← prefix_scan bs 0 0 drawn;
          Val (rng, Some i)
    end.

(** [choose] over the candidates. *)
Definition choose (c : Candidates) (rng : std_rng) : checked (std_rng * option nat) :=
  if is_empty c then Val (rng, None)
  else
    let '(i, rng) := choose_index rng (len c) in
    p ← get c i;
    Val (rng, p).

Definition random_next (rng : std_rng) (c : Candidates) : checked (std_rng * option nat) :=
  '(rng, i) ← weighted_index rng c;
  match i with
  | Some i => _ ← debug_assert (i <? len c)%nat; p ← get c i; Val (rng, p)
  | None =>
      '(rng, p) ← choose c rng;
      _ ← debug_assert (Bool.eqb (if p is Some _ then true else false) (0 <? len c)%nat);
      Val (rng, p)
  end.

End Random.

(** ** Loads *)

Inductive LoadMetric := Connections | Requests | ConnectionTime.
Global Instance load_metric_dec : EqDecision LoadMetric.
Proof. solve_decision. Defined.

Fixpoint sum_counts (bs : list (nat * Backend)) (count : Backend -> Z) (sum : Z) : Z :=
  match bs with
  | [] => sum
  | (_, b) :: bs => sum_counts bs count (Z.min USIZE_MAX (sum + count b))
  end.

Definition address_count (c : Candidates) (i : nat) (count : Backend -> Z) : checked Z :=
  b ← candidate c i;
  let own := count b in
  ps ← siblings c i;
  bs ← resolve (cd_backends c) ps;
  let total := sum_counts bs count own in
  _ ← debug_assert (own <=? total);
  Val total.

(** The products of [u128] cannot overflow. *)
Definition cmp_count_per_weight (load_a weight_a load_b weight_b : Z) : checked comparison :=
  _ ← debug_assert ((1 <=? weight_a) && (1 <=? weight_b));
  let order := (load_a * weight_b ?= load_b * weight_a) in
  _ ← debug_assert (negb (weight_a =? weight_b) || bool_decide (order = (load_a ?= load_b)));
  Val order.

Definition cmp_cost_per_weight (cost_a : f64) (weight_a : Z) (cost_b : f64) (weight_b : Z) : checked (option comparison) :=
  _ ← debug_assert ((1 <=? weight_a) && (1 <=? weight_b));
  Val (if weight_a =? weight_b then SFcompare cost_a cost_b
       else SFcompare (f64_mul cost_a (f64_of_Z weight_b)) (f64_mul cost_b (f64_of_Z weight_a))).

Definition weight_at (c : Candidates) (i : nat) : checked Z := b ← candidate c i; Val (backend_weight b).

(** The loads, weights and indices that [min_by] reads, in order. *)
Fixpoint counts (c : Candidates) (count : Backend -> Z) (idxs : list nat) : checked (list (Z * Z * nat)) :=
  match idxs with
  | [] => Val []
  | i :: idxs =>
      load ← address_count c i count;
      w ← weight_at c i;
      rest ← counts c count idxs;
      Val ((load, w, i) :: rest)
  end.

(** [min_by]: the first minimum. *)
Fixpoint min_count (best : Z * Z * nat) (l : list (Z * Z * nat)) : checked (Z * Z * nat) :=
  match l with
  | [] => Val best
  | x :: l =>
      o ← cmp_count_per_weight best.1.1 best.1.2 x.1.1 x.1.2;
      min_count (if o is Gt then x else best) l
  end.

Definition least_count (c : Candidates) (count : Backend -> Z) : checked (option nat) :=
  l ← counts c count (seq 0 (len c));
  match l with
  | [] => Val None
  | x :: l => best ← min_count x l; get c best.2
  end.

Section Costs.
Variable f64_exp : f64 -> f64.

(** The connection-time cost of the backend at [p], which decays its average. *)
Definition cost_at (bs : list Backend) (p : nat) (now : Z) : checked (list Backend * f64) :=
  b ← index bs p;
  '(b, cost) ← peak_ewma_connection f64_exp b now;
  Val (<[p := b]> bs, cost).

Fixpoint least_cost (bs : list Backend) (ps : list nat) (now : Z) (best : option (f64 * Z * nat)) :
    checked (list Backend * option nat) :=
  match ps with
  | [] => Val (bs, snd <$> best)
  | p :: ps =>
      '(bs, cost2) ← cost_at bs p now;
      b ← index bs p;
      let weight2 := backend_weight b in
      best ← match best with
             | None => Val (cost2, weight2, p)
             | Some (cost1, weight1, p1) =>
                 o ← cmp_cost_per_weight cost1 weight1 cost2 weight2;
                 Val (if o is Some (Lt | Eq) then (cost1, weight1, p1) else (cost2, weight2, p))
             end;
      least_cost bs ps now (Some best)
  end.

Definition least_loaded_next (metric : LoadMetric) (c : Candidates) : checked (list Backend * option nat) :=
  '(bs, p) ← match metric with
             | Connections => p ← least_count c active_connections; Val (cd_backends c, p)
             | Requests => p ← least_count c active_requests; Val (cd_backends c, p)
             | ConnectionTime => least_cost (cd_backends c) (cd_indices c) (cd_now c) None
             end;
  _ ← debug_assert (Bool.eqb (if p is Some _ then true else false) (negb (is_empty c)));
  Val (bs, p).

(** *** Power of two choices *)

Definition compare (metric : LoadMetric) (c : Candidates) (first second : nat) :
    checked (list Backend * option comparison) :=
  let counts (count : Backend -> Z) : checked (list Backend * option comparison) :=
    first_load ← address_count c first count;
    second_load ← address_count c second count;
    w1 ← weight_at c first;
    w2 ← weight_at c second;
    o ← cmp_count_per_weight first_load w1 second_load w2;
    Val (cd_backends c, Some o) in
  match metric with
  | Connections => counts active_connections
  | Requests => counts active_requests
  | ConnectionTime =>
      p1 ← position c first;
      '(bs, first_load) ← cost_at (cd_backends c) p1 (cd_now c);
      p2 ← position c second;
      '(bs, second_load) ← cost_at bs p2 (cd_now c);
      w1 ← weight_at c first;
      w2 ← weight_at c second;
      o ← cmp_cost_per_weight first_load w1 second_load w2;
      Val (bs, o)
  end.

Context `{RC : RandCrate}.

Definition power_of_two_next (metric : LoadMetric) (rng : std_rng) (c : Candidates) :
    checked (std_rng * list Backend * option nat) :=
  match len c with
  | O => Val (rng, cd_backends c, None)
  | S O => p ← get c 0; Val (rng, cd_backends c, p)
  | n =>
      let '(first, rng) := random_range rng n in
      let '(second, rng) := random_range rng (n - 1) in
      let second := if (first <=? second)%nat then S second else second in
      _ ← debug_assert (negb (first =? second)%nat);
      _ ← debug_assert (second <? n)%nat;
      '(bs, order) ← compare metric c first second;
      let '(chosen, rng) :=
        match order with
        | Some Lt => (first, rng)
        | Some Gt => (second, rng)
        | _ => let '(b, rng) := random_bool rng in (if b : bool then first else second, rng)
        end in
      _ ← debug_assert (((chosen =? first)%nat && negb (bool_decide (order = Some Gt)))
                        || ((chosen =? second)%nat && negb (bool_decide (order = Some Lt))));
      p ← get c chosen;
      Val (rng, bs, p)
  end.

End Costs.

(** ** Rendezvous *)

Record Rendezvous := mkRendezvous { hrw_seed : Z; hrw_round_robin : RoundRobin }.

Definition rendezvous_new : Rendezvous := mkRendezvous DEFAULT_HASH_SEED round_robin_new.

Section Rendezvous.
Variable f64_ln : f64 -> f64.

Fixpoint best_score (seed key : Z) (bs : list (nat * Backend)) (best : option (f64 * nat)) :
    checked (option (f64 * nat)) :=
  match bs with
  | [] => Val best
  | (p, b) :: bs =>
      score ← hrw_score_with_seed f64_ln seed key b;
      best_score seed key bs
        (match best with
         | Some (s, q) => if f64_ge s score then Some (s, q) else Some (score, p)
         | None => Some (score, p)
         end)
  end.

(** The winner maximizes the score over the set. *)
Fixpoint check_winner (seed key : Z) (bs : list (nat * Backend)) (s : f64) : checked unit :=
  match bs with
  | [] => Val tt
  | (_, b) :: bs =>
      score ← hrw_score_with_seed f64_ln seed key b;
      _ ← debug_assert (f64_ge s score);
      check_winner seed key bs s
  end.

Definition rendezvous_next (r : Rendezvous) (key : option Z) (c : Candidates) : checked (Rendezvous * option nat) :=
  match key with
  | None => '(rr, p) ← round_robin_next (hrw_round_robin r) c; Val (mkRendezvous (hrw_seed r) rr, p)
  | Some key =>
      if is_empty c then Val (r, None)
      else
        bs ← iter c;
        best ← best_score (hrw_seed r) key bs None;
        match best with
        | None => Panic
        | Some (s, p) => _ ← check_winner (hrw_seed r) key bs s; Val (r, Some p)
        end
  end.

End Rendezvous.

Definition rendezvous_rebuild (r : Rendezvous) (backends : list Backend) : Rendezvous :=
  mkRendezvous (hrw_seed r) (round_robin_rebuild (hrw_round_robin r) backends).
