(* ===== verification/RoundRobinSpec.v ===== *)
(** * What round robin promises

    Over a fixed set of candidates, whatever their weights, the selections of
    [round_robin_next] are shared exactly: [picks] runs it, [shares] counts. *)

From Stdlib Require Import SpecFloat.
From S2P Require Import Prelude Retry ProxyProtocol Backend AffinityHash LoadBalancing.

(** ** Sums and counts *)

Fixpoint sum_over {A} (f : A -> Z) (l : list A) : Z :=
  match l with [] => 0 | x :: l => f x + sum_over f l end.

Lemma sum_over_app {A} (f : A -> Z) l1 l2 : sum_over f (l1 ++ l2) = sum_over f l1 + sum_over f l2.
Proof. induction l1 as [| x l1 IH]; cbn; [done | rewrite IH; lia]. Qed.

Lemma sum_over_ext {A} (f g : A -> Z) l : (forall x, x ∈ l -> f x = g x) -> sum_over f l = sum_over g l.
Proof.
  intros H. induction l as [| x l IH]; [done |]. cbn. rewrite (H x ltac:(left)), IH; [done |].
  intros y Hy. apply H. by right.
Qed.

Lemma sum_over_add {A} (f g : A -> Z) l : sum_over (fun x => f x + g x) l = sum_over f l + sum_over g l.
Proof. induction l as [| x l IH]; cbn; [done | rewrite IH; lia]. Qed.

Lemma sum_over_scale {A} k (f : A -> Z) l : sum_over (fun x => k * f x) l = k * sum_over f l.
Proof. induction l as [| x l IH]; cbn; [lia | rewrite IH; lia]. Qed.

Lemma sum_over_le {A} (f g : A -> Z) l : (forall x, x ∈ l -> f x <= g x) -> sum_over f l <= sum_over g l.
Proof.
  induction l as [| x l IH]; intros H; cbn; [done |]. pose proof (H x ltac:(left)).
  assert (sum_over f l <= sum_over g l) by (apply IH; intros y Hy; apply H; by right). lia.
Qed.

(** Values that are each at most others, with the same sum, are those. *)
Lemma sum_over_eq {A} (f g : A -> Z) l :
  (forall x, x ∈ l -> f x <= g x) -> sum_over f l = sum_over g l -> forall x, x ∈ l -> f x = g x.
Proof.
  induction l as [| y l IH]; intros Hle Hs x Hx; [by apply not_elem_of_nil in Hx |]. cbn in Hs.
  pose proof (Hle y ltac:(left)). assert (sum_over f l <= sum_over g l).
  { apply sum_over_le. intros z Hz. apply Hle. by right. }
  apply elem_of_cons in Hx as [-> | Hx]; [lia |]. apply IH; [| lia | done]. intros z Hz. apply Hle. by right.
Qed.

Lemma sum_over_const {A} k (l : list A) : sum_over (fun _ => k) l = Z.of_nat (length l) * k.
Proof. induction l as [| x l IH]; cbn [sum_over length]; [done | rewrite IH; lia]. Qed.

Lemma sum_over_term {A} (f : A -> Z) l x : (forall y, y ∈ l -> 0 <= f y) -> x ∈ l -> f x <= sum_over f l.
Proof.
  intros Hf. induction l as [| y l IH]; intros Hx; [by apply not_elem_of_nil in Hx |]. cbn [sum_over].
  assert (0 <= sum_over f l).
  { rewrite <- (Z.mul_0_r (Z.of_nat (length l))), <- sum_over_const. apply sum_over_le. intros z Hz. apply Hf. by right. }
  apply elem_of_cons in Hx as [-> | Hx]; [lia |]. pose proof (Hf y ltac:(left)).
  specialize (IH ltac:(intros; apply Hf; by right) Hx). lia.
Qed.

Lemma sum_over_update {A} `{EqDecision A} (f : A -> Z) l y v :
  NoDup l -> y ∈ l -> sum_over (fun x => if decide (x = y) then v else f x) l = sum_over f l - f y + v.
Proof.
  induction 1 as [| x l Hx Hnd IH]; intros Hy; [by apply not_elem_of_nil in Hy |]. cbn.
  apply elem_of_cons in Hy as [-> | Hy].
  - rewrite decide_True by done. rewrite (sum_over_ext _ f); [lia |]. intros z Hz. rewrite decide_False; congruence.
  - rewrite decide_False by congruence. rewrite IH by done. lia.
Qed.

(** How often [p] occurs. *)
Definition shares {A} `{EqDecision A} (p : A) (l : list A) : Z := sum_over (fun q => if decide (q = p) then 1 else 0) l.

Section Shares.
Context {A} `{EqDecision A}.
Implicit Types (p q : A) (l ps : list A).

Lemma shares_cons p q l : shares p (q :: l) = (if decide (q = p) then 1 else 0) + shares p l.
Proof. done. Qed.

Lemma shares_snoc p q l : shares p (l ++ [q]) = shares p l + (if decide (q = p) then 1 else 0).
Proof. unfold shares. rewrite sum_over_app. cbn. lia. Qed.

Lemma shares_total ps l : NoDup ps -> (forall q, q ∈ l -> q ∈ ps) -> sum_over (fun p => shares p l) ps = Z.of_nat (length l).
Proof.
  intros Hnd. induction l as [| q l IH]; intros Hin.
  - rewrite (sum_over_ext _ (fun _ => 0 * 0)) by done. by rewrite sum_over_scale.
  - rewrite (sum_over_ext _ (fun p => (if decide (p = q) then 1 else 0 * 0) + shares p l)).
    2: { intros p _. rewrite shares_cons. repeat case_decide; congruence || done. }
    rewrite sum_over_add, IH by (intros; apply Hin; by right).
    rewrite (sum_over_update (fun _ => 0 * 0)) by (done || (apply Hin; left)). rewrite sum_over_scale. cbn [length]. lia.
Qed.

Lemma shares_app p l1 l2 : shares p (l1 ++ l2) = shares p l1 + shares p l2.
Proof. apply sum_over_app. Qed.

Lemma shares_nonneg p l : 0 <= shares p l.
Proof. induction l as [| q l IH]; [done |]. rewrite shares_cons. case_decide; lia. Qed.

Lemma shares_insert p l i x y :
  l !! i = Some y -> shares p (<[i := x]> l) =
    shares p l - (if decide (y = p) then 1 else 0) + (if decide (x = p) then 1 else 0).
Proof.
  intros Hi. rewrite insert_take_drop by (by eapply lookup_lt_Some). rewrite <- (take_drop_middle l i y Hi) at 3.
  rewrite !shares_app, !shares_cons. lia.
Qed.

Lemma shares_replicate p q n : shares p (replicate n q) = if decide (q = p) then Z.of_nat n else 0.
Proof. induction n as [| n IH]; [by case_decide |]. cbn [replicate]. rewrite shares_cons, IH. case_decide; lia. Qed.

Lemma shares_pos p l : 0 < shares p l -> p ∈ l.
Proof.
  induction l as [| q l IH]; [done |]. rewrite shares_cons. case_decide as Hq; [subst; intros _; left | intros H; right; apply IH; lia].
Qed.

Lemma shares_perm p l1 l2 : l1 ≡ₚ l2 -> shares p l1 = shares p l2.
Proof. unfold shares. induction 1; cbn; lia. Qed.

Lemma shares_once p l : NoDup l -> p ∈ l -> shares p l = 1.
Proof.
  intros Hnd Hp. unfold shares. rewrite (sum_over_update (fun _ => 0)), sum_over_const by done. lia.
Qed.

End Shares.

(** ** Candidates *)

Record candidates_ok (c : Candidates) : Prop := {
  co_range : Forall (fun p => (p < length (cd_backends c))%nat) (cd_indices c);
  co_sorted : strictly_increasing (cd_indices c) = true;
}.

Lemma increasing_above l : forall a, strictly_increasing (a :: l) = true -> Forall (fun b => (a < b)%nat) l.
Proof.
  induction l as [| b l IH]; intros a H; [constructor |]. cbn [strictly_increasing] in H.
  apply andb_true_iff in H as [Hab Hl]. apply Nat.ltb_lt in Hab. constructor; [done |].
  eapply Forall_impl; [by apply IH |]. cbn. lia.
Qed.

Lemma increasing_tail a l : strictly_increasing (a :: l) = true -> strictly_increasing l = true.
Proof. destruct l; [done |]. cbn [strictly_increasing]. by intros [_ ?]%andb_true_iff. Qed.

Lemma increasing_NoDup l : strictly_increasing l = true -> NoDup l.
Proof.
  induction l as [| a l IH]; intros H; [constructor |]. constructor; [| apply IH; by eapply increasing_tail].
  intros Hin. pose proof (increasing_above _ _ H) as Hf. rewrite Forall_forall in Hf. specialize (Hf a Hin). lia.
Qed.

(** The weight of the backend at a position. *)
Definition weight_of (bs : list Backend) (p : nat) : Z := from_option backend_weight 0 (bs !! p).

Lemma backend_weight_pos b : 1 <= backend_weight b.
Proof. unfold backend_weight. lia. Qed.

Lemma resolve_spec bs ps :
  Forall (fun p => (p < length bs)%nat) ps ->
  exists l, resolve bs ps = Val l /\ l.*1 = ps /\ Forall (fun x => bs !! x.1 = Some x.2) l.
Proof.
  induction 1 as [| p ps Hp _ (l & Hl & Hps & Hf)]; [by exists [] |]. cbn [resolve].
  destruct (lookup_lt_is_Some_2 bs p Hp) as [b Hb]. rewrite (index_Some _ _ _ Hb). cbn [mbind outcome_bind]. rewrite Hl.
  exists ((p, b) :: l). cbn. split; [done |]. split; [by rewrite Hps | by constructor].
Qed.

(** What a policy iterates over. *)
Lemma iter_spec c : candidates_ok c -> exists l, iter c = Val l /\ l.*1 = cd_indices c /\
  forall p b, (p, b) ∈ l <-> p ∈ cd_indices c /\ cd_backends c !! p = Some b.
Proof.
  intros Hc. destruct (resolve_spec (cd_backends c) (cd_indices c) (co_range _ Hc)) as (l & Hl & Hps & Hf).
  exists l. split; [done |]. split; [done |]. rewrite Forall_forall in Hf. intros p b. rewrite <- Hps. split.
  - intros Hin. split; [apply list_elem_of_fmap; by exists (p, b) | by apply (Hf (p, b))].
  - intros [([q b'] & -> & Hin)%list_elem_of_fmap Hb]. specialize (Hf _ Hin). cbn in *. rewrite Hf in Hb. by injection Hb as <-.
Qed.

(** ** One step of smooth weighted round robin *)

Definition value (ws : list Z) (p : nat) : Z := default 0 (ws !! p).

Lemma value_insert ws p q v : (p < length ws)%nat -> value (<[p := v]> ws) q = if decide (q = p) then v else value ws q.
Proof.
  intros Hp. unfold value. case_decide as Hq.
  - subst. by rewrite list_lookup_insert_eq.
  - by rewrite list_lookup_insert_ne by congruence.
Qed.

Lemma value_index {E} ws p : (p < length ws)%nat -> index ws p = @Val E _ (value ws p).
Proof. intros Hp. destruct (lookup_lt_is_Some_2 ws p Hp) as [v Hv]. unfold value. rewrite (index_Some _ _ _ Hv). by rewrite Hv. Qed.

(** What the candidates of [l] add to the running weight at [p]. *)
Definition added (l : list (nat * Backend)) (p : nat) : Z :=
  sum_over (fun x => if decide (x.1 = p) then backend_weight x.2 else 0) l.

Definition total_weight (l : list (nat * Backend)) : Z := sum_over (backend_weight ∘ snd) l.

Lemma added_absent l p : p ∉ l.*1 -> added l p = 0.
Proof.
  intros Hp. unfold added. rewrite (sum_over_ext _ (fun _ => 0 * 0)); [by rewrite sum_over_scale |].
  intros x Hx. rewrite decide_False; [done |]. intros <-. apply Hp. apply list_elem_of_fmap. by exists x.
Qed.

Lemma added_bounds l p : 0 <= added l p <= total_weight l.
Proof.
  unfold added, total_weight. induction l as [| [q b] l IH]; cbn [sum_over]; [done |]. cbn.
  pose proof (backend_weight_pos b). case_decide; lia.
Qed.

Lemma i64_add_Val a b : - 2 ^ 63 <= a + b < 2 ^ 63 -> i64_add a b = Val (a + b).
Proof.
  intros H. unfold i64_add, i64_ok. rewrite debug_assert_true; [done |]. apply andb_true_iff.
  split; [apply Z.leb_le; lia | apply Z.ltb_lt; lia].
Qed.

Lemma smooth_loop_spec B l : forall ws total best,
  NoDup l.*1 -> Forall (fun p => (p < length ws)%nat) l.*1 ->
  (forall q, best = Some q -> (q < length ws)%nat /\ q ∉ l.*1) ->
  (forall p, p ∈ l.*1 -> - B <= value ws p <= B) -> 0 <= total -> B + total + total_weight l < 2 ^ 63 ->
  exists ws' best', smooth_loop l ws total best = Val (ws', total + total_weight l, best') /\
    length ws' = length ws /\ (forall p, value ws' p = value ws p + added l p) /\
    (l <> [] \/ best <> None -> exists q, best' = Some q /\ (q ∈ l.*1 \/ best = Some q) /\
      forall p, p ∈ l.*1 \/ best = Some p -> value ws' p <= value ws' q).
Proof.
  induction l as [| [p b] l IH]; intros ws total best Hnd Hr Hb HB Ht Hsum; cbn [smooth_loop].
  { exists ws, best. unfold total_weight. cbn. rewrite Z.add_0_r. split; [done |]. split; [done |]. split; [intros; lia |].
    intros [? | Hne]; [done |]. destruct best as [q |]; [| done]. exists q. split; [done |]. split; [by right |].
    intros p [Hp%not_elem_of_nil | [= ->]]; [done | lia]. }
  cbn [fmap list_fmap fst] in Hnd, Hr, Hb. apply NoDup_cons in Hnd as [Hp Hnd]. apply Forall_cons in Hr as [Hrp Hr].
  pose proof (backend_weight_pos b) as Hwpos. pose proof (added_bounds l p) as Hadd.
  unfold total_weight in Hsum. cbn [sum_over] in Hsum. fold (total_weight l) in Hsum. cbn [compose snd] in Hsum.
  rewrite (value_index _ _ Hrp). cbn [mbind outcome_bind]. pose proof (HB p ltac:(left)).
  rewrite i64_add_Val by lia. cbn [mbind outcome_bind]. rewrite i64_add_Val by lia. cbn [mbind outcome_bind].
  set (cur := value ws p + backend_weight b). set (ws1 := <[p := cur]> ws).
  assert (Hlen : length ws1 = length ws) by apply length_insert.
  assert (Hval : forall q, value ws1 q = if decide (q = p) then cur else value ws q) by (intros q; by apply value_insert).
  set (best1 := if match best with None => true | Some q => value ws1 q <? cur end then Some p else best).
  assert (Hcmp : (match best with None => Val true | Some q => (w ← index ws1 q; Val (w <? cur)) end : checked bool) =
    Val (match best with None => true | Some q => value ws1 q <? cur end)).
  { destruct best as [q |]; [| done]. rewrite value_index; [done |]. rewrite Hlen. by apply Hb. }
  rewrite Hcmp. cbn [mbind outcome_bind]. fold best1.
  assert (Hb1 : exists q1, best1 = Some q1 /\ (q1 = p \/ best = Some q1) /\ (q1 < length ws1)%nat /\ (q1 ∉ l.*1) /\
    cur <= value ws1 q1 /\ forall q, best = Some q -> value ws1 q <= value ws1 q1).
  { unfold best1. destruct best as [q |].
    - destruct (Hb q eq_refl) as [Hq1 [Hq2 Hq3]%not_elem_of_cons]. destruct (Z.ltb_spec (value ws1 q) cur) as [Hlt | Hge].
      + exists p. rewrite Hlen, (Hval p), decide_True by done. repeat (split; [by auto || done || lia |]).
        intros q' [= <-]. lia.
      + exists q. rewrite Hlen. repeat (split; [by auto || done || lia |]). by intros q' [= <-].
    - exists p. rewrite Hlen, (Hval p), decide_True by done. repeat (split; [by auto || done || lia |]). by intros q' [=]. }
  destruct Hb1 as (q1 & Hq1 & Hor & Hq1r & Hq1n & Hcur & Hmax). rewrite Hq1.
  assert (Hpn : value ws1 p = cur) by (rewrite Hval, decide_True; done).
  destruct (IH ws1 (total + backend_weight b) (Some q1)) as (ws' & best' & Hrun & Hlen' & Hval' & Hbest).
  - done.
  - eapply Forall_impl; [done |]. intros q. by rewrite Hlen.
  - by intros q [= <-].
  - intros q Hq. rewrite Hval, decide_False by congruence. apply HB. by right.
  - lia.
  - lia.
  - rewrite Hrun. exists ws', best'. unfold total_weight. cbn [sum_over compose snd]. fold (total_weight l).
    split; [by rewrite Z.add_assoc |]. split; [congruence |]. split.
    + intros q. rewrite Hval', Hval. unfold added. cbn [sum_over fst snd]. fold (added l q). unfold cur. repeat case_decide; subst; (done || lia).
    + intros _. destruct Hbest as (q & -> & Hq & Hall); [by right |]. exists q. split; [done |]. split.
      { cbn. destruct Hq as [Hq | [= ->]]; [left; by right |]. destruct Hor as [-> | Hor]; [left; by left | by right]. }
      assert (Hge : value ws1 q1 <= value ws' q).
      { pose proof (Hall q1 ltac:(by right)). rewrite (Hval' q1), added_absent in * by done. lia. }
      intros p' [[-> | Hp']%elem_of_cons | Hp'].
      * cbn [fst]. rewrite (Hval' p), added_absent by done. lia.
      * apply Hall. by left.
      * destruct (Hb p' Hp') as [_ [_ Hn]%not_elem_of_cons]. rewrite (Hval' p'), added_absent by done.
        pose proof (Hmax p' Hp'). lia.
Qed.

Lemma sum_over_sub (f : nat -> Z) u l : NoDup u -> NoDup l -> (forall x, x ∈ l -> x ∈ u) ->
  sum_over (fun x => if decide (x ∈ l) then f x else 0) u = sum_over f l.
Proof.
  intros Hu. induction 1 as [| a l Ha Hnd IH]; intros Hin.
  - rewrite (sum_over_ext _ (fun _ => 0 * 0)); [by rewrite sum_over_scale |]. intros x _. by rewrite decide_False by apply not_elem_of_nil.
  - rewrite (sum_over_ext _ (fun x => if decide (x = a) then f a else if decide (x ∈ l) then f x else 0)).
    2: { intros x _. destruct (decide (x = a)) as [-> | Hne]; [by rewrite decide_True by left |].
         repeat case_decide; (done || (exfalso; by apply elem_of_cons in H as [?|?]) || (exfalso; by destruct H; right)). }
    rewrite sum_over_update by (done || (apply Hin; left)). rewrite IH by (intros; apply Hin; by right).
    rewrite decide_False by done. cbn. lia.
Qed.

Lemma sum_over_values ws : sum_over id ws = sum_over (value ws) (seq 0 (length ws)).
Proof.
  induction ws as [| w ws IH]; [done |]. cbn [sum_over length]. rewrite <- cons_seq. cbn [sum_over]. f_equal.
  rewrite IH. rewrite <- fmap_S_seq. generalize (seq 0 (length ws)). induction l as [| x l IHl]; [done |].
  cbn [fmap list_fmap sum_over]. by rewrite IHl.
Qed.

Lemma sum_i64_Val B l : forall acc, (forall x, x ∈ l -> - B <= x <= B) -> - 2 ^ 63 + Z.of_nat (length l) * B <= acc ->
  acc < 2 ^ 63 - Z.of_nat (length l) * B -> sum_i64 acc l = Val (acc + sum_over id l).
Proof.
  induction l as [| x l IH]; intros acc HB Hlo Hhi; cbn [sum_i64 sum_over length] in *; [by rewrite Z.add_0_r |].
  pose proof (HB x ltac:(left)). rewrite i64_add_Val by nia. cbn [mbind outcome_bind].
  rewrite IH; [f_equal; unfold id; lia | | nia | nia]. intros y Hy. apply HB. by right.
Qed.

Lemma added_weight bs l p :
  NoDup l.*1 -> Forall (fun x => bs !! x.1 = Some x.2) l ->
  added l p = if decide (p ∈ l.*1) then weight_of bs p else 0.
Proof.
  intros Hnd. induction 1 as [| [q b] l Hq _ IH]; [done |]. cbn [fmap list_fmap fst] in Hnd.
  apply NoDup_cons in Hnd as [Hn Hnd]. specialize (IH Hnd). unfold added. cbn [sum_over fst snd]. fold (added l p). cbn in Hq.
  destruct (decide (q = p)) as [-> | Hne].
  - rewrite decide_True by left. rewrite added_absent by done. unfold weight_of. rewrite Hq. cbn. lia.
  - rewrite IH. cbn [fmap list_fmap fst]. rewrite (decide_ext (p ∈ q :: l.*1) (p ∈ l.*1)); [done |].
    rewrite elem_of_cons. naive_solver.
Qed.

Lemma total_weight_of bs l :
  Forall (fun x => bs !! x.1 = Some x.2) l -> total_weight l = sum_over (weight_of bs) l.*1.
Proof.
  unfold total_weight. induction 1 as [| [q b] l Hq _ IH]; [done |]. cbn in *. rewrite IH. unfold weight_of.
  by rewrite Hq.
Qed.

Section Step.
Context (c : Candidates).
Abbreviation bs := (cd_backends c).
Abbreviation idx := (cd_indices c).
Abbreviation w := (weight_of bs).
Hypothesis Hc : candidates_ok c.
Hypothesis Hne : idx <> [].

(** The sum of the weights of the candidates. *)
Definition set_weight : Z := sum_over w idx.

Lemma weight_of_pos p : p ∈ idx -> 1 <= w p.
Proof.
  intros Hp. pose proof (co_range _ Hc) as Hr. rewrite Forall_forall in Hr.
  destruct (lookup_lt_is_Some_2 _ _ (Hr p Hp)) as [b Hb]. unfold weight_of. rewrite Hb. apply backend_weight_pos.
Qed.

Lemma set_weight_len : Z.of_nat (length idx) <= set_weight.
Proof.
  unfold set_weight. transitivity (sum_over (fun _ : nat => 1) idx).
  - generalize idx as l. induction l as [| x l IH]; cbn [length sum_over]; lia.
  - apply sum_over_le, weight_of_pos.
Qed.

(** The running weights after the candidate at [q] was selected. *)
Definition moved (ws ws' : list Z) (q : nat) : Prop :=
  length ws' = length ws /\
  forall p, value ws' p = value ws p + (if decide (p ∈ idx) then w p else 0) - (if decide (p = q) then set_weight else 0).

Lemma moved_sum ws ws' q :
  length ws = length bs -> q ∈ idx -> moved ws ws' q -> sum_over id ws' = sum_over id ws.
Proof.
  intros Hl Hq [Hl' Hv]. pose proof (increasing_NoDup _ (co_sorted _ Hc)) as Hnd. pose proof (co_range _ Hc) as Hr.
  rewrite Forall_forall in Hr. rewrite !sum_over_values, Hl', (sum_over_ext _ (fun p => value ws p +
    ((if decide (p ∈ idx) then w p else 0) + - 1 * (if decide (p = q) then set_weight else 0 * 0)))).
  2: { intros p _. rewrite Hv. repeat case_decide; lia. }
  rewrite !sum_over_add, sum_over_scale, sum_over_sub, (sum_over_update (fun _ => 0 * 0)), sum_over_scale.
  - fold set_weight. lia.
  - apply NoDup_seq.
  - apply elem_of_seq. rewrite Hl. specialize (Hr q Hq). lia.
  - apply NoDup_seq.
  - done.
  - intros x Hx. apply elem_of_seq. rewrite Hl. specialize (Hr x Hx). lia.
Qed.

Lemma smooth_step B n ws :
  length ws = length bs -> sum_over id ws = 0 -> (forall p, - B <= value ws p <= B) ->
  Z.of_nat (length bs) * (B + set_weight) < 2 ^ 63 ->
  exists ws' q, smooth_weighted (mkRoundRobin n ws) c = Val (mkRoundRobin n ws', q) /\ q ∈ idx /\ moved ws ws' q /\
    forall p, p ∈ idx -> value ws p + w p <= value ws q + w q.
Proof.
  intros Hl Hsum HB Hov. pose proof (increasing_NoDup _ (co_sorted _ Hc)) as Hnd. pose proof set_weight_len as HW.
  assert (Hlen : (0 < length idx)%nat) by (destruct idx; [done | cbn; lia]).
  assert (Hr : forall p, p ∈ idx -> (p < length ws)%nat) by (pose proof (co_range _ Hc) as Hr; rewrite Forall_forall in Hr; by rewrite Hl).
  unfold smooth_weighted. rewrite debug_assert_true.
  2: { unfold is_empty, len. apply negb_true_iff, Nat.eqb_neq. lia. }
  cbn [mbind outcome_bind current_weights]. rewrite Hl, Nat.eqb_refl.
  destruct (resolve_spec bs idx (co_range _ Hc)) as (l & Hres & Hl1 & Hf). unfold iter. rewrite Hres. cbn [mbind outcome_bind].
  assert (Htot : total_weight l = set_weight) by (by rewrite (total_weight_of bs), Hl1).
  assert (Hbs : (0 < length bs)%nat). { destruct idx as [| p ?] eqn:E; [done |]. pose proof (Hr p ltac:(left)). lia. }
  assert (0 <= B) by (pose proof (HB 0%nat); lia).
  destruct (smooth_loop_spec B l ws 0 None) as (ws1 & best & Hrun & Hl' & Hv & Hbest).
  - by rewrite Hl1.
  - rewrite Hl1, Forall_forall. apply Hr.
  - done.
  - intros p _. apply HB.
  - done.
  - rewrite Htot. nia.
  - rewrite Hrun. cbn [mbind outcome_bind]. rewrite Htot, Z.add_0_l.
    destruct Hbest as (q & -> & Hq & Hmax). { left. intros ->. cbn in Hl1. congruence. }
    destruct Hq as [Hq | Hq]; [| done]. rewrite Hl1 in *.
    assert (Hq' : (q < length ws1)%nat) by (rewrite Hl'; by apply Hr).
    rewrite (value_index _ _ Hq'). cbn [mbind outcome_bind].
    assert (Hvq : forall p, value ws1 p = value ws p + (if decide (p ∈ idx) then w p else 0)).
    { intros p. rewrite Hv, (added_weight bs), Hl1 by (by rewrite ?Hl1). done. }
    assert (Hw : forall p, 0 <= (if decide (p ∈ idx) then w p else 0) <= set_weight).
    { intros p. rewrite <- Hl1, <- (added_weight bs), <- Htot by (by rewrite ?Hl1). apply added_bounds. }
    pose proof (HB q). pose proof (Hw q). pose proof (Hvq q). rewrite i64_add_Val by nia. cbn [mbind outcome_bind].
    set (ws2 := <[q := value ws1 q + - set_weight]> ws1).
    assert (Hm : moved ws ws2 q).
    { split; [unfold ws2; rewrite length_insert; done |]. intros p. unfold ws2. rewrite value_insert, !Hvq by done.
      destruct (decide (p = q)) as [-> | Hpq]; lia. }
    rewrite debug_assert_true by (apply Z.leb_le; unfold len; lia). cbn [mbind outcome_bind].
    rewrite (sum_i64_Val (B + set_weight)).
    + cbn [mbind outcome_bind]. rewrite (moved_sum ws ws2 q Hl Hq Hm), Hsum. exists ws2, q.
      split; [done |]. split; [done |]. split; [done |]. intros p Hp. pose proof (Hmax p ltac:(by left)) as Hpq.
      rewrite !Hvq, !decide_True in Hpq by done. lia.
    + intros x (i & Hi)%list_elem_of_lookup_1. destruct Hm as [_ Hm].
      assert (Hx : value ws2 i = x) by (unfold value; by rewrite Hi). rewrite <- Hx, Hm.
      pose proof (HB i). pose proof (Hw i). destruct (decide (i = q)); lia.
    + unfold ws2. rewrite length_insert, Hl', Hl. lia.
    + unfold ws2. rewrite length_insert, Hl', Hl. lia.
Qed.

(** ** Any number of selections *)

(** After the selections [l] from zero weights. *)
Record fair (ws : list Z) (l : list nat) : Prop := {
  fr_length : length ws = length bs;
  fr_picked : Forall (fun q => q ∈ idx) l;
  fr_value : forall p, value ws p = (if decide (p ∈ idx) then Z.of_nat (length l) * w p else 0) - set_weight * shares p l;
  fr_low : forall p, - set_weight < value ws p;
  fr_sum : sum_over id ws = 0;
}.

Lemma fair_zero : fair (replicate (length bs) 0) [].
Proof.
  pose proof set_weight_len. assert (0 < length idx)%nat by (destruct idx; [done | cbn; lia]).
  assert (Hv : forall p, value (replicate (length bs) 0) p = 0).
  { intros p. unfold value. destruct (replicate _ 0 !! p) eqn:E; [| done]. by apply lookup_replicate in E as [-> _]. }
  split; [apply length_replicate | constructor | | |].
  - intros p. rewrite Hv. unfold shares. cbn. case_decide; lia.
  - intros p. rewrite Hv. lia.
  - rewrite sum_over_values, (sum_over_ext _ (fun _ => 0 * 0)) by (intros; apply Hv). by rewrite sum_over_scale.
Qed.

Lemma fair_values ws l : fair ws l -> sum_over (value ws) idx = 0.
Proof.
  intros Hf. pose proof (co_range _ Hc) as Hr. rewrite Forall_forall in Hr.
  rewrite <- (fr_sum _ _ Hf), sum_over_values, <- (sum_over_sub _ (seq 0 (length ws))).
  - apply sum_over_ext. intros p _. case_decide as Hp; [done |]. rewrite (fr_value _ _ Hf), decide_False by done.
    unfold shares. rewrite (sum_over_ext _ (fun _ => 0 * 0)); [rewrite sum_over_scale; lia |].
    intros q Hq. rewrite decide_False; [done |]. intros ->. pose proof (fr_picked _ _ Hf) as Hpk.
    rewrite Forall_forall in Hpk. by apply Hp, Hpk.
  - apply NoDup_seq.
  - apply increasing_NoDup, Hc.
  - intros x Hx. apply elem_of_seq. rewrite (fr_length _ _ Hf). specialize (Hr x Hx). lia.
Qed.

Lemma fair_high ws l p : fair ws l -> value ws p <= Z.of_nat (length bs) * set_weight.
Proof.
  intros Hf. pose proof set_weight_len as HW. destruct (decide (p < length ws)%nat) as [Hp | Hp].
  - pose proof (sum_over_term (fun x => value ws x + set_weight) (seq 0 (length ws)) p) as Ht. cbn beta in Ht.
    rewrite sum_over_add, <- sum_over_values, (fr_sum _ _ Hf), sum_over_const, length_seq, (fr_length _ _ Hf) in Ht.
    enough (value ws p + set_weight <= 0 + Z.of_nat (length bs) * set_weight) by lia. apply Ht.
    + intros y _. pose proof (fr_low _ _ Hf y). lia.
    + apply elem_of_seq. rewrite (fr_length _ _ Hf) in Hp. lia.
  - unfold value. rewrite lookup_ge_None_2 by lia. cbn. nia.
Qed.

Lemma fair_step n ws l :
  fair ws l -> Z.of_nat (length bs) * (Z.of_nat (length bs) * set_weight + set_weight) < 2 ^ 63 ->
  exists ws' q, smooth_weighted (mkRoundRobin n ws) c = Val (mkRoundRobin n ws', q) /\ fair ws' (l ++ [q]).
Proof.
  intros Hf Hov. pose proof set_weight_len as HW. assert (Hlen : (0 < length idx)%nat) by (destruct idx; [done | cbn; lia]).
  destruct (smooth_step (Z.of_nat (length bs) * set_weight) n ws) as (ws' & q & Hrun & Hq & [Hl Hv] & Hmax).
  - apply Hf.
  - apply Hf.
  - intros p. pose proof (fair_high ws l p Hf). pose proof (fr_low _ _ Hf p).
    assert (0 < length bs)%nat; [| nia]. destruct idx as [| x ?] eqn:E; [done |].
    pose proof (co_range _ Hc) as Hr. rewrite E in Hr. apply Forall_cons in Hr as [Hr _]. lia.
  - done.
  - exists ws', q. split; [done |]. split.
    + by rewrite Hl, (fr_length _ _ Hf).
    + apply Forall_app. split; [apply Hf | by constructor].
    + intros p. rewrite Hv, (fr_value _ _ Hf), shares_snoc, length_app. cbn [length].
      destruct (decide (p = q)) as [-> | Hpq]; [rewrite !(decide_True (P := q = q)) by done | rewrite (decide_False (P := q = p)) by congruence];
      case_decide; lia.
    + intros p. rewrite Hv. destruct (decide (p = q)) as [-> | Hpq].
      * rewrite decide_True by done. enough (0 < value ws q + w q) by lia.
        destruct (Z.lt_ge_cases 0 (value ws q + w q)) as [? | Hle]; [done | exfalso].
        assert (Hs : sum_over (fun p => value ws p + w p) idx <= sum_over (fun _ => 0 * 0) idx).
        { apply sum_over_le. intros p Hp. specialize (Hmax p Hp). lia. }
        rewrite sum_over_add, (fair_values _ _ Hf), sum_over_scale in Hs. fold set_weight in Hs. lia.
      * pose proof (fr_low _ _ Hf p). case_decide as Hp; [pose proof (weight_of_pos p Hp) |]; lia.
    + rewrite (moved_sum ws ws' q); [apply Hf | apply Hf | done | by split].
Qed.

(** ** The policy *)

Lemma uniform_spec :
  uniform_weights c = Val (bool_decide (Forall (fun p => w p = w (hd 0%nat idx)) idx)).
Proof.
  unfold uniform_weights, iter. destruct (resolve_spec bs idx (co_range _ Hc)) as (l & -> & Hl1 & Hf).
  cbn [mbind outcome_bind]. f_equal. destruct l as [| [p b] l]; [by rewrite <- Hl1 in Hne |]. rewrite <- Hl1.
  cbn [fmap list_fmap compose fst snd hd]. apply Forall_cons in Hf as [Hp Hf]. cbn in Hp.
  assert (Hw : w p = backend_weight b) by (unfold weight_of; by rewrite Hp). rewrite Hw. apply eq_bool_prop_intro.
  rewrite bool_decide_spec, Forall_cons, Is_true_true, forallb_forall. split.
  - intros Ha. split; [done |]. clear Hl1. induction Hf as [| [q b'] l Hq _ IH]; [constructor |]. cbn in *. constructor.
    + unfold weight_of. rewrite Hq. cbn. apply Z.eqb_eq, Ha. by left.
    + apply IH. intros x Hx. apply Ha. by right.
  - intros [_ Ha] x Hx%list_elem_of_In. apply list_elem_of_fmap in Hx as ([q b'] & -> & Hx). cbn.
    rewrite Forall_forall in Ha. rewrite Forall_forall in Hf. specialize (Hf _ Hx). cbn in Hf. apply Z.eqb_eq.
    rewrite <- (Ha q) by (apply list_elem_of_fmap; by exists (q, b')). unfold weight_of. by rewrite Hf.
Qed.

(** The selections of a policy over the set. *)
Fixpoint picks (k : nat) (rr : RoundRobin) : checked (RoundRobin * list (option nat)) :=
  match k with
  | O => Val (rr, [])
  | S k =>
      '(rr, p) ← round_robin_next rr c;
      '(rr, ps) ← picks k rr;
      Val (rr, p :: ps)
  end.

Lemma not_empty : is_empty c = false.
Proof. unfold is_empty, len. apply Nat.eqb_neq. by destruct idx. Qed.

Lemma picks_fair k : forall n ws l,
  uniform_weights c = Val false -> fair ws l ->
  Z.of_nat (length bs) * (Z.of_nat (length bs) * set_weight + set_weight) < 2 ^ 63 ->
  exists ws' ps, picks k (mkRoundRobin n ws) = Val (mkRoundRobin n ws', Some <$> ps) /\ length ps = k /\ fair ws' (l ++ ps).
Proof.
  induction k as [| k IH]; intros n ws l Hu Hf Hov; cbn [picks].
  { exists ws, []. by rewrite app_nil_r. }
  unfold round_robin_next. rewrite not_empty, Hu. cbn [mbind outcome_bind negb].
  destruct (fair_step n ws l Hf Hov) as (ws1 & q & -> & Hf1). cbn [mbind outcome_bind].
  destruct (IH n ws1 (l ++ [q]) Hu Hf1 Hov) as (ws' & ps & -> & Hlen & Hf'). exists ws', (q :: ps).
  split; [done |]. split; [by cbn; rewrite Hlen |]. by rewrite <- app_assoc in Hf'.
Qed.

(** After whole rounds, each candidate was selected as often as it weighs. *)
Lemma fair_round ws ps j :
  fair ws ps -> Z.of_nat (length ps) = j * set_weight -> forall p, p ∈ idx -> shares p ps = j * w p.
Proof.
  intros Hf Hlen. pose proof set_weight_len as HW. assert (Hpos : 0 < set_weight) by (destruct idx; [done | cbn in *; lia]).
  apply sum_over_eq.
  - intros p Hp. pose proof (fr_low _ _ Hf p) as Hlow. rewrite (fr_value _ _ Hf), decide_True, Hlen in Hlow by done. nia.
  - rewrite sum_over_scale, shares_total; [done | apply increasing_NoDup, Hc |].
    pose proof (fr_picked _ _ Hf) as Hpk. by rewrite Forall_forall in Hpk.
Qed.

(** *** Equal weights *)

Lemma cursor_step n ws :
  uniform_weights c = Val true -> 0 <= n < U32_MAX -> Z.of_nat (length idx) < 2 ^ 32 ->
  exists p, idx !! Z.to_nat (n mod Z.of_nat (length idx)) = Some p /\
    round_robin_next (mkRoundRobin n ws) c = Val (mkRoundRobin ((n + 1) mod Z.of_nat (length idx)) ws, Some p).
Proof.
  intros Hu Hn Hlt. assert (Hlen : (0 < length idx)%nat) by (destruct idx; [done | cbn; lia]).
  pose proof (Z.mod_pos_bound n (Z.of_nat (length idx)) ltac:(lia)) as Hm.
  pose proof (Z.mod_pos_bound (n + 1) (Z.of_nat (length idx)) ltac:(lia)) as Hm'.
  destruct (lookup_lt_is_Some_2 idx (Z.to_nat (n mod Z.of_nat (length idx)))) as [p Hp]; [lia |]. exists p. split; [done |].
  pose proof (co_range _ Hc) as Hr. rewrite Forall_forall in Hr.
  destruct (lookup_lt_is_Some_2 bs p) as [b Hb]; [apply Hr; by eapply list_elem_of_lookup_2 |].
  unfold round_robin_next. rewrite not_empty, Hu. cbn [mbind outcome_bind negb next_backend current_weights]. unfold len.
  run_assert by (apply Nat.ltb_lt; lia). unfold get, backend_at. rewrite Hp, (index_Some _ _ _ Hb).
  cbn [mbind outcome_bind]. run_assert by done. unfold u32_incr.
  run_assert by (apply Z.ltb_lt; lia).
  rewrite (wrap_small 32 (Z.of_nat (length idx))) by (split; lia).
  run_assert by (apply negb_true_iff, Z.eqb_neq; lia). by run_assert by (apply Z.ltb_lt; lia).
Qed.

(** The candidates from the cursor [n], around the set. *)
Definition around (n : Z) (k : nat) : list nat :=
  (fun i => idx !!! Z.to_nat ((n + Z.of_nat i) mod Z.of_nat (length idx))) <$> seq 0 k.

Lemma around_S n k p :
  (0 < length idx)%nat -> idx !! Z.to_nat (n mod Z.of_nat (length idx)) = Some p ->
  around n (S k) = p :: around ((n + 1) mod Z.of_nat (length idx)) k.
Proof.
  intros Hlen Hp. unfold around. rewrite <- cons_seq. cbn [fmap list_fmap].
  rewrite Z.add_0_r, (list_lookup_total_correct _ _ _ Hp). f_equal. rewrite <- fmap_S_seq, <- list_fmap_compose.
  apply list_fmap_ext. intros _ i _. cbn [compose]. rewrite Z.add_mod_idemp_l by lia. replace (n + Z.of_nat (S i)) with (n + 1 + Z.of_nat i) by lia. done.
Qed.

Lemma picks_cursor k : forall n ws,
  uniform_weights c = Val true -> 0 <= n < U32_MAX -> Z.of_nat (length idx) < 2 ^ 32 ->
  exists rr, picks k (mkRoundRobin n ws) = Val (rr, Some <$> around n k).
Proof.
  assert (Hlen : (0 < length idx)%nat) by (destruct idx; [done | cbn; lia]).
  induction k as [| k IH]; intros n ws Hu Hn Hlt; [by eexists |]. cbn [picks].
  destruct (cursor_step n ws Hu Hn Hlt) as (p & Hp & ->). cbn [mbind outcome_bind].
  pose proof (Z.mod_pos_bound (n + 1) (Z.of_nat (length idx)) ltac:(lia)).
  destruct (IH ((n + 1) mod Z.of_nat (length idx)) ws Hu) as (rr & ->); [unfold U32_MAX; lia | done |].
  exists rr. by rewrite (around_S _ _ p).
Qed.

Lemma around_rotate n : 0 <= n -> around n (length idx) = rotate (Z.to_nat n) idx.
Proof.
  intros Hn. apply list_eq_same_length with (length idx); [by rewrite length_rotate | unfold around; by rewrite length_fmap, length_seq |].
  intros i x y Hi. unfold around. rewrite list_lookup_fmap, lookup_seq_lt by done. cbn. intros [= <-].
  rewrite lookup_rotate_r by done. unfold rotate_nat_add. rewrite Z2Nat.id by done.
  intros Hy. by apply list_lookup_total_correct.
Qed.

Lemma around_add n k1 k2 : around n (k1 + k2) = around n k1 ++ around (n + Z.of_nat k1) k2.
Proof.
  unfold around. rewrite seq_app, fmap_app. f_equal. cbn [Nat.add]. rewrite <- (Nat.add_0_r k1) at 1.
  rewrite <- fmap_add_seq, <- list_fmap_compose. apply list_fmap_ext. intros _ i _. cbn [compose]. do 3 f_equal. lia.
Qed.

Lemma around_round n j p : 0 <= n -> p ∈ idx -> shares p (around n (j * length idx)) = Z.of_nat j.
Proof.
  intros Hn Hp. revert n Hn. induction j as [| j IH]; intros n Hn; [done |]. cbn [Nat.mul].
  rewrite around_add. rewrite shares_app, IH by lia.
  rewrite around_rotate by done. rewrite (shares_perm _ _ idx).
  - rewrite shares_once; [lia | apply increasing_NoDup, Hc | done].
  - unfold rotate. rewrite Permutation_app_comm. by rewrite take_drop.
Qed.

End Step.

(** C15. Round robin shares exactly: over any fixed set of candidates, from the
    zero running weights a change of the list leaves ([round_robin_rebuild]),
    every [Σ weight] selections pick each candidate as often as it weighs when
    the weights differ, and every [n] selections pick each of the [n]
    candidates once when they are equal; no assertion fails and no running
    weight overflows.  From other running weights it does not hold:
    [round_robin_after_departure]. *)
Theorem round_robin_shares c rr j uniform :
  candidates_ok c -> cd_indices c <> [] -> uniform_weights c = Val uniform ->
  0 <= next_backend rr < U32_MAX -> Z.of_nat (length (cd_indices c)) < 2 ^ 32 ->
  Z.of_nat (length (cd_backends c)) * (Z.of_nat (length (cd_backends c)) * set_weight c + set_weight c) < 2 ^ 63 ->
  let share p := if uniform : bool then 1 else weight_of (cd_backends c) p in
  exists rr' ps,
    picks c (j * Z.to_nat (sum_over share (cd_indices c))) (round_robin_rebuild rr (cd_backends c)) = Val (rr', Some <$> ps) /\
    forall p, p ∈ cd_indices c -> shares p ps = Z.of_nat j * share p.
Proof.
  intros Hc Hne Hu Hn Hlt Hov share. unfold round_robin_rebuild. destruct uniform.
  - unfold share. rewrite sum_over_const, Z.mul_1_r, Nat2Z.id.
    destruct (picks_cursor c Hc Hne (j * length (cd_indices c)) (next_backend rr)
      (replicate (length (cd_backends c)) 0) Hu Hn Hlt) as (rr' & ->). eexists _, _. split; [done |].
    intros p Hp. rewrite around_round by (done || lia). lia.
  - change (sum_over share (cd_indices c)) with (set_weight c). pose proof (set_weight_len c Hc).
    destruct (picks_fair c Hc Hne (j * Z.to_nat (set_weight c)) (next_backend rr) _ [] Hu (fair_zero c Hc Hne) Hov)
      as (ws & ps & -> & Hlen & Hf). eexists _, _. split; [done |]. apply (fair_round c Hc Hne ws); [done |].
    rewrite Hlen, Nat2Z.inj_mul, Z2Nat.id by lia. done.
Qed.

(** The three backends of the documentation, of weights 5, 1 and 1. *)
Definition example_backend (id : Z) (weight : option Z) : Backend :=
  backend_new_at [id] (V4 (mkSocketAddrV4 [127; 0; 0; id] 8080)) None weight None 0.
Definition example_set : Candidates :=
  mkCandidates [example_backend 1 (Some 5); example_backend 2 (Some 1); example_backend 3 (Some 1)] [0; 1; 2]%nat [] 0.

Lemma round_robin_shares_witness : exists rr ps,
  picks example_set 14 (round_robin_rebuild round_robin_new (cd_backends example_set)) = Val (rr, Some <$> ps) /\
  forall p, p ∈ [0; 1; 2]%nat -> shares p ps = 2 * weight_of (cd_backends example_set) p.
Proof.
  apply (round_robin_shares example_set round_robin_new 2 false); try (by vm_compute).
  split; [by repeat constructor; cbn; lia | done].
Defined.

(** When a candidate stops being one between two changes of the list, the
    running weights it leaves to the others do not sum to zero, and the shares
    over the smaller set are not exact: of weights 100, 1 and 2, after 20
    selections and without the first, the next 11 selections all take the third
    backend, where every 3 should take the second once. *)
Definition departed_set (indices : list nat) : Candidates :=
  mkCandidates [example_backend 1 (Some 100); example_backend 2 (Some 1); example_backend 3 (Some 2)] indices [] 0.

Example round_robin_after_departure :
  ('(rr, _) ← picks (departed_set [0; 1; 2]%nat) 20 (round_robin_rebuild round_robin_new (cd_backends (departed_set [])));
   '(_, ps) ← picks (departed_set [1; 2]%nat) 11 rr; Val ps) = Val (replicate 11 (Some 2%nat)).
Proof. vm_compute. reflexivity. Qed.
