(* ===== verification/Maglev.v ===== *)
(** * Maglev consistent hashing

    [Maglev] of [lib/src/load_balancing.rs]: the table, how it is built and how
    it is probed.  Slots and table entries are [Z], and a free slot holds
    [usize::MAX] as in the code. *)

From S2P Require Import Prelude Retry ProxyProtocol Backend AffinityHash LoadBalancing.

Record Maglev := mkMaglev {
  mg_seed : Z;
  mg_size : Z;
  mg_table : list Z;
  mg_addrs : list SocketAddr;
  mg_round_robin : RoundRobin;
}.

Definition DEFAULT_TABLE_SIZE : Z := 65537.

Definition maglev_with_seed_and_size (seed size : Z) : checked Maglev :=
  size ← next_prime (Z.max size 2);
  Val (mkMaglev seed size [] [] round_robin_new).
Definition maglev_new : checked Maglev := maglev_with_seed_and_size DEFAULT_HASH_SEED DEFAULT_TABLE_SIZE.

(** ** Building the table *)

(** The permutation of an address and its weight. *)
Record Share := mkShare { sh_offset : Z; sh_skip : Z; sh_weight : Z }.

(** [iter().position(|a| *a == addr)] *)
Fixpoint addr_position (addrs : list SocketAddr) (addr : SocketAddr) : option nat :=
  match addrs with
  | [] => None
  | a :: addrs => if bool_decide (a = addr) then Some O else S <$> addr_position addrs addr
  end.

Definition OFFSET_KEY : Z := 0x6F6666736574.
Definition SKIP_KEY : Z := 0x736B69705F5F.

(** The first loop: one share per address, of its heaviest backend. *)
Fixpoint collect_shares (seed m : Z) (bs : list Backend) (addrs : list SocketAddr) (shares : list Share) :
    checked (list SocketAddr * list Share) :=
  match bs with
  | [] => Val (addrs, shares)
  | b :: bs =>
      let addr := address b in
      let w := backend_weight b in
      match addr_position addrs addr with
      | Some known =>
          s ← index shares known;
          collect_shares seed m bs addrs
            (<[known := mkShare (sh_offset s) (sh_skip s) (Z.max (sh_weight s) w)]> shares)
      | None =>
          let h1 := hash_backend seed OFFSET_KEY addr in
          let h2 := hash_backend seed SKIP_KEY addr in
          let offset := h1 mod m in
          _ ← debug_assert (negb (m - 1 =? 0));
          let skip := h2 mod (m - 1) + 1 in
          _ ← debug_assert (offset <? m);
          _ ← debug_assert ((1 <=? skip) && (skip <? m));
          collect_shares seed m bs (addrs ++ [addr]) (shares ++ [mkShare offset skip w])
      end
  end.

(** [weights.iter().sum::<u64>()] *)
Fixpoint sum_u64 (acc : Z) (l : list Z) : checked Z :=
  match l with
  | [] => Val acc
  | x :: l => _ ← debug_assert (acc + x <=? U64_MAX); sum_u64 (acc + x) l
  end.

(** The remainder, one slot at a time from the first address. *)
Fixpoint spread (fuel : nat) (m : Z) (targets : list Z) (assigned : Z) (i : nat) : checked (list Z * Z) :=
  match fuel with
  | O => Panic
  | S fuel =>
      if assigned <? m then
        let k := (i mod length targets)%nat in
        t ← index targets k;
        spread fuel m (<[k := t + 1]> targets) (assigned + 1) (S i)
      else Val (targets, assigned)
  end.

Definition slot_targets (m : Z) (shares : list Share) : checked (list Z) :=
  total ← sum_u64 0 (sh_weight <$> shares);
  _ ← debug_assert (0 <? total);
  let floors := (fun s => sh_weight s * m / total) <$> shares in
  let assigned := foldl Z.add 0 floors in
  '(targets, assigned) ← spread (S (Z.to_nat m)) m floors assigned 0;
  _ ← debug_assert (assigned =? m);
  sum ← sum_u64 0 targets;
  _ ← debug_assert (sum =? m);
  Val targets.

(** [(offsets[b] + next[b] * skips[b]) % m] *)
Definition preferred (m : Z) (s : Share) (next : Z) : checked nat :=
  _ ← debug_assert (sh_offset s + next * sh_skip s <=? USIZE_MAX);
  Val (Z.to_nat ((sh_offset s + next * sh_skip s) mod m)).

(** The next free preferred slot, and the permutation index it has. *)
Fixpoint free_slot (fuel : nat) (m : Z) (table : list Z) (s : Share) (next : Z) : checked (nat * Z) :=
  match fuel with
  | O => Panic
  | S fuel =>
      c ← preferred m s next;
      slot ← index table c;
      if slot =? USIZE_MAX then Val (c, next) else free_slot fuel m table s (next + 1)
  end.

(** What an address has claimed: its target, the next index of its permutation
    and how many slots it filled. *)
Record Claim := mkClaim { cl_share : Share; cl_target : Z; cl_next : Z; cl_filled : Z }.

(** One pass of the [for] loop from address [b]; it stops when the table is full. *)
Fixpoint claim_pass (m : Z) (b : nat) (todo : list Claim) (table : list Z) (count : Z) :
    checked (list Claim * list Z * Z) :=
  match todo with
  | [] => Val ([], table, count)
  | c :: todo =>
      if cl_target c <=? cl_filled c then
        '(rest, table, count) ← claim_pass m (S b) todo table count;
        Val (c :: rest, table, count)
      else
        '(slot, next) ← free_slot (S (Z.to_nat m)) m table (cl_share c) (cl_next c);
        let table := <[slot := Z.of_nat b]> table in
        let c := mkClaim (cl_share c) (cl_target c) (next + 1) (cl_filled c + 1) in
        let count := count + 1 in
        if m <=? count then Val (c :: todo, table, count)
        else
          '(rest, table, count) ← claim_pass m (S b) todo table count;
          Val (c :: rest, table, count)
  end.

(** The [while] loop. *)
Fixpoint populate (fuel : nat) (m : Z) (claims : list Claim) (table : list Z) (count : Z) :
    checked (list Claim * list Z * Z) :=
  match fuel with
  | O => Panic
  | S fuel =>
      if count <? m then
        '(claims, table, count) ← claim_pass m 0 claims table count;
        populate fuel m claims table count
      else Val (claims, table, count)
  end.

Definition rebuild_from (g : Maglev) (bs : list Backend) : checked Maglev :=
  let ids := length bs in
  if (ids =? 0)%nat || (mg_size g =? 0) then Val (mkMaglev (mg_seed g) (mg_size g) [] [] (mg_round_robin g))
  else
    let m := mg_size g in
    '(addrs, shares) ← collect_shares (mg_seed g) m bs [] [];
    let n := length addrs in
    targets ← (_ ← debug_assert ((1 <=? n)%nat && (n <=? ids)%nat); slot_targets m shares);
    let claims := zip_with (fun s t => mkClaim s t 0 0) shares targets in
    '(claims, table, count) ← populate (S (Z.to_nat m)) m claims (replicate (Z.to_nat m) USIZE_MAX) 0;
    _ ← debug_assert (count =? m);
    _ ← debug_assert (forallb (fun slot => negb (slot =? USIZE_MAX)) table);
    _ ← debug_assert (bool_decide (cl_filled <$> claims = targets));
    prime ← is_prime m;
    _ ← debug_assert prime;
    _ ← debug_assert (if table is [] then (n =? 0)%nat
                      else (Z.of_nat (length table) =? m) && (1 <=? n)%nat
                           && forallb (fun slot => slot <? Z.of_nat n) table);
    Val (mkMaglev (mg_seed g) m table addrs (mg_round_robin g)).

Definition maglev_rebuild (g : Maglev) (bs : list Backend) : checked Maglev :=
  g ← rebuild_from g bs;
  Val (mkMaglev (mg_seed g) (mg_size g) (mg_table g) (mg_addrs g) (round_robin_rebuild (mg_round_robin g) bs)).

(** ** Probing it *)

(** [candidates.iter().find(|b| b.address == addr)] *)
Fixpoint find_address (bs : list (nat * Backend)) (addr : SocketAddr) : option nat :=
  match bs with
  | [] => None
  | (p, b) :: bs => if bool_decide (address b = addr) then Some p else find_address bs addr
  end.

(** The slots from the [i]-th after [start]. *)
Fixpoint probe (todo : nat) (g : Maglev) (bs : list (nat * Backend)) (start i : Z) : checked (option nat) :=
  match todo with
  | O => Val None
  | S todo =>
      let slot := (start + i) mod mg_size g in
      _ ← debug_assert (slot <? mg_size g);
      idx ← index (mg_table g) (Z.to_nat slot);
      _ ← debug_assert (idx <? Z.of_nat (length (mg_addrs g)));
      match mg_addrs g !! Z.to_nat idx with
      | Some addr =>
          match find_address bs addr with
          | Some p => Val (Some p)
          | None => probe todo g bs start (i + 1)
          end
      | None => probe todo g bs start (i + 1)
      end
  end.

Definition maglev_next (g : Maglev) (key : option Z) (c : Candidates) : checked (Maglev * option nat) :=
  let fallback (g : Maglev) : checked (Maglev * option nat) :=
    '(rr, p) ← round_robin_next (mg_round_robin g) c;
    Val (mkMaglev (mg_seed g) (mg_size g) (mg_table g) (mg_addrs g) rr, p) in
  match key with
  | None => fallback g
  | Some key =>
      if is_empty c then Val (g, None)
      else
        bs ← iter c;
        g ← (if (length (mg_table g) =? 0)%nat then rebuild_from g (snd <$> bs) else Val g);
        if (length (mg_table g) =? 0)%nat then Val (g, None)
        else
          let start := key mod mg_size g in
          _ ← debug_assert (start <? mg_size g);
          _ ← debug_assert (Z.of_nat (length (mg_table g)) =? mg_size g);
          found ← probe (Z.to_nat (mg_size g)) g bs start 0;
          match found with
          | Some p => Val (g, Some p)
          | None => fallback g
          end
  end.
