(* ===== verification/MaglevSpec.v ===== *)
(** * What Maglev promises

    The table of [Maglev] is built without a failed assertion and gives each
    address the slots of its weight; a key keeps its backend when others leave
    the candidates. *)


From S2P Require Import Prelude Retry ProxyProtocol Backend AffinityHash LoadBalancing RoundRobinSpec Maglev.

(** ** Primes *)

Lemma prime_loop_true x fuel : forall d,
  0 < d -> prime_loop fuel x d = Val true ->
  forall e, d <= e -> (e - d) mod 2 = 0 -> e * e <= x -> x mod e <> 0.
Proof.
  induction fuel as [| fuel IH]; intros d Hd Hrun e Hde Hpar Hsq; [done |]. cbn [prime_loop] in Hrun.
  apply bind_Val in Hrun as ([] & _ & Hrun). destruct (Z.leb_spec (d * d) x) as [Hle | Hgt]; [| nia].
  destruct (Z.eqb_spec (x mod d) 0) as [Hz | Hnz]; [done |].
  destruct (Z.eq_dec e d) as [-> | Hne]; [done |].
  apply (IH (d + 2)); [lia | done | | | done]; Z.div_mod_to_equations; lia.
Qed.

Lemma is_prime_true x : is_prime x = Val true -> Z.prime x.
Proof.
  unfold is_prime. destruct (Z.ltb_spec x 2) as [Hlt | Hge]; [done |].
  destruct (Z.eqb_spec (x mod 2) 0) as [Hev | Hodd].
  { intros [= Heq%Z.eqb_eq]. subst. apply Z.prime_2. }
  intros Hrun. split; [lia |].
  assert (Hsmall : forall e, 1 < e -> e * e <= x -> ~ (e | x)).
  { intros e He Hsq Hdiv. assert (Hpar : e mod 2 = 1).
    { destruct Hdiv as [q Hq]. pose proof (Z.mod_pos_bound e 2 ltac:(lia)).
      destruct (Z.eq_dec (e mod 2) 0) as [H0 | ?]; [| lia]. apply Z.mod_divide in H0 as [k ->]; [| lia].
      destruct Hodd. rewrite Hq. replace (q * (k * 2)) with (q * k * 2) by lia. by rewrite Z.mod_mul. }
    apply (prime_loop_true x _ 3 ltac:(lia) Hrun e); [| | done | by apply Z.mod_divide; [lia |]]; Z.div_mod_to_equations; lia. }
  intros n Hn Hdiv. destruct (Z.le_gt_cases (n * n) x) as [Hle | Hgt]; [by apply (Hsmall n); [lia | |] |].
  destruct Hdiv as [q ->]. apply (Hsmall q); [nia | nia | by exists n; lia].
Qed.

Lemma prime_65537 : Z.prime 65537.
Proof. apply is_prime_true. by vm_compute. Qed.

(** The stride of a permutation reaches every slot. *)
Lemma stride_reaches m offset skip slot :
  Z.prime m -> 1 <= skip < m -> 0 <= slot < m -> exists j, 0 <= j < m /\ (offset + j * skip) mod m = slot.
Proof.
  intros Hp Hs Hslot. assert (Hm : 0 < m) by lia.
  destruct (Z.Bezout_coprime m skip) as (v & u & Huv); [by apply Z.coprime_prime_small |].
  exists ((slot - offset) * u mod m). split; [by apply Z.mod_pos_bound |].
  rewrite <- Z.add_mod_idemp_r, Z.mul_mod_idemp_l, Z.add_mod_idemp_r by lia.
  replace (offset + (slot - offset) * u * skip) with (slot + (offset - slot) * v * m).
  - rewrite Z.mod_add by lia. by apply Z.mod_small.
  - replace ((slot - offset) * u * skip) with ((slot - offset) * (u * skip)) by lia.
    replace (u * skip) with (1 - v * m) by lia. lia.
Qed.

(** ** Claiming slots *)

Section Table.
Context (m : Z).
Hypothesis Hprime : Z.prime m.
Hypothesis Hm : m < 2 ^ 31.

Definition share_ok (s : Share) : Prop := 0 <= sh_offset s < m /\ 1 <= sh_skip s < m.

(** The [j]-th slot of a permutation. *)
Definition nth_slot (s : Share) (j : Z) : nat := Z.to_nat ((sh_offset s + j * sh_skip s) mod m).

Definition free (table : list Z) (slot : nat) : Prop := table !! slot = Some USIZE_MAX.

Definition visited (table : list Z) (s : Share) (next : Z) : Prop := forall j, 0 <= j < next -> ~ free table (nth_slot s j).

Lemma m_pos : 2 <= m.
Proof. by apply Z.prime_ge_2. Qed.

Lemma nth_slot_lt s j : (nth_slot s j < Z.to_nat m)%nat.
Proof. unfold nth_slot. pose proof m_pos. pose proof (Z.mod_pos_bound (sh_offset s + j * sh_skip s) m ltac:(lia)). lia. Qed.

Lemma preferred_Val s j : share_ok s -> 0 <= j <= m -> preferred m s j = Val (nth_slot s j).
Proof.
  intros [Ho Hs] Hj. unfold preferred. rewrite debug_assert_true; [done |]. apply Z.leb_le. unfold USIZE_MAX. nia.
Qed.

Lemma free_slot_spec table s : share_ok s -> length table = Z.to_nat m -> forall fuel next,
  0 <= next -> visited table s next -> m - next < Z.of_nat fuel -> (exists slot, free table slot) ->
  exists next', free_slot fuel m table s next = Val (nth_slot s next', next') /\ next <= next' < m /\
    free table (nth_slot s next') /\ visited table s next'.
Proof.
  intros Hs Hlen. induction fuel as [| fuel IH]; intros next Hnext Hv Hfuel Hfree.
  - exfalso. destruct Hfree as [slot Hf]. pose proof (lookup_lt_Some _ _ _ Hf) as Hlt. rewrite Hlen in Hlt.
    destruct (stride_reaches m (sh_offset s) (sh_skip s) (Z.of_nat slot) Hprime ltac:(apply Hs) ltac:(lia)) as (j & Hj & Heq).
    apply (Hv j); [lia |]. unfold nth_slot. by rewrite Heq, Nat2Z.id.
  - assert (Hlt : next < m).
    { destruct Hfree as [slot Hf]. pose proof (lookup_lt_Some _ _ _ Hf) as Hlt. rewrite Hlen in Hlt.
      destruct (stride_reaches m (sh_offset s) (sh_skip s) (Z.of_nat slot) Hprime ltac:(apply Hs) ltac:(lia)) as (j & Hj & Heq).
      destruct (Z.lt_ge_cases next m) as [? | Hge]; [done |]. exfalso. apply (Hv j); [lia |].
      unfold nth_slot. by rewrite Heq, Nat2Z.id. }
    cbn [free_slot]. rewrite preferred_Val by (done || lia). cbn [mbind outcome_bind].
    destruct (lookup_lt_is_Some_2 table (nth_slot s next)) as [v Hv']; [rewrite Hlen; apply nth_slot_lt |].
    rewrite (index_Some _ _ _ Hv'). cbn [mbind outcome_bind]. destruct (Z.eqb_spec v USIZE_MAX) as [-> | Hne].
    + exists next. split; [done |]. split; [lia |]. done.
    + destruct (IH (next + 1)) as (next' & -> & Hb & Hf & Hvis); [lia | | lia | done |].
      { intros j Hj. destruct (Z.eq_dec j next) as [-> | ?]; [| apply Hv; lia]. unfold free. rewrite Hv'. congruence. }
      exists next'. split; [done |]. split; [lia | done].
Qed.

(** ** The state of the population loop *)

Record claims_ok (cls : list Claim) (table : list Z) (count : Z) : Prop := {
  cm_length : length table = Z.to_nat m;
  cm_count : count = sum_over cl_filled cls;
  cm_target : sum_over cl_target cls = m;
  cm_claim : forall b c, cls !! b = Some c -> share_ok (cl_share c) /\ 0 <= cl_next c /\ 0 <= cl_filled c <= cl_target c /\
    visited table (cl_share c) (cl_next c) /\ shares (Z.of_nat b) table = cl_filled c;
  cm_free : shares USIZE_MAX table = m - count;
  cm_entry : Forall (fun v => v = USIZE_MAX \/ 0 <= v < Z.of_nat (length cls)) table;
}.

Lemma visited_mono table s next slot v :
  visited table s next -> v <> USIZE_MAX -> visited (<[slot := v]> table) s next.
Proof.
  intros Hv Hne j Hj Hf. apply (Hv j Hj). unfold free in *. destruct (decide (slot = nth_slot s j)) as [-> | Hs].
  - apply list_lookup_insert_Some in Hf as [(_ & Heq & _) | [? _]]; congruence.
  - by rewrite list_lookup_insert_ne in Hf.
Qed.

Definition claimed (c : Claim) (next : Z) : Claim := mkClaim (cl_share c) (cl_target c) (next + 1) (cl_filled c + 1).

Lemma sum_over_insert {A} (f : A -> Z) l i x y :
  l !! i = Some y -> sum_over f (<[i := x]> l) = sum_over f l - f y + f x.
Proof.
  intros Hi. rewrite insert_take_drop by (by eapply lookup_lt_Some). rewrite <- (take_drop_middle l i y Hi) at 3.
  rewrite !sum_over_app. cbn. lia.
Qed.

(** One claim of the address [b]. *)
Lemma claim_step cls table count b c :
  claims_ok cls table count -> Z.of_nat (length cls) < 2 ^ 32 -> cls !! b = Some c -> cl_filled c < cl_target c -> count < m ->
  exists next, free_slot (S (Z.to_nat m)) m table (cl_share c) (cl_next c) = Val (nth_slot (cl_share c) next, next) /\
    claims_ok (<[b := claimed c next]> cls) (<[nth_slot (cl_share c) next := Z.of_nat b]> table) (count + 1).
Proof.
  intros Hok Hsmall Hb Hlt Hcount. pose proof m_pos. destruct (cm_claim _ _ _ Hok b c Hb) as (Hs & Hn & Hf & Hv & Hsh).
  destruct (free_slot_spec table (cl_share c) Hs (cm_length _ _ _ Hok) (S (Z.to_nat m)) (cl_next c)) as (next & Hrun & Hbn & Hfree & Hvis);
    [done | done | lia | |].
  { assert (Hin : USIZE_MAX ∈ table) by (apply shares_pos; rewrite (cm_free _ _ _ Hok); lia).
    apply list_elem_of_lookup_1 in Hin as [slot Hslot]. by exists slot. }
  exists next. split; [done |]. set (slot := nth_slot (cl_share c) next) in *.
  pose proof (lookup_lt_Some _ _ _ Hb) as Hbl.
  assert (Hne : Z.of_nat b <> USIZE_MAX) by (unfold USIZE_MAX; lia).
  split.
  - by rewrite length_insert, (cm_length _ _ _ Hok).
  - rewrite (sum_over_insert _ _ _ _ c) by done. cbn. rewrite (cm_count _ _ _ Hok). lia.
  - rewrite (sum_over_insert _ _ _ _ c) by done. cbn. rewrite (cm_target _ _ _ Hok). lia.
  - intros b' c' [(<- & <- & _) | [Hbb Hb']]%list_lookup_insert_Some.
    + cbn. split; [done |]. split; [lia |]. split; [lia |]. split.
      * intros j Hj Hfj. destruct (Z.eq_dec j next) as [-> | Hj'].
        -- fold slot in Hfj. unfold free in Hfj. rewrite list_lookup_insert_eq in Hfj by (by eapply lookup_lt_Some). congruence.
        -- by apply (visited_mono table (cl_share c) next slot (Z.of_nat b) Hvis Hne j); [lia |].
      * rewrite (shares_insert _ _ _ _ USIZE_MAX) by done. rewrite decide_False by done. rewrite decide_True by done. lia.
    + destruct (cm_claim _ _ _ Hok b' c' Hb') as (Hs' & Hn' & Hf' & Hv' & Hsh'). split; [done |]. split; [done |].
      split; [done |]. split; [by apply visited_mono |]. rewrite (shares_insert _ _ _ _ USIZE_MAX) by done.
      pose proof (lookup_lt_Some _ _ _ Hb'). rewrite !decide_False by (unfold USIZE_MAX in *; lia). lia.
  - rewrite (shares_insert _ _ _ _ USIZE_MAX) by done. rewrite decide_True, decide_False by done. rewrite (cm_free _ _ _ Hok). lia.
  - rewrite length_insert. apply Forall_insert; [apply Hok | right; lia].
Qed.

Definition behind (cls : list Claim) : Prop := Exists (fun c => cl_filled c < cl_target c) cls.

Lemma claim_pass_spec todo : forall pre table count,
  claims_ok (pre ++ todo) table count -> Z.of_nat (length (pre ++ todo)) < 2 ^ 32 -> count < m ->
  exists todo' table' count', claim_pass m (length pre) todo table count = Val (todo', table', count') /\
    claims_ok (pre ++ todo') table' count' /\ count <= count' <= m /\ cl_target <$> todo' = cl_target <$> todo /\
    (behind todo -> count < count').
Proof.
  induction todo as [| c todo IH]; intros pre table count Hok Hsmall Hcount; cbn [claim_pass].
  { exists [], table, count. split; [done |]. split; [done |]. split; [lia |]. split; [done |]. by intros ?%Exists_nil. }
  assert (Hb : (pre ++ c :: todo) !! length pre = Some c) by (by rewrite lookup_app_r, Nat.sub_diag by done).
  assert (Hpre : forall x : Claim, pre ++ x :: todo = (pre ++ [x]) ++ todo) by (intros; by rewrite <- app_assoc).
  assert (Hlast : forall x : Claim, length (pre ++ [x]) = S (length pre)) by (intros; rewrite length_app; cbn; lia).
  destruct (Z.leb_spec (cl_target c) (cl_filled c)) as [Hfull | Hlt].
  - destruct (IH (pre ++ [c]) table count) as (todo' & table' & count' & Hrun & Hok' & Hc' & Ht & Hp);
      [by rewrite <- Hpre | by rewrite <- Hpre | done |].
    rewrite Hlast in Hrun. rewrite Hrun. exists (c :: todo'), table', count'. split; [done |].
    split; [by rewrite <- app_assoc in Hok' |]. split; [done |]. split; [cbn; by rewrite Ht |].
    intros [? | ?]%Exists_cons; [lia | by apply Hp].
  - destruct (claim_step _ table count _ c Hok Hsmall Hb Hlt Hcount) as (next & -> & Hok1). cbn [mbind outcome_bind].
    fold (claimed c next).
    assert (Hins : <[length pre := claimed c next]> (pre ++ c :: todo) = pre ++ claimed c next :: todo).
    { rewrite insert_app_r_alt, Nat.sub_diag by done. done. }
    rewrite Hins in Hok1. destruct (Z.leb_spec m (count + 1)) as [Hge | Hlt1].
    + eexists _, _, _. split; [done |]. split; [done |]. split; [lia |]. split; [done | lia].
    + destruct (IH (pre ++ [claimed c next]) (<[nth_slot (cl_share c) next := Z.of_nat (length pre)]> table) (count + 1))
        as (todo' & table' & count' & Hrun & Hok' & Hc' & Ht & Hp); [by rewrite <- Hpre | | done |].
      { rewrite !length_app in *. cbn in *. lia. }
      rewrite Hlast in Hrun. rewrite Hrun. eexists _, _, _. split; [done |].
      split; [by rewrite <- app_assoc in Hok' |]. split; [lia |]. split; [cbn; by rewrite Ht | lia].
Qed.

Lemma behind_if cls table count : claims_ok cls table count -> count < m -> behind cls.
Proof.
  intros Hok Hlt. destruct (decide (behind cls)) as [? | Hn]; [done | exfalso].
  pose proof (cm_count _ _ _ Hok) as Hc. pose proof (cm_target _ _ _ Hok) as Ht.
  enough (sum_over cl_target cls <= sum_over cl_filled cls) by lia. apply sum_over_le. intros c Hin.
  destruct (Z.le_gt_cases (cl_target c) (cl_filled c)) as [? | Hgt]; [done |]. destruct Hn. apply Exists_exists. by exists c.
Qed.

Lemma populate_spec fuel : forall cls table count,
  claims_ok cls table count -> Z.of_nat (length cls) < 2 ^ 32 -> count <= m -> m - count < Z.of_nat fuel ->
  exists cls' table', populate fuel m cls table count = Val (cls', table', m) /\ claims_ok cls' table' m /\
    cl_target <$> cls' = cl_target <$> cls.
Proof.
  induction fuel as [| fuel IH]; intros cls table count Hok Hsmall Hle Hfuel; [lia |]. cbn [populate].
  destruct (Z.ltb_spec count m) as [Hlt | Hge].
  - destruct (claim_pass_spec cls [] table count Hok Hsmall Hlt) as (cls1 & table1 & count1 & Hrun & Hok1 & Hc1 & Ht & Hp).
    cbn [length] in Hrun. rewrite Hrun. cbn [mbind outcome_bind app] in *. specialize (Hp (behind_if _ _ _ Hok Hlt)).
    assert (Hlen : length cls1 = length cls) by (by rewrite <- (length_fmap cl_target), Ht, length_fmap).
    destruct (IH cls1 table1 count1 Hok1) as (cls' & table' & -> & Hok' & Ht'); [by rewrite Hlen | lia | lia |].
    eexists _, _. split; [done |]. split; [done |]. congruence.
  - assert (count = m) as -> by lia. by eexists _, _.
Qed.

(** A full table: every address has its target. *)
Lemma full_table cls table :
  claims_ok cls table m ->
  cl_filled <$> cls = cl_target <$> cls /\ Forall (fun v => 0 <= v < Z.of_nat (length cls)) table /\
  forall b c, cls !! b = Some c -> shares (Z.of_nat b) table = cl_target c.
Proof.
  intros Hok.
  assert (Heq : forall c, c ∈ cls -> cl_filled c = cl_target c).
  { apply sum_over_eq.
    - intros c [b Hb]%list_elem_of_lookup_1. apply (cm_claim _ _ _ Hok) in Hb. lia.
    - by rewrite (cm_target _ _ _ Hok), (cm_count _ _ _ Hok). }
  split; [| split].
  - apply list_fmap_ext. intros i c Hi. apply Heq. by eapply list_elem_of_lookup_2.
  - pose proof (cm_entry _ _ _ Hok) as He. rewrite Forall_forall in *. intros v Hv. destruct (He v Hv) as [-> | ?]; [exfalso | done].
    pose proof (cm_free _ _ _ Hok) as Hf. apply list_elem_of_split in Hv as (l1 & l2 & ->).
    rewrite shares_app, shares_cons, decide_True in Hf by done.
    pose proof (shares_nonneg USIZE_MAX l1). pose proof (shares_nonneg USIZE_MAX l2). lia.
  - intros b c Hb. rewrite <- Heq by (by eapply list_elem_of_lookup_2). by apply (cm_claim _ _ _ Hok).
Qed.

(** ** The shares of the addresses *)

(** The weight of an address: the largest of its backends. *)
Fixpoint address_weight (bs : list Backend) (a : SocketAddr) : Z :=
  match bs with
  | [] => 0
  | b :: bs => if decide (address b = a) then Z.max (backend_weight b) (address_weight bs a) else address_weight bs a
  end.

Lemma address_weight_snoc bs b a :
  address_weight (bs ++ [b]) a =
    if decide (address b = a) then Z.max (address_weight bs a) (backend_weight b) else address_weight bs a.
Proof.
  induction bs as [| b' bs IH]; cbn [address_weight app].
  - case_decide; [| done]. pose proof (backend_weight_pos b). lia.
  - rewrite IH. repeat case_decide; lia.
Qed.

Lemma address_weight_pos bs a : a ∈ address <$> bs -> 1 <= address_weight bs a.
Proof.
  induction bs as [| b bs IH]; cbn; [by intros ?%not_elem_of_nil |]. intros [-> | Ha]%elem_of_cons.
  - rewrite decide_True by done. pose proof (backend_weight_pos b). lia.
  - specialize (IH Ha). case_decide; lia.
Qed.

Lemma address_weight_absent bs a : a ∉ address <$> bs -> address_weight bs a = 0.
Proof.
  induction bs as [| b bs IH]; cbn; [done |]. intros [Hne Ha]%not_elem_of_cons. rewrite decide_False by congruence. by apply IH.
Qed.

Lemma address_weight_bound bs a M : 0 <= M -> Forall (fun b => backend_weight b <= M) bs -> address_weight bs a <= M.
Proof. intros HM. induction 1 as [| b bs Hb _ IH]; cbn; [done |]. case_decide; lia. Qed.

Lemma addr_position_spec addrs a :
  match addr_position addrs a with Some k => addrs !! k = Some a | None => a ∉ addrs end.
Proof.
  induction addrs as [| a' addrs IH]; cbn [addr_position]; [apply not_elem_of_nil |].
  case_bool_decide as Ha; [by subst |]. destruct (addr_position addrs a) as [k |]; cbn; [done |].
  by apply not_elem_of_cons.
Qed.

Record collected (seen : list Backend) (addrs : list SocketAddr) (shs : list Share) : Prop := {
  ct_nodup : NoDup addrs;
  ct_addrs : forall a, a ∈ addrs <-> a ∈ address <$> seen;
  ct_length : length shs = length addrs;
  ct_share : forall i a s, addrs !! i = Some a -> shs !! i = Some s -> share_ok s /\ sh_weight s = address_weight seen a;
}.

Lemma collect_known seen addrs shs b k s :
  collected seen addrs shs -> addrs !! k = Some (address b) -> shs !! k = Some s ->
  collected (seen ++ [b]) addrs (<[k := mkShare (sh_offset s) (sh_skip s) (Z.max (sh_weight s) (backend_weight b))]> shs).
Proof.
  intros [Hnd Ha Hl Hs] Hk Hsk. split; [done | | by rewrite length_insert |].
  - intros a. rewrite Ha, fmap_app, elem_of_app. split; [by left |]. intros [? | Hin]; [done |].
    apply list_elem_of_singleton in Hin. subst a. apply Ha. by eapply list_elem_of_lookup_2.
  - intros i a s' Hi. rewrite address_weight_snoc. intros [(-> & <- & _) | [Hne Hs']]%list_lookup_insert_Some.
    + rewrite Hk in Hi. injection Hi as <-. rewrite decide_True by done. destruct (Hs _ _ _ Hk Hsk) as [Hok ->]. done.
    + rewrite decide_False; [by apply (Hs i) |]. intros Heq. subst a. by eapply Hne, NoDup_lookup.
Qed.

Lemma collect_new seen addrs shs b s :
  collected seen addrs shs -> address b ∉ addrs -> share_ok s -> sh_weight s = backend_weight b ->
  collected (seen ++ [b]) (addrs ++ [address b]) (shs ++ [s]).
Proof.
  intros [Hnd Ha Hl Hs] Hn Hok Hw. split.
  - by apply NoDup_snoc.
  - intros a. rewrite fmap_app, !elem_of_app, Ha. done.
  - rewrite !length_app, Hl. done.
  - intros i a s' [Hi | [Hge Hi]]%lookup_app_Some [Hi' | [Hge' Hi']]%lookup_app_Some.
    + rewrite address_weight_snoc, decide_False; [by apply (Hs i) |]. intros <-. apply Hn. by eapply list_elem_of_lookup_2.
    + apply lookup_lt_Some in Hi. lia.
    + apply lookup_lt_Some in Hi'. lia.
    + apply list_lookup_singleton_Some in Hi as [_ <-]. apply list_lookup_singleton_Some in Hi' as [_ <-].
      rewrite address_weight_snoc, decide_True, address_weight_absent by (done || by rewrite <- Ha).
      split; [done |]. rewrite Hw. pose proof (backend_weight_pos b). lia.
Qed.

Lemma collect_shares_spec seed bs : forall seen addrs shs,
  collected seen addrs shs ->
  exists addrs' shs', collect_shares seed m bs addrs shs = Val (addrs', shs') /\ collected (seen ++ bs) addrs' shs'.
Proof.
  pose proof m_pos as Hm2. induction bs as [| b bs IH]; intros seen addrs shs Hc; cbn [collect_shares].
  { exists addrs, shs. by rewrite app_nil_r. }
  pose proof (addr_position_spec addrs (address b)) as Hpos. destruct (addr_position addrs (address b)) as [k |].
  - destruct (lookup_lt_is_Some_2 shs k) as [s Hs]; [rewrite (ct_length _ _ _ Hc); by eapply lookup_lt_Some |].
    rewrite (index_Some _ _ _ Hs). cbn [mbind outcome_bind].
    destruct (IH (seen ++ [b]) addrs _ (collect_known _ _ _ _ _ _ Hc Hpos Hs)) as (addrs' & shs' & -> & Hc').
    rewrite <- app_assoc in Hc'. by eexists _, _.
  - pose proof (Z.mod_pos_bound (hash_backend seed OFFSET_KEY (address b)) m ltac:(lia)) as Ho.
    pose proof (Z.mod_pos_bound (hash_backend seed SKIP_KEY (address b)) (m - 1) ltac:(lia)) as Hk.
    set (offset := hash_backend seed OFFSET_KEY (address b) mod m) in *.
    set (skip := hash_backend seed SKIP_KEY (address b) mod (m - 1)) in *.
    rewrite (debug_assert_true (negb (m - 1 =? 0))) by (apply negb_true_iff, Z.eqb_neq; lia).
    rewrite (debug_assert_true (offset <? m)) by (apply Z.ltb_lt; lia).
    rewrite (debug_assert_true ((1 <=? skip + 1) && (skip + 1 <? m))) by (apply andb_true_iff; split; [apply Z.leb_le | apply Z.ltb_lt]; lia).
    cbn [mbind outcome_bind].
    destruct (IH (seen ++ [b]) _ _ (collect_new seen addrs shs b
      (mkShare offset (skip + 1) (backend_weight b))
      Hc Hpos ltac:(split; cbn; lia) eq_refl)) as (addrs' & shs' & -> & Hc').
    rewrite <- app_assoc in Hc'. by eexists _, _.
Qed.

(** ** The targets *)

Lemma sum_u64_Val l : forall acc, (forall x, x ∈ l -> 0 <= x) -> acc + sum_over id l <= U64_MAX ->
  sum_u64 acc l = Val (acc + sum_over id l).
Proof.
  induction l as [| x l IH]; intros acc Hpos Hle; cbn [sum_u64 sum_over] in *; [by rewrite Z.add_0_r |].
  assert (0 <= sum_over id l).
  { rewrite <- (Z.mul_0_r (Z.of_nat (length l))), <- sum_over_const. apply sum_over_le. intros y Hy. apply Hpos. by right. }
  unfold id in *. rewrite debug_assert_true by (apply Z.leb_le; lia). cbn [mbind outcome_bind].
  rewrite IH; [f_equal; lia | | lia]. intros y Hy. apply Hpos. by right.
Qed.

Lemma sum_over_fmap {A B} (f : B -> Z) (g : A -> B) l : sum_over f (g <$> l) = sum_over (f ∘ g) l.
Proof. induction l as [| x l IH]; [done |]. cbn in *. by rewrite IH. Qed.

Lemma foldl_sum l : forall acc, foldl Z.add acc l = acc + sum_over id l.
Proof. induction l as [| x l IH]; intros acc; cbn; [lia |]. rewrite IH. unfold id. lia. Qed.

(** Floors of proportional parts miss the whole by less than their number. *)
Lemma floors_sum l total :
  0 < total -> sum_over id l = total ->
  m - Z.of_nat (length l) < sum_over (fun w => w * m / total) l <= m \/ l = [].
Proof.
  intros Ht Hs. destruct l as [| x0 l0]; [by right | left]. set (l := x0 :: l0) in *. pose proof m_pos.
  assert (Hlow : total * sum_over (fun w => w * m / total) l <= total * m).
  { rewrite <- Hs at 2. rewrite <- sum_over_scale. rewrite (Z.mul_comm (sum_over id l)), <- sum_over_scale.
    apply sum_over_le. intros w _. unfold id. pose proof (Z.mul_div_le (w * m) total Ht). lia. }
  assert (Hhigh : total * m < total * (sum_over (fun w => w * m / total) l + Z.of_nat (length l))).
  { rewrite <- (Z.mul_1_r (Z.of_nat (length l))), <- sum_over_const, <- sum_over_add, <- sum_over_scale.
    rewrite <- Hs at 1. rewrite (Z.mul_comm (sum_over id l)), <- sum_over_scale. unfold l. cbn [sum_over].
    assert (forall w, m * id w < total * (w * m / total + 1)).
    { intros w. unfold id. pose proof (Z.mul_succ_div_gt (w * m) total Ht). lia. }
    pose proof (H0 x0). assert (sum_over (fun x => m * id x) l0 <= sum_over (fun x => total * (x * m / total + 1)) l0); [| lia].
    apply sum_over_le. intros w _. specialize (H0 w). lia. }
  split; nia.
Qed.

(** The remainder raises some of the parts by one. *)
Lemma spread_spec fuel : forall targets assigned i,
  assigned <= m -> Z.of_nat i + (m - assigned) <= Z.of_nat (length targets) -> m - assigned < Z.of_nat fuel ->
  exists targets', spread fuel m targets assigned i = Val (targets', m) /\ length targets' = length targets /\
    sum_over id targets' = sum_over id targets + (m - assigned) /\
    forall k t, targets !! k = Some t -> exists t', targets' !! k = Some t' /\ t <= t' <= t + 1 /\ ((k < i)%nat -> t' = t).
Proof.
  induction fuel as [| fuel IH]; intros targets assigned i Hle Hroom Hfuel; [lia |]. cbn [spread].
  destruct (Z.ltb_spec assigned m) as [Hlt | Hge].
  - rewrite Nat.mod_small by lia. destruct (lookup_lt_is_Some_2 targets i ltac:(lia)) as [t Ht].
    rewrite (index_Some _ _ _ Ht). cbn [mbind outcome_bind].
    destruct (IH (<[i := t + 1]> targets) (assigned + 1) (S i)) as (targets' & -> & Hl & Hs & Hk);
      [lia | rewrite length_insert; lia | lia |].
    exists targets'. split; [done |]. rewrite length_insert in Hl. split; [done |]. split.
    { rewrite Hs, (sum_over_insert _ _ _ _ t) by done. unfold id. lia. }
    intros k t0 Hk0. destruct (decide (k = i)) as [-> | Hne].
    + rewrite Ht in Hk0. injection Hk0 as ->. destruct (Hk i (t0 + 1)) as (t' & Ht' & Hb & Hsame).
      { apply list_lookup_insert_eq. by eapply lookup_lt_Some. }
      exists t'. rewrite Hsame in * by lia. split; [done |]. split; lia.
    + destruct (Hk k t0) as (t' & Ht' & Hb & Hsame); [by rewrite list_lookup_insert_ne |].
      exists t'. split; [done |]. split; [done |]. intros Hki. apply Hsame. lia.
  - assert (assigned = m) as -> by lia. exists targets. split; [done |]. split; [done |]. split; [lia |].
    intros k t Hk. exists t. split; [done |]. split; [lia | done].
Qed.

Lemma slot_targets_spec shs total :
  shs <> [] -> (forall s, s ∈ shs -> 1 <= sh_weight s) -> total = sum_over sh_weight shs -> total <= U64_MAX ->
  exists targets, slot_targets m shs = Val targets /\ length targets = length shs /\ sum_over id targets = m /\
    (forall t, t ∈ targets -> 0 <= t) /\
    forall i s, shs !! i = Some s -> exists t, targets !! i = Some t /\
      sh_weight s * m / total <= t <= sh_weight s * m / total + 1.
Proof.
  intros Hne Hpos Htotal Hle. pose proof m_pos. unfold slot_targets.
  assert (Hsum : sum_over id (sh_weight <$> shs) = total) by (by rewrite sum_over_fmap).
  assert (Htpos : 0 < total).
  { destruct shs as [| s shs]; [done |]. rewrite Htotal. pose proof (Hpos s ltac:(left)).
    pose proof (sum_over_term sh_weight (s :: shs) s) as Hterm. enough (sh_weight s <= sum_over sh_weight (s :: shs)) by lia.
    apply Hterm; [| left]. intros y Hy. specialize (Hpos y Hy). lia. }
  rewrite sum_u64_Val, Hsum, Z.add_0_l; [| intros x (s & -> & Hs)%list_elem_of_fmap; specialize (Hpos s Hs); lia | lia].
  cbn [mbind outcome_bind]. rewrite (debug_assert_true (0 <? total)) by (by apply Z.ltb_lt). cbn [mbind outcome_bind].
  set (floors := (fun s => sh_weight s * m / total) <$> shs). rewrite foldl_sum, Z.add_0_l.
  assert (Hf : sum_over id floors = sum_over (fun w => w * m / total) (sh_weight <$> shs)) by (unfold floors; by rewrite !sum_over_fmap).
  assert (Hfl : length floors = length shs) by apply length_fmap.
  destruct (floors_sum (sh_weight <$> shs) total Htpos Hsum) as [[Hlo Hhi] | Hnil]; [| by destruct shs].
  rewrite length_fmap in Hlo. rewrite <- Hf in Hlo, Hhi.
  destruct (spread_spec (S (Z.to_nat m)) floors (sum_over id floors) 0) as (targets & -> & Hl & Hs & Hk); [done | lia | | ].
  { assert (0 <= sum_over id floors); [| lia]. rewrite Hf. rewrite <- (Z.mul_0_r (Z.of_nat (length (sh_weight <$> shs)))), <- sum_over_const.
    apply sum_over_le. intros x (s & -> & Hin)%list_elem_of_fmap. specialize (Hpos s Hin). apply Z.div_pos; nia. }
  cbn [mbind outcome_bind]. rewrite (debug_assert_true (m =? m)) by (by apply Z.eqb_eq). cbn [mbind outcome_bind].
  assert (Hk' : forall i s, shs !! i = Some s -> exists t, targets !! i = Some t /\ sh_weight s * m / total <= t <= sh_weight s * m / total + 1).
  { intros i s Hi. destruct (Hk i (sh_weight s * m / total)) as (t & Ht & Hb & _); [unfold floors; by rewrite list_lookup_fmap, Hi |].
    by exists t. }
  assert (Htg : forall t, t ∈ targets -> 0 <= t).
  { intros t (i & Hi)%list_elem_of_lookup_1. destruct (lookup_lt_is_Some_2 shs i) as [s Hsi].
    { apply lookup_lt_Some in Hi. congruence. }
    destruct (Hk' i s Hsi) as (t' & Ht' & Hb & _). rewrite Hi in Ht'. injection Ht' as <-.
    specialize (Hpos s ltac:(by eapply list_elem_of_lookup_2)). pose proof (Z.div_pos (sh_weight s * m) total ltac:(nia) Htpos). lia. }
  assert (Hsm : sum_over id targets = m) by lia.
  rewrite sum_u64_Val, Hsm, Z.add_0_l; [| done | unfold U64_MAX; lia].
  cbn [mbind outcome_bind]. rewrite (debug_assert_true (m =? m)) by (by apply Z.eqb_eq). exists targets.
  split; [done |]. split; [congruence | done].
Qed.

End Table.

(** ** The table *)

(** The table of a set: every slot names an address, and each address has the
    slots of its weight, rounded down or up by less than one. *)
Record table_ok (g : Maglev) (bs : list Backend) : Prop := {
  tb_length : length (mg_table g) = Z.to_nat (mg_size g);
  tb_nodup : NoDup (mg_addrs g);
  tb_addrs : forall a, a ∈ mg_addrs g <-> a ∈ address <$> bs;
  tb_entry : Forall (fun v => 0 <= v < Z.of_nat (length (mg_addrs g))) (mg_table g);
  tb_share : forall i a, mg_addrs g !! i = Some a ->
    let part := address_weight bs a * mg_size g / sum_over (address_weight bs) (mg_addrs g) in
    part <= shares (Z.of_nat i) (mg_table g) <= part + 1;
}.

(** A policy of a usable size. *)
Definition size_ok (g : Maglev) : Prop := is_prime (mg_size g) = Val true /\ mg_size g < 2 ^ 31.

(** Weights are those of an [i32]. *)
Definition backends_ok (bs : list Backend) : Prop :=
  Z.of_nat (length bs) < 2 ^ 32 /\ Forall (fun b => backend_weight b <= I32_MAX) bs.

Lemma collected_nil m : collected m [] [] [].
Proof. split; [constructor | done | done | done]. Qed.

Lemma collected_total m bs addrs shs :
  collected m bs addrs shs -> sum_over sh_weight shs = sum_over (address_weight bs) addrs.
Proof.
  intros Hc. assert (Heq : sh_weight <$> shs = address_weight bs <$> addrs).
  { apply list_eq_same_length with (length addrs); [by rewrite length_fmap | rewrite length_fmap; apply Hc |].
    intros i x y _ (s & -> & Hs)%list_lookup_fmap_Some (a & -> & Ha)%list_lookup_fmap_Some. by apply (ct_share _ _ _ _ Hc i). }
  transitivity (sum_over id (sh_weight <$> shs)); [by rewrite sum_over_fmap |]. by rewrite Heq, sum_over_fmap.
Qed.

Lemma collected_bounds m bs addrs shs :
  collected m bs addrs shs -> bs <> [] -> backends_ok bs ->
  (1 <= length addrs <= length bs)%nat /\ (forall s, s ∈ shs -> 1 <= sh_weight s) /\ sum_over sh_weight shs <= U64_MAX.
Proof.
  intros Hc Hne [Hlen Hw]. assert (Hl : (length addrs <= length bs)%nat).
  { rewrite <- (length_fmap address bs). apply submseteq_length, NoDup_submseteq; [apply Hc |]. intros a. apply Hc. }
  split; [| split].
  - split; [| done]. destruct bs as [| b bs]; [done |]. destruct addrs; [| cbn; lia].
    assert (Hin : address b ∈ ([] : list SocketAddr)) by (apply (ct_addrs _ _ _ _ Hc); left). by apply not_elem_of_nil in Hin.
  - intros s (i & Hi)%list_elem_of_lookup_1. destruct (lookup_lt_is_Some_2 addrs i) as [a Ha].
    { rewrite <- (ct_length _ _ _ _ Hc). by eapply lookup_lt_Some. }
    destruct (ct_share _ _ _ _ Hc i a s Ha Hi) as [_ ->]. apply address_weight_pos, Hc. by eapply list_elem_of_lookup_2.
  - rewrite (collected_total _ _ _ _ Hc). transitivity (sum_over (fun _ => I32_MAX) addrs).
    + apply sum_over_le. intros a _. by apply address_weight_bound.
    + rewrite sum_over_const. unfold I32_MAX, U64_MAX. nia.
Qed.

(** Nothing is claimed yet. *)
Lemma claims_start m shs targets n :
  Z.prime m -> length targets = length shs -> sum_over id targets = m -> (forall t, t ∈ targets -> 0 <= t) ->
  (forall s, s ∈ shs -> share_ok m s) -> Z.of_nat (length shs) < 2 ^ 32 -> n = Z.to_nat m ->
  let cls := zip_with (fun s t => mkClaim s t 0 0) shs targets in
  claims_ok m cls (replicate n USIZE_MAX) 0 /\ cl_target <$> cls = targets /\ length cls = length shs.
Proof.
  intros Hp Hl Hs Ht Hok Hsmall -> cls. pose proof (m_pos m Hp).
  assert (Htg : cl_target <$> cls = targets).
  { unfold cls. rewrite fmap_zip_with_r; [done |  intros; done | lia]. }
  assert (Hlen : length cls = length shs) by (unfold cls; rewrite length_zip_with; lia).
  split; [| done]. split.
  - by rewrite length_replicate.
  - rewrite (sum_over_ext _ (fun _ => 0 * 0)); [by rewrite sum_over_scale |].
    intros c (i & Hi)%list_elem_of_lookup_1. unfold cls in Hi. by apply lookup_zip_with_Some in Hi as (s & t & -> & _).
  - transitivity (sum_over id (cl_target <$> cls)); [by rewrite sum_over_fmap | by rewrite Htg].
  - intros b c Hb. pose proof (lookup_lt_Some _ _ _ Hb) as Hbl. unfold cls in Hb. apply lookup_zip_with_Some in Hb as (s & t & -> & Hsb & Htb). cbn.
    split; [apply Hok; by eapply list_elem_of_lookup_2 |]. split; [done |].
    split; [specialize (Ht t ltac:(by eapply list_elem_of_lookup_2)); lia |]. split; [intros j Hj; lia |].
    rewrite shares_replicate, decide_False; [done |]. unfold USIZE_MAX. lia.
  - rewrite shares_replicate, decide_True by done. lia.
  - apply Forall_replicate. by left.
Qed.

(** The assertions at the end of [rebuild_from] hold. *)
Lemma rebuild_asserts {A} m table n (filled targets : list Z) (k : checked A) :
  is_prime m = Val true -> 2 <= m -> length table = Z.to_nat m -> (1 <= n)%nat -> Z.of_nat n < 2 ^ 32 ->
  Forall (fun v => 0 <= v < Z.of_nat n) table -> filled = targets ->
  (_ ← debug_assert (m =? m);
   _ ← debug_assert (forallb (fun slot => negb (slot =? USIZE_MAX)) table);
   _ ← debug_assert (bool_decide (filled = targets));
   prime ← is_prime m;
   _ ← debug_assert prime;
   _ ← debug_assert (if table is [] then (n =? 0)%nat
                     else (Z.of_nat (length table) =? m) && (1 <=? n)%nat
                          && forallb (fun slot => slot <? Z.of_nat n) table);
   k) = k.
Proof.
  intros Hp Hm Hl Hn Hsmall Hf ->. rewrite Forall_forall in Hf.
  run_assert by (by apply Z.eqb_eq).
  run_assert by (apply forallb_forall; intros v Hv%list_elem_of_In; apply negb_true_iff, Z.eqb_neq; specialize (Hf v Hv); unfold USIZE_MAX; lia).
  run_assert by (by apply bool_decide_true). rewrite Hp. cbn [mbind outcome_bind debug_assert].
  replace (if table is [] then (n =? 0)%nat else _) with
    ((Z.of_nat (length table) =? m) && (1 <=? n)%nat && forallb (fun slot => slot <? Z.of_nat n) table)
    by (destruct table; [cbn in Hl; lia | done]).
  rewrite debug_assert_true; [done |]. rewrite !andb_true_iff. split; [split |].
  - apply Z.eqb_eq. lia.
  - by apply Nat.leb_le.
  - apply forallb_forall. intros x Hx%list_elem_of_In. apply Z.ltb_lt. specialize (Hf x Hx). lia.
Qed.

Lemma rebuild_spec g bs :
  size_ok g -> bs <> [] -> backends_ok bs ->
  exists table addrs, rebuild_from g bs = Val (mkMaglev (mg_seed g) (mg_size g) table addrs (mg_round_robin g)) /\
    table_ok (mkMaglev (mg_seed g) (mg_size g) table addrs (mg_round_robin g)) bs.
Proof.
  intros [Hpr Hm] Hne Hbs. pose proof (is_prime_true _ Hpr) as Hp. pose proof (m_pos _ Hp) as Hm2. unfold rebuild_from.
  replace ((length bs =? 0)%nat || (mg_size g =? 0)) with false.
  2: { symmetry. apply orb_false_iff. split; [apply Nat.eqb_neq; by destruct bs | apply Z.eqb_neq; lia]. }
  destruct (collect_shares_spec (mg_size g) Hp (mg_seed g) bs [] [] [] (collected_nil _)) as (addrs & shs & -> & Hc).
  cbn [app] in Hc. destruct (collected_bounds _ _ _ _ Hc Hne Hbs) as ([Hn1 Hn2] & Hw & Hsum).
  cbn [mbind outcome_bind]. rewrite (debug_assert_true ((1 <=? length addrs)%nat && (length addrs <=? length bs)%nat)).
  2: { apply andb_true_iff. by rewrite !Nat.leb_le. }
  cbn [mbind outcome_bind]. pose proof (ct_length _ _ _ _ Hc) as Hlen. destruct Hbs as [Hsmall _].
  destruct (slot_targets_spec (mg_size g) Hp Hm shs _ ltac:(intros ->; cbn in Hlen; lia) Hw eq_refl Hsum)
    as (targets & -> & Htl & Hts & Htpos & Htb). cbn [mbind outcome_bind].
  destruct (claims_start (mg_size g) shs targets (Z.to_nat (mg_size g)) Hp Htl Hts Htpos) as (Hok & Htg & Hcl); [| lia | done |].
  { intros s (i & Hi)%list_elem_of_lookup_1. destruct (lookup_lt_is_Some_2 addrs i) as [a Ha]; [apply lookup_lt_Some in Hi; congruence |].
    by apply (ct_share _ _ _ _ Hc i a). }
  destruct (populate_spec (mg_size g) Hp Hm (S (Z.to_nat (mg_size g))) _ _ _ Hok) as (cls & table & -> & Hok' & Htg'); [lia | lia | lia |].
  cbn [mbind outcome_bind]. rewrite Htg in Htg'. destruct (full_table _ _ _ Hok') as (Hfull & Hentry & Hshare).
  assert (Hcls : length cls = length addrs) by (by rewrite <- (length_fmap cl_target), Htg', Htl, Hlen).
  rewrite Hcls in Hentry. exists table, addrs. split.
  - rewrite (rebuild_asserts (mg_size g) table (length addrs) (cl_filled <$> cls) targets);
      [done | done | done | apply Hok' | done | lia | done | congruence].
  - split; cbn [mg_table mg_addrs mg_size].
    + apply Hok'.
    + apply Hc.
    + apply Hc.
    + done.
    + intros i a Ha. destruct (lookup_lt_is_Some_2 shs i) as [s Hs]; [apply lookup_lt_Some in Ha; congruence |].
      destruct (ct_share _ _ _ _ Hc i a s Ha Hs) as [_ Hws]. destruct (Htb i s Hs) as (t & Ht & Hb).
      rewrite Hws, (collected_total _ _ _ _ Hc) in Hb. rewrite <- Htg' in Ht.
      apply list_lookup_fmap_Some in Ht as (c & -> & Hci). rewrite (Hshare i c Hci). exact Hb.
Qed.

(** C14. The lookup table is exact: from any non-empty set of backends, however many
    share an address, the table is built without a failed assertion, by loops
    that end; every slot names an address of the set and every address has the
    slots of its weight, the remainder of the division being spread one slot
    each. *)
Theorem maglev_table_exact g bs :
  size_ok g -> bs <> [] -> backends_ok bs ->
  exists g', maglev_rebuild g bs = Val g' /\ mg_size g' = mg_size g /\ table_ok g' bs.
Proof.
  intros Hg Hne Hbs. destruct (rebuild_spec g bs Hg Hne Hbs) as (table & addrs & Hrun & Hok).
  unfold maglev_rebuild. rewrite Hrun. eexists. split; [done |]. split; [done |]. by destruct Hok.
Qed.

(** The policy the worker installs has a prime size. *)
Lemma maglev_new_ok : exists g, maglev_new = Val g /\ size_ok g /\ mg_size g = DEFAULT_TABLE_SIZE.
Proof. eexists. split; [by vm_compute |]. split; [split; by vm_compute | done]. Qed.

(** ** Lookups *)

Definition owner (g : Maglev) (slot : Z) : option SocketAddr :=
  v ← mg_table g !! Z.to_nat slot; mg_addrs g !! Z.to_nat v.

(** The addresses in the order in which the slots are probed. *)
Fixpoint owners (todo : nat) (g : Maglev) (start i : Z) : list SocketAddr :=
  match todo with
  | O => []
  | S todo => option_list (owner g ((start + i) mod mg_size g)) ++ owners todo g start (i + 1)
  end.

(** The first of them that is a candidate. *)
Fixpoint first_hit (bs : list (nat * Backend)) (l : list SocketAddr) : option nat :=
  match l with
  | [] => None
  | a :: l => match find_address bs a with Some p => Some p | None => first_hit bs l end
  end.

Section Lookup.
Context (g : Maglev) (full : list Backend).
Hypothesis Hg : table_ok g full.
Hypothesis Hsize : 2 <= mg_size g.

Lemma owner_total slot : 0 <= slot < mg_size g -> exists v a,
  mg_table g !! Z.to_nat slot = Some v /\ 0 <= v < Z.of_nat (length (mg_addrs g)) /\ mg_addrs g !! Z.to_nat v = Some a.
Proof.
  intros Hs. destruct (lookup_lt_is_Some_2 (mg_table g) (Z.to_nat slot)) as [v Hv]; [rewrite (tb_length _ _ Hg); lia |].
  pose proof (tb_entry _ _ Hg) as He. rewrite Forall_forall in He. specialize (He v ltac:(by eapply list_elem_of_lookup_2)).
  destruct (lookup_lt_is_Some_2 (mg_addrs g) (Z.to_nat v)) as [a Ha]; [lia |]. by exists v, a.
Qed.

Lemma probe_spec bs start todo : forall i, probe todo g bs start i = Val (first_hit bs (owners todo g start i)).
Proof.
  induction todo as [| todo IH]; intros i; cbn [probe owners]; [done |].
  pose proof (Z.mod_pos_bound (start + i) (mg_size g) ltac:(lia)) as Hs.
  destruct (owner_total _ Hs) as (v & a & Hv & Hvr & Ha).
  rewrite (debug_assert_true ((start + i) mod mg_size g <? mg_size g)) by (apply Z.ltb_lt; lia). cbn [mbind outcome_bind].
  rewrite (index_Some _ _ _ Hv). cbn [mbind outcome_bind].
  rewrite (debug_assert_true (v <? _)) by (apply Z.ltb_lt; lia). cbn [mbind outcome_bind]. unfold owner. rewrite Hv. cbn.
  rewrite Ha. cbn. destruct (find_address bs a); [done | apply IH].
Qed.

(** Every slot is probed. *)
Lemma owners_elem start todo : forall i j a, i <= j < i + Z.of_nat todo ->
  owner g ((start + j) mod mg_size g) = Some a -> a ∈ owners todo g start i.
Proof.
  induction todo as [| todo IH]; intros i j a Hj Ha; [lia |]. cbn [owners]. apply elem_of_app.
  destruct (Z.eq_dec j i) as [-> | Hne]; [left; rewrite Ha; by apply list_elem_of_singleton | right].
  apply (IH (i + 1) j); [lia | done].
Qed.

Lemma owners_slot start slot a :
  0 <= slot < mg_size g -> owner g slot = Some a -> a ∈ owners (Z.to_nat (mg_size g)) g start 0.
Proof.
  intros Hs Ha. pose proof (Z.mod_pos_bound (slot - start) (mg_size g) ltac:(lia)).
  apply (owners_elem start _ 0 ((slot - start) mod mg_size g)); [lia |].
  rewrite Z.add_mod_idemp_r by lia. replace (start + (slot - start)) with slot by lia. by rewrite Z.mod_small.
Qed.

End Lookup.

Lemma find_address_Some bs a p : find_address bs a = Some p -> exists b, (p, b) ∈ bs /\ address b = a.
Proof.
  induction bs as [| [q b] bs IH]; cbn; [done |]. case_bool_decide as Ha.
  - intros [= <-]. exists b. split; [left | done].
  - intros H. destruct (IH H) as (b' & Hin & Hb'). exists b'. split; [by right | done].
Qed.

Lemma find_address_None bs a : find_address bs a = None <-> forall p b, (p, b) ∈ bs -> address b <> a.
Proof.
  induction bs as [| [q b] bs IH]; cbn; [split; [by intros _ p b ?%not_elem_of_nil | done] |]. case_bool_decide as Ha.
  - split; [done |]. intros H. by destruct (H q b ltac:(left)).
  - rewrite IH. split; intros H p b'; [intros [[= -> ->] | Hin]%elem_of_cons; [done | by eapply H] | intros Hin; eapply H; by right].
Qed.

(** A hit is the same in fewer candidates that still have its address. *)
Lemma first_hit_sub bs bs' l p b :
  first_hit bs l = Some p -> (p, b) ∈ bs -> (forall q b1 b2, (q, b1) ∈ bs -> (q, b2) ∈ bs -> b1 = b2) -> (forall x, x ∈ bs' -> x ∈ bs) ->
  (exists q b', (q, b') ∈ bs' /\ address b' = address b) ->
  exists p' b', first_hit bs' l = Some p' /\ (p', b') ∈ bs' /\ address b' = address b.
Proof.
  intros Hhit Hp Hfun Hsub (q & b0 & Hq & Ha). induction l as [| a l IH]; cbn [first_hit] in *; [done |].
  destruct (find_address bs a) as [p0 |] eqn:E.
  - injection Hhit as ->. apply find_address_Some in E as (b1 & Hb1 & <-).
    rewrite (Hfun _ _ _ Hb1 Hp).
    destruct (find_address bs' (address b)) as [p' |] eqn:E'.
    + apply find_address_Some in E' as (b' & Hb' & Heq). by exists p', b'.
    + by destruct (proj1 (find_address_None _ _) E' q b0).
  - destruct (find_address bs' a) as [p' |] eqn:E'; [| by apply IH].
    apply find_address_Some in E' as (b' & Hb' & <-). by destruct (proj1 (find_address_None _ _) E p' b' (Hsub _ Hb')).
Qed.

Lemma first_hit_None bs l p b : first_hit bs l = None -> (p, b) ∈ bs -> address b ∉ l.
Proof.
  induction l as [| a l IH]; cbn [first_hit]; intros Hn Hp; [apply not_elem_of_nil |].
  destruct (find_address bs a) as [? |] eqn:E; [done |]. apply not_elem_of_cons. split; [| by apply IH].
  by apply (proj1 (find_address_None _ _) E p).
Qed.

Lemma first_hit_Some bs l p : first_hit bs l = Some p -> exists b, (p, b) ∈ bs.
Proof.
  induction l as [| a l IH]; cbn [first_hit]; [done |]. destruct (find_address bs a) as [q |] eqn:E; [| done].
  intros [= ->]. apply find_address_Some in E as (b & Hb & _). by exists b.
Qed.

(** A lookup that some candidate can answer from the table. *)
Lemma maglev_next_hit g full key c l p b slot :
  table_ok g full -> size_ok g -> 0 <= key -> iter c = Val l -> (p, b) ∈ l ->
  0 <= slot < mg_size g -> owner g slot = Some (address b) ->
  exists q, first_hit l (owners (Z.to_nat (mg_size g)) g (key mod mg_size g) 0) = Some q /\
    maglev_next g (Some key) c = Val (g, Some q).
Proof.
  intros Hg [Hp Hm] Hkey Hit Hin Hslot How. pose proof (m_pos _ (is_prime_true _ Hp)) as Hm2.
  assert (Hne : is_empty c = false).
  { unfold is_empty, len. apply Nat.eqb_neq. intros Hz. apply length_zero_iff_nil in Hz. unfold iter in Hit. rewrite Hz in Hit.
    injection Hit as <-. by apply not_elem_of_nil in Hin. }
  unfold maglev_next. rewrite Hne, Hit. cbn [mbind outcome_bind]. pose proof (tb_length _ _ Hg) as Hl.
  assert (Hz : (length (mg_table g) =? 0)%nat = false) by (apply Nat.eqb_neq; lia).
  rewrite Hz. cbn [mbind outcome_bind]. rewrite Hz. pose proof (Z.mod_pos_bound key (mg_size g) ltac:(lia)) as Hs.
  rewrite (debug_assert_true (key mod mg_size g <? mg_size g)) by (apply Z.ltb_lt; lia). cbn [mbind outcome_bind].
  rewrite (debug_assert_true (Z.of_nat (length (mg_table g)) =? mg_size g)) by (apply Z.eqb_eq; lia). cbn [mbind outcome_bind].
  rewrite (probe_spec g full Hg Hm2). cbn [mbind outcome_bind].
  destruct (first_hit _ _) as [q |] eqn:E; [by exists q |].
  exfalso. eapply first_hit_None; [exact E | exact Hin |]. eapply owners_slot; [exact Hm2 | exact Hslot | exact How].
Qed.

(** C16. A key keeps its backend: when the table pins a key to a candidate, any fewer
    candidates that still serve its address give the key to that address,
    whatever the others became. *)
Theorem maglev_pinned g full key c c' p b slot :
  table_ok g full -> size_ok g -> 0 <= key -> candidates_ok c -> candidates_ok c' ->
  cd_backends c' = cd_backends c -> cd_indices c' ⊆ cd_indices c ->
  maglev_next g (Some key) c = Val (g, Some p) -> cd_backends c !! p = Some b ->
  0 <= slot < mg_size g -> owner g slot = Some (address b) ->
  (exists q b0, q ∈ cd_indices c' /\ cd_backends c' !! q = Some b0 /\ address b0 = address b) ->
  exists p' b', maglev_next g (Some key) c' = Val (g, Some p') /\ p' ∈ cd_indices c' /\
    cd_backends c' !! p' = Some b' /\ address b' = address b.
Proof.
  intros Hg Hs Hkey Hc Hc' Hbs Hsub Hrun Hb Hslot How (q & b0 & Hq & Hb0 & Ha).
  destruct (iter_spec c Hc) as (l & Hl & _ & Hel), (iter_spec c' Hc') as (l' & Hl' & _ & Hel').
  assert (Hp : (q, b0) ∈ l) by (apply Hel; rewrite <- Hbs; split; [by apply Hsub | done]).
  rewrite <- Ha in How.
  destruct (maglev_next_hit g full key c l q b0 slot Hg Hs Hkey Hl Hp Hslot How) as (p0 & Hhit & Hrun0).
  rewrite Hrun in Hrun0. injection Hrun0 as <-.
  destruct (maglev_next_hit g full key c' l' q b0 slot Hg Hs Hkey Hl' ltac:(by apply Hel') Hslot How) as (p' & Hhit' & Hrun').
  destruct (first_hit_Some _ _ _ Hhit) as (b1 & Hb1). assert (b1 = b) as -> by (apply Hel in Hb1 as [_ ?]; congruence).
  destruct (first_hit_sub l l' _ p b Hhit Hb1) as (p'' & b' & Hhit'' & Hin' & Hab).
  - intros q0 b1 b2 [_ H1]%Hel [_ H2]%Hel. congruence.
  - intros [q0 b1] [Hi H1]%Hel'. apply Hel. rewrite <- Hbs. split; [by apply Hsub | done].
  - exists q, b0. split; [by apply Hel' | done].
  - rewrite Hhit' in Hhit''. injection Hhit'' as <-. apply Hel' in Hin' as [Hi Hb']. by exists p', b'.
Qed.

(** ** A small table *)

Definition small_maglev : Maglev := mkMaglev DEFAULT_HASH_SEED 13 [] [] round_robin_new.

Lemma maglev_table_exact_witness : exists g,
  maglev_rebuild small_maglev (cd_backends example_set) = Val g /\ mg_size g = 13 /\ table_ok g (cd_backends example_set).
Proof.
  apply (maglev_table_exact small_maglev (cd_backends example_set)).
  - split; by vm_compute.
  - done.
  - split; [by vm_compute | repeat constructor; by vm_compute].
Defined.

Definition small_table : Maglev :=
  match rebuild_from small_maglev (cd_backends example_set) with Val g => g | _ => small_maglev end.

Lemma small_table_ok : table_ok small_table (cd_backends example_set).
Proof.
  destruct (rebuild_spec small_maglev (cd_backends example_set)) as (table & addrs & Hrun & Hok).
  - split; by vm_compute.
  - done.
  - split; [by vm_compute | repeat constructor; by vm_compute].
  - unfold small_table. by rewrite Hrun.
Qed.

(** The candidates without the first backend. *)
Definition fewer_set : Candidates := mkCandidates (cd_backends example_set) [1; 2]%nat [] 0.

Lemma maglev_pinned_witness : exists p b,
  maglev_next small_table (Some 10) fewer_set = Val (small_table, Some p) /\ p ∈ cd_indices fewer_set /\
  cd_backends fewer_set !! p = Some b /\ address b = V4 (mkSocketAddrV4 [127; 0; 0; 2] 8080).
Proof.
  apply (maglev_pinned small_table (cd_backends example_set) 10 example_set fewer_set 1 (example_backend 2 (Some 1)) 10 small_table_ok).
  - split; by vm_compute.
  - done.
  - split; [repeat constructor; cbn; lia | done].
  - split; [repeat constructor; cbn; lia | done].
  - done.
  - intros x Hx. cbn in *. set_solver.
  - by vm_compute.
  - done.
  - by vm_compute.
  - by vm_compute.
  - exists 1%nat, (example_backend 2 (Some 1)). split; [cbn; set_solver | done].
Defined.
