(* ===== verification/PolicySpec.v ===== *)
(** * What the other policies promise

    Rendezvous hashing keeps a client where it was; random selection gives each
    candidate the draws of its weight; the load-aware policies take the least
    loaded of what they read. *)

From Stdlib Require Import SpecFloat.
From S2P Require Import Prelude Retry ProxyProtocol Backend AffinityHash LoadBalancing RoundRobinSpec.

(** ** The order of the scores *)

(** Positive finite numbers, ordered by exponent and mantissa. *)
Definition positive (x : f64) : Prop := is_finite x && f64_gt x f64_zero = true.

Definition magnitude (x : f64) : Z * Z := match x with S754_finite _ m e => (e, Z.pos m) | _ => (0, 0) end.

Definition lex_lt (a b : Z * Z) : Prop := a.1 < b.1 \/ (a.1 = b.1 /\ a.2 < b.2).
Definition lex_le (a b : Z * Z) : Prop := ~ lex_lt b a.

Lemma positive_finite x : positive x -> exists m e, x = S754_finite false m e.
Proof. unfold positive, f64_gt, f64_zero. by destruct x as [[] | [] | | [] m e]; cbn; try done; exists m, e. Qed.

Lemma f64_ge_spec x y : positive x -> positive y -> f64_ge x y = true <-> lex_le (magnitude y) (magnitude x).
Proof.
  intros (m1 & e1 & ->)%positive_finite (m2 & e2 & ->)%positive_finite. unfold f64_ge, SFleb, lex_le, lex_lt. cbn.
  destruct (Z.compare_spec e2 e1) as [-> | Hlt | Hgt]; [| split; [intros _; lia | done] | split; [done | lia]].
  change (Pos.compare_cont Eq m2 m1) with (Pos.compare m2 m1).
  destruct (Pos.compare_spec m2 m1) as [-> | Hlt | Hgt]; [split; [intros _; lia | done] | split; [intros _; lia | done] | split; [done | lia]].
Qed.

Lemma lex_lt_trans a b c : lex_lt a b -> lex_le b c -> lex_lt a c.
Proof. unfold lex_le, lex_lt. lia. Qed.

Lemma lex_le_trans a b c : lex_le a b -> lex_le b c -> lex_le a c.
Proof. unfold lex_le, lex_lt. lia. Qed.

Global Instance lex_lt_dec a b : Decision (lex_lt a b).
Proof. unfold lex_lt. apply _. Defined.

(** ** Rendezvous *)

Section Rendezvous.
Context (f64_ln : f64 -> f64) (seed key : Z).

Abbreviation score := (hrw_score_with_seed f64_ln seed key).

(** A score that passes its assertions is a positive number. *)
Lemma score_positive b s : score b = Val s -> positive s.
Proof.
  unfold hrw_score_with_seed. intros Hs. apply bind_Val in Hs as ([] & _ & Hs).
  apply bind_Val in Hs as ([] & Hd & [= <-]). unfold debug_assert in Hd. unfold positive.
  by destruct (is_finite _ && f64_gt _ _).
Qed.

(** The score of a backend, as a magnitude. *)
Definition rank (b : Backend) : Z * Z := match score b with Val s => magnitude s | _ => (0, 0) end.

(** The first of the best backends of a list. *)
Definition wins (l : list Backend) (b : Backend) : Prop := exists l1 l2, l = l1 ++ b :: l2 /\
  Forall (fun x => lex_lt (rank x) (rank b)) l1 /\ Forall (fun x => lex_le (rank x) (rank b)) l2.

Lemma wins_unique l b1 b2 : wins l b1 -> wins l b2 -> b1 = b2.
Proof.
  intros (l1 & l2 & -> & H1 & H2) (l3 & l4 & Heq & H3 & H4). revert l3 Heq H3.
  induction H1 as [| x l1 Hx _ IH]; intros [| y l3]; cbn; intros [= -> Heq] H3; [done | | |].
  - apply Forall_cons in H3 as [Hy _]. rewrite Forall_forall in H2. destruct (H2 b2); [| done].
    rewrite Heq. apply elem_of_app. right. left.
  - rewrite Forall_forall in H4. destruct (H4 b1); [| done]. rewrite <- Heq. apply elem_of_app. right. left.
  - apply Forall_cons in H3 as [_ H3]. by eapply IH.
Qed.

(** A winner stays the winner when others leave. *)
Lemma wins_sub l l' b : NoDup l -> wins l b -> sublist l' l -> b ∈ l' -> wins l' b.
Proof.
  intros Hnd (l1 & l2 & -> & H1 & H2) (l1' & l2' & -> & Hs1 & Hs2)%sublist_app_r Hb.
  pose proof (sublist_subseteq _ _ Hs1) as Hi1. rewrite Forall_forall in H1. rewrite Forall_forall in H2.
  apply NoDup_app in Hnd as (_ & Hd & Hnd). apply NoDup_cons in Hnd as [Hn _].
  apply sublist_cons_r in Hs2 as [Hs2 | (l2'' & -> & Hs2)].
  - apply elem_of_app in Hb as [Hb | Hb]; [destruct (Hd b); [by apply Hi1 | left] |].
    destruct Hn. by eapply sublist_subseteq.
  - pose proof (sublist_subseteq _ _ Hs2) as Hi2. exists l1', l2''.
    split; [done |]. split; apply Forall_forall; intros x Hx; [by apply H1, Hi1 | by apply H2, Hi2].
Qed.

(** Every candidate has a score. *)
Definition scored (l : list (nat * Backend)) : Prop := Forall (fun x => exists s, score x.2 = Val s) l.

Lemma scored_sub l l' : scored l -> sublist l'.*2 l.*2 -> scored l'.
Proof.
  intros Hs Hsub. unfold scored in *. rewrite Forall_forall in Hs. apply Forall_forall. intros [p b] Hin.
  assert (Hb : b ∈ l.*2) by (eapply sublist_subseteq; [exact Hsub | apply list_elem_of_fmap; by exists (p, b)]).
  apply list_elem_of_fmap in Hb as (x & -> & Hx). exact (Hs x Hx).
Qed.

(** The best score so far is that of the winner so far. *)
Definition leads (l : list (nat * Backend)) (best : option (f64 * nat)) : Prop :=
  match best with
  | Some (s, q) => exists b, (q, b) ∈ l /\ wins l.*2 b /\ score b = Val s
  | None => l = []
  end.

Lemma rank_score b s : score b = Val s -> rank b = magnitude s.
Proof. unfold rank. by intros ->. Qed.

Lemma lex_le_refl a : lex_le a a.
Proof. unfold lex_le, lex_lt. lia. Qed.

Lemma leads_step seen best p b s : score b = Val s -> leads seen best ->
  leads (seen ++ [(p, b)])
    match best with Some (s0, q) => if f64_ge s0 s then Some (s0, q) else Some (s, p) | None => Some (s, p) end.
Proof.
  intros Hs Hl. destruct best as [[s0 q] |]; cbn [leads] in Hl.
  - destruct Hl as (b0 & Hin & (l1 & l2 & Hseen & H1 & H2) & Hs0).
    pose proof (f64_ge_spec s0 s (score_positive _ _ Hs0) (score_positive _ _ Hs)) as Hge.
    rewrite <- (rank_score _ _ Hs0), <- (rank_score _ _ Hs) in Hge. destruct (f64_ge s0 s).
    + exists b0. rewrite fmap_app, Hseen. split; [apply elem_of_app; by left |]. split; [| done].
      exists l1, (l2 ++ [b]). rewrite <- app_assoc. split; [done |]. split; [done |].
      apply Forall_app. split; [done |]. constructor; [by apply Hge | done].
    + exists b. rewrite fmap_app, Hseen. split; [apply elem_of_app; right; left |]. split; [| done].
      assert (Hlt : lex_lt (rank b0) (rank b)).
      { destruct (decide (lex_lt (rank b0) (rank b))) as [? | Hn]; [done | by apply Hge in Hn]. }
      exists (l1 ++ b0 :: l2), []. split; [done |]. split; [| done].
      apply Forall_app. split; [| constructor; [done |]]; (eapply Forall_impl; [eassumption |]); cbn; intros x.
      * intros Hx. eapply lex_lt_trans; [exact Hx |]. unfold lex_le, lex_lt in *. lia.
      * unfold lex_le, lex_lt in *. lia.
  - subst seen. exists b. split; [left |]. split; [| done]. by exists [], [].
Qed.

Lemma best_score_spec l : forall seen best, scored l -> leads seen best ->
  exists best', best_score f64_ln seed key l best = Val best' /\ leads (seen ++ l) best'.
Proof.
  induction l as [| [p b] l IH]; intros seen best Hs Hbest; cbn [best_score].
  { exists best. by rewrite app_nil_r. }
  apply Forall_cons in Hs as [[s Hs] Hsc]. cbn in Hs. rewrite Hs. cbn [mbind outcome_bind].
  destruct (IH _ _ Hsc (leads_step seen best p b s Hs Hbest)) as (best' & -> & Hb').
  exists best'. by rewrite <- app_assoc in Hb'.
Qed.

Lemma best_score_scored l : forall best best', best_score f64_ln seed key l best = Val best' -> scored l.
Proof.
  induction l as [| [p b] l IH]; intros best best' H; [constructor |]. cbn [best_score] in H.
  apply bind_Val in H as (s & Hs & H). constructor; [by exists s | by eapply IH].
Qed.

Lemma rendezvous_next_scored rr c l p :
  iter c = Val l -> rendezvous_next f64_ln (mkRendezvous seed rr) (Some key) c = Val (mkRendezvous seed rr, Some p) -> scored l.
Proof.
  intros Hl. unfold rendezvous_next. destruct (is_empty c); [done |]. rewrite Hl. cbn [mbind outcome_bind hrw_seed].
  intros (best & Hb & _)%bind_Val. by eapply best_score_scored.
Qed.

Lemma check_winner_Val l s : scored l -> positive s -> Forall (fun x => lex_le (rank x.2) (magnitude s)) l ->
  check_winner f64_ln seed key l s = Val tt.
Proof.
  intros Hs Hpos. induction Hs as [| [p b] l [s' Hs'] _ IH]; [done |]. intros [Hx Hl]%Forall_cons. cbn [check_winner].
  cbn in Hs', Hx. rewrite Hs'. cbn [mbind outcome_bind]. rewrite debug_assert_true; [by apply IH |].
  apply f64_ge_spec; [done | by eapply score_positive |]. by rewrite <- (rank_score _ _ Hs').
Qed.

(** A selection over scored candidates takes the winner. *)
Lemma rendezvous_next_spec rr c l :
  iter c = Val l -> scored l -> l <> [] ->
  exists q b, rendezvous_next f64_ln (mkRendezvous seed rr) (Some key) c = Val (mkRendezvous seed rr, Some q) /\
    (q, b) ∈ l /\ wins l.*2 b.
Proof.
  intros Hit Hs Hne. unfold rendezvous_next. cbn [hrw_seed].
  assert (is_empty c = false) as ->.
  { unfold is_empty, len. apply Nat.eqb_neq. intros Hz%length_zero_iff_nil. unfold iter in Hit. rewrite Hz in Hit.
    by injection Hit as <-. }
  rewrite Hit. cbn [mbind outcome_bind]. destruct (best_score_spec l [] None Hs eq_refl) as (best & -> & Hb).
  cbn [mbind outcome_bind app] in *. destruct best as [[s q] |]; [| done].
  destruct Hb as (b & Hin & Hw & Hsc). exists q, b. rewrite check_winner_Val; [done | done | by eapply score_positive |].
  rewrite <- (rank_score _ _ Hsc). destruct Hw as (l1 & l2 & Hl & H1 & H2).
  assert (Hall : Forall (fun x => lex_le (rank x) (rank b)) l.*2); [| exact (proj1 (Forall_fmap snd _ l) Hall)].
  rewrite Hl. apply Forall_app. split.
  - eapply Forall_impl; [exact H1 |]. cbn. intros x. unfold lex_le, lex_lt. lia.
  - constructor; [apply lex_le_refl | done].
Qed.

End Rendezvous.

(** C17. Rendezvous hashing disrupts nothing but what it must: when candidates leave,
    removed from the list or turned unavailable, a key whose backend stays is
    still given to that backend. *)
Theorem rendezvous_pinned f64_ln r key c c' l l' p b :
  candidates_ok c -> candidates_ok c' -> iter c = Val l -> iter c' = Val l' -> NoDup l.*2 -> sublist l'.*2 l.*2 ->
  rendezvous_next f64_ln r (Some key) c = Val (r, Some p) -> cd_backends c !! p = Some b -> b ∈ l'.*2 ->
  exists p', rendezvous_next f64_ln r (Some key) c' = Val (r, Some p') /\ p' ∈ cd_indices c' /\ cd_backends c' !! p' = Some b.
Proof.
  intros Hc Hc' Hl Hl' Hnd Hsub Hrun Hb Hin. destruct r as [seed rr].
  destruct (iter_spec c Hc) as (l0 & Hl0 & _ & Hel), (iter_spec c' Hc') as (l0' & Hl0' & _ & Hel').
  rewrite Hl in Hl0. rewrite Hl' in Hl0'. injection Hl0 as <-. injection Hl0' as <-.
  assert (Hs : scored f64_ln seed key l) by by eapply rendezvous_next_scored.
  assert (Hs' : scored f64_ln seed key l').
  { by eapply scored_sub. }
  destruct (rendezvous_next_spec f64_ln seed key rr c l Hl Hs) as (q & b0 & Hrun0 & Hq & Hw).
  { intros ->. apply sublist_nil_r in Hsub. rewrite Hsub in Hin. by apply not_elem_of_nil in Hin. }
  rewrite Hrun in Hrun0. injection Hrun0 as <-. assert (b0 = b) as -> by (apply Hel in Hq as [_ ?]; congruence).
  destruct (rendezvous_next_spec f64_ln seed key rr c' l' Hl' Hs') as (p' & b' & Hrun' & Hq' & Hw').
  { intros ->. by apply not_elem_of_nil in Hin. }
  exists p'. apply Hel' in Hq' as [Hi Hb']. rewrite Hrun'. split; [done |]. split; [done |].
  by rewrite <- (wins_unique _ _ _ _ _ _ Hw' (wins_sub _ _ _ _ _ _ Hnd Hw Hsub Hin)).
Qed.

(** A logarithm for the examples, negative below one: its first-order term. *)
Definition example_ln (x : f64) : f64 := f64_sub x (f64_of_Z 1).

(** The second and third of the example's backends, the first one removed. *)
Definition removed_set : Candidates := mkCandidates (drop 1 (cd_backends example_set)) [0; 1]%nat [] 0.

(** ** Random *)

Section Draws.
Context `{RL : RandLaws}.

(** Each candidate as many times as it weighs. *)
Fixpoint draws (l : list (nat * Backend)) : list nat :=
  match l with
  | [] => []
  | (p, b) :: l => replicate (Z.to_nat (random_weight b)) p ++ draws l
  end.

Lemma random_total_Some l : forall acc total, random_total l acc = Some total -> i32_ok acc ->
  Forall (fun x => 0 <= random_weight x.2) l /\ total = acc + sum_over (random_weight ∘ snd) l /\ i32_ok total.
Proof.
  induction l as [| [p b] l IH]; intros acc total; cbn [random_total sum_over].
  { intros [= ->] ?. split; [constructor |]. split; [lia | done]. }
  destruct (Z.ltb_spec (random_weight b) 0) as [Hn | Hn]; [done |].
  unfold i32_checked_add. destruct (_ && _) eqn:Hok; [| done]. cbn [mbind option_bind]. intros Ht _.
  assert (i32_ok (acc + random_weight b)) as Hr by (unfold i32_ok; apply andb_true_iff in Hok as [?%Z.leb_le ?%Z.leb_le]; lia).
  destruct (IH _ _ Ht Hr) as (Hf & -> & Hi). split; [by constructor |]. split; [cbn; lia | done].
Qed.

Lemma draws_length l : Forall (fun x => 0 <= random_weight x.2) l ->
  Z.of_nat (length (draws l)) = sum_over (random_weight ∘ snd) l.
Proof.
  induction 1 as [| [p b] l Hw _ IH]; [done |]. cbn [draws sum_over]. rewrite length_app, length_replicate. cbn in *. lia.
Qed.

Lemma draws_shares l p b : Forall (fun x => 0 <= random_weight x.2) l -> NoDup l.*1 -> (p, b) ∈ l ->
  shares p (draws l) = random_weight b.
Proof.
  induction 1 as [| [q b'] l Hw Hf IH]; [by intros _ ?%not_elem_of_nil |]. cbn [draws fmap list_fmap fst].
  intros [Hq Hnd]%NoDup_cons Hin. rewrite shares_app, shares_replicate. apply elem_of_cons in Hin as [[= -> ->] | Hin].
  - destruct (decide (q = q)) as [_ | ?]; [| done]. cbn in Hw. pose proof (shares_nonneg q (draws l)).
    destruct (decide (0 < shares q (draws l))) as [Hd%shares_pos | ?]; [| lia].
    destruct Hq. clear -Hd. induction l as [| [x bx] l IH]; [by apply not_elem_of_nil in Hd |].
    cbn [draws] in Hd. apply elem_of_app in Hd as [[-> _]%elem_of_replicate | Hd]; [left | right; by apply IH].
  - destruct (decide (q = p)) as [-> | _]; [| by rewrite IH].
    destruct Hq. apply list_elem_of_fmap. by exists (p, b).
Qed.

(** The scan finds the block of the draw. *)
Lemma prefix_scan_spec l : forall i prefix d, Forall (fun x => 0 <= random_weight x.2) l ->
  i32_ok prefix -> i32_ok (prefix + sum_over (random_weight ∘ snd) l) ->
  prefix <= d < prefix + sum_over (random_weight ∘ snd) l ->
  exists k, prefix_scan l i prefix d = Val (i + k)%nat /\ l.*1 !! k = draws l !! Z.to_nat (d - prefix) /\ (k < length l)%nat.
Proof.
  induction l as [| [p b] l IH]; intros i prefix d Hf Hp Hs Hd; cbn [sum_over] in *; [lia |].
  apply Forall_cons in Hf as [Hw Hf]. cbn [snd compose] in *. change ((random_weight ∘ snd) (p, b)) with (random_weight b) in *.
  assert (Hrest : 0 <= sum_over (random_weight ∘ snd) l) by (rewrite <- draws_length by done; lia).
  assert (Hhere : d < prefix + random_weight b -> (p :: l.*1) !! 0%nat = draws ((p, b) :: l) !! Z.to_nat (d - prefix)).
  { intros Hlt. cbn [draws]. rewrite lookup_app_l by (rewrite length_replicate; lia). by rewrite lookup_replicate_2 by lia. }
  destruct l as [| x l].
  { exists 0%nat. rewrite Nat.add_0_r. split; [done |]. split; [apply Hhere; cbn in Hd; lia | cbn; lia]. }
  set (l' := x :: l) in *. change (prefix_scan ((p, b) :: l') i prefix d) with
    (_ ← debug_assert (bool_decide (i32_ok (prefix + random_weight b)));
     if d <? prefix + random_weight b then Val i else prefix_scan l' (S i) (prefix + random_weight b) d).
  assert (Hok : i32_ok (prefix + random_weight b)) by (unfold i32_ok in *; lia).
  rewrite debug_assert_true by by apply bool_decide_eq_true. cbn [mbind outcome_bind].
  destruct (Z.ltb_spec d (prefix + random_weight b)) as [Hlt | Hge].
  { exists 0%nat. rewrite Nat.add_0_r. split; [done |]. split; [by apply Hhere | cbn; lia]. }
  destruct (IH (S i) (prefix + random_weight b) d Hf Hok) as (k & -> & Hk & Hlen); [by rewrite <- Z.add_assoc | lia |].
  exists (S k). split; [f_equal; lia |]. split; [| cbn [length]; lia]. cbn [fmap list_fmap fst lookup list_lookup draws].
  rewrite lookup_app_r by (rewrite length_replicate; lia). rewrite length_replicate.
  replace (Z.to_nat (d - prefix) - Z.to_nat (random_weight b))%nat with (Z.to_nat (d - (prefix + random_weight b))) by lia.
  exact Hk.
Qed.

(** A draw over candidates whose weights the generator accepts. *)
Lemma random_next_draw rng c l total :
  candidates_ok c -> iter c = Val l -> random_total l 0 = Some total -> 0 < total ->
  random_next rng c = Val ((sample_i32 rng total).2, draws l !! Z.to_nat (sample_i32 rng total).1) /\
  (Z.to_nat (sample_i32 rng total).1 < length (draws l))%nat.
Proof.
  intros Hc Hl Ht Hpos. destruct (iter_spec c Hc) as (l0 & Hl0 & Hps & _). rewrite Hl in Hl0. injection Hl0 as <-.
  destruct (random_total_Some l 0 total Ht ltac:(unfold i32_ok, I32_MIN, I32_MAX; lia)) as (Hf & Htot & Hi).
  pose proof (law_sample_i32 rng total Hpos) as Hd. destruct (sample_i32 rng total) as [d rng'] eqn:Es. cbn [fst snd] in *.
  rewrite Z.add_0_l in Htot. pose proof (draws_length l Hf) as Hdl.
  assert (Hne : is_empty c = false).
  { unfold is_empty, len. apply Nat.eqb_neq. rewrite <- Hps, length_fmap. intros Hz%length_zero_iff_nil. subst l. cbn in Htot. lia. }
  unfold random_next, weighted_index. rewrite Hne, Hl. cbn [mbind outcome_bind]. rewrite Ht.
  destruct (Z.eqb_spec total 0) as [? | _]; [lia |]. rewrite Es.
  rewrite (debug_assert_true ((0 <=? d) && (d <? total))) by lia. cbn [mbind outcome_bind].
  destruct (prefix_scan_spec l 0 0 d Hf ltac:(unfold i32_ok, I32_MIN, I32_MAX; lia)) as (k & -> & Hk & Hlen);
    [rewrite Z.add_0_l; by rewrite <- Htot | lia |]. cbn [Nat.add mbind outcome_bind]. rewrite Z.sub_0_r in Hk.
  assert (Hkc : (k < len c)%nat) by (unfold len; rewrite <- Hps, length_fmap; lia).
  rewrite (debug_assert_true (k <? len c)%nat) by by apply Nat.ltb_lt. cbn [mbind outcome_bind].
  unfold get. rewrite <- Hps. split; [| lia].
  destruct (l.*1 !! k) as [p |] eqn:Ep; [| apply lookup_ge_None in Ep; rewrite length_fmap in Ep; lia].
  assert (Hp : (p < length (cd_backends c))%nat).
  { pose proof (co_range _ Hc) as Hr. rewrite Forall_forall in Hr. apply Hr. rewrite <- Hps. by eapply list_elem_of_lookup_2. }
  destruct (lookup_lt_is_Some_2 _ _ Hp) as [b Hb]. unfold backend_at. rewrite (index_Some _ _ _ Hb). cbn [mbind outcome_bind].
  by rewrite <- Hk.
Qed.

End Draws.

(** C20. Random selection gives each candidate the draws of its weight: of the [total]
    equally likely draws, exactly as many lead to a candidate as it weighs, and
    every selection takes the candidate of its draw. *)
Theorem random_exact `{RL : RandLaws} c l total :
  candidates_ok c -> iter c = Val l -> random_total l 0 = Some total -> 0 < total ->
  exists ds, Z.of_nat (length ds) = total /\ (forall p b, (p, b) ∈ l -> shares p ds = random_weight b) /\
    forall rng, exists p, ds !! Z.to_nat (sample_i32 rng total).1 = Some p /\
      random_next rng c = Val ((sample_i32 rng total).2, Some p).
Proof.
  intros Hc Hl Ht Hpos. destruct (iter_spec c Hc) as (l0 & Hl0 & Hps & _). rewrite Hl in Hl0. injection Hl0 as <-.
  destruct (random_total_Some l 0 total Ht ltac:(unfold i32_ok, I32_MIN, I32_MAX; lia)) as (Hf & Htot & _).
  exists (draws l). split; [rewrite draws_length by done; lia |]. split.
  - intros p b Hin. apply draws_shares; [done | rewrite Hps; apply increasing_NoDup, Hc | done].
  - intros rng. destruct (random_next_draw rng c l total Hc Hl Ht Hpos) as (-> & Hlt).
    destruct (lookup_lt_is_Some_2 _ _ Hlt) as [p Hp]. exists p. by rewrite Hp.
Qed.

(** A generator that counts. *)
Definition counting_rand : RandCrate := {|
  std_rng := Z;
  seed_from_u64 s := s;
  next_u64 r := (r mod 2 ^ 64, r + 1);
  sample_i32 r total := (r mod total, r + 1);
  random_range r n := (Z.to_nat (r mod Z.of_nat n), r + 1);
  choose_index r n := (Z.to_nat (r mod Z.of_nat n), r + 1);
  random_bool r := (Z.even r, r + 1);
|}.

Lemma counting_rand_laws : @RandLaws counting_rand.
Proof.
  split; cbn; intros.
  - by apply Z.mod_pos_bound.
  - pose proof (Z.mod_pos_bound r (Z.of_nat len) ltac:(lia)). lia.
  - pose proof (Z.mod_pos_bound r (Z.of_nat len) ltac:(lia)). lia.
  - pose proof (Z.mod_pos_bound r (2 ^ 64) ltac:(lia)). unfold u64_ok, U64_MAX. lia.
Qed.

Lemma random_exact_witness : exists ds, Z.of_nat (length ds) = 7 /\ shares 0%nat ds = 5 /\
  exists p, ds !! 6%nat = Some p /\ @random_next counting_rand 20 example_set = Val (21, Some p).
Proof.
  destruct (@random_exact counting_rand counting_rand_laws example_set
    [(0%nat, example_backend 1 (Some 5)); (1%nat, example_backend 2 (Some 1)); (2%nat, example_backend 3 (Some 1))] 7)
    as (ds & Hlen & Hs & Hrun); [split; [by repeat constructor; cbn; lia | done] | done | done | done |].
  exists ds. split; [done |]. split; [by apply (Hs _ (example_backend 1 (Some 5))); left | exact (Hrun 20)].
Defined.

Lemma rendezvous_pinned_witness : exists p,
  rendezvous_next example_ln rendezvous_new (Some 4) removed_set = Val (rendezvous_new, Some p) /\
  p ∈ cd_indices removed_set /\ cd_backends removed_set !! p = Some (example_backend 2 (Some 1)).
Proof.
  apply (rendezvous_pinned example_ln rendezvous_new 4 example_set removed_set
    [(0%nat, example_backend 1 (Some 5)); (1%nat, example_backend 2 (Some 1)); (2%nat, example_backend 3 (Some 1))]
    [(0%nat, example_backend 2 (Some 1)); (1%nat, example_backend 3 (Some 1))] 1).
  - split; [repeat constructor; cbn; lia | done].
  - split; [repeat constructor; cbn; lia | done].
  - done.
  - done.
  - apply (NoDup_fmap_1 backend_id). apply (bool_decide_unpack _). vm_compute. exact I.
  - cbn. apply sublist_cons. reflexivity.
  - by vm_compute.
  - done.
  - cbn. left.
Defined.

(** ** A score that is not one *)

(** C39. The unit of a rendezvous score is meant to lie strictly between 0 and 1, but
    a hash of [2^64 - 1024] or more rounds to [1.0]: the client key and the
    backend below hash to [2^64 - 276], and the assertion on the unit fails. *)
Example hrw_unit_one f64_ln :
  hash_backend DEFAULT_HASH_SEED 0x1e06000414060e05 (V4 (mkSocketAddrV4 [12; 30; 3; 7] 1043)) = 2 ^ 64 - 276 /\
  hrw_unit (2 ^ 64 - 276) = f64_of_Z 1 /\ SFltb (hrw_unit (2 ^ 64 - 1025)) (f64_of_Z 1) = true /\
  hrw_score f64_ln 0x1e06000414060e05
    (backend_new_at [1] (V4 (mkSocketAddrV4 [12; 30; 3; 7] 1043)) None None None 0) = Panic.
Proof. split; [by vm_compute |]. split; [by vm_compute |]. split; by vm_compute. Qed.
