(* ===== verification/LoadSpec.v ===== *)
(** * What the load-aware policies promise

    The rings that join the backends of one address, the load of an address
    they sum, and the selections of [LeastLoaded] and [PowerOfTwo] under a count
    metric: the first of the least loaded per unit of weight, and never the
    heavier of the two samples. *)

From Stdlib Require Import SpecFloat.
From S2P Require Import Prelude Retry ProxyProtocol Backend AffinityHash LoadBalancing RoundRobinSpec PolicySpec.

(** ** Rings *)

(** The ring leads from [p] through [l] to [stop]. *)
Fixpoint linked (ring : list nat) (p : nat) (l : list nat) (stop : nat) : Prop :=
  match l with
  | [] => ring !! p = Some stop
  | q :: l => ring !! p = Some q /\ linked ring q l stop
  end.

Lemma linked_head ring p l stop : linked ring p l stop -> ring !! p = Some (from_option id stop (head l)).
Proof. by destruct l as [| q l]; [| intros [? _]]. Qed.

Lemma linked_app ring p l1 q l2 stop : linked ring p l1 q -> linked ring q l2 stop -> linked ring p (l1 ++ q :: l2) stop.
Proof.
  revert p. induction l1 as [| x l1 IH]; intros p; cbn [linked app]; [by split |].
  intros [H1 H2] H3. split; [done |]. by apply IH.
Qed.

Lemma ring_walk_linked ring stop l : forall p fuel, linked ring p l stop -> stop ∉ l -> (length l < fuel)%nat ->
  ring_walk fuel ring stop (default stop (ring !! p)) = Val l.
Proof.
  induction l as [| q l IH]; intros p [| fuel] Hl Hs Hf; cbn [length] in Hf; try lia; cbn [linked] in Hl.
  - rewrite Hl. cbn [default from_option ring_walk]. by rewrite Nat.eqb_refl.
  - destruct Hl as [Hq Hl]. rewrite Hq. change (default stop (Some q)) with q. cbn [ring_walk].
    apply not_elem_of_cons in Hs as [Hne Hs]. destruct (Nat.eqb_spec q stop) as [-> | _]; [done |].
    rewrite IH by (done || lia). done.
Qed.

(** The positions of the backends at the address of position [p]. *)
Definition same_address (bs : list Backend) (p q : nat) : Prop := address <$> bs !! q = address <$> bs !! p /\ is_Some (bs !! q).

Global Instance same_address_dec bs p q : Decision (same_address bs p q).
Proof. unfold same_address. apply _. Defined.

(** From every position, the ring leads once through the other backends of its
    address and back. *)
Definition ring_ok (bs : list Backend) (ring : list nat) : Prop :=
  length ring = length bs /\
  forall p, (p < length bs)%nat -> exists l, linked ring p l p /\ NoDup (p :: l) /\
    forall q, q ∈ l <-> q <> p /\ same_address bs p q.

Lemma same_address_lt bs p q : same_address bs p q -> (q < length bs)%nat.
Proof. intros [_ H]. by apply lookup_lt_is_Some_1. Qed.

Lemma ring_ok_walk bs ring p : ring_ok bs ring -> (p < length bs)%nat -> exists l,
  ring_walk (S (length ring)) ring p (default p (ring !! p)) = Val l /\ NoDup (p :: l) /\
  forall q, q ∈ l <-> q <> p /\ same_address bs p q.
Proof.
  intros [Hlen Hr] Hp. destruct (Hr p Hp) as (l & Hl & Hnd & Hel). exists l. split; [| done].
  apply ring_walk_linked; [done | by apply NoDup_cons in Hnd as [? _] |].
  rewrite Hlen. assert (Hle : (length (p :: l) <= length (seq 0 (length bs)))%nat).
  { apply submseteq_length, NoDup_submseteq; [done |]. intros q [-> | Hq]%elem_of_cons; apply elem_of_seq; [lia |].
    apply Hel in Hq as [_ Hq%same_address_lt]. lia. }
  rewrite length_seq in Hle. cbn in Hle. lia.
Qed.

(** ** The load of an address *)

Definition counts_ok (count : Backend -> Z) (bs : list Backend) : Prop := Forall (fun b => 0 <= count b <= USIZE_MAX) bs.

(** The positions at the address of [p]. *)
Definition group (bs : list Backend) (p : nat) : list nat := filter (same_address bs p) (seq 0 (length bs)).

Definition count_at (count : Backend -> Z) (bs : list Backend) (q : nat) : Z := from_option count 0 (bs !! q).

(** What the address of [p] carries, saturating. *)
Definition load (count : Backend -> Z) (bs : list Backend) (p : nat) : Z :=
  Z.min USIZE_MAX (sum_over (count_at count bs) (group bs p)).

Lemma sum_counts_spec count l : forall acc, 0 <= acc <= USIZE_MAX -> Forall (fun x => 0 <= count x.2) l ->
  sum_counts l count acc = Z.min USIZE_MAX (acc + sum_over (count ∘ snd) l).
Proof.
  induction l as [| [p b] l IH]; intros acc Ha Hf; cbn [sum_counts sum_over]; [lia |].
  apply Forall_cons in Hf as [Hb Hf]. cbn [snd] in Hb. rewrite IH by (done || lia).
  assert (0 <= sum_over (count ∘ snd) l); [| cbn; lia].
  clear -Hf. induction Hf; cbn [sum_over]; [lia |]. cbn in *. lia.
Qed.

Lemma sum_over_perm {A} (f : A -> Z) l1 l2 : l1 ≡ₚ l2 -> sum_over f l1 = sum_over f l2.
Proof. induction 1; cbn [sum_over]; lia. Qed.

Lemma same_address_self bs p : (p < length bs)%nat -> same_address bs p p.
Proof. intros Hp. split; [done | by apply lookup_lt_is_Some_2]. Qed.

Lemma group_perm bs p l : (p < length bs)%nat -> NoDup (p :: l) -> (forall q, q ∈ l <-> q <> p /\ same_address bs p q) ->
  p :: l ≡ₚ group bs p.
Proof.
  intros Hp Hnd Hel. apply NoDup_Permutation; [done | apply NoDup_filter, NoDup_seq |].
  intros q. unfold group. rewrite elem_of_cons, Hel, list_elem_of_filter, elem_of_seq. split.
  - intros [-> | [_ Hq]]; (split; [| split; [lia |]]); [by apply same_address_self | cbn; lia | done | by apply same_address_lt in Hq].
  - intros [Hq _]. destruct (decide (q = p)) as [-> | ?]; [by left | by right].
Qed.

Section Loads.
Context (c : Candidates) (Hc : candidates_ok c) (Hring : ring_ok (cd_backends c) (cd_siblings c)).
Context (count : Backend -> Z) (Hcount : counts_ok count (cd_backends c)).
Let bs := cd_backends c.

Lemma position_spec i p : cd_indices c !! i = Some p -> exists b, position c i = Val p /\ bs !! p = Some b /\ candidate c i = Val b.
Proof.
  intros Hi. assert (Hp : (p < length bs)%nat).
  { pose proof (co_range _ Hc) as Hr. rewrite Forall_forall in Hr. apply Hr. by eapply list_elem_of_lookup_2. }
  destruct (lookup_lt_is_Some_2 _ _ Hp) as [b Hb]. exists b. unfold candidate, position, backend_at.
  rewrite (index_Some _ _ _ Hi). cbn [mbind outcome_bind]. by rewrite (index_Some _ _ _ Hb).
Qed.

Lemma count_bounds p b : bs !! p = Some b -> 0 <= count b <= USIZE_MAX.
Proof. intros Hb. unfold counts_ok in Hcount. rewrite Forall_forall in Hcount. eapply Hcount, list_elem_of_lookup_2, Hb. Qed.

Lemma address_count_spec i p : cd_indices c !! i = Some p -> address_count c i count = Val (load count bs p).
Proof.
  intros Hi. destruct (position_spec i p Hi) as (b & Hpos & Hb & Hcand). pose proof (lookup_lt_Some _ _ _ Hb) as Hp.
  destruct (ring_ok_walk _ _ _ Hring Hp) as (l & Hw & Hnd & Hel).
  unfold address_count, siblings. rewrite Hcand, Hpos. cbn [mbind outcome_bind]. rewrite Hw. cbn [mbind outcome_bind].
  destruct (resolve_spec bs l) as (r & Hr & Hrl & Hf).
  { apply Forall_forall. intros q [_ Hq%same_address_lt]%Hel. done. }
  fold bs. rewrite Hr. cbn [mbind outcome_bind]. pose proof (count_bounds p b Hb) as Hcb.
  rewrite sum_counts_spec; [| done | eapply Forall_impl; [exact Hf |]; intros x Hx; by apply (count_bounds x.1)].
  assert (Hsum : count b + sum_over (count ∘ snd) r = sum_over (count_at count bs) (group bs p)).
  { rewrite <- (sum_over_perm _ _ _ (group_perm bs p l Hp Hnd Hel)), <- Hrl. cbn [sum_over].
    unfold count_at at 1. rewrite Hb. cbn [from_option]. f_equal. clear -Hf.
    induction Hf as [| x r Hx _ IH]; [done |]. cbn [sum_over fmap list_fmap]. fold (r.*1). rewrite IH. f_equal.
    unfold count_at. by rewrite Hx. }
  rewrite Hsum. assert (Hle : count b <= sum_over (count_at count bs) (group bs p)).
  { rewrite <- Hsum. assert (0 <= sum_over (count ∘ snd) r); [| lia]. clear -Hf Hcount.
    induction Hf as [| x r Hx _ IH]; cbn [sum_over]; [lia |].
    pose proof (count_bounds _ _ Hx). cbn. lia. }
  rewrite debug_assert_true by lia. done.
Qed.

Lemma weight_at_spec i p : cd_indices c !! i = Some p -> weight_at c i = Val (weight_of bs p).
Proof.
  intros Hi. destruct (position_spec i p Hi) as (b & _ & Hb & Hcand). unfold weight_at, weight_of. rewrite Hcand. cbn. by rewrite Hb.
Qed.

(** Position [p] is at most as loaded as [q], per unit of weight. *)
Definition lighter (p q : nat) : Prop := load count bs p * weight_of bs q <= load count bs q * weight_of bs p.

(** The first of the least loaded candidates. *)
Definition lightest (ps : list nat) (p : nat) : Prop :=
  p ∈ ps /\ forall q, q ∈ ps -> lighter p q /\ ((q < p)%nat -> ~ lighter q p).

Lemma counts_spec idxs : forall ps, Forall2 (fun i p => cd_indices c !! i = Some p) idxs ps ->
  counts c count idxs = Val (zip_with (fun i p => (load count bs p, weight_of bs p, i)) idxs ps).
Proof.
  induction idxs as [| i idxs IH]; intros ps H; inversion H as [| ? p ? ps' Hi Hf]; subst; [done |]. cbn [counts zip_with].
  rewrite (address_count_spec i p Hi), (weight_at_spec i p Hi). cbn [mbind outcome_bind]. by rewrite (IH _ Hf).
Qed.

Lemma indices_zip : Forall2 (fun i p => cd_indices c !! i = Some p) (seq 0 (len c)) (cd_indices c).
Proof.
  apply Forall2_same_length_lookup. split; [by rewrite length_seq |]. intros k i p Hi Hp.
  apply lookup_seq in Hi as [-> _]. done.
Qed.

Lemma get_spec i p : cd_indices c !! i = Some p -> get c i = Val (Some p).
Proof.
  intros Hi. destruct (position_spec i p Hi) as (b & _ & Hb & _). unfold get, backend_at. rewrite Hi.
  fold bs. by rewrite (index_Some _ _ _ Hb).
Qed.

End Loads.

(** *** Triples of a load, a weight and an index *)

Definition le_load (x y : Z * Z * nat) : Prop := x.1.1 * y.1.2 <= y.1.1 * x.1.2.
Definition lt_load (x y : Z * Z * nat) : Prop := x.1.1 * y.1.2 < y.1.1 * x.1.2.
Definition weighs (x : Z * Z * nat) : Prop := 1 <= x.1.2.

Lemma load_trans x y z : weighs x -> weighs y -> weighs z -> le_load x y -> lt_load y z -> lt_load x z.
Proof.
  unfold weighs, le_load, lt_load. intros Hx Hy Hz H1 H2. apply (Z.mul_lt_mono_pos_r y.1.2); [lia |].
  pose proof (Zmult_le_compat_r _ _ z.1.2 H1 ltac:(lia)). pose proof (Zmult_lt_compat_r _ _ x.1.2 ltac:(lia) H2). nia.
Qed.

Lemma load_trans' x y z : weighs x -> weighs y -> weighs z -> lt_load x y -> le_load y z -> lt_load x z.
Proof.
  unfold weighs, le_load, lt_load. intros Hx Hy Hz H1 H2. apply (Z.mul_lt_mono_pos_r y.1.2); [lia |].
  pose proof (Zmult_lt_compat_r _ _ z.1.2 ltac:(lia) H1). pose proof (Zmult_le_compat_r _ _ x.1.2 H2 ltac:(lia)). nia.
Qed.

Lemma cmp_count_spec x y : weighs x -> weighs y ->
  cmp_count_per_weight x.1.1 x.1.2 y.1.1 y.1.2 = Val (x.1.1 * y.1.2 ?= y.1.1 * x.1.2).
Proof.
  unfold weighs. intros Hx Hy. unfold cmp_count_per_weight. rewrite (debug_assert_true ((1 <=? x.1.2) && (1 <=? y.1.2))) by lia. cbn [mbind outcome_bind].
  rewrite debug_assert_true; [done |]. destruct (Z.eqb_spec x.1.2 y.1.2) as [He | _]; [| done]. cbn. apply bool_decide_eq_true.
  rewrite He. destruct (Z.compare_spec x.1.1 y.1.1) as [-> | ? | ?];
    [apply Z.compare_refl | apply Z.compare_lt_iff; nia | apply Z.compare_gt_iff; nia].
Qed.

(** The fold of [min_by] keeps the first minimum. *)
Lemma min_count_spec l : forall best, Forall weighs (best :: l) -> exists m l1 l2,
  min_count best l = Val m /\ best :: l = l1 ++ m :: l2 /\ Forall (lt_load m) l1 /\ Forall (le_load m) l2.
Proof.
  induction l as [| x l IH]; intros best Hw; cbn [min_count].
  { exists best, [], []. by repeat split. }
  pose proof Hw as [Hb [Hx Hl]%Forall_cons]%Forall_cons. rewrite (cmp_count_spec best x Hb Hx). cbn [mbind outcome_bind].
  destruct (Z.compare_spec (best.1.1 * x.1.2) (x.1.1 * best.1.2)) as [He | Hlt | Hgt].
  3: { destruct (IH x) as (m & l1 & l2 & Hm & Heq & H1 & H2); [by constructor |]. exists m, (best :: l1), l2.
    split; [done |]. split; [by rewrite Heq |]. split; [| done]. constructor; [| done].
    assert (Hin : m ∈ x :: l) by (rewrite Heq; apply elem_of_app; right; left).
    assert (Hmw : weighs m) by (rewrite Forall_forall in Hw; apply Hw; by right).
    apply (load_trans m x best); [done | done | done | | done].
    destruct l1 as [| y l1]; injection Heq as -> ->; [unfold le_load; lia |]. apply Forall_cons in H1 as [H1 _].
    unfold lt_load, le_load in *. lia. }
  all: destruct (IH best) as (m & l1 & l2 & Hm & Heq & H1 & H2); [by constructor | exists m].
  all: assert (Hbx : le_load best x) by (unfold le_load; lia).
  all: assert (Hin : m ∈ best :: l) by (rewrite Heq; apply elem_of_app; right; left).
  all: assert (Hmw : weighs m) by (rewrite Forall_forall in Hw; apply Hw; set_solver).
  all: destruct l1 as [| y l1]; injection Heq as -> ->; [exists [], (x :: l2); repeat split; [done | constructor | by constructor] |].
  all: exists (y :: x :: l1), l2; split; [done |]; split; [done |]; split; [| done].
  all: apply Forall_cons in H1 as [Hy H1]; constructor; [done |]; constructor; [| done].
  all: by apply (load_trans' m y x).
Qed.

Lemma increasing_lookup l : forall i j p q,
  strictly_increasing l = true -> l !! i = Some p -> l !! j = Some q -> (i < j)%nat -> (p < q)%nat.
Proof.
  induction l as [| a l IH]; intros [| i] [| j] p q Hs Hi Hj Hij; try done; try lia.
  - injection Hi as <-. pose proof (increasing_above _ _ Hs) as Hf. rewrite Forall_forall in Hf.
    by eapply Hf, list_elem_of_lookup_2.
  - eapply (IH i j); [by eapply increasing_tail | done | done | lia].
Qed.

Section Least.
Context (c : Candidates) (Hc : candidates_ok c) (Hring : ring_ok (cd_backends c) (cd_siblings c)).
Context (count : Backend -> Z) (Hcount : counts_ok count (cd_backends c)) (Hne : cd_indices c <> []).
Let bs := cd_backends c.
Let measure i p : Z * Z * nat := (load count bs p, weight_of bs p, i).

Lemma measured_weighs : Forall weighs (zip_with measure (seq 0 (len c)) (cd_indices c)).
Proof.
  apply Forall_forall. intros x Hx. apply elem_of_lookup_zip_with_1 in Hx as (k & i & p & -> & _ & Hp).
  unfold weighs, measure. cbn. destruct (position_spec c Hc k p Hp) as (b & _ & Hb & _). unfold weight_of, bs. rewrite Hb.
  apply backend_weight_pos.
Qed.

Lemma measured_lookup k x : zip_with measure (seq 0 (len c)) (cd_indices c) !! k = Some x ->
  exists p, cd_indices c !! k = Some p /\ x = measure k p.
Proof.
  rewrite lookup_zip_with_Some. intros (i & p & -> & [-> _]%lookup_seq & Hp). by exists p.
Qed.

Lemma least_count_spec : exists p, least_count c count = Val (Some p) /\ lightest c count (cd_indices c) p.
Proof.
  unfold least_count. rewrite (counts_spec c Hc Hring count Hcount _ _ (indices_zip c)). cbn [mbind outcome_bind].
  fold bs. change (fun i p => (load count bs p, weight_of bs p, i)) with measure.
  pose proof measured_weighs as Hw. pose proof measured_lookup as Hlk.
  destruct (zip_with measure (seq 0 (len c)) (cd_indices c)) as [| x l] eqn:El.
  { apply zip_with_nil_inv in El as [El | El]; [| done]. apply (f_equal length) in El. rewrite length_seq in El.
    unfold len in El. by destruct Hne, (cd_indices c). }
  destruct (min_count_spec l x Hw) as (m & l1 & l2 & -> & Heq & H1 & H2). cbn [mbind outcome_bind].
  rewrite Heq in Hlk, El. rewrite Forall_forall in H1. rewrite Forall_forall in H2.
  destruct (Hlk (length l1) m) as (p & Hp & ->); [by apply list_lookup_middle |].
  exists p. rewrite (get_spec c Hc _ p Hp : get c (measure (length l1) p).2 = _). split; [done |]. split; [by eapply list_elem_of_lookup_2 |].
  intros q [j Hj]%list_elem_of_lookup_1.
  assert (Hx : (l1 ++ measure (length l1) p :: l2) !! j = Some (measure j q)).
  { rewrite <- El, lookup_zip_with_Some. exists j, q. split; [done |]. split; [| done].
    apply lookup_seq. split; [done |]. by apply lookup_lt_Some in Hj. }
  destruct (Nat.lt_trichotomy j (length l1)) as [Hlt | [-> | Hgt]].
  - rewrite lookup_app_l in Hx by done. apply list_elem_of_lookup_2, H1 in Hx. unfold lt_load, measure in Hx. cbn in Hx.
    unfold lighter. fold bs. split; [lia | intros _; lia].
  - rewrite Hp in Hj. injection Hj as <-. split; [unfold lighter; lia | lia].
  - rewrite lookup_app_r in Hx by lia. destruct (j - length l1)%nat as [| k] eqn:Ek; [lia |].
    cbn in Hx. apply list_elem_of_lookup_2, H2 in Hx. unfold le_load, measure in Hx. cbn in Hx. split; [done |].
    pose proof (increasing_lookup _ _ _ _ _ (co_sorted _ Hc) Hp Hj Hgt). lia.
Qed.

End Least.

Definition count_of (metric : LoadMetric) : Backend -> Z :=
  match metric with Connections => active_connections | _ => active_requests end.

(** C19. The least-loaded policy takes, of a non-empty set, the first candidate whose
    address carries the least load per unit of weight: the loads of all the
    backends at its address count, and those of equal ratio are told apart by
    their order in the list. *)
Theorem least_loaded_first f64_exp metric c :
  candidates_ok c -> ring_ok (cd_backends c) (cd_siblings c) -> metric <> ConnectionTime ->
  counts_ok (count_of metric) (cd_backends c) -> cd_indices c <> [] ->
  exists p, least_loaded_next f64_exp metric c = Val (cd_backends c, Some p) /\ lightest c (count_of metric) (cd_indices c) p.
Proof.
  intros Hc Hr Hm Hcount Hne. destruct (least_count_spec c Hc Hr _ Hcount Hne) as (p & Hp & Hl). exists p. split; [| done].
  assert (is_empty c = false) as Hn.
  { unfold is_empty, len. apply Nat.eqb_neq. by intros ?%length_zero_iff_nil. }
  unfold least_loaded_next. rewrite Hn. by destruct metric; cbn [count_of] in Hp; try done; rewrite Hp.
Qed.

Section Sampling.
Context `{RL : RandLaws} (f64_exp : f64 -> f64).
Context (c : Candidates) (Hc : candidates_ok c) (Hring : ring_ok (cd_backends c) (cd_siblings c)).

Lemma compare_spec metric i j p q :
  metric <> ConnectionTime -> counts_ok (count_of metric) (cd_backends c) ->
  cd_indices c !! i = Some p -> cd_indices c !! j = Some q ->
  let bs := cd_backends c in
  compare f64_exp metric c i j = Val (bs, Some (load (count_of metric) bs p * weight_of bs q ?= load (count_of metric) bs q * weight_of bs p)).
Proof.
  intros Hm Hcount Hi Hj bs.
  assert (Hw : forall k x, cd_indices c !! k = Some x -> 1 <= weight_of bs x).
  { intros k x Hx. destruct (position_spec c Hc k x Hx) as (b & _ & Hb & _). unfold weight_of, bs. rewrite Hb. apply backend_weight_pos. }
  pose proof (cmp_count_spec (load (count_of metric) bs p, weight_of bs p, i) (load (count_of metric) bs q, weight_of bs q, j)
    (Hw _ _ Hi) (Hw _ _ Hj)) as Hcmp. cbn [fst snd] in Hcmp.
  destruct metric; [| | done]; unfold compare; cbn [count_of] in *;
    rewrite (address_count_spec c Hc Hring _ Hcount i p Hi), (address_count_spec c Hc Hring _ Hcount j q Hj),
      (weight_at_spec c Hc i p Hi), (weight_at_spec c Hc j q Hj); cbn [mbind outcome_bind]; fold bs; by rewrite Hcmp.
Qed.

(** The two samples are distinct positions of the set. *)
Lemma two_samples rng n : (2 <= n)%nat ->
  let first := (random_range rng n).1 in
  let r := (random_range (random_range rng n).2 (n - 1)).1 in
  let second := if (first <=? r)%nat then S r else r in
  (first < n)%nat /\ (second < n)%nat /\ first <> second.
Proof.
  intros Hn first r second. pose proof (law_random_range rng n ltac:(lia)) as H1.
  pose proof (law_random_range (random_range rng n).2 (n - 1) ltac:(lia)) as H2. fold first in H1. fold r in H2.
  unfold second. destruct (Nat.leb_spec first r); lia.
Qed.

(** The selection keeps what the comparison of the two samples says. *)
Lemma power_of_two_run metric rng (R : list Backend -> Prop) (Q : nat -> nat -> Prop) :
  cd_indices c <> [] -> R (cd_backends c) ->
  (forall i j p q, cd_indices c !! i = Some p -> cd_indices c !! j = Some q ->
    exists bs' o, compare f64_exp metric c i j = Val (bs', o) /\ R bs' /\ (o <> Some Gt -> Q p q) /\ (o <> Some Lt -> Q q p)) ->
  exists rng' bs' p, power_of_two_next f64_exp metric rng c = Val (rng', bs', Some p) /\ p ∈ cd_indices c /\ R bs' /\
    ((2 <= len c)%nat -> exists q, q ∈ cd_indices c /\ q <> p /\ Q p q).
Proof.
  intros Hne HR Hcmp. unfold power_of_two_next. destruct (len c) as [| [| n]] eqn:En.
  { unfold len in En. by destruct Hne, (cd_indices c). }
  { destruct (lookup_lt_is_Some_2 (cd_indices c) 0) as [p Hp]; [unfold len in En; lia |].
    exists rng, (cd_backends c), p. rewrite (get_spec c Hc _ p Hp). split; [done |]. split; [by eapply list_elem_of_lookup_2 |].
    split; [done | lia]. }
  destruct (two_samples rng (S (S n)) ltac:(lia)) as (H1 & H2 & H12).
  destruct (random_range rng (S (S n))) as [i rng1]. cbn [fst snd] in *.
  destruct (random_range rng1 (S (S n) - 1)) as [r rng2]. cbn [fst snd] in *.
  set (j := if (i <=? r)%nat then S r else r) in *.
  rewrite (debug_assert_true (negb (i =? j)%nat)) by (apply negb_true_iff, Nat.eqb_neq; done). cbn [mbind outcome_bind].
  rewrite (debug_assert_true (j <? S (S n))%nat) by (apply Nat.ltb_lt; lia). cbn [mbind outcome_bind].
  destruct (lookup_lt_is_Some_2 (cd_indices c) i) as [p Hp]; [unfold len in En; lia |].
  destruct (lookup_lt_is_Some_2 (cd_indices c) j) as [q Hq]; [unfold len in En; lia |].
  destruct (Hcmp i j p q Hp Hq) as (bs' & o & -> & HR' & Hpq & Hqp). cbn [mbind outcome_bind].
  assert (Hd : p <> q) by (intros ->; destruct H12; eapply NoDup_lookup; [apply increasing_NoDup, Hc | exact Hp | exact Hq]).
  assert (Hji : (j =? i)%nat = false) by (apply Nat.eqb_neq; lia).
  pose proof (list_elem_of_lookup_2 _ _ _ Hp). pose proof (list_elem_of_lookup_2 _ _ _ Hq).
  destruct o as [[] |]; [destruct (random_bool rng2) as [[] rng3] | | | destruct (random_bool rng2) as [[] rng3]].
  all: rewrite ?Nat.eqb_refl, ?Hji; cbn [debug_assert andb orb negb mbind outcome_bind]; rewrite ?bool_decide_eq_false_2 by done;
    cbn [debug_assert andb orb negb mbind outcome_bind].
  all: first [rewrite (get_spec c Hc _ p Hp) | rewrite (get_spec c Hc _ q Hq)]; eexists _, _, _; split; [done |]; split; [done |];
    split; [done |]; intros _.
  1,3,5: exists q; split; [done |]; split; [congruence | by apply Hpq].
  all: exists p; split; [done |]; split; [congruence | by apply Hqp].
Qed.

End Sampling.

(** Two random choices, the lighter one kept: of the two distinct candidates a
    selection samples, it never takes the one more loaded per unit of weight. *)
Theorem power_of_two_lighter `{RL : RandLaws} f64_exp metric rng c :
  candidates_ok c -> ring_ok (cd_backends c) (cd_siblings c) -> metric <> ConnectionTime ->
  counts_ok (count_of metric) (cd_backends c) -> (2 <= len c)%nat ->
  exists rng' p q, power_of_two_next f64_exp metric rng c = Val (rng', cd_backends c, Some p) /\
    p ∈ cd_indices c /\ q ∈ cd_indices c /\ q <> p /\ lighter c (count_of metric) p q.
Proof.
  intros Hc Hr Hm Hcount Hlen.
  destruct (power_of_two_run f64_exp c Hc metric rng (fun bs => bs = cd_backends c) (lighter c (count_of metric)))
    as (rng' & bs' & p & Hrun & Hp & -> & Hq).
  - unfold len in Hlen. destruct (cd_indices c); [cbn in Hlen; lia | done].
  - done.
  - intros i j p q Hi Hj. eexists _, _. split; [by apply compare_spec |]. split; [done |]. unfold lighter.
    destruct (Z.compare_spec (load (count_of metric) (cd_backends c) p * weight_of (cd_backends c) q)
      (load (count_of metric) (cd_backends c) q * weight_of (cd_backends c) p)); split; intros ?; congruence || lia.
  - destruct (Hq Hlen) as (q & ? & ? & ?). by exists rng', p, q.
Qed.

(** ** An example *)

(** The example's backends under load, each alone at its address. *)
Definition loaded_set : Candidates :=
  mkCandidates [with_connections (example_backend 1 (Some 5)) 20; with_connections (example_backend 2 (Some 1)) 3;
    with_connections (example_backend 3 (Some 1)) 5] [0; 1; 2]%nat [0; 1; 2]%nat 0.

Lemma loaded_set_ok : candidates_ok loaded_set /\ ring_ok (cd_backends loaded_set) (cd_siblings loaded_set) /\
  counts_ok (count_of Connections) (cd_backends loaded_set).
Proof.
  split; [split; [repeat constructor; cbn; lia | done] |]. split; [| repeat constructor; done].
  split; [done |]. intros [| [| [| p]]] Hp; try (cbn in Hp; lia); exists [];
    (split; [done |]; split; [apply NoDup_singleton |]; intros q; rewrite elem_of_nil; split; [done |]; intros [Hne [Ha _]];
     destruct q as [| [| [| q]]]; done).
Qed.

Lemma least_loaded_first_witness : exists p,
  least_loaded_next (fun x => x) Connections loaded_set = Val (cd_backends loaded_set, Some p) /\
  lightest loaded_set active_connections [0; 1; 2]%nat p.
Proof.
  destruct loaded_set_ok as (Hc & Hr & Hn). exact (least_loaded_first (fun x => x) Connections loaded_set Hc Hr ltac:(done) Hn ltac:(done)).
Defined.

Lemma power_of_two_lighter_witness : exists rng p q,
  @power_of_two_next (fun x => x) counting_rand Connections 4 loaded_set = Val (rng, cd_backends loaded_set, Some p) /\
  p ∈ [0; 1; 2]%nat /\ q ∈ [0; 1; 2]%nat /\ q <> p /\ lighter loaded_set active_connections p q.
Proof.
  destruct loaded_set_ok as (Hc & Hr & Hn).
  exact (@power_of_two_lighter counting_rand counting_rand_laws (fun x => x) Connections 4 loaded_set Hc Hr ltac:(done) Hn ltac:(cbn; lia)).
Defined.
