(* ===== verification/Policies.v ===== *)
(** * The policies as one interface

    The trait [LoadBalancingAlgorithm] of [lib/src/load_balancing.rs] as a class,
    its six implementations as instances, and the boxed policy of a backend list
    as their sum.  A selection returns the policy and the backends it updated
    (reading a connection time decays it) with the position it chose. *)

From Stdlib Require Import SpecFloat.
From S2P Require Import Prelude Retry ProxyProtocol Backend AffinityHash LoadBalancing Maglev.

Class LoadBalancingAlgorithm (P : Type) := {
  next_available_backend : P -> option Z -> Candidates -> checked (P * list Backend * option nat);
  rebuild : P -> list Backend -> checked P;
}.

(** A policy that leaves the backends as they are. *)
Definition reading {P} (c : Candidates) (m : checked (P * option nat)) : checked (P * list Backend * option nat) :=
  '(p, picked) ← m; Val (p, cd_backends c, picked).

(** The mathematical functions of the platform. *)
Class Libm := { f64_ln : f64 -> f64; f64_exp : f64 -> f64 }.

Section Policies.
Context `{LM : Libm} `{RC : RandCrate}.

Record Random := mkRandom { rd_rng : std_rng }.
Record LeastLoaded := mkLeastLoaded { ll_metric : LoadMetric }.
Record PowerOfTwo := mkPowerOfTwo { p2_metric : LoadMetric; p2_rng : std_rng }.

Definition random_with_seed (seed : Z) : Random := mkRandom (seed_from_u64 seed).
Definition power_of_two_with_seed (seed : Z) (metric : LoadMetric) : PowerOfTwo := mkPowerOfTwo metric (seed_from_u64 seed).

Global Instance round_robin_policy : LoadBalancingAlgorithm RoundRobin := {
  next_available_backend rr _ c := reading c (round_robin_next rr c);
  rebuild rr bs := Val (round_robin_rebuild rr bs);
}.

Global Instance random_policy : LoadBalancingAlgorithm Random := {
  next_available_backend r _ c := reading c ('(rng, p) ← random_next (rd_rng r) c; Val (mkRandom rng, p));
  rebuild r _ := Val r;
}.

Global Instance least_loaded_policy : LoadBalancingAlgorithm LeastLoaded := {
  next_available_backend l _ c := '(bs, p) ← least_loaded_next f64_exp (ll_metric l) c; Val (l, bs, p);
  rebuild l _ := Val l;
}.

Global Instance power_of_two_policy : LoadBalancingAlgorithm PowerOfTwo := {
  next_available_backend p _ c :=
    '(rng, bs, picked) ← power_of_two_next f64_exp (p2_metric p) (p2_rng p) c;
    Val (mkPowerOfTwo (p2_metric p) rng, bs, picked);
  rebuild p _ := Val p;
}.

Global Instance rendezvous_policy : LoadBalancingAlgorithm Rendezvous := {
  next_available_backend r key c := reading c (rendezvous_next f64_ln r key c);
  rebuild r bs := Val (rendezvous_rebuild r bs);
}.

Global Instance maglev_policy : LoadBalancingAlgorithm Maglev := {
  next_available_backend g key c := reading c (maglev_next g key c);
  rebuild g bs := maglev_rebuild g bs;
}.

(** [Box<dyn LoadBalancingAlgorithm>] *)
Inductive Policy :=
| ByRoundRobin (p : RoundRobin)
| ByRandom (p : Random)
| ByLeastLoaded (p : LeastLoaded)
| ByPowerOfTwo (p : PowerOfTwo)
| ByRendezvous (p : Rendezvous)
| ByMaglev (p : Maglev).

(** A call through the box. *)
Definition boxed {P} `{LoadBalancingAlgorithm P} (wrap : P -> Policy) (p : P) (key : option Z) (c : Candidates) :
    checked (Policy * list Backend * option nat) :=
  '(p, bs, picked) ← next_available_backend p key c; Val (wrap p, bs, picked).

Definition boxed_rebuild {P} `{LoadBalancingAlgorithm P} (wrap : P -> Policy) (p : P) (bs : list Backend) : checked Policy :=
  p ← rebuild p bs; Val (wrap p).

Global Instance boxed_policy : LoadBalancingAlgorithm Policy := {
  next_available_backend p key c :=
    match p with
    | ByRoundRobin p => boxed ByRoundRobin p key c
    | ByRandom p => boxed ByRandom p key c
    | ByLeastLoaded p => boxed ByLeastLoaded p key c
    | ByPowerOfTwo p => boxed ByPowerOfTwo p key c
    | ByRendezvous p => boxed ByRendezvous p key c
    | ByMaglev p => boxed ByMaglev p key c
    end;
  rebuild p bs :=
    match p with
    | ByRoundRobin p => boxed_rebuild ByRoundRobin p bs
    | ByRandom p => boxed_rebuild ByRandom p bs
    | ByLeastLoaded p => boxed_rebuild ByLeastLoaded p bs
    | ByPowerOfTwo p => boxed_rebuild ByPowerOfTwo p bs
    | ByRendezvous p => boxed_rebuild ByRendezvous p bs
    | ByMaglev p => boxed_rebuild ByMaglev p bs
    end;
}.

End Policies.
