(* ===== verification/PolicyLaws.v ===== *)
(** * What every policy promises to a backend list

    Each implementation of [LoadBalancingAlgorithm] selects one of the candidates
    it is given, without a failed assertion, and changes nothing of a backend but
    its connection-time average; a rebuild makes it ready for the new list.  The
    running weights of the round robin bound how many selections fit between two
    rebuilds: [policy_ok k] leaves room for [k] of them. *)

From Stdlib Require Import SpecFloat.
From S2P Require Import Prelude Retry ProxyProtocol Backend AffinityHash LoadBalancing RoundRobinSpec Maglev MaglevSpec PolicySpec LoadSpec Policies.

(** ** What a list hands over *)

(** A backend but for its average. *)
Definition settled (b : Backend) : Backend := with_time b (ewma_new 0).

Definition same_but_time (bs bs' : list Backend) : Prop := settled <$> bs = settled <$> bs'.

Definition backend_ok (b : Backend) : Prop :=
  0 <= active_connections b < USIZE_MAX /\ 0 <= active_requests b <= USIZE_MAX /\ backend_weight b <= I32_MAX.

Record view_ok (c : Candidates) : Prop := {
  vo_candidates : candidates_ok c;
  vo_ring : ring_ok (cd_backends c) (cd_siblings c);
  vo_backends : Forall backend_ok (cd_backends c);
  vo_some : cd_indices c <> [];
}.

(** What a policy may remember of a list. *)
Definition same_config (bs bs' : list Backend) : Prop :=
  address <$> bs = address <$> bs' /\ backend_weight <$> bs = backend_weight <$> bs'.

Definition list_weight (bs : list Backend) : Z := sum_over backend_weight bs.

(** [k] selections of the round robin fit an [i64]. *)
Definition room (k : nat) (bs : list Backend) : Prop :=
  Z.of_nat (length bs) < 2 ^ 32 /\ Z.of_nat (length bs) * (Z.of_nat k * list_weight bs) < 2 ^ 63.

Section Laws.
Context `{LM : Libm}.

(** The backends have a score for the key. *)
Definition keyed (key : option Z) (bs : list Backend) : Prop :=
  match key with
  | Some key => 0 <= key /\ Forall (fun b => exists s, hrw_score f64_ln key b = Val s) bs
  | None => True
  end.

End Laws.

Class PolicyLaws (P : Type) `{Libm} `{LoadBalancingAlgorithm P} := {
  policy_ok : nat -> P -> list Backend -> Prop;
  law_config k p bs bs' : same_config bs bs' -> policy_ok k p bs -> policy_ok k p bs';
  law_next k p key c : view_ok c -> keyed key (cd_backends c) -> policy_ok (S k) p (cd_backends c) ->
    exists p' bs' q, next_available_backend p key c = Val (p', bs', Some q) /\ q ∈ cd_indices c /\
      same_but_time (cd_backends c) bs' /\ policy_ok k p' (cd_backends c);
  law_rebuild j k p bs bs' : policy_ok j p bs -> room k bs' -> Forall backend_ok bs' ->
    exists p', rebuild p bs' = Val p' /\ policy_ok k p' bs';
}.

(** ** Round robin *)

Lemma list_weight_values bs : list_weight bs = sum_over (weight_of bs) (seq 0 (length bs)).
Proof.
  unfold list_weight. induction bs as [| b bs IH] using rev_ind; [done |].
  rewrite sum_over_app, length_app, seq_app, sum_over_app. cbn [length seq sum_over]. rewrite IH. f_equal.
  - apply sum_over_ext. intros p Hp%elem_of_seq. unfold weight_of. by rewrite lookup_app_l by lia.
  - unfold weight_of. rewrite lookup_app_r by lia. cbn. by rewrite Nat.sub_diag.
Qed.

Lemma set_weight_le c : candidates_ok c -> set_weight c <= list_weight (cd_backends c).
Proof.
  intros Hc. unfold set_weight. rewrite list_weight_values.
  rewrite <- (sum_over_sub _ (seq 0 (length (cd_backends c))) (cd_indices c)).
  - apply sum_over_le. intros p Hp%elem_of_seq. case_decide; [done |]. unfold weight_of.
    destruct (cd_backends c !! p) as [b |]; cbn; [pose proof (backend_weight_pos b) |]; lia.
  - apply NoDup_seq.
  - apply increasing_NoDup, Hc.
  - intros p Hp. pose proof (co_range _ Hc) as Hr. rewrite Forall_forall in Hr. specialize (Hr p Hp). apply elem_of_seq. lia.
Qed.

Lemma same_config_length bs bs' : same_config bs bs' -> length bs = length bs'.
Proof. intros [H _]. by rewrite <- (length_fmap address bs), H, length_fmap. Qed.

Lemma same_config_weight bs bs' : same_config bs bs' -> list_weight bs = list_weight bs'.
Proof.
  intros [_ H]. unfold list_weight. change (sum_over backend_weight) with (sum_over (id ∘ backend_weight)).
  by rewrite <- !sum_over_fmap, H.
Qed.

(** The running weights have room for [k] selections. *)
Definition running (k : nat) (bs : list Backend) (ws : list Z) : Prop :=
  length ws = length bs /\ sum_over id ws = 0 /\
  exists B, (forall p, - B <= value ws p <= B) /\ Z.of_nat (length bs) * (B + Z.of_nat k * list_weight bs) < 2 ^ 63.

Definition rr_ok (k : nat) (rr : RoundRobin) (bs : list Backend) : Prop :=
  0 <= next_backend rr < U32_MAX /\ Z.of_nat (length bs) < 2 ^ 32 /\ running k bs (current_weights rr).

Lemma fits_le (n : nat) a b M : a <= b -> Z.of_nat n * b < M -> Z.of_nat n * a < M.
Proof. intros Hab. apply Z.le_lt_trans, Z.mul_le_mono_nonneg_l; lia. Qed.

Lemma list_weight_nonneg bs : 0 <= list_weight bs.
Proof.
  unfold list_weight. induction bs as [| b bs IH]; cbn [sum_over]; [lia |]. pose proof (backend_weight_pos b). lia.
Qed.

Lemma running_le j k bs ws : (j <= k)%nat -> running k bs ws -> running j bs ws.
Proof.
  intros Hjk (Hl & Hs & B & HB & Hr). split; [done |]. split; [done |]. exists B. split; [done |].
  eapply fits_le; [| exact Hr]. pose proof (list_weight_nonneg bs). nia.
Qed.

Lemma running_zero k bs : room k bs -> running k bs (replicate (length bs) 0).
Proof.
  intros [_ Hr]. split; [apply length_replicate |].
  assert (Hv : forall p, value (replicate (length bs) 0) p = 0).
  { intros p. unfold value. destruct (replicate _ 0 !! p) eqn:E; [| done]. by apply lookup_replicate in E as [-> _]. }
  split; [| exists 0; split; [intros p; rewrite Hv; lia | lia]].
  rewrite sum_over_values, (sum_over_ext _ (fun _ => 0 * 0)) by (intros; apply Hv). by rewrite sum_over_scale.
Qed.

Lemma rr_next k rr c : view_ok c -> rr_ok (S k) rr (cd_backends c) ->
  exists rr' q, round_robin_next rr c = Val (rr', Some q) /\ q ∈ cd_indices c /\ rr_ok k rr' (cd_backends c).
Proof.
  intros [Hc _ _ Hne] (Hn & Hlen & Hrun). destruct rr as [n ws]. cbn [next_backend current_weights] in *.
  assert (Hil : (length (cd_indices c) <= length (cd_backends c))%nat).
  { rewrite <- (length_seq (length (cd_backends c)) 0). apply submseteq_length, NoDup_submseteq; [apply increasing_NoDup, Hc |].
    intros p Hp. pose proof (co_range _ Hc) as Hr. rewrite Forall_forall in Hr. specialize (Hr p Hp). apply elem_of_seq. lia. }
  assert (Hpos : (0 < length (cd_indices c))%nat) by (destruct (cd_indices c); [done | cbn; lia]).
  destruct (uniform_weights c) as [[] | |] eqn:Eu; try by rewrite (uniform_spec c Hc Hne) in Eu.
  - destruct (cursor_step c Hc Hne n ws Eu Hn ltac:(lia)) as (q & Hq & Hstep). rewrite Hstep. eexists _, q.
    split; [done |]. split; [by eapply list_elem_of_lookup_2 |]. split; [| split; [done | by apply (running_le k (S k)); [lia |]]].
    cbn. pose proof (Z.mod_pos_bound (n + 1) (Z.of_nat (length (cd_indices c))) ltac:(lia)). unfold U32_MAX. lia.
  - destruct Hrun as (Hl & Hs & B & HB & Hr). pose proof (set_weight_le c Hc) as Hsw. pose proof (set_weight_len c Hc) as Hsl.
    destruct (smooth_step c Hc Hne B n ws Hl Hs HB) as (ws' & q & Hrun & Hq & Hmv & _).
    { eapply fits_le; [| exact Hr]. pose proof (list_weight_nonneg (cd_backends c)). nia. }
    unfold round_robin_next. rewrite (not_empty c Hne), Eu. cbn [mbind outcome_bind negb]. rewrite Hrun. cbn [mbind outcome_bind].
    eexists _, q. split; [done |]. split; [done |]. split; [done |]. split; [done |]. cbn [current_weights].
    split; [by destruct Hmv as [-> _] |]. split; [by rewrite (moved_sum c Hc ws ws' q) |].
    exists (B + list_weight (cd_backends c)). split; [| eapply fits_le; [| exact Hr]; lia]. intros p. destruct Hmv as [_ Hv]. rewrite Hv. pose proof (HB p).
    assert (0 <= (if decide (p ∈ cd_indices c) then weight_of (cd_backends c) p else 0) <= set_weight c).
    { case_decide as Hp; [| lia]. pose proof (weight_of_pos c Hc p Hp). split; [lia |]. unfold set_weight.
      apply (sum_over_term (weight_of (cd_backends c))); [| done]. intros y Hy. pose proof (weight_of_pos c Hc y Hy). lia. }
    destruct (decide (p = q)); lia.
Qed.

Lemma rr_config k rr bs bs' : same_config bs bs' -> rr_ok k rr bs -> rr_ok k rr bs'.
Proof.
  intros Hs (Hn & Hl & Hrl & Hrs & B & HB & Hr). rewrite (same_config_length _ _ Hs) in *. rewrite (same_config_weight _ _ Hs) in Hr.
  split; [done |]. split; [done |]. split; [done |]. split; [done |]. by exists B.
Qed.

Lemma rr_rebuild j k rr bs bs' : rr_ok j rr bs -> room k bs' -> rr_ok k (round_robin_rebuild rr bs') bs'.
Proof. intros (Hn & _) Hr. split; [done |]. split; [apply Hr | by apply running_zero]. Qed.

Lemma same_but_time_refl bs : same_but_time bs bs.
Proof. done. Qed.

Lemma view_indices c p : view_ok c -> p ∈ cd_indices c -> exists b, cd_backends c !! p = Some b /\ backend_ok b.
Proof.
  intros Hv Hp. pose proof (co_range _ (vo_candidates _ Hv)) as Hr. rewrite Forall_forall in Hr.
  destruct (lookup_lt_is_Some_2 _ _ (Hr p Hp)) as [b Hb]. exists b. split; [done |].
  pose proof (vo_backends _ Hv) as Hb'. rewrite Forall_forall in Hb'. by eapply Hb', list_elem_of_lookup_2.
Qed.

Lemma view_not_empty c : view_ok c -> is_empty c = false.
Proof. intros Hv. apply not_empty, Hv. Qed.

Lemma backends_counts metric bs : Forall backend_ok bs -> counts_ok (count_of metric) bs.
Proof. intros Hf. eapply Forall_impl; [exact Hf |]. intros b (H1 & H2 & _). destruct metric; cbn; lia. Qed.

(** ** Random *)

Lemma choose_spec `{RL : RandLaws} rng c : view_ok c -> exists rng' q, choose c rng = Val (rng', Some q) /\ q ∈ cd_indices c.
Proof.
  intros Hv. unfold choose. rewrite (view_not_empty c Hv).
  assert (Hlen : (0 < len c)%nat) by (unfold len; pose proof (vo_some _ Hv); destruct (cd_indices c); [done | cbn; lia]).
  pose proof (law_choose_index rng (len c) Hlen) as Hi. destruct (choose_index rng (len c)) as [i rng']. cbn [fst] in Hi.
  destruct (lookup_lt_is_Some_2 (cd_indices c) i Hi) as [q Hq]. rewrite (get_spec c (vo_candidates _ Hv) i q Hq).
  exists rng', q. split; [done | by eapply list_elem_of_lookup_2].
Qed.

Lemma draws_elem l p : p ∈ draws l -> p ∈ l.*1.
Proof.
  induction l as [| [x b] l IH]; cbn [draws fmap list_fmap fst]; [by intros ?%not_elem_of_nil |].
  intros [[-> _]%elem_of_replicate | Hd]%elem_of_app; [left | right; by apply IH].
Qed.

Lemma random_next_ok `{RL : RandLaws} rng c : view_ok c ->
  exists rng' q, random_next rng c = Val (rng', Some q) /\ q ∈ cd_indices c.
Proof.
  intros Hv. pose proof (vo_candidates _ Hv) as Hc. destruct (iter_spec c Hc) as (l & Hl & Hps & _).
  assert (Hfall : weighted_index rng c = Val (rng, None) -> exists rng' q, random_next rng c = Val (rng', Some q) /\ q ∈ cd_indices c).
  { intros Hw. destruct (choose_spec rng c Hv) as (rng' & q & Hq & Hin). exists rng', q. split; [| done].
    unfold random_next. rewrite Hw. cbn [mbind outcome_bind]. rewrite Hq. cbn [mbind outcome_bind].
    rewrite debug_assert_true; [done |]. pose proof (vo_some _ Hv). unfold len. by destruct (cd_indices c). }
  unfold weighted_index in Hfall. rewrite (view_not_empty c Hv), Hl in Hfall. cbn [mbind outcome_bind] in Hfall.
  destruct (random_total l 0) as [total |] eqn:Et; [| by apply Hfall].
  destruct (Z.eqb_spec total 0) as [-> | Hne]; [by apply Hfall |]. clear Hfall.
  destruct (random_total_Some l 0 total Et ltac:(unfold i32_ok, I32_MIN, I32_MAX; lia)) as (Hf & Htot & _).
  rewrite <- (draws_length l Hf) in Htot. destruct (random_next_draw rng c l total Hc Hl Et ltac:(lia)) as (-> & Hlt).
  destruct (lookup_lt_is_Some_2 _ _ Hlt) as [q Hq]. rewrite Hq. eexists _, q. split; [done |].
  rewrite <- Hps. by eapply draws_elem, list_elem_of_lookup_2.
Qed.

(** ** Connection times *)

Lemma same_but_time_lookup bs bs' p b : same_but_time bs bs' -> bs !! p = Some b -> exists b', bs' !! p = Some b' /\ settled b' = settled b.
Proof.
  intros Hs Hb. assert (H : (settled <$> bs') !! p = Some (settled b)) by (rewrite <- Hs; by apply list_lookup_fmap_Some_2).
  apply list_lookup_fmap_Some in H as (b' & -> & Hb'). by exists b'.
Qed.

Lemma same_but_time_length bs bs' : same_but_time bs bs' -> length bs = length bs'.
Proof. intros Hs. by rewrite <- (length_fmap settled), Hs, length_fmap. Qed.

Lemma settled_fields b b' : settled b = settled b' ->
  sticky_id b = sticky_id b' /\ backend_id b = backend_id b' /\ address b = address b' /\ b_status b = b_status b' /\
  retry_policy b = retry_policy b' /\ active_connections b = active_connections b' /\ active_requests b = active_requests b' /\
  failures b = failures b' /\ load_balancing_parameters b = load_balancing_parameters b' /\ backup b = backup b' /\
  health b = health b' /\ unix_path b = unix_path b'.
Proof. destruct b, b'. by intros [= -> -> -> -> -> -> -> -> -> -> -> ->]. Qed.

Lemma settled_weight b b' : settled b = settled b' -> backend_weight b = backend_weight b'.
Proof. intros H. apply settled_fields in H as (_ & _ & _ & _ & _ & _ & _ & _ & H & _). unfold backend_weight. by rewrite H. Qed.

Lemma settled_ok b b' : settled b = settled b' -> backend_ok b -> backend_ok b'.
Proof.
  intros H. pose proof (settled_weight _ _ H) as Hw. apply settled_fields in H as (_ & _ & _ & _ & _ & Ha & Hr & _).
  unfold backend_ok. by rewrite Ha, Hr, Hw.
Qed.

Lemma same_but_time_ok bs bs' : same_but_time bs bs' -> Forall backend_ok bs -> Forall backend_ok bs'.
Proof.
  intros Hs. rewrite !Forall_lookup. intros Hf p b' Hb'. destruct (same_but_time_lookup bs' bs p b' (eq_sym Hs) Hb') as (b & Hb & He).
  eapply settled_ok; [exact He | by eapply Hf].
Qed.

Section Costs.
Context (f64_exp : f64 -> f64).

Lemma cost_at_spec bs p now : Forall backend_ok bs -> (p < length bs)%nat ->
  exists bs' cost, cost_at f64_exp bs p now = Val (bs', cost) /\ same_but_time bs bs'.
Proof.
  intros Hf Hp. destruct (lookup_lt_is_Some_2 _ _ Hp) as [b Hb]. rewrite Forall_forall in Hf.
  destruct (Hf b ltac:(by eapply list_elem_of_lookup_2)) as ([_ Ha] & _). unfold cost_at. rewrite (index_Some _ _ _ Hb).
  cbn [mbind outcome_bind]. unfold peak_ewma_connection, ewma_get.
  rewrite (debug_assert_true (active_connections b <? USIZE_MAX)) by by apply Z.ltb_lt. cbn [mbind outcome_bind].
  eexists _, _. split; [done |]. unfold same_but_time. rewrite list_fmap_insert. symmetry. apply list_insert_id.
  change (settled (with_time b _)) with (settled b). by apply list_lookup_fmap_Some_2.
Qed.

Lemma cmp_cost_spec c1 w1 c2 w2 : 1 <= w1 -> 1 <= w2 -> exists o, cmp_cost_per_weight c1 w1 c2 w2 = Val o.
Proof. intros H1 H2. unfold cmp_cost_per_weight. rewrite debug_assert_true by lia. by eexists. Qed.

Lemma least_cost_spec ps now : forall bs best, Forall backend_ok bs -> Forall (fun p => (p < length bs)%nat) ps ->
  (forall x w q, best = Some (x, w, q) -> 1 <= w) -> ps <> [] \/ best <> None ->
  exists bs' q, least_cost f64_exp bs ps now best = Val (bs', Some q) /\ same_but_time bs bs' /\
    (q ∈ ps \/ exists x w, best = Some (x, w, q)).
Proof.
  induction ps as [| p ps IH]; intros bs best Hf Hr Hw Hne; cbn [least_cost].
  { destruct best as [[[x w] q] |]; [| naive_solver]. exists bs, q. split; [done |]. split; [done |]. right. by eexists _, _. }
  apply Forall_cons in Hr as [Hp Hr]. destruct (cost_at_spec bs p now Hf Hp) as (bs1 & cost & -> & Hs). cbn [mbind outcome_bind].
  pose proof (same_but_time_length _ _ Hs) as Hlen. destruct (lookup_lt_is_Some_2 bs1 p ltac:(lia)) as [b Hb].
  rewrite (index_Some _ _ _ Hb). cbn [mbind outcome_bind]. pose proof (backend_weight_pos b) as Hbw.
  assert (Hkeep : exists best1 : f64 * Z * nat, (match best with
    | None => Val (cost, backend_weight b, p)
    | Some (cost1, weight1, p1) => o ← cmp_cost_per_weight cost1 weight1 cost (backend_weight b);
        Val (if o is Some (Lt | Eq) then (cost1, weight1, p1) else (cost, backend_weight b, p))
    end : checked (f64 * Z * nat)) = Val best1 /\ 1 <= best1.1.2 /\ (best1.2 = p \/ exists x w, best = Some (x, w, best1.2))).
  { destruct best as [[[x w] q] |]; [| eexists; split; [done |]; split; [done | by left]].
    destruct (cmp_cost_spec x w cost (backend_weight b) (Hw _ _ _ eq_refl) Hbw) as [o ->]. eexists. split; [done |].
    destruct o as [[] |]; cbn; (split; [first [done | by eapply Hw] |]); first [by left | right; by eexists _, _]. }
  destruct Hkeep as ([[x1 w1] q1] & Hk & Hw1 & Hq1). rewrite Hk. cbn [mbind outcome_bind].
  destruct (IH bs1 (Some (x1, w1, q1))) as (bs' & q & -> & Hs' & Hq).
  - by eapply same_but_time_ok.
  - by rewrite <- Hlen.
  - by intros ? ? ? [= <- <- <-].
  - by right.
  - exists bs', q. split; [done |]. split; [by transitivity (settled <$> bs1) |].
    destruct Hq as [Hq | (x & w & [= -> -> ->])]; [left; by right |]. cbn in Hq1. destruct Hq1 as [-> | ?]; [left; left | by right].
Qed.

Lemma least_loaded_ok metric c : view_ok c -> exists bs' q,
  least_loaded_next f64_exp metric c = Val (bs', Some q) /\ q ∈ cd_indices c /\ same_but_time (cd_backends c) bs'.
Proof.
  intros Hv. pose proof (vo_candidates _ Hv) as Hc. unfold least_loaded_next. rewrite (view_not_empty c Hv).
  pose proof (fun m => backends_counts m _ (vo_backends _ Hv)) as Hcount.
  destruct metric.
  - destruct (least_count_spec c Hc (vo_ring _ Hv) _ (Hcount Connections) (vo_some _ Hv)) as (q & Hq & [Hin _]).
    cbn [count_of] in Hq. rewrite Hq. by exists (cd_backends c), q.
  - destruct (least_count_spec c Hc (vo_ring _ Hv) _ (Hcount Requests) (vo_some _ Hv)) as (q & Hq & [Hin _]).
    cbn [count_of] in Hq. rewrite Hq. by exists (cd_backends c), q.
  - destruct (least_cost_spec (cd_indices c) (cd_now c) (cd_backends c) None) as (bs' & q & -> & Hs & Hq);
      [apply Hv | apply Hc | done | left; apply Hv |]. exists bs', q. split; [done |]. split; [| done].
    destruct Hq as [? | (? & ? & ?)]; done.
Qed.

Lemma compare_ok metric c i j p q : view_ok c -> cd_indices c !! i = Some p -> cd_indices c !! j = Some q ->
  exists bs' o, compare f64_exp metric c i j = Val (bs', o) /\ same_but_time (cd_backends c) bs'.
Proof.
  intros Hv Hi Hj. pose proof (vo_candidates _ Hv) as Hc. destruct (decide (metric = ConnectionTime)) as [-> | Hm].
  - destruct (position_spec c Hc i p Hi) as (b1 & Hp1 & Hb1 & _), (position_spec c Hc j q Hj) as (b2 & Hp2 & Hb2 & _).
    unfold compare. rewrite Hp1. cbn [mbind outcome_bind].
    destruct (cost_at_spec (cd_backends c) p (cd_now c) (vo_backends _ Hv)) as (bs1 & x1 & -> & Hs1); [by eapply lookup_lt_Some |].
    cbn [mbind outcome_bind]. rewrite Hp2. cbn [mbind outcome_bind].
    destruct (cost_at_spec bs1 q (cd_now c)) as (bs2 & x2 & -> & Hs2).
    { eapply same_but_time_ok; [exact Hs1 | apply Hv]. }
    { rewrite <- (same_but_time_length _ _ Hs1). by eapply lookup_lt_Some. }
    cbn [mbind outcome_bind]. rewrite (weight_at_spec c Hc i p Hi), (weight_at_spec c Hc j q Hj). cbn [mbind outcome_bind].
    destruct (cmp_cost_spec x1 (weight_of (cd_backends c) p) x2 (weight_of (cd_backends c) q)) as [o ->].
    { apply (weight_of_pos c Hc). by eapply list_elem_of_lookup_2. }
    { apply (weight_of_pos c Hc). by eapply list_elem_of_lookup_2. }
    exists bs2, o. split; [done |]. by transitivity (settled <$> bs1).
  - eexists _, _. split; [| apply same_but_time_refl].
    exact (compare_spec f64_exp c Hc (vo_ring _ Hv) metric i j p q Hm (backends_counts metric _ (vo_backends _ Hv)) Hi Hj).
Qed.

Lemma power_of_two_ok `{RL : RandLaws} metric rng c : view_ok c -> exists rng' bs' q,
  power_of_two_next f64_exp metric rng c = Val (rng', bs', Some q) /\ q ∈ cd_indices c /\ same_but_time (cd_backends c) bs'.
Proof.
  intros Hv. destruct (power_of_two_run f64_exp c (vo_candidates _ Hv) metric rng (same_but_time (cd_backends c)) (fun _ _ => True))
    as (rng' & bs' & q & Hrun & Hq & Hs & _); [apply Hv | done | | by exists rng', bs', q].
  intros i j p q Hi Hj. destruct (compare_ok metric c i j p q Hv Hi Hj) as (bs' & o & Hcmp & Hs). by exists bs', o.
Qed.

End Costs.

(** ** Tables and scores *)

Lemma same_config_address_weight bs : forall bs' a, same_config bs bs' -> address_weight bs a = address_weight bs' a.
Proof.
  induction bs as [| b bs IH]; intros [| b' bs'] a [H1 H2]; try done. injection H1 as Ha H1. injection H2 as Hw H2.
  cbn [address_weight]. by rewrite Ha, Hw, (IH bs' a).
Qed.

Lemma table_config g bs bs' : same_config bs bs' -> table_ok g bs -> table_ok g bs'.
Proof.
  intros Hs [H1 H2 H3 H4 H5]. split; [done | done | | done |].
  - intros a. rewrite H3. by destruct Hs as [-> _].
  - intros i a Ha. rewrite <- (same_config_address_weight _ _ a Hs).
    rewrite <- (sum_over_ext (address_weight bs)); [by apply H5 | intros x _; by apply same_config_address_weight].
Qed.

Definition maglev_ok (k : nat) (g : Maglev) (bs : list Backend) : Prop :=
  size_ok g /\ (bs <> [] -> table_ok g bs) /\ rr_ok k (mg_round_robin g) bs.

Definition rendezvous_ok (k : nat) (r : Rendezvous) (bs : list Backend) : Prop :=
  hrw_seed r = DEFAULT_HASH_SEED /\ rr_ok k (hrw_round_robin r) bs.

Lemma rr_less k rr bs : rr_ok (S k) rr bs -> rr_ok k rr bs.
Proof. intros (H1 & H2 & H3). split; [done |]. split; [done |]. apply (running_le k (S k)); [lia | done]. Qed.

Lemma same_config_nil bs bs' : same_config bs bs' -> bs' <> [] -> bs <> [].
Proof. intros [H _] Hne ->. by destruct bs'. Qed.

Lemma maglev_next_ok k g key c : view_ok c -> (forall z, key = Some z -> 0 <= z) -> maglev_ok (S k) g (cd_backends c) ->
  exists g' q, maglev_next g key c = Val (g', Some q) /\ q ∈ cd_indices c /\ maglev_ok k g' (cd_backends c).
Proof.
  intros Hv Hkey (Hsz & Htab & Hrr). pose proof (vo_candidates _ Hv) as Hc.
  assert (Hg : table_ok g (cd_backends c)).
  { apply Htab. intros Hn. pose proof (vo_some _ Hv) as Hne. pose proof (co_range _ Hc) as Hr. rewrite Hn in Hr.
    destruct (cd_indices c) as [| p ps]; [done |]. apply Forall_cons in Hr as [Hr _]. cbn in Hr. lia. }
  assert (Hfall : exists rr q, round_robin_next (mg_round_robin g) c = Val (rr, Some q) /\ q ∈ cd_indices c /\
    maglev_ok k (mkMaglev (mg_seed g) (mg_size g) (mg_table g) (mg_addrs g) rr) (cd_backends c)).
  { destruct (rr_next k _ c Hv Hrr) as (rr & q & Hq & Hin & Hok). exists rr, q. split; [done |]. split; [done |].
    split; [done |]. split; [intros _; by destruct Hg | done]. }
  destruct Hfall as (rr & q & Hq & Hin & Hok). unfold maglev_next. destruct key as [key |].
  2: { rewrite Hq. cbn [mbind outcome_bind]. by eexists _, q. }
  destruct (iter_spec c Hc) as (l & Hl & _ & Hel). rewrite (view_not_empty c Hv), Hl. cbn [mbind outcome_bind].
  pose proof (m_pos _ (is_prime_true _ (proj1 Hsz))) as Hm2. pose proof (tb_length _ _ Hg) as Htl.
  assert (Hz : (length (mg_table g) =? 0)%nat = false) by (apply Nat.eqb_neq; lia).
  rewrite Hz. cbn [mbind outcome_bind]. rewrite Hz. specialize (Hkey key eq_refl).
  pose proof (Z.mod_pos_bound key (mg_size g) ltac:(lia)) as Hs.
  rewrite (debug_assert_true (key mod mg_size g <? mg_size g)) by (apply Z.ltb_lt; lia). cbn [mbind outcome_bind].
  rewrite (debug_assert_true (Z.of_nat (length (mg_table g)) =? mg_size g)) by (apply Z.eqb_eq; lia). cbn [mbind outcome_bind].
  rewrite (probe_spec g _ Hg Hm2). cbn [mbind outcome_bind]. destruct (first_hit _ _) as [p |] eqn:E.
  - exists g, p. split; [done |]. apply first_hit_Some in E as [b Hb]. apply Hel in Hb as [Hp _]. split; [done |].
    split; [done |]. split; [done | by apply rr_less].
  - rewrite Hq. cbn [mbind outcome_bind]. by eexists _, q.
Qed.

Lemma maglev_rebuild_ok j k g bs bs' : maglev_ok j g bs -> room k bs' -> Forall backend_ok bs' ->
  exists g', maglev_rebuild g bs' = Val g' /\ maglev_ok k g' bs'.
Proof.
  intros (Hsz & _ & Hrr) Hr Hb. pose proof (rr_rebuild j k _ _ _ Hrr Hr) as Hrr'. unfold maglev_rebuild.
  destruct bs' as [| b bs'].
  { unfold rebuild_from. cbn [length Nat.eqb orb mbind outcome_bind]. eexists. split; [done |]. split; [done |].
    split; [done |]. done. }
  destruct (rebuild_spec g (b :: bs') Hsz) as (table & addrs & -> & Hok); [done | |].
  { split; [apply Hr |]. eapply Forall_impl; [exact Hb |]. by intros x (_ & _ & Hx). }
  cbn [mbind outcome_bind]. eexists. split; [done |]. split; [done |]. split; [intros _; by destruct Hok | done].
Qed.

(** ** The laws *)

Section Instances.
Context `{LM : Libm} `{RL : RandLaws}.

Global Instance round_robin_laws : PolicyLaws RoundRobin.
Proof.
  refine {| policy_ok := rr_ok |}.
  - intros k p bs bs'. apply rr_config.
  - intros k p key c Hv _ Hp. destruct (rr_next k p c Hv Hp) as (p' & q & Hrun & Hq & Hok).
    exists p', (cd_backends c), q. cbn. by rewrite Hrun.
  - intros j k p bs bs' Hp Hr _. eexists. split; [done |]. by eapply rr_rebuild.
Defined.

Global Instance random_laws : PolicyLaws Random.
Proof.
  refine {| policy_ok := fun _ _ _ => True |}.
  - done.
  - intros k p key c Hv _ _. destruct (random_next_ok (rd_rng p) c Hv) as (rng' & q & Hrun & Hq).
    exists (mkRandom rng'), (cd_backends c), q. cbn. by rewrite Hrun.
  - intros j k p bs bs' _ _ _. by exists p.
Defined.

Global Instance least_loaded_laws : PolicyLaws LeastLoaded.
Proof.
  refine {| policy_ok := fun _ _ _ => True |}.
  - done.
  - intros k p key c Hv _ _. destruct (least_loaded_ok f64_exp (ll_metric p) c Hv) as (bs' & q & Hrun & Hq & Hs).
    exists p, bs', q. cbn. by rewrite Hrun.
  - intros j k p bs bs' _ _ _. by exists p.
Defined.

Global Instance power_of_two_laws : PolicyLaws PowerOfTwo.
Proof.
  refine {| policy_ok := fun _ _ _ => True |}.
  - done.
  - intros k p key c Hv _ _. destruct (power_of_two_ok f64_exp (p2_metric p) (p2_rng p) c Hv) as (rng' & bs' & q & Hrun & Hq & Hs).
    exists (mkPowerOfTwo (p2_metric p) rng'), bs', q. cbn. by rewrite Hrun.
  - intros j k p bs bs' _ _ _. by exists p.
Defined.

Global Instance rendezvous_laws : PolicyLaws Rendezvous.
Proof.
  refine {| policy_ok := rendezvous_ok |}.
  - intros k p bs bs' Hs [H1 H2]. split; [done | by eapply rr_config].
  - intros k [seed rr] key c Hv Hk [Hseed Hrr]. cbn in Hseed. subst seed. cbn [next_available_backend rendezvous_policy].
    destruct key as [key |].
    + destruct (iter_spec c (vo_candidates _ Hv)) as (l & Hl & Hps & Hel). destruct Hk as [_ Hk].
      destruct (rendezvous_next_spec f64_ln DEFAULT_HASH_SEED key rr c l Hl) as (q & b & Hrun & Hq & _).
      * apply Forall_forall. intros [p b] [_ Hb]%Hel. rewrite Forall_forall in Hk. by eapply Hk, list_elem_of_lookup_2.
      * intros ->. by pose proof (vo_some _ Hv) as Hne; rewrite <- Hps in Hne.
      * eexists _, _, q. rewrite Hrun. split; [done |]. split; [by apply Hel in Hq as [? _] |]. split; [done |].
        split; [done | by apply rr_less].
    + destruct (rr_next k _ c Hv Hrr) as (rr' & q & Hrun & Hq & Hok). cbn [rendezvous_next hrw_round_robin hrw_seed] in *.
      rewrite Hrun. by eexists _, _, q.
  - intros j k p bs bs' [H1 H2] Hr _. eexists. split; [done |]. split; [done | by eapply rr_rebuild].
Defined.

Global Instance maglev_laws : PolicyLaws Maglev.
Proof.
  refine {| policy_ok := maglev_ok |}.
  - intros k p bs bs' Hs (H1 & H2 & H3). split; [done |]. split; [| by eapply rr_config].
    intros Hne. eapply table_config; [exact Hs |]. apply H2. by eapply same_config_nil.
  - intros k p key c Hv Hk Hp. destruct (maglev_next_ok k p key c Hv) as (p' & q & Hrun & Hq & Hok); [| done |].
    + intros z ->. apply Hk.
    + exists p', (cd_backends c), q. cbn. by rewrite Hrun.
  - intros j k p bs bs' Hp Hr Hb. by eapply maglev_rebuild_ok.
Defined.

Definition boxed_ok (k : nat) (p : Policy) (bs : list Backend) : Prop :=
  match p with
  | ByRoundRobin p => policy_ok k p bs
  | ByRandom p => policy_ok k p bs
  | ByLeastLoaded p => policy_ok k p bs
  | ByPowerOfTwo p => policy_ok k p bs
  | ByRendezvous p => policy_ok k p bs
  | ByMaglev p => policy_ok k p bs
  end.

Global Instance boxed_laws : PolicyLaws Policy.
Proof.
  refine {| policy_ok := boxed_ok |}.
  - intros k [] bs bs'; apply law_config.
  - intros k p key c Hv Hk Hp. destruct p as [p | p | p | p | p | p]; cbn [boxed_ok] in Hp;
      destruct (law_next k p key c Hv Hk Hp) as (p' & bs' & q & Hrun & Hq & Hs & Hok);
      cbn [next_available_backend boxed_policy]; unfold boxed; rewrite Hrun; by eexists _, bs', q.
  - intros j k p bs bs' Hp Hr Hb. destruct p as [p | p | p | p | p | p]; cbn [boxed_ok] in Hp;
      destruct (law_rebuild j k p bs bs' Hp Hr Hb) as (p' & Hrun & Hok);
      cbn [rebuild boxed_policy]; unfold boxed_rebuild; rewrite Hrun; by eexists _.
Defined.

End Instances.
