(* ===== verification/BackendList.v ===== *)
(** * The backends of a cluster

    [BackendList] of [lib/src/backends.rs]: registration, the rings that join
    the backends of one address, shuffle sharding, the tiers of a selection and
    the choice of the policy.  A backend is named by its position in the list,
    where the code holds an [Rc]; the backends a removal retires are returned.
    Capacity reservations, logs and counters are left out. *)

From Stdlib Require Import SpecFloat.
From stdpp Require Import sorting.
From S2P Require Import Prelude Retry ProxyProtocol Backend AffinityHash LoadBalancing Maglev Policies.

Inductive ClusterAvailability := Available | AllDown.
Global Instance cluster_availability_dec : EqDecision ClusterAvailability.
Proof. solve_decision. Defined.

Inductive ShardOutcome := Unsharded | InShard | SpilledOver | Exhausted.
Global Instance shard_outcome_dec : EqDecision ShardOutcome.
Proof. solve_decision. Defined.

Inductive LoadBalancingAlgorithms := ALG_ROUND_ROBIN | ALG_RANDOM | ALG_LEAST_LOADED | ALG_POWER_OF_TWO | ALG_HRW | ALG_MAGLEV.

(** [f64::total_cmp]: the order of the bits, read as signed integers, as a key
    of class, exponent and mantissa; the NaN of a [spec_float] is taken as
    positive. *)
Definition total_key (x : f64) : Z * Z * Z :=
  match x with
  | S754_nan => (3, 0, 0)
  | S754_infinity false => (2, 0, 0)
  | S754_finite false m e => (1, e, Z.pos m)
  | S754_zero false => (0, 0, 0)
  | S754_zero true => (-1, 0, 0)
  | S754_finite true m e => (-2, - e, Z.neg m)
  | S754_infinity true => (-3, 0, 0)
  end.

Definition total_cmp (a b : f64) : comparison :=
  let '(c1, e1, m1) := total_key a in
  let '(c2, e2, m2) := total_key b in
  match c1 ?= c2 with
  | Eq => match e1 ?= e2 with Eq => m1 ?= m2 | o => o end
  | o => o
  end.

(** [b.0.total_cmp(&a.0).then(a.1.cmp(&b.1))], at most equal. *)
Definition by_rank (a b : f64 * nat) : Prop :=
  match total_cmp b.1 a.1 with Lt => True | Eq => (a.2 <= b.2)%nat | Gt => False end.
Global Instance by_rank_dec a b : Decision (by_rank a b).
Proof. unfold by_rank. destruct (total_cmp _ _); apply _. Defined.

(** ** Rings *)

(** [groups.entry(address).or_default().push(index)], over the list. *)
Fixpoint address_groups (bs : list Backend) (index : nat) (groups : gmap SocketAddr (list nat)) : gmap SocketAddr (list nat) :=
  match bs with
  | [] => groups
  | b :: bs => address_groups bs (S index) (<[address b := default [] (groups !! address b) ++ [index]]> groups)
  end.

(** [sibling_ring[index] = group[(rank + 1) % group.len()]], over a group. *)
Fixpoint link_group (group rest : list nat) (rank : nat) (ring : list nat) : checked (list nat) :=
  match rest with
  | [] => Val ring
  | position :: rest =>
      next ← index group ((rank + 1) mod length group);
      _ ← index ring position;
      link_group group rest (S rank) (<[position := next]> ring)
  end.

(** The loop over the groups: [shares_address] and the ring. *)
Fixpoint link_groups (groups : list (list nat)) (shares : bool) (ring : list nat) : checked (bool * list nat) :=
  match groups with
  | [] => Val (shares, ring)
  | group :: groups =>
      if (1 <? length group)%nat then ring ← link_group group group 0 ring; link_groups groups true ring
      else link_groups groups shares ring
  end.

(** [while represents && sibling != index] *)
Fixpoint represents_walk (fuel : nat) (bs : list Backend) (ring : list nat) (b : Backend) (start : nat)
    (represents : bool) (sibling : nat) : checked bool :=
  match fuel with
  | O => Panic
  | S fuel =>
      if represents && negb (sibling =? start)%nat then
        other ← index bs sibling;
        next ← index ring sibling;
        represents_walk fuel bs ring b start (backup other || negb (outranks_at_address other sibling b start)) next
      else Val represents
  end.

Fixpoint representatives (all bs : list Backend) (ring : list nat) (position : nat) : checked (list bool) :=
  match bs with
  | [] => Val []
  | b :: bs =>
      sibling ← index ring position;
      r ← represents_walk (S (length ring)) all ring b position (negb (backup b)) sibling;
      rest ← representatives all bs ring (S position);
      Val (r :: rest)
  end.

(** ** Candidates *)

(** The positions of the backends [keep] accepts. *)
Fixpoint positions_where (keep : Backend -> bool) (bs : list Backend) (position : nat) : list nat :=
  match bs with
  | [] => []
  | b :: bs => if keep b then position :: positions_where keep bs (S position) else positions_where keep bs (S position)
  end.

(** [binary_search] in a sorted list. *)
Definition found (l : list nat) (p : nat) : bool := bool_decide (p ∈ l).

(** [while !outranked && sibling != position] *)
Fixpoint outranked_walk (fuel : nat) (bs : list Backend) (ring cands : list nat) (b : Backend) (start : nat)
    (outranked : bool) (sibling : nat) : checked bool :=
  match fuel with
  | O => Panic
  | S fuel =>
      if negb outranked && negb (sibling =? start)%nat then
        other ← index bs sibling;
        next ← index ring sibling;
        outranked_walk fuel bs ring cands b start (found cands sibling && outranks_at_address other sibling b start) next
      else Val outranked
  end.

Fixpoint collapse_loop (bs : list Backend) (ring cands todo : list nat) : checked (list nat) :=
  match todo with
  | [] => Val []
  | p :: todo =>
      sibling ← index ring p;
      outranked ← (if (sibling =? p)%nat then Val false
                   else b ← index bs p; outranked_walk (S (length ring)) bs ring cands b p false sibling);
      rest ← collapse_loop bs ring cands todo;
      Val (if outranked : bool then rest else p :: rest)
  end.

(** ** The list *)

Section List.
Context `{LM : Libm} `{RC : RandCrate}.

Record BackendList := mkBackendList {
  backends : list Backend;
  next_id : Z;
  load_balancing : Policy;
  fail_open_warned : bool;
  availability : ClusterAvailability;
  candidates : list nat;
  shuffle_sharding : option ShuffleSharding;
  shard_scores : list (f64 * nat);
  shard : list nat;
  shares_address : bool;
  sibling_ring : list nat;
  shard_representative : list bool;
  shard_addresses : nat;
  collapsed : list nat;
}.

Definition list_with_seed (seed : Z) : BackendList :=
  mkBackendList [] 0 (ByRandom (random_with_seed seed)) false Available [] None [] [] false [] [] 0 [].

(** Updates of the fields. *)
Definition with_backends (l : BackendList) (bs : list Backend) (id : Z) : BackendList :=
  mkBackendList bs id (load_balancing l) (fail_open_warned l) (availability l) (candidates l) (shuffle_sharding l)
    (shard_scores l) (shard l) (shares_address l) (sibling_ring l) (shard_representative l) (shard_addresses l) (collapsed l).
Definition with_policy (l : BackendList) (p : Policy) : BackendList :=
  mkBackendList (backends l) (next_id l) p (fail_open_warned l) (availability l) (candidates l) (shuffle_sharding l)
    (shard_scores l) (shard l) (shares_address l) (sibling_ring l) (shard_representative l) (shard_addresses l) (collapsed l).
Definition with_warned (l : BackendList) (warned : bool) : BackendList :=
  mkBackendList (backends l) (next_id l) (load_balancing l) warned (availability l) (candidates l) (shuffle_sharding l)
    (shard_scores l) (shard l) (shares_address l) (sibling_ring l) (shard_representative l) (shard_addresses l) (collapsed l).
Definition with_availability (l : BackendList) (a : ClusterAvailability) : BackendList :=
  mkBackendList (backends l) (next_id l) (load_balancing l) (fail_open_warned l) a (candidates l) (shuffle_sharding l)
    (shard_scores l) (shard l) (shares_address l) (sibling_ring l) (shard_representative l) (shard_addresses l) (collapsed l).
Definition with_candidates (l : BackendList) (cands coll : list nat) : BackendList :=
  mkBackendList (backends l) (next_id l) (load_balancing l) (fail_open_warned l) (availability l) cands (shuffle_sharding l)
    (shard_scores l) (shard l) (shares_address l) (sibling_ring l) (shard_representative l) (shard_addresses l) coll.
Definition with_sharding (l : BackendList) (s : option ShuffleSharding) : BackendList :=
  mkBackendList (backends l) (next_id l) (load_balancing l) (fail_open_warned l) (availability l) (candidates l) s
    (shard_scores l) (shard l) (shares_address l) (sibling_ring l) (shard_representative l) (shard_addresses l) (collapsed l).
Definition with_shard (l : BackendList) (scores : list (f64 * nat)) (sh : list nat) : BackendList :=
  mkBackendList (backends l) (next_id l) (load_balancing l) (fail_open_warned l) (availability l) (candidates l) (shuffle_sharding l)
    scores sh (shares_address l) (sibling_ring l) (shard_representative l) (shard_addresses l) (collapsed l).
Definition with_siblings_state (l : BackendList) (shares : bool) (ring : list nat) (reps : list bool) (n : nat) : BackendList :=
  mkBackendList (backends l) (next_id l) (load_balancing l) (fail_open_warned l) (availability l) (candidates l) (shuffle_sharding l)
    (shard_scores l) (shard l) shares ring reps n (collapsed l).

(** ** Lookups *)

Definition same_identity (id : list Z) (addr : SocketAddr) (b : Backend) : bool :=
  bool_decide (address b = addr) && bool_decide (backend_id b = id).

Fixpoint find_position (f : Backend -> bool) (bs : list Backend) (position : nat) : option nat :=
  match bs with
  | [] => None
  | b :: bs => if f b then Some position else find_position f bs (S position)
  end.

Definition has_backend (l : BackendList) (addr : SocketAddr) : bool :=
  existsb (fun b => bool_decide (address b = addr)) (backends l).
Definition find_backend_by_identity (l : BackendList) (id : list Z) (addr : SocketAddr) : option nat :=
  find_position (fun b => bool_decide (backend_id b = id) && bool_decide (address b = addr)) (backends l) 0.
Definition find_backend (l : BackendList) (addr : SocketAddr) : option nat :=
  find_position (fun b => bool_decide (address b = addr)) (backends l) 0.
Definition find_sticky (l : BackendList) (sticky : list Z) (now : Z) : option nat :=
  p ← find_position (fun b => bool_decide (sticky_id b = Some sticky)) (backends l) 0;
  b ← backends l !! p;
  if can_open b now then Some p else None.

Definition evaluate_availability (l : BackendList) : checked (nat * nat) :=
  let total := length (backends l) in
  let available := length (filter (fun b => is_available b = true) (backends l)) in
  _ ← debug_assert (available <=? total)%nat;
  Val (available, total).

Definition is_tier_candidate (b : Backend) (tier : bool) (now : Z) : bool := Bool.eqb (backup b) tier && can_open b now.

Definition available_backends (l : BackendList) (tier : bool) (now : Z) : list nat :=
  positions_where (fun b => is_tier_candidate b tier now) (backends l) 0.

(** ** Siblings *)

Definition count_true (l : list bool) : nat := length (filter (fun r => r = true) l).

Definition refresh_siblings (l : BackendList) : checked BackendList :=
  let groups := address_groups (backends l) 0 ∅ in
  '(shares, ring) ← link_groups (map_to_list groups).*2 false (seq 0 (length (backends l)));
  reps ← representatives (backends l) (backends l) ring 0;
  Val (with_siblings_state l shares ring reps (count_true reps)).

(** ** The sweep over the invariants *)

(** The ring is a permutation that joins backends of one address. *)
Fixpoint check_targets (bs : list Backend) (ring : list nat) (position : nat) (targeted : list bool) : checked unit :=
  match ring with
  | [] => Val tt
  | next :: ring =>
      t ← index targeted next;
      _ ← debug_assert (negb t);
      b ← index bs next;
      b' ← index bs position;
      _ ← debug_assert (bool_decide (address b = address b'));
      check_targets bs ring (S position) (<[next := true]> targeted)
  end.

(** One backend of the second loop: its ring's leader and whether it represents
    its address. *)
Definition check_position (bs : list Backend) (ring : list nat) (reps : list bool) (position : nat)
    (leaders : gmap SocketAddr nat) : checked (gmap SocketAddr nat) :=
  first ← index ring position;
  walk ← ring_walk (S (length ring)) ring position first;
  let leader := foldl Nat.min position walk in
  b ← index bs position;
  let entry := default leader (leaders !! address b) in
  _ ← debug_assert (entry =? leader)%nat;
  others ← resolve bs walk;
  let represents := foldl (fun r '(sibling, other) => r && (backup other || negb (outranks_at_address other sibling b position)))
                      (negb (backup b)) others in
  r ← index reps position;
  _ ← debug_assert (Bool.eqb r represents);
  Val (<[address b := entry]> leaders).

Fixpoint check_positions (bs : list Backend) (ring : list nat) (reps : list bool) (todo : list nat)
    (leaders : gmap SocketAddr nat) : checked (gmap SocketAddr nat) :=
  match todo with
  | [] => Val leaders
  | p :: todo => leaders ← check_position bs ring reps p leaders; check_positions bs ring reps todo leaders
  end.

(** The identities are distinct. *)
Fixpoint check_identities (bs : list Backend) : bool :=
  match bs with
  | [] => true
  | a :: bs => forallb (fun b => negb (bool_decide (address a = address b)) || negb (bool_decide (backend_id a = backend_id b))) bs
               && check_identities bs
  end.

Definition check_invariants (l : BackendList) : checked unit :=
  let n := length (backends l) in
  _ ← debug_assert (Z.of_nat n <=? next_id l);
  _ ← debug_assert (length (sibling_ring l) =? n)%nat;
  _ ← debug_assert (length (shard_representative l) =? n)%nat;
  _ ← check_targets (backends l) (sibling_ring l) 0 (replicate n false);
  leaders ← check_positions (backends l) (sibling_ring l) (shard_representative l) (seq 0 n) ∅;
  _ ← debug_assert (Bool.eqb (shares_address l) (size leaders <? n)%nat);
  _ ← debug_assert (shard_addresses l =? count_true (shard_representative l))%nat;
  debug_assert (check_identities (backends l)).

(** ** Registration *)

(** The update of a backend that is already there. *)
Definition update_backend (old new : Backend) : Backend :=
  mkBackend (sticky_id new) (backend_id old) (address old) (b_status old) (retry_policy old) (active_connections old)
    (active_requests old) (failures old) (load_balancing_parameters new) (backup new) (connection_time old) (health old)
    (unix_path new).

Definition clear_buffers (l : BackendList) : BackendList := with_shard (with_candidates l [] []) [] [].

Definition add_backend (l : BackendList) (b : Backend) : checked BackendList :=
  let existed := existsb (same_identity (backend_id b) (address b)) (backends l) in
  let len_before := length (backends l) in
  let next_id_before := next_id l in
  l ← match find_position (same_identity (backend_id b) (address b)) (backends l) 0 with
      | None => id ← u32_incr (next_id l); Val (with_backends l (backends l ++ [b]) id)
      | Some p => old ← index (backends l) p; Val (with_backends l (<[p := update_backend old b]> (backends l)) (next_id l))
      end;
  _ ← debug_assert (length (backends l) =? len_before + (if existed then 0 else 1))%nat;
  _ ← debug_assert (next_id l =? next_id_before + (if existed then 0 else 1));
  _ ← debug_assert (has_backend l (address b));
  p ← rebuild (load_balancing l) (backends l);
  l ← refresh_siblings (clear_buffers (with_policy l p));
  _ ← check_invariants l;
  Val l.

(** The list, the backends it retired, and whether there was one. *)
Definition remove_backend (l : BackendList) (id : list Z) (addr : SocketAddr) : checked (BackendList * list Backend * bool) :=
  let named b := bool_decide (backend_id b = id) && bool_decide (address b = addr) in
  let retired := set_closing <$> filter (fun b => named b = true) (backends l) in
  let removed := existsb named (backends l) in
  let len_before := length (backends l) in
  let l := with_backends l (filter (fun b => named b = false) (backends l)) (next_id l) in
  _ ← debug_assert (length (backends l) =? len_before - (if removed then 1 else 0))%nat;
  _ ← debug_assert (if find_backend_by_identity l id addr is None then true else false);
  l ← (if removed : bool then
         p ← rebuild (load_balancing l) (backends l);
         refresh_siblings (with_policy l p)
       else Val l);
  _ ← check_invariants l;
  Val (l, retired, removed).

Definition set_shuffle_sharding (l : BackendList) (s : option ShuffleSharding) : BackendList := with_sharding l s.

Definition set_load_balancing_policy (l : BackendList) (policy : LoadBalancingAlgorithms) (metric : option LoadMetric) (seed : Z) :
    checked BackendList :=
  p ← match policy with
      | ALG_ROUND_ROBIN => p ← rebuild round_robin_new (backends l); Val (ByRoundRobin p)
      | ALG_RANDOM => Val (ByRandom (random_with_seed seed))
      | ALG_LEAST_LOADED => Val (ByLeastLoaded (mkLeastLoaded (default Connections metric)))
      | ALG_POWER_OF_TWO => Val (ByPowerOfTwo (power_of_two_with_seed seed (default Connections metric)))
      | ALG_HRW => p ← rebuild rendezvous_new (backends l); Val (ByRendezvous p)
      | ALG_MAGLEV => g ← maglev_new; p ← rebuild g (backends l); Val (ByMaglev p)
      end;
  Val (with_policy l p).

(** ** Selection *)

(** The list with its candidates refilled, and how many they are. *)
Definition collect_candidates (l : BackendList) (keep : Backend -> bool) : checked (BackendList * nat) :=
  let cands := positions_where keep (backends l) 0 in
  _ ← debug_assert (length cands <=? length (backends l))%nat;
  _ ← debug_assert (strictly_increasing cands);
  Val (with_candidates l cands (collapsed l), length cands).

Definition retain_shard_candidates (l : BackendList) : BackendList * nat :=
  let cands := filter (fun p => found (shard l) p = true) (candidates l) in
  (with_candidates l cands (collapsed l), length cands).

Definition collapse_shared_addresses (l : BackendList) : checked BackendList :=
  if negb (shares_address l) || negb (length (sibling_ring l) =? length (backends l))%nat then Val l
  else
    kept ← collapse_loop (backends l) (sibling_ring l) (candidates l) (candidates l);
    let l := with_candidates l kept (candidates l) in
    _ ← debug_assert (length (candidates l) <=? length (collapsed l))%nat;
    _ ← debug_assert ((length (collapsed l) =? 0)%nat || negb (length (candidates l) =? 0)%nat);
    Val l.

(** The scores of the representatives. *)
Fixpoint score_loop (key : Z) (bs : list Backend) (reps : list bool) (synced : bool) (position : nat) :
    checked (list (f64 * nat)) :=
  match bs with
  | [] => Val []
  | b :: bs =>
      let represents := match reps !! position with
                        | Some r => if synced then r else negb (backup b)
                        | None => negb (backup b)
                        end in
      score ← (if represents : bool then s ← hrw_score f64_ln key b; Val [(s, position)] else Val []);
      rest ← score_loop key bs reps synced (S position);
      Val (score ++ rest)
  end.

(** The representatives with the primary backends of their addresses. *)
Fixpoint shard_members (bs : list Backend) (ring : list nat) (reps : list (f64 * nat)) : checked (list nat) :=
  match reps with
  | [] => Val []
  | (_, r) :: reps =>
      walk ← ring_walk (S (length ring)) ring r (default r (ring !! r));
      others ← resolve bs walk;
      rest ← shard_members bs ring reps;
      Val (r :: (filter (fun x => backup x.2 = false) others).*1 ++ rest)
  end.

Definition sort_unstable (l : list nat) : list nat := merge_sort le l.

(** [select_nth_unstable_by] puts the [k] best first, in an order the sort of
    the shard forgets. *)
Definition best_first (scores : list (f64 * nat)) : list (f64 * nat) := merge_sort by_rank scores.

Definition compute_shard (l : BackendList) (key : option Z) : checked (BackendList * bool) :=
  match shuffle_sharding l, key with
  | Some sharding, Some key =>
      let n := length (backends l) in
      let synced := (length (shard_representative l) =? n)%nat && (length (sibling_ring l) =? n)%nat in
      let ring := if synced then sibling_ring l else [] in
      let primaries := if synced then shard_addresses l
                       else length (filter (fun b => backup b = false) (backends l)) in
      k ← shard_size sharding (Z.of_nat primaries);
      match k with
      | None => Val (l, false)
      | Some k =>
          let k := Z.to_nat k in
          scores ← score_loop key (backends l) (shard_representative l) synced 0;
          _ ← debug_assert (length scores =? primaries)%nat;
          let scores := if (k <? length scores)%nat then best_first scores else scores in
          _ ← debug_assert (k <=? length scores)%nat;
          members ← shard_members (backends l) ring (take k scores);
          let sh := sort_unstable members in
          _ ← debug_assert (k <=? length sh)%nat;
          _ ← debug_assert (shares_address l || (length sh =? k)%nat);
          others ← resolve (backends l) sh;
          _ ← debug_assert (forallb (fun x => negb (backup x.2)) others);
          Val (with_shard l scores sh, true)
      end
  | _, _ => Val (l, false)
  end.

Definition settle_spill_outcome (l : BackendList) (outcome : ShardOutcome) (picked : option nat) : ShardOutcome :=
  match outcome, picked with
  | SpilledOver, Some p => if existsb (Nat.eqb p) (shard l) then InShard else outcome
  | _, _ => outcome
  end.

(** The policy's choice among the candidates, which may decay averages. *)
Definition pick (l : BackendList) (key : option Z) (now : Z) : checked (BackendList * option nat) :=
  c ← with_siblings (backends l) (candidates l) (sibling_ring l) now;
  '(p, bs, picked) ← next_available_backend (load_balancing l) key c;
  Val (with_policy (with_backends l bs (next_id l)) p, picked).

Definition address_at (l : BackendList) (p : nat) : option SocketAddr := address <$> backends l !! p.

(** The healthy tiers, after the candidates were collected. *)
Definition pick_healthy (l : BackendList) (key : option Z) (now : Z) (outcome : ShardOutcome) :
    checked (BackendList * option nat * ShardOutcome) :=
  let l := with_warned l false in
  l ← collapse_shared_addresses l;
  '(l, picked) ← pick l key now;
  _ ← debug_assert (match picked with
                    | Some p => match address_at l p with Some a => has_backend l a | None => false end
                    | None => true
                    end);
  _ ← debug_assert (negb (bool_decide (outcome = InShard)) ||
                    match picked with
                    | Some p => existsb (fun q => bool_decide (address_at l q = address_at l p)) (shard l)
                    | None => true
                    end);
  Val (l, picked, settle_spill_outcome l outcome picked).

(** The fail-open regime. *)
Definition open_to_all (now : Z) (b : Backend) : bool :=
  bool_decide (b_status b = Normal) && bool_decide (can_try (retry_policy b) now = Some OKAY).

Definition fail_open (l : BackendList) (key : option Z) (now : Z) (strict : bool) (outcome : ShardOutcome) :
    checked (BackendList * option nat * ShardOutcome) :=
  '(l, available) ← collect_candidates l (open_to_all now);
  let '(l, available) := if strict then retain_shard_candidates l else (l, available) in
  if (available =? 0)%nat then Val (l, None, if strict then Exhausted else outcome)
  else
    let l := with_warned l true in
    l ← collapse_shared_addresses l;
    '(l, picked) ← pick l key now;
    Val (l, picked, settle_spill_outcome l outcome picked).

(** The closure [candidate]: a backend of the tier that is not excluded. *)
Definition in_tier (now : Z) (exclude : list SocketAddr) (backups : bool) (b : Backend) : bool :=
  is_tier_candidate b backups now && negb (bool_decide (address b ∈ exclude)).

(** The selection after the primary tier: the backups, the choice, or failing
    open. *)
Definition select_rest (l : BackendList) (key : option Z) (now : Z) (exclude : list SocketAddr) (strict : bool) (available : nat)
    (outcome : ShardOutcome) : checked (BackendList * option nat * ShardOutcome) :=
  '(l, available) ← (if (available =? 0)%nat && negb strict then collect_candidates l (in_tier now exclude true) else Val (l, available));
  if negb (available =? 0)%nat then pick_healthy l key now outcome
  else if negb (length exclude =? 0)%nat then Val (l, None, outcome)
  else fail_open l key now strict outcome.

Definition select_tiers (l : BackendList) (key : option Z) (now : Z) (exclude : list SocketAddr) :
    checked (BackendList * option nat * ShardOutcome) :=
  '(l, sharded) ← compute_shard l key;
  let strict := sharded && (if shuffle_sharding l is Some s then bool_decide (mode s = Strict) else false) in
  '(l, available) ← collect_candidates l (in_tier now exclude false);
  if sharded : bool then
    let primaries_can_open := negb (available =? 0)%nat in
    let '(l, in_shard) := retain_shard_candidates l in
    if negb (in_shard =? 0)%nat then select_rest l key now exclude strict in_shard InShard
    else if strict then
      if primaries_can_open then Val (l, None, Exhausted) else select_rest l key now exclude strict 0 InShard
    else
      '(l, available) ← collect_candidates l (in_tier now exclude false);
      select_rest l key now exclude strict available SpilledOver
  else select_rest l key now exclude strict available Unsharded.

Definition select_with_key (l : BackendList) (key : option Z) (now : Z) : checked (BackendList * option nat * ShardOutcome) :=
  select_tiers l key now [].

Definition select_with_key_excluding (l : BackendList) (key : option Z) (now : Z) (exclude : list SocketAddr) :
    checked (BackendList * option nat * ShardOutcome) :=
  if (length exclude =? 0)%nat then select_tiers l key now []
  else
    '(l, picked, outcome) ← select_tiers l key now exclude;
    match picked with
    | Some p =>
        _ ← debug_assert (match address_at l p with Some a => negb (bool_decide (a ∈ exclude)) | None => false end);
        Val (l, picked, outcome)
    | None => select_tiers l key now []
    end.

Definition next_available_backend_with_key (l : BackendList) (key : option Z) (now : Z) : checked (BackendList * option nat) :=
  '(l, picked, _) ← select_with_key l key now; Val (l, picked).

End List.
