(* ===== verification/SiblingSpec.v ===== *)
(** * The rings of a backend list

    [refresh_siblings] joins the backends of each address in one ring and finds
    the primary backend that represents the address; the sweep over the
    invariants accepts the result. *)

From stdpp Require Import sorting.
From S2P Require Import Prelude Retry ProxyProtocol Backend AffinityHash LoadBalancing RoundRobinSpec PolicySpec LoadSpec Policies BackendList.

(** ** The positions of an address *)

Definition at_address (bs : list Backend) (a : SocketAddr) (p : nat) : Prop := address <$> bs !! p = Some a.
Global Instance at_address_dec bs a p : Decision (at_address bs a p).
Proof. unfold at_address. apply _. Defined.

Definition positions (bs : list Backend) (a : SocketAddr) : list nat := filter (at_address bs a) (seq 0 (length bs)).

Lemma at_address_lt bs a p : at_address bs a p -> (p < length bs)%nat.
Proof. unfold at_address. intros H. apply fmap_Some in H as (b & Hb & _). by eapply lookup_lt_Some. Qed.

Lemma positions_elem bs a p : p ∈ positions bs a <-> at_address bs a p.
Proof.
  unfold positions. rewrite list_elem_of_filter, elem_of_seq. split; [by intros [? _] |].
  intros Hp. split; [done |]. apply at_address_lt in Hp. lia.
Qed.

Lemma positions_nodup bs a : NoDup (positions bs a).
Proof. apply NoDup_filter, NoDup_seq. Qed.

Lemma positions_snoc bs b a : positions (bs ++ [b]) a = positions bs a ++ (if decide (address b = a) then [length bs] else []).
Proof.
  unfold positions. rewrite length_app, seq_app, filter_app. cbn [length seq Nat.add]. f_equal.
  - apply filter_ext_in. intros p Hp%elem_of_seq. unfold at_address. by rewrite lookup_app_l by lia.
  - rewrite filter_cons, (decide_ext (at_address (bs ++ [b]) a (length bs)) (address b = a)); [done |].
    unfold at_address. rewrite list_lookup_middle by done. cbn. naive_solver.
Qed.

Lemma same_address_at bs p q b : bs !! p = Some b -> same_address bs p q <-> at_address bs (address b) q.
Proof.
  intros Hb. unfold same_address, at_address. rewrite Hb. cbn. split; [by intros [? _] |]. intros H. split; [done |].
  apply fmap_Some in H as (b' & Hb' & _). by rewrite Hb'.
Qed.

(** ** Groups *)

Lemma address_groups_spec bs : forall pre groups,
  (forall a, default [] (groups !! a) = positions pre a) -> (forall a, groups !! a <> Some []) ->
  let groups' := address_groups bs (length pre) groups in
  (forall a, default [] (groups' !! a) = positions (pre ++ bs) a) /\ (forall a, groups' !! a <> Some []).
Proof.
  induction bs as [| b bs IH]; intros pre groups Hg Hn; cbn [address_groups].
  { by rewrite app_nil_r. }
  specialize (IH (pre ++ [b]) (<[address b := default [] (groups !! address b) ++ [length pre]]> groups)).
  rewrite length_app, <- app_assoc in IH. cbn [length app] in IH. rewrite Nat.add_1_r in IH. apply IH.
  - intros a. rewrite positions_snoc. destruct (decide (address b = a)) as [<- | Hne].
    + rewrite lookup_insert_eq. cbn. by rewrite Hg.
    + rewrite lookup_insert_ne by done. by rewrite Hg, app_nil_r.
  - intros a. destruct (decide (address b = a)) as [<- | Hne].
    + rewrite lookup_insert_eq. by destruct (default [] _).
    + by rewrite lookup_insert_ne.
Qed.

(** The groups of a list are the positions of its addresses. *)
Lemma groups_elem bs g : g ∈ (map_to_list (address_groups bs 0 ∅)).*2 <-> exists a, g = positions bs a /\ g <> [].
Proof.
  destruct (address_groups_spec bs [] ∅) as [Hg Hn]; [intros a; by rewrite lookup_empty | intros a; by rewrite lookup_empty |].
  cbn [length app] in *. rewrite list_elem_of_fmap. split.
  - intros ([a g'] & Heq & Hin). cbn in Heq. subst g'. apply elem_of_map_to_list in Hin. exists a. specialize (Hg a). rewrite Hin in Hg. split; [done |].
    intros ->. by apply (Hn a).
  - intros (a & -> & Hne). exists (a, positions bs a). split; [done |]. apply elem_of_map_to_list.
    specialize (Hg a). destruct (_ !! a) as [g |] eqn:E; cbn in Hg; by subst.
Qed.

Lemma groups_disjoint bs i j g1 g2 p : let gs := (map_to_list (address_groups bs 0 ∅)).*2 in
  gs !! i = Some g1 -> gs !! j = Some g2 -> p ∈ g1 -> p ∈ g2 -> i = j.
Proof.
  intros gs Hi Hj H1 H2. unfold gs in *. apply list_lookup_fmap_Some in Hi as ([a1 x1] & -> & Hi), Hj as ([a2 x2] & -> & Hj).
  cbn in *. pose proof Hi as Hi'. pose proof Hj as Hj'.
  apply list_elem_of_lookup_2, elem_of_map_to_list in Hi'. apply list_elem_of_lookup_2, elem_of_map_to_list in Hj'.
  destruct (address_groups_spec bs [] ∅) as [Hg _]; [intros a; by rewrite lookup_empty | intros a; by rewrite lookup_empty |].
  cbn [length app] in Hg. pose proof (Hg a1) as Hg1. pose proof (Hg a2) as Hg2. rewrite Hi' in Hg1. rewrite Hj' in Hg2. cbn in Hg1, Hg2.
  subst x1 x2. apply positions_elem in H1, H2. unfold at_address in *. assert (a1 = a2) as -> by congruence.
  pose proof (NoDup_fst_map_to_list (address_groups bs 0 ∅)) as Hnd.
  eapply NoDup_lookup; [exact Hnd | | ]; rewrite list_lookup_fmap, ?Hi, ?Hj; done.
Qed.

(** ** Links *)

Lemma link_group_spec group rest : forall rank ring,
  group = take rank group ++ rest -> (rank <= length group)%nat -> NoDup group -> Forall (fun p => (p < length ring)%nat) group ->
  exists ring', link_group group rest rank ring = Val ring' /\ length ring' = length ring /\
    (forall p, p ∉ rest -> ring' !! p = ring !! p) /\
    forall k p, rest !! k = Some p -> ring' !! p = group !! ((rank + k + 1) mod length group)%nat.
Proof.
  induction rest as [| p rest IH]; intros rank ring Hg Hle Hnd Hr; cbn [link_group].
  { exists ring. by split_and!. }
  assert (Hlen : (rank + S (length rest) = length group)%nat).
  { rewrite Hg at 1. rewrite length_app, length_take. cbn. lia. }
  destruct (lookup_lt_is_Some_2 group ((rank + 1) mod length group)) as [next Hnext]; [apply Nat.mod_upper_bound; lia |].
  rewrite (index_Some _ _ _ Hnext). cbn [mbind outcome_bind].
  assert (Hp : p ∈ group) by (rewrite Hg; apply elem_of_app; right; left).
  rewrite Forall_forall in Hr. destruct (lookup_lt_is_Some_2 ring p (Hr p Hp)) as [x Hx].
  rewrite (index_Some _ _ _ Hx). cbn [mbind outcome_bind].
  assert (Hpr : p ∉ rest) by (rewrite Hg in Hnd; apply NoDup_app in Hnd as (_ & _ & Hnd); by apply NoDup_cons in Hnd as [? _]).
  destruct (IH (S rank) (<[p := next]> ring)) as (ring' & -> & Hl & Hout & Hin).
  - rewrite (take_S_r _ _ p), <- app_assoc; [done |]. rewrite Hg, lookup_app_r, length_take by (rewrite length_take; lia).
    replace (rank - _)%nat with 0%nat by lia. done.
  - lia.
  - done.
  - apply Forall_forall. intros q Hq. rewrite length_insert. by apply Hr.
  - exists ring'. split; [done |]. split; [by rewrite Hl, length_insert |]. split.
    + intros q [Hqp Hq]%not_elem_of_cons. rewrite Hout by done. by rewrite list_lookup_insert_ne.
    + intros [| k] q Hq; cbn in Hq.
      * injection Hq as <-. rewrite Hout, list_lookup_insert_eq, Nat.add_0_r by (done || by apply Hr). done.
      * rewrite (Hin k q Hq). f_equal. f_equal. lia.
Qed.

(** Every position of a group leads to the next one. *)
Definition cyclic (ring g : list nat) : Prop := forall k p, g !! k = Some p -> ring !! p = g !! ((k + 1) mod length g)%nat.

Lemma link_groups_spec gs : forall shares ring,
  Forall (fun g => NoDup g /\ g <> [] /\ Forall (fun p => (p < length ring)%nat) g) gs ->
  (forall i j g1 g2 p, gs !! i = Some g1 -> gs !! j = Some g2 -> p ∈ g1 -> p ∈ g2 -> i = j) ->
  (forall g p, g ∈ gs -> p ∈ g -> ring !! p = Some p) ->
  exists ring', link_groups gs shares ring = Val (shares || existsb (fun g => 1 <? length g)%nat gs, ring') /\
    length ring' = length ring /\ (forall p, (forall g, g ∈ gs -> p ∉ g) -> ring' !! p = ring !! p) /\
    forall g, g ∈ gs -> cyclic ring' g.
Proof.
  induction gs as [| g gs IH]; intros shares ring Hf Hd Hid; cbn [link_groups existsb].
  { exists ring. rewrite orb_false_r. split_and!; try done. by intros g ?%not_elem_of_nil. }
  apply Forall_cons in Hf as [(Hnd & Hne & Hr) Hf].
  assert (Hsep : forall g' p, g' ∈ gs -> p ∈ g -> p ∉ g').
  { intros g' p [j Hj]%list_elem_of_lookup_1 H1 H2. by specialize (Hd 0%nat (S j) g g' p eq_refl Hj H1 H2). }
  assert (Hstep : exists ring1, (if (1 <? length g)%nat then link_group g g 0 ring else Val ring) = Val ring1 /\
    length ring1 = length ring /\ (forall p, p ∉ g -> ring1 !! p = ring !! p) /\ cyclic ring1 g).
  { destruct (Nat.ltb_spec 1 (length g)) as [Hlt | Hge].
    - destruct (link_group_spec g g 0 ring) as (ring1 & Hrun & Hl & Hout & Hin); [done | lia | done | done |].
      exists ring1. split; [done |]. split; [done |]. split; [done |]. intros k p Hk. by rewrite (Hin k p Hk).
    - exists ring. split_and!; try done. intros k p Hk. destruct g as [| x [| y g]]; cbn in Hge; [done | | lia].
      destruct k; [| done]. injection Hk as <-. rewrite (Hid [x] x); [done | left | left]. }
  destruct Hstep as (ring1 & Hrun & Hl1 & Hout1 & Hcyc1).
  destruct (IH (shares || (1 <? length g)%nat) ring1) as (ring' & Hrun' & Hl' & Hout' & Hcyc').
  - eapply Forall_impl; [exact Hf |]. intros g' (? & ? & ?). split_and!; try done. by rewrite Hl1.
  - intros i j g1 g2 p Hi Hj H1 H2. specialize (Hd (S i) (S j) g1 g2 p Hi Hj H1 H2). lia.
  - intros g' p Hg' Hp. rewrite Hout1; [apply (Hid g'); [by right | done] |]. intros Hpg. by apply (Hsep g' p).
  - exists ring'. split.
    { rewrite orb_assoc, <- Hrun'. destruct (1 <? length g)%nat.
      - rewrite Hrun. cbn [mbind outcome_bind]. by rewrite orb_true_r.
      - injection Hrun as <-. by rewrite orb_false_r. }
    split; [congruence |]. split.
    + intros p Hp. rewrite Hout'; [| intros g' Hg'; apply Hp; by right]. apply Hout1, Hp. left.
    + intros g' [-> | Hg']%elem_of_cons; [| by apply Hcyc']. intros k p Hk.
      rewrite Hout'; [by apply Hcyc1 |]. intros g2 Hg2. apply Hsep; [done | by eapply list_elem_of_lookup_2].
Qed.

(** ** Rings *)

Section Cycle.
Context (ring g : list nat) (Hcyc : cyclic ring g).

Lemma cyclic_next pre x y suf : g = pre ++ x :: y :: suf -> ring !! x = Some y.
Proof.
  intros Hg. rewrite (Hcyc (length pre) x) by (by rewrite Hg, list_lookup_middle).
  rewrite Hg, length_app. cbn [length]. rewrite Nat.mod_small by lia. rewrite lookup_app_r by lia.
  replace (length pre + 1 - length pre)%nat with 1%nat by lia. done.
Qed.

Lemma cyclic_last pre x : g = pre ++ [x] -> ring !! x = g !! 0%nat.
Proof.
  intros Hg. rewrite (Hcyc (length pre) x) by (by rewrite Hg, list_lookup_middle).
  rewrite Hg, length_app. cbn [length]. by rewrite Nat.Div0.mod_same.
Qed.

Lemma linked_segment l : forall pre x y suf, g = pre ++ x :: l ++ y :: suf -> linked ring x l y.
Proof.
  induction l as [| z l IH]; intros pre x y suf Hg; cbn [linked app] in *; [by eapply cyclic_next |].
  split; [by eapply (cyclic_next pre x z) |]. apply (IH (pre ++ [x]) z y suf). by rewrite <- app_assoc.
Qed.

Lemma linked_wrap pre x suf y : g = pre ++ x :: suf -> g !! 0%nat = Some y -> linked ring x suf y.
Proof.
  intros Hg Hy. destruct suf as [| z suf _] using rev_ind; cbn [linked].
  { rewrite <- Hy. by eapply cyclic_last. }
  apply linked_app; [by apply (linked_segment suf pre x z []) |]. cbn. rewrite <- Hy.
  apply (cyclic_last (pre ++ x :: suf)). by rewrite Hg, <- app_assoc.
Qed.

(** From any position around to itself. *)
Lemma cyclic_linked p : NoDup g -> p ∈ g -> exists l, linked ring p l p /\ p :: l ≡ₚ g.
Proof.
  intros Hnd Hp. apply list_elem_of_split in Hp as (pre & suf & Hg). destruct pre as [| x pre].
  - exists suf. cbn in Hg. split; [| by rewrite Hg]. apply (linked_wrap [] p suf p); [done | by rewrite Hg].
  - exists (suf ++ x :: pre). split.
    + apply linked_app; [apply (linked_wrap (x :: pre) p suf x); [done | by rewrite Hg] | by apply (linked_segment pre [] x p suf)].
    + rewrite Hg. by rewrite (Permutation_app_comm (x :: pre) (p :: suf)).
Qed.

End Cycle.

Section Siblings.
Context `{LM : Libm} `{RC : RandCrate}.

Lemma positions_NoDup bs : (forall a, (length (positions bs a) <= 1)%nat) <-> NoDup (address <$> bs).
Proof.
  split.
  - intros H. apply NoDup_alt. intros i j a Hi Hj. specialize (H a).
    assert (Hp : forall k, (address <$> bs) !! k = Some a -> k ∈ positions bs a).
    { intros k Hk. apply positions_elem. unfold at_address. by rewrite <- list_lookup_fmap. }
    apply Hp in Hi, Hj. destruct (positions bs a) as [| x [| y l]]; cbn in H; [by apply not_elem_of_nil in Hi | | lia].
    apply list_elem_of_singleton in Hi, Hj. congruence.
  - intros Hnd a. destruct (positions bs a) as [| x [| y l]] eqn:E; cbn; [lia | lia |].
    pose proof (positions_nodup bs a) as Hn. rewrite E in Hn. apply NoDup_cons in Hn as [Hn _].
    assert (Hp : forall k, k ∈ positions bs a -> (address <$> bs) !! k = Some a).
    { intros k Hk%positions_elem. unfold at_address in Hk. by rewrite list_lookup_fmap. }
    rewrite E in Hp. destruct Hn. rewrite (NoDup_lookup _ x y a Hnd); [left | apply Hp; left | apply Hp; right; left].
Qed.

(** The ring that [refresh_siblings] builds. *)
Lemma link_groups_ok bs : exists ring,
  link_groups (map_to_list (address_groups bs 0 ∅)).*2 false (seq 0 (length bs)) =
    Val (bool_decide (~ NoDup (address <$> bs)), ring) /\ ring_ok bs ring.
Proof.
  set (gs := (map_to_list (address_groups bs 0 ∅)).*2).
  destruct (link_groups_spec gs false (seq 0 (length bs))) as (ring & Hrun & Hlen & _ & Hcyc).
  - apply Forall_forall. intros g (a & -> & Hne)%groups_elem. split; [apply positions_nodup |]. split; [done |].
    apply Forall_forall. intros p Hp%positions_elem%at_address_lt. by rewrite length_seq.
  - apply groups_disjoint.
  - intros g p (a & -> & _)%groups_elem Hp%positions_elem%at_address_lt. by rewrite lookup_seq_lt.
  - exists ring. split.
    + rewrite Hrun. cbn [orb]. f_equal. f_equal. apply eq_bool_prop_intro. rewrite bool_decide_spec, Is_true_true, existsb_exists.
      rewrite <- positions_NoDup. split.
      * intros (g & (a & -> & _)%list_elem_of_In%groups_elem & Hlt%Nat.ltb_lt) H. specialize (H a). lia.
      * intros Hn. destruct (decide (Exists (fun g => (1 < length g)%nat) gs)) as [He | He].
        { apply list.Exists_exists in He as (g & Hg & Hlt). exists g. split; [by apply list_elem_of_In | by apply Nat.ltb_lt]. }
        destruct Hn. intros a. destruct (decide (positions bs a = [])) as [-> | Hne]; [cbn; lia |].
        apply not_Exists_Forall in He; [| apply _]. rewrite Forall_forall in He.
        specialize (He (positions bs a) ltac:(apply groups_elem; by exists a)). cbn in He. lia.
    + rewrite length_seq in Hlen. split; [done |]. intros p Hp. destruct (lookup_lt_is_Some_2 bs p Hp) as [b Hb].
      assert (Hin : p ∈ positions bs (address b)) by (apply positions_elem; unfold at_address; by rewrite Hb).
      destruct (cyclic_linked ring (positions bs (address b))) with (p := p) as (l & Hl & Hperm);
        [apply Hcyc, groups_elem; exists (address b); split; [done | by intros E; rewrite E in Hin; apply not_elem_of_nil in Hin] | apply positions_nodup | done |].
      exists l. split; [done |]. assert (Hnd : NoDup (p :: l)) by (rewrite Hperm; apply positions_nodup). split; [done |].
      intros q. rewrite (same_address_at bs p q b Hb), <- positions_elem, <- Hperm, elem_of_cons.
      apply NoDup_cons in Hnd as [Hn _]. split; [intros Hq; split; [by intros -> | by right] | naive_solver].
Qed.

(** ** Representatives *)

Definition is_backup (bs : list Backend) (q : nat) : bool := from_option backup false (bs !! q).

Definition outranks (bs : list Backend) (q p : nat) : bool :=
  match bs !! q, bs !! p with
  | Some other, Some b => outranks_at_address other q b p
  | _, _ => false
  end.

(** A primary backend that no primary backend of its address outranks. *)
Definition represents (bs : list Backend) (p : nat) : bool :=
  negb (is_backup bs p) && forallb (fun q => is_backup bs q || negb (outranks bs q p)) (seq 0 (length bs)).

Lemma outranks_sibling bs q p : outranks bs q p = true -> q <> p /\ same_address bs p q.
Proof.
  unfold outranks, outranks_at_address, same_address. destruct (bs !! q) as [o |], (bs !! p) as [b |]; try done.
  case_bool_decide as Ha; [| done]. cbn [negb orb]. destruct (Nat.eqb_spec q p); [done |]. intros _.
  split; [done |]. cbn. split; [by rewrite Ha | done].
Qed.

Lemma forallb_siblings bs p l (f : nat -> bool) :
  (forall q, q ∈ l <-> q <> p /\ same_address bs p q) -> (forall q, f q = false -> q <> p /\ same_address bs p q) ->
  forallb f l = forallb f (seq 0 (length bs)).
Proof.
  intros Hl Hf. apply eq_bool_prop_intro. rewrite !Is_true_true, !forallb_forall. split.
  - intros H q _. destruct (f q) eqn:E; [done |]. rewrite <- E. by apply H, list_elem_of_In, Hl, Hf.
  - intros H q Hq%list_elem_of_In. apply H, list_elem_of_In, elem_of_seq. apply Hl in Hq as [_ Hq%same_address_lt]. lia.
Qed.

Lemma represents_walk_spec bs ring b start l : bs !! start = Some b -> forall p fuel r,
  linked ring p l start -> start ∉ l -> Forall (fun q => (q < length bs)%nat) l -> (length l < fuel)%nat ->
  represents_walk fuel bs ring b start r (default start (ring !! p)) =
    Val (r && forallb (fun q => is_backup bs q || negb (outranks bs q start)) l).
Proof.
  intros Hb. induction l as [| q l IH]; intros p [| fuel] r Hl Hs Hf Hfu; cbn [length] in Hfu; try lia; cbn [linked] in Hl.
  - rewrite Hl. cbn [default from_option forallb represents_walk]. by rewrite Nat.eqb_refl, andb_false_r, andb_true_r.
  - destruct Hl as [Hq Hl]. rewrite Hq. change (default start (Some q)) with q. cbn [represents_walk forallb].
    apply not_elem_of_cons in Hs as [Hne Hs]. apply Forall_cons in Hf as [Hqr Hf].
    destruct (Nat.eqb_spec q start) as [-> | _]; [done |]. cbn [negb]. rewrite andb_true_r. destruct r; [| done].
    destruct (lookup_lt_is_Some_2 bs q Hqr) as [o Ho]. rewrite (index_Some _ _ _ Ho). cbn [mbind outcome_bind].
    pose proof (linked_head _ _ _ _ Hl) as Hn. rewrite (index_Some _ _ _ Hn). cbn [mbind outcome_bind].
    pose proof (IH q fuel (backup o || negb (outranks_at_address o q b start)) Hl Hs Hf ltac:(lia)) as Hrec.
    rewrite Hn in Hrec. change (default start (Some ?x)) with x in Hrec. rewrite Hrec. unfold is_backup at 2, outranks at 2. rewrite Ho, Hb. done.
Qed.

Lemma ring_path bs ring p : ring_ok bs ring -> (p < length bs)%nat -> exists l, linked ring p l p /\ (p ∉ l) /\
  (length l < S (length ring))%nat /\ Forall (fun q => (q < length bs)%nat) l /\ forall q, q ∈ l <-> q <> p /\ same_address bs p q.
Proof.
  intros [Hlen Hr] Hp. destruct (Hr p Hp) as (l & Hl & Hnd & Hel). exists l. split; [done |].
  pose proof Hnd as [Hn Hnd']%NoDup_cons. split; [done |].
  assert (Hf : Forall (fun q => (q < length bs)%nat) l) by (apply Forall_forall; by intros q [_ Hq%same_address_lt]%Hel).
  split; [| by split]. rewrite Hlen, <- (length_seq (length bs) 0).
  apply Nat.lt_succ_r, submseteq_length, NoDup_submseteq; [done |]. intros q Hq. rewrite Forall_forall in Hf.
  specialize (Hf q Hq). apply elem_of_seq. lia.
Qed.

Lemma represents_of_walk bs ring p b sibling : ring_ok bs ring -> bs !! p = Some b -> ring !! p = Some sibling ->
  represents_walk (S (length ring)) bs ring b p (negb (backup b)) sibling = Val (represents bs p).
Proof.
  intros Hr Hb Hsib. destruct (ring_path bs ring p Hr ltac:(by eapply lookup_lt_Some)) as (l & Hl & Hn & Hlen & Hf & Hel).
  pose proof (represents_walk_spec bs ring b p l Hb p (S (length ring)) (negb (backup b)) Hl Hn Hf Hlen) as H.
  rewrite Hsib in H. change (default p (Some sibling)) with sibling in H. rewrite H. unfold represents, is_backup at 2. rewrite Hb. cbn [from_option].
  f_equal. f_equal. apply forallb_siblings with (p := p); [done |]. intros q Hq. apply orb_false_iff in Hq as [_ Hq%negb_false_iff].
  by apply outranks_sibling.
Qed.

Lemma representatives_spec bs ring : ring_ok bs ring -> forall pre todo, bs = pre ++ todo ->
  representatives bs todo ring (length pre) = Val (represents bs <$> seq (length pre) (length todo)).
Proof.
  intros Hr pre todo. revert pre. induction todo as [| b todo IH]; intros pre Hbs; cbn [representatives length seq fmap list_fmap]; [done |].
  assert (Hb : bs !! length pre = Some b) by (by rewrite Hbs, list_lookup_middle).
  destruct (lookup_lt_is_Some_2 ring (length pre)) as [sib Hsib]; [rewrite (proj1 Hr); by eapply lookup_lt_Some |].
  rewrite (index_Some _ _ _ Hsib). cbn [mbind outcome_bind]. rewrite (represents_of_walk bs ring _ b sib Hr Hb Hsib).
  cbn [mbind outcome_bind]. specialize (IH (pre ++ [b])). rewrite length_app, Nat.add_1_r, <- app_assoc in IH. by rewrite (IH Hbs).
Qed.

(** What [refresh_siblings] leaves. *)
Record siblings_ok (l : BackendList) : Prop := {
  sb_ring : ring_ok (backends l) (sibling_ring l);
  sb_shares : shares_address l = bool_decide (~ NoDup (address <$> backends l));
  sb_reps : shard_representative l = represents (backends l) <$> seq 0 (length (backends l));
  sb_count : shard_addresses l = count_true (shard_representative l);
}.

Lemma refresh_siblings_spec l : exists ring,
  let bs := backends l in
  let reps := represents bs <$> seq 0 (length bs) in
  let l' := with_siblings_state l (bool_decide (~ NoDup (address <$> bs))) ring reps (count_true reps) in
  refresh_siblings l = Val l' /\ siblings_ok l'.
Proof.
  destruct (link_groups_ok (backends l)) as (ring & Hrun & Hok). exists ring. cbn zeta. unfold refresh_siblings.
  pose proof (representatives_spec (backends l) ring Hok [] (backends l) eq_refl) as Hreps. cbn [length] in Hreps.
  rewrite Hrun. cbn [mbind outcome_bind]. by rewrite Hreps.
Qed.

(** ** The sweep *)

Lemma linked_path_last ring p l stop q : linked ring p l stop -> ring !! q = Some stop -> q ∈ p :: l ->
  NoDup (p :: l) -> stop ∉ l -> exists pre, p :: l = pre ++ [q].
Proof.
  revert p. induction l as [| x l IH]; intros p Hl Hq Hin Hnd Hs; cbn [linked] in Hl.
  - exists []. apply list_elem_of_singleton in Hin as ->. done.
  - destruct Hl as [Hx Hl]. apply not_elem_of_cons in Hs as [Hsx Hs]. apply elem_of_cons in Hin as [-> | Hin]; [congruence |].
    apply NoDup_cons in Hnd as [_ Hnd]. destruct (IH x Hl Hq Hin Hnd Hs) as [pre Hpre]. exists (p :: pre). by rewrite Hpre.
Qed.

(** No two positions lead to the same one. *)
Lemma ring_inj bs ring p q r : ring_ok bs ring -> ring !! p = Some r -> ring !! q = Some r -> p = q.
Proof.
  intros [Hlen Hr] Hp Hq. pose proof (lookup_lt_Some _ _ _ Hp) as Hpl. pose proof (lookup_lt_Some _ _ _ Hq) as Hql. rewrite Hlen in Hpl, Hql.
  assert (Hsame : forall x, (x < length bs)%nat -> ring !! x = Some r -> (r < length bs)%nat /\ same_address bs r x).
  { intros x Hx Hxr. destruct (Hr x Hx) as (l & Hl & _ & Hel). pose proof (linked_head _ _ _ _ Hl) as Hh. rewrite Hxr in Hh.
    injection Hh as ->. destruct l as [| y l]; cbn; [split; [done | by apply same_address_self] |].
    destruct (Hel y) as [Hy _]. destruct (Hy ltac:(left)) as [_ Hs]. split; [by apply same_address_lt in Hs |].
    destruct Hs as [Hs1 Hs2]. split; [done | by apply lookup_lt_is_Some_2]. }
  destruct (Hsame p Hpl Hp) as [Hrl Hps], (Hsame q Hql Hq) as [_ Hqs].
  destruct (Hr r Hrl) as (l & Hl & Hnd & Hel). pose proof Hnd as [Hn _]%NoDup_cons.
  assert (Hin : forall x, same_address bs r x -> x ∈ r :: l).
  { intros x Hx. destruct (decide (x = r)) as [-> | Hne]; [left | right; by apply Hel]. }
  destruct (linked_path_last ring r l r p Hl Hp (Hin p Hps) Hnd Hn) as [pre1 H1].
  destruct (linked_path_last ring r l r q Hl Hq (Hin q Hqs) Hnd Hn) as [pre2 H2].
  rewrite H1 in H2. by apply app_inj_tail in H2 as [_ ?].
Qed.

Lemma ring_same_address bs ring p q : ring_ok bs ring -> ring !! p = Some q -> same_address bs p q.
Proof.
  intros [Hlen Hr] Hq. pose proof (lookup_lt_Some _ _ _ Hq) as Hp. rewrite Hlen in Hp.
  destruct (Hr p Hp) as (l & Hl & _ & Hel). pose proof (linked_head _ _ _ _ Hl) as Hh. rewrite Hq in Hh. injection Hh as ->.
  destruct l as [| y l]; cbn; [by apply same_address_self |]. by destruct (Hel y) as [Hy _]; destruct (Hy ltac:(left)).
Qed.

Lemma check_targets_spec bs ring : ring_ok bs ring -> forall todo pre targeted, ring = pre ++ todo -> length targeted = length bs ->
  (forall q, targeted !! q = Some true -> q ∈ pre) -> check_targets bs todo (length pre) targeted = Val tt.
Proof.
  intros Hr. induction todo as [| q todo IH]; intros pre targeted Hring Hlen Ht; cbn [check_targets]; [done |].
  assert (Hq : ring !! length pre = Some q) by (by rewrite Hring, list_lookup_middle).
  pose proof (ring_same_address bs ring _ _ Hr Hq) as Hsa. pose proof (same_address_lt _ _ _ Hsa) as Hql.
  destruct (lookup_lt_is_Some_2 targeted q ltac:(lia)) as [t Htq]. rewrite (index_Some _ _ _ Htq). cbn [mbind outcome_bind].
  assert (t = false) as ->.
  { destruct t; [| done]. apply Ht in Htq. apply list_elem_of_lookup_1 in Htq as [i Hi]. pose proof (lookup_lt_Some _ _ _ Hi).
    assert (Hi' : ring !! i = Some q) by (by rewrite Hring, lookup_app_l).
    pose proof (ring_inj bs ring i (length pre) q Hr Hi' Hq). lia. }
  rewrite (debug_assert_true (negb false)) by done. cbn [mbind outcome_bind].
  destruct (lookup_lt_is_Some_2 bs q Hql) as [b Hb]. rewrite (index_Some _ _ _ Hb). cbn [mbind outcome_bind].
  assert (Hpl : (length pre < length bs)%nat) by (rewrite <- (proj1 Hr); by eapply lookup_lt_Some).
  destruct (lookup_lt_is_Some_2 bs _ Hpl) as [b' Hb']. rewrite (index_Some _ _ _ Hb'). cbn [mbind outcome_bind].
  rewrite debug_assert_true.
  2: { apply bool_decide_eq_true. destruct Hsa as [Hsa _]. rewrite Hb, Hb' in Hsa. by injection Hsa. }
  cbn [mbind outcome_bind]. specialize (IH (pre ++ [q]) (<[q := true]> targeted)). rewrite length_app, Nat.add_1_r in IH.
  apply IH; [by rewrite <- app_assoc | by rewrite length_insert |]. intros x Hx. apply elem_of_app.
  destruct (decide (x = q)) as [-> | Hne]; [right; left | left; apply Ht]. by rewrite list_lookup_insert_ne in Hx.
Qed.

(** The smallest position of an address. *)
Definition is_leader (bs : list Backend) (a : SocketAddr) (m : nat) : Prop :=
  at_address bs a m /\ forall q, at_address bs a q -> (m <= q)%nat.

Lemma foldl_min_spec l : forall m, foldl Nat.min m l ∈ m :: l /\ forall q, q ∈ m :: l -> (foldl Nat.min m l <= q)%nat.
Proof.
  induction l as [| x l IH]; intros m; cbn [foldl].
  - split; [left |]. by intros q ->%list_elem_of_singleton.
  - destruct (IH (Nat.min m x)) as [H1 H2]. split.
    + apply elem_of_cons in H1 as [-> | H1]; [| by right; right]. destruct (Nat.min_spec m x) as [[_ ->] | [_ ->]]; set_solver.
    + intros q Hq. assert (Hm : (foldl Nat.min (Nat.min m x) l <= Nat.min m x)%nat) by (apply H2; left).
      apply elem_of_cons in Hq as [-> | [-> | Hq]%elem_of_cons]; [lia | lia |]. apply H2. by right.
Qed.

Lemma foldl_represents bs b p l : Forall (fun x => bs !! x.1 = Some x.2) l -> bs !! p = Some b -> forall r,
  foldl (fun r '(sibling, other) => r && (backup other || negb (outranks_at_address other sibling b p))) r l =
    r && forallb (fun q => is_backup bs q || negb (outranks bs q p)) l.*1.
Proof.
  intros Hf Hb. induction Hf as [| [q o] l Ho _ IH]; intros r; cbn [foldl fmap list_fmap forallb fst]; [by rewrite andb_true_r |].
  rewrite IH. cbn in Ho. unfold is_backup at 2, outranks at 2. rewrite Ho, Hb. cbn [from_option]. by rewrite andb_assoc.
Qed.

(** The leaders of the addresses of the positions that were seen. *)
Definition leaders_ok (bs : list Backend) (seen : list nat) (leaders : gmap SocketAddr nat) : Prop :=
  (forall a m, leaders !! a = Some m -> is_leader bs a m) /\
  forall a, is_Some (leaders !! a) <-> exists p, p ∈ seen /\ at_address bs a p.

Lemma check_position_spec bs ring reps p seen leaders : ring_ok bs ring -> reps !! p = Some (represents bs p) -> (p < length bs)%nat ->
  leaders_ok bs seen leaders -> exists leaders', check_position bs ring reps p leaders = Val leaders' /\ leaders_ok bs (seen ++ [p]) leaders'.
Proof.
  intros Hr Hrep Hp [Hl1 Hl2]. destruct (ring_path bs ring p Hr Hp) as (l & Hl & Hn & Hlen & Hf & Hel).
  destruct (lookup_lt_is_Some_2 bs p Hp) as [b Hb]. pose proof (linked_head _ _ _ _ Hl) as Hh.
  pose proof (ring_walk_linked ring p l p (S (length ring)) Hl Hn Hlen) as Hw. unfold check_position.
  rewrite Hh in Hw. change (default p (Some ?x)) with x in Hw. rewrite (index_Some _ _ _ Hh). cbn [mbind outcome_bind].
  rewrite Hw. cbn [mbind outcome_bind]. rewrite (index_Some _ _ _ Hb). cbn [mbind outcome_bind].
  assert (Hlead : is_leader bs (address b) (foldl Nat.min p l)).
  { destruct (foldl_min_spec l p) as [H1 H2]. assert (Hmem : forall q, q ∈ p :: l <-> at_address bs (address b) q).
    { intros q. rewrite <- (same_address_at bs p q b Hb), elem_of_cons, Hel. pose proof (same_address_self bs p Hp).
      destruct (decide (q = p)) as [-> | ?]; naive_solver. }
    split; [by apply Hmem |]. intros q Hq. by apply H2, Hmem. }
  assert (Hentry : default (foldl Nat.min p l) (leaders !! address b) = foldl Nat.min p l).
  { destruct (leaders !! address b) as [m |] eqn:E; [| done]. cbn. apply Hl1 in E as [E1 E2]. destruct Hlead as [L1 L2].
    specialize (E2 _ L1). specialize (L2 _ E1). lia. }
  rewrite Hentry, (debug_assert_true (_ =? _)%nat) by apply Nat.eqb_refl. cbn [mbind outcome_bind].
  destruct (resolve_spec bs l Hf) as (others & -> & Hol & Hof). cbn [mbind outcome_bind]. rewrite (index_Some _ _ _ Hrep).
  cbn [mbind outcome_bind]. rewrite (foldl_represents bs b p others Hof Hb), Hol, debug_assert_true.
  2: { unfold represents, is_backup at 1. rewrite Hb. cbn [from_option]. rewrite (forallb_siblings bs p l); [apply eqb_reflx | done |].
    intros q Hq. apply orb_false_iff in Hq as [_ Hq%negb_false_iff]. by apply outranks_sibling. }
  cbn [mbind outcome_bind]. eexists. split; [done |].
  assert (Hat : at_address bs (address b) p) by (unfold at_address; by rewrite Hb). split.
  - intros a m. destruct (decide (address b = a)) as [<- | Hne]; [rewrite lookup_insert_eq; by intros [= <-] |].
    rewrite lookup_insert_ne by done. apply Hl1.
  - intros a. destruct (decide (address b = a)) as [<- | Hne].
    + rewrite lookup_insert_eq. split; [intros _; exists p; split; [set_solver | done] | done].
    + rewrite lookup_insert_ne by done. rewrite Hl2. split; intros (q & Hq & Hqa); exists q; (split; [| done]); [set_solver |].
      apply elem_of_app in Hq as [Hq | ->%list_elem_of_singleton]; [done |]. destruct Hne. unfold at_address in *. congruence.
Qed.

Lemma check_positions_spec bs ring reps todo : ring_ok bs ring -> reps = represents bs <$> seq 0 (length bs) ->
  Forall (fun p => (p < length bs)%nat) todo -> forall seen leaders, leaders_ok bs seen leaders ->
  exists leaders', check_positions bs ring reps todo leaders = Val leaders' /\ leaders_ok bs (seen ++ todo) leaders'.
Proof.
  intros Hr Hreps Hf. induction Hf as [| p todo Hp _ IH]; intros seen leaders Hl; cbn [check_positions].
  { exists leaders. by rewrite app_nil_r. }
  destruct (check_position_spec bs ring reps p seen leaders Hr) as (leaders1 & -> & Hl1); [| done | done |].
  { rewrite Hreps, list_lookup_fmap, lookup_seq_lt by done. done. }
  cbn [mbind outcome_bind]. destruct (IH _ _ Hl1) as (leaders2 & -> & Hl2). exists leaders2. by rewrite <- app_assoc in Hl2.
Qed.

Lemma leaders_size bs leaders : leaders_ok bs (seq 0 (length bs)) leaders ->
  (size leaders <? length bs)%nat = bool_decide (~ NoDup (address <$> bs)).
Proof.
  intros [_ Hl]. assert (Hdom : dom leaders = list_to_set (C := gset SocketAddr) (address <$> bs)).
  { apply set_eq. intros a. rewrite elem_of_dom, Hl, elem_of_list_to_set. rewrite list_elem_of_lookup. split.
    - intros (p & _ & Hp). exists p. by rewrite list_lookup_fmap.
    - intros (p & Hp). exists p. rewrite list_lookup_fmap in Hp. split; [| done]. apply at_address_lt in Hp. apply elem_of_seq. lia. }
  rewrite <- size_dom, Hdom, <- (length_fmap address bs). generalize (address <$> bs) as l. clear. intros l.
  case_bool_decide as Hnd.
  - apply Nat.ltb_lt. induction l as [| a l IH]; [destruct Hnd; constructor |]. cbn [list_to_set length].
    destruct (decide (a ∈ l)) as [Ha | Ha].
    + rewrite subseteq_union_1_L by (apply singleton_subseteq_l; by apply elem_of_list_to_set).
      assert (Hle : (size (list_to_set (C := gset SocketAddr) l) <= length l)%nat); [| lia].
      clear. induction l as [| b l IH]; cbn [list_to_set length]; [rewrite size_empty; lia |].
      pose proof (size_union_alt {[b]} (list_to_set (C := gset SocketAddr) l)) as Hu. rewrite size_singleton in Hu.
      pose proof (subseteq_size (list_to_set (C := gset SocketAddr) l ∖ {[b]}) (list_to_set l) ltac:(set_solver)). lia.
    + rewrite size_union, size_singleton by (apply disjoint_singleton_l; by rewrite elem_of_list_to_set).
      enough (size (list_to_set (C := gset SocketAddr) l) < length l)%nat by lia. apply IH. intros ?. apply Hnd. by constructor.
  - apply Nat.ltb_ge. rewrite size_list_to_set by done. done.
Qed.

Lemma check_invariants_spec l : siblings_ok l -> Z.of_nat (length (backends l)) <= next_id l ->
  check_identities (backends l) = true -> check_invariants l = Val tt.
Proof.
  intros [Hr Hs Hreps Hc] Hid Hun. unfold check_invariants.
  assert (Hlr : length (shard_representative l) = length (backends l)) by (by rewrite Hreps, length_fmap, length_seq).
  rewrite (debug_assert_true (_ <=? next_id l)) by by apply Z.leb_le. cbn [mbind outcome_bind].
  rewrite (debug_assert_true (length (sibling_ring l) =? _)%nat) by (apply Nat.eqb_eq, Hr). cbn [mbind outcome_bind].
  rewrite (debug_assert_true (length (shard_representative l) =? _)%nat) by by apply Nat.eqb_eq. cbn [mbind outcome_bind].
  pose proof (check_targets_spec _ _ Hr (sibling_ring l) [] (replicate (length (backends l)) false) eq_refl) as Ht. cbn [length] in Ht.
  rewrite Ht; [| apply length_replicate | intros q Hq; by apply lookup_replicate in Hq as [? _]]. cbn [mbind outcome_bind].
  destruct (check_positions_spec _ _ _ (seq 0 (length (backends l))) Hr Hreps) with (seen := @nil nat) (leaders := ∅ : gmap SocketAddr nat)
    as (leaders & -> & Hl).
  - apply Forall_forall. intros p Hp%elem_of_seq. lia.
  - split; [intros a m; by rewrite lookup_empty |]. intros a. rewrite lookup_empty. split; [by intros [? ?] |].
    by intros (p & ?%not_elem_of_nil & _).
  - cbn [mbind outcome_bind app] in *. rewrite (leaders_size _ _ Hl), Hs, (debug_assert_true (Bool.eqb _ _)) by apply eqb_reflx.
    cbn [mbind outcome_bind]. rewrite (debug_assert_true (_ =? _)%nat) by (by apply Nat.eqb_eq). cbn [mbind outcome_bind].
    by rewrite debug_assert_true.
Qed.

End Siblings.
