(* ===== verification/BackendListSpec.v ===== *)
(** * A backend list refines a map of its identities

    The invariant of a list, that every registration, removal and change of
    policy keeps without a failed assertion, and the map from identities to
    backends that registrations and removals update. *)

From stdpp Require Import sorting.
From S2P Require Import Prelude Retry ProxyProtocol Backend AffinityHash LoadBalancing RoundRobinSpec Maglev MaglevSpec PolicySpec LoadSpec Policies PolicyLaws BackendList SiblingSpec.

(** ** Identities *)

Definition identity (b : Backend) : list Z * SocketAddr := (backend_id b, address b).

Lemma check_identities_spec bs : check_identities bs = true <-> NoDup (identity <$> bs).
Proof.
  induction bs as [| b bs IH]; cbn [check_identities fmap list_fmap]; [split; [intros _; constructor | done] |].
  rewrite NoDup_cons, andb_true_iff, IH, forallb_forall. apply and_iff_compat_r. split.
  - intros H Hin. apply list_elem_of_fmap in Hin as (b' & Heq & Hb'%list_elem_of_In). injection Heq as Hid Ha.
    specialize (H b' Hb'). rewrite !bool_decide_eq_true_2 in H by done. done.
  - intros Hn b' Hb'%list_elem_of_In. repeat case_bool_decide; try done. destruct Hn. apply list_elem_of_fmap. exists b'.
    split; [unfold identity; congruence | done].
Qed.

Lemma same_identity_spec b b' : same_identity (backend_id b) (address b) b' = true <-> identity b' = identity b.
Proof.
  unfold same_identity, identity. rewrite andb_true_iff, !bool_decide_eq_true. split; [intros [-> ->]; done | intros [= -> ->]; done].
Qed.

Lemma find_position_Some f bs : forall i p, find_position f bs i = Some p ->
  exists b, (i <= p)%nat /\ bs !! (p - i)%nat = Some b /\ f b = true.
Proof.
  induction bs as [| b bs IH]; intros i p; cbn [find_position]; [done |]. destruct (f b) eqn:E.
  - intros [= <-]. exists b. rewrite Nat.sub_diag. by split_and!.
  - intros (b' & Hle & Hb' & Hf)%IH. exists b'. replace (p - i)%nat with (S (p - S i)) by lia. split_and!; [lia | done | done].
Qed.

Lemma find_position_None f bs : forall i, find_position f bs i = None -> Forall (fun b => f b = false) bs.
Proof.
  induction bs as [| b bs IH]; intros i; cbn [find_position]; [constructor |]. destruct (f b) eqn:E; [done |].
  intros H. constructor; [done | by eapply IH].
Qed.

(** The map a list stands for. *)
Definition registry (bs : list Backend) : gmap (list Z * SocketAddr) Backend := list_to_map ((fun b => (identity b, b)) <$> bs).

Lemma registry_keys (bs : list Backend) : ((fun b => (identity b, b)) <$> bs).*1 = identity <$> bs.
Proof. rewrite <- list_fmap_compose. done. Qed.

Lemma registry_lookup bs k b : NoDup (identity <$> bs) -> registry bs !! k = Some b <-> b ∈ bs /\ identity b = k.
Proof.
  intros Hnd. unfold registry. rewrite <- elem_of_list_to_map by (by rewrite registry_keys).
  rewrite list_elem_of_fmap. split; [intros (b' & [= -> <-] & ?); done | intros [? <-]; by exists b].
Qed.

Lemma registry_snoc bs b : NoDup (identity <$> (bs ++ [b])) -> registry (bs ++ [b]) = <[identity b := b]> (registry bs).
Proof.
  intros Hnd. apply map_eq. intros k. apply option_eq. intros b'. rewrite registry_lookup by done.
  rewrite fmap_app in Hnd. cbn in Hnd. pose proof Hnd as (Hnd1 & Hd & _)%NoDup_app. rewrite elem_of_app, list_elem_of_singleton.
  destruct (decide (identity b = k)) as [<- | Hne].
  - rewrite lookup_insert_eq. split; [| naive_solver]. intros [[Hb' | ->] Hk]; [| done]. destruct (Hd (identity b)); [| left].
    rewrite <- Hk. apply list_elem_of_fmap. by exists b'.
  - rewrite lookup_insert_ne by done. rewrite registry_lookup by done. naive_solver.
Qed.

Lemma identity_insert (bs : list Backend) p old b : bs !! p = Some old -> identity b = identity old ->
  identity <$> <[p := b]> bs = identity <$> bs.
Proof. intros Hp Hb. rewrite list_fmap_insert, Hb. apply list_insert_id. by apply list_lookup_fmap_Some_2. Qed.

Lemma registry_insert bs p old b : NoDup (identity <$> bs) -> bs !! p = Some old -> identity b = identity old ->
  registry (<[p := b]> bs) = <[identity b := b]> (registry bs).
Proof.
  intros Hnd Hp Hb. pose proof (lookup_lt_Some _ _ _ Hp) as Hlt. apply map_eq. intros k. apply option_eq. intros b'.
  rewrite registry_lookup by (by rewrite (identity_insert bs p old)). rewrite list_elem_of_lookup.
  assert (Hp' : (identity <$> bs) !! p = Some (identity b)) by (rewrite Hb; by apply list_lookup_fmap_Some_2).
  assert (Huniq : forall q x, bs !! q = Some x -> identity x = identity b -> q = p).
  { intros q x Hq Hx. eapply (NoDup_lookup _ q p (identity b) Hnd); [rewrite <- Hx; by apply list_lookup_fmap_Some_2 | done]. }
  destruct (decide (identity b = k)) as [<- | Hne].
  - rewrite lookup_insert_eq. split.
    + intros [[q Hq] Hk]. destruct (decide (q = p)) as [-> | Hqp]; [by rewrite list_lookup_insert_eq in Hq |].
      rewrite list_lookup_insert_ne in Hq by done. by destruct Hqp; eapply Huniq.
    + intros [= <-]. split; [exists p; by rewrite list_lookup_insert_eq | done].
  - rewrite lookup_insert_ne by done. rewrite registry_lookup, list_elem_of_lookup by done. split.
    + intros [[q Hq] Hk]. split; [| done]. exists q. destruct (decide (q = p)) as [-> | Hqp]; [| by rewrite list_lookup_insert_ne in Hq].
      rewrite list_lookup_insert_eq in Hq by done. congruence.
    + intros [[q Hq] Hk]. split; [| done]. exists q. rewrite list_lookup_insert_ne; [done |]. intros <-. congruence.
Qed.

Lemma NoDup_fmap_filter {A B} (f : A -> B) (P : A -> Prop) `{!forall x, Decision (P x)} (l : list A) :
  NoDup (f <$> l) -> NoDup (f <$> filter P l).
Proof.
  induction l as [| x l IH]; cbn [fmap list_fmap]; [done |]. intros [Hx Hnd]%NoDup_cons. rewrite filter_cons.
  case_decide; [| by apply IH]. cbn. apply NoDup_cons. split; [| by apply IH]. intros Hin. apply Hx.
  apply list_elem_of_fmap in Hin as (y & -> & [_ Hy]%list_elem_of_filter). apply list_elem_of_fmap. by exists y.
Qed.

Lemma registry_filter bs k : NoDup (identity <$> bs) -> registry (filter (fun b => identity b <> k) bs) = delete k (registry bs).
Proof.
  intros Hnd. pose proof (NoDup_fmap_filter identity (fun b => identity b <> k) bs Hnd) as Hnd'.
  apply map_eq. intros j. apply option_eq. intros b. rewrite registry_lookup, list_elem_of_filter by done.
  destruct (decide (j = k)) as [-> | Hne].
  - rewrite lookup_delete_eq. naive_solver.
  - rewrite lookup_delete_ne by done. rewrite registry_lookup by done. naive_solver.
Qed.

(** What the control plane asks of a list. *)
Inductive ListOp :=
| AddBackend (b : Backend)
| RemoveBackend (id : list Z) (addr : SocketAddr)
| SetPolicy (alg : LoadBalancingAlgorithms) (metric : option LoadMetric) (seed : Z)
| SetSharding (s : option ShuffleSharding).

(** On the map, an added backend keeps the state it had and takes the new
    configuration. *)
Definition registry_apply (m : gmap (list Z * SocketAddr) Backend) (op : ListOp) : gmap (list Z * SocketAddr) Backend :=
  match op with
  | AddBackend b => <[identity b := from_option (fun old => update_backend old b) b (m !! identity b)]> m
  | RemoveBackend id addr => delete (id, addr) m
  | SetPolicy _ _ _ | SetSharding _ => m
  end.

Section Registration.
Context `{LM : Libm} `{RL : RandLaws}.

Definition list_apply (l : BackendList) (op : ListOp) : checked BackendList :=
  match op with
  | AddBackend b => add_backend l b
  | RemoveBackend id addr => '(l, _, _) ← remove_backend l id addr; Val l
  | SetPolicy alg metric seed => set_load_balancing_policy l alg metric seed
  | SetSharding s => Val (set_shuffle_sharding l s)
  end.

Record list_ok (k : nat) (l : BackendList) : Prop := {
  lk_ids : NoDup (identity <$> backends l);
  lk_next : Z.of_nat (length (backends l)) <= next_id l <= U32_MAX;
  lk_siblings : siblings_ok l;
  lk_backends : Forall backend_ok (backends l);
  lk_policy : policy_ok k (load_balancing l) (backends l);
}.

Definition id_list (l : BackendList) : BackendList := l.

(** The end of a change: the policy is rebuilt, the rings are refreshed and the
    sweep finds nothing. *)
Lemma settle_ok j k l bs : policy_ok j (load_balancing l) bs ->
  NoDup (identity <$> backends l) -> Z.of_nat (length (backends l)) <= next_id l <= U32_MAX ->
  Forall backend_ok (backends l) -> room k (backends l) ->
  exists p, rebuild (load_balancing l) (backends l) = Val p /\
    forall clear : BackendList -> BackendList,
      (forall x, backends (clear x) = backends x /\ next_id (clear x) = next_id x /\ load_balancing (clear x) = load_balancing x /\
        shuffle_sharding (clear x) = shuffle_sharding x) ->
      exists l', refresh_siblings (clear (with_policy l p)) = Val l' /\ check_invariants l' = Val tt /\
        backends l' = backends l /\ next_id l' = next_id l /\ shuffle_sharding l' = shuffle_sharding l /\ list_ok k l'.
Proof.
  intros Hp Hnd Hid Hb Hr. destruct (law_rebuild j k (load_balancing l) bs (backends l) Hp Hr Hb) as (p & Hrun & Hok).
  exists p. split; [done |]. intros clear Hclear.
  destruct (Hclear (with_policy l p)) as (Hc1 & Hc2 & Hc3 & Hc4). cbn in Hc1, Hc2, Hc3, Hc4.
  destruct (refresh_siblings_spec (clear (with_policy l p))) as (ring & Hrun' & Hs). cbn zeta in Hrun', Hs.
  eexists. split; [exact Hrun' |].
  split; [apply check_invariants_spec; [done | cbn; rewrite Hc1, Hc2; lia | cbn; rewrite Hc1; by apply check_identities_spec] |].
  split; [exact Hc1 |]. split; [exact Hc2 |]. split; [exact Hc4 |].
  split; [cbn; by rewrite Hc1 | cbn; by rewrite Hc1, Hc2 | done | cbn; by rewrite Hc1 | cbn; by rewrite Hc1, Hc3].
Qed.

Lemma update_identity old b : identity b = identity old -> identity (update_backend old b) = identity b.
Proof. unfold identity. intros [= -> ->]. done. Qed.

Lemma existsb_identity bs b : existsb (same_identity (backend_id b) (address b)) bs = bool_decide (identity b ∈ identity <$> bs).
Proof.
  apply eq_bool_prop_intro. rewrite Is_true_true, bool_decide_spec, existsb_exists, list_elem_of_fmap. split.
  - intros (x & Hx%list_elem_of_In & He%same_identity_spec). by exists x.
  - intros (x & He & Hx%list_elem_of_In). exists x. split; [done | by apply same_identity_spec].
Qed.

(** What the registration of [b] leaves. *)
Definition registered (bs : list Backend) (b : Backend) : list Backend :=
  match find_position (same_identity (backend_id b) (address b)) bs 0 with
  | None => bs ++ [b]
  | Some p => match bs !! p with Some old => <[p := update_backend old b]> bs | None => bs end
  end.

Lemma registered_spec bs b : NoDup (identity <$> bs) -> NoDup (identity <$> registered bs b) /\
  registry (registered bs b) = <[identity b := from_option (fun old => update_backend old b) b (registry bs !! identity b)]> (registry bs).
Proof.
  intros Hnd. unfold registered. destruct (find_position _ bs 0) as [p |] eqn:E.
  - apply find_position_Some in E as (old & _ & Hp & He%same_identity_spec). rewrite Nat.sub_0_r in Hp. rewrite Hp.
    assert (Hold : registry bs !! identity b = Some old) by (apply registry_lookup; [done |]; split; [by eapply list_elem_of_lookup_2 | done]).
    pose proof (update_identity old b (eq_sym He)) as Hu. rewrite Hold. cbn [from_option].
    rewrite (identity_insert bs p old) by congruence. split; [done |].
    rewrite (registry_insert bs p old) by congruence. by rewrite Hu.
  - apply find_position_None in E. rewrite Forall_forall in E.
    assert (Hn : identity b ∉ identity <$> bs).
    { intros (x & Hx & Hin)%list_elem_of_fmap. specialize (E x Hin). symmetry in Hx. apply same_identity_spec in Hx. congruence. }
    assert (Hnd' : NoDup (identity <$> (bs ++ [b]))).
    { rewrite fmap_app. apply NoDup_app. split; [done |]. split; [| apply NoDup_singleton]. cbn. intros x Hx ->%list_elem_of_singleton. done. }
    split; [done |]. rewrite registry_snoc by done. destruct (registry bs !! identity b) as [x |] eqn:Ex; [| done].
    apply registry_lookup in Ex as [Hx He]; [| done]. destruct Hn. apply list_elem_of_fmap. by exists x.
Qed.

Definition fresh (bs : list Backend) (b : Backend) : bool := bool_decide (identity b ∉ identity <$> bs).

Lemma fresh_existsb bs b : existsb (same_identity (backend_id b) (address b)) bs = negb (fresh bs b).
Proof. rewrite existsb_identity. unfold fresh. by repeat case_bool_decide. Qed.

(** The first part of a registration. *)
Lemma add_step l b : next_id l < U32_MAX -> let l1 := with_backends l (registered (backends l) b) (next_id l + (if fresh (backends l) b then 1 else 0)) in
  (match find_position (same_identity (backend_id b) (address b)) (backends l) 0 with
   | None => id ← u32_incr (next_id l); Val (with_backends l (backends l ++ [b]) id)
   | Some p => old ← index (backends l) p; Val (with_backends l (<[p := update_backend old b]> (backends l)) (next_id l))
   end : checked BackendList) = Val l1 /\
  length (backends l1) = (length (backends l) + (if fresh (backends l) b then 1 else 0))%nat /\ has_backend l1 (address b) = true.
Proof.
  intros Hn l1. unfold l1, has_backend. cbn [backends with_backends]. unfold registered. destruct (find_position _ (backends l) 0) as [p |] eqn:E.
  - apply find_position_Some in E as (old & _ & Hold & He). rewrite Nat.sub_0_r in Hold. rewrite Hold.
    pose proof He as He'%same_identity_spec. assert (Hf : fresh (backends l) b = false).
    { apply bool_decide_eq_false. intros Hnx. apply Hnx, list_elem_of_fmap. exists old. split; [done | by eapply list_elem_of_lookup_2]. }
    rewrite Hf, Nat.add_0_r, Z.add_0_r, length_insert, (index_Some _ _ _ Hold). split; [done |]. split; [done |].
    apply existsb_exists. exists (update_backend old b). injection He' as _ Ha. split; [| by apply bool_decide_eq_true].
    apply list_elem_of_In, list_elem_of_lookup. exists p. rewrite list_lookup_insert_eq; [done | by eapply lookup_lt_Some].
  - apply find_position_None in E. rewrite Forall_forall in E.
    assert (Hf : fresh (backends l) b = true).
    { apply bool_decide_eq_true. intros (x & Hx & Hin)%list_elem_of_fmap. specialize (E x Hin). symmetry in Hx.
      apply same_identity_spec in Hx. congruence. }
    unfold u32_incr. rewrite Hf, length_app, (debug_assert_true (next_id l <? U32_MAX)) by by apply Z.ltb_lt.
    split; [done |]. split; [done |]. apply existsb_exists. exists b. split; [| by apply bool_decide_eq_true].
    apply list_elem_of_In, elem_of_app. right. left.
Qed.

Lemma add_backend_ok j k l b :
  list_ok j l -> next_id l < U32_MAX -> room k (registered (backends l) b) -> Forall backend_ok (registered (backends l) b) ->
  exists l', add_backend l b = Val l' /\ list_ok k l' /\ backends l' = registered (backends l) b /\
    next_id l' = next_id l + (if fresh (backends l) b then 1 else 0) /\ shuffle_sharding l' = shuffle_sharding l.
Proof.
  intros [Hnd Hid Hs Hf Hp] Hn Hr Hf'. destruct (registered_spec (backends l) b Hnd) as [Hnd' _].
  destruct (add_step l b Hn) as (Hstep & Hlen & Hhas). unfold add_backend. rewrite Hstep. cbn [mbind outcome_bind].
  set (l1 := with_backends l _ _) in *. rewrite fresh_existsb.
  rewrite (debug_assert_true (_ =? _)%nat) by (apply Nat.eqb_eq; rewrite Hlen; by destruct (fresh _ _)). cbn [mbind outcome_bind].
  rewrite (debug_assert_true (next_id l1 =? _)) by (apply Z.eqb_eq; unfold l1; cbn; by destruct (fresh _ _)). cbn [mbind outcome_bind].
  rewrite (debug_assert_true (has_backend l1 (address b))) by exact Hhas. cbn [mbind outcome_bind].
  destruct (settle_ok j k l1 (backends l) Hp) as (p & Hreb & Hset); [done | | done | done |].
  { rewrite Hlen. unfold l1. cbn. destruct (fresh _ _); lia. }
  rewrite Hreb. cbn [mbind outcome_bind]. destruct (Hset clear_buffers ltac:(done)) as (l' & -> & Hchk & Hbs & Hni & Hss & Hok).
  cbn [mbind outcome_bind]. rewrite Hchk. exists l'. by rewrite Hbs, Hni, Hss.
Qed.

Lemma update_ok old b : backend_ok old -> backend_ok b -> backend_ok (update_backend old b).
Proof. intros (H1 & H2 & _) (_ & _ & H3). split; [done |]. split; [done |]. exact H3. Qed.

Lemma registered_ok bs b : Forall backend_ok bs -> backend_ok b -> Forall backend_ok (registered bs b).
Proof.
  intros Hf Hb. unfold registered. destruct (find_position _ bs 0) as [p |]; [| apply Forall_app; split; [done | by apply Forall_singleton]].
  destruct (bs !! p) as [old |] eqn:E; [| done]. apply Forall_insert; [done |]. apply update_ok; [| done].
  rewrite Forall_forall in Hf. by eapply Hf, list_elem_of_lookup_2.
Qed.

(** ** Removals *)

Definition without (bs : list Backend) (key : list Z * SocketAddr) : list Backend := filter (fun b => identity b <> key) bs.

Lemma without_length bs key : NoDup (identity <$> bs) ->
  length (without bs key) = (length bs - (if bool_decide (key ∈ identity <$> bs) then 1 else 0))%nat.
Proof.
  induction bs as [| b bs IH]; cbn [fmap list_fmap]; [by rewrite bool_decide_eq_false_2 by apply not_elem_of_nil |].
  intros [Hb Hnd]%NoDup_cons. unfold without. rewrite filter_cons. fold (without bs key). destruct (decide (identity b = key)) as [<- | Hne].
  - rewrite decide_False, bool_decide_eq_true_2 by (try left; naive_solver). rewrite IH, bool_decide_eq_false_2 by done. cbn. lia.
  - rewrite decide_True by done. cbn [length]. rewrite IH by done.
    rewrite (bool_decide_ext (key ∈ identity b :: (identity <$> bs)) (key ∈ identity <$> bs)).
    2: { rewrite elem_of_cons. naive_solver. }
    case_bool_decide as Hin; [| lia]. destruct bs; [by apply not_elem_of_nil in Hin | cbn; lia].
Qed.

Lemma remove_backend_ok k l id addr : list_ok k l -> room k (without (backends l) (id, addr)) ->
  exists l', remove_backend l id addr = Val (l', set_closing <$> filter (fun b => identity b = (id, addr)) (backends l),
      bool_decide ((id, addr) ∈ identity <$> backends l)) /\
    list_ok k l' /\ backends l' = without (backends l) (id, addr) /\ next_id l' = next_id l.
Proof.
  intros Hl Hr. pose proof Hl as [Hnd Hid Hs Hf Hp]. unfold remove_backend.
  set (named := fun b => bool_decide (backend_id b = id) && bool_decide (address b = addr)).
  assert (Hnamed : forall b, named b = true <-> identity b = (id, addr)).
  { intros b. unfold named, identity. rewrite andb_true_iff, !bool_decide_eq_true. split; [by intros [-> ->] | by intros [= -> ->]]. }
  assert (He : existsb named (backends l) = bool_decide ((id, addr) ∈ identity <$> backends l)).
  { apply eq_bool_prop_intro. rewrite Is_true_true, bool_decide_spec, existsb_exists, list_elem_of_fmap. split.
    - intros (x & Hx%list_elem_of_In & Hn%Hnamed). by exists x.
    - intros (x & Hx & Hin%list_elem_of_In). exists x. split; [done | by apply Hnamed]. }
  rewrite (filter_ext_in (fun b => named b = true) (fun b => identity b = (id, addr))) by (intros; apply Hnamed).
  rewrite (filter_ext_in (fun b => named b = false) (fun b => identity b <> (id, addr))).
  2: { intros b _. rewrite <- Hnamed. by destruct (named b). }
  fold (without (backends l) (id, addr)). rewrite He. set (l1 := with_backends l _ _).
  rewrite (debug_assert_true (_ =? _)%nat) by (apply Nat.eqb_eq, without_length, Hnd). cbn [mbind outcome_bind].
  assert (Hnone : find_backend_by_identity l1 id addr = None).
  { unfold find_backend_by_identity. fold named. destruct (find_position _ _ _) as [p |] eqn:E; [| done].
    apply find_position_Some in E as (b & _ & Hb & Hn%Hnamed). apply list_elem_of_lookup_2 in Hb. cbn in Hb.
    by apply list_elem_of_filter in Hb as [? _]. }
  rewrite Hnone. cbn [debug_assert mbind outcome_bind]. case_bool_decide as Hin.
  - destruct (settle_ok k k l1 (backends l) Hp) as (p & Hreb & Hset).
    + by apply NoDup_fmap_filter.
    + unfold l1. cbn. rewrite without_length by done. lia.
    + apply Forall_forall. intros x [_ Hx]%list_elem_of_filter. rewrite Forall_forall in Hf. by apply Hf.
    + done.
    + rewrite Hreb. cbn [mbind outcome_bind]. destruct (Hset id_list ltac:(done)) as (l' & Hrun & Hchk & Hbs & Hni & _ & Hok).
      unfold id_list in Hrun. rewrite Hrun. cbn [mbind outcome_bind]. rewrite Hchk. by exists l'.
  - assert (Hw : without (backends l) (id, addr) = backends l).
    { apply filter_all, Forall_forall. intros b Hb Hi. apply Hin, list_elem_of_fmap. by exists b. }
    assert (l1 = l) as -> by (unfold l1; rewrite Hw; by destruct l). cbn [mbind outcome_bind].
    rewrite (check_invariants_spec l Hs) by (lia || by apply check_identities_spec). exists l. by rewrite Hw.
Qed.

(** ** Policies *)

Lemma rr_new_ok : rr_ok 0 round_robin_new [].
Proof. split; [done |]. split; [done |]. split; [done |]. split; [done |]. exists 0. split; [intros p; unfold value; cbn [current_weights round_robin_new]; by rewrite lookup_nil | done]. Qed.

Lemma set_policy_ok k l alg metric seed : list_ok k l -> room k (backends l) ->
  exists p, set_load_balancing_policy l alg metric seed = Val (with_policy l p) /\ list_ok k (with_policy l p).
Proof.
  intros [Hnd Hid Hs Hf Hp] Hr. unfold set_load_balancing_policy.
  assert (Hdone : forall p, policy_ok k p (backends l) -> list_ok k (with_policy l p)).
  { intros p Hpk. split; [done | done | | done | done]. by destruct Hs. }
  destruct alg.
  - assert (Hn : policy_ok 0 round_robin_new []) by exact rr_new_ok.
    destruct (law_rebuild 0 k round_robin_new [] (backends l) Hn Hr Hf) as (p & -> & Hok). eexists. split; [done | by apply Hdone].
  - eexists. split; [done | by apply Hdone].
  - eexists. split; [done | by apply Hdone].
  - eexists. split; [done | by apply Hdone].
  - assert (Hn : policy_ok 0 rendezvous_new []) by (split; [done | apply rr_new_ok]).
    destruct (law_rebuild 0 k rendezvous_new [] (backends l) Hn Hr Hf) as (p & -> & Hok). eexists. split; [done | by apply Hdone].
  - destruct maglev_new_ok as (g & Hg & Hsz & _). rewrite Hg. cbn [mbind outcome_bind].
    assert (Hrr : mg_round_robin g = round_robin_new) by (apply bind_Val in Hg as (size & _ & [= <-]); done).
    clear Hg. assert (Hn : policy_ok 0 g []) by (split; [done |]; split; [done | rewrite Hrr; apply rr_new_ok]).
    destruct (law_rebuild 0 k g [] (backends l) Hn Hr Hf) as (p & -> & Hok). eexists. split; [done | by apply Hdone].
Qed.

(** A new list. *)
Lemma list_with_seed_ok k seed : list_ok k (list_with_seed seed).
Proof.
  split; [constructor | done | | constructor | done]. split; [| by rewrite bool_decide_eq_false_2 by (intros Hn; apply Hn; constructor) | done | done].
  split; [done |]. cbn. lia.
Qed.

(** The list after an operation. *)
Definition backends_after (bs : list Backend) (op : ListOp) : list Backend :=
  match op with
  | AddBackend b => registered bs b
  | RemoveBackend id addr => without bs (id, addr)
  | SetPolicy _ _ _ | SetSharding _ => bs
  end.

(** An added backend is one, and the registration counter has room for it. *)
Definition op_ok (l : BackendList) (op : ListOp) : Prop :=
  match op with AddBackend b => backend_ok b /\ next_id l < U32_MAX | _ => True end.

End Registration.

(** C13. A backend list implements the map of its backends by identity: any operation
    of the control plane ends without a failed assertion, the full sweep over
    the list's invariants included, keeps the invariant, and does to the list
    what it does to the map; an address may be shared by any number of
    backends. *)
Theorem registry_refines `{LM : Libm} `{RL : RandLaws} k l op :
  list_ok k l -> op_ok l op -> room k (backends_after (backends l) op) ->
  exists l', list_apply l op = Val l' /\ list_ok k l' /\ backends l' = backends_after (backends l) op /\
    registry (backends l') = registry_apply (registry (backends l)) op.
Proof.
  intros Hl Hop Hr. pose proof (lk_ids _ _ Hl) as Hnd. destruct op as [b | id addr | alg metric seed | s]; cbn [list_apply backends_after registry_apply] in *.
  - destruct Hop as [Hb Hn]. destruct (add_backend_ok k k l b Hl Hn Hr) as (l' & -> & Hok & Hbs & _).
    { apply registered_ok; [apply Hl | done]. }
    exists l'. rewrite Hbs. split; [done |]. split; [done |]. split; [done |]. by apply registered_spec.
  - destruct (remove_backend_ok k l id addr Hl Hr) as (l' & -> & Hok & Hbs & _). exists l'. rewrite Hbs. split; [done |]. split; [done |].
    split; [done |]. by apply registry_filter.
  - destruct (set_policy_ok k l alg metric seed Hl Hr) as (p & -> & Hok). by eexists.
  - eexists. split; [done |]. split; [| done]. destruct Hl as [H1 H2 H3 H4 H5]. split; [done | done | | done | done]. by destruct H3.
Qed.

(** ** An example *)

Definition example_libm : Libm := {| f64_ln := example_ln; f64_exp := fun x => x |}.

#[local] Existing Instance example_libm.
#[local] Existing Instance counting_rand.
#[local] Existing Instance counting_rand_laws.

Lemma room_small k bs : Z.of_nat (length bs) * (Z.of_nat k * list_weight bs) < 2 ^ 63 -> Z.of_nat (length bs) < 2 ^ 32 -> room k bs.
Proof. by split. Qed.

Lemma example_backend_ok id w : default DEFAULT_WEIGHT w <= I32_MAX -> backend_ok (example_backend id w).
Proof. intros Hw. split; [done |]. split; [done |]. unfold backend_weight. cbn. unfold I32_MAX in *. lia. Qed.

Lemma registry_refines_witness : exists l,
  list_apply (list_with_seed 1) (AddBackend (example_backend 1 (Some 5))) = Val l /\ list_ok 1000 l /\
  registry (backends l) !! ([1], V4 (mkSocketAddrV4 [127; 0; 0; 1] 8080)) = Some (example_backend 1 (Some 5)).
Proof.
  destruct (registry_refines 1000 (list_with_seed 1) (AddBackend (example_backend 1 (Some 5)))) as (l & Hrun & Hok & _ & Hreg).
  - apply list_with_seed_ok.
  - split; [by apply example_backend_ok | done].
  - by split.
  - exists l. split; [done |]. split; [done |]. rewrite Hreg. by vm_compute.
Defined.
