(* ===== verification/SelectionSpec.v ===== *)
(** * What a selection of a backend list takes

    The candidates of a selection as a reference definition over the tiers and
    the client's shard, the backend that stands for a shared address, the shard
    itself, and the theorem that a selection takes one of these candidates and
    none only when there are none. *)

From Stdlib Require Import SpecFloat.
From stdpp Require Import sorting.
From S2P Require Import Prelude Retry ProxyProtocol Backend AffinityHash LoadBalancing RoundRobinSpec PolicySpec LoadSpec Policies PolicyLaws BackendList SiblingSpec BackendListSpec.

(** ** Candidates *)

Lemma positions_where_elem keep bs : forall i p, p ∈ positions_where keep bs i <->
  (i <= p)%nat /\ exists b, bs !! (p - i)%nat = Some b /\ keep b = true.
Proof.
  induction bs as [| b bs IH]; intros i p; cbn [positions_where].
  { split; [by intros ?%not_elem_of_nil |]. intros (_ & b & Hb & _). by rewrite lookup_nil in Hb. }
  assert (Hcase : p ∈ positions_where keep bs (S i) <-> (i < p)%nat /\ exists b', (b :: bs) !! (p - i)%nat = Some b' /\ keep b' = true).
  { rewrite IH. destruct (decide (i < p)%nat) as [Hlt | Hge]; [| split; intros [? _]; lia].
    replace (p - i)%nat with (S (p - S i)) by lia. cbn. split; intros [_ ?]; (split; [lia | done]). }
  destruct (keep b) eqn:Ek; rewrite ?elem_of_cons, Hcase; split.
  - intros [-> | [Hlt H]]; [split; [lia |]; exists b; rewrite Nat.sub_diag; done | split; [lia | done]].
  - intros [Hle H]. destruct (decide (p = i)) as [-> | Hne]; [by left | right; split; [lia | done]].
  - intros [Hlt H]. split; [lia | done].
  - intros [Hle (b' & Hb' & Hk)]. destruct (decide (p = i)) as [-> | Hne]; [| split; [lia | by exists b']].
    rewrite Nat.sub_diag in Hb'. cbn in Hb'. congruence.
Qed.

Lemma increasing_cons a l : strictly_increasing l = true -> (forall b, b ∈ l -> (a < b)%nat) -> strictly_increasing (a :: l) = true.
Proof.
  destruct l as [| b l]; [done |]. intros Hs Ha. cbn [strictly_increasing]. apply andb_true_iff. split; [| done].
  apply Nat.ltb_lt, Ha. left.
Qed.

Lemma positions_where_sorted keep bs : forall i, strictly_increasing (positions_where keep bs i) = true.
Proof.
  induction bs as [| b bs IH]; intros i; cbn [positions_where]; [done |]. destruct (keep b); [| apply IH].
  apply increasing_cons; [apply IH |]. intros p (Hle & _)%positions_where_elem. lia.
Qed.

Lemma positions_where_length keep bs : forall i, (length (positions_where keep bs i) <= length bs)%nat.
Proof. induction bs as [| b bs IH]; intros i; cbn [positions_where]; [done |]. specialize (IH (S i)). destruct (keep b); cbn; lia. Qed.

Lemma increasing_filter (P : nat -> Prop) `{!forall x, Decision (P x)} l :
  strictly_increasing l = true -> strictly_increasing (filter P l) = true.
Proof.
  induction l as [| a l IH]; intros Hs; [done |]. pose proof (IH (increasing_tail _ _ Hs)) as IH'. rewrite filter_cons.
  case_decide; [| done]. apply increasing_cons; [done |]. intros b [_ Hb]%list_elem_of_filter.
  pose proof (increasing_above _ _ Hs) as Hf. rewrite Forall_forall in Hf. by apply Hf.
Qed.

(** ** One candidate per address *)

(** The candidates that no candidate of their address outranks. *)
Definition kept (bs : list Backend) (cands : list nat) : list nat :=
  filter (fun p => forallb (fun q => negb (outranks bs q p)) cands = true) cands.

Lemma outranks_spec bs q p : outranks bs q p = true <-> exists o b, bs !! q = Some o /\ bs !! p = Some b /\ address o = address b /\ q <> p /\
  (backend_weight b < backend_weight o \/ (backend_weight o = backend_weight b /\ (q < p)%nat)).
Proof.
  unfold outranks, outranks_at_address. destruct (bs !! q) as [o |], (bs !! p) as [b |]; try (split; [done | naive_solver]).
  case_bool_decide as Ha; cbn [negb orb]; [| split; [done | naive_solver]].
  destruct (Nat.eqb_spec q p) as [-> | Hne]; [split; [done | naive_solver] |].
  rewrite orb_true_iff, andb_true_iff, Z.ltb_lt, Z.eqb_eq, Nat.ltb_lt. split; [intros H; exists o, b; split_and!; done | naive_solver].
Qed.

Lemma outranks_trans bs x y z : outranks bs x y = true -> outranks bs y z = true -> outranks bs x z = true.
Proof.
  rewrite !outranks_spec. intros (o & b & Ho & Hb & Ha & Hne & Hw) (b' & d & Hb' & Hd & Ha' & Hne' & Hw').
  rewrite Hb in Hb'. injection Hb' as <-. exists o, d. split_and!; [done | done | congruence | | lia].
  intros ->. rewrite Ho in Hd. injection Hd as ->. lia.
Qed.

Lemma outranks_total bs p q a : at_address bs a p -> at_address bs a q -> p <> q -> outranks bs p q = true \/ outranks bs q p = true.
Proof.
  unfold at_address. intros (b & Hb & ->)%fmap_Some (b' & Hb' & Ha)%fmap_Some Hne. rewrite !outranks_spec.
  destruct (Z.lt_trichotomy (backend_weight b) (backend_weight b')) as [? | [? | ?]]; [right | | left].
  - exists b', b. split_and!; try done. by left.
  - destruct (decide (p < q)%nat); [left; exists b, b' | right; exists b', b]; split_and!; try done; right; (split; [done | lia]).
  - exists b, b'. split_and!; try done. by left.
Qed.

Lemma outranks_self bs p : outranks bs p p = false.
Proof. destruct (outranks bs p p) eqn:E; [| done]. by apply outranks_sibling in E as [? _]. Qed.

(** Some candidate at or above each is not outranked. *)
Lemma outranks_top bs (l : list nat) p : p ∈ l -> exists m, m ∈ l /\ (m = p \/ outranks bs m p = true) /\ forall x, x ∈ l -> outranks bs x m = false.
Proof.
  intros Hp. enough (Hn : forall (todo : list nat) m, m ∈ l -> (m = p \/ outranks bs m p = true) -> todo ⊆ l ->
    (forall x, x ∈ l -> x ∉ todo -> outranks bs x m = false) ->
    exists m, m ∈ l /\ (m = p \/ outranks bs m p = true) /\ forall x, x ∈ l -> outranks bs x m = false).
  { apply (Hn l p Hp); [by left | done | naive_solver]. }
  induction todo as [| y todo IH]; intros m Hm Hmp Hsub Hdone.
  { exists m. split; [done |]. split; [done |]. intros x Hx. apply Hdone; [done | apply not_elem_of_nil]. }
  assert (Hy : y ∈ l) by (apply Hsub; left). assert (Hsub' : todo ⊆ l) by (intros x Hx; apply Hsub; by right).
  destruct (outranks bs y m) eqn:E.
  - apply (IH y Hy); [right; destruct Hmp as [-> | Hmp]; [done | by eapply outranks_trans] | done |].
    intros x Hx Hnx. destruct (outranks bs x y) eqn:Exy; [| done]. pose proof (outranks_trans bs x y m Exy E) as Hxm.
    destruct (decide (x = y)) as [-> | Hxy]; [by rewrite outranks_self in Exy |]. rewrite Hdone in Hxm; [done | done |].
    by apply not_elem_of_cons.
  - apply (IH m Hm); [done | done |]. intros x Hx Hnx. destruct (decide (x = y)) as [-> | Hxy]; [done |].
    apply Hdone; [done | by apply not_elem_of_cons].
Qed.

Lemma kept_elem bs l p : p ∈ kept bs l <-> p ∈ l /\ forall q, q ∈ l -> outranks bs q p = false.
Proof.
  unfold kept. rewrite list_elem_of_filter, forallb_forall. split.
  - intros [Hf Hp]. split; [done |]. intros q Hq%list_elem_of_In. by apply negb_true_iff, Hf.
  - intros [Hp Hf]. split; [| done]. intros q Hq%list_elem_of_In. by apply negb_true_iff, Hf.
Qed.

Lemma kept_nonempty bs l : l <> [] -> kept bs l <> [].
Proof.
  destruct l as [| p l]; [done |]. intros _ Hk. destruct (outranks_top bs (p :: l) p ltac:(left)) as (m & Hm & _ & Hmax).
  assert (Hin : m ∈ kept bs (p :: l)) by (by apply kept_elem). rewrite Hk in Hin. by apply not_elem_of_nil in Hin.
Qed.

Lemma outranked_walk_spec bs ring cands b start l : bs !! start = Some b -> forall p fuel r,
  linked ring p l start -> start ∉ l -> Forall (fun q => (q < length bs)%nat) l -> (length l < fuel)%nat ->
  outranked_walk fuel bs ring cands b start r (default start (ring !! p)) =
    Val (r || existsb (fun q => found cands q && outranks bs q start) l).
Proof.
  intros Hb. induction l as [| q l IH]; intros p [| fuel] r Hl Hs Hf Hfu; cbn [length] in Hfu; try lia; cbn [linked] in Hl.
  - rewrite Hl. cbn [default from_option existsb outranked_walk]. by rewrite Nat.eqb_refl, andb_false_r, orb_false_r.
  - destruct Hl as [Hq Hl]. rewrite Hq. change (default start (Some q)) with q. cbn [outranked_walk existsb].
    apply not_elem_of_cons in Hs as [Hne Hs]. apply Forall_cons in Hf as [Hqr Hf].
    destruct (Nat.eqb_spec q start) as [-> | _]; [done |]. cbn [negb]. rewrite andb_true_r. destruct r; [done |]. cbn [negb].
    destruct (lookup_lt_is_Some_2 bs q Hqr) as [o Ho]. rewrite (index_Some _ _ _ Ho). cbn [mbind outcome_bind].
    pose proof (linked_head _ _ _ _ Hl) as Hn. rewrite (index_Some _ _ _ Hn). cbn [mbind outcome_bind].
    pose proof (IH q fuel (found cands q && outranks_at_address o q b start) Hl Hs Hf ltac:(lia)) as Hrec.
    rewrite Hn in Hrec. change (default start (Some ?x)) with x in Hrec. rewrite Hrec. unfold outranks at 2. rewrite Ho, Hb. done.
Qed.

Lemma forallb_ext {A} (f g : A -> bool) l : (forall x, f x = g x) -> forallb f l = forallb g l.
Proof. intros Hfg. induction l as [| x l IH]; cbn; [done |]. by rewrite Hfg, IH. Qed.

Lemma forallb_negb {A} (f : A -> bool) l : forallb (fun x => negb (f x)) l = negb (existsb f l).
Proof. induction l as [| x l IH]; cbn; [done |]. by rewrite IH, negb_orb. Qed.

Lemma collapse_loop_spec bs ring cands todo : ring_ok bs ring -> Forall (fun p => (p < length bs)%nat) todo ->
  collapse_loop bs ring cands todo = Val (filter (fun p => forallb (fun q => negb (outranks bs q p)) cands = true) todo).
Proof.
  intros Hr. induction 1 as [| p todo Hp _ IH]; [done |]. cbn [collapse_loop].
  destruct (ring_path bs ring p Hr Hp) as (l & Hl & Hn & Hlen & Hf & Hel). pose proof (linked_head _ _ _ _ Hl) as Hh.
  destruct (lookup_lt_is_Some_2 bs p Hp) as [b Hb]. rewrite (index_Some _ _ _ Hh). cbn [mbind outcome_bind].
  assert (Hwalk : (if (default p (head l) =? p)%nat then Val false
    else b ← index bs p; outranked_walk (S (length ring)) bs ring cands b p false (default p (head l)) : checked bool) =
    Val (existsb (fun q => found cands q && outranks bs q p) l)).
  { destruct (Nat.eqb_spec (default p (head l)) p) as [He | _].
    - destruct l as [| x l]; [done |]. cbn in He. subst x. destruct Hn. left.
    - rewrite (index_Some _ _ _ Hb). cbn [mbind outcome_bind].
      pose proof (outranked_walk_spec bs ring cands b p l Hb p (S (length ring)) false Hl Hn Hf Hlen) as Hw.
      rewrite Hh in Hw. exact Hw. }
  rewrite Hwalk. cbn [mbind outcome_bind]. rewrite IH. cbn [mbind outcome_bind]. rewrite filter_cons.
  assert (Heq : existsb (fun q => found cands q && outranks bs q p) l = negb (forallb (fun q => negb (outranks bs q p)) cands)).
  { rewrite forallb_negb, negb_involutive. apply eq_bool_prop_intro. rewrite !Is_true_true, !existsb_exists. split.
    - intros (q & _ & [Hq Ho]%andb_true_iff). apply bool_decide_eq_true in Hq. exists q. split; [by apply list_elem_of_In | done].
    - intros (q & Hq%list_elem_of_In & Ho). exists q. split; [by apply list_elem_of_In, Hel, outranks_sibling |].
      apply andb_true_iff. split; [by apply bool_decide_eq_true | done]. }
  rewrite Heq. by destruct (forallb _ cands).
Qed.

Lemma kept_distinct bs l : NoDup (address <$> bs) -> kept bs l = l.
Proof.
  intros Hnd. apply filter_all, Forall_forall. intros p _. apply forallb_forall. intros q _. apply negb_true_iff.
  destruct (outranks bs q p) eqn:E; [| done]. apply outranks_spec in E as (o & b & Ho & Hb & Ha & Hne & _). destruct Hne.
  apply (NoDup_lookup _ q p (address b) Hnd); rewrite list_lookup_fmap, ?Ho, ?Hb; cbn; congruence.
Qed.

Section Selection.
Context `{LM : Libm} `{RL : RandLaws}.

Definition cands_ok (l : BackendList) : Prop :=
  Forall (fun p => (p < length (backends l))%nat) (candidates l) /\ strictly_increasing (candidates l) = true.

Lemma collapse_shared_spec l : siblings_ok l -> cands_ok l ->
  exists coll, collapse_shared_addresses l = Val (with_candidates l (kept (backends l) (candidates l)) coll).
Proof.
  intros Hs [Hr Hinc]. unfold collapse_shared_addresses. rewrite (sb_shares _ Hs). destruct (decide (NoDup (address <$> backends l))) as [Hnd | Hnd].
  - rewrite bool_decide_eq_false_2 by (intros Hn; by apply Hn). cbn [negb orb]. exists (collapsed l). rewrite kept_distinct by done. by destruct l.
  - rewrite bool_decide_eq_true_2 by done. rewrite (proj1 (sb_ring _ Hs)), Nat.eqb_refl. cbn [negb orb].
    rewrite (collapse_loop_spec _ _ _ _ (sb_ring _ Hs) Hr). cbn [mbind outcome_bind]. fold (kept (backends l) (candidates l)).
    cbn [candidates collapsed with_candidates]. rewrite (debug_assert_true (_ <=? _)%nat) by (apply Nat.leb_le, length_filter).
    cbn [mbind outcome_bind]. rewrite debug_assert_true; [by exists (candidates l) |].
    destruct (candidates l) as [| p ps] eqn:E; [done |]. apply orb_true_iff. right. apply negb_true_iff, Nat.eqb_neq.
    intros Hz%length_zero_iff_nil. by apply (kept_nonempty (backends l) (p :: ps)) in Hz.
Qed.

Lemma collect_spec l keep : let cands := positions_where keep (backends l) 0 in
  collect_candidates l keep = Val (with_candidates l cands (collapsed l), length cands) /\
  cands_ok (with_candidates l cands (collapsed l)).
Proof.
  cbn zeta. unfold collect_candidates. rewrite (debug_assert_true (_ <=? _)%nat) by (apply Nat.leb_le, positions_where_length).
  cbn [mbind outcome_bind]. rewrite debug_assert_true by apply positions_where_sorted. split; [done |]. split; [| apply positions_where_sorted].
  apply Forall_forall. intros p (_ & b & Hb & _)%positions_where_elem. rewrite Nat.sub_0_r in Hb. by eapply lookup_lt_Some.
Qed.

(** ** The choice *)

Lemma view_of_list k l now : list_ok k l -> cands_ok l -> candidates l <> [] ->
  exists c, with_siblings (backends l) (candidates l) (sibling_ring l) now = Val c /\ view_ok c /\
    cd_backends c = backends l /\ cd_indices c = candidates l.
Proof.
  intros Hl [Hr Hinc] Hne. pose proof (sb_ring _ (lk_siblings _ _ Hl)) as Hring. unfold with_siblings.
  rewrite (proj1 Hring), Nat.eqb_refl. rewrite (debug_assert_true (forallb _ (sibling_ring l))).
  2: { apply forallb_forall. intros q Hq%list_elem_of_In. apply list_elem_of_lookup_1 in Hq as [p Hp].
    apply (ring_same_address _ _ _ _ Hring), same_address_lt in Hp. by apply Nat.ltb_lt. }
  cbn [mbind outcome_bind]. unfold candidates_new. rewrite (debug_assert_true (forallb _ (candidates l))).
  2: { apply forallb_forall. intros q Hq%list_elem_of_In. rewrite Forall_forall in Hr. by apply Nat.ltb_lt, Hr. }
  cbn [mbind outcome_bind]. rewrite debug_assert_true by done. cbn [mbind outcome_bind]. eexists. split; [done |].
  split; [| done]. split; [by split | done | apply Hl | done].
Qed.

Lemma same_but_time_config bs bs' : same_but_time bs bs' -> same_config bs bs' /\ identity <$> bs = identity <$> bs' /\ backup <$> bs = backup <$> bs'.
Proof.
  intros Hs. assert (Hf : forall {A} (f : Backend -> A), (forall b, f (settled b) = f b) -> f <$> bs = f <$> bs').
  { intros A f Hf. transitivity (f <$> (settled <$> bs)); [rewrite <- list_fmap_compose; apply list_fmap_ext; intros i x _; cbn; by rewrite Hf |].
    rewrite Hs, <- list_fmap_compose. apply list_fmap_ext. intros i x _. cbn. by rewrite Hf. }
  split; [split; by apply Hf |]. split; by apply Hf.
Qed.

(** What the rings are computed from. *)
Definition same_shape (bs bs' : list Backend) : Prop := same_config bs bs' /\ backup <$> bs = backup <$> bs'.

Lemma shape_lookup {A} (f : Backend -> A) (bs bs' : list Backend) (p : nat) : f <$> bs = f <$> bs' -> f <$> bs !! p = f <$> bs' !! p.
Proof. intros Hf. by rewrite <- !list_lookup_fmap, Hf. Qed.

Lemma shape_ring bs bs' ring : same_shape bs bs' -> ring_ok bs ring -> ring_ok bs' ring.
Proof.
  intros [Hs _] [Hlen Hr]. pose proof (same_config_length _ _ Hs) as Hl. destruct Hs as [Ha _]. split; [congruence |].
  intros p Hp. destruct (Hr p ltac:(lia)) as (l & Hlk & Hnd & Hel). exists l. split; [done |]. split; [done |].
  intros q. rewrite Hel. unfold same_address. rewrite !(shape_lookup address bs bs' _ Ha).
  rewrite <- !(fmap_is_Some address), (shape_lookup address bs bs' _ Ha). done.
Qed.

Lemma shape_outranks bs bs' q p : same_shape bs bs' -> outranks bs q p = outranks bs' q p.
Proof.
  intros [[Ha Hw] _]. pose proof (shape_lookup address bs bs' q Ha) as Haq. pose proof (shape_lookup address bs bs' p Ha) as Hap.
  pose proof (shape_lookup backend_weight bs bs' q Hw) as Hwq. pose proof (shape_lookup backend_weight bs bs' p Hw) as Hwp.
  unfold outranks, outranks_at_address. destruct (bs !! q), (bs' !! q), (bs !! p), (bs' !! p); try done.
  injection Haq as ->. injection Hap as ->. injection Hwq as ->. injection Hwp as ->. done.
Qed.

Lemma shape_backup bs bs' q : same_shape bs bs' -> is_backup bs q = is_backup bs' q.
Proof.
  intros [_ Hb]. pose proof (shape_lookup backup bs bs' q Hb) as Hq. unfold is_backup.
  destruct (bs !! q), (bs' !! q); try done. by injection Hq.
Qed.

Lemma shape_length bs bs' : same_shape bs bs' -> length bs = length bs'.
Proof. intros [Hs _]. by apply same_config_length. Qed.

Lemma shape_represents bs bs' : same_shape bs bs' -> forall p, represents bs p = represents bs' p.
Proof.
  intros Hs p. unfold represents. rewrite (shape_backup bs bs' p Hs), (shape_length _ _ Hs). f_equal. apply forallb_ext. intros q.
  by rewrite (shape_backup bs bs' q Hs), (shape_outranks bs bs' q p Hs).
Qed.

Lemma siblings_shape l l' : same_shape (backends l) (backends l') -> shares_address l' = shares_address l ->
  sibling_ring l' = sibling_ring l -> shard_representative l' = shard_representative l -> shard_addresses l' = shard_addresses l ->
  siblings_ok l -> siblings_ok l'.
Proof.
  intros Hs H1 H2 H3 H4 [Hr Hsh Hrep Hc]. split.
  - rewrite H2. by eapply shape_ring.
  - rewrite H1, Hsh. destruct Hs as [[-> _] _]. done.
  - rewrite H3, Hrep, (shape_length _ _ Hs). apply list_fmap_ext. intros i x _. by apply shape_represents.
  - by rewrite H4, H3.
Qed.

Lemma same_but_time_shape bs bs' : same_but_time bs bs' -> same_shape bs bs'.
Proof. intros Hs. apply same_but_time_config in Hs as (? & _ & ?). by split. Qed.

(** The algorithm a policy runs, its state apart. *)
Definition algorithm (p : Policy) : LoadBalancingAlgorithms :=
  match p with
  | ByRoundRobin _ => ALG_ROUND_ROBIN
  | ByRandom _ => ALG_RANDOM
  | ByLeastLoaded _ => ALG_LEAST_LOADED
  | ByPowerOfTwo _ => ALG_POWER_OF_TWO
  | ByRendezvous _ => ALG_HRW
  | ByMaglev _ => ALG_MAGLEV
  end.

Lemma boxed_algorithm p key c p' bs q : next_available_backend p key c = Val (p', bs, q) -> algorithm p' = algorithm p.
Proof.
  destruct p as [p | p | p | p | p | p]; cbn [next_available_backend boxed_policy]; unfold boxed;
    (destruct (next_available_backend p key c) as [[[??] ?] | |]; cbn [mbind outcome_bind]; [| done..]; by intros [= <- _ _]).
Qed.

(** The policy takes one of the candidates and keeps the invariant. *)
Lemma pick_spec k l key now : list_ok (S k) l -> cands_ok l -> candidates l <> [] -> keyed key (backends l) ->
  exists p' bs' q, let l' := with_policy (with_backends l bs' (next_id l)) p' in
    pick l key now = Val (l', Some q) /\ q ∈ candidates l /\ same_but_time (backends l) bs' /\ list_ok k l' /\
    algorithm p' = algorithm (load_balancing l).
Proof.
  intros Hl Hc Hne Hk. destruct (view_of_list _ l now Hl Hc Hne) as (c & Hv & Hok & Hcb & Hci). unfold pick. rewrite Hv. cbn [mbind outcome_bind].
  rewrite <- Hcb in Hk. pose proof (lk_policy _ _ Hl) as Hp. rewrite <- Hcb in Hp.
  destruct (law_next k _ key c Hok Hk Hp) as (p' & bs' & q & Hrun & Hq & Hs & Hp'). apply boxed_algorithm in Hrun as Halg.
  rewrite Hrun. cbn [mbind outcome_bind].
  exists p', bs', q. rewrite Hcb in Hs, Hp'. rewrite Hci in Hq. split; [done |]. split; [done |]. split; [done |]. split; [| done].
  destruct Hl as [Hids Hnext Hsib Hb _]. pose proof (same_but_time_config _ _ Hs) as (Hcfg & Hid & Hbk).
  split; cbn [backends next_id load_balancing with_policy with_backends].
  - by rewrite <- Hid.
  - by rewrite <- (same_but_time_length _ _ Hs).
  - apply (siblings_shape l); try done.
  - by eapply same_but_time_ok.
  - by eapply law_config.
Qed.

(** ** Shards *)

Lemma by_rank_iff a b : by_rank a b <->
  let '(c1, e1, m1) := total_key a.1 in let '(c2, e2, m2) := total_key b.1 in
  c2 < c1 \/ (c2 = c1 /\ (e2 < e1 \/ (e2 = e1 /\ (m2 < m1 \/ (m2 = m1 /\ (a.2 <= b.2)%nat))))).
Proof.
  unfold by_rank, total_cmp. destruct (total_key a.1) as [[c1 e1] m1], (total_key b.1) as [[c2 e2] m2].
  destruct (Z.compare_spec c2 c1), (Z.compare_spec e2 e1), (Z.compare_spec m2 m1); lia.
Qed.

Global Instance by_rank_trans : Transitive by_rank.
Proof.
  intros a b c. rewrite !by_rank_iff. destruct (total_key a.1) as [[c1 e1] m1], (total_key b.1) as [[c2 e2] m2], (total_key c.1) as [[c3 e3] m3]. lia.
Qed.

Global Instance by_rank_total : Total by_rank.
Proof. intros a b. rewrite !by_rank_iff. destruct (total_key a.1) as [[c1 e1] m1], (total_key b.1) as [[c2 e2] m2]. lia. Qed.

Definition score_of (key : Z) (bs : list Backend) (p : nat) : f64 :=
  match bs !! p with Some b => match hrw_score f64_ln key b with Val s => s | _ => f64_zero end | None => f64_zero end.

(** The shard of a key: [k] addresses, those whose representatives score best, with every
    primary backend at them. *)
Definition is_shard (key : Z) (k : nat) (bs : list Backend) (sh : list nat) : Prop :=
  exists top, length top = k /\ NoDup top /\ Forall (fun r => (r < length bs)%nat /\ represents bs r = true) top /\
    (forall r r', r ∈ top -> (r' < length bs)%nat -> represents bs r' = true -> r' ∉ top ->
      by_rank (score_of key bs r, r) (score_of key bs r', r')) /\
    forall p, p ∈ sh <-> is_backup bs p = false /\ exists r, r ∈ top /\ same_address bs r p.

Definition scored_positions (key : Z) (bs : list Backend) (ps : list nat) : list (f64 * nat) :=
  (fun p => (score_of key bs p, p)) <$> filter (fun p => represents bs p = true) ps.

Lemma score_loop_spec key bs todo : forall pre, bs = pre ++ todo ->
  Forall (fun b => exists s, hrw_score f64_ln key b = Val s) bs ->
  score_loop key todo (represents bs <$> seq 0 (length bs)) true (length pre) =
    Val (scored_positions key bs (seq (length pre) (length todo))).
Proof.
  induction todo as [| b todo IH]; intros pre Hbs Hf; cbn [score_loop length seq]; [done |].
  assert (Hb : bs !! length pre = Some b) by (by rewrite Hbs, list_lookup_middle).
  rewrite list_lookup_fmap, lookup_seq_lt by (by eapply lookup_lt_Some). cbn [fmap option_fmap option_map Nat.add].
  specialize (IH (pre ++ [b])). rewrite length_app, Nat.add_1_r, <- app_assoc in IH. specialize (IH Hbs Hf).
  unfold scored_positions. rewrite filter_cons. rewrite Forall_forall in Hf.
  destruct (Hf b ltac:(by eapply list_elem_of_lookup_2)) as [s Hs].
  destruct (represents bs (length pre)) eqn:Er.
  - rewrite decide_True by done. rewrite Hs. cbn [mbind outcome_bind]. rewrite IH. cbn [mbind outcome_bind app fmap list_fmap].
    unfold score_of at 1. by rewrite Hb, Hs.
  - rewrite decide_False by done. cbn [mbind outcome_bind]. by rewrite IH.
Qed.

Lemma count_true_fmap {A} (f : A -> bool) l : count_true (f <$> l) = length (filter (fun x => f x = true) l).
Proof.
  unfold count_true. induction l as [| x l IH]; [done |]. cbn [fmap list_fmap]. rewrite !filter_cons. fold (f <$> l).
  case_decide; cbn [length]; by rewrite IH.
Qed.

Lemma shard_members_spec bs ring reps : ring_ok bs ring -> Forall (fun x => (x.2 < length bs)%nat) reps ->
  exists ms, shard_members bs ring reps = Val ms /\ (length reps <= length ms)%nat /\
    (forall p, p ∈ ms <-> exists r, r ∈ reps.*2 /\ (p = r \/ (is_backup bs p = false /\ p <> r /\ same_address bs r p))) /\
    (NoDup (address <$> bs) -> ms = reps.*2).
Proof.
  intros Hr. induction 1 as [| [s r] reps Hx _ (ms & Hms & Hlen & Hel & Hnd)]; cbn [shard_members].
  { exists []. split; [done |]. split; [done |]. split; [| done]. intros p. split; [by intros ?%not_elem_of_nil |].
    intros (r & Hin & _). by apply not_elem_of_nil in Hin. }
  cbn in Hx. destruct (ring_ok_walk bs ring r Hr Hx) as (l & -> & Hndl & Hl). cbn [mbind outcome_bind].
  destruct (resolve_spec bs l) as (others & -> & Hol & Hof).
  { apply Forall_forall. by intros q [_ Hq%same_address_lt]%Hl. }
  cbn [mbind outcome_bind]. rewrite Hms. cbn [mbind outcome_bind]. eexists. split; [done |].
  rewrite Forall_forall in Hof. assert (Hmem : forall p, p ∈ (filter (fun x => backup x.2 = false) others).*1 <->
    is_backup bs p = false /\ p <> r /\ same_address bs r p).
  { intros p. rewrite <- (Hl p), <- Hol, !list_elem_of_fmap. unfold is_backup. split.
    - intros (x & -> & [Hb Hin]%list_elem_of_filter). rewrite (Hof x Hin). cbn. split; [done |]. by exists x.
    - intros (Hb & x & -> & Hin). exists x. split; [done |]. apply list_elem_of_filter. rewrite (Hof x Hin) in Hb. done. }
  split; [cbn [length]; rewrite length_app; lia |]. split.
  - intros p. rewrite elem_of_cons, elem_of_app, Hmem, Hel. cbn [fmap list_fmap snd]. setoid_rewrite elem_of_cons.
    clear -Hr. naive_solver.
  - intros Hda. rewrite (Hnd Hda). cbn [fmap list_fmap snd]. f_equal.
    destruct (filter _ others).*1 as [| p ps] eqn:E; [done |]. assert (Hin : p ∈ p :: ps) by left.
    apply Hmem in Hin as (_ & Hne & Hs & Hsome). destruct Hne. destruct (lookup_lt_is_Some_2 bs r Hx) as [b Hb].
    apply (NoDup_lookup (address <$> bs) p r (address b) Hda); rewrite list_lookup_fmap, ?Hs, Hb; done.
Qed.

Lemma sorted_take_drop {A} (R : relation A) (l : list A) k x y : StronglySorted R l -> x ∈ take k l -> y ∈ drop k l -> R x y.
Proof.
  revert k. induction l as [| a l IH]; intros [| k] Hs; cbn [take drop]; try (by intros ?%not_elem_of_nil).
  apply StronglySorted_inv in Hs as [Hs Ha]. rewrite Forall_forall in Ha. intros [-> | Hx]%elem_of_cons Hy; [| by eapply IH].
  apply Ha. rewrite <- (take_drop k l). apply elem_of_app. by right.
Qed.

(** The best of the scores. *)
Lemma best_spec key bs k : let scores := scored_positions key bs (seq 0 (length bs)) in (k <= length scores)%nat ->
  let best := take k (if (k <? length scores)%nat then best_first scores else scores) in
  length best = k /\ NoDup best.*2 /\ Forall (fun x => (x.2 < length bs)%nat /\ represents bs x.2 = true) best /\
  forall r r', r ∈ best.*2 -> (r' < length bs)%nat -> represents bs r' = true -> r' ∉ best.*2 ->
    by_rank (score_of key bs r, r) (score_of key bs r', r').
Proof.
  intros scores Hk best.
  assert (Hperm : (if (k <? length scores)%nat then best_first scores else scores) ≡ₚ scores).
  { destruct (k <? length scores)%nat; [apply merge_sort_Permutation | done]. }
  set (sorted := if (k <? length scores)%nat then best_first scores else scores) in *.
  assert (Hmem : forall x, x ∈ scores <-> x = (score_of key bs x.2, x.2) /\ (x.2 < length bs)%nat /\ represents bs x.2 = true).
  { intros [s r]. unfold scores, scored_positions. rewrite list_elem_of_fmap. cbn [snd]. split.
    - intros (q & [= -> ->] & [Hr Hq%elem_of_seq]%list_elem_of_filter). split_and!; [done | lia | done].
    - intros ([= ->] & Hlt & Hr). exists r. split; [done |]. apply list_elem_of_filter. split; [done |]. apply elem_of_seq. lia. }
  assert (Hnd : NoDup sorted.*2).
  { rewrite Hperm. unfold scores, scored_positions. rewrite <- list_fmap_compose. cbn. rewrite list_fmap_id. apply NoDup_filter, NoDup_seq. }
  assert (Hbest : best ++ drop k sorted = sorted) by apply take_drop.
  assert (Hin : forall x, x ∈ best -> x ∈ scores) by (intros x Hx; rewrite <- Hperm, <- Hbest; apply elem_of_app; by left).
  split; [unfold best; rewrite length_take, Hperm; lia |]. split.
  { rewrite <- Hbest, fmap_app in Hnd. by apply NoDup_app in Hnd as [? _]. }
  split; [apply Forall_forall; intros x Hx; by apply Hin, Hmem in Hx as [_ ?] |].
  intros r r' (x & -> & Hx)%list_elem_of_fmap Hlt Hrep Hn. pose proof (Hin x Hx) as Hxs. apply Hmem in Hxs as (Hxe & _).
  assert (Hy : (score_of key bs r', r') ∈ drop k sorted).
  { assert (Hs : (score_of key bs r', r') ∈ sorted) by (rewrite Hperm; by apply Hmem). rewrite <- Hbest in Hs.
    apply elem_of_app in Hs as [Hs | Hs]; [| done]. destruct Hn. apply list_elem_of_fmap. by exists (score_of key bs r', r'). }
  rewrite <- Hxe. unfold best, sorted in *. destruct (Nat.ltb_spec k (length scores)) as [Hlt' | Hge].
  - eapply (sorted_take_drop by_rank _ k); [apply (StronglySorted_merge_sort by_rank) | exact Hx | exact Hy].
  - rewrite drop_ge in Hy by lia. by apply not_elem_of_nil in Hy.
Qed.

Definition sharding_ok (l : BackendList) : Prop :=
  match shuffle_sharding l with Some s => 0 <= percent s <= U32_MAX | None => True end.

Lemma shard_size_spec s primaries : 0 <= percent s <= U32_MAX -> 0 <= primaries < 2 ^ 32 ->
  exists k, shard_size s primaries = Val k /\ forall n, k = Some n -> 1 <= n <= primaries.
Proof.
  intros Hp Hn. unfold shard_size. destruct (_ || _) eqn:E; [exists None; by split |].
  apply orb_false_iff in E as [_ Hz%Z.eqb_neq]. rewrite (debug_assert_true (_ <=? USIZE_MAX)) by (apply Z.leb_le; unfold U32_MAX, USIZE_MAX in *; nia).
  cbn [mbind outcome_bind]. set (k := Z.min (Z.max ((percent s * primaries + 99) / 100) 2) primaries).
  rewrite (debug_assert_true ((1 <=? k) && (k <=? primaries))) by (unfold k; lia). cbn [mbind outcome_bind].
  rewrite debug_assert_true by (unfold k; lia). exists (Some k). split; [done |]. intros n [= <-]. unfold k. lia.
Qed.

Lemma represents_primary bs p : represents bs p = true -> is_backup bs p = false.
Proof. unfold represents. intros [Hp _]%andb_true_iff. by apply negb_true_iff. Qed.

(** What [compute_shard] answers. *)
Definition sharded_as (l : BackendList) (key : option Z) (sharded : bool) (sh : list nat) : Prop :=
  match shuffle_sharding l, key with
  | Some s, Some z => exists k, shard_size s (Z.of_nat (shard_addresses l)) = Val k /\
      sharded = (if k is Some _ then true else false) /\ forall n, k = Some n -> is_shard z (Z.to_nat n) (backends l) sh
  | _, _ => sharded = false
  end.

Lemma members_ok l scores sh k : siblings_ok l ->
  Forall (fun x => (x.2 < length (backends l))%nat /\ represents (backends l) x.2 = true) scores -> length scores = k ->
  (exists ms, shard_members (backends l) (sibling_ring l) scores = Val ms /\ sh = sort_unstable ms) ->
  (k <=? length sh)%nat = true /\ shares_address l || (length sh =? k)%nat = true /\
  (forall p, p ∈ sh <-> is_backup (backends l) p = false /\ exists r, r ∈ scores.*2 /\ same_address (backends l) r p) /\
  exists others, resolve (backends l) sh = Val others /\ forallb (fun x => negb (backup x.2)) others = true.
Proof.
  intros Hs Hf Hk (ms & Hms & ->). pose proof Hf as Hf'. rewrite Forall_forall in Hf'.
  destruct (shard_members_spec (backends l) (sibling_ring l) scores (sb_ring _ Hs)) as (ms' & Hms' & Hlen & Hel & Hnd).
  { eapply Forall_impl; [exact Hf |]. by intros x [? _]. }
  rewrite Hms in Hms'. injection Hms' as <-. assert (Hperm : sort_unstable ms ≡ₚ ms) by apply merge_sort_Permutation.
  assert (Hmem : forall p, p ∈ sort_unstable ms <-> is_backup (backends l) p = false /\ exists r, r ∈ scores.*2 /\ same_address (backends l) r p).
  { intros p. rewrite Hperm, Hel. split.
    - intros (r & Hr & [-> | (Hb & Hne & Hsa)]); [| split; [done | by exists r]].
      pose proof Hr as (x & -> & Hx)%list_elem_of_fmap. destruct (Hf' x Hx) as [Hlt Hrep].
      split; [by apply represents_primary | exists x.2; split; [done | by apply same_address_self]].
    - intros (Hb & r & Hr & Hsa). exists r. split; [done |]. destruct (decide (p = r)); [by left | by right]. }
  split; [apply Nat.leb_le; rewrite Hperm; lia |]. split.
  { rewrite (sb_shares _ Hs). case_bool_decide as Hda; [done |]. cbn. apply Nat.eqb_eq. rewrite Hperm.
    rewrite (Hnd Hda), length_fmap. done. }
  split; [done |]. destruct (resolve_spec (backends l) (sort_unstable ms)) as (others & -> & Hol & Hof).
  { apply Forall_forall. intros p (_ & r & _ & Hsa)%Hmem. by apply same_address_lt in Hsa. }
  exists others. split; [done |]. apply forallb_forall. intros x Hx%list_elem_of_In. rewrite Forall_forall in Hof.
  assert (Hxp : x.1 ∈ sort_unstable ms) by (rewrite <- Hol; apply list_elem_of_fmap; by exists x).
  apply Hmem in Hxp as [Hb _]. unfold is_backup in Hb. rewrite (Hof x Hx) in Hb. cbn in Hb. by rewrite Hb.
Qed.

Lemma compute_shard_spec l key : siblings_ok l -> sharding_ok l -> keyed key (backends l) -> Z.of_nat (length (backends l)) < 2 ^ 32 ->
  exists (scores : list (f64 * nat)) (sh : list nat) (sharded : bool), compute_shard l key = Val (if sharded then with_shard l scores sh else l, sharded) /\ sharded_as l key sharded sh.
Proof.
  intros Hs Hok Hk Hn. unfold compute_shard, sharded_as, sharding_ok in *.
  destruct (shuffle_sharding l) as [s |] eqn:Es; [| by exists [], [], false]. destruct key as [z |]; [| by exists [], [], false].
  destruct Hk as [_ Hscore].
  assert (Hlr : length (shard_representative l) = length (backends l)) by (by rewrite (sb_reps _ Hs), length_fmap, length_seq).
  rewrite Hlr, (proj1 (sb_ring _ Hs)), !Nat.eqb_refl. cbn [andb].
  assert (Hcount : shard_addresses l = length (scored_positions z (backends l) (seq 0 (length (backends l))))).
  { rewrite (sb_count _ Hs), (sb_reps _ Hs), count_true_fmap. unfold scored_positions. by rewrite length_fmap. }
  assert (Hbound : (shard_addresses l <= length (backends l))%nat).
  { rewrite Hcount. unfold scored_positions. rewrite length_fmap. etransitivity; [apply length_filter | by rewrite length_seq]. }
  destruct (shard_size_spec s (Z.of_nat (shard_addresses l)) Hok ltac:(lia)) as (k & Hsz & Hkr). rewrite Hsz. cbn [mbind outcome_bind].
  destruct k as [k |]; [| exists [], [], false; split; [done |]; exists None; split_and!; done].
  specialize (Hkr k eq_refl). pose proof (score_loop_spec z (backends l) (backends l) [] eq_refl Hscore) as Hsl. cbn [length] in Hsl.
  rewrite (sb_reps _ Hs), Hsl. cbn [mbind outcome_bind]. set (scores := scored_positions _ _ _) in *.
  rewrite (debug_assert_true (length scores =? _)%nat) by (apply Nat.eqb_eq; lia). cbn [mbind outcome_bind].
  destruct (best_spec z (backends l) (Z.to_nat k)) as (Hbl & Hbnd & Hbf & Hbest); [fold scores; lia |]. fold scores in Hbl, Hbnd, Hbf, Hbest.
  set (sorted := if (Z.to_nat k <? length scores)%nat then best_first scores else scores) in *.
  rewrite (debug_assert_true (_ <=? length sorted)%nat).
  2: { apply Nat.leb_le. rewrite length_take in Hbl. lia. }
  cbn [mbind outcome_bind]. destruct (shard_members_spec (backends l) (sibling_ring l) (take (Z.to_nat k) sorted) (sb_ring _ Hs)) as (ms & Hms & _).
  { eapply Forall_impl; [exact Hbf |]. by intros x [? _]. }
  rewrite Hms. cbn [mbind outcome_bind].
  destruct (members_ok l _ (sort_unstable ms) (Z.to_nat k) Hs Hbf Hbl) as (H1 & H2 & Hmem & others & Hres & H3); [by exists ms |].
  rewrite (debug_assert_true _ H1). cbn [mbind outcome_bind]. rewrite (debug_assert_true _ H2). cbn [mbind outcome_bind].
  rewrite Hres. cbn [mbind outcome_bind]. rewrite (debug_assert_true _ H3). cbn [mbind outcome_bind].
  exists sorted, (sort_unstable ms), true. split; [done |]. exists (Some k). split_and!; [done | done |]. intros n [= <-].
  exists (take (Z.to_nat k) sorted).*2. split; [by rewrite length_fmap |]. split; [done |]. split; [by apply Forall_fmap |]. split; [done |].
  exact Hmem.
Qed.

(** What sessions and probes do to a backend keeps the invariant. *)
Lemma touch_ok k l bs' : list_ok k l -> same_shape (backends l) bs' -> identity <$> backends l = identity <$> bs' -> Forall backend_ok bs' ->
  list_ok k (with_backends l bs' (next_id l)).
Proof.
  intros [Hids Hnext Hsib Hb Hp] Hs Hid Hb'. split; cbn [backends next_id load_balancing with_backends].
  - by rewrite <- Hid.
  - by rewrite <- (shape_length _ _ Hs).
  - by apply (siblings_shape l).
  - done.
  - destruct Hs as [Hs _]. by eapply law_config.
Qed.

(** ** Tiers *)

Definition inside (sh cands : list nat) : list nat := filter (fun p => found sh p = true) cands.

(** The candidates of a selection, and what sharding made of it before the
    choice: the primaries that can take a connection, else the backups, else, if
    nothing is excluded, every backend that may be tried; a shard narrows the
    primaries, and a strict one the last resort too, and never spills. *)
Definition eligible (bs : list Backend) (sharding : option (list nat * bool)) (now : Z) (exclude : list SocketAddr) :
    list nat * ShardOutcome :=
  let primaries := positions_where (in_tier now exclude false) bs 0 in
  let backups := positions_where (in_tier now exclude true) bs 0 in
  let last := if exclude is [] then positions_where (open_to_all now) bs 0 else [] in
  let tiers := if primaries is [] then if backups is [] then last else backups else primaries in
  match sharding with
  | None => (tiers, Unsharded)
  | Some (sh, strict) =>
      if inside sh primaries is [] then
        if strict then
          if primaries is [] then
            if exclude is [] then if inside sh last is [] then ([], Exhausted) else (inside sh last, InShard) else ([], InShard)
          else ([], Exhausted)
        else (tiers, SpilledOver)
      else (inside sh primaries, InShard)
  end.

(** What no selection changes. *)
Definition settings (l : BackendList) :=
  (next_id l, availability l, shuffle_sharding l, (shares_address l, sibling_ring l, shard_representative l, shard_addresses l)).

(** All of a list but the buffers of a selection. *)
Definition core (l : BackendList) := (backends l, load_balancing l, fail_open_warned l, settings l).

Lemma core_fields l l' : core l' = core l ->
  backends l' = backends l /\ load_balancing l' = load_balancing l /\ settings l' = settings l /\ shuffle_sharding l' = shuffle_sharding l.
Proof. unfold core, settings. intros [= ??????????]. split_and!; congruence. Qed.

Lemma list_ok_same k l l' : backends l' = backends l -> load_balancing l' = load_balancing l -> settings l' = settings l ->
  list_ok k l -> list_ok k l'.
Proof.
  unfold settings. intros H1 H2 [= H3 _ _ H4 H5 H6 H7] [Hids Hnext Hsib Hb Hp].
  split; [by rewrite H1 | by rewrite H1, H3 | | by rewrite H1 | by rewrite H1, H2].
  apply (siblings_shape l); rewrite ?H1; done.
Qed.

Lemma list_ok_core k l l' : core l' = core l -> list_ok k l -> list_ok k l'.
Proof. intros (? & ? & ? & _)%core_fields. by apply list_ok_same. Qed.

(** Whether a backend can take a connection. *)
Definition opens (bs : list Backend) (now : Z) (q : nat) : bool :=
  match bs !! q with Some b => can_open b now | None => false end.

(** What a selection that took a backend leaves: the list is well formed, the
    backends differ at most in their averages of connection times, the settings
    and the algorithm are those from before, and the fail-open latch is set
    exactly when the backend cannot take a connection. *)
Record after_pick (k : nat) (l l' : BackendList) (now : Z) (q : nat) : Prop := {
  ap_ok : list_ok k l';
  ap_backends : same_but_time (backends l) (backends l');
  ap_settings : settings l' = settings l;
  ap_algorithm : algorithm (load_balancing l') = algorithm (load_balancing l);
  ap_latch : fail_open_warned l' = negb (opens (backends l) now q);
}.

Lemma after_pick_core k l0 l l' now q : core l = core l0 -> after_pick k l l' now q -> after_pick k l0 l' now q.
Proof. intros (H1 & H2 & H3 & _)%core_fields [? Hb Hs Ha Hl]. split; congruence. Qed.

Lemma cands_inside l sh : cands_ok l -> cands_ok (with_candidates l (inside sh (candidates l)) (collapsed l)).
Proof.
  intros [Hr Hs]. split; cbn; [| by apply increasing_filter]. apply Forall_forall. intros p [_ Hp]%list_elem_of_filter.
  rewrite Forall_forall in Hr. by apply Hr.
Qed.

(** The choice among candidates that are there, after the shared addresses were
    collapsed. *)
Lemma collapsed_pick k l key now warned : list_ok (S k) l -> cands_ok l -> candidates l <> [] -> keyed key (backends l) ->
  (forall p, p ∈ candidates l -> opens (backends l) now p = negb warned) ->
  exists l1 l' q, collapse_shared_addresses (with_warned l warned) = Val l1 /\ pick l1 key now = Val (l', Some q) /\
    q ∈ kept (backends l) (candidates l) /\ after_pick k l l' now q /\ shard l' = shard l.
Proof.
  intros Hl Hc Hne Hk Hw. assert (Hl1 : list_ok (S k) (with_warned l warned)) by (by apply (list_ok_same _ l)).
  destruct (collapse_shared_spec (with_warned l warned) (lk_siblings _ _ Hl1) Hc) as (coll & Hcol). cbn [backends candidates with_warned] in Hcol.
  rewrite Hcol. set (l1 := with_candidates _ _ _) in *. eexists l1.
  destruct (pick_spec k l1 key now) as (p' & bs' & q & Hpick & Hq & Hs & Hok & Halg).
  - by apply (list_ok_same _ l).
  - split; cbn; [| apply increasing_filter, Hc]. apply Forall_forall. intros p [Hp _]%kept_elem. destruct Hc as [Hc _].
    rewrite Forall_forall in Hc. by apply Hc.
  - by apply kept_nonempty.
  - done.
  - eexists _, q. split; [done |]. split; [exact Hpick |]. split; [done |]. split; [| done].
    apply kept_elem in Hq as [Hq _]. split; [done.. |]. rewrite Hw by done. by rewrite negb_involutive.
Qed.

(** The outcome once the choice is known. *)
Definition settled_outcome (sh : list nat) (o : ShardOutcome) (q : nat) : ShardOutcome :=
  if bool_decide (o = SpilledOver) && found sh q then InShard else o.

Lemma settle_spec l o q : settle_spill_outcome l o (Some q) = settled_outcome (shard l) o q.
Proof.
  unfold settle_spill_outcome, settled_outcome. destruct o; try done. rewrite bool_decide_eq_true_2 by done. cbn [andb].
  assert (Heq : existsb (Nat.eqb q) (shard l) = found (shard l) q); [| by rewrite Heq].
  unfold found. apply eq_bool_prop_intro. rewrite Is_true_true, bool_decide_spec, existsb_exists. split.
  - intros (x & Hx%list_elem_of_In & ->%Nat.eqb_eq). done.
  - intros Hq%list_elem_of_In. exists q. split; [done | apply Nat.eqb_refl].
Qed.

(** What a selection that has candidates returns. *)
Definition picks_one (k : nat) (l : BackendList) (now : Z) (m : checked (BackendList * option nat * ShardOutcome)) (cands : list nat) (o : ShardOutcome) : Prop :=
  exists l' q, m = Val (l', Some q, settled_outcome (shard l) o q) /\ q ∈ kept (backends l) cands /\ after_pick k l l' now q.

Lemma picks_one_core k l l' now m cands o : core l = core l' -> shard l = shard l' -> picks_one k l now m cands o -> picks_one k l' now m cands o.
Proof.
  intros Hc Hs. unfold picks_one. rewrite <- Hs. pose proof (core_fields _ _ Hc) as (Hbs & _). rewrite <- Hbs.
  intros (l1 & q & Hm & Hq & Hap). exists l1, q. split; [done |]. split; [done |]. by eapply after_pick_core.
Qed.

Lemma pick_healthy_spec k l key now o : list_ok (S k) l -> cands_ok l -> candidates l <> [] -> keyed key (backends l) ->
  (forall p, p ∈ candidates l -> opens (backends l) now p = true) ->
  (o = InShard -> candidates l ⊆ shard l) -> picks_one k l now (pick_healthy l key now o) (candidates l) o.
Proof.
  intros Hl Hc Hne Hk Hop Ho. destruct (collapsed_pick k l key now false Hl Hc Hne Hk Hop) as (l1 & l' & q & Hcol & Hpick & Hq & Hok & Hsh).
  pose proof (ap_backends _ _ _ _ _ Hok) as Hs.
  unfold pick_healthy. rewrite Hcol. cbn [mbind outcome_bind]. rewrite Hpick. cbn [mbind outcome_bind]. rewrite settle_spec, Hsh.
  pose proof Hq as [Hqc _]%kept_elem. destruct Hc as [Hr _]. rewrite Forall_forall in Hr. specialize (Hr q Hqc).
  rewrite (same_but_time_length _ _ Hs) in Hr. destruct (lookup_lt_is_Some_2 _ _ Hr) as [b Hb].
  assert (Hhas : match address_at l' q with Some a => has_backend l' a | None => false end = true).
  { unfold address_at. rewrite Hb. cbn. apply existsb_exists. exists b. split; [by eapply list_elem_of_In, list_elem_of_lookup_2 |].
    by apply bool_decide_eq_true. }
  rewrite (debug_assert_true _ Hhas). cbn [mbind outcome_bind]. rewrite debug_assert_true; [by exists l', q |].
  case_bool_decide as Hio; [| done]. cbn. apply existsb_exists. exists q. split; [by apply list_elem_of_In, Ho | by apply bool_decide_eq_true].
Qed.

Lemma nil_or {A} (l : list A) : l = [] \/ (l <> [] /\ (length l =? 0)%nat = false).
Proof. destruct l; [by left | by right]. Qed.

Lemma fail_open_spec k l key now strict o : list_ok (S k) l -> keyed key (backends l) -> (strict = true -> o = InShard) ->
  let all := positions_where (open_to_all now) (backends l) 0 in
  let cands := if strict then inside (shard l) all else all in
  (forall p, p ∈ cands -> opens (backends l) now p = false) ->
  if decide (cands = []) then exists l', fail_open l key now strict o = Val (l', None, if strict then Exhausted else o) /\ core l' = core l
  else picks_one k l now (fail_open l key now strict o) cands o.
Proof.
  intros Hl Hk Ho all cands Hop. unfold fail_open. destruct (collect_spec l (open_to_all now)) as [-> Hc]. cbn [mbind outcome_bind]. fold all in Hc |- *.
  set (l0 := with_candidates l all (collapsed l)) in *.
  assert (Hnarrow : exists l1, (if strict then retain_shard_candidates l0 else (l0, length all)) = (l1, length cands) /\
    core l1 = core l /\ cands_ok l1 /\ candidates l1 = cands /\ shard l1 = shard l).
  { unfold cands. destruct strict; [| by exists l0]. eexists. split; [done |]. split; [done |]. split; [by apply (cands_inside l0) | done]. }
  destruct Hnarrow as (l1 & -> & Hcore & Hc1 & Hcand & Hsh). destruct (nil_or cands) as [Hn | [Hn Hz]].
  - rewrite Hn, decide_True by done. cbn. by exists l1.
  - rewrite decide_False by done. rewrite Hz. pose proof (core_fields _ _ Hcore) as (Hbs & _).
    destruct (collapsed_pick k l1 key now true) as (l2 & l' & q & -> & Hpick & Hq & Hok & Hsh');
      [by apply (list_ok_core _ l) | done | by rewrite Hcand | by rewrite Hbs | by rewrite Hcand, Hbs |].
    cbn [mbind outcome_bind]. rewrite Hpick. cbn [mbind outcome_bind]. rewrite settle_spec, Hsh', Hsh. apply (after_pick_core _ l) in Hok; [| done].
    rewrite Hbs, Hcand in Hq. by exists l', q.
Qed.

(** What a selection returns over the candidates [cands]: none when there are none. *)
Definition selects (k : nat) (l : BackendList) (now : Z) (m : checked (BackendList * option nat * ShardOutcome)) (e : list nat * ShardOutcome) : Prop :=
  if decide (e.1 = []) then exists l', m = Val (l', None, e.2) /\ core l' = core l else picks_one k l now m e.1 e.2.

Lemma selects_core k l l' now m e : core l = core l' -> shard l = shard l' -> selects k l now m e -> selects k l' now m e.
Proof.
  intros Hc Hs. unfold selects. rewrite <- Hc. case_decide; [done |]. by apply picks_one_core.
Qed.

(** The candidates of the healthy tiers can take a connection; when there are
    none, no primary backend can. *)
Definition tier_known (l : BackendList) (now : Z) (exclude : list SocketAddr) : Prop :=
  (forall p, p ∈ candidates l -> opens (backends l) now p = true) /\
  (exclude = [] -> candidates l = [] -> forall p, is_backup (backends l) p = false -> opens (backends l) now p = false).

Lemma tier_opens bs now exclude tier p : p ∈ positions_where (in_tier now exclude tier) bs 0 -> opens bs now p = true.
Proof.
  intros (_ & b & Hb & Ht)%positions_where_elem. rewrite Nat.sub_0_r in Hb. unfold opens. rewrite Hb.
  by apply andb_true_iff in Ht as [[_ Ht]%andb_true_iff _].
Qed.

Lemma tier_empty bs now tier p : positions_where (in_tier now [] tier) bs 0 = [] -> is_backup bs p = tier -> opens bs now p = false.
Proof.
  intros Hn Hp. unfold opens, is_backup in *. destruct (bs !! p) as [b |] eqn:Hb; [| done].
  destruct (can_open b now) eqn:Ho; [| done]. exfalso. apply (not_elem_of_nil p). rewrite <- Hn. apply positions_where_elem.
  split; [lia |]. exists b. rewrite Nat.sub_0_r. split; [done |]. unfold in_tier, is_tier_candidate. cbn in Hp.
  rewrite Ho, Hp, Bool.eqb_reflx. by rewrite bool_decide_eq_false_2 by apply not_elem_of_nil.
Qed.

Lemma select_rest_spec k l key now exclude strict o : list_ok (S k) l -> cands_ok l -> keyed key (backends l) ->
  tier_known l now exclude -> (strict = true -> forall p, p ∈ shard l -> is_backup (backends l) p = false) ->
  (o = InShard -> candidates l ⊆ shard l /\ (strict = false -> candidates l <> [])) -> (strict = true -> o = InShard) ->
  let all := positions_where (open_to_all now) (backends l) 0 in
  let backups := positions_where (in_tier now exclude true) (backends l) 0 in
  let last := if exclude is [] then if strict then inside (shard l) all else all else [] in
  selects k l now (select_rest l key now exclude strict (length (candidates l)) o)
    (if candidates l is [] then
       if strict then (last, if exclude is [] then if last is [] then Exhausted else o else o)
       else (if backups is [] then last else backups, o)
     else (candidates l, o)).
Proof.
  intros Hl Hc Hk [Hto Htn] Hprim Ho Hst all backups last. unfold select_rest. destruct (nil_or (candidates l)) as [Hn | [Hn Hz]].
  2: { rewrite Hz. cbn [andb mbind outcome_bind]. rewrite Hz. cbn [negb].
    assert (Hp : picks_one k l now (pick_healthy l key now o) (candidates l) o).
    { apply pick_healthy_spec; try done. intros ->. by apply Ho. }
    unfold selects. destruct (candidates l) as [| x xs]; [done |]. rewrite decide_False by done. exact Hp. }
  rewrite Hn. cbn [length Nat.eqb andb].
  assert (Hfo : forall l1, core l1 = core l -> shard l1 = shard l ->
    (exclude = [] -> forall p, p ∈ last -> opens (backends l) now p = false) -> selects k l now
    (if negb (length exclude =? 0)%nat then Val (l1, None, o) else fail_open l1 key now strict o)
    (last, if strict then if exclude is [] then if last is [] then Exhausted else o else o else o)).
  { intros l1 Hcore Hsh Hcl. unfold selects. destruct exclude as [| a exclude]; cbn [length Nat.eqb negb].
    2: { cbn. exists l1. by destruct strict. }
    pose proof (core_fields _ _ Hcore) as (Hbs & _). cbn [fst snd].
    pose proof (fail_open_spec k l1 key now strict o) as Hf. rewrite Hbs, Hsh in Hf.
    specialize (Hf ltac:(by apply (list_ok_core _ l)) Hk Hst). cbn zeta in Hf. fold all in Hf. fold last in Hf. specialize (Hf (Hcl eq_refl)).
    destruct (nil_or last) as [Hln | [Hln _]].
    - rewrite Hln in Hf |- *. rewrite decide_True in Hf |- * by done. destruct Hf as (l' & -> & Hc'). exists l'. split; [by destruct strict | congruence].
    - rewrite decide_False in Hf |- * by done. apply (picks_one_core k l1 l); [done.. |].
      destruct last as [| x xs]; [done |]. by destruct strict. }
  destruct strict; cbn [negb].
  { cbn [mbind outcome_bind Nat.eqb negb]. apply Hfo; [done.. |]. intros -> p [Hp _]%list_elem_of_filter. apply Htn; [done.. |].
    apply Hprim; [done |]. by apply bool_decide_eq_true in Hp. }
  destruct (collect_spec l (in_tier now exclude true)) as [-> Hc1]. cbn [mbind outcome_bind]. fold backups in Hc1 |- *.
  set (l1 := with_candidates l backups (collapsed l)) in *. destruct (nil_or backups) as [Hb | [Hb Hbz]].
  - rewrite Hb. cbn [length Nat.eqb negb]. apply Hfo; [done.. |]. intros -> p _.
    destruct (is_backup (backends l) p) eqn:Ep; [by eapply tier_empty | by apply Htn].
  - rewrite Hbz. cbn [negb]. assert (Hp : picks_one k l now (pick_healthy l1 key now o) backups o).
    { apply (picks_one_core k l1 l); [done.. |]. apply (pick_healthy_spec k l1); try done; [by apply (list_ok_core _ l) | by apply tier_opens |]. intros Ho'. destruct (Ho Ho') as [_ Hne]. by destruct Hne. }
    unfold selects. destruct backups as [| x xs]; [done |]. rewrite decide_False by done. exact Hp.
Qed.

(** The same, from a list whose buffers the selection filled. *)
Lemma select_rest_from k l0 l2 key now exclude strict o n e : list_ok (S k) l0 -> core l2 = core l0 -> shard l2 = shard l0 ->
  cands_ok l2 -> n = length (candidates l2) -> keyed key (backends l0) ->
  tier_known l2 now exclude -> (strict = true -> forall p, p ∈ shard l0 -> is_backup (backends l0) p = false) ->
  (o = InShard -> candidates l2 ⊆ shard l2 /\ (strict = false -> candidates l2 <> [])) -> (strict = true -> o = InShard) ->
  (let all := positions_where (open_to_all now) (backends l0) 0 in
   let backups := positions_where (in_tier now exclude true) (backends l0) 0 in
   let last := if exclude is [] then if strict then inside (shard l0) all else all else [] in
   e = if candidates l2 is [] then
         if strict then (last, if exclude is [] then if last is [] then Exhausted else o else o)
         else (if backups is [] then last else backups, o)
       else (candidates l2, o)) ->
  selects k l0 now (select_rest l2 key now exclude strict n o) e.
Proof.
  intros Hl Hcore Hsh Hc -> Hk Ht Hprim Ho Hst He. apply (selects_core k l2 l0 _ _ _ Hcore Hsh). pose proof (core_fields _ _ Hcore) as (Hbs & _).
  rewrite He, <- Hbs, <- Hsh. apply select_rest_spec; [by apply (list_ok_core _ l0) | done | by rewrite Hbs | done | by rewrite Hbs, Hsh | done | done].
Qed.

(** The shard of a selection, with whether it is strict. *)
Definition sharding_of (l : BackendList) (sharded : bool) (sh : list nat) : option (list nat * bool) :=
  if sharded then Some (sh, if shuffle_sharding l is Some s then bool_decide (mode s = Strict) else false) else None.

Lemma select_tiers_spec k l key now exclude : list_ok (S k) l -> sharding_ok l -> keyed key (backends l) ->
  exists sharded sh scores, sharded_as l key sharded sh /\
    let l0 := if sharded : bool then with_shard l scores sh else l in
    selects k l0 now (select_tiers l key now exclude) (eligible (backends l) (sharding_of l sharded sh) now exclude).
Proof.
  intros Hl Hsh Hk. assert (Hn : Z.of_nat (length (backends l)) < 2 ^ 32) by (pose proof (lk_next _ _ Hl); unfold U32_MAX in *; lia).
  destruct (compute_shard_spec l key (lk_siblings _ _ Hl) Hsh Hk Hn) as (scores & sh & sharded & Hcs & Hsa).
  exists sharded, sh, scores. split; [done |]. unfold select_tiers. rewrite Hcs. cbn [mbind outcome_bind]. clear Hcs.
  set (l0 := if sharded then with_shard l scores sh else l). assert (Hcore : core l0 = core l) by (unfold l0; by destruct sharded).
  pose proof (core_fields _ _ Hcore) as (Hbs & _ & _ & Hss).
  assert (Hmem : sharded = true -> forall p, p ∈ sh -> is_backup (backends l) p = false).
  { intros ->. unfold sharded_as in Hsa. destruct (shuffle_sharding l); [| done]. destruct key; [| done].
    destruct Hsa as ([n |] & _ & ? & Hi); [| done]. destruct (Hi n eq_refl) as (? & _ & _ & _ & _ & Hel). by intros p [? _]%Hel. }
  assert (Hl0 : list_ok (S k) l0) by (by apply (list_ok_core _ l)). cbn zeta.
  destruct (collect_spec l0 (in_tier now exclude false)) as [-> Hc]. cbn [mbind outcome_bind]. rewrite Hbs in Hc |- *.
  unfold eligible, sharding_of. set (prim := positions_where (in_tier now exclude false) (backends l) 0) in *.
  set (l1 := with_candidates l0 prim (collapsed l0)) in *. rewrite Hss.
  assert (Htier : forall l2, backends l2 = backends l -> candidates l2 = prim -> tier_known l2 now exclude).
  { intros l2 Hb2 Hc2. unfold tier_known. rewrite Hb2, Hc2. split; [by apply tier_opens |]. intros -> Hn' p Hp. by eapply tier_empty. }
  destruct sharded; cbn [andb].
  2: { apply (select_rest_from k l0 l1 key now exclude false Unsharded (length prim)); try done; [by apply Htier |].
    rewrite Hbs. cbn [candidates with_candidates l1]. destruct prim; [| done]. by destruct exclude. }
  set (strict := if shuffle_sharding l is Some s then bool_decide (mode s = Strict) else false).
  clearbody strict. cbn [retain_shard_candidates l1 shard candidates with_candidates]. change (shard l0) with sh.
  fold (inside sh prim). set (l2 := with_candidates _ (inside sh prim) _).
  assert (Hc2 : cands_ok l2) by (by apply (cands_inside l1)).
  assert (Hin : inside sh prim ⊆ sh) by (intros p [Hp _]%list_elem_of_filter; by apply bool_decide_eq_true in Hp).
  destruct (nil_or (inside sh prim)) as [Hi | [Hi Hiz]].
  2: { rewrite Hiz. cbn [negb]. apply (select_rest_from k l0 l2 key now exclude strict InShard (length (inside sh prim))); try done.
    { split; [| done]. intros p [_ Hp]%list_elem_of_filter. by eapply tier_opens. }
    { intros _. rewrite Hbs. by apply Hmem. }
    cbn [candidates with_candidates l2]. by destruct (inside sh prim). }
  rewrite Hi. cbn [length Nat.eqb negb]. destruct strict.
  - destruct (nil_or prim) as [Hp | [Hp Hpz]].
    + rewrite Hp. cbn [length Nat.eqb negb].
      apply (select_rest_from k l0 l2 key now exclude true InShard 0); try done;
        [cbn; by rewrite Hi | apply Htier; [done | cbn; congruence] |].
      rewrite Hbs. cbn [candidates with_candidates l2]. rewrite Hi. change (shard l0) with sh. destruct exclude; [| done].
      cbn zeta. by destruct (inside sh (positions_where (open_to_all now) (backends l) 0)).
    + rewrite Hpz. cbn [negb]. unfold selects. destruct prim; [done |]. cbn [fst snd]. rewrite decide_True by done. by exists l2.
  - destruct (collect_spec l2 (in_tier now exclude false)) as [-> Hc3]. cbn [mbind outcome_bind].
    change (backends l2) with (backends l0) in Hc3 |- *. rewrite Hbs in Hc3 |- *. fold prim in Hc3 |- *. set (l3 := with_candidates l2 prim _) in *.
    apply (select_rest_from k l0 l3 key now exclude false SpilledOver (length prim)); try done; [by apply Htier |].
    rewrite Hbs. cbn [candidates with_candidates l3]. destruct prim; [| done]. by destruct exclude.
Qed.

(** *** A shard is unique *)

Lemma by_rank_antisym a b : by_rank a b -> by_rank b a -> a.2 = b.2.
Proof.
  rewrite !by_rank_iff. destruct (total_key a.1) as [[c1 e1] m1], (total_key b.1) as [[c2 e2] m2]. lia.
Qed.

Lemma NoDup_other (A B : list nat) r : NoDup A -> NoDup B -> length A = length B -> r ∈ A -> r ∉ B -> exists r', r' ∈ B /\ (r' ∉ A).
Proof.
  intros HA HB Hlen Hr Hn. destruct (decide (Forall (fun x => x ∈ A) B)) as [Hall | Hex].
  - destruct Hn. rewrite Forall_forall in Hall. assert (Hsub : B ⊆+ A) by (by apply NoDup_submseteq).
    assert (Hp : B ≡ₚ A) by (apply submseteq_length_Permutation; [done | lia]). by rewrite Hp.
  - apply not_Forall_Exists in Hex; [| apply _]. apply list.Exists_exists in Hex as (x & Hx & Hxn). by exists x.
Qed.

Lemma shape_score key bs bs' p : same_shape bs bs' -> score_of key bs p = score_of key bs' p.
Proof.
  intros [[Ha Hw] _]. pose proof (shape_lookup address bs bs' p Ha) as Hap. pose proof (shape_lookup backend_weight bs bs' p Hw) as Hwp.
  unfold score_of, hrw_score, hrw_score_with_seed. destruct (bs !! p), (bs' !! p); try done. injection Hap as ->. injection Hwp as ->. done.
Qed.

Lemma is_shard_unique key k bs bs' sh sh' : same_shape bs bs' -> is_shard key k bs sh -> is_shard key k bs' sh' -> forall p, p ∈ sh <-> p ∈ sh'.
Proof.
  intros Hs (top & Hl & Hnd & Hf & Hbest & Hel) (top' & Hl' & Hnd' & Hf' & Hbest' & Hel') p.
  rewrite Forall_forall in Hf. rewrite Forall_forall in Hf'.
  assert (Hsame : forall r, r ∈ top <-> r ∈ top').
  { assert (Hhalf : forall r, r ∈ top -> r ∈ top').
    { intros r Hr. destruct (decide (r ∈ top')) as [? | Hn]; [done |]. exfalso.
      destruct (NoDup_other top top' r Hnd Hnd' ltac:(lia) Hr Hn) as (r' & Hr' & Hn').
      destruct (Hf r Hr) as [Hrl Hrr], (Hf' r' Hr') as [Hrl' Hrr'].
      rewrite <- (shape_represents _ _ Hs) in Hrr'. rewrite <- (shape_length _ _ Hs) in Hrl'.
      pose proof (Hbest r r' Hr Hrl' Hrr' Hn') as H1.
      rewrite (shape_length _ _ Hs) in Hrl. rewrite (shape_represents _ _ Hs) in Hrr. pose proof (Hbest' r' r Hr' Hrl Hrr Hn) as H2.
      rewrite <- !(shape_score key bs bs' _ Hs) in H2. pose proof (by_rank_antisym _ _ H1 H2) as He. cbn in He. by subst. }
    intros r. split; [apply Hhalf |]. intros Hr. destruct (decide (r ∈ top)) as [? | Hn]; [done |]. exfalso.
    destruct (NoDup_other top' top r Hnd' Hnd ltac:(lia) Hr Hn) as (r' & Hr' & Hn'). by apply Hn', Hhalf. }
  rewrite Hel, Hel', (shape_backup _ _ _ Hs). setoid_rewrite Hsame. apply and_iff_compat_l. destruct Hs as [[Ha _] _].
  split; intros (r & Hr & H1 & H2); exists r; (split; [done |]); unfold same_address.
  - rewrite <- !(shape_lookup address bs bs' _ Ha). split; [done |]. rewrite <- (fmap_is_Some address), <- (shape_lookup address bs bs' _ Ha). by rewrite fmap_is_Some.
  - rewrite !(shape_lookup address bs bs' _ Ha). split; [done |]. rewrite <- (fmap_is_Some address), (shape_lookup address bs bs' _ Ha). by rewrite fmap_is_Some.
Qed.

Lemma sharded_unique l key s1 sh1 s2 sh2 : sharded_as l key s1 sh1 -> sharded_as l key s2 sh2 ->
  s1 = s2 /\ (s1 = true -> forall p, p ∈ sh1 <-> p ∈ sh2).
Proof.
  unfold sharded_as. destruct (shuffle_sharding l) as [s |]; [| intros -> ->; done]. destruct key as [z |]; [| intros -> ->; done].
  intros (k1 & Hk1 & -> & H1) (k2 & Hk2 & -> & H2). rewrite Hk1 in Hk2. injection Hk2 as <-. split; [done |].
  destruct k1 as [n |]; [| done]. intros _. apply (is_shard_unique z (Z.to_nat n) (backends l) (backends l)); [done | by apply H1 | by apply H2].
Qed.

Lemma eligible_members bs sh1 sh2 strict now exclude : (forall p, p ∈ sh1 <-> p ∈ sh2) ->
  eligible bs (Some (sh1, strict)) now exclude = eligible bs (Some (sh2, strict)) now exclude.
Proof.
  intros Hm. assert (Hin : forall c, inside sh1 c = inside sh2 c).
  { intros c. apply filter_ext_in. intros p _. unfold found. by rewrite !bool_decide_eq_true. }
  unfold eligible. by rewrite !Hin.
Qed.

Lemma sharding_eligible l key s1 sh1 s2 sh2 now exclude : sharded_as l key s1 sh1 -> sharded_as l key s2 sh2 ->
  eligible (backends l) (sharding_of l s1 sh1) now exclude = eligible (backends l) (sharding_of l s2 sh2) now exclude.
Proof.
  intros H1 H2. destruct (sharded_unique _ _ _ _ _ _ H1 H2) as [-> Hm]. unfold sharding_of. destruct s2; [| done].
  by apply eligible_members, Hm.
Qed.

(** What was chosen of the candidates [e], in the shard [sh]. *)
Definition chosen (k : nat) (l l' : BackendList) (now : Z) (sh : list nat) (picked : option nat) (outcome : ShardOutcome) (e : list nat * ShardOutcome) : Prop :=
  match picked with
  | Some q => q ∈ kept (backends l) e.1 /\ outcome = settled_outcome sh e.2 q /\ after_pick k l l' now q
  | None => e.1 = [] /\ outcome = e.2 /\ core l' = core l
  end.

Lemma select_tiers_chosen k l key now exclude : list_ok (S k) l -> sharding_ok l -> keyed key (backends l) ->
  exists l' picked outcome sharded sh, select_tiers l key now exclude = Val (l', picked, outcome) /\ sharded_as l key sharded sh /\
    chosen k l l' now sh picked outcome (eligible (backends l) (sharding_of l sharded sh) now exclude).
Proof.
  intros Hl Hsh Hk. destruct (select_tiers_spec k l key now exclude Hl Hsh Hk) as (s0 & sh0 & sc0 & Hs0 & Hsel).
  assert (Hout : s0 = false -> (eligible (backends l) (sharding_of l s0 sh0) now exclude).2 = Unsharded) by (by intros ->).
  unfold selects in Hsel. cbn zeta in Hsel. destruct (eligible (backends l) _ now exclude) as [cands o] eqn:Ee. cbn [fst snd] in Hsel, Hout.
  case_decide as Hn; [destruct Hsel as (l' & Hrun & Hc) | destruct Hsel as (l' & q & Hrun & Hq & Hap)]; rewrite Hrun.
  - exists l', None, o, s0, sh0. split; [done |]. split; [done |]. subst cands. unfold chosen. rewrite Ee. cbn [fst snd]. split_and!; [done | done | by destruct s0].
  - exists l', (Some q), (settled_outcome sh0 o q), s0, sh0. unfold chosen. rewrite Ee. cbn [fst snd].
    apply (after_pick_core _ l) in Hap; [| by destruct s0]. destruct s0; [by split_and! |]. rewrite (Hout eq_refl) in *. by split_and!.
Qed.

(** The candidates of a selection that would rather not take the excluded
    addresses. *)
Definition choices (bs : list Backend) (sharding : option (list nat * bool)) (now : Z) (exclude : list SocketAddr) : list nat * ShardOutcome :=
  if (eligible bs sharding now exclude).1 is [] then eligible bs sharding now [] else eligible bs sharding now exclude.

Lemma eligible_excluded bs sharding now exclude p : exclude <> [] -> p ∈ (eligible bs sharding now exclude).1 ->
  exists b, bs !! p = Some b /\ address b ∉ exclude.
Proof.
  intros Hne Hp. destruct exclude as [| a exclude]; [done |]. set (ex := a :: exclude) in *.
  assert (Htier : forall backups, p ∈ positions_where (in_tier now ex backups) bs 0 -> exists b, bs !! p = Some b /\ address b ∉ ex).
  { intros backups (_ & b & Hb & Ht)%positions_where_elem. rewrite Nat.sub_0_r in Hb. exists b. split; [done |].
    apply andb_true_iff in Ht as [_ Ht%negb_true_iff]. by apply bool_decide_eq_false in Ht. }
  assert (Hin : forall sh backups, p ∈ inside sh (positions_where (in_tier now ex backups) bs 0) -> exists b, bs !! p = Some b /\ address b ∉ ex).
  { intros sh backups [_ H1]%list_elem_of_filter. by eapply Htier. }
  pose proof (Htier false) as Ht1. pose proof (Htier true) as Ht2. pose proof (fun sh => Hin sh false) as Ht3. clear Htier Hin.
  assert (Hnil : p ∈ @nil nat -> exists b, bs !! p = Some b /\ address b ∉ ex) by (by intros ?%not_elem_of_nil).
  revert Hp. unfold eligible. cbn [ex]. fold ex. set (prim := positions_where (in_tier now ex false) bs 0) in *.
  set (backs := positions_where (in_tier now ex true) bs 0) in *. clearbody prim backs. destruct sharding as [[sh strict] |].
  - pose proof (Ht3 sh) as Hin. destruct (inside sh prim); [| done]. destruct strict; [by destruct prim | by destruct prim, backs].
  - by destruct prim, backs.
Qed.

Lemma sharded_core l l' key sharded sh : core l' = core l -> sharded_as l' key sharded sh -> sharded_as l key sharded sh.
Proof.
  intros (H1 & _ & Hs & H2)%core_fields. unfold sharded_as, settings in *. injection Hs as _ _ _ _ _ _ H3. by rewrite H1, H2, H3.
Qed.

End Selection.

(** C12. A selection takes an eligible backend: of the candidates its tiers, the
    client's shard and the excluded addresses leave, it takes one that stands
    for its address, and none only when there are none.  On a well-formed list
    and for a key whose rendezvous scores exist ([keyed]; C39 is a key without
    one) it fails no assertion.  Its scratch buffers apart it changes nothing
    when it takes none, and otherwise only the state of the policy, not its
    algorithm, the averages of connection times, and the fail-open latch,
    which it sets exactly when the backend it takes cannot open a connection.
    A strict shard without an open primary fails open inside itself, whether
    or not a backup can open. *)
Theorem selection_eligible `{LM : Libm} `{RL : RandLaws} k l key now exclude :
  list_ok (S k) l -> sharding_ok l -> keyed key (backends l) ->
  exists l' picked outcome sharded sh, select_with_key_excluding l key now exclude = Val (l', picked, outcome) /\
    sharded_as l key sharded sh /\ chosen k l l' now sh picked outcome (choices (backends l) (sharding_of l sharded sh) now exclude).
Proof.
  intros Hl Hsh Hk. unfold select_with_key_excluding, choices.
  destruct exclude as [| a exclude]; cbn [length Nat.eqb].
  { destruct (select_tiers_chosen k l key now [] Hl Hsh Hk) as (l' & picked & o & s & sh & Hrun & Hs & Hch).
    exists l', picked, o, s, sh. split; [done |]. split; [done |]. by destruct (eligible (backends l) _ now []) as [[] ?]. }
  set (ex := a :: exclude). destruct (select_tiers_chosen k l key now ex Hl Hsh Hk) as (l1 & picked & o & s & sh & Hrun & Hs & Hch).
  rewrite Hrun. cbn [mbind outcome_bind]. destruct picked as [q |]; cbn [chosen] in Hch.
  - destruct Hch as (Hq & Ho & Hap). pose proof (ap_backends _ _ _ _ _ Hap) as Hst. pose proof Hq as [Hqe _]%kept_elem.
    destruct (eligible_excluded _ _ now ex q ltac:(done) Hqe) as (b & Hb & Hnb).
    destruct (same_but_time_lookup _ _ q b Hst Hb) as (b' & Hb' & Hset). apply settled_fields in Hset as (_ & _ & Ha & _).
    rewrite debug_assert_true by (unfold address_at; rewrite Hb'; cbn; apply negb_true_iff, bool_decide_eq_false; by rewrite Ha).
    cbn [mbind outcome_bind]. exists l1, (Some q), o, s, sh. split; [done |]. split; [done |].
    destruct (eligible (backends l) _ now ex) as [[| x xs] ?]; [by apply not_elem_of_nil in Hqe | done].
  - destruct Hch as (Hn & _ & Hcore). pose proof (core_fields _ _ Hcore) as (Hbs & _ & _ & Hss).
    destruct (select_tiers_chosen k l1 key now []) as (l' & picked & o' & s' & sh' & Hrun' & Hs' & Hch').
    + by apply (list_ok_core _ l).
    + unfold sharding_ok in *. by rewrite Hss.
    + by rewrite Hbs.
    + apply (sharded_core l) in Hs'; [| done]. exists l', picked, o', s', sh'. split; [done |]. split; [done |].
      rewrite (sharding_eligible l key s' sh' s sh now ex Hs' Hs), Hn.
      assert (Hso : sharding_of l1 s' sh' = sharding_of l s' sh') by (unfold sharding_of; by rewrite Hss).
      rewrite Hbs, Hso in Hch'. unfold chosen in *. rewrite Hbs, Hcore in Hch'. destruct picked; [| exact Hch'].
      destruct Hch' as (? & ? & ?). split_and!; [done.. | by eapply after_pick_core].
Qed.

(** C18. The shard of a client does not move with the state of the backends:
    well-formed lists of the same addresses, weights and tiers, under equal
    sharding settings, give a key whose rendezvous scores exist the same
    shard, whatever their health, load and retries. *)
Theorem shard_stable `{LM : Libm} `{RL : RandLaws} k l l' key :
  list_ok k l -> list_ok k l' -> sharding_ok l -> keyed key (backends l) ->
  same_shape (backends l) (backends l') -> shuffle_sharding l' = shuffle_sharding l ->
  exists l1 l1' sharded, compute_shard l key = Val (l1, sharded) /\ compute_shard l' key = Val (l1', sharded) /\
    (sharded = true -> forall p, p ∈ shard l1 <-> p ∈ shard l1').
Proof.
  intros Hl Hl' Hsh Hk Hs Hss.
  assert (Hn : forall x, list_ok k x -> Z.of_nat (length (backends x)) < 2 ^ 32) by (intros x Hx; pose proof (lk_next _ _ Hx); unfold U32_MAX in *; lia).
  assert (Hk' : keyed key (backends l')).
  { destruct key as [z |]; [| done]. destruct Hk as [Hz Hf]. split; [done |]. rewrite Forall_lookup in Hf |- *. intros p b' Hb'.
    destruct Hs as [[Ha Hw] _]. pose proof (shape_lookup address _ _ p Ha) as Hap. pose proof (shape_lookup backend_weight _ _ p Hw) as Hwp.
    rewrite Hb' in Hap, Hwp. destruct (backends l !! p) as [b |] eqn:Eb; [| done]. destruct (Hf p b Eb) as [s Hsc]. exists s.
    unfold hrw_score, hrw_score_with_seed in *. injection Hap as <-. injection Hwp as <-. done. }
  destruct (compute_shard_spec l key (lk_siblings _ _ Hl) Hsh Hk (Hn l Hl)) as (sc & sh & s & Hrun & Has).
  destruct (compute_shard_spec l' key (lk_siblings _ _ Hl')) as (sc' & sh' & s' & Hrun' & Has'); [by unfold sharding_ok in *; rewrite Hss | done | by apply Hn |].
  assert (Hcount : shard_addresses l' = shard_addresses l).
  { rewrite (sb_count _ (lk_siblings _ _ Hl)), (sb_count _ (lk_siblings _ _ Hl')), (sb_reps _ (lk_siblings _ _ Hl)), (sb_reps _ (lk_siblings _ _ Hl')).
    rewrite <- (shape_length _ _ Hs), !count_true_fmap. f_equal. apply filter_ext_in. intros p _. by rewrite (shape_represents _ _ Hs). }
  assert (Hagree : s = s' /\ (s = true -> forall p, p ∈ sh <-> p ∈ sh')).
  { unfold sharded_as in Has, Has'. rewrite Hss, Hcount in Has'. destruct (shuffle_sharding l) as [sd |]; [| by subst].
    destruct key as [z |]; [| by subst]. destruct Has as (n & Hsz & -> & His), Has' as (n' & Hsz' & -> & His').
    rewrite Hsz in Hsz'. injection Hsz' as <-. split; [done |]. destruct n as [n |]; [| done]. intros _.
    by eapply is_shard_unique; [exact Hs | apply His | apply His']. }
  destruct Hagree as [<- Hm]. eexists _, _, s. split; [exact Hrun |]. split; [exact Hrun' |]. intros ->. exact (Hm eq_refl).
Qed.

(** ** An example *)

#[local] Existing Instance example_libm.
#[local] Existing Instance counting_rand.
#[local] Existing Instance counting_rand_laws.

(** A list of one backend, with no sharding. *)
Lemma example_list : exists l, add_backend (list_with_seed 1) (example_backend 1 (Some 5)) = Val l /\ list_ok 1000 l /\
  backends l = [example_backend 1 (Some 5)] /\ shuffle_sharding l = None.
Proof.
  destruct (add_backend_ok 1000 1000 (list_with_seed 1) (example_backend 1 (Some 5))) as (l & Hrun & Hok & Hbs & _ & Hss).
  - apply list_with_seed_ok.
  - done.
  - by split.
  - constructor; [by apply example_backend_ok | constructor].
  - exists l. split; [exact Hrun |]. clear Hrun. by split.
Qed.

(** The only backend is excluded, and chosen all the same. *)
Lemma selection_eligible_witness : exists l l' picked outcome sharded sh,
  select_with_key_excluding l None 0 [address (example_backend 1 (Some 5))] = Val (l', picked, outcome) /\
  chosen 999 l l' 0 sh picked outcome (choices [example_backend 1 (Some 5)] (sharding_of l sharded sh) 0 [address (example_backend 1 (Some 5))]).
Proof.
  destruct example_list as (l & _ & Hok & Hbs & Hss). exists l.
  destruct (selection_eligible 999 l None 0 [address (example_backend 1 (Some 5))] Hok) as (l' & picked & o & s & sh & Hrun & _ & Hch).
  - unfold sharding_ok. by rewrite Hss.
  - done.
  - exists l', picked, o, s, sh. split; [exact Hrun |]. by rewrite Hbs in Hch.
Defined.

(** The same backend, found unhealthy. *)
Definition unhealthy_backend : Backend := with_health (example_backend 1 (Some 5)) (mkHealth Unhealthy 0 3).

Lemma example_keyed : keyed (Some 4) [example_backend 1 (Some 5)].
Proof. split; [done |]. constructor; [eexists; by vm_compute | constructor]. Qed.

Lemma shard_stable_witness : exists l l1 l1',
  compute_shard (with_sharding l (Some (mkSharding 50 1 Strict))) (Some 4) = Val (l1, true) /\
  compute_shard (with_backends (with_sharding l (Some (mkSharding 50 1 Strict))) [unhealthy_backend] (next_id l)) (Some 4) = Val (l1', true) /\
  (0%nat ∈ shard l1 <-> 0%nat ∈ shard l1').
Proof.
  destruct example_list as (l & Hadd & Hok & Hbs & _). exists l. set (l0 := with_sharding l _).
  assert (Ht : (l ← add_backend (list_with_seed 1) (example_backend 1 (Some 5));
                r ← compute_shard (with_sharding l (Some (mkSharding 50 1 Strict))) (Some 4); Val r.2) = Val true) by (vm_compute; reflexivity).
  rewrite Hadd in Ht. clear Hadd. change ((r ← compute_shard l0 (Some 4); Val r.2) = Val true) in Ht.
  assert (Hok0 : list_ok 1000 l0) by (destruct Hok as [H1 H2 [] H4 H5]; by split).
  destruct (shard_stable 1000 l0 (with_backends l0 [unhealthy_backend] (next_id l)) (Some 4) Hok0) as (l1 & l1' & s & H1 & H2 & H3).
  - apply (touch_ok 1000 l0 [unhealthy_backend]); [exact Hok0 | cbn; by rewrite Hbs | cbn; by rewrite Hbs | constructor; [| constructor]].
    by apply (example_backend_ok 1 (Some 5)).
  - done.
  - cbn [backends with_sharding l0]. rewrite Hbs. exact example_keyed.
  - cbn. by rewrite Hbs.
  - done.
  - rewrite H1 in Ht. injection Ht as ->. exists l1, l1'. split; [exact H1 |]. split; [exact H2 | by apply H3].
Defined.
