(* ===== verification/PatternTrie.v ===== *)
(** * The hostname trie of the router

    Models [lib/src/router/pattern_trie.rs]: a trie over the labels of a
    hostname, walked from the rightmost label, whose segments are literal
    labels, [/regex/] segments or a leftmost [*].  The [regex] crate is the
    class [RegexCrate].  A node owns its subtrees, so a mutation in place is a
    function to the new node; recursion is on the shrinking key, with the
    length of the key as fuel ([trie_fuel]).

    [at_path] and [address] give the trie the meaning of a finite map from
    hostnames to values, which [insert], [remove] and [lookup_mut] are proved
    to refine; [candidates] is the reference order of the entries that match a
    request, of which [lookup] is proved to return the first accepted. *)

From S2P Require Import Prelude.

(** ** The regex crate *)

(** [Regex::new(p).ok()], [RegexBuilder::new(p).case_insensitive(true)
    .build().ok()], [Regex::as_str], [Regex::is_match],
    [Regex::captures(h).map(|c| c.iter().collect())], the whole match first,
    and [Regex::captures_len]. *)
Class RegexCrate := {
  Regex : Type;
  regex_new : list Z -> option Regex;
  regex_build_ci : list Z -> option Regex;
  as_str : Regex -> list Z;
  is_match : Regex -> list Z -> bool;
  captures : Regex -> list Z -> option (list (option (list Z)));
  captures_len : Regex -> nat;
}.

(** A compiled regex keeps the pattern it was given. *)
Class RegexLaws `{RegexCrate} := {
  as_str_new : forall p r, regex_new p = Some r -> as_str r = p;
  as_str_build : forall p r, regex_build_ci p = Some r -> as_str r = p;
}.

Definition is_none {A} (o : option A) : bool := match o with None => true | Some _ => false end.

(** [Regex::new(p).is_ok()] *)
Definition regex_new_ok `{RegexCrate} (p : list Z) : bool := negb (is_none (regex_new p)).

(** ** Octets and strings *)

(** [str::from_utf8(l).is_ok()]: the well-formed sequences of UTF-8. *)
Definition is_cont (b : Z) : bool := (128 <=? b) && (b <=? 191).
Definition between (a b x : Z) : bool := (a <=? x) && (x <=? b).

Definition utf8_3 (b0 b1 : Z) : bool :=
  ((b0 =? 224) && between 160 191 b1) || (between 225 236 b0 && is_cont b1) ||
  ((b0 =? 237) && between 128 159 b1) || (between 238 239 b0 && is_cont b1).

Definition utf8_4 (b0 b1 : Z) : bool :=
  ((b0 =? 240) && between 144 191 b1) || (between 241 243 b0 && is_cont b1) ||
  ((b0 =? 244) && between 128 143 b1).

Fixpoint utf8_valid (l : list Z) : bool :=
  match l with
  | [] => true
  | b0 :: l0 =>
      if b0 <? 128 then utf8_valid l0 else
      match l0 with
      | [] => false
      | b1 :: l1 =>
          if between 194 223 b0 && is_cont b1 then utf8_valid l1 else
          match l1 with
          | [] => false
          | b2 :: l2 =>
              if utf8_3 b0 b1 && is_cont b2 then utf8_valid l2 else
              match l2 with
              | [] => false
              | b3 :: l3 => utf8_4 b0 b1 && is_cont b2 && is_cont b3 && utf8_valid l3
              end
          end
      end
  end.

(** [&l[a..b]], which panics when the range is not within the slice. *)
Definition range {A} (l : list A) (a b : nat) : checked (list A) :=
  if (a <=? b)%nat && (b <=? length l)%nat then Val (slice l a b) else Panic.

Definition DOT : Z := 46.
Definition SLASH : Z := 47.

(** [(0..n).rev().find(|&i| input[i] == c)] *)
Fixpoint rfind (c : Z) (input : list Z) (n : nat) : option nat :=
  match n with
  | O => None
  | S i => if decide (input !! i = Some c) then Some i else rfind c input i
  end.

Definition find_last_dot (input : list Z) : option nat := rfind DOT input (length input).
Definition find_last_slash (input : list Z) : option nat := rfind SLASH input (length input).

Definition starts_with (l p : list Z) : bool := bool_decide (take (length p) l = p).
Definition ends_with (l s : list Z) : bool := bool_decide (drop (length l - length s) l = s).

(** ** Nodes *)

Abbreviation Key := (list Z) (only parsing).

Inductive InsertResult := InsertOk | InsertExisting | InsertFailed.
Inductive RemoveResult := RemoveOk | RemoveNotFound.

Global Instance InsertResult_eq_dec : EqDecision InsertResult.
Proof. solve_decision. Defined.
Global Instance RemoveResult_eq_dec : EqDecision RemoveResult.
Proof. solve_decision. Defined.

Set Warnings "-register-all".

Section Trie.
Context `{RegexCrate} {V : Type}.

Definition KeyValue : Type := Key * V.

Inductive TrieNode : Type :=
| mkTrieNode (key_value : option KeyValue) (wildcard : option KeyValue)
    (children : gmap Key TrieNode) (regexps : list (Regex * TrieNode)).

Definition key_value (n : TrieNode) := let 'mkTrieNode kv _ _ _ := n in kv.
Definition wildcard (n : TrieNode) := let 'mkTrieNode _ w _ _ := n in w.
Definition children (n : TrieNode) := let 'mkTrieNode _ _ c _ := n in c.
Definition regexps (n : TrieNode) := let 'mkTrieNode _ _ _ r := n in r.

Definition set_key_value (n : TrieNode) kv := mkTrieNode kv (wildcard n) (children n) (regexps n).
Definition set_wildcard (n : TrieNode) w := mkTrieNode (key_value n) w (children n) (regexps n).
Definition set_children (n : TrieNode) c := mkTrieNode (key_value n) (wildcard n) c (regexps n).
Definition set_regexps (n : TrieNode) r := mkTrieNode (key_value n) (wildcard n) (children n) r.

Definition new (key : Key) (value : V) : TrieNode := mkTrieNode (Some (key, value)) None ∅ [].
Definition new_wildcard (key : Key) (value : V) : TrieNode :=
  mkTrieNode None (Some (key, value)) ∅ [].
Definition root : TrieNode := mkTrieNode None None ∅ [].

Definition is_empty (n : TrieNode) : bool :=
  is_none (key_value n) && is_none (wildcard n) &&
  bool_decide (regexps n = []) && bool_decide (children n = ∅).

(** [Option::is_some() as usize] *)
Definition some_count {A} (o : option A) : nat := match o with None => 0 | Some _ => 1 end.

Fixpoint count_values (n : TrieNode) : nat :=
  let 'mkTrieNode kv w c r := n in
  (some_count kv + some_count w
    + map_fold (fun _ child acc => count_values child + acc) 0 c
    + foldr (fun '(_, child) acc => count_values child + acc) 0 r)%nat.

(** The [debug_assert!]s of [check_invariants]: whether they all pass. *)
Fixpoint check_invariants (n : TrieNode) : bool :=
  let 'mkTrieNode _ _ c r := n in
  bool_decide (NoDup (as_str <$> r.*1)) &&
  map_fold (fun child_key child acc =>
    bool_decide (child_key <> []) && negb (is_empty child) && (0 <? count_values child)%nat &&
    check_invariants child && acc) true c &&
  foldr (fun '(_, child) acc =>
    negb (is_empty child) && (0 <? count_values child)%nat &&
    check_invariants child && acc) true r.

(** ** Segments *)

Definition anchored_segment (segment : list Z) : checked (option (list Z)) :=
  if regex_new_ok segment then
    let anchored := bstr "\A(?:" ++ segment ++ bstr ")\z" in
    _ ← debug_assert (starts_with anchored (bstr "\A(?:") && ends_with anchored (bstr ")\z"));
    Val (Some anchored)
  else Val None.

Definition compiled_segment (segment : list Z) : checked (option Regex) :=
  anchored ← anchored_segment segment;
  match anchored with
  | None => Val None
  | Some anchored =>
      match regex_build_ci anchored with
      | None => Val None
      | Some compiled =>
          _ ← debug_assert (bool_decide (as_str compiled = anchored));
          Val (Some compiled)
      end
  end.

(** The steps [insert_recursive], [remove_recursive] and [lookup_mut] share on
    a key that ends with a slash: the position of the slash that opens the
    last segment and the text of the segment; [None] where they give up. *)
Definition slash_segment (partial_key : Key) : checked (option (nat * list Z)) :=
  head ← range partial_key 0 (length partial_key - 1);
  match find_last_slash head with
  | None => Val None
  | Some pos =>
      dotted ← (if (0 <? pos)%nat then
                  b ← index partial_key (pos - 1); Val (b =? DOT)
                else Val true);
      if negb dotted then Val None else
      s ← range partial_key (pos + 1) (length partial_key - 1);
      if utf8_valid s then Val (Some (pos, s)) else Val None
  end.

(** The [regexps] entry with a pattern: its position and itself. *)
Definition find_regexp (anchored : list Z) (r : list (Regex * TrieNode)) :
    option (nat * (Regex * TrieNode)) :=
  list_find (fun e => as_str e.1 = anchored) r.

(** [&partial_key[..pos - 1]], or nothing before a leftmost segment. *)
Definition segment_rest (partial_key : Key) (pos : nat) : checked Key :=
  if (0 <? pos)%nat then range partial_key 0 (pos - 1) else range partial_key 0 0.

(** The dot-split of a key: prefix and suffix, the dot at the head of the
    suffix. *)
Definition dot_split (partial_key : Key) : checked (Key * Key) :=
  match find_last_dot partial_key with
  | None => Val ([], partial_key)
  | Some pos =>
      prefix ← range partial_key 0 pos;
      suffix ← range partial_key pos (length partial_key);
      Val (prefix, suffix)
  end.

(** ** Insertion *)

Definition insert_own_value (n : TrieNode) (key : Key) (value : V) : TrieNode * InsertResult :=
  if is_none (key_value n) then (set_key_value n (Some (key, value)), InsertOk)
  else (n, InsertExisting).

Fixpoint insert_recursive (fuel : nat) (n : TrieNode) (partial_key key : Key) (value : V) :
    checked (TrieNode * InsertResult) :=
  match fuel with
  | O => Panic
  | S fuel =>
      if decide (partial_key = []) then Val (n, InsertFailed) else
      _ ← debug_assert (length partial_key <=? length key)%nat;
      last_byte ← index partial_key (length partial_key - 1);
      if last_byte =? SLASH then
        segment ← slash_segment partial_key;
        match segment with
        | None => Val (n, InsertFailed)
        | Some (pos, s) =>
            anchored_s ← anchored_segment s;
            match anchored_s with
            | None => Val (n, InsertFailed)
            | Some anchored_s =>
                match find_regexp anchored_s (regexps n) with
                | Some (i, (r, child)) =>
                    '(child, res) ←
                      (if (0 <? pos)%nat then
                         rest ← range partial_key 0 (pos - 1);
                         insert_recursive fuel child rest key value
                       else Val (insert_own_value child key value));
                    Val (set_regexps n (<[i := (r, child)]> (regexps n)), res)
                | None =>
                    compiled ← compiled_segment s;
                    match compiled with
                    | None => Val (n, InsertFailed)
                    | Some r =>
                        if (0 <? pos)%nat then
                          rest ← range partial_key 0 (pos - 1);
                          '(node, res) ← insert_recursive fuel root rest key value;
                          if decide (res = InsertOk) then
                            Val (set_regexps n (regexps n ++ [(r, node)]), res)
                          else Val (n, res)
                        else Val (set_regexps n (regexps n ++ [(r, new key value)]), InsertOk)
                    end
                end
            end
        end
      else
        match find_last_dot partial_key with
        | None =>
            if decide (is_Some (children n !! partial_key)) then Val (n, InsertExisting)
            else if decide (partial_key = bstr "*") then
              if is_none (wildcard n) then Val (set_wildcard n (Some (key, value)), InsertOk)
              else Val (n, InsertExisting)
            else Val (set_children n (<[partial_key := new key value]> (children n)), InsertOk)
        | Some pos =>
            prefix ← range partial_key 0 pos;
            suffix ← range partial_key pos (length partial_key);
            _ ← debug_assert (length prefix + length suffix =? length partial_key)%nat;
            b ← index partial_key pos;
            _ ← debug_assert (b =? DOT);
            match children n !! suffix with
            | Some child =>
                '(child, res) ← insert_recursive fuel child prefix key value;
                Val (set_children n (<[suffix := child]> (children n)), res)
            | None =>
                '(node, res) ← insert_recursive fuel root prefix key value;
                if decide (res = InsertOk) then
                  Val (set_children n (<[suffix := node]> (children n)), res)
                else Val (n, res)
            end
        end
  end.

(** Every recursive call is on a strictly shorter key. *)
Definition trie_fuel (key : Key) : nat := S (length key).

Definition insert (n : TrieNode) (key : Key) (value : V) : checked (TrieNode * InsertResult) :=
  if decide (key = []) then Val (n, InsertFailed)
  else if decide (key = [DOT]) then Val (n, InsertFailed)
  else
    let before := count_values n in
    '(n, insert_result) ← insert_recursive (trie_fuel key) n key key value;
    let after := count_values n in
    _ ← match insert_result with
        | InsertOk => debug_assert (after =? before + 1)%nat
        | InsertExisting => debug_assert (after =? before)%nat
        | InsertFailed => debug_assert (after =? before)%nat
        end;
    _ ← debug_assert (check_invariants n);
    Val (n, insert_result).

(** ** Removal *)

Fixpoint remove_recursive (fuel : nat) (n : TrieNode) (partial_key : Key) :
    checked (TrieNode * RemoveResult) :=
  match fuel with
  | O => Panic
  | S fuel =>
      if decide (partial_key = []) then
        if is_none (key_value n) then Val (n, RemoveNotFound)
        else Val (set_key_value n None, RemoveOk)
      else if decide (partial_key = bstr "*") then
        if is_none (wildcard n) then Val (n, RemoveNotFound)
        else Val (set_wildcard n None, RemoveOk)
      else
      last_byte ← index partial_key (length partial_key - 1);
      if last_byte =? SLASH then
        segment ← slash_segment partial_key;
        match segment with
        | None => Val (n, RemoveNotFound)
        | Some (pos, s) =>
            anchored_s ← anchored_segment s;
            match anchored_s with
            | None => Val (n, RemoveNotFound)
            | Some anchored_s =>
                rest ← segment_rest partial_key pos;
                match find_regexp anchored_s (regexps n) with
                | None => Val (n, RemoveNotFound)
                | Some (i, (r, child)) =>
                    '(child, res) ← remove_recursive fuel child rest;
                    let n := set_regexps n (<[i := (r, child)]> (regexps n)) in
                    if decide (res = RemoveOk) then
                      if is_empty child then Val (set_regexps n (delete i (regexps n)), RemoveOk)
                      else Val (n, RemoveOk)
                    else Val (n, RemoveNotFound)
                end
            end
        end
      else
        '(prefix, suffix) ← dot_split partial_key;
        _ ← debug_assert (length prefix + length suffix =? length partial_key)%nat;
        match children n !! suffix with
        | None => Val (n, RemoveNotFound)
        | Some child =>
            '(child, res) ← remove_recursive fuel child prefix;
            let n := set_children n (<[suffix := child]> (children n)) in
            match res with
            | RemoveNotFound => Val (n, RemoveNotFound)
            | RemoveOk =>
                if is_empty child then
                  let n := set_children n (delete suffix (children n)) in
                  _ ← debug_assert (is_none (children n !! suffix));
                  Val (n, RemoveOk)
                else
                  _ ← debug_assert (0 <? count_values child)%nat;
                  Val (n, RemoveOk)
            end
        end
  end.

Definition remove (n : TrieNode) (key : Key) : checked (TrieNode * RemoveResult) :=
  let before := count_values n in
  '(n, remove_result) ← remove_recursive (trie_fuel key) n key;
  let after := count_values n in
  _ ← match remove_result with
      | RemoveOk => debug_assert (after + 1 =? before)%nat
      | RemoveNotFound => debug_assert (after =? before)%nat
      end;
  _ ← debug_assert (check_invariants n);
  Val (n, remove_result).

(** ** Request-addressed lookup *)

Inductive TrieSubMatch :=
| SubWildcard (segment : list Z)
| SubRegexp (segment : list Z) (regexp : Regex).

End Trie.

Arguments KeyValue : clear implicits.
Arguments TrieNode {_} V.

(** [trait SubMatchSink]: [&mut self] methods return the new sink. *)
Class SubMatchSink (S M : Type) := {
  mark : S -> nat;
  rewind : S -> nat -> checked S;
  push : S -> M -> S;
}.

(** [struct NoTrace] *)
Inductive NoTrace := mkNoTrace.

Global Instance NoTrace_sink M : SubMatchSink NoTrace M := {|
  mark _ := 0%nat;
  rewind s _ := Val s;
  push s _ := s;
|}.

(** [TrieMatches]: a [Vec]. *)
Abbreviation TrieMatches M := (list M) (only parsing).

Global Instance TrieMatches_sink M : SubMatchSink (TrieMatches M) M := {|
  mark s := length s;
  rewind s m := Val (take m s);
  push s x := s ++ [x];
|}.

Definition INLINE_TRIE_MATCHES : nat := 16.

Record InlineTrieMatches (M : Type) := mkInlineTrieMatches {
  inline : list (option M);
  spilled : list M;
  ilen : nat;
}.
Arguments mkInlineTrieMatches {M}.
Arguments inline {M}.
Arguments spilled {M}.
Arguments ilen {M}.

Definition inline_new {M} : InlineTrieMatches M :=
  mkInlineTrieMatches (replicate INLINE_TRIE_MATCHES None) [] 0.

(** [inline[..len.min(16)].iter().flatten().chain(spilled.iter())] *)
Definition inline_iter {M} (t : InlineTrieMatches M) : checked (list M) :=
  slots ← range (inline t) 0 (Nat.min (ilen t) INLINE_TRIE_MATCHES);
  Val (omap id slots ++ spilled t).

Definition inline_rewind {M} (t : InlineTrieMatches M) (m : nat) : checked (InlineTrieMatches M) :=
  _ ← debug_assert (m <=? ilen t)%nat;
  Val (mkInlineTrieMatches (inline t) (take (m - INLINE_TRIE_MATCHES) (spilled t)) m).

Definition inline_push {M} (t : InlineTrieMatches M) (x : M) : InlineTrieMatches M :=
  match inline t !! ilen t with
  | Some _ => mkInlineTrieMatches (<[ilen t := Some x]> (inline t)) (spilled t) (S (ilen t))
  | None => mkInlineTrieMatches (inline t) (spilled t ++ [x]) (S (ilen t))
  end.

Global Instance InlineTrieMatches_sink M : SubMatchSink (InlineTrieMatches M) M := {|
  mark := ilen;
  rewind := inline_rewind;
  push := inline_push;
|}.

Section Lookup.
Context `{RegexCrate} {V : Type}.

(** The walk, generic in the sink [S] and in the state [A] of the [FnMut]
    that accepts or refuses a candidate. *)
Section Walk.
Context {S A : Type} `{SubMatchSink S TrieSubMatch}.
Context (accept : A -> KeyValue V -> bool * A).

Abbreviation walk_result := (checked (option (KeyValue V) * S * A)).

(** One candidate subtree: tried, and its segments rewound when it does not
    answer, in which case [next] goes on. *)
Definition try_child (walk : S -> A -> walk_result) (m : nat) (trace : S) (st : A)
    (next : S -> A -> walk_result) : walk_result :=
  '(found, trace, st) ← walk trace st;
  match found with
  | Some kv => Val (Some kv, trace, st)
  | None => trace ← rewind trace m; next trace st
  end.

(** The loop over the regex segments. *)
Fixpoint regexp_loop (walk : TrieNode V -> S -> A -> walk_result) (segment : list Z)
    (rs : list (Regex * TrieNode V)) (next : S -> A -> walk_result) (trace : S) (st : A) :
    walk_result :=
  match rs with
  | [] => next trace st
  | (regexp, child) :: rs =>
      if negb (is_match regexp segment) then regexp_loop walk segment rs next trace st
      else try_child (walk child) (mark trace) (push trace (SubRegexp segment regexp)) st
             (regexp_loop walk segment rs next)
  end.

(** The regex segments, then the wildcard, which stands for one leftmost
    label. *)
Definition non_literal (walk : TrieNode V -> S -> A -> walk_result) (n : TrieNode V)
    (prefix suffix : Key) (accept_wildcard : bool) (trace : S) (st : A) : walk_result :=
  b ← index suffix 0;
  segment ← (if b =? DOT then range suffix 1 (length suffix) else Val suffix);
  regexp_loop walk segment (regexps n)
    (fun trace st =>
       if bool_decide (prefix = []) && accept_wildcard then
         match wildcard n with
         | Some kv =>
             let '(ok, st) := accept st kv in
             if ok : bool then Val (Some kv, push trace (SubWildcard segment), st)
             else Val (None, trace, st)
         | None => Val (None, trace, st)
         end
       else Val (None, trace, st)) trace st.

Fixpoint lookup_recursive (fuel : nat) (n : TrieNode V) (partial_key : Key)
    (accept_wildcard : bool) (trace : S) (st : A) : walk_result :=
  match fuel with
  | O => Panic
  | Datatypes.S fuel =>
      if decide (partial_key = []) then
        match key_value n with
        | Some kv => let '(ok, st) := accept st kv in
                     Val (if ok : bool then Some kv else None, trace, st)
        | None => Val (None, trace, st)
        end
      else
        '(prefix, suffix) ← dot_split partial_key;
        _ ← debug_assert (length prefix + length suffix =? length partial_key)%nat;
        _ ← debug_assert (bool_decide (suffix <> []));
        _ ← debug_assert (is_none (find_last_dot partial_key) ||
                          bool_decide (head suffix = Some DOT));
        let walk := fun child => lookup_recursive fuel child prefix accept_wildcard in
        match children n !! suffix with
        | Some child => try_child (walk child) (mark trace) trace st
                          (non_literal walk n prefix suffix accept_wildcard)
        | None => non_literal walk n prefix suffix accept_wildcard trace st
        end
  end.
End Walk.

Definition lookup_with_path {A} (n : TrieNode V) (partial_key : Key) (accept_wildcard : bool)
    (trace : TrieMatches TrieSubMatch) (accept : A -> KeyValue V -> bool * A) (st : A) :
    checked (option (KeyValue V * TrieMatches TrieSubMatch) * A) :=
  '(found, trace, st) ←
    lookup_recursive accept (trie_fuel partial_key) n partial_key accept_wildcard trace st;
  Val (match found with Some kv => Some (kv, trace) | None => None end, st).

Definition lookup_with_inline_path {A} (n : TrieNode V) (partial_key : Key)
    (accept_wildcard : bool) (trace : InlineTrieMatches TrieSubMatch)
    (accept : A -> KeyValue V -> bool * A) (st : A) :
    checked (option (KeyValue V) * InlineTrieMatches TrieSubMatch * A) :=
  _ ← debug_assert (mark trace =? 0)%nat;
  lookup_recursive accept (trie_fuel partial_key) n partial_key accept_wildcard trace st.

Definition lookup (n : TrieNode V) (partial_key : Key) (accept_wildcard : bool) :
    checked (option (KeyValue V)) :=
  '(found, _, _) ←
    lookup_recursive (fun (_ : unit) (_ : KeyValue V) => (true, tt)) (trie_fuel partial_key)
      n partial_key accept_wildcard mkNoTrace tt;
  Val found.

(** ** Key-addressed lookup

    [Option<&mut KeyValue>] is the entry and the function that writes it back. *)

Definition mut_entry : Type := KeyValue V * (KeyValue V -> TrieNode V).

Definition lift_entry (f : TrieNode V -> TrieNode V) (e : option mut_entry) : option mut_entry :=
  (fun '(kv, put) => (kv, fun kv' => f (put kv'))) <$> e.

Definition key_value_mut (n : TrieNode V) : option mut_entry :=
  (fun kv => (kv, fun kv' => set_key_value n (Some kv'))) <$> key_value n.

Definition wildcard_mut (n : TrieNode V) : option mut_entry :=
  (fun kv => (kv, fun kv' => set_wildcard n (Some kv'))) <$> wildcard n.

Fixpoint lookup_mut (fuel : nat) (n : TrieNode V) (partial_key : Key)
    (accept_wildcard : bool) : checked (option mut_entry) :=
  match fuel with
  | O => Panic
  | S fuel =>
      if decide (partial_key = []) then Val (key_value_mut n)
      else if decide (partial_key = bstr "*") then Val (wildcard_mut n)
      else
      last_byte ← index partial_key (length partial_key - 1);
      if last_byte =? SLASH then
        segment ← slash_segment partial_key;
        match segment with
        | None => Val None
        | Some (pos, s) =>
            anchored_s ← anchored_segment s;
            match anchored_s with
            | None => Val None
            | Some anchored_s =>
                match find_regexp anchored_s (regexps n) with
                | None => Val None
                | Some (i, (r, child)) =>
                    rest ← segment_rest partial_key pos;
                    e ← lookup_mut fuel child rest accept_wildcard;
                    Val (lift_entry
                      (fun child => set_regexps n (<[i := (r, child)]> (regexps n))) e)
                end
            end
        end
      else
        '(prefix, suffix) ← dot_split partial_key;
        _ ← debug_assert (length prefix + length suffix =? length partial_key)%nat;
        _ ← debug_assert (bool_decide (suffix <> []));
        match children n !! suffix with
        | Some child =>
            e ← lookup_mut fuel child prefix accept_wildcard;
            Val (lift_entry
              (fun child => set_children n (<[suffix := child]> (children n))) e)
        | None =>
            if bool_decide (prefix = []) && negb (is_none (wildcard n)) && accept_wildcard then
              Val (wildcard_mut n)
            else if negb accept_wildcard then Val None
            else
              b ← index suffix 0;
              suffix ← (if b =? DOT then range suffix 1 (length suffix) else Val suffix);
              match list_find (fun e => is_match e.1 suffix = true) (regexps n) with
              | None => Val None
              | Some (i, (r, child)) =>
                  e ← lookup_mut fuel child prefix accept_wildcard;
                  Val (lift_entry
                    (fun child => set_regexps n (<[i := (r, child)]> (regexps n))) e)
              end
        end
  end.

Definition domain_insert (n : TrieNode V) (key : Key) (value : V) := insert n key value.
Definition domain_remove (n : TrieNode V) (key : Key) := remove n key.
Definition domain_lookup (n : TrieNode V) (key : Key) (accept_wildcard : bool) :=
  lookup n key accept_wildcard.
Definition domain_lookup_mut (n : TrieNode V) (key : Key) (accept_wildcard : bool) :=
  lookup_mut (trie_fuel key) n key accept_wildcard.

(** ** Sweeps over every value *)

(** [f : FnMut(&mut V)] threads a state; the order of [values_mut], which Rust
    leaves open, is the order of the map. *)
Definition visit {St} (f : V -> St -> V * St) (kv : option (KeyValue V)) (st : St) :
    option (KeyValue V) * St :=
  match kv with
  | Some (key, value) => let '(value, st) := f value st in (Some (key, value), st)
  | None => (None, st)
  end.

Fixpoint for_each_value_mut {St} (f : V -> St -> V * St) (n : TrieNode V) (st : St) :
    TrieNode V * St :=
  let 'mkTrieNode kv w c r := n in
  let '(kv, st) := visit f kv st in
  let '(w, st) := visit f w st in
  let '(c, st) := map_fold (fun k child '(c, st) =>
    let '(child, st) := for_each_value_mut f child st in (<[k := child]> c, st)) (∅, st) c in
  let '(r, st) := foldl (fun '(r, st) '(re, child) =>
    let '(child, st) := for_each_value_mut f child st in (r ++ [(re, child)], st)) ([], st) r in
  (mkTrieNode kv w c r, st).

Definition hashmap_insert (kv : option (KeyValue V)) (h : gmap Key V) : gmap Key V :=
  match kv with Some (key, value) => <[key := value]> h | None => h end.

Fixpoint to_hashmap_recursive (n : TrieNode V) (h : gmap Key V) : gmap Key V :=
  let 'mkTrieNode kv w c _ := n in
  map_fold (fun _ child h => to_hashmap_recursive child h)
    (hashmap_insert w (hashmap_insert kv h)) c.

Definition to_hashmap (n : TrieNode V) : gmap Key V := to_hashmap_recursive n ∅.

End Lookup.
