(* ===== verification/PatternTrieSpec.v ===== *)
(** * What the hostname trie promises

    The trie of [PatternTrie] read as a finite map.  A hostname is an
    [address]: the segments the walk consumes and the slot its value lives in.
    [at_path] reads an address, [insert_at] and [remove_at] are the reference
    updates; [insert], [remove] and [lookup_mut] refine them.  A request is
    answered by the first accepted of the [candidates]. *)

From S2P Require Import Prelude PatternTrie.

Set Warnings "-register-all".

(** ** Splitting keys *)

Lemma rfind_Some c l n i :
  rfind c l n = Some i ->
  (i < n)%nat /\ l !! i = Some c /\ forall j, (i < j < n)%nat -> l !! j <> Some c.
Proof.
  induction n as [| n IH]; cbn [rfind]; [done |]. case_decide as Hd.
  - intros [= <-]. split; [lia |]. split; [done |]. intros; lia.
  - intros (? & ? & Hj)%IH. split; [lia |]. split; [done |]. intros j Hjn.
    destruct (decide (j = n)) as [-> |]; [done | apply Hj; lia].
Qed.

Lemma rfind_None c l n : rfind c l n = None -> forall j, (j < n)%nat -> l !! j <> Some c.
Proof.
  induction n as [| n IH]; cbn [rfind]; [lia |]. case_decide; [done |].
  intros HN j Hj. destruct (decide (j = n)) as [-> |]; [done | apply IH; [done | lia]].
Qed.

Lemma range_Val {A} (l : list A) a b :
  (a <= b)%nat -> (b <= length l)%nat -> range l a b = Val (slice l a b).
Proof.
  intros H1 H2. unfold range. rewrite (proj2 (Nat.leb_le _ _) H1), (proj2 (Nat.leb_le _ _) H2).
  done.
Qed.

Lemma slice_take {A} (l : list A) b : slice l 0 b = take b l.
Proof. unfold slice. by rewrite Nat.sub_0_r. Qed.

Lemma slice_drop {A} (l : list A) a : slice l a (length l) = drop a l.
Proof. unfold slice. apply take_ge. rewrite length_drop. lia. Qed.

Lemma find_last_dot_Some k pos :
  find_last_dot k = Some pos -> (pos < length k)%nat /\ k !! pos = Some DOT.
Proof. intros (? & ? & _)%rfind_Some. done. Qed.

Lemma find_last_dot_None k : find_last_dot k = None -> DOT ∉ k.
Proof.
  intros HN [j Hj]%list_elem_of_lookup. apply (rfind_None _ _ _ HN j); [| done].
  by apply lookup_lt_Some in Hj.
Qed.

(** The dot-split without its bound checks. *)
Definition split_dot (k : Key) : Key * Key :=
  match find_last_dot k with None => ([], k) | Some pos => (take pos k, drop pos k) end.

Lemma dot_split_Val k : dot_split k = Val (split_dot k).
Proof.
  unfold dot_split, split_dot. destruct (find_last_dot k) as [pos |] eqn:E; [| done].
  apply find_last_dot_Some in E as [??].
  rewrite !range_Val by lia. cbn. by rewrite slice_take, slice_drop.
Qed.

Lemma split_dot_app k p s : split_dot k = (p, s) -> k = p ++ s.
Proof.
  unfold split_dot. destruct (find_last_dot k); intros [= <- <-]; [| done].
  by rewrite take_drop.
Qed.

Lemma split_dot_shrinks k p s :
  k <> [] -> split_dot k = (p, s) -> (length p < length k)%nat /\ s <> [].
Proof.
  unfold split_dot. intros Hk. destruct (find_last_dot k) as [pos |] eqn:E; intros [= <- <-].
  - apply find_last_dot_Some in E as [??]. rewrite length_take. split; [lia |].
    intros Hd. apply (f_equal length) in Hd. rewrite length_drop in Hd. cbn in Hd. lia.
  - split; [| done]. destruct k; [done | cbn; lia].
Qed.

Lemma split_dot_dotless k p s : split_dot k = (p, s) -> DOT ∉ s -> p = [] /\ s = k.
Proof.
  unfold split_dot. destruct (find_last_dot k) as [pos |] eqn:E; intros [= <- <-]; [| done].
  apply find_last_dot_Some in E as [??]. intros []. apply list_elem_of_lookup. exists 0%nat.
  by rewrite lookup_drop, Nat.add_0_r.
Qed.

(** [slash_segment] without its bound checks. *)
Definition segment_of (k : Key) : option (nat * list Z) :=
  match find_last_slash (take (length k - 1) k) with
  | None => None
  | Some pos =>
      let s := slice k (pos + 1) (length k - 1) in
      if ((pos =? 0)%nat || bool_decide (k !! (pos - 1)%nat = Some DOT)) && utf8_valid s
      then Some (pos, s) else None
  end.

Lemma slash_segment_Val k : slash_segment k = Val (segment_of k).
Proof.
  unfold slash_segment, segment_of. rewrite range_Val, slice_take by lia.
  cbn [mbind outcome_bind]. destruct (find_last_slash _) as [pos |] eqn:E; [| done].
  apply rfind_Some in E as (Hpos & _). rewrite length_take in Hpos.
  rewrite range_Val by lia. destruct pos as [| pos].
  { cbn [Nat.ltb Nat.leb mbind outcome_bind negb Nat.eqb orb andb]. by destruct (utf8_valid _). }
  cbn [Nat.ltb Nat.leb Nat.eqb orb]. replace (S pos - 1)%nat with pos by lia.
  destruct (lookup_lt_is_Some_2 k pos) as [b Hb]; [lia |].
  rewrite (index_Some _ _ _ Hb), Hb. cbn [mbind outcome_bind].
  destruct (Z.eqb_spec b DOT) as [-> | Hne]; cbn [negb].
  - rewrite bool_decide_true by done. by destruct (utf8_valid _).
  - rewrite bool_decide_false by congruence. done.
Qed.

(** The key before a segment that opens at [pos]. *)
Definition rest_of (k : Key) (pos : nat) : Key := if (0 <? pos)%nat then take (pos - 1) k else [].

Lemma segment_of_split k pos s :
  segment_of k = Some (pos, s) -> last k = Some SLASH ->
  (pos < length k)%nat /\
  k = (if (0 <? pos)%nat then rest_of k pos ++ [DOT] else []) ++ SLASH :: s ++ [SLASH].
Proof.
  unfold segment_of. destruct (find_last_slash _) as [p |] eqn:E; [| done].
  destruct (_ && _) eqn:Hc; [| done]. intros [= <- <-] Hlast.
  apply andb_true_iff in Hc as [Hc _]. apply rfind_Some in E as (Hp & Hs & _).
  rewrite length_take in Hp. rewrite lookup_take_lt in Hs by lia.
  split; [lia |]. rewrite last_lookup in Hlast.
  rewrite <- (take_drop_middle k p _ Hs) at 1. f_equal.
  - unfold rest_of. destruct p as [| p]; [done |].
    cbn [Nat.ltb Nat.leb Nat.eqb orb] in *. replace (S p - 1)%nat with p in * by lia.
    apply bool_decide_eq_true in Hc. by apply take_S_r.
  - f_equal. unfold slice. replace (p + 1)%nat with (S p) by lia.
    rewrite <- (take_drop (length k - 1 - S p) (drop (S p) k)) at 1. f_equal.
    rewrite drop_drop. replace (S p + (length k - 1 - S p))%nat with (pred (length k)) by lia.
    apply (drop_S _ _ _) in Hlast as ->. f_equal. apply drop_ge. lia.
Qed.

Lemma rest_of_shrinks k pos : k <> [] -> (pos < length k)%nat -> (length (rest_of k pos) < length k)%nat.
Proof.
  intros Hk Hp. unfold rest_of. destruct (0 <? pos)%nat; [rewrite length_take; lia |].
  destruct k; [done | cbn; lia].
Qed.

Lemma segment_rest_Val k pos : (pos < length k)%nat -> segment_rest k pos = Val (rest_of k pos).
Proof.
  intros Hp. unfold segment_rest, rest_of. destruct (0 <? pos)%nat;
    (rewrite range_Val by lia); by rewrite slice_take.
Qed.

Lemma index_last {E} (k : Key) b : last k = Some b -> index k (length k - 1) = @Val E Z b.
Proof.
  rewrite last_lookup. intros Hl. apply index_Some. by replace (length k - 1)%nat with (pred (length k)) by lia.
Qed.

Lemma last_nonempty (k : Key) : k <> [] -> exists b, last k = Some b.
Proof. intros Hk. destruct (last k) eqn:E; [eauto |]. by apply last_None in E. Qed.

(** ** Addresses *)

Inductive Step := SChild (k : Key) | SRegex (anchored : list Z).
Inductive Slot := Own | Wild.

Global Instance Step_eq_dec : EqDecision Step.
Proof. solve_decision. Defined.
Global Instance Slot_eq_dec : EqDecision Slot.
Proof. solve_decision. Defined.

Definition anchor (s : list Z) : list Z := bstr "\A(?:" ++ s ++ bstr ")\z".

Lemma anchor_inj s1 s2 : anchor s1 = anchor s2 -> s1 = s2.
Proof. intros E. apply app_inv_head in E. by apply app_inv_tail in E. Qed.

Definition cons_step (s : Step) (a : option (list Step * Slot)) : option (list Step * Slot) :=
  (fun '(p, slot) => (s :: p, slot)) <$> a.

Section Spec.
Context `{RegexCrate} {V : Type}.
Implicit Types n c : TrieNode V.

(** Where a hostname lives: the segments from the right, and the slot. *)
Fixpoint address (fuel : nat) (k : Key) : option (list Step * Slot) :=
  match fuel with
  | O => None
  | S fuel =>
      if decide (k = []) then Some ([], Own)
      else if decide (k = bstr "*") then Some ([], Wild)
      else if decide (last k = Some SLASH) then
        match segment_of k with
        | Some (pos, s) =>
            if regex_new_ok s then cons_step (SRegex (anchor s)) (address fuel (rest_of k pos))
            else None
        | None => None
        end
      else let '(p, s) := split_dot k in cons_step (SChild s) (address fuel p)
  end.

(** The hostnames that can be stored: no empty label, every regex segment
    opens after a dot or at the front and compiles. *)
Fixpoint insertable (fuel : nat) (k : Key) : bool :=
  match fuel with
  | O => false
  | S fuel =>
      if decide (k = []) then false
      else if decide (last k = Some SLASH) then
        match segment_of k with
        | Some (pos, s) =>
            regex_new_ok s && negb (is_none (regex_build_ci (anchor s))) &&
            ((pos =? 0)%nat || insertable fuel (rest_of k pos))
        | None => false
        end
      else match find_last_dot k with
           | None => true
           | Some pos => insertable fuel (take pos k)
           end
  end.

(** ** Edges of a node *)

Definition child (n : TrieNode V) (s : Step) : option (TrieNode V) :=
  match s with
  | SChild k => children n !! k
  | SRegex a => (fun e => e.2.2) <$> find_regexp a (regexps n)
  end.

Definition put (n : TrieNode V) (s : Step) (c : TrieNode V) : TrieNode V :=
  match s with
  | SChild k => set_children n (<[k := c]> (children n))
  | SRegex a =>
      match find_regexp a (regexps n) with
      | Some (i, (r, _)) => set_regexps n (<[i := (r, c)]> (regexps n))
      | None =>
          match regex_build_ci a with
          | Some r => set_regexps n (regexps n ++ [(r, c)])
          | None => n
          end
      end
  end.

Definition prune (n : TrieNode V) (s : Step) : TrieNode V :=
  match s with
  | SChild k => set_children n (delete k (children n))
  | SRegex a =>
      match find_regexp a (regexps n) with
      | Some (i, _) => set_regexps n (delete i (regexps n))
      | None => n
      end
  end.

Definition slot_value (n : TrieNode V) (slot : Slot) : option (KeyValue V) :=
  match slot with Own => key_value n | Wild => wildcard n end.

Definition set_slot (n : TrieNode V) (slot : Slot) (kv : option (KeyValue V)) : TrieNode V :=
  match slot with Own => set_key_value n kv | Wild => set_wildcard n kv end.

(** ** The trie as a map *)

Fixpoint at_path (n : TrieNode V) (p : list Step) (slot : Slot) : option (KeyValue V) :=
  match p with
  | [] => slot_value n slot
  | s :: p => c ← child n s; at_path c p slot
  end.

Fixpoint insert_at (n : TrieNode V) (p : list Step) (slot : Slot) (kv : KeyValue V) : TrieNode V :=
  match p with
  | [] => set_slot n slot (Some kv)
  | s :: p => put n s (insert_at (default root (child n s)) p slot kv)
  end.

Fixpoint remove_at (n : TrieNode V) (p : list Step) (slot : Slot) : TrieNode V :=
  match p with
  | [] => set_slot n slot None
  | s :: p =>
      match child n s with
      | None => n
      | Some c =>
          let c' := remove_at c p slot in
          if is_empty c' then prune n s else put n s c'
      end
  end.

(** What the trie keeps true of every node: a literal child without a dot is a
    leaf with a value, no subtree is without a value, the regex segments of a
    node have distinct patterns and are what their pattern compiles to. *)
Definition leaf (n : TrieNode V) : Prop := exists kv, n = mkTrieNode (Some kv) None ∅ [].

Inductive trie_wf : TrieNode V -> Prop :=
| trie_wf_node kv w ch r :
    map_Forall (fun k c => k <> [] /\ k <> bstr "*" /\ (DOT ∉ k -> leaf c) /\
                           (0 < count_values c)%nat /\ trie_wf c) ch ->
    NoDup (as_str <$> r.*1) ->
    (forall i e, r !! i = Some e ->
       regex_build_ci (as_str e.1) = Some e.1 /\ (0 < count_values e.2)%nat /\ trie_wf e.2) ->
    trie_wf (mkTrieNode kv w ch r).

(** The subtrees a step may lead to. *)
Definition edge_ok (s : Step) (c : TrieNode V) : Prop :=
  (0 < count_values c)%nat /\ trie_wf c /\
  match s with
  | SChild k => k <> [] /\ k <> bstr "*" /\ (DOT ∉ k -> leaf c)
  | SRegex a => is_Some (regex_build_ci a)
  end.

Definition placeable (s : Step) : Prop :=
  match s with SChild _ => True | SRegex a => is_Some (regex_build_ci a) end.

(** ** Laws of the edges *)

Lemma find_regexp_Some a (r : list (Regex * TrieNode V)) i e :
  find_regexp a r = Some (i, e) -> r !! i = Some e /\ as_str e.1 = a.
Proof. intros (? & ? & _)%list_find_Some. done. Qed.

Lemma find_regexp_NoDup a (r : list (Regex * TrieNode V)) i e :
  NoDup (as_str <$> r.*1) -> r !! i = Some e -> as_str e.1 = a -> find_regexp a r = Some (i, e).
Proof.
  intros Hnd Hi Ha. apply list_find_Some. split; [done |]. split; [done |].
  intros j y Hj Hlt Hy. assert (i = j); [| lia].
  eapply (NoDup_lookup _ i j a Hnd); rewrite !list_lookup_fmap.
  - by rewrite Hi, <- Ha.
  - by rewrite Hj, <- Hy.
Qed.

Lemma find_regexp_None a (r : list (Regex * TrieNode V)) :
  find_regexp a r = None <-> a ∉ (as_str <$> r.*1).
Proof.
  unfold find_regexp. rewrite list_find_None, Forall_forall. split.
  - intros Hr (x & -> & (e & -> & He)%list_elem_of_fmap)%list_elem_of_fmap. by apply (Hr e He).
  - intros Ha e He <-. apply Ha. apply list_elem_of_fmap. exists e.1. split; [done |].
    apply list_elem_of_fmap. eauto.
Qed.

(** Writing a subtree back does not change where patterns are found. *)
Lemma find_regexp_insert a (r : list (Regex * TrieNode V)) i e c :
  r !! i = Some e ->
  find_regexp a (<[i := (e.1, c)]> r) =
  match find_regexp a r with
  | Some (j, e') => Some (j, if decide (j = i) then (e.1, c) else e')
  | None => None
  end.
Proof.
  unfold find_regexp. revert i. induction r as [| x r IH]; intros i Hi; [done |].
  destruct i as [| i]; cbn in Hi |- *.
  - injection Hi as ->. cbn. case_decide; [done |].
    destruct (list_find _ r) as [[j y] |]; [| done]. cbn. done.
  - case_decide; [done |]. rewrite IH by done.
    destruct (list_find _ r) as [[j y] |]; cbn; [| done]. repeat case_decide; done || lia.
Qed.

Context `{!RegexLaws}.

Lemma find_regexp_app_list a (r1 r2 : list (Regex * TrieNode V)) :
  find_regexp a (r1 ++ r2) =
  match find_regexp a r1 with
  | Some x => Some x
  | None => prod_map (Nat.add (length r1)) id <$> find_regexp a r2
  end.
Proof.
  unfold find_regexp. induction r1 as [| x r1 IH]; cbn.
  { by destruct (list_find _ r2) as [[??] |]. }
  destruct (decide (as_str x.1 = a)); [done |]. rewrite IH.
  destruct (list_find _ r1) as [[j y] |]; [done |]. cbn.
  by destruct (list_find _ r2) as [[??] |].
Qed.

Lemma find_regexp_app a (r : list (Regex * TrieNode V)) e :
  find_regexp a (r ++ [e]) =
  match find_regexp a r with
  | Some x => Some x
  | None => if decide (as_str e.1 = a) then Some (length r, e) else None
  end.
Proof.
  rewrite find_regexp_app_list. destruct (find_regexp a r); [done |]. unfold find_regexp. cbn.
  case_decide; [| done]. cbn. by rewrite Nat.add_0_r.
Qed.

Lemma child_put_same n s c : placeable s -> child (put n s c) s = Some c.
Proof.
  destruct s as [k | a]; cbn [child put placeable]; [intros _; apply lookup_insert_eq |].
  intros [r Hr]. destruct (find_regexp a (regexps n)) as [[i [r' c']] |] eqn:E.
  - cbn [regexps set_regexps]. pose proof (find_regexp_Some _ _ _ _ E) as [Hi _].
    rewrite (find_regexp_insert _ _ _ (r', c')), E by done. by rewrite decide_True.
  - rewrite Hr. cbn [regexps set_regexps]. rewrite find_regexp_app, E.
    rewrite decide_True; [done |]. by apply as_str_build.
Qed.

Lemma child_put_other n s s' c : s <> s' -> child (put n s c) s' = child n s'.
Proof.
  intros Hne. destruct n as [kv w ch rs], s as [k | a], s' as [k' | a']; cbn [child put regexps].
  - apply lookup_insert_ne. congruence.
  - done.
  - destruct (find_regexp a rs) as [[i [r' c']] |]; [done |]. by destruct (regex_build_ci a).
  - destruct (find_regexp a rs) as [[i [r' c']] |] eqn:E.
    + cbn [regexps set_regexps]. pose proof (find_regexp_Some _ _ _ _ E) as [Hi Ha].
      rewrite (find_regexp_insert _ _ _ (r', c')) by done.
      destruct (find_regexp a' rs) as [[j e'] |] eqn:E'; [| done].
      case_decide; [| done]. subst. apply find_regexp_Some in E' as [Hj Ha'].
      rewrite Hi in Hj. injection Hj as <-. congruence.
    + destruct (regex_build_ci a) as [r |] eqn:Er; [| done]. cbn [regexps set_regexps].
      rewrite find_regexp_app. destruct (find_regexp a' rs); [done |].
      rewrite decide_False; [done |]. cbn. rewrite (as_str_build _ _ Er). congruence.
Qed.

Lemma put_child_id n s c : child n s = Some c -> put n s c = n.
Proof.
  destruct n as [kv w ch rs], s as [k | a]; cbn [child put children regexps].
  - intros Hc. unfold set_children. cbn. by rewrite insert_id.
  - destruct (find_regexp a rs) as [[i [r c']] |] eqn:E; [| done].
    cbn [fmap option_fmap option_map snd]. intros [= ->].
    apply find_regexp_Some in E as [Hi _]. unfold set_regexps. cbn. by rewrite list_insert_id.
Qed.

Lemma put_put n s c c' : placeable s -> put (put n s c) s c' = put n s c'.
Proof.
  destruct n as [kv w ch rs], s as [k | a]; cbn [put children regexps placeable].
  - intros _. unfold set_children. cbn. by rewrite insert_insert_eq.
  - intros [r Hr]. destruct (find_regexp a rs) as [[i [r' c0]] |] eqn:E.
    + cbn [regexps set_regexps]. pose proof (find_regexp_Some _ _ _ _ E) as [Hi _].
      rewrite (find_regexp_insert _ _ _ (r', c0)), E by done. rewrite decide_True by done.
      unfold set_regexps. cbn. by rewrite list_insert_insert_eq.
    + rewrite Hr. cbn [regexps set_regexps]. rewrite find_regexp_app, E.
      rewrite decide_True by (by apply as_str_build). unfold set_regexps. cbn.
      rewrite insert_app_r_alt, Nat.sub_diag by lia. done.
Qed.

Lemma prune_put n s c : placeable s -> child n s = None -> prune (put n s c) s = n.
Proof.
  destruct n as [kv w ch rs], s as [k | a]; cbn [put prune child children regexps placeable].
  - intros _ Hc. unfold set_children. cbn. by rewrite delete_insert_id.
  - intros [r Hr]. destruct (find_regexp a rs) as [[i [r' c0]] |] eqn:E; [done |]. intros _.
    rewrite Hr. cbn [regexps set_regexps]. rewrite find_regexp_app, E.
    rewrite decide_True by (by apply as_str_build). unfold set_regexps. cbn.
    by rewrite delete_middle, app_nil_r.
Qed.

Lemma child_prune_same n s : trie_wf n -> child (prune n s) s = None.
Proof.
  intros Hn. destruct Hn as [kv w ch rs _ Hnd _], s as [k | a]; cbn [prune child children regexps].
  - apply lookup_delete_eq.
  - destruct (find_regexp a rs) as [[i [r' c0]] |] eqn:E;
      [| cbn [regexps]; by rewrite E].
    cbn [regexps set_regexps]. rewrite (proj2 (find_regexp_None _ _)); [done |].
    apply find_regexp_Some in E as [Hi Ha]. rewrite <- Ha. cbn [fst].
    rewrite <- (take_drop_middle rs i _ Hi) in Hnd. rewrite delete_take_drop.
    rewrite !fmap_app, !fmap_cons in Hnd. rewrite !fmap_app. cbn [fst] in Hnd.
    apply NoDup_app in Hnd as (_ & Hd & Hc). apply NoDup_cons in Hc as [Hc _].
    rewrite elem_of_app. intros [Hin | Hin]; [| done]. apply (Hd _ Hin). left.
Qed.

Lemma child_prune_other n s s' : s <> s' -> child (prune n s) s' = child n s'.
Proof.
  intros Hne. destruct n as [kv w ch rs], s as [k | a], s' as [k' | a']; cbn [child prune regexps].
  - apply lookup_delete_ne. congruence.
  - done.
  - by destruct (find_regexp a rs) as [[i [r' c']] |].
  - destruct (find_regexp a rs) as [[i e] |] eqn:E; [| done].
    cbn [regexps set_regexps]. pose proof (find_regexp_Some _ _ _ _ E) as [Hi Ha].
    rewrite delete_take_drop. rewrite <- (take_drop_middle rs i e Hi) at 3.
    rewrite !find_regexp_app_list. destruct (find_regexp a' (take i rs)); [done |].
    unfold find_regexp. cbn. rewrite decide_False by congruence.
    by destruct (list_find _ (drop _ _)) as [[??] |].
Qed.

(** ** Counting and well-formedness along the edges *)

Definition sum_children (ch : gmap Key (TrieNode V)) : nat :=
  map_fold (fun _ child acc => (count_values child + acc)%nat) 0%nat ch.
Definition sum_regexps (r : list (Regex * TrieNode V)) : nat :=
  foldr (fun '(_, child) acc => (count_values child + acc)%nat) 0%nat r.

Lemma count_values_node kv w ch r :
  count_values (mkTrieNode (V := V) kv w ch r) =
  (some_count kv + some_count w + sum_children ch + sum_regexps r)%nat.
Proof. done. Qed.

Lemma sum_children_insert ch k c :
  ch !! k = None -> sum_children (<[k := c]> ch) = (count_values c + sum_children ch)%nat.
Proof. intros Hk. unfold sum_children. rewrite map_fold_insert_L; [done | intros; lia | done]. Qed.

Lemma sum_children_delete ch k c :
  ch !! k = Some c -> sum_children ch = (count_values c + sum_children (delete k ch))%nat.
Proof. intros Hk. unfold sum_children. rewrite (map_fold_delete_L _ _ k c); [done | intros; lia | done]. Qed.

Lemma sum_regexps_cons e r : sum_regexps (e :: r) = (count_values e.2 + sum_regexps r)%nat.
Proof. by destruct e. Qed.

Lemma sum_regexps_app r1 r2 : sum_regexps (r1 ++ r2) = (sum_regexps r1 + sum_regexps r2)%nat.
Proof. induction r1 as [| e r1 IH]; [done |]. cbn [app]. rewrite !sum_regexps_cons. lia. Qed.

Lemma sum_regexps_middle r i e :
  r !! i = Some e ->
  sum_regexps r = (sum_regexps (take i r) + count_values e.2 + sum_regexps (drop (S i) r))%nat.
Proof.
  intros Hi. rewrite <- (take_drop_middle r i e Hi) at 1.
  rewrite sum_regexps_app, sum_regexps_cons. lia.
Qed.

Definition opt_count (o : option (TrieNode V)) : nat :=
  match o with Some c => count_values c | None => 0 end.

Lemma count_put n s c :
  placeable s -> (count_values (put n s c) + opt_count (child n s) = count_values n + count_values c)%nat.
Proof.
  destruct n as [kv w ch rs], s as [k | a]; cbn [put child children regexps placeable].
  - intros _. unfold set_children. cbn [key_value wildcard regexps]. rewrite !count_values_node.
    destruct (ch !! k) as [c0 |] eqn:E; cbn [opt_count].
    + rewrite (sum_children_delete ch k c0 E), <- (insert_delete_eq ch k c).
      rewrite sum_children_insert by apply lookup_delete_eq. lia.
    + rewrite sum_children_insert by done. lia.
  - intros [r Hr]. unfold set_regexps. cbn [key_value wildcard children].
    destruct (find_regexp a rs) as [[i [r' c0]] |] eqn:E; cbn [fmap option_fmap option_map opt_count].
    + apply find_regexp_Some in E as [Hi _]. rewrite !count_values_node.
      rewrite (sum_regexps_middle rs i _ Hi). rewrite insert_take_drop by (by eapply lookup_lt_Some).
      rewrite sum_regexps_app, sum_regexps_cons. cbn [snd]. lia.
    + rewrite Hr, !count_values_node, sum_regexps_app, sum_regexps_cons. cbn [snd sum_regexps foldr]. lia.
Qed.

Lemma count_prune n s c :
  child n s = Some c -> (count_values (prune n s) + count_values c = count_values n)%nat.
Proof.
  destruct n as [kv w ch rs], s as [k | a]; cbn [prune child children regexps].
  - intros Hc. unfold set_children. cbn [key_value wildcard regexps]. rewrite !count_values_node.
    rewrite (sum_children_delete ch k c Hc). lia.
  - destruct (find_regexp a rs) as [[i [r' c0]] |] eqn:E; [| done].
    cbn [fmap option_fmap option_map snd]. intros [= ->].
    apply find_regexp_Some in E as [Hi _]. unfold set_regexps. cbn [key_value wildcard children].
    rewrite !count_values_node, (sum_regexps_middle rs i _ Hi), delete_take_drop, sum_regexps_app.
    cbn [snd]. lia.
Qed.

Lemma wf_root : trie_wf root.
Proof. constructor; [apply map_Forall_empty | constructor | done]. Qed.

Lemma wf_set_slot n slot kv : trie_wf n -> trie_wf (set_slot n slot kv).
Proof. intros []. destruct slot; by constructor. Qed.

Lemma wf_child n s c : trie_wf n -> child n s = Some c -> edge_ok s c.
Proof.
  intros [kv w ch rs Hch Hnd Hrs]. destruct s as [k | a]; cbn [child children regexps].
  - intros (? & ? & ? & ? & ?)%Hch. split; [done |]. done.
  - destruct (find_regexp a rs) as [[i [r c']] |] eqn:E; [| done].
    cbn [fmap option_fmap option_map snd]. intros [= ->].
    apply find_regexp_Some in E as [Hi <-].
    apply Hrs in Hi as (Hb & Hc & Hw). cbn in *.
    split; [done |]. split; [done |]. eauto.
Qed.

Lemma wf_put n s c : trie_wf n -> edge_ok s c -> trie_wf (put n s c).
Proof.
  intros [kv w ch rs Hch Hnd Hrs] (Hc & Hw & Hs).
  destruct s as [k | a]; cbn [put children regexps].
  - constructor; [| done..]. apply map_Forall_insert_2; [| done]. tauto.
  - destruct Hs as [r Hr]. destruct (find_regexp a rs) as [[i [r' c0]] |] eqn:E.
    + apply find_regexp_Some in E as [Hi Ha]. constructor; [done | |].
      * rewrite !list_fmap_insert. rewrite list_insert_id; [done |].
        by rewrite !list_lookup_fmap, Hi.
      * apply Forall_lookup, Forall_insert; [by apply Forall_lookup |]. cbn in *.
        apply Hrs in Hi as (Hb & _). done.
    + rewrite Hr. constructor; [done | |].
      * rewrite !fmap_app. apply NoDup_snoc; [done |]. cbn. rewrite (as_str_build _ _ Hr).
        by apply find_regexp_None.
      * apply Forall_lookup, Forall_app. split; [by apply Forall_lookup |].
        apply Forall_singleton. cbn.
        by rewrite (as_str_build _ _ Hr).
Qed.

Lemma wf_prune n s : trie_wf n -> trie_wf (prune n s).
Proof.
  intros [kv w ch rs Hch Hnd Hrs]. destruct s as [k | a]; cbn [prune children regexps].
  - constructor; [by apply map_Forall_delete | done..].
  - destruct (find_regexp a rs) as [[i e] |] eqn:E; [| done].
    apply find_regexp_Some in E as [Hi _]. constructor; [done | |].
    + rewrite <- (take_drop_middle rs i e Hi), !fmap_app, !fmap_cons in Hnd.
      cbn [regexps]. rewrite delete_take_drop, !fmap_app.
      apply NoDup_app in Hnd as (H1 & Hd & [_ H2]%NoDup_cons). apply NoDup_app.
      split; [done |]. split; [| done]. intros x Hx Hx'. apply (Hd x Hx). by right.
    + cbn [regexps]. rewrite delete_take_drop. apply Forall_lookup, Forall_app.
      split; [apply Forall_take | apply Forall_drop]; by apply Forall_lookup.
Qed.

Lemma is_empty_count n : is_empty n = true -> count_values n = 0%nat.
Proof.
  destruct n as [kv w ch rs]. unfold is_empty. cbn [key_value wildcard regexps children].
  rewrite !andb_true_iff, !bool_decide_eq_true. intros [[[Hk Hw] ->] ->].
  destruct kv, w; done.
Qed.

Lemma nonempty_count n : trie_wf n -> is_empty n = false -> (0 < count_values n)%nat.
Proof.
  intros [kv w ch rs Hch Hnd Hrs] He. rewrite count_values_node.
  destruct kv; [cbn; lia |]. destruct w; [cbn; lia |]. destruct rs as [| [r c] rs].
  - destruct (decide (ch = ∅)) as [-> | Hne].
    { cbn in He. by rewrite bool_decide_true in He. }
    apply map_choose in Hne as (k & c & Hc). rewrite (sum_children_delete ch k c Hc).
    apply Hch in Hc as (_ & _ & _ & ? & _). lia.
  - destruct (Hrs 0%nat (r, c)) as (_ & Hc & _); [done |]. rewrite sum_regexps_cons. cbn [snd] in *. lia.
Qed.

Lemma wf_check_invariants n : trie_wf n -> check_invariants n = true.
Proof.
  revert n. fix IH 2. intros n Hn. destruct Hn as [kv w ch rs Hch Hnd Hrs].
  assert (Hch' : map_Forall (fun k c => k <> [] /\ (0 < count_values c)%nat /\
    check_invariants c = true) ch).
  { intros k c Hc. destruct (Hch k c Hc) as (? & _ & _ & ? & Hw). auto. }
  assert (Hrs' : forall i e, rs !! i = Some e ->
    (0 < count_values e.2)%nat /\ check_invariants e.2 = true).
  { intros i e He. destruct (Hrs i e He) as (_ & ? & Hw). auto. }
  clear Hch Hrs IH. cbn [check_invariants]. rewrite bool_decide_true by done. cbn [andb].
  assert (Hne : forall c, (0 < count_values c)%nat -> negb (is_empty c) = true).
  { intros c Hc. destruct (is_empty c) eqn:E; [| done]. apply is_empty_count in E. lia. }
  apply andb_true_iff. split.
  - revert Hch'. apply (map_fold_weak_ind (fun b m => map_Forall _ m -> b = true)); [done |].
    intros k c m b Hk IHm Hm. apply map_Forall_insert in Hm as [(Hk0 & Hc & Hi) Hm]; [| done].
    rewrite IHm, bool_decide_true, (Hne c Hc), Hi by done. by apply Nat.ltb_lt in Hc as ->.
  - apply Forall_lookup in Hrs'. induction Hrs' as [| [r c] rs' [Hc Hi] _ IHr]; [done |].
    cbn in *. apply NoDup_cons in Hnd as [_ Hnd].
    rewrite IHr, (Hne c Hc), Hi by done. destruct (count_values c); [lia | done].
Qed.

(** ** The reference updates *)

Fixpoint path_ok (p : list Step) (slot : Slot) : Prop :=
  match p with
  | [] => True
  | SChild k :: p => k <> [] /\ k <> bstr "*" /\ (DOT ∉ k -> p = [] /\ slot = Own) /\ path_ok p slot
  | SRegex a :: p => is_Some (regex_build_ci a) /\ path_ok p slot
  end.

Lemma path_ok_cons s p slot : path_ok (s :: p) slot -> placeable s /\ path_ok p slot.
Proof. destruct s; cbn; tauto. Qed.

Lemma at_root p slot : at_path root p slot = None.
Proof. destruct p as [| [k | a] p]; [by destruct slot | |]; cbn; [| done]. by rewrite lookup_empty. Qed.

Lemma is_empty_root n : is_empty n = true -> n = root.
Proof.
  destruct n as [kv w ch rs]. unfold is_empty. cbn [key_value wildcard regexps children].
  rewrite !andb_true_iff, !bool_decide_eq_true. intros [[[Hk Hw] ->] ->].
  destruct kv, w; done.
Qed.

Lemma slot_value_put n s c slot : slot_value (put n s c) slot = slot_value n slot.
Proof.
  destruct n as [kv w ch rs], s as [k | a]; [by destruct slot |]. cbn [put regexps].
  destruct (find_regexp a rs) as [[i [r c0]] |]; [by destruct slot |].
  destruct (regex_build_ci a); by destruct slot.
Qed.

Lemma slot_value_prune n s slot : slot_value (prune n s) slot = slot_value n slot.
Proof.
  destruct n as [kv w ch rs], s as [k | a]; [by destruct slot |]. cbn [prune regexps].
  destruct (find_regexp a rs) as [[i e] |]; by destruct slot.
Qed.

Lemma child_set_slot n slot kv s : child (set_slot n slot kv) s = child n s.
Proof. by destruct n, slot, s. Qed.

Lemma slot_value_set n slot kv slot' :
  slot_value (set_slot n slot kv) slot' = if decide (slot' = slot) then kv else slot_value n slot'.
Proof. destruct n, slot, slot'; done. Qed.

Lemma count_set_slot n slot kv :
  (count_values (set_slot n slot kv) + some_count (slot_value n slot) =
   count_values n + some_count kv)%nat.
Proof.
  destruct n as [kv0 w ch rs], slot;
    cbn [set_slot slot_value]; unfold set_key_value, set_wildcard;
    cbn [key_value wildcard children regexps]; rewrite !count_values_node; lia.
Qed.

Lemma at_default n s p slot : at_path n (s :: p) slot = at_path (default root (child n s)) p slot.
Proof. cbn. destruct (child n s); cbn; [done |]. by rewrite at_root. Qed.

Lemma at_insert_same n p slot kv : path_ok p slot -> at_path (insert_at n p slot kv) p slot = Some kv.
Proof.
  revert n. induction p as [| s p IH]; intros n Hp; cbn [insert_at at_path].
  - by rewrite slot_value_set, decide_True.
  - apply path_ok_cons in Hp as [Hs Hp]. rewrite child_put_same by done. cbn. by apply IH.
Qed.

Lemma at_insert_other n p slot kv p' slot' :
  path_ok p slot -> (p', slot') <> (p, slot) ->
  at_path (insert_at n p slot kv) p' slot' = at_path n p' slot'.
Proof.
  revert n p'. induction p as [| s p IH]; intros n p' Hp Hne; cbn [insert_at].
  - destruct p' as [| s' p']; cbn [at_path]; [| by rewrite child_set_slot].
    rewrite slot_value_set, decide_False; congruence.
  - apply path_ok_cons in Hp as [Hs Hp]. destruct p' as [| s' p']; [apply slot_value_put |].
    destruct (decide (s = s')) as [<- | Hs']; [| cbn; by rewrite child_put_other].
    rewrite !at_default, child_put_same by done. cbn. apply IH; congruence.
Qed.

Lemma count_child_le n s c : child n s = Some c -> (count_values c <= count_values n)%nat.
Proof. intros Hc. apply count_prune in Hc. lia. Qed.

Lemma at_path_count n p slot kv : at_path n p slot = Some kv -> (0 < count_values n)%nat.
Proof.
  revert n. induction p as [| s p IH]; intros n; cbn [at_path].
  - intros Hs. pose proof (count_set_slot n slot None) as Hc. rewrite Hs in Hc. cbn in Hc. lia.
  - destruct (child n s) as [c |] eqn:Hc; [| done]. cbn. intros Ha%IH.
    apply count_child_le in Hc. lia.
Qed.

Lemma default_wf n s : trie_wf n -> trie_wf (default root (child n s)).
Proof.
  intros Hn. destruct (child n s) eqn:E; cbn; [| apply wf_root].
  by apply (wf_child _ _ _ Hn) in E as (_ & ? & _).
Qed.

Lemma wf_insert_at n p slot kv : trie_wf n -> path_ok p slot -> trie_wf (insert_at n p slot kv).
Proof.
  revert n. induction p as [| s p IH]; intros n Hn Hp; cbn [insert_at]; [by apply wf_set_slot |].
  pose proof (path_ok_cons _ _ _ Hp) as [_ Hp']. apply wf_put; [done |].
  split; [eapply at_path_count, at_insert_same, Hp' |].
  split; [apply IH; [by apply default_wf | done] |]. destruct s as [k | a]; [| by destruct Hp].
  destruct Hp as (? & ? & Hd & _). split; [done |]. split; [done |]. intros Hk.
  destruct (Hd Hk) as [-> ->]. cbn [insert_at set_slot]. exists kv.
  destruct (child n (SChild k)) as [c |] eqn:E; [| done].
  apply (wf_child _ _ _ Hn) in E as (_ & _ & _ & _ & Hl). by destruct (Hl Hk) as [? ->].
Qed.

Lemma count_insert_at n p slot kv :
  path_ok p slot ->
  (count_values (insert_at n p slot kv) + some_count (at_path n p slot) = S (count_values n))%nat.
Proof.
  revert n. induction p as [| s p IH]; intros n Hp.
  - pose proof (count_set_slot n slot (Some kv)). cbn in *. lia.
  - apply path_ok_cons in Hp as [Hs Hp]. rewrite at_default. cbn [insert_at].
    pose proof (count_put n s (insert_at (default root (child n s)) p slot kv) Hs).
    pose proof (IH (default root (child n s)) Hp).
    destruct (child n s) as [c |]; cbn [default opt_count from_option id] in *; [lia |].
    change (count_values (root (V := V))) with 0%nat in *. lia.
Qed.

Lemma remove_at_absent n p slot : trie_wf n -> at_path n p slot = None -> remove_at n p slot = n.
Proof.
  revert n. induction p as [| s p IH]; intros n Hn Ha; cbn in *.
  - destruct n as [kv w ch rs], slot; cbn in *; by subst.
  - destruct (child n s) as [c |] eqn:Hc; [| done]. cbn in Ha.
    pose proof (wf_child _ _ _ Hn Hc) as (Hp & Hw & _). rewrite IH by done.
    destruct (is_empty c) eqn:E; [apply is_empty_count in E; lia |]. by apply put_child_id.
Qed.

Lemma child_placeable n s c : trie_wf n -> child n s = Some c -> placeable s.
Proof. intros Hn (_ & _ & Hs)%(wf_child _ _ _ Hn). by destruct s. Qed.

Lemma leaf_remove c p slot : leaf c -> leaf (remove_at c p slot) \/ is_empty (remove_at c p slot) = true.
Proof.
  intros [kv ->]. destruct p as [| [k | a] p]; cbn.
  - destruct slot; [by right | left; by exists kv].
  - rewrite lookup_empty. left. by exists kv.
  - left. by exists kv.
Qed.

Lemma wf_remove_at n p slot : trie_wf n -> trie_wf (remove_at n p slot).
Proof.
  revert n. induction p as [| s p IH]; intros n Hn; cbn [remove_at]; [by apply wf_set_slot |].
  destruct (child n s) as [c |] eqn:Hc; [| done].
  pose proof (wf_child _ _ _ Hn Hc) as (_ & Hw & Hs).
  destruct (is_empty (remove_at c p slot)) eqn:E; [by apply wf_prune |]. apply wf_put; [done |].
  split; [apply nonempty_count; [by apply IH | done] |]. split; [by apply IH |].
  destruct s as [k | a]; [| done]. destruct Hs as (? & ? & Hl). split; [done |]. split; [done |].
  intros Hk. destruct (leaf_remove c p slot (Hl Hk)); [done | congruence].
Qed.

Lemma at_remove_same n p slot : trie_wf n -> at_path (remove_at n p slot) p slot = None.
Proof.
  revert n. induction p as [| s p IH]; intros n Hn; cbn [remove_at].
  - cbn. by rewrite slot_value_set, decide_True.
  - destruct (child n s) as [c |] eqn:Hc; [| cbn; by rewrite Hc].
    pose proof (wf_child _ _ _ Hn Hc) as (_ & Hw & _).
    destruct (is_empty _); cbn [at_path]; [by rewrite child_prune_same |].
    rewrite child_put_same by (exact (child_placeable _ _ _ Hn Hc) || done). cbn. by apply IH.
Qed.

Lemma at_remove_other n p slot p' slot' :
  trie_wf n -> (p', slot') <> (p, slot) ->
  at_path (remove_at n p slot) p' slot' = at_path n p' slot'.
Proof.
  revert n p'. induction p as [| s p IH]; intros n p' Hn Hne; cbn [remove_at].
  - destruct p' as [| s' p']; cbn [at_path]; [| by rewrite child_set_slot].
    rewrite slot_value_set, decide_False; congruence.
  - destruct (child n s) as [c |] eqn:Hc; [| done].
    pose proof (wf_child _ _ _ Hn Hc) as (_ & Hw & _).
    assert (IHc : forall p', (p', slot') <> (p, slot) ->
      at_path (remove_at c p slot) p' slot' = at_path c p' slot') by (intros; by apply IH).
    destruct (is_empty _) eqn:E; (destruct p' as [| s' p'];
      [apply slot_value_prune || apply slot_value_put |]);
      (destruct (decide (s = s')) as [<- | Hs']; cbn [at_path];
       [| rewrite ?child_prune_other, ?child_put_other by done; done]).
    + rewrite child_prune_same, Hc by done. cbn. rewrite <- IHc by congruence.
      apply is_empty_root in E as ->. by rewrite at_root.
    + rewrite child_put_same, Hc by (exact (child_placeable _ _ _ Hn Hc) || done). cbn. apply IHc. congruence.
Qed.

Lemma count_remove_at n p slot kv :
  trie_wf n -> at_path n p slot = Some kv -> count_values n = S (count_values (remove_at n p slot)).
Proof.
  revert n. induction p as [| s p IH]; intros n Hn Ha; cbn in *.
  - pose proof (count_set_slot n slot None) as Hc. rewrite Ha in Hc. cbn in Hc. lia.
  - destruct (child n s) as [c |] eqn:Hc; [| done]. cbn in Ha.
    pose proof (wf_child _ _ _ Hn Hc) as (_ & Hw & _). specialize (IH c Hw Ha).
    destruct (is_empty _) eqn:E.
    + apply is_empty_count in E. apply count_prune in Hc. lia.
    + pose proof (count_put n s (remove_at c p slot) (child_placeable _ _ _ Hn Hc)) as Hp.
      rewrite Hc in Hp. cbn [opt_count] in Hp. lia.
Qed.

Lemma remove_insert_at n p slot kv :
  trie_wf n -> path_ok p slot -> at_path n p slot = None ->
  remove_at (insert_at n p slot kv) p slot = n.
Proof.
  revert n. induction p as [| s p IH]; intros n Hn Hp Ha.
  - destruct n as [kv0 w ch rs], slot; cbn in *; by subst.
  - rewrite at_default in Ha. apply path_ok_cons in Hp as [Hs Hp]. cbn [insert_at remove_at].
    rewrite child_put_same, IH by (done || by apply default_wf).
    destruct (child n s) as [c |] eqn:Hc; cbn [default from_option id].
    + pose proof (wf_child _ _ _ Hn Hc) as (Hn0 & _ & _).
      destruct (is_empty c) eqn:E; [apply is_empty_count in E; lia |].
      rewrite put_put by done. by apply put_child_id.
    + by rewrite prune_put.
Qed.

(** ** The operations refine the reference updates *)

Lemma anchored_segment_Val s :
  anchored_segment s = Val (if regex_new_ok s then Some (anchor s) else None).
Proof.
  unfold anchored_segment. destruct (regex_new_ok s); [| done]. fold (anchor s).
  rewrite debug_assert_true; [done |]. unfold starts_with, ends_with, anchor.
  rewrite take_app_length, bool_decide_true by done. apply bool_decide_eq_true.
  rewrite app_assoc, length_app, Nat.add_sub. apply drop_app_length.
Qed.

Lemma compiled_segment_Val s :
  compiled_segment s = Val (if regex_new_ok s then regex_build_ci (anchor s) else None).
Proof.
  unfold compiled_segment. rewrite anchored_segment_Val. cbn [mbind outcome_bind].
  destruct (regex_new_ok s); [| done]. destruct (regex_build_ci (anchor s)) as [r |] eqn:E; [| done].
  by rewrite debug_assert_true by (by apply bool_decide_eq_true, as_str_build).
Qed.

(** The step taken on a key: through a slash-delimited segment or a dot. *)
Lemma address_slash fuel k pos s :
  k <> [] -> last k = Some SLASH -> segment_of k = Some (pos, s) ->
  address (S fuel) k =
  if regex_new_ok s then cons_step (SRegex (anchor s)) (address fuel (rest_of k pos)) else None.
Proof.
  intros Hk Hl Hs. cbn [address]. rewrite decide_False by done.
  destruct (decide (k = bstr "*")) as [-> | _]; [done |]. by rewrite decide_True, Hs.
Qed.

Lemma address_dot fuel k p s :
  k <> [] -> k <> bstr "*" -> last k <> Some SLASH -> split_dot k = (p, s) ->
  address (S fuel) k = cons_step (SChild s) (address fuel p).
Proof. intros. cbn [address]. rewrite !decide_False by done. by case_match; simplify_eq. Qed.

Lemma address_nil fuel : (0 < fuel)%nat -> address fuel [] = Some ([], Own).
Proof. destruct fuel; [lia | done]. Qed.

Lemma insertable_path fuel k :
  (length k < fuel)%nat -> insertable fuel k = true ->
  exists p slot, address fuel k = Some (p, slot) /\ path_ok p slot /\ (p, slot) <> ([], Own).
Proof.
  revert k. induction fuel as [| fuel IH]; intros k Hf Hi; [done |]. cbn [insertable] in Hi.
  case_decide as Hk; [done |]. case_decide as Hl.
  - destruct (segment_of k) as [[pos s] |] eqn:Hs; [| done].
    apply andb_true_iff in Hi as [[Hn Hb]%andb_true_iff Hr].
    rewrite (address_slash _ _ pos s), Hn by done.
    destruct (segment_of_split _ _ _ Hs Hl) as [Hpos _].
    pose proof (rest_of_shrinks k pos Hk Hpos).
    assert (exists p slot, address fuel (rest_of k pos) = Some (p, slot) /\ path_ok p slot)
      as (p & slot & -> & Hp).
    { apply orb_true_iff in Hr as [->%Nat.eqb_eq | Hr].
      - exists [], Own. rewrite address_nil by lia. done.
      - destruct (IH (rest_of k pos)) as (p & slot & ? & ? & _); [lia | done | eauto]. }
    exists (SRegex (anchor s) :: p), slot. split; [done |]. split; [| done]. split; [| done].
    by destruct (regex_build_ci (anchor s)).
  - destruct (decide (k = bstr "*")) as [-> | Hs].
    { exists [], Wild. split; [done |]. split; [constructor | done]. }
    destruct (split_dot k) as [p s] eqn:E. rewrite (address_dot _ _ p s) by done.
    destruct (split_dot_shrinks _ _ _ Hk E) as [Hlen Hsne]. unfold split_dot in E.
    destruct (find_last_dot k) as [pos |] eqn:Ed; injection E as <- <-.
    + destruct (IH (take pos k)) as (p & slot & -> & Hp & Hne); [lia | done |].
      exists (SChild (drop pos k) :: p), slot. split; [done |]. split; [| done].
      apply find_last_dot_Some in Ed as [? Hd]. split; [done |].
      assert (Hin : DOT ∈ drop pos k).
      { apply list_elem_of_lookup. exists 0%nat. by rewrite lookup_drop, Nat.add_0_r. }
      split; [| done]. intros Heq. rewrite Heq in Hin. by apply list_elem_of_singleton in Hin.
    + rewrite address_nil by lia. exists [SChild k], Own. split; [done |]. split; [| done]. done.
Qed.

Definition insert_spec (ins : bool) (a : option (list Step * Slot)) (n : TrieNode V)
    (kv : KeyValue V) : TrieNode V * InsertResult :=
  match a with
  | Some (p, slot) =>
      if negb ins then (n, InsertFailed)
      else if is_none (at_path n p slot) then (insert_at n p slot kv, InsertOk)
      else (n, InsertExisting)
  | None => (n, InsertFailed)
  end.

(** Insertion through an edge: into the subtree there is, or into a fresh one
    that is kept only when the value found a place. *)
Definition insert_edge (n : TrieNode V) (s : Step)
    (go : TrieNode V -> checked (TrieNode V * InsertResult)) : checked (TrieNode V * InsertResult) :=
  match child n s with
  | Some c => '(c, res) ← go c; Val (put n s c, res)
  | None => '(c, res) ← go root; if decide (res = InsertOk) then Val (put n s c, res) else Val (n, res)
  end.

Lemma insert_edge_refines n s go ins a kv :
  trie_wf n -> (forall c, trie_wf c -> go c = Val (insert_spec ins a c kv)) ->
  insert_edge n s go = Val (insert_spec ins (cons_step s a) n kv).
Proof.
  intros Hn Hgo. unfold insert_edge. destruct (child n s) as [c |] eqn:Hc.
  - rewrite Hgo by (by apply (wf_child _ _ _ Hn) in Hc as (_ & ? & _)).
    destruct a as [[p slot] |]; cbn; [| by rewrite put_child_id].
    destruct ins; cbn; [| by rewrite put_child_id]. rewrite Hc. cbn.
    destruct (at_path c p slot); cbn; [by rewrite put_child_id | done].
  - rewrite Hgo by apply wf_root. destruct a as [[p slot] |]; cbn; [| done].
    destruct ins; cbn; [| done]. by rewrite Hc, at_root.
Qed.

Lemma insert_regex_edge n a r (go : TrieNode V -> checked (TrieNode V * InsertResult)) :
  (find_regexp a (regexps n) = None -> regex_build_ci a = Some r) ->
  insert_edge n (SRegex a) go =
  match find_regexp a (regexps n) with
  | Some (i, (r', c)) =>
      '(c, res) ← go c; Val (set_regexps n (<[i := (r', c)]> (regexps n)), res)
  | None =>
      '(c, res) ← go root;
      if decide (res = InsertOk) then Val (set_regexps n (regexps n ++ [(r, c)]), res)
      else Val (n, res)
  end.
Proof.
  intros Hr. unfold insert_edge. cbn [child put].
  destruct (find_regexp a (regexps n)) as [[i [r' c]] |]; [done |].
  cbn [fmap option_fmap option_map]. by rewrite Hr.
Qed.

Lemma insert_own_value_spec c key value :
  insert_own_value c key value = insert_spec true (Some ([], Own)) c (key, value).
Proof. destruct c as [[kv |] w ch rs]; done. Qed.

Lemma find_regexp_built n a i r c :
  trie_wf n -> find_regexp a (regexps n) = Some (i, (r, c)) -> is_Some (regex_build_ci a).
Proof.
  intros Hn Hf. destruct (wf_child n (SRegex a) c Hn) as (_ & _ & Hb); [| done].
  cbn [child]. by rewrite Hf.
Qed.

(** What the recursive calls are proved to do, on the keys shorter than [k]. *)
Definition inserts_below (fuel : nat) (k key : Key) (value : V) : Prop :=
  forall c k', trie_wf c -> (length k' < length k)%nat ->
  insert_recursive fuel c k' key value =
  Val (insert_spec (insertable fuel k') (address fuel k') c (key, value)).

Lemma insert_rest_refines fuel k key value pos c :
  inserts_below fuel k key value -> trie_wf c -> (0 < fuel)%nat -> (pos < length k)%nat ->
  (if (0 <? pos)%nat then rest ← range k 0 (pos - 1); insert_recursive fuel c rest key value
   else Val (insert_own_value c key value)) =
  Val (insert_spec ((pos =? 0)%nat || insertable fuel (rest_of k pos))
         (address fuel (rest_of k pos)) c (key, value)).
Proof.
  intros IH Hc Hf Hpos. destruct pos as [| pos]; cbn [Nat.ltb Nat.leb Nat.eqb orb].
  - by rewrite insert_own_value_spec, address_nil by lia.
  - rewrite range_Val, slice_take by lia. cbn [mbind outcome_bind].
    apply IH; [done |]. apply rest_of_shrinks; [by intros ->; cbn in Hpos; lia | done].
Qed.

Lemma insert_slash_refines fuel n k key value :
  inserts_below fuel k key value -> trie_wf n -> k <> [] -> (length k <= length key)%nat ->
  (0 < fuel)%nat -> last k = Some SLASH ->
  insert_recursive (S fuel) n k key value =
  Val (insert_spec (insertable (S fuel) k) (address (S fuel) k) n (key, value)).
Proof.
  intros IH Hn Hk Hlen Hf Hb. cbn [insert_recursive insertable].
  rewrite !(decide_False (P := k = [])) by done.
  run_assert by (by apply Nat.leb_le). rewrite (index_last _ _ Hb). cbn [mbind outcome_bind].
  rewrite Z.eqb_refl, decide_True, slash_segment_Val by done. cbn [mbind outcome_bind].
  destruct (segment_of k) as [[pos s] |] eqn:Hs.
  2: { cbn [address]. rewrite decide_False, (decide_True (P := last k = _)) by done.
       case_decide; [by subst |]. by rewrite Hs. }
  rewrite (address_slash _ _ pos s), anchored_segment_Val by done. cbn [mbind outcome_bind].
  destruct (regex_new_ok s) eqn:Hok; [| done].
  destruct (segment_of_split _ _ _ Hs Hb) as [Hpos _].
  pose proof (fun c Hc => insert_rest_refines fuel k key value pos c IH Hc Hf Hpos) as Hgo.
  pose proof (insert_edge_refines n (SRegex (anchor s)) _ _ _ _ Hn Hgo) as Href.
  destruct (find_regexp (anchor s) (regexps n)) as [[i [r c]] |] eqn:Hfind.
  - destruct (find_regexp_built _ _ _ _ _ Hn Hfind) as [r0 Hr0].
    rewrite (insert_regex_edge _ _ r0), Hfind in Href by done. by rewrite Hr0.
  - rewrite compiled_segment_Val, Hok. cbn [mbind outcome_bind].
    destruct (regex_build_ci (anchor s)) as [r |] eqn:Hr; cbn [negb is_none andb].
    2: { unfold insert_spec. by destruct (cons_step _ _) as [[??] |]. }
    rewrite (insert_regex_edge _ _ r), Hfind in Href by done. rewrite <- Href.
    destruct (0 <? pos)%nat; [| done]. by rewrite range_Val by lia.
Qed.

Lemma insert_dot_refines fuel n k key value :
  inserts_below fuel k key value -> trie_wf n -> k <> [] -> (length k <= length key)%nat ->
  (0 < fuel)%nat -> last k <> Some SLASH ->
  insert_recursive (S fuel) n k key value =
  Val (insert_spec (insertable (S fuel) k) (address (S fuel) k) n (key, value)).
Proof.
  intros IH Hn Hk Hlen Hf Hl. cbn [insert_recursive insertable].
  rewrite !(decide_False (P := k = [])), (decide_False (P := last k = _)) by done.
  destruct (last_nonempty k Hk) as [b Hb].
  run_assert by (by apply Nat.leb_le). rewrite (index_last _ _ Hb). cbn [mbind outcome_bind].
  rewrite (proj2 (Z.eqb_neq b SLASH)) by congruence.
  destruct (decide (k = bstr "*")) as [-> | Hstar].
  { change (find_last_dot (bstr "*")) with (@None nat).
    change (address (S fuel) (bstr "*")) with (Some (@nil Step, Wild)). destruct n as [kv w ch rs]. cbn [children wildcard].
    case_decide as Hc; [exfalso | by destruct w].
    destruct Hc as [c Hc]. inversion Hn as [???? Hch]. by apply Hch in Hc as (_ & ? & _). }
  destruct (split_dot k) as [p s] eqn:E. rewrite (address_dot _ _ p s) by congruence.
  destruct (split_dot_shrinks _ _ _ Hk E) as [Hsh Hsne]. unfold split_dot in E.
  destruct (find_last_dot k) as [pos |] eqn:Ed; injection E as <- <-.
  - apply find_last_dot_Some in Ed as [Hpos Hd].
    rewrite !range_Val, slice_take, slice_drop by lia. cbn [mbind outcome_bind].
    run_assert by (rewrite length_take, length_drop; apply Nat.eqb_eq; lia).
    rewrite (index_Some _ _ _ Hd). cbn [mbind outcome_bind]. run_assert by done.
    rewrite <- (insert_edge_refines n (SChild (drop pos k))
      (fun c => insert_recursive fuel c (take pos k) key value)); [done | done |].
    intros c Hc. by apply IH.
  - rewrite address_nil by lia. cbn. destruct (children n !! k) as [c |] eqn:Hc; cbn.
    + assert (leaf c) as [kv ->]; [| done].
      apply (wf_child n (SChild k) c Hn) in Hc as (_ & _ & _ & _ & Hl'). apply Hl'.
      by apply find_last_dot_None.
    + by rewrite !decide_False by (done || intros [??]; done).
Qed.

Lemma insert_recursive_refines fuel n k key value :
  trie_wf n -> (length k < fuel)%nat -> (length k <= length key)%nat ->
  insert_recursive fuel n k key value =
  Val (insert_spec (insertable fuel k) (address fuel k) n (key, value)).
Proof.
  revert n k. induction fuel as [| fuel IH]; intros n k Hn Hf Hlen; [lia |].
  destruct (decide (k = [])) as [-> | Hk]; [done |].
  assert (0 < length k)%nat by (destruct k; [done | cbn; lia]).
  assert (inserts_below fuel k key value) by (intros c k' Hc Hk'; apply IH; [done | lia | lia]).
  destruct (decide (last k = Some SLASH)).
  - apply insert_slash_refines; done || lia.
  - apply insert_dot_refines; done || lia.
Qed.

(** *** Removal *)

Lemma list_delete_insert {A} (l : list A) i x : delete i (<[i := x]> l) = delete i l.
Proof.
  apply list_eq. intros j. rewrite !list_lookup_delete.
  case_decide; by rewrite list_lookup_insert_ne by lia.
Qed.

Definition remove_spec (a : option (list Step * Slot)) (n : TrieNode V) : TrieNode V * RemoveResult :=
  match a with
  | Some (p, slot) =>
      if is_none (at_path n p slot) then (n, RemoveNotFound) else (remove_at n p slot, RemoveOk)
  | None => (n, RemoveNotFound)
  end.

Lemma remove_spec_wf a n : trie_wf n -> trie_wf (remove_spec a n).1.
Proof.
  intros Hn. destruct a as [[p slot] |]; cbn; [| done].
  destruct (is_none _); cbn; [done | by apply wf_remove_at].
Qed.

Definition remove_edge (n : TrieNode V) (s : Step)
    (go : TrieNode V -> checked (TrieNode V * RemoveResult)) : checked (TrieNode V * RemoveResult) :=
  match child n s with
  | None => Val (n, RemoveNotFound)
  | Some c =>
      '(c, res) ← go c;
      if decide (res = RemoveOk) then
        Val (if is_empty c then prune n s else put n s c, RemoveOk)
      else Val (put n s c, RemoveNotFound)
  end.

Lemma remove_edge_refines n s go a :
  trie_wf n -> (forall c, trie_wf c -> go c = Val (remove_spec a c)) ->
  remove_edge n s go = Val (remove_spec (cons_step s a) n).
Proof.
  intros Hn Hgo. unfold remove_edge. destruct (child n s) as [c |] eqn:Hc.
  - rewrite Hgo by (by apply (wf_child _ _ _ Hn) in Hc as (_ & ? & _)).
    destruct a as [[p slot] |]; cbn; [| by rewrite put_child_id]. rewrite Hc. cbn.
    destruct (at_path c p slot); cbn; [done | by rewrite put_child_id].
  - destruct a as [[p slot] |]; cbn; [| done]. by rewrite Hc.
Qed.

Definition removes_below (fuel : nat) (k : Key) : Prop :=
  forall c k', trie_wf c -> (length k' < length k)%nat ->
  remove_recursive fuel c k' = Val (remove_spec (address fuel k') c).

Lemma remove_slash_refines fuel n k :
  removes_below fuel k -> trie_wf n -> k <> [] -> last k = Some SLASH ->
  remove_recursive (S fuel) n k = Val (remove_spec (address (S fuel) k) n).
Proof.
  intros IH Hn Hk Hb. cbn [remove_recursive]. rewrite decide_False by done.
  destruct (decide (k = bstr "*")) as [-> | Hstar]; [done |].
  rewrite (index_last _ _ Hb). cbn [mbind outcome_bind].
  rewrite Z.eqb_refl, slash_segment_Val by done. cbn [mbind outcome_bind].
  destruct (segment_of k) as [[pos s] |] eqn:Hs.
  2: { cbn [address]. by rewrite !decide_False, decide_True, Hs by done. }
  rewrite (address_slash _ _ pos s), anchored_segment_Val by done. cbn [mbind outcome_bind].
  destruct (regex_new_ok s); [| done].
  destruct (segment_of_split _ _ _ Hs Hb) as [Hpos _]. rewrite segment_rest_Val by done.
  cbn [mbind outcome_bind].
  rewrite <- (remove_edge_refines n (SRegex (anchor s)) (fun c => remove_recursive fuel c (rest_of k pos)))
    by (done || (intros c Hc; apply IH; [done | by apply rest_of_shrinks])).
  unfold remove_edge. cbn [child put prune].
  destruct (find_regexp (anchor s) (regexps n)) as [[i [r c]] |] eqn:Hfind; [| done].
  cbn [fmap option_fmap option_map snd]. destruct (remove_recursive fuel c _) as [[c' res] | |]; [| done..].
  cbn [mbind outcome_bind]. case_decide; [| done]. destruct (is_empty c'); [| done].
  destruct n as [kv w ch rs]. unfold set_regexps. cbn.
  by rewrite list_delete_insert.
Qed.

Lemma remove_dot_refines fuel n k :
  removes_below fuel k -> trie_wf n -> k <> [] -> k <> bstr "*" -> last k <> Some SLASH ->
  remove_recursive (S fuel) n k = Val (remove_spec (address (S fuel) k) n).
Proof.
  intros IH Hn Hk Hstar Hl. cbn [remove_recursive]. rewrite !decide_False by done.
  destruct (last_nonempty k Hk) as [b Hb]. rewrite (index_last _ _ Hb). cbn [mbind outcome_bind].
  rewrite (proj2 (Z.eqb_neq b SLASH)) by congruence. rewrite dot_split_Val. cbn [mbind outcome_bind].
  destruct (split_dot k) as [p s] eqn:E. rewrite (address_dot _ _ p s) by congruence.
  destruct (split_dot_shrinks _ _ _ Hk E) as [Hsh _]. apply split_dot_app in E.
  run_assert by (rewrite E, length_app; apply Nat.eqb_refl).
  rewrite <- (remove_edge_refines n (SChild s) (fun c => remove_recursive fuel c p))
    by (done || (intros c Hc; by apply IH)).
  unfold remove_edge. cbn [child put prune].
  destruct (children n !! s) as [c |] eqn:Hc; [| done].
  apply (wf_child n (SChild s) c Hn) in Hc as (_ & Hw & _).
  pose proof (remove_spec_wf (address fuel p) c Hw) as Hw'.
  rewrite IH by done. destruct (remove_spec _ _) as [c' res]. cbn [mbind outcome_bind fst] in *.
  destruct res; [rewrite decide_True | rewrite decide_False]; [| done..].
  destruct n as [kv w ch rs]. unfold set_children. cbn [children key_value wildcard regexps].
  destruct (is_empty c') eqn:He.
  - rewrite delete_insert_eq. by run_assert by (by rewrite lookup_delete_eq).
  - by run_assert by (by apply Nat.ltb_lt, nonempty_count).
Qed.

Lemma remove_recursive_refines fuel n k :
  trie_wf n -> (length k < fuel)%nat ->
  remove_recursive fuel n k = Val (remove_spec (address fuel k) n).
Proof.
  revert n k. induction fuel as [| fuel IH]; intros n k Hn Hf; [lia |].
  destruct (decide (k = [])) as [-> | Hk]; [by destruct n as [[?|] w ch rs] |].
  destruct (decide (k = bstr "*")) as [-> | Hs]; [by destruct n as [kv [?|] ch rs] |].
  assert (0 < length k)%nat by (destruct k; [done | cbn; lia]).
  assert (removes_below fuel k) by (intros c k' Hc Hk'; apply IH; [done | lia]).
  destruct (decide (last k = Some SLASH)).
  - by apply remove_slash_refines.
  - by apply remove_dot_refines.
Qed.

(** The address of an entry that is there is one an insertion may use. *)
Lemma at_path_ok n p slot kv : trie_wf n -> at_path n p slot = Some kv -> path_ok p slot.
Proof.
  revert n. induction p as [| s p IH]; intros n Hn Ha; [done |]. cbn in Ha.
  destruct (child n s) as [c |] eqn:Hc; [| done]. cbn in Ha.
  apply (wf_child _ _ _ Hn) in Hc as (_ & Hw & Hs). pose proof (IH c Hw Ha) as Hp.
  destruct s as [k | a]; [| done]. destruct Hs as (? & ? & Hl). split; [done |]. split; [done |].
  split; [| done]. intros Hk. destruct (Hl Hk) as [kv0 ->].
  destruct p as [| [k' | a'] p]; [by destruct slot | |]; cbn in Ha; [| done].
  by rewrite lookup_empty in Ha.
Qed.

(** *** The key-addressed accessor *)

Definition entry_is (n : TrieNode V) (a : option (list Step * Slot)) (e : option mut_entry) : Prop :=
  match a with
  | None => e = None
  | Some (p, slot) =>
      match e with
      | None => at_path n p slot = None
      | Some (kv, write) =>
          at_path n p slot = Some kv /\ forall kv', write kv' = insert_at n p slot kv'
      end
  end.

Lemma entry_is_cons n s c a e f :
  child n s = Some c -> (forall c', f c' = put n s c') -> entry_is c a e ->
  entry_is n (cons_step s a) (lift_entry f e).
Proof.
  intros Hc Hf He. destruct a as [[p slot] |]; cbn in *; [| by subst].
  destruct e as [[kv write] |]; cbn in *; rewrite Hc; cbn; [| done].
  destruct He as [? Hw]. split; [done |]. intros kv'. by rewrite Hw, Hf.
Qed.

Lemma entry_is_missing n s a : child n s = None -> entry_is n (cons_step s a) None.
Proof. intros Hc. destruct a as [[p slot] |]; cbn; [by rewrite Hc | done]. Qed.

Lemma lookup_mut_refines fuel n k :
  (length k < fuel)%nat ->
  exists e, lookup_mut fuel n k false = Val e /\ entry_is n (address fuel k) e.
Proof.
  revert n k. induction fuel as [| fuel IH]; intros n k Hf; [lia |]. cbn [lookup_mut].
  destruct (decide (k = [])) as [-> | Hk].
  { eexists. split; [done |]. by destruct n as [[?|] w ch rs]. }
  destruct (decide (k = bstr "*")) as [-> | Hs].
  { eexists. split; [done |]. by destruct n as [kv [?|] ch rs]. }
  destruct (last_nonempty k Hk) as [b Hb]. rewrite (index_last _ _ Hb). cbn [mbind outcome_bind].
  destruct (Z.eqb_spec b SLASH) as [-> | Hne].
  - rewrite slash_segment_Val. cbn [mbind outcome_bind].
    destruct (segment_of k) as [[pos s] |] eqn:Hseg.
    2: { exists None. split; [done |]. cbn [address]. by rewrite !decide_False, decide_True, Hseg by done. }
    rewrite (address_slash _ _ pos s), anchored_segment_Val by done. cbn [mbind outcome_bind].
    destruct (regex_new_ok s); [| by exists None].
    destruct (segment_of_split _ _ _ Hseg Hb) as [Hpos _]. rewrite segment_rest_Val by done.
    destruct (find_regexp (anchor s) (regexps n)) as [[i [r c]] |] eqn:Hfind.
    + cbn [mbind outcome_bind]. destruct (IH c (rest_of k pos)) as (e & -> & He).
      { pose proof (rest_of_shrinks k pos Hk Hpos). lia. }
      eexists. split; [done |]. eapply entry_is_cons; [| | done]; cbn [child put]; by rewrite Hfind.
    + exists None. split; [done |]. apply entry_is_missing. cbn [child]. by rewrite Hfind.
  - destruct (split_dot k) as [p s] eqn:E. rewrite (address_dot _ _ p s) by congruence.
    rewrite dot_split_Val, E. cbn [mbind outcome_bind].
    destruct (split_dot_shrinks _ _ _ Hk E) as [Hsh Hsne]. apply split_dot_app in E.
    rewrite !debug_assert_true by (by apply bool_decide_eq_true || (rewrite E, length_app; apply Nat.eqb_refl)).
    cbn [mbind outcome_bind]. destruct (children n !! s) as [c |] eqn:Hc.
    + destruct (IH c p) as (e & -> & He); [lia |]. eexists. split; [done |].
      by eapply entry_is_cons.
    + rewrite andb_false_r. exists None. split; [done |]. by apply entry_is_missing.
Qed.

(** *** A hostname is the only one at its address *)

Definition unanchor (a : list Z) : list Z := take (length a - 8) (drop 5 a).

Lemma unanchor_anchor s : unanchor (anchor s) = s.
Proof.
  unfold unanchor, anchor. rewrite !length_app.
  replace (length (bstr "\A(?:") + (length s + length (bstr ")\z")) - 8)%nat with (length s)
    by (cbn; lia).
  change (drop 5 (bstr "\A(?:" ++ s ++ bstr ")\z")) with (s ++ bstr ")\z").
  apply take_app_length.
Qed.

Fixpoint host_of (p : list Step) (slot : Slot) : Key :=
  match p with
  | [] => match slot with Own => [] | Wild => bstr "*" end
  | SChild s :: p => host_of p slot ++ s
  | SRegex a :: p =>
      let rest := host_of p slot in
      (if decide (rest = []) then [] else rest ++ [DOT]) ++ SLASH :: unanchor a ++ [SLASH]
  end.

Lemma insertable_nonempty fuel k : insertable fuel k = true -> k <> [].
Proof. destruct fuel; [done |]. cbn. by case_decide. Qed.

Lemma host_of_address fuel k p slot :
  (length k < fuel)%nat -> insertable fuel k = true -> address fuel k = Some (p, slot) ->
  host_of p slot = k.
Proof.
  revert k p. induction fuel as [| fuel IH]; intros k p Hf Hi Ha; [done |].
  pose proof (insertable_nonempty _ _ Hi) as Hk. cbn [insertable] in Hi.
  rewrite decide_False in Hi by done. case_decide as Hl.
  - destruct (segment_of k) as [[pos s] |] eqn:Hs; [| done].
    apply andb_true_iff in Hi as [[Hn Hb]%andb_true_iff Hr].
    rewrite (address_slash _ _ pos s), Hn in Ha by done.
    destruct (segment_of_split _ _ _ Hs Hl) as [Hpos Hsplit].
    destruct (address fuel (rest_of k pos)) as [[p' slot'] |] eqn:Ha'; [| done].
    injection Ha as <- <-. cbn [host_of]. rewrite unanchor_anchor. rewrite Hsplit at 1. f_equal.
    pose proof (rest_of_shrinks k pos Hk Hpos).
    destruct pos as [| pos]; cbn [Nat.eqb orb Nat.ltb Nat.leb] in *.
    + change (rest_of k 0) with (@nil Z) in Ha'. rewrite address_nil in Ha' by lia.
      injection Ha' as <- <-. done.
    + rewrite (IH (rest_of k (S pos)) p' ltac:(lia) Hr Ha'), decide_False; [done |].
      by eapply insertable_nonempty.
  - destruct (decide (k = bstr "*")) as [-> | Hstar]; [by injection Ha as <- <- |].
    destruct (split_dot k) as [pre s] eqn:E. rewrite (address_dot _ _ pre s) in Ha by done.
    destruct (split_dot_shrinks _ _ _ Hk E) as [Hsh _].
    destruct (address fuel pre) as [[p' slot'] |] eqn:Ha'; [| done]. injection Ha as <- <-.
    cbn [host_of]. pose proof (split_dot_app _ _ _ E) as Happ. unfold split_dot in E.
    destruct (find_last_dot k) as [pos |]; injection E as <- <-.
    + by rewrite (IH (take pos k) p' ltac:(lia) Hi Ha').
    + rewrite address_nil in Ha' by lia. by injection Ha' as <- <-.
Qed.

(** A hostname that can be stored, and its address. *)
Definition hostname_ok (k : Key) : bool := insertable (trie_fuel k) k.
Definition host_address (k : Key) : option (list Step * Slot) := address (trie_fuel k) k.

Lemma host_address_ok k :
  hostname_ok k = true -> exists p slot, host_address k = Some (p, slot) /\ path_ok p slot.
Proof.
  intros Hk. destruct (insertable_path (trie_fuel k) k) as (p & slot & ? & ? & _);
    [unfold trie_fuel; lia | done | eauto].
Qed.

Lemma host_address_inj k1 k2 :
  hostname_ok k1 = true -> hostname_ok k2 = true -> host_address k1 = host_address k2 -> k1 = k2.
Proof.
  intros H1 H2 Heq. destruct (host_address_ok k1 H1) as (p & slot & Ha & _).
  pose proof Ha as Ha2. rewrite Heq in Ha2.
  assert (Hf : forall k, (length k < trie_fuel k)%nat) by (intros; unfold trie_fuel; lia).
  by rewrite <- (host_of_address _ _ _ _ (Hf k1) H1 Ha), <- (host_of_address _ _ _ _ (Hf k2) H2 Ha2).
Qed.

Lemma domain_lookup_mut_spec n k :
  exists e, domain_lookup_mut n k false = Val e /\ entry_is n (host_address k) e.
Proof. apply lookup_mut_refines. unfold trie_fuel. lia. Qed.

(** The entry a hostname owns, read with [domain_lookup_mut]. *)
Definition entry (n : TrieNode V) (k : Key) : checked (option (KeyValue V)) :=
  e ← domain_lookup_mut n k false;
  Val (match e with Some (kv, _) => Some kv | None => None end).

Lemma entry_at n k :
  entry n k = Val (match host_address k with Some (p, slot) => at_path n p slot | None => None end).
Proof.
  unfold entry, domain_lookup_mut.
  destruct (lookup_mut_refines (trie_fuel k) n k) as (e & -> & He); [unfold trie_fuel; lia |].
  cbn [mbind outcome_bind]. f_equal. fold (host_address k) in He.
  destruct (host_address k) as [[p slot] |]; cbn in He; [| by subst].
  destruct e as [[kv w] |]; cbn; [by destruct He | done].
Qed.

Lemma insert_Val n k v :
  trie_wf n -> insert n k v = Val (insert_spec (hostname_ok k) (host_address k) n (k, v)).
Proof.
  intros Hn. unfold insert. destruct (decide (k = [])) as [-> | Hk]; [done |].
  destruct (decide (k = [DOT])) as [-> | Hd]; [done |].
  rewrite insert_recursive_refines by (done || unfold trie_fuel; lia).
  fold (hostname_ok k) (host_address k). unfold insert_spec.
  destruct (hostname_ok k) eqn:Hok.
  2: { destruct (host_address k) as [[p slot] |]; cbn;
       rewrite ?Nat.eqb_refl, wf_check_invariants by done; done. }
  destruct (host_address_ok k Hok) as (p & slot & -> & Hp). cbn [negb].
  pose proof (count_insert_at n p slot (k, v) Hp) as Hc.
  destruct (at_path n p slot); cbn [is_none some_count mbind outcome_bind] in *.
  - by rewrite Nat.eqb_refl, wf_check_invariants.
  - run_assert by (apply Nat.eqb_eq; lia).
    by rewrite wf_check_invariants by (by apply wf_insert_at).
Qed.

Lemma remove_Val n k : trie_wf n -> remove n k = Val (remove_spec (host_address k) n).
Proof.
  intros Hn. unfold remove. rewrite remove_recursive_refines by (done || unfold trie_fuel; lia).
  fold (host_address k). pose proof (remove_spec_wf (host_address k) n Hn) as Hw.
  destruct (host_address k) as [[p slot] |]; cbn [remove_spec] in *.
  2: { cbn. by rewrite Nat.eqb_refl, wf_check_invariants. }
  destruct (at_path n p slot) as [kv |] eqn:Ha; cbn [is_none mbind outcome_bind fst] in *.
  - pose proof (count_remove_at n p slot kv Hn Ha).
    run_assert by (apply Nat.eqb_eq; lia). by rewrite wf_check_invariants.
  - by rewrite Nat.eqb_refl, wf_check_invariants.
Qed.

End Spec.

(** ** Requests *)

(** What a sink holds, as the list of the segments pushed and not rewound. *)
Class SinkLaws (S M : Type) `{SubMatchSink S M} (holds : S -> list M -> Prop) := {
  push_holds : forall s l m, holds s l -> holds (push s m) (l ++ [m]);
  rewind_holds : forall s l s' l',
    holds s l -> holds s' (l ++ l') -> exists s'', rewind s' (mark s) = Val s'' /\ holds s'' l;
}.

Global Instance NoTrace_laws M : SinkLaws NoTrace M (fun _ _ => True).
Proof. split; [done |]. intros. eexists. by split. Qed.

Global Instance TrieMatches_laws M : SinkLaws (TrieMatches M) M eq.
Proof.
  split; [by intros ? ? ? -> |]. intros s l s' l' -> ->. eexists. split; [done |].
  cbn. apply take_app_length.
Qed.

(** The inline record: the first sixteen segments in the slots, the others
    spilled. *)
Definition inline_holds {M} (t : InlineTrieMatches M) (l : list M) : Prop :=
  length (inline t) = INLINE_TRIE_MATCHES /\ ilen t = length l /\
  take (Nat.min (ilen t) INLINE_TRIE_MATCHES) (inline t) = Some <$> take INLINE_TRIE_MATCHES l /\
  spilled t = drop INLINE_TRIE_MATCHES l.

Lemma inline_push_holds {M} (t : InlineTrieMatches M) l m :
  inline_holds t l -> inline_holds (inline_push t m) (l ++ [m]).
Proof.
  intros (H1 & H2 & H3 & H4). unfold inline_push, inline_holds.
  destruct (inline t !! ilen t) as [o |] eqn:E; cbn [inline spilled ilen].
  - apply lookup_lt_Some in E as Hlt. rewrite length_insert, length_app, <- H2. cbn [length].
    split; [done |]. split; [lia |].
    rewrite (Nat.min_l (S (ilen t))), (take_ge (l ++ [m])) by (rewrite ?length_app; cbn; lia).
    rewrite (take_ge l), Nat.min_l in H3 by lia.
    rewrite (take_S_r _ _ (Some m)) by (apply list_lookup_insert_eq; lia).
    rewrite take_insert_ge, H3, fmap_app by lia. split; [done |].
    rewrite drop_ge in H4 |- * by (rewrite ?length_app; cbn; lia). done.
  - apply lookup_ge_None in E. rewrite length_app. cbn [length]. split; [done |]. split; [lia |].
    rewrite take_app_le, drop_app_le by lia. rewrite (Nat.min_r (S _)), Nat.min_r in * by lia.
    split; [done |]. by rewrite H4.
Qed.

Global Instance InlineTrieMatches_laws M : SinkLaws (InlineTrieMatches M) M inline_holds.
Proof.
  split; [intros; by apply inline_push_holds |].
  intros s l s' l' (_ & Hs & _ & _) (H1 & H2 & H3 & H4). cbn [mark rewind InlineTrieMatches_sink].
  unfold inline_rewind. rewrite length_app in H2. rewrite Hs.
  rewrite debug_assert_true by (apply Nat.leb_le; lia). eexists. split; [done |].
  split; [done |]. split; [done |]. cbn [inline ilen spilled].
  set (k := INLINE_TRIE_MATCHES) in *. split.
  - apply (f_equal (take (Nat.min (length l) k))) in H3. rewrite take_take in H3.
    replace (Nat.min (Nat.min (length l) k) (Nat.min (ilen s') k)) with (Nat.min (length l) k) in H3 by lia.
    rewrite H3, <- fmap_take, take_take. f_equal.
    rewrite take_app_le by lia. destruct (decide (k <= length l)%nat).
    + f_equal. lia.
    + rewrite !take_ge by lia. done.
  - rewrite H4. destruct (decide (k <= length l)%nat).
    + rewrite drop_app_le by lia. apply take_app_length'. rewrite length_drop. lia.
    + replace (length l - k)%nat with 0%nat by lia. by rewrite (drop_ge l) by lia.
Qed.

Lemma inline_new_holds {M} : inline_holds (@inline_new M) [].
Proof. done. Qed.

Lemma inline_iter_holds {M} (t : InlineTrieMatches M) l :
  inline_holds t l -> inline_iter t = Val l.
Proof.
  intros (H1 & H2 & H3 & H4). unfold inline_iter. rewrite range_Val, slice_take by lia.
  cbn [mbind outcome_bind]. rewrite H3, H4. f_equal.
  rewrite <- (take_drop INLINE_TRIE_MATCHES l) at 3. f_equal. clear.
  induction (take INLINE_TRIE_MATCHES l) as [| x xs IH]; [done |]. cbn. by rewrite IH.
Qed.

Section Requests.
Context `{RegexCrate} {V : Type}.
Implicit Types n c : TrieNode V.

(** The label a suffix of the dot-split stands for. *)
Definition label (s : Key) : Key := match s with b :: s' => if b =? DOT then s' else s | [] => [] end.

(** Every entry that matches a request, most specific first: the literal
    child, the regex segments in declaration order, the wildcard. *)
Fixpoint candidates (fuel : nat) (n : TrieNode V) (k : Key) (accept_wildcard : bool) :
    list (list TrieSubMatch * KeyValue V) :=
  match fuel with
  | O => []
  | S fuel =>
      if decide (k = []) then match key_value n with Some kv => [([], kv)] | None => [] end
      else
        let '(p, s) := split_dot k in
        match children n !! s with Some c => candidates fuel c p accept_wildcard | None => [] end ++
        (regexps n ≫= fun '(r, c) =>
           if is_match r (label s)
           then (fun '(tr, kv) => (SubRegexp (label s) r :: tr, kv)) <$> candidates fuel c p accept_wildcard
           else []) ++
        (if bool_decide (p = []) && accept_wildcard then
           match wildcard n with Some kv => [([SubWildcard (label s)], kv)] | None => [] end
         else [])
  end.

(** The first of them that [accept] takes, with the state it ends in. *)
Fixpoint pick {A} (accept : A -> KeyValue V -> bool * A) (st : A)
    (l : list (list TrieSubMatch * KeyValue V)) : option (list TrieSubMatch * KeyValue V) * A :=
  match l with
  | [] => (None, st)
  | (tr, kv) :: l =>
      let '(ok, st) := accept st kv in
      if ok : bool then (Some (tr, kv), st) else pick accept st l
  end.

Section Walk.
Context {S A : Type} `{HS : SubMatchSink S TrieSubMatch} (holds : S -> list TrieSubMatch -> Prop).
Context `{HL : !SinkLaws S TrieSubMatch holds} (accept : A -> KeyValue V -> bool * A).

(** A walk that answers with the first accepted of some candidates, records
    its segments after the ones already there, and leaves no others. *)
Definition walks (w : S -> A -> checked (option (KeyValue V) * S * A))
    (cands : list (list TrieSubMatch * KeyValue V)) : Prop :=
  forall s l st, holds s l ->
  exists s',
    match pick accept st cands with
    | (Some (tr, kv), st') => w s st = Val (Some kv, s', st') /\ holds s' (l ++ tr)
    | (None, st') => w s st = Val (None, s', st') /\ holds s' l
    end.

Lemma pick_app st l1 l2 :
  pick accept st (l1 ++ l2) =
  match pick accept st l1 with (Some x, st') => (Some x, st') | (None, st') => pick accept st' l2 end.
Proof.
  revert st. induction l1 as [| [tr kv] l1 IH]; intros st; [done |]. cbn.
  destruct (accept st kv) as [[] st']; [done | apply IH].
Qed.

Lemma pick_fmap st (f : list TrieSubMatch -> list TrieSubMatch) l :
  pick accept st ((fun '(tr, kv) => (f tr, kv)) <$> l) =
  ((fun '(tr, kv) => (f tr, kv)) <$> (pick accept st l).1, (pick accept st l).2).
Proof.
  revert st. induction l as [| [tr kv] l IH]; intros st; [done |]. cbn.
  destruct (accept st kv) as [[] st']; [done | apply IH].
Qed.

(** Trying a subtree after recording [pre], then going on. *)
Lemma try_child_walks w next pre cands1 cands2 :
  walks w cands1 -> walks next cands2 ->
  walks (fun s st => try_child w (mark s) (foldl push s pre) st next)
    (((fun '(tr, kv) => (pre ++ tr, kv)) <$> cands1) ++ cands2).
Proof.
  intros Hw Hn s l st Hs. rewrite pick_app, pick_fmap.
  assert (Hpre : holds (foldl push s pre) (l ++ pre)).
  { clear -HL Hs. revert s l Hs. induction pre as [| x pre IH]; intros s l Hs; cbn.
    - by rewrite app_nil_r.
    - replace (l ++ x :: pre) with ((l ++ [x]) ++ pre) by (by rewrite <- app_assoc).
      apply IH. by apply push_holds. }
  destruct (Hw _ _ st Hpre) as [s1 Hs1]. unfold try_child.
  destruct (pick accept st cands1) as [[[tr kv] |] st1]; cbn [fst snd fmap option_fmap option_map].
  - destruct Hs1 as [-> ?]. exists s1. split; [done |]. by rewrite app_assoc.
  - destruct Hs1 as [-> Hh]. cbn [mbind outcome_bind].
    destruct (rewind_holds s l s1 pre Hs Hh) as (s2 & -> & Hs2). cbn [mbind outcome_bind].
    by apply Hn.
Qed.

Lemma regexp_loop_walks walk segment rs next cands_of cands2 :
  (forall r c, (r, c) ∈ rs -> walks (walk c) (cands_of c)) -> walks next cands2 ->
  walks (regexp_loop walk segment rs next)
    ((rs ≫= fun '(r, c) =>
        if is_match r segment
        then (fun '(tr, kv) => (SubRegexp segment r :: tr, kv)) <$> cands_of c else []) ++ cands2).
Proof.
  induction rs as [| [r c] rs IH]; intros Hrs Hnext; [done |]. cbn [regexp_loop].
  rewrite bind_cons. specialize (IH (fun r' c' Hin => Hrs r' c' (list_elem_of_further _ _ _ Hin)) Hnext).
  destruct (is_match r segment); cbn [negb]; [| done]. rewrite <- app_assoc.
  apply (try_child_walks (walk c) _ [SubRegexp segment r]); [| done].
  apply (Hrs r). left.
Qed.

Lemma label_bind {B} suffix (f : Key -> checked B) :
  suffix <> [] ->
  (b ← index suffix 0; segment ← (if b =? DOT then range suffix 1 (length suffix) else Val suffix);
   f segment) = f (label suffix).
Proof.
  destruct suffix as [| b s]; [done |]. intros _.
  rewrite (index_Some _ 0%nat b) by done. cbn [mbind outcome_bind label].
  destruct (b =? DOT); [| done].
  rewrite range_Val by (cbn; lia). by rewrite slice_drop.
Qed.

Lemma split_dot_head k p s : split_dot k = (p, s) -> is_none (find_last_dot k) || bool_decide (head s = Some DOT) = true.
Proof.
  unfold split_dot. destruct (find_last_dot k) as [pos |] eqn:E; [| done]. intros [= <- <-].
  apply find_last_dot_Some in E as [_ Hd]. cbn. rewrite head_lookup, lookup_drop, Nat.add_0_r.
  by apply bool_decide_eq_true.
Qed.

Lemma walks_ext w1 w2 cands : (forall s st, w1 s st = w2 s st) -> walks w1 cands -> walks w2 cands.
Proof. intros He Hw s l st Hs. rewrite <- He. by apply Hw. Qed.

Lemma wildcard_walks n segment (b : bool) :
  walks (fun trace st =>
    if b then
      match wildcard n with
      | Some kv => let '(ok, st) := accept st kv in
                   if ok : bool then Val (Some kv, push trace (SubWildcard segment), st)
                   else Val (None, trace, st)
      | None => Val (None, trace, st)
      end
    else Val (None, trace, st))
    (if b then match wildcard n with Some kv => [([SubWildcard segment], kv)] | None => [] end else []).
Proof.
  intros s l st Hs. destruct b; [| by exists s]. destruct (wildcard n) as [kv |]; [| by exists s].
  cbn. destruct (accept st kv) as [[] st']; eexists; (split; [done |]); [by apply push_holds | done].
Qed.

Lemma lookup_recursive_walks fuel n k aw :
  (length k < fuel)%nat -> walks (lookup_recursive accept fuel n k aw) (candidates fuel n k aw).
Proof.
  revert n k. induction fuel as [| fuel IH]; intros n k Hf; [lia |].
  intros s l st Hs. cbn [lookup_recursive candidates].
  destruct (decide (k = [])) as [-> | Hk].
  { destruct (key_value n) as [kv |]; [| by exists s]. cbn.
    destruct (accept st kv) as [[] st']; exists s; (split; [done |]); [by rewrite app_nil_r | done]. }
  rewrite dot_split_Val. cbn [mbind outcome_bind].
  destruct (split_dot k) as [p suf] eqn:E.
  destruct (split_dot_shrinks _ _ _ Hk E) as [Hsh Hsne].
  pose proof (split_dot_head _ _ _ E) as Hhd. apply split_dot_app in E.
  rewrite !debug_assert_true
    by (done || by apply bool_decide_eq_true || (rewrite E, length_app; apply Nat.eqb_refl)).
  cbn [mbind outcome_bind].
  set (walk := fun child => lookup_recursive accept fuel child p aw).
  assert (Hnl := regexp_loop_walks walk (label suf) (regexps n) _ (fun c => candidates fuel c p aw) _
    (fun r c _ => IH c p ltac:(lia)) (wildcard_walks n (label suf) (bool_decide (p = []) && aw))).
  eapply (walks_ext _ (non_literal accept walk n p suf aw)) in Hnl;
    [| intros s0 st0; symmetry; unfold non_literal; by rewrite label_bind].
  destruct (children n !! suf) as [c |]; [| by apply Hnl].
  pose proof (try_child_walks (walk c) _ [] _ _ (IH c p ltac:(lia)) Hnl s l st Hs) as Ht.
  cbn [foldl] in Ht. rewrite (list_fmap_ext _ id), list_fmap_id in Ht by (by intros ? [??]).
  done.
Qed.

End Walk.
End Requests.

(** ** A small regex engine

    Patterns without character classes and repetitions, in which [.] matches
    any byte and every other byte itself: enough for the laws of the crate to
    hold and for the examples. *)

Definition simple_char (b : Z) : bool := bool_decide (b ∉ bstr "[]{}*+|").
Definition fold_case (b : Z) : Z := if between 65 90 b then b + 32 else b.
Fixpoint simple_match (p s : list Z) : bool :=
  match p, s with
  | [], [] => true
  | c :: p, b :: s => ((c =? DOT) || (c =? fold_case b)) && simple_match p s
  | _, _ => false
  end.

Definition simple_body (p : list Z) : list Z :=
  if starts_with p (bstr "\A(?:") then unanchor p else p.

Definition simple_regex : RegexCrate := {|
  Regex := list Z;
  regex_new p := if forallb simple_char (simple_body p) then Some p else None;
  regex_build_ci p := if forallb simple_char (simple_body p) then Some p else None;
  as_str r := r;
  is_match r s := simple_match (simple_body r) s;
  captures r s := if simple_match (simple_body r) s then Some [Some s] else None;
  captures_len _ := 1%nat;
|}.

Lemma simple_regex_laws : @RegexLaws simple_regex.
Proof. by split; intros p r; cbn; destruct (forallb _ _); intros [= ->]. Qed.

(** ** The trie and the map of the stored hostnames *)

Section Map.
Context `{HR : RegexCrate} {V : Type}.

Inductive trie_op := OpInsert (k : Key) (v : V) | OpRemove (k : Key).
Inductive op_result := Inserted (r : InsertResult) | Removed (r : RemoveResult).

(** Removals name hostnames that can be stored; insertions are arbitrary. *)
Definition op_ok (op : trie_op) : Prop :=
  match op with OpInsert _ _ => True | OpRemove k => hostname_ok k = true end.

Definition trie_step (n : TrieNode V) (op : trie_op) : checked (TrieNode V * op_result) :=
  match op with
  | OpInsert k v => '(n, r) ← domain_insert n k v; Val (n, Inserted r)
  | OpRemove k => '(n, r) ← domain_remove n k; Val (n, Removed r)
  end.

Fixpoint trie_run (n : TrieNode V) (ops : list trie_op) : checked (TrieNode V * list op_result) :=
  match ops with
  | [] => Val (n, [])
  | op :: ops =>
      '(n, r) ← trie_step n op;
      '(n, rs) ← trie_run n ops;
      Val (n, r :: rs)
  end.

Definition map_step (m : gmap Key V) (op : trie_op) : gmap Key V * op_result :=
  match op with
  | OpInsert k v =>
      if negb (hostname_ok k) then (m, Inserted InsertFailed)
      else if is_none (m !! k) then (<[k := v]> m, Inserted InsertOk)
      else (m, Inserted InsertExisting)
  | OpRemove k =>
      if is_none (m !! k) then (m, Removed RemoveNotFound) else (delete k m, Removed RemoveOk)
  end.

Fixpoint map_run (m : gmap Key V) (ops : list trie_op) : gmap Key V * list op_result :=
  match ops with
  | [] => (m, [])
  | op :: ops => let '(m, r) := map_step m op in let '(m, rs) := map_run m ops in (m, r :: rs)
  end.

(** The trie holds exactly the entries of the map. *)
Definition trie_refines (n : TrieNode V) (m : gmap Key V) : Prop :=
  trie_wf n /\ count_values n = size m /\
  forall k, hostname_ok k = true -> entry n k = Val (pair k <$> m !! k).

Context `{HRL : !RegexLaws}.

Implicit Types n : TrieNode V.

Lemma at_path_entry n k p slot :
  host_address k = Some (p, slot) -> entry n k = Val (at_path n p slot).
Proof. intros Ha. rewrite entry_at. by rewrite Ha. Qed.

Lemma entry_insert_at n k p slot kv k' :
  hostname_ok k = true -> host_address k = Some (p, slot) -> path_ok p slot ->
  hostname_ok k' = true ->
  entry (insert_at n p slot kv) k' = if decide (k' = k) then Val (Some kv) else entry n k'.
Proof.
  intros Hk Ha Hp Hk'. rewrite !entry_at. case_decide as Hd.
  - subst. by rewrite Ha, at_insert_same.
  - destruct (host_address_ok k' Hk') as (p' & slot' & Ha' & _). rewrite Ha'.
    rewrite at_insert_other; [done | done |]. intros [= -> ->].
    apply Hd, host_address_inj; congruence.
Qed.

Lemma entry_remove_at n k p slot k' :
  trie_wf n -> hostname_ok k = true -> host_address k = Some (p, slot) -> hostname_ok k' = true ->
  entry (remove_at n p slot) k' = if decide (k' = k) then Val None else entry n k'.
Proof.
  intros Hn Hk Ha Hk'. rewrite !entry_at. case_decide as Hd.
  - subst. by rewrite Ha, at_remove_same.
  - destruct (host_address_ok k' Hk') as (p' & slot' & Ha' & _). rewrite Ha'.
    rewrite at_remove_other; [done | done |]. intros [= -> ->].
    apply Hd, host_address_inj; congruence.
Qed.

Lemma trie_step_refines n m op :
  trie_refines n m -> op_ok op ->
  exists n', trie_step n op = Val (n', (map_step m op).2) /\ trie_refines n' (map_step m op).1.
Proof.
  intros (Hn & Hc & He) Hop. destruct op as [k v | k]; cbn [trie_step map_step].
  - unfold domain_insert. rewrite insert_Val by done. unfold insert_spec. cbn [mbind outcome_bind].
    destruct (hostname_ok k) eqn:Hk; cbn [negb].
    2: { exists n. split; [by destruct (host_address k) as [[??] |] | done]. }
    destruct (host_address_ok k Hk) as (p & slot & Ha & Hp). rewrite Ha.
    pose proof (He k Hk) as Hek. rewrite (at_path_entry _ _ _ _ Ha) in Hek. injection Hek as Hek.
    pose proof (count_insert_at n p slot (k, v) Hp) as Hcnt. rewrite Hek in Hcnt |- *.
    destruct (m !! k) eqn:Hm; cbn [fmap option_fmap option_map is_none some_count fst snd] in *; [by exists n |].
    eexists. split; [done |]. split; [by apply wf_insert_at |].
    split; [rewrite map_size_insert_None by done; lia |].
    intros k' Hk'. rewrite (entry_insert_at _ k) by done. case_decide as Hd.
    + subst. by rewrite lookup_insert_eq.
    + by rewrite lookup_insert_ne, He by done.
  - unfold domain_remove. rewrite remove_Val by done. unfold remove_spec. cbn [op_ok] in Hop.
    destruct (host_address_ok k Hop) as (p & slot & Ha & Hp). rewrite Ha.
    pose proof (He k Hop) as Hek. rewrite (at_path_entry _ _ _ _ Ha) in Hek. injection Hek as Hek.
    rewrite Hek. destruct (m !! k) as [v |] eqn:Hm;
      cbn [fmap option_fmap option_map is_none some_count fst snd] in *; [| by exists n].
    eexists. split; [done |]. split; [by apply wf_remove_at |].
    split; [rewrite map_size_delete_Some by (by rewrite Hm); rewrite (count_remove_at _ _ _ _ Hn Hek) in Hc; lia |].
    intros k' Hk'. rewrite (entry_remove_at _ k) by done. case_decide as Hd.
    + subst. by rewrite lookup_delete_eq.
    + by rewrite lookup_delete_ne, He by done.
Qed.

Lemma trie_run_refines n m ops :
  trie_refines n m -> Forall op_ok ops ->
  exists n', trie_run n ops = Val (n', (map_run m ops).2) /\ trie_refines n' (map_run m ops).1.
Proof.
  revert n m. induction ops as [| op ops IH];
    intros n m Hr Hops; cbn [trie_run map_run]; [by exists n |].
  apply Forall_cons in Hops as [Hop Hops].
  destruct (trie_step_refines n m op Hr Hop) as (n1 & -> & Hr1). cbn [mbind outcome_bind].
  destruct (map_step m op) as [m1 r]. cbn [fst snd] in *.
  destruct (IH n1 m1 Hr1 Hops) as (n2 & -> & Hr2). destruct (map_run m1 ops) as [m2 rs].
  by exists n2.
Qed.

Lemma trie_refines_root : trie_refines root ∅.
Proof.
  split; [apply wf_root |]. split; [done |]. intros k Hk. rewrite entry_at, lookup_empty.
  destruct (host_address k) as [[p slot] |]; [by rewrite at_root | done].
Qed.

(** C3. The routing trie behaves as a finite map from hostnames to values: any
    sequence of insertions, of arbitrary keys, and of removals of well-formed
    hostnames, run from the empty trie, trips none of the structural
    assertions, gives on every operation the answer the map gives (inserted,
    already there, refused, removed, not found), and leaves every well-formed
    hostname owning exactly the value the map holds for it, with as many
    values in the trie as in the map.  The removal of a key that is not a
    well-formed hostname can remove the entry of another: [leading_dot_alias]. *)
Theorem trie_refines_map (ops : list trie_op) :
  Forall op_ok ops ->
  exists n, trie_run root ops = Val (n, (map_run ∅ ops).2) /\ trie_refines n (map_run ∅ ops).1.
Proof. apply trie_run_refines, trie_refines_root. Qed.

(** A refused insertion leaves no trace: on a well-formed trie a key is
    refused exactly when it is not a well-formed hostname (an empty label, a
    slash without a dot-anchored segment, a segment that is not a regex), a
    hostname that owns a value is reported as existing, and in both cases the
    trie is the one before, down to the order of its regex segments. *)
Theorem insert_refusal n k v :
  trie_wf n ->
  exists n' r, insert n k v = Val (n', r) /\
    (r = InsertFailed <-> hostname_ok k = false) /\
    (r = InsertExisting <-> hostname_ok k = true /\ entry n k <> Val None) /\
    (r <> InsertOk -> n' = n).
Proof.
  intros Hn. rewrite insert_Val by done. eexists _, _. split; [apply f_equal, surjective_pairing |].
  unfold insert_spec. destruct (hostname_ok k) eqn:Hk; cbn [negb].
  2: { destruct (host_address k) as [[p slot] |]; cbn; repeat split; try done; by intros [? _]. }
  destruct (host_address_ok k Hk) as (p & slot & Ha & _).
  rewrite Ha, (at_path_entry _ _ _ _ Ha). destruct (at_path n p slot); cbn; repeat split; try done.
  by intros [_ []].
Qed.

(** Removing a hostname that was just inserted gives back the trie as it
    was, with every node that the insertion created pruned. *)
Theorem remove_after_insert n k v n' :
  trie_wf n -> insert n k v = Val (n', InsertOk) -> remove n' k = Val (n, RemoveOk).
Proof.
  intros Hn. rewrite insert_Val by done. unfold insert_spec.
  destruct (hostname_ok k) eqn:Hk; cbn [negb]; [| by destruct (host_address k) as [[??] |]].
  destruct (host_address_ok k Hk) as (p & slot & Ha & Hp). rewrite Ha.
  destruct (at_path n p slot) eqn:Hat; cbn [is_none]; [done |]. intros [= <-].
  rewrite remove_Val, Ha by (by apply wf_insert_at). unfold remove_spec.
  by rewrite at_insert_same, remove_insert_at.
Qed.

End Map.

(** ** What a request is answered with *)

Section Answers.
Context `{HR : RegexCrate} {V : Type}.
Implicit Types n : TrieNode V.

Definition request_candidates (n : TrieNode V) (k : Key) (aw : bool) := candidates (trie_fuel k) n k aw.

Lemma lookup_path_pick {A} (accept : A -> KeyValue V -> bool * A) n k aw st :
  lookup_with_path n k aw [] accept st =
  Val (prod_swap <$> (pick accept st (request_candidates n k aw)).1,
       (pick accept st (request_candidates n k aw)).2).
Proof.
  assert (Hf : (length k < trie_fuel k)%nat) by (unfold trie_fuel; lia).
  destruct (lookup_recursive_walks eq accept (trie_fuel k) n k aw Hf [] [] st eq_refl) as [s H1].
  unfold request_candidates, lookup_with_path.
  destruct (pick accept st _) as [[[tr kv] |] st']; destruct H1 as [-> ->]; done.
Qed.

Lemma lookup_inline_pick {A} (accept : A -> KeyValue V -> bool * A) n k aw st :
  exists trace,
    lookup_with_inline_path n k aw inline_new accept st =
    Val (snd <$> (pick accept st (request_candidates n k aw)).1, trace,
         (pick accept st (request_candidates n k aw)).2) /\
    inline_iter trace = Val (default [] (fst <$> (pick accept st (request_candidates n k aw)).1)).
Proof.
  assert (Hf : (length k < trie_fuel k)%nat) by (unfold trie_fuel; lia).
  destruct (lookup_recursive_walks inline_holds accept (trie_fuel k) n k aw Hf inline_new [] st
    inline_new_holds) as [s H2]. unfold request_candidates, lookup_with_inline_path.
  change (mark inline_new) with 0%nat. cbn [Nat.eqb debug_assert mbind outcome_bind].
  destruct (pick accept st _) as [[[tr kv] |] st']; destruct H2 as [-> H2]; cbn [app] in H2;
    exists s; (split; [done |]); by apply inline_iter_holds.
Qed.

(** The three lookups run the same walk whatever record they keep: each
    answers with the first candidate, most specific first, that the caller's
    predicate accepts, leaving the predicate in the same state; the record of
    [lookup_with_path] is exactly the segments of that candidate, and the
    inline record of [lookup_with_inline_path], read back with [iter], is the
    same list however many segments spilled; segments of candidates tried
    and abandoned never remain. *)
Theorem lookup_records_agree {A} (accept : A -> KeyValue V -> bool * A) n k aw st :
  let '(answer, st') := pick accept st (request_candidates n k aw) in
  lookup_with_path n k aw [] accept st = Val (prod_swap <$> answer, st') /\
  exists trace, lookup_with_inline_path n k aw inline_new accept st = Val (snd <$> answer, trace, st') /\
    inline_iter trace = Val (default [] (fst <$> answer)).
Proof.
  pose proof (lookup_path_pick accept n k aw st) as H1.
  pose proof (lookup_inline_pick accept n k aw st) as H2.
  by destruct (pick accept st (request_candidates n k aw)) as [answer st'].
Qed.

Lemma pick_all (l : list (list TrieSubMatch * KeyValue V)) :
  pick (fun (_ : unit) _ => (true, tt)) tt l = (head l, tt).
Proof. by destruct l as [| [tr kv] l]. Qed.

Lemma lookup_head n k aw : lookup n k aw = Val (snd <$> head (request_candidates n k aw)).
Proof.
  assert (Hf : (length k < trie_fuel k)%nat) by (unfold trie_fuel; lia).
  destruct (lookup_recursive_walks (fun _ _ => True) (fun (_ : unit) _ => (true, tt)) (trie_fuel k)
    n k aw Hf mkNoTrace [] tt I) as [s1 H1]. unfold lookup.
  rewrite pick_all in H1. fold (request_candidates n k aw) in H1.
  destruct (head (request_candidates n k aw)) as [[tr kv] |]; by destruct H1 as [-> _].
Qed.

(** The first candidate of a hostname made of literal labels is its own entry. *)
Lemma candidates_literal fuel n k p aw kv :
  address fuel k = Some (p, Own) -> Forall (fun s => exists x, s = SChild x) p ->
  at_path n p Own = Some kv -> head (candidates fuel n k aw) = Some ([], kv).
Proof.
  revert n k p. induction fuel as [| fuel IH]; intros n k p Ha Hp Hat; [done |].
  cbn [address candidates] in *. destruct (decide (k = [])) as [-> | Hk].
  { injection Ha as <-. cbn in Hat. by rewrite Hat. }
  destruct (decide (k = bstr "*")); [done |]. destruct (decide (last k = Some SLASH)).
  { exfalso. destruct (segment_of k) as [[pos s] |]; [| done].
    destruct (regex_new_ok s); [| done]. destruct (address fuel _) as [[p' ?] |]; [| done].
    injection Ha as <- ->. apply Forall_cons in Hp as [[? ?] _]. done. }
  destruct (split_dot k) as [pre s]. destruct (address fuel pre) as [[p' ?] |] eqn:Ha'; [| done].
  injection Ha as <- ->. apply Forall_cons in Hp as [_ Hp]. cbn [at_path child] in Hat.
  destruct (children n !! s) as [c |]; [| done]. cbn in Hat.
  specialize (IH c pre p' Ha' Hp Hat). by destruct (candidates fuel c pre aw).
Qed.

(** Hostnames without a wildcard or a regex segment. *)
Definition literal (k : Key) : Prop :=
  exists p, host_address k = Some (p, Own) /\ Forall (fun s => exists x, s = SChild x) p.

(** An exact hostname always wins: a request for a literal hostname that
    owns an entry is answered with that entry, whatever regex segments and
    wildcards also match it. *)
Theorem literal_host_wins n k kv aw :
  literal k -> entry n k = Val (Some kv) -> domain_lookup n k aw = Val (Some kv).
Proof.
  intros (p & Ha & Hp). rewrite entry_at, Ha. intros [= Hat]. unfold domain_lookup.
  rewrite lookup_head. unfold request_candidates.
  by rewrite (candidates_literal (trie_fuel k) n k p aw kv).
Qed.

Definition sub_segment (m : TrieSubMatch) : list Z :=
  match m with SubWildcard s => s | SubRegexp s _ => s end.

Lemma label_dotless k p s : split_dot k = (p, s) -> DOT ∉ label s.
Proof.
  unfold split_dot. destruct (find_last_dot k) as [pos |] eqn:E; intros [= <- <-].
  - apply rfind_Some in E as (Hlt & Hd & Hafter). rewrite (drop_S _ _ _ Hd). cbn.
    intros [j Hj]%list_elem_of_lookup. rewrite lookup_drop in Hj.
    apply (Hafter (S pos + j)%nat); [| done]. apply lookup_lt_Some in Hj. lia.
  - apply find_last_dot_None in E. destruct k as [| b k]; [done |]. cbn.
    destruct (b =? DOT); [| done]. intros Hin. apply E. by right.
Qed.

Lemma candidates_labels fuel n k aw tr kv :
  (tr, kv) ∈ candidates fuel n k aw ->
  Forall (fun m => DOT ∉ sub_segment m) tr /\
  forall seg, SubWildcard seg ∈ tr -> aw = true /\ last tr = Some (SubWildcard seg).
Proof.
  revert n k tr. induction fuel as [| fuel IH]; intros n k tr; cbn [candidates].
  { by intros ?%not_elem_of_nil. }
  destruct (decide (k = [])).
  { destruct (key_value n); [| by intros ?%not_elem_of_nil].
    intros [= -> _]%list_elem_of_singleton. split; [done |]. by intros ? ?%not_elem_of_nil. }
  destruct (split_dot k) as [p s] eqn:E. apply label_dotless in E. rewrite !elem_of_app.
  intros [Hin | [Hin | Hin]].
  - destruct (children n !! s); [by eapply IH | by apply not_elem_of_nil in Hin].
  - apply list_elem_of_bind in Hin as ([r c] & Hin & _).
    destruct (is_match r (label s)); [| by apply not_elem_of_nil in Hin].
    apply list_elem_of_fmap in Hin as ([tr' kv'] & [= -> ->] & [Hl Hw]%IH).
    split; [by constructor |]. intros seg [Heq | Hin]%elem_of_cons; [done |].
    destruct (Hw seg Hin) as [? Hlast]. split; [done |]. by destruct tr'.
  - destruct (bool_decide (p = []) && aw) eqn:Hb; [| by apply not_elem_of_nil in Hin].
    apply andb_true_iff in Hb as [_ ->]. destruct (wildcard n); [| by apply not_elem_of_nil in Hin].
    apply list_elem_of_singleton in Hin as [= -> _]. split; [by constructor |].
    intros seg [= ->]%list_elem_of_singleton. done.
Qed.

(** A wildcard stands for one label, the leftmost: the record of an
    answered request holds only segments without a dot, and a wildcard is
    recorded only when the caller accepts one, as the last, leftmost,
    segment. *)
Theorem wildcard_one_label {A} (accept : A -> KeyValue V -> bool * A) n k aw st kv trace st' :
  lookup_with_path n k aw [] accept st = Val (Some (kv, trace), st') ->
  Forall (fun m => DOT ∉ sub_segment m) trace /\
  forall seg, SubWildcard seg ∈ trace -> aw = true /\ last trace = Some (SubWildcard seg).
Proof.
  assert (Hf : (length k < trie_fuel k)%nat) by (unfold trie_fuel; lia).
  destruct (lookup_recursive_walks eq accept (trie_fuel k) n k aw Hf [] [] st eq_refl) as [s1 H1].
  unfold lookup_with_path. destruct (pick accept st _) as [[[tr kv0] |] st0] eqn:Hpick;
    destruct H1 as [-> H1]; [| done]. cbn. intros [= -> <- _]. subst s1. cbn.
  apply (candidates_labels (trie_fuel k) n k aw _ kv). clear -Hpick.
  revert st Hpick. induction (candidates _ _ _ _) as [| [tr' kv'] l IH]; intros st; [done |]. cbn.
  destruct (accept st kv') as [[] st1]; [intros [= <- <- _]; left | intros; right; by eapply IH].
Qed.

End Answers.

(** ** Sweeps *)

Section Sweep.
Context `{HR : RegexCrate} `{HRL : !RegexLaws} {V St : Type} (f : V -> St -> V * St).
Implicit Types n c : TrieNode V.

(** A subtree after some visit. *)
Definition swept (c c' : TrieNode V) : Prop := exists st, c' = (for_each_value_mut f c st).1.

Definition swept_children (ch ch' : gmap Key (TrieNode V)) : Prop :=
  forall k, match ch !! k with
            | Some c => exists c', ch' !! k = Some c' /\ swept c c'
            | None => ch' !! k = None
            end.

Definition swept_entry (kv kv' : option (KeyValue V)) : Prop :=
  match kv with
  | Some (k, v) => exists st, kv' = Some (k, (f v st).1)
  | None => kv' = None
  end.

Lemma visit_swept kv st : swept_entry kv (visit f kv st).1.
Proof. destruct kv as [[k v] |]; cbn; [| done]. exists st. by destruct (f v st). Qed.

Lemma for_each_node kv w ch rs st :
  exists kv' w' ch' rs', (for_each_value_mut f (mkTrieNode kv w ch rs) st).1 = mkTrieNode kv' w' ch' rs' /\
    swept_entry kv kv' /\ swept_entry w w' /\ swept_children ch ch' /\
    Forall2 (fun e e' => e'.1 = e.1 /\ swept e.2 e'.2) rs rs'.
Proof.
  cbn [for_each_value_mut]. pose proof (visit_swept kv st) as Hkv.
  destruct (visit f kv st) as [kv' st1]. pose proof (visit_swept w st1) as Hw.
  destruct (visit f w st1) as [w' st2].
  set (F := fun k child '(c, st) => let '(child, st) := for_each_value_mut f child st in
                                    (<[k := child]> c, st)).
  assert (Hch : swept_children ch (map_fold F (∅, st2) ch).1).
  { apply (map_fold_weak_ind (fun acc m => swept_children m acc.1)).
    - intros k. by rewrite lookup_empty.
    - intros k c m [acc sta] Hk IH k'. unfold F. destruct (for_each_value_mut f c sta) as [c' stb] eqn:E.
      cbn [fst] in *. destruct (decide (k' = k)) as [-> | Hne].
      + rewrite !lookup_insert_eq. exists c'. split; [done |]. exists sta. by rewrite E.
      + rewrite !lookup_insert_ne by done. apply IH. }
  destruct (map_fold F (∅, st2) ch) as [ch' st3]. cbn [fst] in Hch.
  set (G := fun '(r, st) '(re, child) => let '(child, st) := for_each_value_mut f child st in
                                         (r ++ [(re : Regex, child)], st)).
  assert (Hrs : forall l pre pre' st, Forall2 (fun e e' => e'.1 = e.1 /\ swept e.2 e'.2) pre pre' ->
    Forall2 (fun e e' => e'.1 = e.1 /\ swept e.2 e'.2) (pre ++ l) (foldl G (pre', st) l).1).
  { induction l as [| [re c] l IH]; intros pre pre' sta Hp; cbn; [by rewrite app_nil_r |].
    destruct (for_each_value_mut f c sta) as [c' stb] eqn:E.
    replace (pre ++ (re, c) :: l) with ((pre ++ [(re, c)]) ++ l) by (by rewrite <- app_assoc).
    apply IH, Forall2_app; [done |]. constructor; [| done]. split; [done |]. exists sta. cbn [snd]. by rewrite E. }
  specialize (Hrs rs [] [] st3 ltac:(done)). destruct (foldl G ([], st3) rs) as [rs' st4].
  exists kv', w', ch', rs'. done.
Qed.

Lemma swept_child n n' s :
  swept n n' ->
  match child n s with
  | Some c => exists c', child n' s = Some c' /\ swept c c'
  | None => child n' s = None
  end.
Proof.
  intros [st ->]. destruct n as [kv w ch rs].
  destruct (for_each_node kv w ch rs st) as (kv' & w' & ch' & rs' & -> & _ & _ & Hch & Hrs).
  destruct s as [k | a]; cbn [child children regexps]; [apply Hch |]. clear Hch.
  unfold find_regexp. induction Hrs as [| [r c] [r' c'] rs rs' [Heq Hs] Hrs IH]; [done |].
  cbn in Heq, Hs. subst r'. cbn. case_decide; cbn; [by exists c' |].
  destruct (list_find _ rs) as [[i e] |]; cbn in *.
  - destruct IH as (c1 & IH & ?). exists c1. by destruct (list_find _ rs') as [[i' e'] |].
  - by destruct (list_find _ rs') as [[i' e'] |].
Qed.

(** Every entry is kept at its address, its value visited. *)
Lemma swept_at n n' p slot : swept n n' -> swept_entry (at_path n p slot) (at_path n' p slot).
Proof.
  revert n n'. induction p as [| s p IH]; intros n n' Hs.
  - destruct Hs as [st ->]. destruct n as [kv w ch rs].
    destruct (for_each_node kv w ch rs st) as (kv' & w' & ch' & rs' & -> & ? & ? & _). by destruct slot.
  - cbn [at_path]. pose proof (swept_child n n' s Hs) as Hc. destruct (child n s) as [c |].
    + destruct Hc as (c' & -> & Hc). by apply IH.
    + by rewrite Hc.
Qed.

Lemma sum_children_swept (ch ch' : gmap Key (TrieNode V)) :
  swept_children ch ch' ->
  (forall k c c', ch !! k = Some c -> swept c c' -> count_values c' = count_values c) ->
  sum_children ch' = sum_children ch.
Proof.
  revert ch'. induction ch as [| k c ch Hk IH] using map_ind; intros ch' Hs Hc.
  - assert (ch' = ∅) as ->; [| done]. apply map_eq. intros k. specialize (Hs k).
    by rewrite lookup_empty in *.
  - rewrite sum_children_insert by done. pose proof (Hs k) as Hsk. rewrite lookup_insert_eq in Hsk.
    destruct Hsk as (c' & Hk' & Hsw). rewrite (sum_children_delete ch' k c') by done.
    rewrite (Hc k c c') by (done || apply lookup_insert_eq). f_equal. apply IH.
    + intros k'. destruct (decide (k' = k)) as [-> | Hne].
      * by rewrite Hk, lookup_delete_eq.
      * specialize (Hs k'). by rewrite lookup_insert_ne in Hs by done; rewrite lookup_delete_ne by done.
    + intros k' c0 c0' Hk0. apply (Hc k'). rewrite lookup_insert_ne; [done |]. congruence.
Qed.

Lemma sum_regexps_swept (rs rs' : list (Regex * TrieNode V)) :
  Forall2 (fun e e' => e'.1 = e.1 /\ swept e.2 e'.2) rs rs' ->
  (forall i e c', rs !! i = Some e -> swept e.2 c' -> count_values c' = count_values e.2) ->
  sum_regexps rs' = sum_regexps rs.
Proof.
  induction 1 as [| e e' rs rs' [_ Hs] _ IH]; intros Hc; [done |]. rewrite !sum_regexps_cons.
  rewrite (Hc 0%nat e (e'.2)) by done. f_equal. apply IH. intros i. apply (Hc (S i)).
Qed.

Lemma swept_leaf c c' : leaf c -> swept c c' -> leaf c'.
Proof.
  intros [kv ->] [st ->].
  destruct (for_each_node (Some kv) None ∅ [] st) as (kv' & w' & ch' & rs' & -> & Hkv & -> & Hch & Hrs).
  destruct kv as [k v], Hkv as [st1 ->].
  apply Forall2_nil_inv_l in Hrs as ->. assert (ch' = ∅) as ->.
  { apply map_eq. intros k'. specialize (Hch k'). by rewrite lookup_empty in *. }
  by eexists.
Qed.

Lemma wf_swept n n' : trie_wf n -> swept n n' -> trie_wf n' /\ count_values n' = count_values n.
Proof.
  revert n n'. fix IH 3. intros n n' Hn [st ->]. destruct Hn as [kv w ch rs Hch Hnd Hrs].
  assert (Hch' : forall k c c', ch !! k = Some c -> swept c c' ->
    trie_wf c' /\ count_values c' = count_values c).
  { intros k c c' Hc. destruct (Hch k c Hc) as (_ & _ & _ & _ & Hw). by apply IH. }
  assert (Hrs' : forall i e c', rs !! i = Some e -> swept e.2 c' ->
    trie_wf c' /\ count_values c' = count_values e.2).
  { intros i e c' He. destruct (Hrs i e He) as (_ & _ & Hw). by apply IH. }
  clear IH. destruct (for_each_node kv w ch rs st) as (kv' & w' & ch' & rs' & -> & Hkv & Hw & Hc & Hr).
  split.
  - constructor.
    + intros k c' Hk'. specialize (Hc k). destruct (ch !! k) as [c |] eqn:Hk; [| congruence].
      destruct Hc as (c1 & Hc1 & Hs). replace c1 with c' in * by congruence.
      destruct (Hch k c Hk) as (? & ? & Hl & ? & _). destruct (Hch' k c c' Hk Hs) as [? ->].
      repeat split; try done. intros Hd. eapply swept_leaf; [by apply Hl | done].
    + replace (as_str <$> rs'.*1) with (as_str <$> rs.*1); [done |]. clear -Hr. f_equal.
      induction Hr as [| e e' rs rs' [He _] _ IH]; [done |]. cbn. by rewrite He, IH.
    + intros i e' Hi. destruct (Forall2_lookup_r _ _ _ _ _ Hr Hi) as (e & He & Hfst & Hs).
      destruct (Hrs i e He) as (? & ? & _). destruct (Hrs' i e e'.2 He Hs) as [? ->].
      by rewrite Hfst.
  - rewrite !count_values_node. f_equal; [f_equal; [f_equal |] |].
    + destruct kv as [[k v] |]; [by destruct Hkv as [? ->] | by rewrite Hkv].
    + destruct w as [[k v] |]; [by destruct Hw as [? ->] | by rewrite Hw].
    + apply sum_children_swept; [done |]. intros. by eapply Hch'.
    + apply sum_regexps_swept; [done |]. intros. by eapply Hrs'.
Qed.

End Sweep.

(** ** Examples *)

#[local] Existing Instance simple_regex.
#[local] Existing Instance simple_regex_laws.

Definition example_ops : list (trie_op (V := Z)) :=
  [OpInsert (bstr "www.example.com") 1; OpInsert (bstr "*.example.com") 2;
   OpInsert (bstr "foo./cdn./.example.com") 3; OpInsert (bstr "/cdn./.example.com") 4;
   OpInsert (bstr "www.example.com") 5; OpInsert (bstr ".example.com") 6;
   OpRemove (bstr "foo./cdn./.example.com")].

Lemma trie_refines_map_witness :
  Forall op_ok example_ops /\
  exists n, trie_run root example_ops = Val (n, (map_run ∅ example_ops).2) /\
            trie_refines n (map_run ∅ example_ops).1.
Proof.
  split; [repeat constructor | apply (trie_refines_map example_ops); repeat constructor].
Defined.

(** The trie of the examples. *)
Definition example_trie : TrieNode Z :=
  match trie_run root example_ops with Val (n, _) => n | _ => root end.

Lemma example_trie_wf : trie_wf example_trie.
Proof.
  destruct (trie_run_refines root ∅ example_ops trie_refines_root) as (n & E & Hn & _);
    [repeat constructor |]. unfold example_trie. by rewrite E.
Qed.

Lemma insert_refusal_witness :
  exists n' r, insert example_trie (bstr "abc/cdn/.example.com") 7 = Val (n', r) /\
    (r = InsertFailed <-> hostname_ok (bstr "abc/cdn/.example.com") = false) /\
    (r = InsertExisting <-> hostname_ok (bstr "abc/cdn/.example.com") = true /\
       entry example_trie (bstr "abc/cdn/.example.com") <> Val None) /\
    (r <> InsertOk -> n' = example_trie).
Proof. exact (insert_refusal example_trie (bstr "abc/cdn/.example.com") 7 example_trie_wf). Defined.

(** The example trie with one more host. *)
Definition example_trie' : TrieNode Z :=
  match insert example_trie (bstr "/a./.b.org") 7 with Val (n, _) => n | _ => root end.

Lemma remove_after_insert_witness : remove example_trie' (bstr "/a./.b.org") = Val (example_trie, RemoveOk).
Proof.
  apply (remove_after_insert example_trie (bstr "/a./.b.org") 7 example_trie' example_trie_wf).
  vm_compute. reflexivity.
Defined.

Lemma literal_host_wins_witness :
  domain_lookup example_trie (bstr "www.example.com") true = Val (Some (bstr "www.example.com", 1)).
Proof.
  apply (literal_host_wins example_trie (bstr "www.example.com") (bstr "www.example.com", 1) true).
  - eexists. split; [vm_compute; reflexivity |]. repeat constructor; eexists; reflexivity.
  - vm_compute. reflexivity.
Defined.

Lemma wildcard_one_label_witness :
  Forall (fun m => DOT ∉ sub_segment m) [SubWildcard (bstr "cdn")] /\
  forall seg, SubWildcard seg ∈ [SubWildcard (bstr "cdn")] ->
    true = true /\ last [SubWildcard (bstr "cdn")] = Some (SubWildcard seg).
Proof.
  apply (wildcard_one_label (fun (_ : unit) _ => (true, tt)) example_trie (bstr "cdn.example.com")
    true tt (bstr "*.example.com", 2) _ tt). vm_compute. reflexivity.
Defined.

(** The regex segment answers before the wildcard, with the label it matched. *)
Example regex_before_wildcard :
  lookup_with_path example_trie (bstr "CDN1.example.com") true [] (fun (_ : unit) _ => (true, tt)) tt =
  Val (Some ((bstr "/cdn./.example.com", 4), [SubRegexp (bstr "CDN1") (anchor (bstr "cdn."))]), tt).
Proof. vm_compute. reflexivity. Qed.

(** A hostname with a leading dot before a regex segment, which [insert]
    refuses, addresses the entry of the hostname without the dot. *)
Example leading_dot_alias :
  hostname_ok (bstr "./cdn./.example.com") = false /\
  entry example_trie (bstr "./cdn./.example.com") = Val (Some (bstr "/cdn./.example.com", 4)) /\
  ('(n, r) ← remove example_trie (bstr "./cdn./.example.com");
   e ← entry n (bstr "/cdn./.example.com"); Val (r, e)) = Val (RemoveOk, None).
Proof. split; [done |]. split; vm_compute; reflexivity. Qed.
