(* ===== verification/TcpPreread.v ===== *)
(** * The ClientHello parser of the TCP pre-read

    [lib/src/protocol/tcp_preread/parser.rs]: the TLS records that carry the
    ClientHello, its reassembly, and the server name, the ALPN offer and the
    presence of an encrypted ClientHello in its extensions.  The framing uses
    nom's streaming parsers ([NomStreaming]), the body the complete ones
    ([Nom]).  [Cow] is the octets it holds; a name is the octets of its
    string. *)

From S2P Require Import Prelude H2Parser Readiness ProxyProtocol PatternTrie.

Definition TLS_CONTENT_TYPE_HANDSHAKE : Z := 22.
Definition TLS_HANDSHAKE_TYPE_CLIENT_HELLO : Z := 1.
Definition MAX_TLS_RECORD_LEN : Z := 16384.
Definition EXT_SERVER_NAME : Z := 0x0000.
Definition EXT_ALPN : Z := 0x0010.
Definition EXT_ENCRYPTED_CLIENT_HELLO : Z := 0xfe0d.

Inductive RejectReason :=
| NotTls | MalformedRecord | MalformedHandshake | Fragmented | TooLarge | NoSni | EchOuterAbsent
| SniUnmatched | AlpnUnmatched | ProxyHeaderInvalid | FrontClosed.

Global Instance RejectReason_eq_dec : EqDecision RejectReason.
Proof. solve_decision. Defined.

Inductive ParseOutcome :=
| ParseNeedMore
| ParseReject (reason : RejectReason)
| ParseClientHello (sni : option (list Z)) (alpn : list (list Z)) (ech_present : bool).

Record RecordHeader := mkRecordHeader { content_type : Z; record_length : Z }.

Section Parser.
Context `{HS : NomStreaming} `{HN : Nom}.

Definition record_header (i : list Z) : outcome (stream_error NomError) (list Z * RecordHeader) :=
  let in_len := length i in
  '(i, content_type) ← lift_stream (stream_be_u8 i);
  '(i, _) ← lift_stream (stream_be_u16 i);
  '(i, len) ← lift_stream (stream_be_u16 i);
  _ ← debug_assert (length i <=? in_len)%nat;
  _ ← debug_assert (in_len - length i =? 5)%nat;
  Val (i, mkRecordHeader content_type len).

Definition take_record_content (i : list Z) (len : Z) : outcome (stream_error NomError) (list Z * list Z) :=
  lift_stream (stream_take len i).

Definition append_fragment (acc fragment : list Z) : list Z := acc ++ fragment.

(** A complete parser of the body, [malformed] for any error. *)
Definition complete {A} (r : res ErrorKind (list Z * A)) : outcome RejectReason (list Z * A) :=
  match r with Ok x => Val x | Err _ => Fails MalformedHandshake end.

Abbreviation ClientHelloFields := (option (list Z) * list (list Z) * bool)%type.

(** The entries of a [server_name_list]: the [while] loop. *)
Fixpoint server_name_loop (fuel : nat) (entries : list Z) (host_name : option (list Z))
    (host_name_entries : Z) : outcome RejectReason (list Z * option (list Z) * Z) :=
  match fuel with
  | O => Panic
  | S fuel =>
      match entries with
      | [] => Val (entries, host_name, host_name_entries)
      | _ =>
          '(i, name_type) ← complete (nom_be_u8 entries);
          '(i, name_len) ← complete (nom_be_u16 i);
          '(i, name) ← complete (nom_take name_len i);
          if name_type =? 0 then
            let host_name_entries := host_name_entries + 1 in
            if 1 <? host_name_entries then Fails MalformedHandshake
            else server_name_loop fuel i (Some name) host_name_entries
          else server_name_loop fuel i host_name host_name_entries
      end
  end.

Definition parse_server_name_extension (data : list Z) : outcome RejectReason (option (list Z)) :=
  match data with
  | [] => Val None
  | _ =>
      '(i, list_len) ← complete (nom_be_u16 data);
      '(_, entries) ← complete (nom_take list_len i);
      '(entries, host_name, host_name_entries) ← server_name_loop (S (length entries)) entries None 0;
      _ ← debug_assert (bool_decide (entries = []));
      _ ← debug_assert (host_name_entries <=? 1);
      match host_name with
      | Some name => if utf8_valid name then Val (Some name) else Fails MalformedHandshake
      | None => Val None
      end
  end.

Fixpoint alpn_loop (fuel : nat) (entries : list Z) (protocols : list (list Z)) :
    outcome RejectReason (list Z * list (list Z)) :=
  match fuel with
  | O => Panic
  | S fuel =>
      match entries with
      | [] => Val (entries, protocols)
      | _ =>
          '(i, name_len) ← complete (nom_be_u8 entries);
          if name_len =? 0 then Fails MalformedHandshake else
          '(i, name) ← complete (nom_take name_len i);
          alpn_loop fuel i (protocols ++ [name])
      end
  end.

Definition parse_alpn_extension (data : list Z) : outcome RejectReason (list (list Z)) :=
  '(i, list_len) ← complete (nom_be_u16 data);
  '(_, entries) ← complete (nom_take list_len i);
  '(entries, protocols) ← alpn_loop (S (length entries)) entries [];
  match protocols with
  | [] => Fails MalformedHandshake
  | _ =>
      _ ← debug_assert (Z.of_nat (length protocols) <=? list_len / 2);
      _ ← debug_assert (bool_decide (entries = []));
      Val protocols
  end.

(** The locals of [parse_extensions]. *)
Record ExtensionState := mkExtensionState {
  es_sni : option (list Z);
  es_alpn : list (list Z);
  es_ech_present : bool;
  es_seen_sni : bool;
  es_seen_alpn : bool;
}.

Definition extension_arm (st : ExtensionState) (ext_type : Z) (data : list Z) :
    outcome RejectReason ExtensionState :=
  let '(mkExtensionState sni alpn ech_present seen_sni seen_alpn) := st in
  if ext_type =? EXT_SERVER_NAME then
    if seen_sni then Fails MalformedHandshake else
    sni ← parse_server_name_extension data;
    Val (mkExtensionState sni alpn ech_present true seen_alpn)
  else if ext_type =? EXT_ALPN then
    if seen_alpn then Fails MalformedHandshake else
    alpn ← parse_alpn_extension data;
    Val (mkExtensionState sni alpn ech_present seen_sni true)
  else if ext_type =? EXT_ENCRYPTED_CLIENT_HELLO then
    Val (mkExtensionState sni alpn true seen_sni seen_alpn)
  else Val st.

Fixpoint extensions_loop (fuel : nat) (ext_block : list Z) (st : ExtensionState) :
    outcome RejectReason ExtensionState :=
  match fuel with
  | O => Panic
  | S fuel =>
      match ext_block with
      | [] => Val st
      | _ =>
          let in_len := length ext_block in
          '(i, ext_type) ← complete (nom_be_u16 ext_block);
          '(i, ext_len) ← complete (nom_be_u16 i);
          '(i, data) ← complete (nom_take ext_len i);
          _ ← debug_assert (Z.of_nat in_len - Z.of_nat (length i) =? 4 + ext_len);
          st ← extension_arm st ext_type data;
          extensions_loop fuel i st
      end
  end.

Definition parse_extensions (ext_block : list Z) : outcome RejectReason ClientHelloFields :=
  st ← extensions_loop (S (length ext_block)) ext_block (mkExtensionState None [] false false false);
  let '(mkExtensionState sni alpn ech_present seen_sni seen_alpn) := st in
  _ ← debug_assert (seen_sni || is_none sni);
  _ ← debug_assert (seen_alpn || bool_decide (alpn = []));
  Val (sni, alpn, ech_present).

Definition parse_client_hello_fields (body : list Z) : outcome RejectReason ClientHelloFields :=
  let in_len := length body in
  '(i, _) ← complete (nom_be_u16 body);
  '(i, _) ← complete (nom_take 32 i);
  '(i, session_id_len) ← complete (nom_be_u8 i);
  '(i, _) ← complete (nom_take session_id_len i);
  '(i, cipher_suites_len) ← complete (nom_be_u16 i);
  '(i, _) ← complete (nom_take cipher_suites_len i);
  '(i, compression_len) ← complete (nom_be_u8 i);
  '(i, _) ← complete (nom_take compression_len i);
  _ ← debug_assert (length i <=? in_len)%nat;
  _ ← debug_assert (2 + 32 + 1 + 1 + 2 <=? in_len - length i)%nat;
  match i with
  | [] => Val (None, [], false)
  | _ =>
      '(i, ext_total_len) ← complete (nom_be_u16 i);
      '(_, ext_block) ← complete (nom_take ext_total_len i);
      parse_extensions ext_block
  end.

Definition parse_client_hello_body (body : list Z) : checked ParseOutcome :=
  match parse_client_hello_fields body with
  | Val (sni, alpn, ech_present) => Val (ParseClientHello sni alpn ech_present)
  | Fails reason => Val (ParseReject reason)
  | Panic => Panic
  end.

(** What a streaming parser of the framing gives: [k], [NeedMore] or a
    rejection. *)
Definition framing {A} (r : outcome (stream_error NomError) A) (k : A -> checked ParseOutcome) :
    checked ParseOutcome :=
  match r with
  | Val a => k a
  | Fails Incomplete => Val ParseNeedMore
  | Fails (Error _) => Val (ParseReject MalformedRecord)
  | Panic => Panic
  end.

(** What is done once a record was added to [handshake]: the message type is
    checked once, and a complete message decoded; [None] reads another record. *)
Definition handshake_step (handshake : list Z) (msg_type_checked : bool) :
    checked (ParseOutcome + bool) :=
  let check :=
    if msg_type_checked then inr true else
    match handshake with
    | [] => inr false
    | msg_type :: _ =>
        if negb (msg_type =? TLS_HANDSHAKE_TYPE_CLIENT_HELLO) then inl (ParseReject MalformedHandshake)
        else inr true
    end in
  match check with
  | inl o => Val (inl o)
  | inr msg_type_checked =>
      if (4 <=? length handshake)%nat then
        b1 ← index handshake 1;
        b2 ← index handshake 2;
        b3 ← index handshake 3;
        let hs_len := Z.to_nat (be_value [0; b1; b2; b3]) in
        if (4 + hs_len <=? length handshake)%nat then
          o ← parse_client_hello_body (take hs_len (drop 4 handshake));
          Val (inl o)
        else Val (inr msg_type_checked)
      else Val (inr msg_type_checked)
  end.

Fixpoint record_loop (fuel : nat) (buf : list Z) (pos : nat) (handshake : list Z) (records_seen : Z)
    (msg_type_checked : bool) : checked ParseOutcome :=
  match fuel with
  | O => Panic
  | S fuel =>
      _ ← debug_assert (pos <=? length buf)%nat;
      let remaining := drop pos buf in
      framing (record_header remaining) (fun '(after_header, header) =>
      records_seen ← u32_incr records_seen;
      if negb (content_type header =? TLS_CONTENT_TYPE_HANDSHAKE) then
        let reason := if records_seen =? 1 then NotTls else MalformedRecord in
        _ ← debug_assert (eqb (bool_decide (reason = NotTls)) (records_seen =? 1));
        Val (ParseReject reason)
      else if MAX_TLS_RECORD_LEN <? record_length header then Val (ParseReject MalformedRecord) else
      framing (take_record_content after_header (record_length header)) (fun '(after_content, content) =>
      _ ← debug_assert (length after_content <=? length buf)%nat;
      let consumed_so_far := (length buf - length after_content)%nat in
      _ ← debug_assert (consumed_so_far <=? length buf)%nat;
      _ ← debug_assert (pos <? consumed_so_far)%nat;
      let pos := consumed_so_far in
      let handshake := append_fragment handshake content in
      next ← handshake_step handshake msg_type_checked;
      match next with
      | inl o => Val o
      | inr msg_type_checked => record_loop fuel buf pos handshake records_seen msg_type_checked
      end))
  end.

(** Every record consumes its five octets of header, so the length of the
    buffer is enough fuel. *)
Definition parse_client_hello (buf : list Z) : checked ParseOutcome :=
  record_loop (S (length buf)) buf 0 [] 0 false.

End Parser.

(** ** What the primitives give *)

Section Primitives.
Context `{HS : NomStreaming} `{HSL : !NomStreamingLaws} `{HN : Nom} `{HNL : !NomLaws}.

Lemma be_value_nonneg l : bytes_ok l -> 0 <= be_value l.
Proof. intros Hl. by apply be_value_bound. Qed.

Lemma complete_number n p i :
  number_law n p ->
  complete (p i) = if (n <=? length i)%nat then Val (drop n i, be_value (take n i)) else Fails MalformedHandshake.
Proof.
  intros Hp. destruct (Hp i) as [H1 H2]. destruct (Nat.leb_spec n (length i)) as [Hle | Hlt].
  - by rewrite H1.
  - destruct (H2 Hlt) as [k ->]. done.
Qed.

Lemma complete_u8 i :
  complete (nom_be_u8 i) =
  if (1 <=? length i)%nat then Val (drop 1 i, be_value (take 1 i)) else Fails MalformedHandshake.
Proof. apply complete_number, law_be_u8. Qed.

Lemma complete_u16 i :
  complete (nom_be_u16 i) =
  if (2 <=? length i)%nat then Val (drop 2 i, be_value (take 2 i)) else Fails MalformedHandshake.
Proof. apply complete_number, law_be_u16. Qed.

Lemma complete_take n i :
  0 <= n ->
  complete (nom_take n i) =
  if (Z.to_nat n <=? length i)%nat then Val (drop (Z.to_nat n) i, take (Z.to_nat n) i) else Fails MalformedHandshake.
Proof.
  intros Hn. destruct (Nat.leb_spec (Z.to_nat n) (length i)).
  - by rewrite law_take_enough by lia.
  - destruct (law_take_short n i) as [k ->]; [lia | done].
Qed.

Lemma record_header_eq i :
  record_header i =
  if (5 <=? length i)%nat
  then Val (drop 5 i, mkRecordHeader (be_value (take 1 i)) (be_value (take 2 (drop 3 i))))
  else Fails Incomplete.
Proof.
  unfold record_header. rewrite (law_stream_be_u8 i). destruct (Nat.leb_spec 1 (length i)) as [H1 | H1].
  2: { by rewrite (proj2 (Nat.leb_gt _ _)) by lia. }
  cbn [lift_stream mbind outcome_bind]. rewrite (law_stream_be_u16 (drop 1 i)), length_drop.
  destruct (Nat.leb_spec 2 (length i - 1)) as [H2 | H2].
  2: { by rewrite (proj2 (Nat.leb_gt _ _)) by lia. }
  cbn [lift_stream mbind outcome_bind]. rewrite drop_drop, (law_stream_be_u16 (drop (1 + 2) i)), length_drop.
  destruct (Nat.leb_spec 2 (length i - (1 + 2))) as [H3 | H3].
  2: { by rewrite (proj2 (Nat.leb_gt _ _)) by lia. }
  cbn [lift_stream mbind outcome_bind]. rewrite drop_drop, length_drop.
  rewrite (proj2 (Nat.leb_le 5 _)) by lia.
  run_assert by (apply Nat.leb_le; lia). by run_assert by (apply Nat.eqb_eq; lia).
Qed.

Lemma take_content_eq i n :
  0 <= n ->
  take_record_content i n =
  if (Z.to_nat n <=? length i)%nat then Val (drop (Z.to_nat n) i, take (Z.to_nat n) i) else Fails Incomplete.
Proof.
  intros Hn. unfold take_record_content. rewrite law_stream_take by done.
  destruct (Z.leb_spec n (Z.of_nat (length i))).
  - by rewrite (proj2 (Nat.leb_le _ _)) by lia.
  - by rewrite (proj2 (Nat.leb_gt _ _)) by lia.
Qed.

(** ** No input panics *)

Definition rejects (r : RejectReason) : Prop := r = MalformedHandshake.

Lemma server_name_loop_safe fuel entries host n :
  bytes_ok entries -> (length entries < fuel)%nat -> 0 <= n <= 1 ->
  match server_name_loop fuel entries host n with
  | Val (rest, _, n') => rest = [] /\ n' <= 1
  | Fails r => rejects r
  | Panic => False
  end.
Proof.
  revert entries host n. induction fuel as [| fuel IH]; intros entries host n Hb Hf Hn; [lia |].
  cbn [server_name_loop]. destruct entries as [| b entries]; [by split; [| lia] |].
  remember (b :: entries) as e eqn:He. assert (Hl : (0 < length e)%nat) by (subst e; cbn; lia). clear He.
  rewrite complete_u8. destruct (Nat.leb_spec 1 (length e)); [| done]. cbn [mbind outcome_bind].
  rewrite complete_u16. destruct (_ <=? _)%nat; [| done]. cbn [mbind outcome_bind].
  rewrite complete_take by (apply be_value_nonneg, bytes_ok_take, bytes_ok_drop, Hb).
  destruct (_ <=? _)%nat; [| done]. cbn [mbind outcome_bind].
  assert (Hb' : forall k, bytes_ok (drop k (drop 2 (drop 1 e)))) by (intros; by apply bytes_ok_drop, bytes_ok_drop, bytes_ok_drop).
  assert (Hl' : forall k, (length (drop k (drop 2 (drop 1 e))) < fuel)%nat) by (intros; rewrite !length_drop; lia).
  destruct (_ =? 0).
  - destruct (Z.ltb_spec 1 (n + 1)); [done |]. apply IH; [apply Hb' | apply Hl' | lia].
  - apply IH; [apply Hb' | apply Hl' | lia].
Qed.

Lemma parse_server_name_safe data :
  bytes_ok data ->
  match parse_server_name_extension data with Val _ => True | Fails r => rejects r | Panic => False end.
Proof.
  intros Hb. unfold parse_server_name_extension. destruct data as [| b data]; [done |].
  remember (b :: data) as d eqn:Hd. clear Hd. rewrite complete_u16. destruct (_ <=? _)%nat; [| done].
  cbn [mbind outcome_bind]. rewrite complete_take by (by apply be_value_nonneg, bytes_ok_take).
  destruct (_ <=? _)%nat; [| done]. cbn [mbind outcome_bind]. set (entries := take _ (drop 2 d)).
  pose proof (server_name_loop_safe (S (length entries)) entries None 0) as Hl.
  destruct (server_name_loop _ entries None 0) as [[[rest host] n] | r |].
  - destruct Hl as [-> Hn]; [by apply bytes_ok_take, bytes_ok_drop | lia | lia |]. cbn [mbind outcome_bind].
    rewrite (debug_assert_true (n <=? 1)) by (by apply Z.leb_le). cbn.
    destruct host as [name |]; [| done]. by destruct (utf8_valid name).
  - apply Hl; [by apply bytes_ok_take, bytes_ok_drop | lia | lia].
  - apply Hl; [by apply bytes_ok_take, bytes_ok_drop | lia | lia].
Qed.

Lemma alpn_loop_safe fuel entries ps :
  bytes_ok entries -> (length entries < fuel)%nat ->
  match alpn_loop fuel entries ps with
  | Val (rest, ps') => rest = [] /\ (2 * length ps' <= 2 * length ps + length entries)%nat
  | Fails r => rejects r
  | Panic => False
  end.
Proof.
  revert entries ps. induction fuel as [| fuel IH]; intros entries ps Hb Hf; [lia |].
  cbn [alpn_loop]. destruct entries as [| b entries]; [by split; [| cbn; lia] |].
  remember (b :: entries) as e eqn:He. assert (Hl : (0 < length e)%nat) by (subst e; cbn; lia). clear He.
  rewrite complete_u8. destruct (Nat.leb_spec 1 (length e)); [| done]. cbn [mbind outcome_bind].
  destruct (Z.eqb_spec (be_value (take 1 e)) 0) as [| Hne]; [done |].
  assert (Hv : 0 <= be_value (take 1 e)) by (by apply be_value_nonneg, bytes_ok_take).
  rewrite complete_take by done.
  destruct (Nat.leb_spec (Z.to_nat (be_value (take 1 e))) (length (drop 1 e))) as [Hle |]; [| done].
  cbn [mbind outcome_bind]. set (k := Z.to_nat _) in *. rewrite length_drop in Hle.
  specialize (IH (drop k (drop 1 e)) (ps ++ [take k (drop 1 e)])).
  destruct (alpn_loop _ _ _) as [[rest ps'] | r |].
  - destruct IH as [-> IH]; [by apply bytes_ok_drop, bytes_ok_drop | rewrite !length_drop; lia |].
    split; [done |]. rewrite length_app, !length_drop in IH. cbn in IH. lia.
  - apply IH; [by apply bytes_ok_drop, bytes_ok_drop | rewrite !length_drop; lia].
  - apply IH; [by apply bytes_ok_drop, bytes_ok_drop | rewrite !length_drop; lia].
Qed.

Lemma parse_alpn_safe data :
  bytes_ok data ->
  match parse_alpn_extension data with Val _ => True | Fails r => rejects r | Panic => False end.
Proof.
  intros Hb. unfold parse_alpn_extension. rewrite complete_u16. destruct (_ <=? _)%nat; [| done].
  cbn [mbind outcome_bind]. set (n := be_value _).
  assert (Hn : 0 <= n) by (by apply be_value_nonneg, bytes_ok_take). rewrite complete_take by done.
  destruct (Nat.leb_spec (Z.to_nat n) (length (drop 2 data))); [| done]. cbn [mbind outcome_bind].
  set (entries := take _ (drop 2 data)).
  assert (He : length entries = Z.to_nat n) by (subst entries; rewrite length_take; lia).
  pose proof (alpn_loop_safe (S (length entries)) entries []) as Hl.
  destruct (alpn_loop _ entries []) as [[rest ps] | r |].
  - destruct Hl as [-> Hp]; [by apply bytes_ok_take, bytes_ok_drop | lia |]. cbn [mbind outcome_bind].
    destruct ps as [| p ps]; [done |].
    rewrite (debug_assert_true (_ <=? n / 2)); [done |]. apply Z.leb_le, Z.div_le_lower_bound; [lia |].
    cbn [length] in *. lia.
  - apply Hl; [by apply bytes_ok_take, bytes_ok_drop | lia].
  - apply Hl; [by apply bytes_ok_take, bytes_ok_drop | lia].
Qed.

Definition flags_ok (st : ExtensionState) : Prop :=
  (es_seen_sni st || is_none (es_sni st)) = true /\ (es_seen_alpn st || bool_decide (es_alpn st = [])) = true.

Lemma extension_arm_safe st t data :
  bytes_ok data -> flags_ok st ->
  match extension_arm st t data with Val st' => flags_ok st' | Fails r => rejects r | Panic => False end.
Proof.
  intros Hb [H1 H2]. destruct st as [sni alpn ech seen_sni seen_alpn]. unfold extension_arm. cbn in *.
  destruct (_ =? _).
  - destruct seen_sni; [done |]. pose proof (parse_server_name_safe data Hb) as Hp.
    destruct (parse_server_name_extension data); [by split | done | done].
  - destruct (_ =? _).
    + destruct seen_alpn; [done |]. pose proof (parse_alpn_safe data Hb) as Hp.
      destruct (parse_alpn_extension data); [by split | done | done].
    + destruct (_ =? _); by split.
Qed.

Lemma extensions_loop_safe fuel block st :
  bytes_ok block -> (length block < fuel)%nat -> flags_ok st ->
  match extensions_loop fuel block st with Val st' => flags_ok st' | Fails r => rejects r | Panic => False end.
Proof.
  revert block st. induction fuel as [| fuel IH]; intros block st Hb Hf Hs; [lia |].
  cbn [extensions_loop]. destruct block as [| b block]; [done |].
  remember (b :: block) as e eqn:He. clear He.
  rewrite complete_u16. destruct (Nat.leb_spec 2 (length e)); [| done]. cbn [mbind outcome_bind].
  rewrite complete_u16, length_drop. destruct (Nat.leb_spec 2 (length e - 2)); [| done]. cbn [mbind outcome_bind].
  rewrite drop_drop. set (n := be_value (take 2 (drop 2 e))).
  assert (Hn : 0 <= n) by (by apply be_value_nonneg, bytes_ok_take, bytes_ok_drop).
  rewrite complete_take by done. rewrite length_drop.
  destruct (Nat.leb_spec (Z.to_nat n) (length e - (2 + 2))); [| done]. cbn [mbind outcome_bind].
  rewrite (debug_assert_true (_ =? 4 + n)) by (rewrite !length_drop; apply Z.eqb_eq; lia). cbn [mbind outcome_bind].
  pose proof (extension_arm_safe st (be_value (take 2 e)) (take (Z.to_nat n) (drop (2 + 2) e))) as Ha.
  destruct (extension_arm _ _ _) as [st' | r |].
  - cbn [mbind outcome_bind]. apply IH; [by apply bytes_ok_drop, bytes_ok_drop | rewrite !length_drop; lia |].
    apply Ha; [by apply bytes_ok_take, bytes_ok_drop | done].
  - apply Ha; [by apply bytes_ok_take, bytes_ok_drop | done].
  - apply Ha; [by apply bytes_ok_take, bytes_ok_drop | done].
Qed.

Lemma parse_extensions_safe block :
  bytes_ok block -> match parse_extensions block with Val _ => True | Fails r => rejects r | Panic => False end.
Proof.
  intros Hb. unfold parse_extensions.
  pose proof (extensions_loop_safe (S (length block)) block (mkExtensionState None [] false false false) Hb
    ltac:(lia) ltac:(by split)) as Hl.
  destruct (extensions_loop _ _ _) as [[sni alpn ech ss sa] | r |]; [| done | done].
  destruct Hl as [H1 H2]. cbn in *. by rewrite H1, H2.
Qed.

(** One step of the body fails, or leaves less. *)
Lemma u8_step i :
  bytes_ok i -> complete (nom_be_u8 i) = Fails MalformedHandshake \/
  exists i' v, complete (nom_be_u8 i) = Val (i', v) /\ bytes_ok i' /\ 0 <= v /\ length i = (1 + length i')%nat.
Proof.
  intros Hb. rewrite complete_u8. destruct (Nat.leb_spec 1 (length i)); [right | by left].
  eexists _, _. split; [done |]. split; [by apply bytes_ok_drop |].
  split; [by apply be_value_nonneg, bytes_ok_take | rewrite length_drop; lia].
Qed.

Lemma u16_step i :
  bytes_ok i -> complete (nom_be_u16 i) = Fails MalformedHandshake \/
  exists i' v, complete (nom_be_u16 i) = Val (i', v) /\ bytes_ok i' /\ 0 <= v /\ length i = (2 + length i')%nat.
Proof.
  intros Hb. rewrite complete_u16. destruct (Nat.leb_spec 2 (length i)); [right | by left].
  eexists _, _. split; [done |]. split; [by apply bytes_ok_drop |].
  split; [by apply be_value_nonneg, bytes_ok_take | rewrite length_drop; lia].
Qed.

Lemma take_step n i :
  0 <= n -> bytes_ok i -> complete (nom_take n i) = Fails MalformedHandshake \/
  exists i' x, complete (nom_take n i) = Val (i', x) /\ bytes_ok i' /\ bytes_ok x /\
    length i = (Z.to_nat n + length i')%nat.
Proof.
  intros Hn Hb. rewrite complete_take by done. destruct (Nat.leb_spec (Z.to_nat n) (length i)); [right | by left].
  eexists _, _. split; [done |]. split; [by apply bytes_ok_drop |].
  split; [by apply bytes_ok_take | rewrite length_drop; lia].
Qed.

Ltac body_step :=
  match goal with
  | |- context [complete (nom_be_u8 ?i)] => destruct (u8_step i) as [-> | (? & ? & -> & ? & ? & ?)]; [done | done |]
  | |- context [complete (nom_be_u16 ?i)] => destruct (u16_step i) as [-> | (? & ? & -> & ? & ? & ?)]; [done | done |]
  | |- context [complete (nom_take ?n ?i)] =>
      destruct (take_step n i) as [-> | (? & ? & -> & ? & ? & ?)]; [lia | done | done |]
  end; cbn [mbind outcome_bind].

Lemma parse_fields_safe body :
  bytes_ok body ->
  match parse_client_hello_fields body with Val _ => True | Fails r => rejects r | Panic => False end.
Proof.
  intros Hb. unfold parse_client_hello_fields. do 8 body_step.
  match goal with |- context [(length ?i <=? length body)%nat] => rename i into rest end.
  rewrite (debug_assert_true (length rest <=? length body)%nat) by (apply Nat.leb_le; lia).
  cbn [mbind outcome_bind]. rewrite debug_assert_true by (apply Nat.leb_le; lia). cbn [mbind outcome_bind].
  destruct rest as [| c rest]; [done |]. do 2 body_step. by apply parse_extensions_safe.
Qed.

Lemma parse_body_Val body :
  bytes_ok body -> exists o, parse_client_hello_body body = Val o /\ o <> ParseNeedMore.
Proof.
  intros Hb. pose proof (parse_fields_safe body Hb) as Hs. unfold parse_client_hello_body.
  destruct (parse_client_hello_fields body) as [[[sni alpn] ech] | r |]; [| | done]; eexists; by split.
Qed.

Lemma handshake_step_Val handshake c :
  bytes_ok handshake ->
  (exists o, handshake_step handshake c = Val (inl o) /\ o <> ParseNeedMore) \/
  (exists c', handshake_step handshake c = Val (inr c')).
Proof.
  intros Hb. unfold handshake_step.
  match goal with |- context [match ?check with inl _ => _ | inr _ => _ end] => set (ck := check) end.
  assert (Hck : match ck with inl o => o <> ParseNeedMore | inr _ => True end).
  { subst ck. destruct c; [done |]. destruct handshake as [| m h]; [done |]. by destruct (negb _). }
  destruct ck as [o | c']; [left; by exists o |].
  destruct (Nat.leb_spec 4 (length handshake)) as [Hl |]; [| right; by eexists].
  destruct handshake as [| b0 [| b1 [| b2 [| b3 h]]]]; cbn in Hl; try lia.
  rewrite (index_Some _ 1 b1), (index_Some _ 2 b2), (index_Some _ 3 b3) by done. cbn [mbind outcome_bind].
  destruct (_ <=? _)%nat; [| right; by eexists].
  destruct (parse_body_Val (take (Z.to_nat (be_value [0; b1; b2; b3])) (drop 4 (b0 :: b1 :: b2 :: b3 :: h))))
    as (o & Ho & Hne); [by apply bytes_ok_take, bytes_ok_drop |].
  left. exists o. split; [| done]. by rewrite Ho.
Qed.

(** ** The record walk *)

(** What the first record of [i] is: missing octets, a rejection, or its
    content; [first] for the first record of the connection. *)
Definition record_at (first : bool) (i : list Z) : ParseOutcome + list Z :=
  if (length i <? 5)%nat then inl ParseNeedMore else
  let len := be_value (take 2 (drop 3 i)) in
  if negb (be_value (take 1 i) =? TLS_CONTENT_TYPE_HANDSHAKE)
  then inl (ParseReject (if first then NotTls else MalformedRecord))
  else if MAX_TLS_RECORD_LEN <? len then inl (ParseReject MalformedRecord)
  else if (length i - 5 <? Z.to_nat len)%nat then inl ParseNeedMore
  else inr (take (Z.to_nat len) (drop 5 i)).

Lemma record_loop_eq fuel buf pos handshake seen c :
  bytes_ok buf -> (pos <= length buf)%nat -> 0 <= seen < U32_MAX ->
  record_loop (S fuel) buf pos handshake seen c =
  match record_at (seen =? 0) (drop pos buf) with
  | inl o => Val o
  | inr content =>
      next ← handshake_step (handshake ++ content) c;
      match next with
      | inl o => Val o
      | inr c => record_loop fuel buf (pos + 5 + length content) (handshake ++ content) (seen + 1) c
      end
  end.
Proof.
  intros Hb Hp Hs. cbn [record_loop]. run_assert by (by apply Nat.leb_le). set (i := drop pos buf).
  assert (Hi : bytes_ok i) by (by apply bytes_ok_drop).
  assert (Hl : (length i + pos = length buf)%nat) by (subst i; rewrite length_drop; lia).
  rewrite record_header_eq. unfold record_at. destruct (Nat.leb_spec 5 (length i)) as [H5 | H5].
  2: { by rewrite (proj2 (Nat.ltb_lt _ _)). }
  rewrite (proj2 (Nat.ltb_ge _ _)) by lia. cbn [framing content_type record_length].
  unfold u32_incr. rewrite (debug_assert_true (seen <? U32_MAX)) by (apply Z.ltb_lt; lia). cbn [mbind outcome_bind].
  replace (seen + 1 =? 1) with (seen =? 0) by (destruct (Z.eqb_spec seen 0), (Z.eqb_spec (seen + 1) 1); lia || done).
  destruct (negb _); [destruct (seen =? 0); done |]. destruct (_ <? be_value _); [done |].
  set (n := be_value (take 2 (drop 3 i))).
  assert (Hn : 0 <= n) by (by apply be_value_nonneg, bytes_ok_take, bytes_ok_drop).
  rewrite take_content_eq, length_drop by done. destruct (Nat.leb_spec (Z.to_nat n) (length i - 5)).
  2: { by rewrite (proj2 (Nat.ltb_lt _ _)). }
  rewrite (proj2 (Nat.ltb_ge _ _)) by lia. cbn [framing]. rewrite drop_drop, length_drop.
  rewrite (debug_assert_true (_ <=? _)%nat) by (apply Nat.leb_le; lia). cbn [mbind outcome_bind].
  rewrite (debug_assert_true (_ <=? _)%nat) by (apply Nat.leb_le; lia). cbn [mbind outcome_bind].
  rewrite (debug_assert_true (_ <? _)%nat) by (apply Nat.ltb_lt; lia). cbn [mbind outcome_bind].
  unfold append_fragment. rewrite length_take, length_drop.
  by replace (length buf - (length i - (5 + Z.to_nat n)))%nat
    with (pos + 5 + Z.to_nat n `min` (length i - 5))%nat by lia.
Qed.

Lemma record_at_content first i content :
  record_at first i = inr content -> (5 + length content <= length i)%nat /\ (bytes_ok i -> bytes_ok content).
Proof.
  unfold record_at. destruct (Nat.ltb_spec (length i) 5); [done |]. destruct (negb _); [done |].
  destruct (_ <? be_value _); [done |]. destruct (Nat.ltb_spec (length i - 5) (Z.to_nat (be_value (take 2 (drop 3 i)))));
    [done |]. intros [= <-]. rewrite length_take, length_drop.
  split; [lia | intros Hb; by apply bytes_ok_take, bytes_ok_drop].
Qed.

(** More octets change nothing once a record is decided. *)
Lemma record_at_more first i more :
  record_at first i <> inl ParseNeedMore -> record_at first (i ++ more) = record_at first i.
Proof.
  unfold record_at. destruct (Nat.ltb_spec (length i) 5); [done |]. intros Hne.
  rewrite length_app. rewrite (proj2 (Nat.ltb_ge _ _)) by lia.
  rewrite (take_app_le i more 1) by lia. rewrite (drop_app_le i more 3), (take_app_le (drop 3 i)) by (rewrite ?length_drop; lia).
  destruct (negb _); [done |]. destruct (_ <? be_value _); [done |].
  destruct (Nat.ltb_spec (length i - 5) (Z.to_nat (be_value (take 2 (drop 3 i))))); [done |].
  rewrite (proj2 (Nat.ltb_ge _ _)) by lia.
  by rewrite drop_app_le, take_app_le by (rewrite ?length_drop; lia).
Qed.

Lemma record_loop_Val fuel buf pos handshake seen c :
  bytes_ok buf -> bytes_ok handshake -> (pos <= length buf)%nat -> (length buf - pos < fuel)%nat ->
  0 <= seen -> seen + Z.of_nat (length buf - pos) < U32_MAX ->
  exists o, record_loop fuel buf pos handshake seen c = Val o.
Proof.
  revert pos handshake seen c. induction fuel as [| fuel IH]; intros pos handshake seen c Hb Hh Hp Hf Hs Hu; [lia |].
  rewrite record_loop_eq by (done || lia). destruct (record_at _ _) as [o | content] eqn:Hr; [by eexists |].
  apply record_at_content in Hr as [Hl Hc]. rewrite length_drop in Hl.
  assert (Hhc : bytes_ok (handshake ++ content)) by (apply bytes_ok_app; split; [done | by apply Hc, bytes_ok_drop]).
  destruct (handshake_step_Val (handshake ++ content) c Hhc) as [(o & -> & _) | [c' ->]]; [by eexists |].
  cbn [mbind outcome_bind]. apply IH; [done | done | lia..].
Qed.

Lemma record_loop_more fuel fuel' buf more pos handshake seen c o :
  bytes_ok (buf ++ more) -> bytes_ok handshake -> (pos <= length buf)%nat -> (fuel <= fuel')%nat ->
  0 <= seen -> seen + Z.of_nat (length buf - pos) < U32_MAX ->
  record_loop fuel buf pos handshake seen c = Val o -> o <> ParseNeedMore ->
  record_loop fuel' (buf ++ more) pos handshake seen c = Val o.
Proof.
  revert fuel' pos handshake seen c.
  induction fuel as [| fuel IH]; intros fuel' pos handshake seen c Hb Hh Hp Hf Hs Hu Ho Hne; [done |].
  destruct fuel' as [| fuel']; [lia |]. pose proof (proj1 (bytes_ok_app _ _) Hb) as [Hb1 _].
  rewrite record_loop_eq in Ho by (done || lia).
  rewrite record_loop_eq by (rewrite ?length_app; done || lia). rewrite drop_app_le by done.
  destruct (record_at (seen =? 0) (drop pos buf)) as [o' | content] eqn:Hr.
  - injection Ho as ->. rewrite record_at_more by congruence. by rewrite Hr.
  - rewrite record_at_more, Hr by congruence. apply record_at_content in Hr as [Hl Hc]. rewrite length_drop in Hl.
    assert (Hhc : bytes_ok (handshake ++ content)) by (apply bytes_ok_app; split; [done | by apply Hc, bytes_ok_drop]).
    destruct (handshake_step_Val (handshake ++ content) c Hhc) as [(o' & Hn & _) | [c' Hn]]; rewrite Hn in *;
      cbn [mbind outcome_bind] in *; [done |].
    apply IH; [done | done | lia | lia | lia | lia | done | done].
Qed.

(** No ClientHello panics the pre-read: on any octets the parser
    terminates with a verdict, without a failed assertion or an index out of
    range. *)
Theorem client_hello_safe buf :
  bytes_ok buf -> Z.of_nat (length buf) < U32_MAX -> exists o, parse_client_hello buf = Val o.
Proof. intros Hb Hl. apply record_loop_Val; [done | constructor | lia..]. Qed.

(** The verdict on a ClientHello is final: once the octets received so far
    are parsed to a hello or rejected, any octets that follow leave the
    verdict as it is, so that re-parsing the growing window after each read
    decides what parsing the whole stream at once decides. *)
Theorem client_hello_verdict_final buf more o :
  bytes_ok (buf ++ more) -> Z.of_nat (length buf) < U32_MAX ->
  parse_client_hello buf = Val o -> o <> ParseNeedMore ->
  parse_client_hello (buf ++ more) = Val o.
Proof.
  intros Hb Hl. apply record_loop_more; [done | constructor | lia | rewrite length_app; lia | lia..].
Qed.
End Primitives.

(** ** ClientHellos on the wire

    A reference encoder, after RFC 8446, RFC 6066 and RFC 7301. *)

Definition vec8 (l : list Z) : list Z := be_bytes 1 (Z.of_nat (length l)) ++ l.
Definition vec16 (l : list Z) : list Z := be_bytes 2 (Z.of_nat (length l)) ++ l.

Definition encode_name (n : Z * list Z) : list Z := be_bytes 1 n.1 ++ vec16 n.2.

Inductive extension :=
| ServerName (names : list (Z * list Z))
| Alpn (protocols : list (list Z))
| Ech (data : list Z)
| Other (type : Z) (data : list Z).

Definition extension_type (e : extension) : Z :=
  match e with
  | ServerName _ => EXT_SERVER_NAME
  | Alpn _ => EXT_ALPN
  | Ech _ => EXT_ENCRYPTED_CLIENT_HELLO
  | Other t _ => t
  end.

Definition extension_data (e : extension) : list Z :=
  match e with
  | ServerName names => vec16 (concat (encode_name <$> names))
  | Alpn protocols => vec16 (concat (vec8 <$> protocols))
  | Ech data | Other _ data => data
  end.

Definition encode_extension (e : extension) : list Z :=
  be_bytes 2 (extension_type e) ++ vec16 (extension_data e).

Record hello := mkHello {
  version : Z;
  random : list Z;
  session_id : list Z;
  cipher_suites : list Z;
  compression_methods : list Z;
  extensions : list extension;
}.

Definition encode_hello (h : hello) : list Z :=
  be_bytes 2 (version h) ++ random h ++ vec8 (session_id h) ++ vec16 (cipher_suites h) ++
  vec8 (compression_methods h) ++ vec16 (concat (encode_extension <$> extensions h)).

Definition encode_handshake (h : hello) : list Z :=
  be_bytes 1 TLS_HANDSHAKE_TYPE_CLIENT_HELLO ++ be_bytes 3 (Z.of_nat (length (encode_hello h))) ++ encode_hello h.

(** A record of the legacy version [v] with a fragment of the handshake. *)
Definition encode_record (r : Z * list Z) : list Z :=
  be_bytes 1 TLS_CONTENT_TYPE_HANDSHAKE ++ be_bytes 2 r.1 ++ vec16 r.2.

(** What the extensions say. *)
Definition host_names (names : list (Z * list Z)) : list (list Z) := (filter (fun n => n.1 = 0) names).*2.

Definition extension_sni (e : extension) : option (option (list Z)) :=
  match e with ServerName names => Some (head (host_names names)) | _ => None end.
Definition extension_alpn (e : extension) : option (list (list Z)) :=
  match e with Alpn protocols => Some protocols | _ => None end.

Definition hello_sni (h : hello) : option (list Z) := mjoin (head (omap extension_sni (extensions h))).
Definition hello_alpn (h : hello) : list (list Z) := default [] (head (omap extension_alpn (extensions h))).
Definition hello_ech (h : hello) : bool :=
  existsb (fun e => extension_type e =? EXT_ENCRYPTED_CLIENT_HELLO) (extensions h).

Definition extension_ok (e : extension) : Prop :=
  Z.of_nat (length (extension_data e)) < 2 ^ 16 /\ bytes_ok (extension_data e) /\
  match e with
  | ServerName names =>
      (length (host_names names) <= 1)%nat /\ Forall (fun n => utf8_valid n = true) (host_names names) /\
      Forall (fun n => u8_ok n.1) names
  | Alpn protocols =>
      protocols <> [] /\ Forall (fun p => (0 < length p < 256)%nat) protocols
  | Ech _ => True
  | Other t _ => u16_ok t /\ t <> EXT_SERVER_NAME /\ t <> EXT_ALPN
  end.

(** Each field fits its length prefix, and no extension the routing reads comes
    twice. *)
Record hello_ok (h : hello) : Prop := {
  hello_version : u16_ok (version h);
  hello_random : length (random h) = 32%nat;
  hello_session : (length (session_id h) < 256)%nat;
  hello_suites : Z.of_nat (length (cipher_suites h)) < 2 ^ 16;
  hello_compression : (length (compression_methods h) < 256)%nat;
  hello_extensions : Z.of_nat (length (concat (encode_extension <$> extensions h))) < 2 ^ 16;
  hello_each : Forall extension_ok (extensions h);
  hello_one_sni : (length (omap extension_sni (extensions h)) <= 1)%nat;
  hello_one_alpn : (length (omap extension_alpn (extensions h)) <= 1)%nat;
}.

Section Wire.
Context `{HS : NomStreaming} `{HSL : !NomStreamingLaws} `{HN : Nom} `{HNL : !NomLaws}.

Lemma read_number n p v rest :
  number_law n p -> 0 <= v < 2 ^ (8 * Z.of_nat n) -> complete (p (be_bytes n v ++ rest)) = Val (rest, v).
Proof.
  intros Hp Hv. rewrite (complete_number n p) by done. rewrite length_app, length_be_bytes.
  rewrite (proj2 (Nat.leb_le _ _)) by lia. rewrite drop_app_length', take_app_length' by (by rewrite length_be_bytes).
  by rewrite be_value_be_bytes, Z.mod_small.
Qed.

Lemma read_u8 v rest : u8_ok v -> complete (nom_be_u8 (be_bytes 1 v ++ rest)) = Val (rest, v).
Proof. intros Hv. apply read_number; [apply law_be_u8 | exact Hv]. Qed.

Lemma read_u16 v rest : u16_ok v -> complete (nom_be_u16 (be_bytes 2 v ++ rest)) = Val (rest, v).
Proof. intros Hv. apply read_number; [apply law_be_u16 | exact Hv]. Qed.

Lemma read_take l rest : complete (nom_take (Z.of_nat (length l)) (l ++ rest)) = Val (rest, l).
Proof.
  rewrite complete_take, Nat2Z.id, length_app by lia. rewrite (proj2 (Nat.leb_le _ _)) by lia.
  by rewrite drop_app_length, take_app_length.
Qed.

Lemma read_prefix16 l rest :
  Z.of_nat (length l) < 2 ^ 16 -> complete (nom_be_u16 (vec16 l ++ rest)) = Val (l ++ rest, Z.of_nat (length l)).
Proof. intros Hl. unfold vec16. rewrite <- app_assoc. apply read_u16. split; lia. Qed.

Lemma read_prefix8 l rest :
  (length l < 256)%nat -> complete (nom_be_u8 (vec8 l ++ rest)) = Val (l ++ rest, Z.of_nat (length l)).
Proof. intros Hl. unfold vec8. rewrite <- app_assoc. apply read_u8. split; lia. Qed.

Lemma length_vec16 l : length (vec16 l) = (2 + length l)%nat.
Proof. unfold vec16. by rewrite length_app, length_be_bytes. Qed.
Lemma length_vec8 l : length (vec8 l) = (1 + length l)%nat.
Proof. unfold vec8. by rewrite length_app, length_be_bytes. Qed.

Lemma host_names_cons t name names :
  host_names ((t, name) :: names) = if t =? 0 then name :: host_names names else host_names names.
Proof. unfold host_names. rewrite filter_cons. cbn [fst]. by destruct (Z.eqb_spec t 0); case_decide. Qed.

Lemma server_name_loop_wire fuel names host n :
  Z.of_nat (length (concat (encode_name <$> names))) < 2 ^ 16 ->
  (length (concat (encode_name <$> names)) < fuel)%nat -> Forall (fun x => u8_ok x.1) names ->
  0 <= n -> n + Z.of_nat (length (host_names names)) <= 1 ->
  server_name_loop fuel (concat (encode_name <$> names)) host n =
  Val ([], match head (host_names names) with Some x => Some x | None => host end,
       n + Z.of_nat (length (host_names names))).
Proof.
  revert names host n. induction fuel as [| fuel IH]; intros names host n Hw Hf Ht Hn0 Hn; [lia |].
  destruct names as [| [t name] names]; cbn [fmap list_fmap concat] in *.
  { cbn. by rewrite Z.add_0_r. }
  apply Forall_cons in Ht as [Ht Hts]. cbn [fst] in Ht. set (rest := concat _) in *.
  assert (Hlen : length (encode_name (t, name) ++ rest) = (3 + length name + length rest)%nat)
    by (unfold encode_name; cbn [fst snd]; rewrite !length_app, length_be_bytes, length_vec16; lia).
  rewrite Hlen in Hf, Hw. cbn [server_name_loop].
  destruct (encode_name (t, name) ++ rest) as [| b l] eqn:E; [cbn in Hlen; lia |]. rewrite <- E in *. clear E b l.
  unfold encode_name. cbn [fst snd]. rewrite <- app_assoc, read_u8 by done. cbn [mbind outcome_bind].
  rewrite read_prefix16 by lia. cbn [mbind outcome_bind]. rewrite read_take. cbn [mbind outcome_bind].
  rewrite host_names_cons in *. destruct (t =? 0); [cbn [length head] in * |].
  - rewrite (proj2 (Z.ltb_ge 1 (n + 1))) by lia. subst rest. rewrite IH by (done || lia).
    destruct (host_names names) as [| x l]; cbn [length head] in *; [do 2 f_equal; lia | lia].
  - subst rest. apply IH; done || lia.
Qed.

Lemma parse_server_name_wire names :
  extension_ok (ServerName names) ->
  parse_server_name_extension (extension_data (ServerName names)) = Val (head (host_names names)).
Proof.
  intros (Hl & _ & H1 & Hu & Ht). cbn [extension_data] in *. rewrite length_vec16 in Hl.
  unfold parse_server_name_extension. set (wire := concat _) in *.
  change (vec16 wire) with (to_u8 (Z.of_nat (length wire) / 2 ^ 8) ::
    to_u8 (Z.of_nat (length wire) / 2 ^ 0) :: wire) at 1. cbn iota.
  rewrite <- (app_nil_r (vec16 wire)). rewrite read_prefix16 by lia. cbn [mbind outcome_bind].
  rewrite read_take. cbn [mbind outcome_bind]. subst wire.
  rewrite server_name_loop_wire by (done || lia). cbn [mbind outcome_bind].
  rewrite (debug_assert_true (_ <=? 1)) by (apply Z.leb_le; lia). cbn.
  destruct (host_names names) as [| x l]; cbn; [done |]. apply Forall_cons in Hu as [Hu _]. by rewrite Hu.
Qed.

Lemma alpn_loop_wire fuel protocols ps :
  (length (concat (vec8 <$> protocols)) < fuel)%nat -> Forall (fun p => (0 < length p < 256)%nat) protocols ->
  alpn_loop fuel (concat (vec8 <$> protocols)) ps = Val ([], ps ++ protocols).
Proof.
  revert protocols ps. induction fuel as [| fuel IH]; intros protocols ps Hf Hp; [lia |].
  destruct protocols as [| p protocols]; cbn [fmap list_fmap concat] in *; [by rewrite app_nil_r |].
  apply Forall_cons in Hp as [Hp Hps]. set (rest := concat _) in *. rewrite length_app, length_vec8 in Hf.
  cbn [alpn_loop].
  change (vec8 p ++ rest) with (to_u8 (Z.of_nat (length p) / 2 ^ 0) :: p ++ rest) at 1. cbn iota.
  rewrite read_prefix8 by lia. cbn [mbind outcome_bind]. rewrite (proj2 (Z.eqb_neq _ _)) by lia.
  rewrite read_take. cbn [mbind outcome_bind]. subst rest. rewrite IH by (done || lia). by rewrite <- app_assoc.
Qed.

Lemma length_concat_vec8 protocols :
  Forall (fun p => (0 < length p < 256)%nat) protocols ->
  (2 * length protocols <= length (concat (vec8 <$> protocols)))%nat.
Proof.
  induction 1 as [| p ps Hp _ IH]; cbn [fmap list_fmap concat length]; [lia |].
  rewrite length_app, length_vec8. lia.
Qed.

Lemma parse_alpn_wire protocols :
  extension_ok (Alpn protocols) -> parse_alpn_extension (extension_data (Alpn protocols)) = Val protocols.
Proof.
  intros (Hl & _ & Hne & Hp). cbn [extension_data] in *. rewrite length_vec16 in Hl.
  unfold parse_alpn_extension. rewrite <- (app_nil_r (vec16 _)). rewrite read_prefix16 by lia.
  cbn [mbind outcome_bind]. rewrite read_take. cbn [mbind outcome_bind].
  rewrite alpn_loop_wire by (done || lia). cbn [mbind outcome_bind app].
  pose proof (length_concat_vec8 protocols Hp). destruct protocols as [| p ps]; [done |].
  rewrite (debug_assert_true (Z.of_nat _ <=? _)); [done |]. apply Z.leb_le, Z.div_le_lower_bound; lia.
Qed.

(** *** Extensions *)

(** The locals of [parse_extensions] after some extensions. *)
Definition state_after (es : list extension) : ExtensionState :=
  mkExtensionState (mjoin (head (omap extension_sni es))) (default [] (head (omap extension_alpn es)))
    (existsb (fun e => extension_type e =? EXT_ENCRYPTED_CLIENT_HELLO) es)
    (negb (bool_decide (omap extension_sni es = []))) (negb (bool_decide (omap extension_alpn es = []))).

Lemma extension_arm_wire es e :
  extension_ok e -> (length (omap extension_sni (es ++ [e])) <= 1)%nat ->
  (length (omap extension_alpn (es ++ [e])) <= 1)%nat ->
  extension_arm (state_after es) (extension_type e) (extension_data e) = Val (state_after (es ++ [e])).
Proof.
  intros He H1 H2. unfold state_after. rewrite !omap_app, existsb_app in *. rewrite !length_app in *.
  unfold extension_arm. destruct e as [names | protocols | data | t data]; cbn [extension_type] in *.
  - cbn in H1. destruct (omap extension_sni es) as [| x l]; [| cbn in H1; lia]. cbn -[parse_server_name_extension extension_data].
    rewrite parse_server_name_wire by done. cbn. by rewrite app_nil_r, orb_false_r.
  - cbn in H2. destruct (omap extension_alpn es) as [| x l]; [| cbn in H2; lia]. cbn -[parse_alpn_extension extension_data].
    rewrite parse_alpn_wire by done. cbn. by rewrite app_nil_r, orb_false_r.
  - cbn. by rewrite !app_nil_r, orb_true_r.
  - destruct He as (_ & _ & Ht & Hs & Ha). rewrite !(proj2 (Z.eqb_neq _ _)) by done.
    cbn [omap list_omap extension_sni extension_alpn existsb extension_type]. rewrite !app_nil_r, orb_false_r.
    destruct (Z.eqb_spec t EXT_ENCRYPTED_CLIENT_HELLO); [by rewrite orb_true_r | by rewrite orb_false_r].
Qed.

Lemma extensions_loop_wire fuel es todo :
  Forall extension_ok todo -> (length (concat (encode_extension <$> todo)) < fuel)%nat ->
  (length (omap extension_sni (es ++ todo)) <= 1)%nat -> (length (omap extension_alpn (es ++ todo)) <= 1)%nat ->
  extensions_loop fuel (concat (encode_extension <$> todo)) (state_after es) = Val (state_after (es ++ todo)).
Proof.
  revert es todo. induction fuel as [| fuel IH]; intros es todo Hok Hf H1 H2; [lia |].
  destruct todo as [| e todo]; cbn [fmap list_fmap concat] in *; [by rewrite app_nil_r |].
  apply Forall_cons in Hok as [He Hes]. set (rest := concat _) in *.
  assert (Hlen : length (encode_extension e ++ rest) = (4 + length (extension_data e) + length rest)%nat)
    by (unfold encode_extension; rewrite !length_app, length_be_bytes, length_vec16; lia).
  rewrite Hlen in Hf. cbn [extensions_loop].
  assert (Hty : u16_ok (extension_type e)) by (destruct e; [done | done | done | by destruct He as (_ & _ & ? & _)]).
  destruct (encode_extension e ++ rest) as [| b l] eqn:Hw; [cbn in Hlen; lia |]. rewrite <- Hw in *. clear Hw b l.
  unfold encode_extension. rewrite <- app_assoc, read_u16 by done. cbn [mbind outcome_bind].
  pose proof He as [Hd _]. rewrite read_prefix16 by done. cbn [mbind outcome_bind].
  rewrite read_take. cbn [mbind outcome_bind].
  rewrite (debug_assert_true (_ =? _)).
  2: { rewrite !length_app, length_be_bytes, length_vec16. apply Z.eqb_eq. lia. }
  cbn [mbind outcome_bind]. rewrite (cons_middle e es todo), app_assoc in *.
  rewrite omap_app, length_app in H1. rewrite omap_app, length_app in H2.
  rewrite extension_arm_wire by (done || lia). cbn [mbind outcome_bind]. subst rest.
  apply IH; [done | lia | rewrite omap_app, length_app; lia..].
Qed.

Lemma parse_hello_wire h :
  hello_ok h ->
  parse_client_hello_body (encode_hello h) = Val (ParseClientHello (hello_sni h) (hello_alpn h) (hello_ech h)).
Proof.
  intros [Hv Hr Hs Hc Hm Hx He H1 H2]. unfold parse_client_hello_body, parse_client_hello_fields.
  set (exts := concat (encode_extension <$> extensions h)) in *.
  assert (Hl : length (encode_hello h) = (2 + 32 + (1 + length (session_id h)) + (2 + length (cipher_suites h)) +
    (1 + length (compression_methods h)) + (2 + length exts))%nat).
  { unfold encode_hello. fold exts. rewrite !length_app, length_be_bytes, !length_vec16, !length_vec8. lia. }
  cbv zeta. rewrite Hl. unfold encode_hello. fold exts. rewrite read_u16 by done. cbn [mbind outcome_bind].
  replace 32 with (Z.of_nat (length (random h))) by lia. rewrite read_take. cbn [mbind outcome_bind].
  rewrite read_prefix8 by done. cbn [mbind outcome_bind]. rewrite read_take. cbn [mbind outcome_bind].
  rewrite read_prefix16 by done. cbn [mbind outcome_bind]. rewrite read_take. cbn [mbind outcome_bind].
  rewrite read_prefix8 by done. cbn [mbind outcome_bind]. rewrite read_take. cbn [mbind outcome_bind].
  rewrite length_vec16.
  rewrite (debug_assert_true (2 + length exts <=? _)%nat) by (apply Nat.leb_le; lia). cbn [mbind outcome_bind].
  rewrite (debug_assert_true (2 + 32 + 1 + 1 + 2 <=? _)%nat) by (apply Nat.leb_le; lia). cbn [mbind outcome_bind].
  change (vec16 exts) with (to_u8 (Z.of_nat (length exts) / 2 ^ 8) :: to_u8 (Z.of_nat (length exts) / 2 ^ 0) :: exts) at 1.
  cbn iota. rewrite <- (app_nil_r (vec16 exts)). rewrite read_prefix16 by done. cbn [mbind outcome_bind].
  rewrite read_take. cbn [mbind outcome_bind]. unfold parse_extensions.
  pose proof (extensions_loop_wire (S (length exts)) [] (extensions h) He (Nat.lt_succ_diag_r _) H1 H2) as Hloop.
  fold exts in Hloop. change (state_after []) with (mkExtensionState None [] false false false) in Hloop.
  rewrite Hloop. cbn [app mbind outcome_bind state_after]. unfold hello_sni, hello_alpn, hello_ech.
  destruct (omap extension_sni (extensions h)) as [| x l], (omap extension_alpn (extensions h)) as [| y l']; done.
Qed.

(** *** Records *)

Lemma length_encode_hello h : hello_ok h -> Z.of_nat (length (encode_hello h)) < 2 ^ 24.
Proof.
  intros [Hv Hr Hs Hc Hm Hx _ _ _]. unfold encode_hello.
  rewrite !length_app, length_be_bytes, !length_vec16, !length_vec8. lia.
Qed.

Lemma encode_handshake_eq h :
  exists b1 b2 b3, encode_handshake h = 1 :: b1 :: b2 :: b3 :: encode_hello h /\
    be_bytes 3 (Z.of_nat (length (encode_hello h))) = [b1; b2; b3].
Proof. eexists _, _, _. split; [reflexivity | reflexivity]. Qed.

(** A part of the message asks for more, all of it is decoded. *)
Lemma handshake_step_wire h p rest c :
  hello_ok h -> encode_handshake h = p ++ rest -> (c = true -> p <> []) ->
  handshake_step p c =
  if bool_decide (rest = []) then Val (inl (ParseClientHello (hello_sni h) (hello_alpn h) (hello_ech h)))
  else Val (inr (negb (bool_decide (p = [])))).
Proof.
  intros Hh Hp Hc. pose proof (length_encode_hello h Hh) as Hl.
  destruct (encode_handshake_eq h) as (b1 & b2 & b3 & He & Hb). rewrite He in Hp.
  assert (Hn : be_value [0; b1; b2; b3] = Z.of_nat (length (encode_hello h))).
  { rewrite be_value_cons, <- Hb, be_value_be_bytes. change (8 * Z.of_nat 3) with 24.
    rewrite Z.mod_small by lia. lia. }
  unfold handshake_step.
  replace (if c then inr true else _) with (@inr ParseOutcome bool (negb (bool_decide (p = [])))).
  2: { destruct p as [| m p]; [by destruct c; [destruct (Hc eq_refl) |] |]. injection Hp as <- _. by destruct c. }
  destruct p as [| m0 [| m1 [| m2 [| m3 p]]]]; cbn [length Nat.leb];
    try (destruct rest as [| x rest]; [done |]; by rewrite (bool_decide_false (x :: rest = [])) by done).
  cbn [app] in Hp. injection Hp as <- <- <- <- Hp. rewrite (index_Some _ 1 b1), (index_Some _ 2 b2), (index_Some _ 3 b3) by done.
  cbn [mbind outcome_bind]. rewrite Hn, Nat2Z.id. cbn [drop Nat.add Nat.leb]. rewrite Hp, length_app.
  destruct rest as [| r rest].
  - rewrite (bool_decide_true ([] = [])) by done. cbn [length]. rewrite Nat.add_0_r, Nat.leb_refl, drop_0, firstn_all.
    replace p with (encode_hello h) by (by rewrite Hp, app_nil_r). by rewrite parse_hello_wire.
  - rewrite (bool_decide_false (r :: rest = [])) by done. by rewrite (proj2 (Nat.leb_gt _ _)) by (cbn [length]; lia).
Qed.

Definition record_ok (r : Z * list Z) : Prop := u16_ok r.1 /\ Z.of_nat (length r.2) <= MAX_TLS_RECORD_LEN.

Lemma record_at_wire first r rest : record_ok r -> record_at first (encode_record r ++ rest) = inr r.2.
Proof.
  intros [Hv Hl]. unfold MAX_TLS_RECORD_LEN in Hl. unfold record_at.
  assert (Hlen : length (encode_record r ++ rest) = (5 + length r.2 + length rest)%nat)
    by (unfold encode_record; rewrite !length_app, !length_be_bytes, length_vec16; lia).
  rewrite Hlen. rewrite (proj2 (Nat.ltb_ge _ _)) by lia.
  replace (take 1 (encode_record r ++ rest)) with [TLS_CONTENT_TYPE_HANDSHAKE] by done.
  replace (drop 3 (encode_record r ++ rest)) with (be_bytes 2 (Z.of_nat (length r.2)) ++ r.2 ++ rest)
    by reflexivity.
  rewrite take_app_length', be_value_be_bytes, Z.mod_small by (rewrite ?length_be_bytes; lia || done).
  cbn [be_value]. replace (negb _) with false by done.
  rewrite (proj2 (Z.ltb_ge _ _)) by (unfold MAX_TLS_RECORD_LEN; lia).
  rewrite (proj2 (Nat.ltb_ge _ _)) by lia. rewrite Nat2Z.id. f_equal.
  replace (drop 5 (encode_record r ++ rest)) with (r.2 ++ rest) by reflexivity.
  apply take_app_length.
Qed.

Lemma record_loop_wire h fuel before rs rest p seen c :
  hello_ok h -> let buf := before ++ concat (encode_record <$> rs) ++ rest in
  bytes_ok buf -> Z.of_nat (length buf) < U32_MAX -> Forall record_ok rs ->
  (length rs < fuel)%nat -> 0 <= seen <= Z.of_nat (length before) ->
  encode_handshake h = p ++ concat rs.*2 -> concat rs.*2 <> [] -> (c = true -> p <> []) ->
  record_loop fuel buf (length before) p seen c =
  Val (ParseClientHello (hello_sni h) (hello_alpn h) (hello_ech h)).
Proof.
  intros Hh. revert before rs p seen c.
  induction fuel as [| fuel IH]; intros before rs p seen c buf Hb Hl Hr Hf Hs Hp Hne Hc; [lia |].
  subst buf. destruct rs as [| r rs]; [done |]. cbn [fmap list_fmap concat] in *.
  apply Forall_cons in Hr as [Hr Hrs]. rewrite length_app in Hl.
  rewrite record_loop_eq by (rewrite ?length_app; done || lia).
  rewrite drop_app_length, <- app_assoc, record_at_wire by done. rewrite app_assoc in Hp.
  rewrite (handshake_step_wire h (p ++ r.2) (concat rs.*2) c) by
    (done || (intros ->%Hc ?%app_nil; tauto) || (intros Hct [-> _]%app_nil; by apply Hc)).
  case_bool_decide as Hend; [done |]. cbn [mbind outcome_bind].
  assert (Hlen : length (encode_record r) = (5 + length r.2)%nat)
    by (unfold encode_record; rewrite !length_app, !length_be_bytes, length_vec16; lia).
  replace (length before + 5 + length r.2)%nat with (length (before ++ encode_record r))
    by (rewrite length_app; lia).
  replace (before ++ encode_record r ++ concat (encode_record <$> rs) ++ rest)
    with ((before ++ encode_record r) ++ concat (encode_record <$> rs) ++ rest) by (by rewrite <- app_assoc).
  rewrite <- app_assoc in Hb. apply IH; [| | done | cbn [length] in Hf; lia | | done | done |].
  - by rewrite <- !app_assoc.
  - rewrite !length_app in *. lia.
  - rewrite length_app. lia.
  - intros Hct. by apply negb_true_iff, bool_decide_eq_false in Hct.
Qed.

Lemma client_hello_wire h rs rest :
  hello_ok h -> Forall record_ok rs -> concat rs.*2 = encode_handshake h ->
  bytes_ok (concat (encode_record <$> rs) ++ rest) ->
  Z.of_nat (length (concat (encode_record <$> rs) ++ rest)) < U32_MAX ->
  parse_client_hello (concat (encode_record <$> rs) ++ rest) =
  Val (ParseClientHello (hello_sni h) (hello_alpn h) (hello_ech h)).
Proof.
  intros Hh Hr Hc Hb Hl. unfold parse_client_hello.
  apply (record_loop_wire h _ [] rs rest); cbn [app length]; try done.
  - rewrite length_app. enough (length rs <= length (concat (encode_record <$> rs)))%nat by lia.
    clear. induction rs as [| r rs IH]; cbn [fmap list_fmap concat length]; [lia |].
    rewrite length_app. unfold encode_record at 1. rewrite !length_app, length_be_bytes. lia.
  - rewrite Hc. destruct (encode_handshake_eq h) as (b1 & b2 & b3 & -> & _). done.
Qed.

(** C8. A ClientHello is read however it is cut: the records of any
    fragmentation of a well-formed ClientHello, of any legacy versions and
    followed by any octets, are parsed to the server name it has (if it has
    one), its ALPN offer in order, and whether it has an encrypted
    ClientHello, whatever other extensions, known or not, stand between. *)
Theorem client_hello_roundtrip h rs rest :
  hello_ok h -> Forall record_ok rs -> concat rs.*2 = encode_handshake h ->
  bytes_ok (concat (encode_record <$> rs) ++ rest) ->
  Z.of_nat (length (concat (encode_record <$> rs) ++ rest)) < U32_MAX ->
  parse_client_hello (concat (encode_record <$> rs) ++ rest) =
  Val (ParseClientHello (hello_sni h) (hello_alpn h) (hello_ech h)).
Proof. apply client_hello_wire. Qed.
End Wire.

(** ** Examples *)

#[local] Existing Instance simple_streaming.
#[local] Existing Instance simple_streaming_laws.

Definition example_hello : hello :=
  mkHello 0x0303 (replicate 32 7) [] [0x13; 0x01] [0]
    [Other 0x0a0a [0]; ServerName [(0, bstr "Example.com")]; Alpn [bstr "h2"; bstr "http/1.1"]; Ech [1; 2]].

(** The message cut after its third octet, with an empty record between. *)
Definition example_records : list (Z * list Z) :=
  [(0x0301, take 3 (encode_handshake example_hello)); (0x0303, []); (0x0303, drop 3 (encode_handshake example_hello))].

Definition example_wire : list Z := concat (encode_record <$> example_records).

Lemma example_hello_ok : hello_ok example_hello.
Proof.
  split; try (vm_compute; done); try (vm_compute; lia).
  repeat constructor; try (vm_compute; done).
Qed.

Lemma client_hello_safe_witness : exists o, parse_client_hello (take 40 example_wire) = Val o.
Proof.
  apply (client_hello_safe (take 40 example_wire)).
  - unfold bytes_ok. apply (bool_decide_unpack _). by vm_compute.
  - by vm_compute.
Defined.

Lemma client_hello_verdict_final_witness :
  parse_client_hello ([23; 3; 3; 0; 0] ++ example_wire) = Val (ParseReject NotTls).
Proof.
  apply (client_hello_verdict_final [23; 3; 3; 0; 0] example_wire (ParseReject NotTls)).
  - unfold bytes_ok. apply (bool_decide_unpack _). by vm_compute.
  - by vm_compute.
  - by vm_compute.
  - discriminate.
Defined.

Lemma client_hello_roundtrip_witness :
  parse_client_hello (example_wire ++ [9; 9]) =
  Val (ParseClientHello (Some (bstr "Example.com")) [bstr "h2"; bstr "http/1.1"] true).
Proof.
  apply (client_hello_roundtrip example_hello example_records [9; 9] example_hello_ok).
  - repeat constructor; by vm_compute.
  - by vm_compute.
  - unfold bytes_ok. apply (bool_decide_unpack _). by vm_compute.
  - by vm_compute.
Defined.
