(* ===== verification/RouterRewrite.v ===== *)
(** * Rewrite templates of the router

    Models [RewriteParts] of [lib/src/router/mod.rs]: the parser of the
    [$HOST[n]] / [$PATH[n]] templates of a frontend and their substitution.
    The position [i] in the template is the suffix left to read; indices are
    64-bit.  A template that prints some parts is read back as these parts. *)

From S2P Require Import Prelude PatternTrie.

Inductive RewritePart :=
| RString (s : list Z)
| RHost (i : Z)
| RPath (i : Z).

Abbreviation RewriteParts := (list RewritePart) (only parsing).

Definition DOLLAR : Z := 36.
Definition RBRACKET : Z := 93.

Definition is_ascii_digit (b : Z) : bool := between 48 57 b.

Definition usize_checked_mul (a b : Z) : option Z := if a * b <=? USIZE_MAX then Some (a * b) else None.
Definition usize_checked_add (a b : Z) : option Z := if a + b <=? USIZE_MAX then Some (a + b) else None.

(** [while i < pattern.len() && pattern[i].is_ascii_digit()]; [None] on the
    overflow of the index. *)
Fixpoint parse_index (rest : list Z) (index : Z) : option (Z * list Z) :=
  match rest with
  | b :: rest' =>
      if is_ascii_digit b then
        index ← usize_checked_mul index 10;
        index ← usize_checked_add index (b - 48);
        parse_index rest' index
      else Some (index, rest)
  | [] => Some (index, [])
  end.

(** [while i < pattern.len() && pattern[i] != b'$'] *)
Fixpoint parse_literal (rest : list Z) : list Z * list Z :=
  match rest with
  | b :: rest' =>
      if b =? DOLLAR then ([], rest)
      else let '(s, r) := parse_literal rest' in (b :: s, r)
  | [] => ([], [])
  end.

(** The highest index referenced so far, updated. *)
Definition bump (used index : Z) : Z := if used <=? index then index + 1 else used.

Fixpoint parse_loop (fuel : nat) (host_cap_cap path_cap_cap : Z) (rest : list Z)
    (used_index_host used_index_path : Z) (result : RewriteParts) :
    checked (option RewriteParts * Z * Z) :=
  match fuel with
  | O => Panic
  | S fuel =>
      match rest with
      | [] => Val (Some result, used_index_host, used_index_path)
      | b :: _ =>
          if b =? DOLLAR then
            let reference :=
              if starts_with rest (bstr "$HOST[") then Some true
              else if starts_with rest (bstr "$PATH[") then Some false else None in
            match reference with
            | None => Val (None, used_index_host, used_index_path)
            | Some is_host =>
                let digits := drop 6 rest in
                match parse_index digits 0 with
                | None => Val (None, used_index_host, used_index_path)
                | Some (index, after) =>
                    if (length after =? length digits)%nat then
                      Val (None, used_index_host, used_index_path)
                    else if negb (bool_decide (head after = Some RBRACKET)) then
                      Val (None, used_index_host, used_index_path)
                    else if is_host : bool then
                      if host_cap_cap <=? index then Val (None, used_index_host, used_index_path)
                      else parse_loop fuel host_cap_cap path_cap_cap (drop 1 after)
                             (bump used_index_host index) used_index_path (result ++ [RHost index])
                    else
                      if path_cap_cap <=? index then Val (None, used_index_host, used_index_path)
                      else parse_loop fuel host_cap_cap path_cap_cap (drop 1 after)
                             used_index_host (bump used_index_path index) (result ++ [RPath index])
                end
            end
          else
            let '(s, after) := parse_literal rest in
            parse_loop fuel host_cap_cap path_cap_cap after used_index_host used_index_path
              (result ++ [RString s])
      end
  end.

Definition part_in_caps (host_cap_cap path_cap_cap : Z) (part : RewritePart) : bool :=
  match part with
  | RHost i => i <? host_cap_cap
  | RPath i => i <? path_cap_cap
  | RString _ => true
  end.

(** [RewriteParts::parse]: the parts, and the two [used_index] out
    parameters. *)
Definition parse (template : list Z) (host_cap_cap path_cap_cap used_index_host used_index_path : Z) :
    checked (option RewriteParts * Z * Z) :=
  '(result, used_index_host, used_index_path) ←
    parse_loop (S (length template)) host_cap_cap path_cap_cap template used_index_host
      used_index_path [];
  match result with
  | None => Val (None, used_index_host, used_index_path)
  | Some parts =>
      _ ← debug_assert (forallb (part_in_caps host_cap_cap path_cap_cap) parts);
      _ ← debug_assert ((used_index_host <=? host_cap_cap) && (used_index_path <=? path_cap_cap));
      Val (Some parts, used_index_host, used_index_path)
  end.

(** [captures.get(i).unwrap_or(&"")] *)
Definition capture (caps : list (list Z)) (i : Z) : list Z := default [] (caps !! Z.to_nat i).

Definition part_text (host_captures path_captures : list (list Z)) (part : RewritePart) : list Z :=
  match part with
  | RString s => s
  | RHost i => capture host_captures i
  | RPath i => capture path_captures i
  end.

(** [RewriteParts::run]: the capacity pass, then the write pass. *)
Definition run (parts : RewriteParts) (host_captures path_captures : list (list Z)) :
    checked (list Z) :=
  let cap := foldl (fun cap part => cap + length (part_text host_captures path_captures part))%nat
               0%nat parts in
  let result := foldl (fun result part => result ++ part_text host_captures path_captures part)
                  [] parts in
  _ ← debug_assert (length result =? cap)%nat;
  Val result.

(** ** Properties *)

Lemma run_Val parts hc pc : run parts hc pc = Val (concat (part_text hc pc <$> parts)).
Proof.
  unfold run.
  assert (H : forall l c, foldl (fun result part => result ++ part_text hc pc part) l parts
                = l ++ concat (part_text hc pc <$> parts) /\
              foldl (fun cap part => cap + length (part_text hc pc part))%nat c parts
                = (c + length (concat (part_text hc pc <$> parts)))%nat).
  { induction parts as [| part parts IH]; intros l c; cbn.
    - rewrite app_nil_r. split; [done | lia].
    - destruct (IH (l ++ part_text hc pc part) (c + length (part_text hc pc part))%nat) as [-> ->].
      rewrite length_app, <- app_assoc. split; [done | lia]. }
  destruct (H [] 0%nat) as [-> ->]. cbn [app Nat.add]. by rewrite Nat.eqb_refl.
Qed.

Lemma parse_index_shrinks l i j r :
  parse_index l i = Some (j, r) -> (length r <= length l)%nat.
Proof.
  revert i. induction l as [| b l IH]; intros i; cbn; [by intros [= _ <-] |].
  destruct (is_ascii_digit b); [| intros [= _ <-]; cbn; lia].
  destruct (usize_checked_mul i 10); [| done]. cbn.
  destruct (usize_checked_add z (b - 48)); [| done]. cbn. intros ?%IH. lia.
Qed.

Lemma parse_literal_shrinks b l s r :
  b <> DOLLAR -> parse_literal (b :: l) = (s, r) -> (length r <= length l)%nat.
Proof.
  intros Hb. cbn. rewrite (proj2 (Z.eqb_neq b DOLLAR)) by done.
  assert (H : forall l s r, parse_literal l = (s, r) -> (length r <= length l)%nat).
  { clear. induction l as [| b l IH]; intros s r; cbn; [by intros [= <- <-] |].
    destruct (b =? DOLLAR); [intros [= <- <-]; cbn; lia |].
    destruct (parse_literal l) as [s' r'] eqn:E. intros [= <- <-]. specialize (IH _ _ eq_refl). lia. }
  destruct (parse_literal l) as [s' r'] eqn:E. intros [= <- <-]. by eapply H.
Qed.

(** The indices the parts reference are under the caps and under the counters
    the parser leaves. *)
Definition parts_bounded (hc pc uh up : Z) (parts : RewriteParts) : Prop :=
  Forall (fun part => match part with
                      | RHost i => i < hc /\ i < uh
                      | RPath i => i < pc /\ i < up
                      | RString _ => True
                      end) parts.

Lemma parts_bounded_mono hc pc uh up uh' up' parts :
  uh <= uh' -> up <= up' -> parts_bounded hc pc uh up parts -> parts_bounded hc pc uh' up' parts.
Proof. intros ?? Hf. eapply Forall_impl; [exact Hf |]. intros []; lia. Qed.

Lemma parts_bounded_in_caps hc pc uh up parts :
  parts_bounded hc pc uh up parts -> forallb (part_in_caps hc pc) parts = true.
Proof.
  intros Hr. apply forallb_forall. intros part Hin%list_elem_of_In.
  pose proof (proj1 (Forall_forall _ _) Hr part Hin) as Hpart.
  destruct part; cbn in *; try (apply Z.ltb_lt); tauto.
Qed.

Lemma bump_spec cap used index :
  used <= cap -> index < cap -> used <= bump used index <= cap /\ index < bump used index.
Proof. unfold bump. intros. cmps. Qed.

Lemma parse_loop_spec fuel hc pc rest uh up result :
  (length rest < fuel)%nat -> uh <= hc -> up <= pc -> parts_bounded hc pc uh up result ->
  exists r uh' up', parse_loop fuel hc pc rest uh up result = Val (r, uh', up') /\
    uh <= uh' <= hc /\ up <= up' <= pc /\
    forall parts, r = Some parts -> parts_bounded hc pc uh' up' parts.
Proof.
  revert rest uh up result. induction fuel as [| fuel IH]; intros rest uh up result Hf Hu Hp Hr; [lia |].
  assert (Hnone : exists r uh' up', @Val Empty_set (option RewriteParts * Z * Z) (None, uh, up) =
    Val (r, uh', up') /\ uh <= uh' <= hc /\ up <= up' <= pc /\
    forall parts, r = Some parts -> parts_bounded hc pc uh' up' parts).
  { exists None, uh, up. repeat split; (done || lia). }
  destruct rest as [| b rest]; cbn [parse_loop].
  { exists (Some result), uh, up. repeat split; try lia. by intros ? [= <-]. }
  destruct (Z.eqb_spec b DOLLAR) as [-> | Hb].
  - set (reference := if starts_with _ _ then Some true else _).
    destruct reference as [is_host |]; [| done].
    destruct (parse_index _ 0) as [[index after] |] eqn:Ei; [| done].
    destruct (_ =? _)%nat; [done |]. destruct (negb _); [done |].
    apply parse_index_shrinks in Ei. rewrite length_drop in Ei. cbn [length] in *.
    assert (Hlen : (length (drop 1 after) < fuel)%nat) by (rewrite length_drop; lia).
    destruct is_host.
    + destruct (Z.leb_spec hc index) as [| Hi]; [done |].
      destruct (bump_spec hc uh index Hu Hi) as [Hb1 Hb2].
      destruct (IH (drop 1 after) (bump uh index) up (result ++ [RHost index]))
        as (r & uh' & up' & -> & ? & ? & ?); [done | lia | done | |].
      { apply Forall_app. split; [eapply parts_bounded_mono, Hr; lia | by apply Forall_singleton]. }
      exists r, uh', up'. repeat split; (done || lia).
    + destruct (Z.leb_spec pc index) as [| Hi]; [done |].
      destruct (bump_spec pc up index Hp Hi) as [Hb1 Hb2].
      destruct (IH (drop 1 after) uh (bump up index) (result ++ [RPath index]))
        as (r & uh' & up' & -> & ? & ? & ?); [done | lia | lia | |].
      { apply Forall_app. split; [eapply parts_bounded_mono, Hr; lia | by apply Forall_singleton]. }
      exists r, uh', up'. repeat split; (done || lia).
  - destruct (parse_literal (b :: rest)) as [s after] eqn:El.
    apply parse_literal_shrinks in El; [| done]. cbn [length] in *.
    apply IH; [lia | done | done |]. apply Forall_app. split; [done | by apply Forall_singleton].
Qed.

Lemma parse_spec template hc pc uh up :
  uh <= hc -> up <= pc ->
  exists r uh' up', parse template hc pc uh up = Val (r, uh', up') /\
    uh <= uh' <= hc /\ up <= up' <= pc /\
    forall parts, r = Some parts -> parts_bounded hc pc uh' up' parts.
Proof.
  intros Hu Hp. unfold parse.
  destruct (parse_loop_spec (S (length template)) hc pc template uh up []) as
    (r & uh' & up' & -> & Hu' & Hp' & Hr); [lia | done | done | by constructor |].
  cbn [mbind outcome_bind]. exists r, uh', up'. destruct r as [parts |]; [| done].
  specialize (Hr parts eq_refl). split; [| split; [done |]; split; [done |]; by intros ? [= <-]].
  run_assert by (by eapply parts_bounded_in_caps).
  by run_assert by (apply andb_true_iff; split; apply Z.leb_le; lia).
Qed.

(** Parsing a rewrite template terminates and trips no assertion, whatever
    the template; the parts it accepts reference only captures the router can
    fill, and the two counters end between their start and the caps, above
    every index referenced, so that extracting that many captures is enough. *)
Theorem rewrite_parse_safe template hc pc uh up :
  uh <= hc -> up <= pc ->
  exists r uh' up', parse template hc pc uh up = Val (r, uh', up') /\
    uh <= uh' <= hc /\ up <= up' <= pc /\
    forall parts, r = Some parts -> parts_bounded hc pc uh' up' parts.
Proof. apply parse_spec. Qed.

Lemma rewrite_parse_safe_witness :
  exists r uh' up', parse (bstr "a$HOST[1]b") 2 0 0 0 = Val (r, uh', up') /\
    0 <= uh' <= 2 /\ 0 <= up' <= 0 /\
    forall parts, r = Some parts -> parts_bounded 2 0 uh' up' parts.
Proof. apply (rewrite_parse_safe (bstr "a$HOST[1]b") 2 0 0 0); lia. Defined.

(** ** Reading back a printed template *)

Fixpoint dec (fuel : nat) (n : Z) : list Z :=
  match fuel with
  | O => []
  | S fuel => if n <? 10 then [48 + n] else dec fuel (n / 10) ++ [48 + n mod 10]
  end.

(** Twenty digits print every 64-bit index. *)
Definition print_index (n : Z) : list Z := dec 20 n.

Definition print_part (part : RewritePart) : list Z :=
  match part with
  | RString s => s
  | RHost i => bstr "$HOST[" ++ print_index i ++ [RBRACKET]
  | RPath i => bstr "$PATH[" ++ print_index i ++ [RBRACKET]
  end.

Definition print_parts (parts : RewriteParts) : list Z := concat (print_part <$> parts).

(** Templates as the parser builds them: literals are maximal runs without a
    dollar, indices fit the caps. *)
Fixpoint canonical (hc pc : Z) (parts : RewriteParts) : bool :=
  match parts with
  | [] => true
  | RString s :: parts =>
      negb (bool_decide (s = [])) && forallb (fun b => negb (b =? DOLLAR)) s &&
      match parts with RString _ :: _ => false | _ => true end && canonical hc pc parts
  | RHost i :: parts => (0 <=? i) && (i <? hc) && canonical hc pc parts
  | RPath i :: parts => (0 <=? i) && (i <? pc) && canonical hc pc parts
  end.

Lemma parse_index_dec fuel n l :
  0 <= n <= USIZE_MAX -> n < 10 ^ Z.of_nat fuel -> (0 < fuel)%nat ->
  parse_index (dec fuel n ++ l) 0 = parse_index l n.
Proof.
  revert n l. induction fuel as [| fuel IH]; intros n l Hn Hlt Hf; [lia |].
  assert (Hstep : forall d m, 0 <= d <= 9 -> 0 <= m -> m * 10 + d <= USIZE_MAX ->
    parse_index ((48 + d) :: l) m = parse_index l (m * 10 + d)).
  { intros d m Hd Hm Hle. cbn [parse_index]. unfold is_ascii_digit, between.
    replace (48 <=? 48 + d) with true by (symmetry; apply Z.leb_le; lia).
    replace (48 + d <=? 57) with true by (symmetry; apply Z.leb_le; lia). cbn [andb].
    unfold usize_checked_mul, usize_checked_add.
    replace (m * 10 <=? USIZE_MAX) with true by (symmetry; apply Z.leb_le; lia). cbn [mbind option_bind].
    replace (48 + d - 48) with d by lia.
    by replace (m * 10 + d <=? USIZE_MAX) with true by (symmetry; apply Z.leb_le; lia). }
  cbn [dec]. destruct (Z.ltb_spec n 10).
  - cbn [app]. by rewrite (Hstep n 0) by lia.
  - rewrite <- app_assoc. pose proof (Z.mod_pos_bound n 10). pose proof (Z.div_mod n 10).
    rewrite IH; cycle 1.
    + split; [apply Z.div_pos; lia | apply Z.div_le_upper_bound; lia].
    + apply Z.div_lt_upper_bound; [lia |]. rewrite Nat2Z.inj_succ, Z.pow_succ_r in Hlt by lia. lia.
    + destruct fuel; [cbn in Hlt; lia | lia].
    + cbn [app]. rewrite Hstep by (try apply Z.div_pos; lia). f_equal. lia.
Qed.

Lemma dec_nonempty fuel n : (0 < fuel)%nat -> dec fuel n <> [].
Proof.
  destruct fuel; [lia |]. intros _. cbn [dec]. destruct (n <? 10); [done |].
  intros Hd%app_eq_nil. by destruct Hd.
Qed.

Lemma parse_literal_run s l :
  forallb (fun b => negb (b =? DOLLAR)) s = true -> head l = Some DOLLAR \/ l = [] ->
  parse_literal (s ++ l) = (s, l).
Proof.
  intros Hs Hl. induction s as [| b s IH]; cbn [app].
  - destruct Hl as [Hl | ->]; [| done]. destruct l as [| b l]; [done |]. injection Hl as ->. done.
  - cbn in Hs. apply andb_true_iff in Hs as [Hb Hs]. cbn [parse_literal].
    destruct (b =? DOLLAR); [done |]. by rewrite IH.
Qed.

Definition used_after (parts : RewriteParts) (uh up : Z) : Z * Z :=
  foldl (fun '(uh, up) part => match part with
                               | RHost i => (bump uh i, up)
                               | RPath i => (uh, bump up i)
                               | RString _ => (uh, up)
                               end) (uh, up) parts.

(** The head of a printed template, after a literal. *)
Lemma print_head parts :
  match parts with RString _ :: _ => false | _ => true end = true ->
  head (print_parts parts) = Some DOLLAR \/ print_parts parts = [].
Proof. destruct parts as [| [] parts]; [by right | done | by left..]. Qed.

Lemma parse_index_stop n l : parse_index (RBRACKET :: l) n = Some (n, RBRACKET :: l).
Proof. done. Qed.

Lemma index_parsed i l :
  0 <= i <= USIZE_MAX ->
  parse_index (print_index i ++ RBRACKET :: l) 0 = Some (i, RBRACKET :: l) /\
  (length (RBRACKET :: l) =? length (print_index i ++ RBRACKET :: l))%nat = false.
Proof.
  intros Hi. unfold print_index. rewrite parse_index_dec by (done || (cbn; unfold USIZE_MAX in *; lia)).
  split; [done |]. apply Nat.eqb_neq. rewrite length_app.
  pose proof (dec_nonempty 20 i ltac:(lia)) as Hne. destruct (dec 20 i); [done |].
  cbn [length]. lia.
Qed.

Lemma starts_with_app p l : starts_with (p ++ l) p = true.
Proof. unfold starts_with. rewrite take_app_length. by apply bool_decide_eq_true. Qed.

(** One reference, read. *)
Lemma parse_loop_reference fuel hc pc is_host i l uh up result :
  0 <= i < (if is_host : bool then hc else pc) -> i <= USIZE_MAX ->
  parse_loop (S fuel) hc pc (print_part (if is_host then RHost i else RPath i) ++ l) uh up result =
  parse_loop fuel hc pc l (if is_host then bump uh i else uh) (if is_host then up else bump up i)
    (result ++ [if is_host then RHost i else RPath i]).
Proof.
  intros Hi Hmax. destruct (index_parsed i l) as [Hpi Hlen]; [lia |].
  assert (Hstart : forall p (rest : list Z), head p = Some DOLLAR -> exists b t,
    p ++ rest = b :: t /\ (b =? DOLLAR) = true).
  { intros [| b p] rest Hh; [done |]. injection Hh as ->. by exists DOLLAR, (p ++ rest). }
  destruct is_host; cbn [print_part]; rewrite <- !app_assoc; cbn [app].
  - set (rest := print_index i ++ RBRACKET :: l) in *.
    destruct (Hstart (bstr "$HOST[") rest eq_refl) as (b & t & E & Hb).
    cbn [parse_loop]. rewrite E, Hb, <- E. rewrite starts_with_app.
    change (drop 6 (bstr "$HOST[" ++ rest)) with rest. rewrite Hpi, Hlen.
    cbn [head]. rewrite bool_decide_true by done. cbn [negb drop].
    by rewrite (proj2 (Z.leb_gt hc i)) by lia.
  - set (rest := print_index i ++ RBRACKET :: l) in *.
    destruct (Hstart (bstr "$PATH[") rest eq_refl) as (b & t & E & Hb).
    cbn [parse_loop]. rewrite E, Hb, <- E. rewrite starts_with_app.
    change (starts_with (bstr "$PATH[" ++ rest) (bstr "$HOST[")) with false.
    change (drop 6 (bstr "$PATH[" ++ rest)) with rest. cbn iota. rewrite Hpi, Hlen.
    cbn [head]. rewrite bool_decide_true by done. cbn [negb drop].
    by rewrite (proj2 (Z.leb_gt pc i)) by lia.
Qed.

Lemma length_print_reference is_host i (l : list Z) :
  (length l < length (print_part (if is_host : bool then RHost i else RPath i) ++ l))%nat.
Proof. destruct is_host; cbn [print_part]; rewrite !length_app; cbn [length bstr]; lia. Qed.

Lemma parse_loop_print fuel hc pc parts uh up result :
  hc <= USIZE_MAX + 1 -> pc <= USIZE_MAX + 1 -> canonical hc pc parts = true ->
  (length (print_parts parts) < fuel)%nat ->
  parse_loop fuel hc pc (print_parts parts) uh up result =
  Val (Some (result ++ parts), (used_after parts uh up).1, (used_after parts uh up).2).
Proof.
  intros Hh Hp. revert parts uh up result.
  induction fuel as [| fuel IH]; intros parts uh up result Hc Hf; [lia |].
  assert (Href : forall (is_host : bool) i parts', 0 <= i < (if is_host then hc else pc) ->
    canonical hc pc parts' = true -> parts = (if is_host then RHost i else RPath i) :: parts' ->
    parse_loop (S fuel) hc pc (print_parts parts) uh up result =
    Val (Some (result ++ parts), (used_after parts uh up).1, (used_after parts uh up).2)).
  { intros is_host i parts' Hi Hc' ->. unfold print_parts in *. rewrite fmap_cons in *.
    cbn [concat] in *. pose proof (length_print_reference is_host i (concat (print_part <$> parts'))).
    rewrite parse_loop_reference by (destruct is_host; lia).
    rewrite IH by (done || (unfold print_parts; lia)). rewrite <- app_assoc. by destruct is_host. }
  destruct parts as [| [s | i | i] parts]; [by rewrite app_nil_r | | |]; cbn [canonical] in Hc.
  - clear Href. apply andb_true_iff in Hc as [[[Hs Hd]%andb_true_iff Hn]%andb_true_iff Hc].
    destruct s as [| b s]; [done |].
    change (print_parts (RString (b :: s) :: parts)) with (b :: s ++ print_parts parts) in *.
    cbn [parse_loop]. assert (Hb : (b =? DOLLAR) = false).
    { cbn in Hd. apply andb_true_iff in Hd as [Hd _]. by destruct (b =? DOLLAR). }
    rewrite Hb. change (b :: s ++ print_parts parts) with ((b :: s) ++ print_parts parts).
    rewrite parse_literal_run by (done || by apply print_head).
    rewrite IH, <- app_assoc; [done | done |]. cbn [length] in Hf. rewrite length_app in Hf. lia.
  - apply andb_true_iff in Hc as [[?%Z.leb_le ?%Z.ltb_lt]%andb_true_iff Hc]. by apply (Href true i parts).
  - apply andb_true_iff in Hc as [[?%Z.leb_le ?%Z.ltb_lt]%andb_true_iff Hc]. by apply (Href false i parts).
Qed.

(** A printed rewrite template is read back as the parts it was printed
    from: literal runs, [$HOST[n]] and [$PATH[n]] references in their order
    and with their indices, up to the largest 64-bit index. *)
Theorem rewrite_roundtrip hc pc parts :
  0 <= hc <= USIZE_MAX -> 0 <= pc <= USIZE_MAX -> canonical hc pc parts = true ->
  parse (print_parts parts) hc pc 0 0 =
  Val (Some parts, (used_after parts 0 0).1, (used_after parts 0 0).2).
Proof.
  intros Hh Hp Hc. unfold parse.
  destruct (parse_loop_spec (S (length (print_parts parts))) hc pc (print_parts parts) 0 0 []) as
    (r & uh & up & E & Hu' & Hp' & Hr); [lia | lia | lia | by constructor |].
  rewrite parse_loop_print in * by (done || lia). injection E as <- <- <-. cbn [app mbind outcome_bind] in *.
  specialize (Hr parts eq_refl).
  run_assert by (by eapply parts_bounded_in_caps).
  by run_assert by (apply andb_true_iff; split; apply Z.leb_le; lia).
Qed.

Lemma rewrite_roundtrip_witness :
  parse (print_parts [RString (bstr "/x/"); RPath 1; RHost 12; RString (bstr "?q")]) 13 2 0 0 =
  Val (Some [RString (bstr "/x/"); RPath 1; RHost 12; RString (bstr "?q")], 13, 2).
Proof.
  apply (rewrite_roundtrip 13 2 [RString (bstr "/x/"); RPath 1; RHost 12; RString (bstr "?q")]);
    [unfold USIZE_MAX; lia | unfold USIZE_MAX; lia | reflexivity].
Defined.
