(* ===== verification/Router.v ===== *)
(** * The route table

    Models [lib/src/router/mod.rs]: the path, method, header and domain rules,
    the selection of a rule among the rules of a hostname, the three parts of
    the table (listed before the trie, the trie, listed after it) with the
    operations that add and remove rules, and the lookup of a request.  The
    [idna] crate and [regex::escape] are parameters ([HostCrates]); a request's
    headers are the function of [trait RequestHeaders]; timings and logs are
    left out. *)

From S2P Require Import Prelude PatternTrie RouterRewrite.

(** [idna::domain_to_ascii(s).ok()] and [regex::escape]. *)
Class HostCrates := {
  domain_to_ascii : list Z -> option (list Z);
  regex_escape : list Z -> list Z;
}.

(** ** Methods *)

Inductive Method :=
| Get | Post | Head | Options | Put | Delete | Trace | Connect
| Custom (token : list Z).

Global Instance Method_eq_dec : EqDecision Method.
Proof. solve_decision. Defined.

Definition Method_new (s : list Z) : Method :=
  if decide (s = bstr "GET") then Get
  else if decide (s = bstr "POST") then Post
  else if decide (s = bstr "HEAD") then Head
  else if decide (s = bstr "OPTIONS") then Options
  else if decide (s = bstr "PUT") then Put
  else if decide (s = bstr "DELETE") then Delete
  else if decide (s = bstr "TRACE") then Trace
  else if decide (s = bstr "CONNECT") then Connect
  else Custom s.

Abbreviation MethodRule := (option Method) (only parsing).
Inductive MethodRuleResult := MethodAll | MethodEquals | MethodNone.

Global Instance MethodRuleResult_eq_dec : EqDecision MethodRuleResult.
Proof. solve_decision. Defined.

Definition MethodRule_new (method : option (list Z)) : MethodRule := Method_new <$> method.

Definition method_matches (rule : MethodRule) (method : Method) : MethodRuleResult :=
  match rule with
  | None => MethodAll
  | Some m => if decide (method = m) then MethodEquals else MethodNone
  end.

(** [trait RequestHeaders]: the first value of a header. *)
Abbreviation RequestHeaders := (list Z -> option (list Z)) (only parsing).

Section Rules.
Context `{RegexCrate}.

(** ** Paths *)

Inductive PathRule :=
| PathPrefix (prefix : list Z)
| PathRegex (regex : Regex)
| PathEquals (pattern : list Z)
| PathRegexPath (regex : Regex).

Inductive PathRuleResult := PRRegex | PRPrefix (size : nat) | PREquals | PRNone.

Definition QUESTION : Z := 63.

Definition split_query (target : list Z) : checked (list Z * list Z) :=
  let '(path, query) :=
    match list_find (fun b => b = QUESTION) target with
    | Some (at_, _) => (take at_ target, drop at_ target)
    | None => (target, drop (length target) target)
    end in
  _ ← debug_assert (length path + length query =? length target)%nat;
  _ ← debug_assert (bool_decide (QUESTION ∉ path) &&
                    (bool_decide (query = []) || bool_decide (head query = Some QUESTION)));
  Val (path, query).

Definition path_matches (rule : PathRule) (path : list Z) : checked PathRuleResult :=
  match rule with
  | PathPrefix prefix =>
      if starts_with path prefix then
        _ ← debug_assert (length prefix <=? length path)%nat;
        Val (PRPrefix (length prefix))
      else Val PRNone
  | PathRegex regex => Val (if is_match regex path then PRRegex else PRNone)
  | PathRegexPath regex =>
      '(path_only, _) ← split_query path;
      Val (if is_match regex path_only then PRRegex else PRNone)
  | PathEquals pattern => Val (if decide (path = pattern) then PREquals else PRNone)
  end.

Definition anchored_regex (value : list Z) : option Regex :=
  _ ← regex_new value;
  regex_new (bstr "\A(?:" ++ value ++ bstr ")\z").

(** The protobuf [PathRuleKind], with the values it does not define. *)
Inductive PathRuleKind := KPrefix | KRegex | KEquals | KRegexPath.

Definition PathRule_from_config (kind : option PathRuleKind) (value : list Z) : option PathRule :=
  match kind with
  | Some KPrefix => Some (PathPrefix value)
  | Some KRegex => PathRegex <$> anchored_regex value
  | Some KEquals => Some (PathEquals value)
  | Some KRegexPath => PathRegexPath <$> anchored_regex value
  | None => None
  end.

Definition path_eqb (a b : PathRule) : bool :=
  match a, b with
  | PathPrefix s1, PathPrefix s2 => bool_decide (s1 = s2)
  | PathRegex r1, PathRegex r2 => bool_decide (as_str r1 = as_str r2)
  | PathEquals s1, PathEquals s2 => bool_decide (s1 = s2)
  | PathRegexPath r1, PathRegexPath r2 => bool_decide (as_str r1 = as_str r2)
  | _, _ => false
  end.

(** ** Header predicates *)

Inductive HeaderMatch := HMExact (value : list Z) | HMRegex (regex : Regex) | HMPresent.

Definition header_match_eqb (a b : HeaderMatch) : bool :=
  match a, b with
  | HMExact v1, HMExact v2 => bool_decide (v1 = v2)
  | HMRegex r1, HMRegex r2 => bool_decide (as_str r1 = as_str r2)
  | HMPresent, HMPresent => true
  | _, _ => false
  end.

Record HeaderRule := mkHeaderRule { hr_name : list Z; hr_matcher : HeaderMatch }.

Definition header_rule_eqb (a b : HeaderRule) : bool :=
  bool_decide (hr_name a = hr_name b) && header_match_eqb (hr_matcher a) (hr_matcher b).

Definition NoHeaders : RequestHeaders := fun _ => None.

Definition header_rule_matches (rule : HeaderRule) (headers : RequestHeaders) : bool :=
  match headers (hr_name rule) with
  | None => false
  | Some value =>
      match hr_matcher rule with
      | HMExact expected => bool_decide (value = expected)
      | HMRegex regex => is_match regex value
      | HMPresent => true
      end
  end.

(** The derived [PartialEq] of the vector. *)
Fixpoint headers_eqb (a b : list HeaderRule) : bool :=
  match a, b with
  | [], [] => true
  | x :: a, y :: b => header_rule_eqb x y && headers_eqb a b
  | _, _ => false
  end.

Definition headers_is_empty (rules : list HeaderRule) : bool := bool_decide (length rules = 0%nat).

Definition headers_match (rules : list HeaderRule) (headers : RequestHeaders) : bool :=
  forallb (fun rule => header_rule_matches rule headers) rules.

(** ** Domains *)

Inductive DomainRule :=
| DomainAny
| DomainExact (s : list Z)
| DomainWildcard (s : list Z)
| DomainRegex (r : Regex).

Definition STAR : Z := 42.

(** [hostname.strip_suffix(suffix)] *)
Definition strip_suffix (l s : list Z) : option (list Z) :=
  if ends_with l s then Some (take (length l - length s) l) else None.

Definition domain_matches (rule : DomainRule) (hostname : list Z) : checked bool :=
  match rule with
  | DomainAny => Val true
  | DomainWildcard s =>
      _ ← debug_assert (bool_decide (head s = Some STAR));
      suffix ← range s 1 (length s);
      let matched :=
        match strip_suffix hostname suffix with
        | Some prefix => negb (bool_decide (prefix = [])) && negb (bool_decide (DOT ∈ prefix))
        | None => false
        end in
      _ ← debug_assert (negb matched || (length suffix <? length hostname)%nat);
      Val matched
  | DomainExact s => Val (bool_decide (s = hostname))
  | DomainRegex r => Val (is_match r hostname)
  end.

Definition domain_eqb (a b : DomainRule) : bool :=
  match a, b with
  | DomainAny, DomainAny => true
  | DomainWildcard s1, DomainWildcard s2 => bool_decide (s1 = s2)
  | DomainExact s1, DomainExact s2 => bool_decide (s1 = s2)
  | DomainRegex r1, DomainRegex r2 => bool_decide (as_str r1 = as_str r2)
  | _, _ => false
  end.

End Rules.

Arguments PathRule {_}.
Arguments HeaderRule {_}.
Arguments DomainRule {_}.
Abbreviation HeaderRules := (list HeaderRule) (only parsing).

(** ** Hostnames *)

Definition is_ascii_uppercase (b : Z) : bool := between 65 90 b.
Definition to_ascii_lowercase (l : list Z) : list Z :=
  (fun b => if is_ascii_uppercase b then b + 32 else b) <$> l.

Definition normalize_hostname (hostname : list Z) : list Z :=
  if existsb is_ascii_uppercase hostname then to_ascii_lowercase hostname else hostname.

(** [(from..).find(|&i| s[i] == c)], or the end: the bytes before [c] and the
    rest. *)
Definition split_at_byte (c : Z) (s : list Z) : list Z * list Z :=
  match list_find (fun b => b = c) s with
  | Some (i, _) => (take i s, drop i s)
  | None => (s, [])
  end.

Section Hosts.
Context `{RegexCrate} `{HostCrates}.

(** [split_labels], its [index] the suffix left to read. *)
Fixpoint split_labels (fuel : nat) (s result : list Z) : checked (option (list Z)) :=
  match fuel with
  | O => Panic
  | S fuel =>
      match s with
      | [] => Val None
      | b :: _ =>
          let step :=
            if b =? SLASH then
              match list_find (fun b => b = SLASH) (drop 1 s) with
              | None => None
              | Some (close, _) =>
                  let segment := take (close + 2) s in
                  if utf8_valid segment then Some (result ++ segment, drop (close + 2) s) else None
              end
            else
              let '(label, rest) := split_at_byte DOT s in
              if utf8_valid label then
                ascii ← domain_to_ascii label; Some (result ++ ascii, rest)
              else None in
          match step with
          | None => Val None
          | Some (result, rest) =>
              match rest with
              | [] => Val (Some result)
              | c :: rest => if negb (c =? DOT) then Val None
                             else split_labels fuel rest (result ++ [DOT])
              end
          end
      end
  end.

Definition tree_hostname_to_ascii (hostname : list Z) : checked (option (list Z)) :=
  normalized ← (if bool_decide (SLASH ∈ hostname) then split_labels (S (length hostname)) hostname []
                else Val None);
  match normalized with
  | Some normalized => Val (Some normalized)
  | None => Val (domain_to_ascii hostname)
  end.

(** [convert_regex_domain_rule], its [index] the suffix left to read. *)
Fixpoint convert_loop (fuel : nat) (s result : list Z) : checked (option (list Z)) :=
  match fuel with
  | O => Panic
  | S fuel =>
      match s with
      | [] => Val None
      | b :: _ =>
          let step :=
            if b =? SLASH then
              match list_find (fun b => b = SLASH) (drop 1 s) with
              | None => None
              | Some (i, _) =>
                  let r := take i (drop 1 s) in
                  if utf8_valid r && regex_new_ok r
                  then Some (result ++ bstr "(?:" ++ r ++ bstr ")", drop (i + 2) s) else None
              end
            else
              let '(label, rest) := split_at_byte DOT s in
              if utf8_valid label then Some (result ++ regex_escape label, rest) else None in
          match step with
          | None => Val None
          | Some (result, rest) =>
              match rest with
              | [] => Val (Some (result ++ bstr "\z"))
              | c :: rest => if c =? DOT then convert_loop fuel rest (result ++ bstr "\.")
                             else Val None
              end
          end
      end
  end.

Definition convert_regex_domain_rule (hostname : list Z) : checked (option (list Z)) :=
  convert_loop (S (length hostname)) hostname (bstr "\A").

Definition DomainRule_from_str (s : list Z) : checked (option DomainRule) :=
  if decide (s = bstr "*") then Val (Some DomainAny)
  else if bool_decide (SLASH ∈ s) then
    converted ← convert_regex_domain_rule s;
    match converted with
    | Some p => Val (match regex_build_ci p with Some r => Some (DomainRegex r) | None => None end)
    | None => Val None
    end
  else if bool_decide (STAR ∈ s) then
    if bool_decide (head s = Some STAR) then
      Val (match domain_to_ascii s with Some r => Some (DomainWildcard r) | None => None end)
    else Val None
  else Val (match domain_to_ascii s with Some r => Some (DomainExact r) | None => None end).

End Hosts.

(** ** Selection *)

Section Select.
Context `{RegexCrate} {Route : Type}.

Definition TreeRule : Type := PathRule * MethodRule * HeaderRules * Route.
Definition ListedRule : Type := DomainRule * PathRule * MethodRule * HeaderRules * Route.

Record TreeSelection := mkTreeSelection {
  prefix_length : nat;
  matched : option (PathRule * Route);
  exact : bool;
}.
Definition TreeSelection_default : TreeSelection := mkTreeSelection 0 None false.

Definition offer (sel : TreeSelection) (path_result : PathRuleResult)
    (method_result : MethodRuleResult) (path_len : nat) (rule : PathRule) (route : Route) :
    checked TreeSelection :=
  _ ← debug_assert (negb (exact sel));
  _ ← debug_assert (match path_result with PRNone => false | _ => true end &&
                    match method_result with MethodNone => false | _ => true end);
  match path_result with
  | PRRegex | PREquals =>
      match method_result with
      | MethodEquals => Val (mkTreeSelection (prefix_length sel) (Some (rule, route)) true)
      | MethodAll => Val (mkTreeSelection path_len (Some (rule, route)) (exact sel))
      | MethodNone => Val sel
      end
  | PRPrefix size =>
      if (prefix_length sel <=? size)%nat then
        _ ← debug_assert (prefix_length sel <=? size)%nat;
        Val (mkTreeSelection size (Some (rule, route)) (exact sel))
      else Val sel
  | PRNone => Val sel
  end.

(** The loop of [select_tree_rule] over the rules left, with the two
    classes. *)
Fixpoint select_loop (path_rules : list TreeRule) (path : list Z) (method : Method)
    (headers : RequestHeaders) (predicated unpredicated : TreeSelection) :
    checked (TreeSelection * TreeSelection) :=
  match path_rules with
  | [] => Val (predicated, unpredicated)
  | (rule, method_rule, header_rules, route) :: path_rules =>
      let continue := select_loop path_rules path method headers predicated unpredicated in
      let class := if headers_is_empty header_rules then unpredicated else predicated in
      if exact class then continue else
      path_result ← path_matches rule path;
      match path_result with
      | PRNone => continue
      | _ =>
          let method_result := method_matches method_rule method in
          match method_result with
          | MethodNone => continue
          | _ =>
              if negb (headers_is_empty header_rules) && negb (headers_match header_rules headers)
              then continue else
              class ← offer class path_result method_result (length path) rule route;
              let '(predicated, unpredicated) :=
                if headers_is_empty header_rules then (predicated, class)
                else (class, unpredicated) in
              if exact predicated then Val (predicated, unpredicated)
              else select_loop path_rules path method headers predicated unpredicated
          end
      end
  end.

Definition select_tree_rule (path_rules : list TreeRule) (path : list Z) (method : Method)
    (headers : RequestHeaders) : checked (option (PathRule * Route)) :=
  '(predicated, unpredicated) ←
    select_loop path_rules path method headers TreeSelection_default TreeSelection_default;
  _ ← debug_assert (negb (exact predicated) || negb (is_none (matched predicated)));
  Val (match matched predicated with Some m => Some m | None => matched unpredicated end).

Fixpoint listed_loop (rules : list ListedRule) (hostname path : list Z) (method : Method)
    (headers : RequestHeaders) (unpredicated : option ListedRule) : checked (option ListedRule) :=
  match rules with
  | [] =>
      _ ← debug_assert (match unpredicated with
                        | Some (_, _, _, header_rules, _) => headers_is_empty header_rules
                        | None => true
                        end);
      Val unpredicated
  | entry :: rules =>
      let '(domain_rule, path_rule, method_rule, header_rules, _) := entry in
      let continue := listed_loop rules hostname path method headers unpredicated in
      if negb (is_none unpredicated) && headers_is_empty header_rules then continue else
      d ← domain_matches domain_rule hostname;
      p ← (if d : bool then path_matches path_rule path else Val PRNone);
      if negb (d && match p with PRNone => false | _ => true end &&
               match method_matches method_rule method with MethodNone => false | _ => true end)
      then continue
      else if headers_is_empty header_rules then
        listed_loop rules hostname path method headers (Some entry)
      else if headers_match header_rules headers then Val (Some entry)
      else continue
  end.

Definition select_listed_rule (rules : list ListedRule) (hostname path : list Z) (method : Method)
    (headers : RequestHeaders) : checked (option ListedRule) :=
  listed_loop rules hostname path method headers None.

End Select.

Arguments TreeRule {_} Route.
Arguments ListedRule {_} Route.
Arguments TreeSelection {_} Route.

(** ** Rules without their assertions *)

Section RuleLemmas.
Context `{RegexCrate}.

Definition query_split (target : list Z) : list Z * list Z := split_at_byte QUESTION target.

Lemma split_at_byte_app c s : (split_at_byte c s).1 ++ (split_at_byte c s).2 = s.
Proof.
  unfold split_at_byte. destruct (list_find _ s) as [[i b] |]; cbn; [apply take_drop | apply app_nil_r].
Qed.

Lemma split_at_byte_spec c s :
  (c ∉ (split_at_byte c s).1) /\ ((split_at_byte c s).2 = [] \/ head (split_at_byte c s).2 = Some c).
Proof.
  unfold split_at_byte. destruct (list_find _ s) as [[i b] |] eqn:E; cbn.
  - apply list_find_Some in E as (Hi & -> & Hlt). split.
    + intros [j Hj]%list_elem_of_lookup. apply lookup_take_Some in Hj as [Hj ?]. by apply (Hlt j c Hj).
    + right. by rewrite head_lookup, lookup_drop, Nat.add_0_r.
  - apply list_find_None in E. split; [| by left]. intros Hc.
    by apply (proj1 (Forall_forall _ _) E c Hc).
Qed.

Lemma split_query_Val target : split_query target = Val (query_split target).
Proof.
  unfold split_query, query_split.
  pose proof (split_at_byte_app QUESTION target) as Happ.
  pose proof (split_at_byte_spec QUESTION target) as [Hq Hr].
  assert (E : match list_find (fun b => b = QUESTION) target with
              | Some (at_, _) => (take at_ target, drop at_ target)
              | None => (target, drop (length target) target)
              end = split_at_byte QUESTION target).
  { unfold split_at_byte. destruct (list_find _ target) as [[i b] |]; [done |]. by rewrite drop_all. }
  rewrite E. destruct (split_at_byte QUESTION target) as [path query]. cbn [fst snd] in *.
  run_assert by (rewrite <- Happ, length_app; apply Nat.eqb_refl).
  run_assert by (apply andb_true_iff; split; [by apply bool_decide_eq_true |];
    apply orb_true_iff; destruct Hr; [left | right]; by apply bool_decide_eq_true).
  done.
Qed.

Definition path_result (rule : PathRule) (path : list Z) : PathRuleResult :=
  match rule with
  | PathPrefix prefix => if starts_with path prefix then PRPrefix (length prefix) else PRNone
  | PathRegex regex => if is_match regex path then PRRegex else PRNone
  | PathRegexPath regex => if is_match regex (query_split path).1 then PRRegex else PRNone
  | PathEquals pattern => if decide (path = pattern) then PREquals else PRNone
  end.

Lemma starts_with_length l p : starts_with l p = true -> (length p <= length l)%nat.
Proof.
  unfold starts_with. intros Hp%bool_decide_eq_true. rewrite <- Hp at 1. rewrite length_take. lia.
Qed.

Lemma path_matches_Val rule path : path_matches rule path = Val (path_result rule path).
Proof.
  destruct rule as [p | r | p | r]; cbn [path_matches path_result]; [| done | done |].
  - destruct (starts_with path p) eqn:E; [| done].
    by run_assert by (by apply Nat.leb_le, starts_with_length).
  - rewrite split_query_Val. by destruct (query_split path).
Qed.

(** A prefix is no longer than the path it matches. *)
Lemma path_result_prefix rule path n : path_result rule path = PRPrefix n -> (n <= length path)%nat.
Proof.
  destruct rule; cbn; repeat case_match; try done. intros [= <-]. by apply starts_with_length.
Qed.

(** A wildcard rule keeps its star. *)
Definition domain_ok (rule : DomainRule) : Prop :=
  match rule with DomainWildcard s => head s = Some STAR | _ => True end.

Definition domain_result (rule : DomainRule) (hostname : list Z) : bool :=
  match rule with
  | DomainAny => true
  | DomainWildcard s =>
      match strip_suffix hostname (drop 1 s) with
      | Some prefix => negb (bool_decide (prefix = [])) && negb (bool_decide (DOT ∈ prefix))
      | None => false
      end
  | DomainExact s => bool_decide (s = hostname)
  | DomainRegex r => is_match r hostname
  end.

Lemma domain_matches_Val rule hostname :
  domain_ok rule -> domain_matches rule hostname = Val (domain_result rule hostname).
Proof.
  destruct rule as [| | s |]; [done | done | | done]. cbn [domain_ok domain_matches domain_result].
  intros Hs. run_assert by (by apply bool_decide_eq_true).
  assert (Hl : (1 <= length s)%nat) by (destruct s; [done | cbn; lia]).
  unfold range. rewrite (proj2 (Nat.leb_le _ _) Hl), Nat.leb_refl. cbn [andb mbind outcome_bind].
  replace (slice s 1 (length s)) with (drop 1 s).
  2: { unfold slice. rewrite take_ge; [done |]. rewrite length_drop. lia. }
  unfold strip_suffix. destruct (ends_with hostname (drop 1 s)) eqn:E; [| done].
  rewrite debug_assert_true; [done |].
  destruct (bool_decide (take _ hostname = [])) eqn:Et; [done |]. apply bool_decide_eq_false in Et.
  apply orb_true_iff. right. apply Nat.ltb_lt.
  destruct (decide (length (drop 1 s) < length hostname)%nat) as [|Hn]; [done |].
  exfalso. apply Et. replace (length hostname - length (drop 1 s))%nat with 0%nat by lia. done.
Qed.

End RuleLemmas.

(** ** What the selections choose *)

(** A rule without a method serves every method, one with a method its own. *)
Definition method_serves (m : MethodRule) (method : Method) : bool :=
  match m with None => true | Some m => bool_decide (m = method) end.

Lemma method_serves_matches m method :
  method_serves m method = match method_matches m method with MethodNone => false | _ => true end.
Proof. destruct m as [m |]; [| done]. cbn. case_bool_decide; case_decide; congruence. Qed.

Section Selections.
Context `{RegexCrate} {Route : Type}.
Implicit Types rule : TreeRule Route.

(** How a rule serves a request: with an exact match of path and method, or
    with a number of bytes of the path. *)
Inductive Rank := RankExact | RankLength (n : nat).
Global Instance Rank_eq_dec : EqDecision Rank.
Proof. solve_decision. Defined.

Definition rank (path : list Z) (method : Method) (headers : RequestHeaders)
    (rule : TreeRule Route) : option Rank :=
  let '(p, m, h, _) := rule in
  if negb (headers_match h headers && method_serves m method) then None else
  match path_result p path with
  | PRNone => None
  | PRPrefix n => Some (RankLength n)
  | PRRegex | PREquals => Some (if is_none m then RankLength (length path) else RankExact)
  end.

Lemma rank_cases path method headers p m h (route : Route) :
  rank path method headers (p, m, h, route) =
  if negb (headers_match h headers) then None else
  match path_result p path, method_matches m method with
  | PRNone, _ | _, MethodNone => None
  | (PRRegex | PREquals), MethodEquals => Some RankExact
  | (PRRegex | PREquals), MethodAll => Some (RankLength (length path))
  | PRPrefix n, _ => Some (RankLength n)
  end.
Proof.
  cbn [rank]. destruct (headers_match h headers); [| done].
  destruct m as [m |]; cbn; [| by destruct (path_result p path)].
  case_bool_decide; case_decide; try done; by destruct (path_result p path).
Qed.

Definition served (rule : TreeRule Route) : PathRule * Route := (rule.1.1.1, rule.2).
Definition predicated (rule : TreeRule Route) : bool := negb (headers_is_empty rule.1.2).

Definition serving (path : list Z) (method : Method) (headers : RequestHeaders) (class : bool)
    (rules : list (TreeRule Route)) : list (TreeRule Route) :=
  List.filter (fun rule => Bool.eqb (predicated rule) class &&
                           negb (is_none (rank path method headers rule))) rules.

Section Request.
Context (path : list Z) (method : Method) (headers : RequestHeaders).
Abbreviation rk := (rank path method headers).

(** The rule a class serves: its first exact match; without one, the last of
    the rules that match the most bytes. *)
Definition wins (class : list (TreeRule Route)) (rule : TreeRule Route) : Prop :=
  (exists before after, class = before ++ rule :: after /\ rk rule = Some RankExact /\
     Forall (fun r => rk r <> Some RankExact) before) \/
  (exists before after n, class = before ++ rule :: after /\ rk rule = Some (RankLength n) /\
     Forall (fun r => exists m, rk r = Some (RankLength m) /\ (m <= n)%nat) before /\
     Forall (fun r => exists m, rk r = Some (RankLength m) /\ (m < n)%nat) after).

(** The state of a class after the rules of [class] were offered. *)
Definition class_state (class : list (TreeRule Route)) (sel : TreeSelection Route) : Prop :=
  match class with
  | [] => sel = TreeSelection_default
  | _ =>
      exists rule, wins class rule /\ matched sel = Some (served rule) /\
      (exact sel = true <-> rk rule = Some RankExact) /\
      forall n, rk rule = Some (RankLength n) -> prefix_length sel = n
  end.

Lemma wins_length class rule n :
  wins class rule -> rk rule = Some (RankLength n) ->
  Forall (fun r => exists m, rk r = Some (RankLength m) /\ (m <= n)%nat) class.
Proof.
  intros [(? & ? & _ & He & _) | (b & a & m & -> & Hr & Hb & Ha)] Hn; [congruence |].
  replace m with n in * by congruence. apply Forall_app. split; [done |].
  constructor; [by exists n |]. eapply Forall_impl; [exact Ha |]. intros r (k & ? & ?). exists k. split; [done | lia].
Qed.

(** A decided class stays as it is. *)
Lemma wins_exact_snoc class rule r : wins class rule -> rk rule = Some RankExact -> wins (class ++ [r]) rule.
Proof.
  intros [(b & a & -> & He & Hb) | (? & ? & ? & _ & Hr & _)] Hx; [| congruence].
  left. exists b, (a ++ [r]). by rewrite <- app_assoc.
Qed.

Lemma wins_snoc_exact class rule r :
  wins class rule -> rk rule <> Some RankExact -> rk r = Some RankExact -> wins (class ++ [r]) r.
Proof.
  intros Hw Hne Hr. left. exists class, []. split; [done |]. split; [done |].
  destruct (rk rule) as [[| n] |] eqn:E; [done | |].
  - eapply Forall_impl; [exact (wins_length _ _ _ Hw E) |]. intros x (m & -> & _). done.
  - destruct Hw as [(? & ? & _ & ? & _) | (? & ? & ? & _ & ? & _)]; congruence.
Qed.

Lemma wins_snoc_longer class rule r n m :
  wins class rule -> rk rule = Some (RankLength n) -> rk r = Some (RankLength m) -> (n <= m)%nat ->
  wins (class ++ [r]) r.
Proof.
  intros Hw Hn Hm Hle. right. exists class, [], m. split; [done |]. split; [done |].
  split; [| done]. eapply Forall_impl; [exact (wins_length _ _ _ Hw Hn) |].
  intros x (k & ? & ?). exists k. split; [done | lia].
Qed.

Lemma wins_snoc_shorter class rule r n m :
  wins class rule -> rk rule = Some (RankLength n) -> rk r = Some (RankLength m) -> (m < n)%nat ->
  wins (class ++ [r]) rule.
Proof.
  intros [(? & ? & _ & He & _) | (b & a & k & -> & Hr & Hb & Ha)] Hn Hm Hlt; [congruence |].
  replace k with n in * by congruence. right. exists b, (a ++ [r]), n.
  rewrite <- app_assoc. split; [done |]. split; [done |]. split; [done |].
  apply Forall_app. split; [done |]. apply Forall_singleton. eauto.
Qed.

Lemma wins_singleton r : is_Some (rk r) -> wins [r] r.
Proof.
  intros [[| n] Hr].
  - left. exists [], []. done.
  - right. by exists [], [], n.
Qed.

Lemma rank_length_le rule n : rk rule = Some (RankLength n) -> (n <= length path)%nat.
Proof.
  destruct rule as [[[p m] h] route]. rewrite rank_cases. destruct (negb _); [done |].
  destruct (path_result p path) as [| size | |] eqn:Ep, (method_matches m method); intros [= <-];
    try done; by eapply path_result_prefix.
Qed.

Lemma class_state_undecided class sel :
  class_state class sel -> exact sel = false ->
  class = [] /\ sel = TreeSelection_default \/
  exists rule n, wins class rule /\ matched sel = Some (served rule) /\
    rk rule = Some (RankLength n) /\ prefix_length sel = n.
Proof.
  intros Hst Hex. destruct class as [| r class]; [by left |]. right.
  destruct Hst as (rule & Hw & Hm & Hiff & Hn). rewrite Hex in Hiff.
  destruct (rk rule) as [[| n] |] eqn:E.
  - by destruct Hiff as [_ Hi]; specialize (Hi eq_refl).
  - exists rule, n. auto.
  - destruct Hw as [(? & ? & _ & ? & _) | (? & ? & ? & _ & ? & _)]; congruence.
Qed.

(** The class takes an exact match, or one of at least as many bytes. *)
Lemma class_state_take class sel r k :
  class_state class sel -> exact sel = false -> rk r = Some k ->
  match k with RankExact => True | RankLength n => (prefix_length sel <= n)%nat end ->
  class_state (class ++ [r])
    match k with
    | RankExact => mkTreeSelection (prefix_length sel) (Some (served r)) true
    | RankLength n => mkTreeSelection n (Some (served r)) false
    end.
Proof.
  intros Hst Hex Hr Hk. assert (Hwin : wins (class ++ [r]) r).
  { destruct (class_state_undecided _ _ Hst Hex) as [[-> ->] | (rule & n & Hw & _ & Hn & Hp)].
    - apply wins_singleton. by rewrite Hr.
    - destruct k as [| m]; [by eapply wins_snoc_exact; [| rewrite Hn |] |].
      eapply wins_snoc_longer; [done.. |]. lia. }
  assert (Hst' : forall sel', matched sel' = Some (served r) ->
    (exact sel' = true <-> rk r = Some RankExact) ->
    (forall n, rk r = Some (RankLength n) -> prefix_length sel' = n) -> class_state (class ++ [r]) sel').
  { intros sel' ???. unfold class_state. destruct (class ++ [r]) eqn:E; [by destruct class |]. by exists r. }
  apply Hst'; rewrite ?Hr; destruct k; cbn; try done. by intros ? [= ->].
Qed.

Lemma class_state_skip class sel r m :
  class_state class sel -> exact sel = false -> rk r = Some (RankLength m) ->
  (m < prefix_length sel)%nat -> class_state (class ++ [r]) sel.
Proof.
  intros Hst Hex Hr Hlt.
  destruct (class_state_undecided _ _ Hst Hex) as [[-> ->] | (rule & n & Hw & Hm & Hn & Hp)].
  { cbn in Hlt. lia. }
  unfold class_state. destruct (class ++ [r]) eqn:E; [by destruct class |]. rewrite <- E.
  exists rule. split; [eapply wins_snoc_shorter; [done.. |]; lia |]. split; [done |].
  rewrite Hn, Hex. split; [done |]. intros ? [= <-]. done.
Qed.

(** A rule that serves the request, offered to an undecided class. *)
Lemma offer_spec class sel p m h route :
  class_state class sel -> exact sel = false -> is_Some (rk (p, m, h, route)) ->
  exists sel', offer sel (path_result p path) (method_matches m method) (length path) p route = Val sel' /\
    class_state (class ++ [(p, m, h, route)]) sel'.
Proof.
  intros Hst Hex Hrk. unfold offer. rewrite Hex. cbn [negb debug_assert mbind outcome_bind].
  pose proof (class_state_take class sel (p, m, h, route)) as Htake.
  pose proof (class_state_skip class sel (p, m, h, route)) as Hskip.
  assert (Hle : (prefix_length sel <= length path)%nat).
  { destruct (class_state_undecided _ _ Hst Hex) as [[-> ->] | (rule & n & _ & _ & Hn & ->)];
      [cbn; lia | by eapply rank_length_le]. }
  rewrite rank_cases in *. destruct (negb _); [by destruct Hrk |].
  destruct (path_result p path) as [| size | |], (method_matches m method);
    try (by destruct Hrk); cbn [debug_assert andb mbind outcome_bind].
  - eexists. split; [done |]. by apply (Htake (RankLength (length path))).
  - eexists. split; [done |]. by apply (Htake RankExact).
  - destruct (Nat.leb_spec (prefix_length sel) size); cbn [debug_assert mbind outcome_bind];
      (eexists; split; [done |]); [by apply (Htake (RankLength size)) | by eapply Hskip].
  - destruct (Nat.leb_spec (prefix_length sel) size); cbn [debug_assert mbind outcome_bind];
      (eexists; split; [done |]); [by apply (Htake (RankLength size)) | by eapply Hskip].
  - eexists. split; [done |]. by apply (Htake (RankLength (length path))).
  - eexists. split; [done |]. by apply (Htake RankExact).
Qed.

(** A decided class takes no other rule. *)
Lemma class_state_decided class l sel :
  class_state class sel -> exact sel = true -> class_state (class ++ l) sel.
Proof.
  intros Hst Hex. destruct class as [| r class]; [by rewrite Hst in Hex |].
  destruct Hst as (rule & Hw & Hm & Hiff & Hn). exists rule.
  split; [| done]. apply Hiff in Hex. clear Hm Hiff Hn.
  induction l as [| x l IH] using rev_ind; [by rewrite app_nil_r |].
  change (r :: class ++ l ++ [x]) with ((r :: class) ++ (l ++ [x])). rewrite app_assoc.
  by apply wins_exact_snoc.
Qed.

Lemma headers_empty_match h : headers_is_empty h = true -> headers_match h headers = true.
Proof. intros Hh%bool_decide_eq_true. by destruct h. Qed.

Lemma serving_cons class rule rules :
  serving path method headers class (rule :: rules) =
  (if Bool.eqb (predicated rule) class && negb (is_none (rk rule)) then [rule] else []) ++
  serving path method headers class rules.
Proof. unfold serving. cbn [List.filter]. by destruct (_ && _). Qed.

(** One turn of the loop: a rule that does not serve the request, or whose
    class is decided, is passed over. *)
Lemma select_loop_step p m h route rules sp su :
  select_loop ((p, m, h, route) :: rules) path method headers sp su =
  (let class := if headers_is_empty h then su else sp in
   if exact class || is_none (rk (p, m, h, route)) then select_loop rules path method headers sp su
   else
     class ← offer class (path_result p path) (method_matches m method) (length path) p route;
     let '(sp, su) := if headers_is_empty h then (sp, class) else (class, su) in
     if exact sp then Val (sp, su) else select_loop rules path method headers sp su).
Proof.
  cbn [select_loop]. rewrite rank_cases, path_matches_Val. destruct (exact _); cbn [orb]; [done |].
  cbn [mbind outcome_bind]. destruct (headers_is_empty h) eqn:Hh; cbn [negb andb].
  - rewrite headers_empty_match by done. cbn [negb].
    by destruct (path_result p path), (method_matches m method).
  - destruct (negb (headers_match h headers)); cbn [is_none];
      by destruct (path_result p path), (method_matches m method).
Qed.

Lemma select_loop_spec rules P U sp su :
  class_state P sp -> class_state U su -> exact sp = false ->
  exists sp' su', select_loop rules path method headers sp su = Val (sp', su') /\
    class_state (P ++ serving path method headers true rules) sp' /\
    (exact sp' = false -> class_state (U ++ serving path method headers false rules) su').
Proof.
  revert P U sp su. induction rules as [| rule rules IH]; intros P U sp su HP HU Hex.
  { exists sp, su. unfold serving. cbn. by rewrite !app_nil_r. }
  rewrite !serving_cons, !app_assoc. destruct rule as [[[p m] h] route]. rewrite select_loop_step.
  unfold predicated. cbn [fst snd]. set (r := (p, m, h, route) : TreeRule Route).
  destruct (is_none (rk r)) eqn:Hnone.
  { rewrite orb_true_r, !andb_false_r, !app_nil_r. by apply IH. }
  rewrite orb_false_r. assert (Hrk : is_Some (rk r)) by (by destruct (rk r)).
  destruct (headers_is_empty h); cbn [negb Bool.eqb andb]; rewrite app_nil_r.
  - destruct (exact su) eqn:Hsu; [by apply IH; [| apply class_state_decided |] |].
    destruct (offer_spec U su p m h route HU Hsu Hrk) as (su' & -> & HU').
    cbn [mbind outcome_bind]. rewrite Hex. by apply IH.
  - rewrite Hex. destruct (offer_spec P sp p m h route HP Hex Hrk) as (sp1 & -> & HP').
    cbn [mbind outcome_bind]. destruct (exact sp1) eqn:Hsp1; [| by apply IH].
    exists sp1, su. split; [done |]. split; [by apply class_state_decided | congruence].
Qed.

(** Which rule of a hostname serves a request: among the rules whose path,
    method and header predicates all match, the ones with predicates outrank
    the ones without; within a class the first rule that matches its path by
    equality or regex and its method exactly wins, and failing one the rule
    that matches the most bytes of the path, the last declared on a tie.
    Nothing is selected only when no rule matches, and no assertion fails. *)
Theorem select_tree_rule_spec (rules : list (TreeRule Route)) :
  exists answer, select_tree_rule rules path method headers = Val answer /\
    match serving path method headers true rules, serving path method headers false rules with
    | [], [] => answer = None
    | [], class | class, _ => exists rule, wins class rule /\ answer = Some (served rule)
    end.
Proof.
  unfold select_tree_rule.
  destruct (select_loop_spec rules [] [] TreeSelection_default TreeSelection_default)
    as (sp & su & -> & HP & HU); [done.. |]. cbn [mbind outcome_bind app] in *.
  destruct (serving path method headers true rules) as [| r rs].
  - rewrite HP in *. cbn. eexists. split; [done |]. specialize (HU eq_refl).
    destruct (serving path method headers false rules) as [| r rs]; [by rewrite HU |].
    destruct HU as (rule & Hw & Hm & _). exists rule. by rewrite Hm.
  - destruct HP as (rule & Hw & Hm & _). rewrite Hm. rewrite orb_true_r. cbn.
    eexists. split; [done |]. destruct (serving _ _ _ false _); by exists rule.
Qed.

End Request.
End Selections.

Section Listed.
Context `{RegexCrate} {Route : Type}.
Context (hostname path : list Z) (method : Method) (headers : RequestHeaders).

Definition entry_headers (e : ListedRule Route) : HeaderRules := e.1.2.
Definition entry_domain (e : ListedRule Route) : DomainRule := e.1.1.1.1.

(** Whether a listed rule matches the request, header predicates included. *)
Definition entry_serves (e : ListedRule Route) : bool :=
  let '(d, p, m, h, _) := e in
  domain_result d hostname && match path_result p path with PRNone => false | _ => true end &&
  method_serves m method && headers_match h headers.

Definition serving_entry (predicated : bool) (rules : list (ListedRule Route)) :
    option (ListedRule Route) :=
  List.find (fun e => Bool.eqb (negb (headers_is_empty (entry_headers e))) predicated &&
                      entry_serves e) rules.

(** The first rule with predicates that matches, or else the first without. *)
Definition listed_choice (rules : list (ListedRule Route)) : option (ListedRule Route) :=
  match serving_entry true rules with Some e => Some e | None => serving_entry false rules end.

Lemma serving_entry_cons b e rules :
  serving_entry b (e :: rules) =
  if Bool.eqb (negb (headers_is_empty (entry_headers e))) b && entry_serves e then Some e
  else serving_entry b rules.
Proof. done. Qed.

Lemma listed_loop_Val rules held :
  Forall (fun e => domain_ok (entry_domain e)) rules ->
  (forall e, held = Some e -> headers_is_empty (entry_headers e) = true) ->
  listed_loop rules hostname path method headers held =
  Val (match serving_entry true rules with
       | Some e => Some e
       | None => match held with Some e => Some e | None => serving_entry false rules end
       end).
Proof.
  intros Hd. revert held. induction Hd as [| e rules He Hd IH]; intros held Hh.
  { cbn. destruct held as [[[[[d p] m] h] r] |]; [| done].
    by rewrite (Hh _ eq_refl : headers_is_empty h = true). }
  rewrite !serving_entry_cons. destruct e as [[[[d p] m] h] r]. cbn [listed_loop].
  cbn [entry_headers entry_serves fst snd]. rewrite method_serves_matches.
  destruct (headers_is_empty h) eqn:Hempty; cbn [negb Bool.eqb andb].
  - destruct held as [e0 |] eqn:Eh; cbn [is_none negb andb].
    { by rewrite IH. }
    rewrite domain_matches_Val by done. cbn [mbind outcome_bind].
    rewrite headers_empty_match, andb_true_r by done.
    destruct (domain_result d hostname); cbn [andb negb]; [| by rewrite IH].
    rewrite path_matches_Val. cbn [mbind outcome_bind].
    destruct (match path_result p path with PRNone => false | _ => true end); cbn [andb negb];
      [| by rewrite IH].
    destruct (method_matches m method); cbn [negb]; [| | by rewrite IH];
      (rewrite IH by (by intros ? [= <-]); done).
  - rewrite andb_false_r. rewrite domain_matches_Val by done. cbn [mbind outcome_bind].
    destruct (domain_result d hostname); cbn [andb negb]; [| by rewrite IH].
    rewrite path_matches_Val. cbn [mbind outcome_bind].
    destruct (match path_result p path with PRNone => false | _ => true end); cbn [andb negb];
      [| by rewrite IH].
    destruct (method_matches m method); cbn [negb andb]; [| | by rewrite IH];
      (destruct (headers_match h headers); [done | by rewrite IH]).
Qed.

Lemma select_listed_rule_Val rules :
  Forall (fun e => domain_ok (entry_domain e)) rules ->
  select_listed_rule rules hostname path method headers = Val (listed_choice rules).
Proof. intros Hd. unfold select_listed_rule. by rewrite listed_loop_Val. Qed.

End Listed.

Section Chosen.
Context `{RegexCrate} {Route : Type}.

Section Best.
Context (path : list Z) (method : Method) (headers : RequestHeaders).
Abbreviation rk := (rank path method headers).

(** The most bytes of the path a rule of the class matches. *)
Definition longest (class : list (TreeRule Route)) : nat :=
  max_list ((fun rule => match rk rule with Some (RankLength n) => n | _ => 0%nat end) <$> class).

(** The rule a class serves: its first exact match; without one, the last of
    the rules that match the most bytes. *)
Definition best_rule (class : list (TreeRule Route)) : option (TreeRule Route) :=
  match List.find (fun rule => bool_decide (rk rule = Some RankExact)) class with
  | Some rule => Some rule
  | None => last (filter (fun rule => rk rule = Some (RankLength (longest class))) class)
  end.

(** The reference choice among the rules of a hostname: the best of the rules
    with header predicates that serve the request, or else the best of those
    without. *)
Definition tree_choice (rules : list (TreeRule Route)) : option (PathRule * Route) :=
  served <$> match best_rule (serving path method headers true rules) with
             | Some rule => Some rule
             | None => best_rule (serving path method headers false rules)
             end.

Lemma longest_at before after rule n :
  rk rule = Some (RankLength n) ->
  Forall (fun r => exists m, rk r = Some (RankLength m) /\ (m <= n)%nat) (before ++ rule :: after) ->
  longest (before ++ rule :: after) = n.
Proof.
  intros Hr Hall. unfold longest. apply Nat.le_antisymm.
  - clear Hr. induction Hall as [| r l (m & Hm & ?) _ IH]; cbn; [lia |]. rewrite Hm. lia.
  - apply max_list_elem_of_le, list_elem_of_fmap. exists rule. rewrite Hr. split; [done | set_solver].
Qed.

Lemma find_skip {A} (f : A -> bool) l l' :
  Forall (fun x => f x = false) l -> List.find f (l ++ l') = List.find f l'.
Proof. induction 1 as [| x l Hx _ IH]; cbn; [done |]. by rewrite Hx. Qed.

Lemma wins_best class rule : wins path method headers class rule -> best_rule class = Some rule.
Proof.
  unfold best_rule. intros [(b & a & -> & Hr & Hb) | (b & a & n & -> & Hr & Hb & Ha)].
  - rewrite find_skip; [| by eapply Forall_impl; [exact Hb |]; intros r ?; apply bool_decide_eq_false].
    cbn [List.find]. by rewrite bool_decide_true.
  - assert (Hall : Forall (fun r => exists m, rk r = Some (RankLength m) /\ (m <= n)%nat) (b ++ rule :: a)).
    { apply Forall_app. split; [done |]. constructor; [by exists n |].
      eapply Forall_impl; [exact Ha |]. intros r (m & ? & ?). exists m. split; [done | lia]. }
    rewrite (longest_at b a rule n Hr Hall), <- (app_nil_r (b ++ rule :: a)), find_skip.
    2: { eapply Forall_impl; [exact Hall |]. intros r (m & -> & _). by apply bool_decide_eq_false. }
    cbn [List.find]. rewrite app_nil_r, filter_app, filter_cons_True by done.
    rewrite (filter_none _ a), last_snoc; [done |].
    eapply Forall_impl; [exact Ha |]. intros r (m & -> & ?) [= ->]. lia.
Qed.

(** The scan of the code makes the reference choice, and fails no assertion. *)
Lemma select_tree_rule_Val rules :
  select_tree_rule rules path method headers = Val (tree_choice rules).
Proof.
  destruct (select_tree_rule_spec path method headers rules) as (answer & -> & Ha). f_equal.
  unfold tree_choice. destruct (serving path method headers true rules) as [| r rs] eqn:Et.
  - change (best_rule []) with (@None (TreeRule Route)).
    destruct (serving path method headers false rules) as [| r rs]; [done |].
    destruct Ha as (rule & Hw & ->). by rewrite (wins_best _ _ Hw).
  - destruct (serving path method headers false rules);
      destruct Ha as (rule & Hw & ->); by rewrite (wins_best _ _ Hw).
Qed.
End Best.
End Chosen.
