(* ===== verification/RouterFrontend.v ===== *)
(** * Frontends and routing decisions

    Models of [lib/src/router/mod.rs] the [Frontend] a configuration becomes,
    its HSTS edit and the [RouteResult] a matched rule gives a request, and of
    [command/src/config.rs] the validation of the header predicates.  [Rc]s are
    the values they share; strings are their bytes; counters and logs are left
    out. *)

From S2P Require Import Prelude PatternTrie PatternTrieSpec RouterRewrite Router.
From stdpp Require Import sorting.
Local Open Scope Z_scope.

Abbreviation ClusterId := (list Z) (only parsing).

Inductive RedirectPolicy :=
| Forward | Permanent | Unauthorized | Found | PermanentRedirect | SilentClose.
Inductive RedirectScheme := UseSame | UseHttp | UseHttps.

Global Instance RedirectPolicy_eq_dec : EqDecision RedirectPolicy.
Proof. solve_decision. Defined.

(** [RedirectPolicy::try_from(i32).ok()], [RedirectScheme::try_from(i32).ok()] *)
Definition RedirectPolicy_try_from (z : Z) : option RedirectPolicy :=
  [Forward; Permanent; Unauthorized; Found; PermanentRedirect; SilentClose] !! Z.to_nat z
  ≫= fun p => if 0 <=? z then Some p else None.
Definition RedirectScheme_try_from (z : Z) : option RedirectScheme :=
  [UseSame; UseHttp; UseHttps] !! Z.to_nat z ≫= fun p => if 0 <=? z then Some p else None.

(** ** Header edits and HSTS *)

Inductive HeaderEditMode := Append | SetIfAbsent | SetMode.
Record HeaderEdit := mkHeaderEdit { he_key : list Z; he_val : list Z; he_mode : HeaderEditMode }.

Record HstsConfig := mkHstsConfig {
  hsts_enabled : option bool;
  hsts_max_age : option Z;
  hsts_include_subdomains : option bool;
  hsts_preload : option bool;
  hsts_force_replace_backend : option bool;
}.

(** [matches!(o, Some(true))] *)
Definition is_some_true (o : option bool) : bool := match o with Some true => true | _ => false end.

Definition render_hsts (cfg : HstsConfig) : option (list Z) :=
  max_age ← hsts_max_age cfg;
  let s := bstr "max-age=" ++ print_index max_age in
  let s := if is_some_true (hsts_include_subdomains cfg) then s ++ bstr "; includeSubDomains" else s in
  Some (if is_some_true (hsts_preload cfg) then s ++ bstr "; preload" else s).

Definition STS_KEY : list Z := bstr "strict-transport-security".

Definition hsts_mode (cfg : HstsConfig) : HeaderEditMode :=
  if is_some_true (hsts_force_replace_backend cfg) then SetMode else SetIfAbsent.

Definition build_listener_hsts_edit (new_hsts : option HstsConfig) : option HeaderEdit :=
  cfg ← new_hsts;
  if negb (is_some_true (hsts_enabled cfg)) then None else
  rendered ← render_hsts cfg;
  Some (mkHeaderEdit STS_KEY rendered (hsts_mode cfg)).

(** ** Header predicates of a configuration *)

Record HeaderPredicate := mkHeaderPredicate {
  hp_name : list Z;
  hp_kind : Z;
  hp_value : option (list Z);
}.

Inductive HeaderMatchKind := KindExact | KindRegex | KindPresent.
Definition HeaderMatchKind_try_from (z : Z) : option HeaderMatchKind :=
  if z =? 0 then Some KindExact else if z =? 1 then Some KindRegex
  else if z =? 2 then Some KindPresent else None.

Definition is_ascii_alphanumeric (b : Z) : bool :=
  PatternTrie.between 48 57 b || PatternTrie.between 65 90 b || PatternTrie.between 97 122 b.

Definition is_tchar (b : Z) : bool :=
  is_ascii_alphanumeric b || bool_decide (b ∈ bstr "!#$%&'*+-.^_`|~").

Definition header_name_is_valid_token (bytes : list Z) : bool :=
  negb (bool_decide (bytes = [])) && forallb is_tchar bytes.

Definition header_value_contains_forbidden_controls (bytes : list Z) : bool :=
  existsb (fun b => PatternTrie.between 0 8 b || PatternTrie.between 10 31 b || (b =? 127)) bytes.

Definition eq_ignore_ascii_case (a b : list Z) : bool :=
  bool_decide (to_ascii_lowercase a = to_ascii_lowercase b).

(** [validate_header_predicate(p).is_ok()] *)
Definition validate_header_predicate (predicate : HeaderPredicate) : bool :=
  let name := hp_name predicate in
  header_name_is_valid_token name &&
  negb (eq_ignore_ascii_case name (bstr "host")) &&
  negb (eq_ignore_ascii_case name (bstr "cookie")) &&
  match HeaderMatchKind_try_from (hp_kind predicate), hp_value predicate with
  | None, _ => false
  | Some KindPresent, Some _ => false
  | Some KindPresent, None => true
  | Some (KindExact | KindRegex), None => false
  | Some KindExact, Some value => negb (header_value_contains_forbidden_controls value)
  | Some KindRegex, Some _ => true
  end.

Inductive RouterError :=
| InvalidDomain | InvalidPathRule | InvalidHeaderPredicate (index : nat)
| InvalidHostRewrite | InvalidPathRewrite | AddRoute | RemoveRoute | RouteNotFound.

Section Predicates.
Context `{RegexCrate}.

(** The order of [(&[u8], u8, &[u8])]. *)
Fixpoint bytes_le (a b : list Z) : bool :=
  match a, b with
  | [], _ => true
  | _ :: _, [] => false
  | x :: a, y :: b => (x <? y) || ((x =? y) && bytes_le a b)
  end.

Definition sort_key (rule : HeaderRule) : list Z * Z * list Z :=
  match hr_matcher rule with
  | HMExact value => (hr_name rule, 0, value)
  | HMRegex regex => (hr_name rule, 1, as_str regex)
  | HMPresent => (hr_name rule, 2, [])
  end.

Definition key_le (a b : list Z * Z * list Z) : bool :=
  let '(n1, k1, v1) := a in
  let '(n2, k2, v2) := b in
  if decide (n1 = n2) then if decide (k1 = k2) then bytes_le v1 v2 else k1 <? k2
  else bytes_le n1 n2.

Definition rule_le (a b : HeaderRule) : Prop := key_le (sort_key a) (sort_key b) = true.

Global Instance rule_le_dec a b : Decision (rule_le a b).
Proof. unfold rule_le. apply _. Defined.

(** [Vec::dedup]: each element against the last one kept. *)
Fixpoint dedup_after (kept : HeaderRule) (rules : list HeaderRule) : list HeaderRule :=
  match rules with
  | [] => []
  | rule :: rules =>
      if header_rule_eqb rule kept then dedup_after kept rules else rule :: dedup_after rule rules
  end.

Definition dedup (rules : list HeaderRule) : list HeaderRule :=
  match rules with [] => [] | rule :: rules => rule :: dedup_after rule rules end.

Fixpoint compile_predicates (index : nat) (predicates : list HeaderPredicate) :
    res RouterError (list HeaderRule) :=
  match predicates with
  | [] => Ok []
  | predicate :: predicates =>
      if negb (validate_header_predicate predicate) then Err (InvalidHeaderPredicate index) else
      let value := default [] (hp_value predicate) in
      matcher ← match HeaderMatchKind_try_from (hp_kind predicate) with
                | Some KindExact => Ok (HMExact value)
                | Some KindRegex =>
                    match anchored_regex value with
                    | Some regex => Ok (HMRegex regex)
                    | None => Err (InvalidHeaderPredicate index)
                    end
                | Some KindPresent => Ok HMPresent
                | None => Err (InvalidHeaderPredicate index)
                end;
      rules ← compile_predicates (S index) predicates;
      Ok (mkHeaderRule (to_ascii_lowercase (hp_name predicate)) matcher :: rules)
  end.

Definition HeaderRules_from_config (predicates : list HeaderPredicate) :
    outcome RouterError (list HeaderRule) :=
  match compile_predicates 0 predicates with
  | Err e => Fails e
  | Ok rules =>
      let rules := dedup (merge_sort rule_le rules) in
      _ ← debug_assert (length rules <=? length predicates)%nat;
      _ ← debug_assert (bool_decide (bool_decide (rules = []) = bool_decide (predicates = [])));
      Val rules
  end.
End Predicates.

(** ** Frontends *)

(** [CachedTags]: the tags and their rendering for the access log. *)
Record CachedTags := mkCachedTags { ct_tags : list (list Z * list Z); ct_concatenated : list Z }.

Definition join (sep : list Z) (l : list (list Z)) : list Z :=
  match l with [] => [] | x :: l => x ++ concat ((fun y => sep ++ y) <$> l) end.

Definition CachedTags_new (tags : list (list Z * list Z)) : CachedTags :=
  mkCachedTags tags (join (bstr ", ") ((fun '(k, v) => k ++ bstr "=" ++ v) <$> tags)).

Record Frontend := mkFrontend {
  fr_cluster_id : option ClusterId;
  fr_redirect : RedirectPolicy;
  fr_redirect_scheme : RedirectScheme;
  fr_redirect_template : option (list Z);
  fr_capture_cap_host : Z;
  fr_capture_cap_path : Z;
  fr_rewrite_host : option RewriteParts;
  fr_rewrite_path : option RewriteParts;
  fr_rewrite_port : option Z;
  fr_headers_request : list HeaderEdit;
  fr_headers_response : list HeaderEdit;
  fr_required_auth : bool;
  fr_tags : option CachedTags;
  fr_inherits_listener_hsts : bool;
}.

Definition set_headers_response (f : Frontend) (h : list HeaderEdit) : Frontend :=
  mkFrontend (fr_cluster_id f) (fr_redirect f) (fr_redirect_scheme f) (fr_redirect_template f)
    (fr_capture_cap_host f) (fr_capture_cap_path f) (fr_rewrite_host f) (fr_rewrite_path f)
    (fr_rewrite_port f) (fr_headers_request f) h (fr_required_auth f) (fr_tags f)
    (fr_inherits_listener_hsts f).

Definition rebuild_with_listener_hsts (frontend : Frontend) (new_edit : option HeaderEdit) : Frontend :=
  let headers_response :=
    List.filter (fun edit => negb (eq_ignore_ascii_case (he_key edit) STS_KEY))
      (fr_headers_response frontend) in
  set_headers_response frontend
    (match new_edit with Some edit => headers_response ++ [edit] | None => headers_response end).

Definition minimal_forward (cluster_id : ClusterId) : Frontend :=
  mkFrontend (Some cluster_id) Forward UseSame None 0 0 None None None [] [] false None true.

Definition minimal_deny : Frontend :=
  mkFrontend None Unauthorized UseSame None 0 0 None None None [] [] false None true.

Inductive HeaderPosition := PosUnspecified | PosRequest | PosResponse | PosBoth.
Record Header := mkHeader { hd_position : HeaderPosition; hd_key : list Z; hd_val : list Z }.

Inductive RulePosition := PositionPre | PositionPost | PositionTree.

Record HttpFrontend := mkHttpFrontend {
  hf_cluster_id : option ClusterId;
  hf_hostname : list Z;
  hf_path_kind : option PathRuleKind;
  hf_path_value : list Z;
  hf_method : option (list Z);
  hf_position : RulePosition;
  hf_tags : option (list (list Z * list Z));
  hf_redirect : option Z;
  hf_redirect_scheme : option Z;
  hf_redirect_template : option (list Z);
  hf_rewrite_host : option (list Z);
  hf_rewrite_path : option (list Z);
  hf_rewrite_port : option Z;
  hf_required_auth : option bool;
  hf_headers : list Header;
  hf_hsts : option HstsConfig;
  hf_header_predicates : list HeaderPredicate;
}.

Inductive HstsOrigin := Explicit | InheritedFromListenerDefault.

(** [o.filter(|s| !s.is_empty())] *)
Definition non_empty (o : option (list Z)) : option (list Z) :=
  match o with Some (_ :: _) => o | _ => None end.

(** The edits of a frontend's [headers], for the request and the response. *)
Definition header_edits (headers : list Header) : list HeaderEdit * list HeaderEdit :=
  foldl (fun '(request, response) header =>
    let edit := mkHeaderEdit (hd_key header) (hd_val header) Append in
    match hd_position header with
    | PosRequest => (request ++ [edit], response)
    | PosResponse => (request, response ++ [edit])
    | PosBoth => (request ++ [edit], response ++ [edit])
    | PosUnspecified => (request, response)
    end) ([], []) headers.

(** The HSTS edit of a frontend. *)
Definition hsts_edits (hsts : option HstsConfig) : list HeaderEdit :=
  match hsts with
  | Some cfg =>
      if is_some_true (hsts_enabled cfg) then
        match render_hsts cfg with
        | Some rendered => [mkHeaderEdit STS_KEY rendered (hsts_mode cfg)]
        | None => []
        end
      else []
  | None => []
  end.

Section Frontends.
Context `{RegexCrate}.

Definition host_capture_cap (domain_rule : DomainRule) : Z :=
  match domain_rule with
  | DomainAny => 1
  | DomainExact _ => 1
  | DomainWildcard _ => 2
  | DomainRegex regex => Z.of_nat (captures_len regex)
  end.

Definition path_capture_cap (path_rule : PathRule) : Z :=
  match path_rule with
  | PathEquals _ => 1
  | PathPrefix _ => 2
  | PathRegex regex | PathRegexPath regex => Z.of_nat (captures_len regex)
  end.

(** One optional template, parsed against the caps. *)
Definition parse_template (template : option (list Z)) (error : RouterError)
    (host_cap path_cap used_host used_path : Z) :
    outcome RouterError (option RewriteParts * Z * Z) :=
  match template with
  | None => Val (None, used_host, used_path)
  | Some p =>
      match parse p host_cap path_cap used_host used_path with
      | Val (Some parts, used_host, used_path) => Val (Some parts, used_host, used_path)
      | Val (None, _, _) => Fails error
      | Fails e => match e with end
      | Panic => Panic
      end
  end.

Definition Frontend_new (domain_rule : DomainRule) (path_rule : PathRule) (front : HttpFrontend)
    (redirect : RedirectPolicy) (redirect_scheme : RedirectScheme)
    (redirect_template rewrite_host rewrite_path : option (list Z)) (rewrite_port : option Z)
    (headers : list Header) (required_auth : bool) (hsts_origin : HstsOrigin) :
    outcome RouterError Frontend :=
  let hsts := hf_hsts front in
  let inherits_listener_hsts :=
    match hsts_origin with InheritedFromListenerDefault => true | Explicit => false end in
  let cluster_id := hf_cluster_id front in
  let tags := CachedTags_new <$> hf_tags front in
  let redirect_template := non_empty redirect_template in
  let rewrite_host := non_empty rewrite_host in
  let rewrite_path := non_empty rewrite_path in
  let deny :=
    match cluster_id, redirect with
    | _, Unauthorized => true
    | None, Forward => true
    | _, _ => false
    end in
  if deny : bool then
    Val (mkFrontend cluster_id Unauthorized redirect_scheme None 0 0 None None None []
           (hsts_edits hsts) required_auth tags inherits_listener_hsts)
  else
    let capture_cap_host := host_capture_cap domain_rule in
    let capture_cap_path := path_capture_cap path_rule in
    '(rewrite_host_parts, used_host, used_path) ←
      parse_template rewrite_host InvalidHostRewrite capture_cap_host capture_cap_path 0 0;
    '(rewrite_path_parts, used_host, used_path) ←
      parse_template rewrite_path InvalidPathRewrite capture_cap_host capture_cap_path
        used_host used_path;
    let capture_cap_host := if used_host =? 0 then 0 else capture_cap_host in
    let capture_cap_path := if used_path =? 0 then 0 else capture_cap_path in
    let '(headers_request, headers_response) := header_edits headers in
    Val (mkFrontend cluster_id redirect redirect_scheme redirect_template capture_cap_host
           capture_cap_path rewrite_host_parts rewrite_path_parts rewrite_port headers_request
           (headers_response ++ hsts_edits hsts) required_auth tags inherits_listener_hsts).

(** ** Routes and their results *)

Inductive Route := Deny | ToCluster (cluster_id : ClusterId) | ToFrontend (frontend : Frontend).

Record RouteResult := mkRouteResult {
  rr_cluster_id : option ClusterId;
  rr_redirect : RedirectPolicy;
  rr_redirect_scheme : RedirectScheme;
  rr_redirect_template : option (list Z);
  rr_rewritten_host : option (list Z);
  rr_rewritten_path : option (list Z);
  rr_rewritten_port : option Z;
  rr_headers_request : list HeaderEdit;
  rr_headers_response : list HeaderEdit;
  rr_required_auth : bool;
  rr_tags : option CachedTags;
}.

Definition RouteResult_deny (cluster_id : option ClusterId) : RouteResult :=
  mkRouteResult cluster_id Unauthorized UseSame None None None None [] [] false None.

Definition RouteResult_forward (cluster_id : ClusterId) : RouteResult :=
  mkRouteResult (Some cluster_id) Forward UseSame None None None None [] [] false None.

(** [from_utf8(b).unwrap_or_default()] *)
Definition utf8_or_empty (b : list Z) : list Z := if utf8_valid b then b else [].

Definition append_original_query (rewritten original_query : list Z) : checked (list Z) :=
  _ ← debug_assert (bool_decide (original_query = []) ||
                    bool_decide (head original_query = Some QUESTION));
  let had_own_query := bool_decide (QUESTION ∈ rewritten) in
  let rewritten :=
    if negb (bool_decide (original_query = [])) && negb had_own_query
    then rewritten ++ utf8_or_empty original_query else rewritten in
  _ ← debug_assert (had_own_query || ends_with rewritten (utf8_or_empty original_query));
  Val rewritten.

(** The groups of a regex, after the whole match, as strings. *)
Definition group_captures (regex : Regex) (haystack : list Z) : list (list Z) :=
  match captures regex haystack with
  | Some caps => (fun c => match c with Some m => utf8_or_empty m | None => [] end) <$> drop 1 caps
  | None => []
  end.

Definition run_template (template : option RewriteParts) (captures_host captures_path : list (list Z)) :
    checked (option (list Z)) :=
  match template with
  | None => Val None
  | Some parts => s ← run parts captures_host captures_path; Val (Some s)
  end.

Definition path_captures (frontend : Frontend) (path : list Z) (path_rule : PathRule) :
    list (list Z) :=
  if 0 <? fr_capture_cap_path frontend then
    utf8_or_empty path ::
    match path_rule with
    | PathPrefix prefix => [utf8_or_empty (drop (Nat.min (length prefix) (length path)) path)]
    | PathRegex regex | PathRegexPath regex => group_captures regex path
    | PathEquals _ => []
    end
  else [].

Definition from_frontend (frontend : Frontend) (captures_host : list (list Z)) (path : list Z)
    (path_rule : PathRule) : checked RouteResult :=
  if decide (fr_redirect frontend = Unauthorized) then
    Val (mkRouteResult (fr_cluster_id frontend) Unauthorized (fr_redirect_scheme frontend)
           (fr_redirect_template frontend) None None None [] (fr_headers_response frontend)
           (fr_required_auth frontend) (fr_tags frontend))
  else
    '(path, original_query) ←
      match path_rule with
      | PathRegexPath _ => split_query path
      | _ => Val (path, [])
      end;
    let captures_path := path_captures frontend path path_rule in
    rewritten_host ← run_template (fr_rewrite_host frontend) captures_host captures_path;
    rewritten_path ← run_template (fr_rewrite_path frontend) captures_host captures_path;
    rewritten_path ←
      match rewritten_path with
      | Some s => s ← append_original_query s original_query; Val (Some s)
      | None => Val None
      end;
    Val (mkRouteResult (fr_cluster_id frontend) (fr_redirect frontend) (fr_redirect_scheme frontend)
           (fr_redirect_template frontend) rewritten_host rewritten_path (fr_rewrite_port frontend)
           (fr_headers_request frontend) (fr_headers_response frontend) (fr_required_auth frontend)
           (fr_tags frontend)).

Definition new_no_trie (domain : list Z) (domain_rule : DomainRule) (path : list Z)
    (path_rule : PathRule) (route : Route) : checked RouteResult :=
  match route with
  | ToCluster id => Val (RouteResult_forward id)
  | Deny => Val (RouteResult_deny None)
  | ToFrontend frontend =>
      let captures_host :=
        if 0 <? fr_capture_cap_host frontend then
          utf8_or_empty domain ::
          match domain_rule with
          | DomainWildcard suffix =>
              [utf8_or_empty (take (length domain - (length suffix - 1)) domain)]
          | DomainRegex regex => group_captures regex domain
          | DomainAny | DomainExact _ => []
          end
        else [] in
      from_frontend frontend captures_host path path_rule
  end.

(** [iter().rev()] of the trie's record. *)
Definition submatch_captures (m : TrieSubMatch) : list (list Z) :=
  match m with
  | SubWildcard part => [utf8_or_empty part]
  | SubRegexp part regex => group_captures regex part
  end.

Definition new_with_trie (domain : list Z) (domain_submatches : InlineTrieMatches TrieSubMatch)
    (path : list Z) (path_rule : PathRule) (route : Route) : checked RouteResult :=
  match route with
  | ToCluster id => Val (RouteResult_forward id)
  | Deny => Val (RouteResult_deny None)
  | ToFrontend frontend =>
      captures_host ←
        (if 0 <? fr_capture_cap_host frontend then
           submatches ← inline_iter domain_submatches;
           Val (utf8_or_empty domain :: (rev submatches ≫= submatch_captures))
         else Val []);
      from_frontend frontend captures_host path path_rule
  end.

End Frontends.

(** ** The constructors trip no assertion *)

Section Safe.
Context `{RegexCrate}.

Lemma compile_predicates_length index predicates rules :
  compile_predicates index predicates = Ok rules -> length rules = length predicates.
Proof.
  revert index rules. induction predicates as [| p ps IH]; intros index rules; cbn [compile_predicates].
  { by intros [= <-]. }
  destruct (negb _); [done |]. intros (m & _ & (rs & Hrs & [= <-])%bind_Ok)%bind_Ok.
  cbn. f_equal. by eapply IH.
Qed.

Lemma length_dedup_after kept rules : (length (dedup_after kept rules) <= length rules)%nat.
Proof.
  revert kept. induction rules as [| r rules IH]; intros kept; cbn; [lia |].
  destruct (header_rule_eqb r kept); [specialize (IH kept) | specialize (IH r)]; cbn; lia.
Qed.

Lemma HeaderRules_from_config_safe predicates : HeaderRules_from_config predicates <> Panic.
Proof.
  unfold HeaderRules_from_config. destruct (compile_predicates 0 predicates) as [rules | e] eqn:E; [| done].
  apply compile_predicates_length in E.
  pose proof (Permutation_length (merge_sort_Permutation rule_le rules)) as Hlen.
  set (sorted := merge_sort rule_le rules) in *. clearbody sorted.
  assert (Hd : (length (dedup sorted) <= length predicates)%nat /\
    bool_decide (dedup sorted = []) = bool_decide (predicates = [])).
  { destruct sorted as [| r sorted]; cbn [dedup length] in *.
    - split; [lia |]. destruct predicates; [done |]. cbn in *. lia.
    - pose proof (length_dedup_after r sorted). split; [lia |]. destruct predicates; [cbn in *; lia | done]. }
  destruct Hd as [H1 H2]. rewrite (debug_assert_true (_ <=? _)%nat) by (by apply Nat.leb_le).
  cbn [mbind outcome_bind]. by rewrite debug_assert_true by (by apply bool_decide_eq_true).
Qed.

Lemma parse_template_safe template error hc pc uh up :
  uh <= hc -> up <= pc ->
  match parse_template template error hc pc uh up with
  | Val (_, uh', up') => uh' <= hc /\ up' <= pc
  | Fails _ => True
  | Panic => False
  end.
Proof.
  intros Hu Hp. destruct template as [p |]; cbn [parse_template]; [| done].
  destruct (parse_spec p hc pc uh up Hu Hp) as (r & uh' & up' & -> & ? & ? & _).
  destruct r; [lia | done].
Qed.

Lemma capture_caps_nonneg d p : 0 <= host_capture_cap d /\ 0 <= path_capture_cap p.
Proof. destruct d, p; cbn; lia. Qed.

Lemma Frontend_new_safe d p front redirect scheme template host path port headers auth origin :
  Frontend_new d p front redirect scheme template host path port headers auth origin <> Panic.
Proof.
  unfold Frontend_new. destruct (match hf_cluster_id front, redirect with _, Unauthorized => true
    | None, Forward => true | _, _ => false end); [done |].
  destruct (capture_caps_nonneg d p) as [Hh Hp].
  pose proof (parse_template_safe (non_empty host) InvalidHostRewrite _ _ 0 0 Hh Hp) as H1.
  destruct (parse_template (non_empty host) _ _ _ 0 0) as [[[hp uh] up] | |]; [| done..].
  cbn [mbind outcome_bind]. destruct H1 as [Hu Hu'].
  pose proof (parse_template_safe (non_empty path) InvalidPathRewrite _ _ uh up Hu Hu') as H2.
  destruct (parse_template (non_empty path) _ _ _ uh up) as [[[pp uh'] up'] | |]; [| done..].
  cbn [mbind outcome_bind]. by destruct (header_edits headers).
Qed.
End Safe.

(** ** The canonical form of header predicates *)

Section Canonical.
Context `{HR : RegexCrate} `{HRL : !RegexLaws}.

Lemma bytes_le_total a b : bytes_le a b = true \/ bytes_le b a = true.
Proof.
  revert b. induction a as [| x a IH]; intros [| y b]; cbn; try tauto.
  destruct (Z.ltb_spec x y), (Z.ltb_spec y x), (Z.eqb_spec x y), (Z.eqb_spec y x); cbn; try tauto; try lia. apply IH.
Qed.

Lemma bytes_le_antisymm a b : bytes_le a b = true -> bytes_le b a = true -> a = b.
Proof.
  revert b. induction a as [| x a IH]; intros [| y b]; cbn; try done.
  destruct (Z.ltb_spec x y), (Z.ltb_spec y x), (Z.eqb_spec x y), (Z.eqb_spec y x); cbn; try done; try lia.
  intros. subst. f_equal. by apply IH.
Qed.

Lemma bytes_le_trans a b c : bytes_le a b = true -> bytes_le b c = true -> bytes_le a c = true.
Proof.
  revert b c. induction a as [| x a IH]; intros [| y b] [| z c]; cbn; try done.
  destruct (Z.ltb_spec x y), (Z.ltb_spec y z), (Z.ltb_spec x z), (Z.eqb_spec x y), (Z.eqb_spec y z),
    (Z.eqb_spec x z); cbn; try done; try lia. apply IH.
Qed.

Lemma key_le_antisymm a b : key_le a b = true -> key_le b a = true -> a = b.
Proof.
  destruct a as [[n1 k1] v1], b as [[n2 k2] v2]. cbn. repeat case_decide; subst; try done.
  - intros. f_equal. by apply bytes_le_antisymm.
  - intros ?%Z.ltb_lt ?%Z.ltb_lt. lia.
  - intros H1 H2. by pose proof (bytes_le_antisymm _ _ H1 H2).
Qed.

Global Instance rule_le_total : Total rule_le.
Proof.
  intros a b. unfold rule_le. destruct (sort_key a) as [[n1 k1] v1], (sort_key b) as [[n2 k2] v2]. cbn.
  repeat case_decide; subst; try done; try apply bytes_le_total. rewrite !Z.ltb_lt. lia.
Qed.

Global Instance rule_le_trans : Transitive rule_le.
Proof.
  intros a b c. unfold rule_le.
  destruct (sort_key a) as [[n1 k1] v1], (sort_key b) as [[n2 k2] v2], (sort_key c) as [[n3 k3] v3]. cbn.
  repeat case_decide; subst; try done; rewrite ?Z.ltb_lt; try lia; try apply bytes_le_trans.
  all: intros Hab Hbc; try lia; by pose proof (bytes_le_antisymm _ _ Hab Hbc).
Qed.

Lemma header_rule_eqb_key a b : header_rule_eqb a b = true <-> sort_key a = sort_key b.
Proof.
  destruct a as [n1 [v1 | r1 |]], b as [n2 [v2 | r2 |]]; unfold header_rule_eqb, sort_key; cbn;
    rewrite andb_true_iff, ?bool_decide_eq_true; split; try (intros [? ?]; congruence); intros [= ]; done.
Qed.

(** [dedup] keeps a sublist with the same identities and, on a sorted list, no
    identity twice. *)
Lemma dedup_after_spec kept rules :
  StronglySorted rule_le (kept :: rules) ->
  dedup_after kept rules `sublist_of` rules /\
  NoDup (sort_key <$> kept :: dedup_after kept rules) /\
  forall r, r ∈ rules -> sort_key r ∈ sort_key <$> kept :: dedup_after kept rules.
Proof.
  revert kept. induction rules as [| r rules IH]; intros kept Hs; cbn [dedup_after].
  { split; [done |]. split; [apply NoDup_singleton |]. by intros ? ?%elem_of_nil. }
  apply StronglySorted_inv in Hs as [Hs Hk]. pose proof Hs as [Hs' Hr]%StronglySorted_inv.
  apply Forall_cons in Hk as [Hkr Hk]. destruct (header_rule_eqb r kept) eqn:E.
  - apply header_rule_eqb_key in E. destruct (IH kept) as (H1 & H2 & H3); [by constructor |].
    split; [by apply sublist_cons |]. split; [done |]. intros x [-> | Hx]%elem_of_cons; [| by apply H3].
    rewrite E, fmap_cons. by left.
  - destruct (IH r Hs) as (H1 & H2 & H3). split; [by apply sublist_skip |]. split.
    + rewrite fmap_cons. apply NoDup_cons. split; [| done].
      rewrite fmap_cons, elem_of_cons. intros [He | (x & Hx & Hin)%list_elem_of_fmap].
      * symmetry in He. apply header_rule_eqb_key in He. congruence.
      * assert (Hle : rule_le r x) by (eapply Forall_forall; [exact Hr |];
          by eapply elem_of_sublist).
        assert (He : sort_key r = sort_key kept).
        { apply key_le_antisymm; [unfold rule_le in Hle; by rewrite Hx | done]. }
        apply header_rule_eqb_key in He. congruence.
    + intros x [-> | Hx]%elem_of_cons; rewrite fmap_cons; apply elem_of_cons; right; [by left |].
      by apply H3.
Qed.

Lemma sublist_StronglySorted (l1 l2 : list HeaderRule) :
  l1 `sublist_of` l2 -> StronglySorted rule_le l2 -> StronglySorted rule_le l1.
Proof.
  induction 1 as [| x l1 l2 Hsub IH | x l1 l2 Hsub IH]; [done | |]; intros [Hs Hx]%StronglySorted_inv.
  - constructor; [by apply IH |]. apply Forall_forall. intros y Hy.
    eapply Forall_forall; [exact Hx |]. by eapply elem_of_sublist.
  - by apply IH.
Qed.

Lemma dedup_spec rules :
  StronglySorted rule_le rules ->
  StronglySorted rule_le (dedup rules) /\ NoDup (sort_key <$> dedup rules) /\
  dedup rules ⊆ rules /\ forall r, r ∈ rules -> sort_key r ∈ sort_key <$> dedup rules.
Proof.
  destruct rules as [| r rules]; cbn [dedup]; intros Hs.
  { split; [constructor |]. split; [constructor |]. split; [done |]. by intros ? ?%elem_of_nil. }
  destruct (dedup_after_spec r rules Hs) as (H1 & H2 & H3). apply (sublist_skip r) in H1.
  split; [by eapply sublist_StronglySorted |]. split; [done |]. split; [by apply sublist_subseteq |].
  intros x [-> | Hx]%elem_of_cons; [rewrite fmap_cons; by left | by apply H3].
Qed.

(** On rules their identity determines, the sorted and deduplicated list
    depends on the set of rules only. *)
Lemma dedup_sort_set rs1 rs2 :
  (forall r, r ∈ rs1 <-> r ∈ rs2) ->
  (forall r1 r2, r1 ∈ rs1 -> r2 ∈ rs1 -> sort_key r1 = sort_key r2 -> r1 = r2) ->
  dedup (merge_sort rule_le rs1) = dedup (merge_sort rule_le rs2).
Proof.
  intros Heq Hkey.
  assert (Hm : forall rs r, r ∈ merge_sort rule_le rs <-> r ∈ rs).
  { intros rs r. by rewrite (merge_sort_Permutation rule_le rs). }
  destruct (dedup_spec _ (StronglySorted_merge_sort rule_le rs1)) as (Hs1 & Hn1 & Hi1 & Hc1).
  destruct (dedup_spec _ (StronglySorted_merge_sort rule_le rs2)) as (Hs2 & Hn2 & Hi2 & Hc2).
  assert (Hin1 : forall r, r ∈ dedup (merge_sort rule_le rs1) -> r ∈ rs1) by (intros r ?; by apply Hm, Hi1).
  assert (Hin2 : forall r, r ∈ dedup (merge_sort rule_le rs2) -> r ∈ rs1)
    by (intros r ?; by apply Heq, Hm, Hi2).
  apply StronglySorted_unique_strong with rule_le; [| done | done |].
  - intros x1 x2 H1 H2 Hle Hge. apply Hkey; [by apply Hin1 | by apply Hin2 |]. by apply key_le_antisymm.
  - apply NoDup_Permutation; [by eapply NoDup_fmap_1 | by eapply NoDup_fmap_1 |]. intros r.
    assert (Hgo : forall l : list HeaderRule, (forall x, x ∈ l -> x ∈ rs1) -> r ∈ rs1 -> sort_key r ∈ sort_key <$> l -> r ∈ l).
    { intros l Hl Hr (x & Hx & Hxl)%list_elem_of_fmap. by rewrite (Hkey r x Hr (Hl x Hxl) Hx). }
    split; intros Hr; (apply Hgo; [by auto | by auto |]).
    + apply Hc2, Hm, Heq. by apply Hin1.
    + apply Hc1, Hm. by apply Hin2.
Qed.

(** The rule one predicate compiles to, if it is valid. *)
Definition compiled (p : HeaderPredicate) (r : HeaderRule) : Prop := compile_predicates 0 [p] = Ok [r].

Lemma compile_predicates_cons index p ps rules :
  compile_predicates index (p :: ps) = Ok rules <->
  exists r rs, compiled p r /\ compile_predicates (S index) ps = Ok rs /\ rules = r :: rs.
Proof.
  unfold compiled. cbn [compile_predicates].
  destruct (negb _); [split; [done | by intros (? & ? & ? & _)] |].
  destruct (HeaderMatchKind_try_from _) as [[] |]; [| destruct (anchored_regex _) | |];
    cbn [mbind res_bind]; try (split; [done | by intros (? & ? & ? & _)]).
  all: destruct (compile_predicates (S index) ps) as [rs | e]; cbn; [| split; [done | by intros (? & ? & _ & ? & _)]].
  all: split; [intros [= <-]; by eexists _, _ | by intros (? & ? & [= <-] & [= <-] & ->)].
Qed.

Lemma compile_predicates_Forall2 index ps rules :
  compile_predicates index ps = Ok rules <-> Forall2 compiled ps rules.
Proof.
  revert index rules. induction ps as [| p ps IH]; intros index rules.
  { split; [intros [= <-]; constructor | by inversion 1]. }
  rewrite compile_predicates_cons. split.
  - intros (r & rs & Hr & Hrs%IH & ->). by constructor.
  - inversion 1 as [| ? r ? rs Hr Hrs]; subst. exists r, rs. split; [done |]. split; [by apply IH | done].
Qed.

(** Compiled rules are determined by their identity. *)
Lemma compiled_key p1 p2 r1 r2 :
  compiled p1 r1 -> compiled p2 r2 -> sort_key r1 = sort_key r2 -> r1 = r2.
Proof.
  assert (Hregex : forall v r, anchored_regex v = Some r -> regex_new (as_str r) = Some r).
  { unfold anchored_regex. intros v r. destruct (regex_new v); [| done]. cbn [mbind option_bind].
    intros Hr. by rewrite (as_str_new _ _ Hr). }
  unfold compiled. cbn [compile_predicates].
  destruct (negb _); [done |]. destruct (negb (validate_header_predicate p2)); [done |].
  destruct (HeaderMatchKind_try_from (hp_kind p1)) as [[] |]; [| destruct (anchored_regex _) eqn:E1 | |];
  destruct (HeaderMatchKind_try_from (hp_kind p2)) as [[] |];
  try (destruct (anchored_regex (default [] (hp_value p2))) eqn:E2); cbn; try done;
  intros [= <-] [= <-]; cbn; intros [= ]; try congruence.
  apply Hregex in E1, E2. congruence.
Qed.

Lemma HeaderRules_from_config_Val ps rules :
  Forall2 compiled ps rules ->
  HeaderRules_from_config ps = Val (dedup (merge_sort rule_le rules)).
Proof.
  intros Hc%(compile_predicates_Forall2 0). pose proof (HeaderRules_from_config_safe ps) as Hs.
  unfold HeaderRules_from_config in *. rewrite Hc in *.
  unfold debug_assert in *. destruct (_ <=? _)%nat; [| done]. cbn [mbind outcome_bind] in *.
  by destruct (bool_decide (_ = bool_decide (ps = []))).
Qed.

(** Header predicates have a canonical form: two predicate lists that
    hold the same predicates, in any order and with any repetitions, compile
    to the same rules or are both rejected, so that they denote the same
    route, are refused as duplicates of each other, and each removes what the
    other added. *)
Theorem header_predicates_canonical ps1 ps2 rules :
  (forall p, p ∈ ps1 <-> p ∈ ps2) ->
  HeaderRules_from_config ps1 = Val rules -> HeaderRules_from_config ps2 = Val rules.
Proof.
  intros Hps H1. destruct (compile_predicates 0 ps1) as [rs1 | e] eqn:E1;
    [| unfold HeaderRules_from_config in H1; by rewrite E1 in H1].
  apply compile_predicates_Forall2 in E1. rewrite (HeaderRules_from_config_Val _ _ E1) in H1.
  injection H1 as <-.
  assert (exists rs2, Forall2 compiled ps2 rs2) as [rs2 E2].
  { assert (Hall : Forall (fun p => exists r, compiled p r) ps2).
    { apply Forall_forall. intros p Hp%Hps. apply list_elem_of_lookup in Hp as [i Hi].
      destruct (Forall2_lookup_l _ _ _ _ _ E1 Hi) as (r & _ & ?). eauto. }
    clear -Hall. induction Hall as [| p ps [r Hr] _ [rs IH]]; [by exists [] |]. exists (r :: rs). by constructor. }
  rewrite (HeaderRules_from_config_Val _ _ E2). f_equal.
  assert (Hin : forall qs rs r, Forall2 compiled qs rs -> r ∈ rs <-> exists p, p ∈ qs /\ compiled p r).
  { clear. intros qs rs r E. split.
    - intros [i Hi]%list_elem_of_lookup. destruct (Forall2_lookup_r _ _ _ _ _ E Hi) as (p & Hp & ?).
      exists p. split; [by eapply list_elem_of_lookup_2 | done].
    - intros (p & [i Hi]%list_elem_of_lookup & Hc). destruct (Forall2_lookup_l _ _ _ _ _ E Hi) as (r' & Hr & Hc').
      unfold compiled in *. replace r with r' by congruence. by eapply list_elem_of_lookup_2. }
  symmetry. apply dedup_sort_set.
  - intros r. rewrite (Hin ps1), (Hin ps2) by done. by setoid_rewrite Hps.
  - intros r1 r2 (p1 & _ & Hc1)%(Hin ps1) (p2 & _ & Hc2)%(Hin ps1); [| done..]. by eapply compiled_key.
Qed.

End Canonical.

#[local] Existing Instance simple_regex.
#[local] Existing Instance simple_regex_laws.

Definition example_predicates : list HeaderPredicate :=
  [mkHeaderPredicate (bstr "X-Canary") 1 (Some (bstr "v2")); mkHeaderPredicate (bstr "Accept") 2 None;
   mkHeaderPredicate (bstr "x-canary") 0 (Some (bstr "yes"))].

Lemma header_predicates_canonical_witness :
  (forall p, p ∈ example_predicates <-> p ∈ reverse example_predicates ++ example_predicates) /\
  exists rules, length rules = 3%nat /\ HeaderRules_from_config example_predicates = Val rules /\
    HeaderRules_from_config (reverse example_predicates ++ example_predicates) = Val rules.
Proof.
  assert (Hps : forall p, p ∈ example_predicates <-> p ∈ reverse example_predicates ++ example_predicates).
  { intros p. rewrite elem_of_app, elem_of_reverse. tauto. }
  split; [exact Hps |]. eexists. split; [| split].
  2: vm_compute; reflexivity.
  - reflexivity.
  - apply (header_predicates_canonical _ _ _ Hps). vm_compute. reflexivity.
Defined.
