(* ===== verification/RouteTable.v ===== *)
(** * The operations of the route table

    Models [struct Router] of [lib/src/router/mod.rs]: adding and removing the
    rules of the three parts of the table, adding and removing the frontends of
    a configuration, refreshing the HSTS edits, and the lookup of a request.
    The lookup is proved to serve the rule of a reference selection, the
    operations to keep the table well formed. *)

From S2P Require Import Prelude PatternTrie PatternTrieSpec RouterRewrite Router RouterFrontend.

Definition MAX_HOSTNAME_LENGTH : nat := 4096.

Section Table.
Context `{RegexCrate} `{HostCrates}.

Abbreviation Leaf := (list (TreeRule Route)).

Record Router := mkRouter {
  pre : list (ListedRule Route);
  tree : TrieNode Leaf;
  post : list (ListedRule Route);
}.

Definition Router_new : Router := mkRouter [] root [].

Definition set_tree (t : Router) (n : TrieNode Leaf) : Router := mkRouter (pre t) n (post t).
Definition set_pre (t : Router) (l : list (ListedRule Route)) : Router := mkRouter l (tree t) (post t).
Definition set_post (t : Router) (l : list (ListedRule Route)) : Router := mkRouter (pre t) (tree t) l.

(** ** The rules of a hostname *)

(** [p == path && m == method && h == headers] *)
Definition tree_rule_is (path : PathRule) (method : MethodRule) (headers : HeaderRules)
    (rule : TreeRule Route) : bool :=
  let '(p, m, h, _) := rule in path_eqb p path && bool_decide (m = method) && headers_eqb h headers.

Definition add_tree_rule_with_headers (t : Router) (hostname : list Z) (path : PathRule)
    (method : MethodRule) (headers : HeaderRules) (cluster : Route) : checked (Router * bool) :=
  if negb (utf8_valid hostname) then Val (t, false) else
  ascii ← tree_hostname_to_ascii hostname;
  match ascii with
  | None => Val (t, false)
  | Some hostname =>
      e ← domain_lookup_mut (tree t) hostname false;
      match e with
      | Some ((key, paths), write) =>
          if negb (existsb (tree_rule_is path method headers) paths) then
            let paths' := paths ++ [(path, method, headers, cluster)] in
            _ ← debug_assert (length paths' =? length paths + 1)%nat;
            _ ← debug_assert (existsb (tree_rule_is path method headers) paths');
            Val (set_tree t (write (key, paths')), true)
          else Val (t, false)
      | None =>
          '(n, insert_result) ← domain_insert (tree t) hostname [(path, method, headers, cluster)];
          let t := set_tree t n in
          if decide (insert_result = InsertFailed) then Val (t, false) else
          e ← domain_lookup_mut (tree t) hostname false;
          _ ← debug_assert (match e with
                            | Some ((_, paths), _) => existsb (tree_rule_is path method headers) paths
                            | None => false
                            end);
          Val (t, true)
      end
  end.

Definition add_tree_rule (t : Router) (hostname : list Z) (path : PathRule) (method : MethodRule)
    (cluster : Route) : checked (Router * bool) :=
  add_tree_rule_with_headers t hostname path method [] cluster.

Definition remove_tree_rule_with_headers (t : Router) (hostname : list Z) (path : PathRule)
    (method : MethodRule) (headers : HeaderRules) : checked (Router * bool) :=
  if negb (utf8_valid hostname) then Val (t, false) else
  ascii ← tree_hostname_to_ascii hostname;
  match ascii with
  | None => Val (t, false)
  | Some hostname =>
      e ← domain_lookup_mut (tree t) hostname false;
      '(t, should_delete) ←
        match e with
        | Some ((key, paths), write) =>
            let paths := List.filter (fun rule => negb (tree_rule_is path method headers rule)) paths in
            _ ← debug_assert (negb (existsb (tree_rule_is path method headers) paths));
            Val (set_tree t (write (key, paths)), bool_decide (length paths = 0%nat))
        | None => Val (t, false)
        end;
      if should_delete : bool then
        '(n, _) ← domain_remove (tree t) hostname;
        let t := set_tree t n in
        e ← domain_lookup_mut (tree t) hostname false;
        _ ← debug_assert (is_none e);
        Val (t, true)
      else Val (t, true)
  end.

Definition remove_tree_rule (t : Router) (hostname : list Z) (path : PathRule) (method : MethodRule) :
    checked (Router * bool) :=
  remove_tree_rule_with_headers t hostname path method [].

(** ** The listed rules *)

Definition listed_rule_is (domain : DomainRule) (path : PathRule) (method : MethodRule)
    (headers : HeaderRules) (rule : ListedRule Route) : bool :=
  let '(d, p, m, h, _) := rule in
  domain_eqb d domain && path_eqb p path && bool_decide (m = method) && headers_eqb h headers.

(** The body [add_pre_rule_with_headers] and [add_post_rule_with_headers]
    share, on their list. *)
Definition add_listed (rules : list (ListedRule Route)) (domain : DomainRule) (path : PathRule)
    (method : MethodRule) (headers : HeaderRules) (cluster_id : Route) :
    checked (list (ListedRule Route) * bool) :=
  let before := length rules in
  if negb (existsb (listed_rule_is domain path method headers) rules) then
    let rules := rules ++ [(domain, path, method, headers, cluster_id)] in
    _ ← debug_assert (length rules =? before + 1)%nat;
    _ ← debug_assert (existsb (listed_rule_is domain path method headers) rules);
    Val (rules, true)
  else
    _ ← debug_assert (length rules =? before)%nat;
    Val (rules, false).

Definition remove_listed (rules : list (ListedRule Route)) (domain : DomainRule) (path : PathRule)
    (method : MethodRule) (headers : HeaderRules) : checked (list (ListedRule Route) * bool) :=
  let before := length rules in
  match list_find (fun rule => listed_rule_is domain path method headers rule = true) rules with
  | None =>
      _ ← debug_assert (length rules =? before)%nat;
      Val (rules, false)
  | Some (index, _) =>
      _ ← debug_assert (index <? length rules)%nat;
      let rules := delete index rules in
      _ ← debug_assert (length rules + 1 =? before)%nat;
      _ ← debug_assert (negb (existsb (listed_rule_is domain path method headers) rules));
      Val (rules, true)
  end.

Definition add_pre_rule_with_headers (t : Router) (domain : DomainRule) (path : PathRule)
    (method : MethodRule) (headers : HeaderRules) (cluster_id : Route) : checked (Router * bool) :=
  '(l, ok) ← add_listed (pre t) domain path method headers cluster_id; Val (set_pre t l, ok).

Definition add_post_rule_with_headers (t : Router) (domain : DomainRule) (path : PathRule)
    (method : MethodRule) (headers : HeaderRules) (cluster_id : Route) : checked (Router * bool) :=
  '(l, ok) ← add_listed (post t) domain path method headers cluster_id; Val (set_post t l, ok).

Definition remove_pre_rule_with_headers (t : Router) (domain : DomainRule) (path : PathRule)
    (method : MethodRule) (headers : HeaderRules) : checked (Router * bool) :=
  '(l, ok) ← remove_listed (pre t) domain path method headers; Val (set_pre t l, ok).

Definition remove_post_rule_with_headers (t : Router) (domain : DomainRule) (path : PathRule)
    (method : MethodRule) (headers : HeaderRules) : checked (Router * bool) :=
  '(l, ok) ← remove_listed (post t) domain path method headers; Val (set_post t l, ok).

(** ** Requests *)

(** The predicate handed to the trie.  A selection that panicked ends the walk
    and is remembered in the state. *)
Definition accept_rule (path : list Z) (method : Method) (headers : RequestHeaders)
    (panicked : bool) (kv : KeyValue Leaf) : bool * bool :=
  match select_tree_rule kv.2 path method headers with
  | Val (Some _) => (true, panicked)
  | Val None => (false, panicked)
  | _ => (true, true)
  end.

Definition lookup_tree (t : Router) (hostname path : list Z) (method : Method)
    (headers : RequestHeaders) :
    checked (option (PathRule * Route * InlineTrieMatches TrieSubMatch)) :=
  '(found, trie_matches, panicked) ←
    lookup_with_inline_path (tree t) hostname true inline_new (accept_rule path method headers) false;
  _ ← debug_assert (negb panicked);
  match found with
  | None => Val None
  | Some (_, path_rules) =>
      selected ← select_tree_rule path_rules path method headers;
      Val (match selected with
           | Some (path_rule, route) => Some (path_rule, route, trie_matches)
           | None => None
           end)
  end.

Definition lift_checked {E A} (m : checked A) : outcome E A :=
  match m with Val a => Val a | Fails e => match e with end | Panic => Panic end.

Definition lookup_with_headers (t : Router) (hostname path : list Z) (method : Method)
    (headers : RequestHeaders) : outcome RouterError RouteResult :=
  let hostname := normalize_hostname hostname in
  in_pre ← lift_checked (select_listed_rule (pre t) hostname path method headers);
  match in_pre with
  | Some (domain_rule, path_rule, _, _, route) =>
      lift_checked (new_no_trie hostname domain_rule path path_rule route)
  | None =>
      in_tree ← lift_checked (lookup_tree t hostname path method headers);
      match in_tree with
      | Some (path_rule, route, trie_matches) =>
          lift_checked (new_with_trie hostname trie_matches path path_rule route)
      | None =>
          in_post ← lift_checked (select_listed_rule (post t) hostname path method headers);
          match in_post with
          | Some (domain_rule, path_rule, _, _, route) =>
              lift_checked (new_no_trie hostname domain_rule path path_rule route)
          | None => Fails RouteNotFound
          end
      end
  end.

Definition lookup (t : Router) (hostname path : list Z) (method : Method) :
    outcome RouterError RouteResult :=
  lookup_with_headers t hostname path method NoHeaders.

(** [for (domain_rule, ..) in rules] of [has_hostname]. *)
Fixpoint any_domain_matches (rules : list (ListedRule Route)) (hostname : list Z) : checked bool :=
  match rules with
  | [] => Val false
  | (domain_rule, _, _, _, _) :: rules =>
      m ← domain_matches domain_rule hostname;
      if m : bool then Val true else any_domain_matches rules hostname
  end.

Definition has_hostname (t : Router) (hostname : list Z) : checked bool :=
  let hostname := normalize_hostname hostname in
  in_pre ← any_domain_matches (pre t) hostname;
  if in_pre : bool then Val true else
  ascii ← tree_hostname_to_ascii hostname;
  in_tree ← match ascii with
            | Some ascii => found ← domain_lookup (tree t) ascii false; Val (negb (is_none found))
            | None => Val false
            end;
  if in_tree : bool then Val true else any_domain_matches (post t) hostname.

(** ** Frontends *)

Definition has_policy (front : HttpFrontend) : bool :=
  negb (is_none (hf_redirect front)) || negb (is_none (hf_redirect_scheme front)) ||
  negb (is_none (hf_redirect_template front)) || negb (is_none (hf_rewrite_host front)) ||
  negb (is_none (hf_rewrite_path front)) || negb (is_none (hf_rewrite_port front)) ||
  default false (hf_required_auth front) || negb (bool_decide (length (hf_headers front) = 0%nat)) ||
  negb (is_none (hf_hsts front)) || negb (is_none (hf_tags front)).

Definition ok_or_fails {A} (e : RouterError) (o : option A) : outcome RouterError A :=
  match o with Some a => Val a | None => Fails e end.

(** [u16::try_from(p).ok()] *)
Definition u16_try_from (p : Z) : option Z := if (0 <=? p) && (p <? 2 ^ 16) then Some p else None.

Definition add_http_front_with_hsts_origin (t : Router) (front : HttpFrontend)
    (hsts_origin : HstsOrigin) : outcome RouterError Router :=
  if (MAX_HOSTNAME_LENGTH <? length (hf_hostname front))%nat then Fails InvalidDomain else
  path_rule ← ok_or_fails InvalidPathRule (PathRule_from_config (hf_path_kind front) (hf_path_value front));
  let method_rule := MethodRule_new (hf_method front) in
  header_rules ← HeaderRules_from_config (hf_header_predicates front);
  domain ← lift_checked (DomainRule_from_str (hf_hostname front));
  domain ← ok_or_fails InvalidDomain domain;
  route ←
    (if has_policy front then
       let redirect := default Forward (hf_redirect front ≫= RedirectPolicy_try_from) in
       let redirect_scheme := default UseSame (hf_redirect_scheme front ≫= RedirectScheme_try_from) in
       frontend ← Frontend_new domain path_rule front redirect redirect_scheme
         (hf_redirect_template front) (hf_rewrite_host front) (hf_rewrite_path front)
         (hf_rewrite_port front ≫= u16_try_from) (hf_headers front)
         (default false (hf_required_auth front)) hsts_origin;
       Val (ToFrontend frontend)
     else Val (match hf_cluster_id front with Some id => ToCluster id | None => Deny end));
  '(t, success) ← lift_checked
    match hf_position front with
    | PositionPre => add_pre_rule_with_headers t domain path_rule method_rule header_rules route
    | PositionPost => add_post_rule_with_headers t domain path_rule method_rule header_rules route
    | PositionTree =>
        add_tree_rule_with_headers t (hf_hostname front) path_rule method_rule header_rules route
    end;
  if negb success then Fails AddRoute else Val t.

Definition add_http_front (t : Router) (front : HttpFrontend) : outcome RouterError Router :=
  add_http_front_with_hsts_origin t front Explicit.

Definition remove_http_front (t : Router) (front : HttpFrontend) : outcome RouterError Router :=
  if (MAX_HOSTNAME_LENGTH <? length (hf_hostname front))%nat then Fails InvalidDomain else
  path_rule ← ok_or_fails InvalidPathRule (PathRule_from_config (hf_path_kind front) (hf_path_value front));
  let method_rule := MethodRule_new (hf_method front) in
  header_rules ← HeaderRules_from_config (hf_header_predicates front);
  '(t, remove_success) ←
    match hf_position front with
    | PositionPre =>
        domain ← lift_checked (DomainRule_from_str (hf_hostname front));
        domain ← ok_or_fails InvalidDomain domain;
        lift_checked (remove_pre_rule_with_headers t domain path_rule method_rule header_rules)
    | PositionPost =>
        domain ← lift_checked (DomainRule_from_str (hf_hostname front));
        domain ← ok_or_fails InvalidDomain domain;
        lift_checked (remove_post_rule_with_headers t domain path_rule method_rule header_rules)
    | PositionTree =>
        lift_checked
          (remove_tree_rule_with_headers t (hf_hostname front) path_rule method_rule header_rules)
    end;
  if negb remove_success then Fails RemoveRoute else Val t.

(** ** Listener-default HSTS *)

(** [visit]: the route after the patch, and the count. *)
Definition visit_route (new_edit : option HeaderEdit) (route : Route) (refreshed : nat) : Route * nat :=
  match route with
  | ToFrontend f =>
      if fr_inherits_listener_hsts f
      then (ToFrontend (rebuild_with_listener_hsts f new_edit), S refreshed) else (route, refreshed)
  | ToCluster id =>
      if negb (is_none new_edit)
      then (ToFrontend (rebuild_with_listener_hsts (minimal_forward id) new_edit), S refreshed)
      else (route, refreshed)
  | Deny =>
      if negb (is_none new_edit)
      then (ToFrontend (rebuild_with_listener_hsts minimal_deny new_edit), S refreshed)
      else (route, refreshed)
  end.

Definition visit_all {R} (f : Route -> nat -> Route * nat) (get : R -> Route) (set : R -> Route -> R)
    (rules : list R) (refreshed : nat) : list R * nat :=
  foldl (fun '(l, refreshed) rule =>
    let '(route, refreshed) := f (get rule) refreshed in (l ++ [set rule route], refreshed))
    ([], refreshed) rules.

Definition listed_route (rule : ListedRule Route) : Route := rule.2.
Definition set_listed_route (rule : ListedRule Route) (r : Route) : ListedRule Route := (rule.1, r).
Definition tree_route (rule : TreeRule Route) : Route := rule.2.
Definition set_tree_route (rule : TreeRule Route) (r : Route) : TreeRule Route := (rule.1, r).

Definition refresh_inheriting_hsts (t : Router) (new_hsts : option HstsConfig) : Router * nat :=
  let visit := visit_route (build_listener_hsts_edit new_hsts) in
  let '(pre, refreshed) := visit_all visit listed_route set_listed_route (pre t) 0 in
  let '(tree, refreshed) :=
    for_each_value_mut (visit_all visit tree_route set_tree_route) (tree t) refreshed in
  let '(post, refreshed) := visit_all visit listed_route set_listed_route (post t) refreshed in
  (mkRouter pre tree post, refreshed).

End Table.

(** ** The lookup *)

Section LookupProofs.
Context `{HR : RegexCrate} `{HC : HostCrates}.

Lemma append_original_query_Val rewritten query :
  query = [] \/ head query = Some QUESTION ->
  exists s, append_original_query rewritten query = Val s.
Proof.
  intros Hq. unfold append_original_query.
  rewrite (debug_assert_true (bool_decide (query = []) || bool_decide (head query = Some QUESTION))).
  2: { apply orb_true_iff. destruct Hq; [left | right]; by apply bool_decide_eq_true. }
  cbn [mbind outcome_bind]. destruct (bool_decide (QUESTION ∈ rewritten)); cbn [negb andb orb].
  { rewrite andb_false_r. by eexists. }
  rewrite andb_true_r. rewrite debug_assert_true; [by eexists |]. apply bool_decide_eq_true.
  destruct (bool_decide (query = [])) eqn:E; cbn [negb].
  - apply bool_decide_eq_true in E as ->. cbn. by rewrite Nat.sub_0_r, drop_all.
  - rewrite length_app, Nat.add_sub. apply drop_app_length.
Qed.

Lemma run_template_Val template hc pc : exists s, run_template template hc pc = Val s.
Proof. destruct template; cbn; [rewrite run_Val; by eexists | by eexists]. Qed.

(** Building a decision trips no assertion. *)
Lemma from_frontend_Val frontend captures_host path path_rule :
  exists r, from_frontend frontend captures_host path path_rule = Val r.
Proof.
  unfold from_frontend. case_decide; [by eexists |].
  assert (Hq : exists path' query, match path_rule with
      | PathRegexPath _ => split_query path | _ => Val (path, []) end = @Val Empty_set _ (path', query) /\
      (query = [] \/ head query = Some QUESTION)).
  { destruct path_rule; try (eexists _, _; split; [done | by left]).
    rewrite split_query_Val. destruct (split_at_byte_spec QUESTION path) as [_ Hr].
    unfold query_split. destruct (split_at_byte QUESTION path) as [a b]. by exists a, b. }
  destruct Hq as (path' & query & -> & Hq). cbn [mbind outcome_bind].
  destruct (run_template_Val (fr_rewrite_host frontend) captures_host
    (path_captures frontend path' path_rule)) as [s1 ->]. cbn [mbind outcome_bind].
  destruct (run_template_Val (fr_rewrite_path frontend) captures_host
    (path_captures frontend path' path_rule)) as [s2 ->]. cbn [mbind outcome_bind].
  destruct s2 as [s2 |]; [| by eexists].
  destruct (append_original_query_Val s2 query Hq) as [s3 ->]. by eexists.
Qed.

Lemma new_no_trie_Val host d path p route : exists r, new_no_trie host d path p route = Val r.
Proof. destruct route; cbn; [by eexists.. |]. apply from_frontend_Val. Qed.

Lemma new_with_trie_Val host inl tr path p route :
  inline_iter inl = Val tr -> exists r, new_with_trie host inl path p route = Val r.
Proof.
  intros Hi. destruct route as [| | f]; cbn; [by eexists.. |]. rewrite Hi.
  destruct (0 <? fr_capture_cap_host f); cbn [mbind outcome_bind]; apply from_frontend_Val.
Qed.

(** The first hostname candidate with a rule for the request. *)
Definition tree_candidate (t : Router) (hostname path : list Z) (method : Method)
    (headers : RequestHeaders) :=
  List.find (fun c : list TrieSubMatch * KeyValue (list (TreeRule Route)) =>
               negb (is_none (tree_choice path method headers c.2.2)))
    (request_candidates (tree t) hostname true).

Lemma lookup_tree_Val t hostname path method headers :
  exists inl, inline_iter inl = Val (default [] (fst <$> tree_candidate t hostname path method headers)) /\
  lookup_tree t hostname path method headers =
  Val (c ← tree_candidate t hostname path method headers;
       '(p, r) ← tree_choice path method headers c.2.2; Some (p, r, inl)).
Proof.
  assert (Hacc : forall st kv, accept_rule path method headers st kv =
    (negb (is_none (tree_choice path method headers kv.2)), st)).
  { intros st kv. unfold accept_rule. rewrite select_tree_rule_Val. by destruct (tree_choice _ _ _ _). }
  destruct (lookup_inline_pick (accept_rule path method headers) (tree t) hostname true false)
    as (inl & Hl & Hi). unfold lookup_tree. rewrite Hl. clear Hl.
  assert (Hp : pick (accept_rule path method headers) false (request_candidates (tree t) hostname true) =
    (tree_candidate t hostname path method headers, false)).
  { clear Hi. unfold tree_candidate. induction (request_candidates _ _ _) as [| [tr kv] l IH]; [done |].
    cbn [pick List.find snd]. rewrite Hacc. by destruct (negb _). }
  rewrite Hp in *. cbn [fst snd] in *. exists inl. split; [done |]. cbn [mbind outcome_bind negb debug_assert].
  destruct (tree_candidate t hostname path method headers) as [[tr [k rules]] |]; [| done].
  cbn [fmap option_fmap option_map snd fst mbind option_bind]. rewrite select_tree_rule_Val.
  cbn [mbind outcome_bind]. by destruct (tree_choice path method headers rules) as [[??] |].
Qed.

(** Where the rule that serves a request comes from. *)
Inductive decision :=
| FromListed (e : ListedRule Route)
| FromTree (segments : list TrieSubMatch) (path_rule : PathRule) (route : Route).

Definition route_decision (t : Router) (hostname path : list Z) (method : Method)
    (headers : RequestHeaders) : option decision :=
  match listed_choice hostname path method headers (pre t) with
  | Some e => Some (FromListed e)
  | None =>
      match tree_candidate t hostname path method headers with
      | Some (segments, (_, rules)) =>
          '(path_rule, route) ← tree_choice path method headers rules;
          Some (FromTree segments path_rule route)
      | None => FromListed <$> listed_choice hostname path method headers (post t)
      end
  end.

(** The result a decision gives, the segments being those of the record. *)
Definition decision_result (hostname path : list Z) (d : decision) (r : RouteResult) : Prop :=
  match d with
  | FromListed (domain_rule, path_rule, _, _, route) =>
      new_no_trie hostname domain_rule path path_rule route = Val r
  | FromTree segments path_rule route =>
      exists inl, inline_iter inl = Val segments /\
        new_with_trie hostname inl path path_rule route = Val r
  end.

Definition listed_ok (rules : list (ListedRule Route)) : Prop :=
  Forall (fun e => domain_ok (entry_domain e)) rules.

(** The route of a request: the rules listed before the trie, then the
    hostname candidates of the trie, most specific first, passing over every
    hostname that has no rule for this path, method and headers, then the
    rules listed after it.  The lookup of the normalised hostname serves
    exactly that rule, with the segments the trie matched, fails only when no
    rule anywhere matches, and never panics. *)
Theorem route_lookup_Val (t : Router) hostname path method headers :
  listed_ok (pre t) -> listed_ok (post t) ->
  match route_decision t (normalize_hostname hostname) path method headers with
  | Some d => exists r, lookup_with_headers t hostname path method headers = Val r /\
                        decision_result (normalize_hostname hostname) path d r
  | None => lookup_with_headers t hostname path method headers = Fails RouteNotFound
  end.
Proof.
  intros Hpre Hpost. unfold lookup_with_headers, route_decision.
  set (host := normalize_hostname hostname).
  rewrite !select_listed_rule_Val by done. cbn [lift_checked mbind outcome_bind].
  destruct (listed_choice host path method headers (pre t)) as [[[[[d p] m] h] r] |].
  { destruct (new_no_trie_Val host d path p r) as [x Hx]. exists x. by rewrite Hx. }
  destruct (lookup_tree_Val t host path method headers) as (inl & Hi & ->).
  cbn [lift_checked mbind outcome_bind].
  destruct (tree_candidate t host path method headers) as [[segments [k rules]] |] eqn:Hc.
  - cbn [mbind option_bind snd fst]. apply find_some in Hc as [_ Hs]. cbn [snd] in Hs.
    destruct (tree_choice path method headers rules) as [[p r] |]; [| done]. cbn.
    destruct (new_with_trie_Val host inl segments path p r Hi) as [x Hx].
    exists x. rewrite Hx. split; [done |]. by exists inl.
  - cbn [mbind option_bind].
    destruct (listed_choice host path method headers (post t)) as [[[[[d p] m] h] r] |]; [| done].
    cbn. destruct (new_no_trie_Val host d path p r) as [x Hx]. exists x. by rewrite Hx.
Qed.

End LookupProofs.

(** ** The identity of a rule *)

Section Identity.
Context `{HR : RegexCrate}.

Definition path_key (p : PathRule) : Z * list Z :=
  match p with
  | PathPrefix s => (0, s)
  | PathRegex r => (1, as_str r)
  | PathEquals s => (2, s)
  | PathRegexPath r => (3, as_str r)
  end.

Definition domain_key (d : DomainRule) : Z * list Z :=
  match d with
  | DomainAny => (0, [])
  | DomainExact s => (1, s)
  | DomainWildcard s => (2, s)
  | DomainRegex r => (3, as_str r)
  end.

Definition tree_key (rule : TreeRule Route) : (Z * list Z) * option Method * list (list Z * Z * list Z) :=
  let '(p, m, h, _) := rule in (path_key p, m, sort_key <$> h).

Definition listed_key (rule : ListedRule Route) :
    (Z * list Z) * (Z * list Z) * option Method * list (list Z * Z * list Z) :=
  let '(d, p, m, h, _) := rule in (domain_key d, path_key p, m, sort_key <$> h).

(** Comparisons of keys built from constructors. *)
Ltac key_eq :=
  first [ apply bool_decide_ext; split; [intros; f_equal; intuition congruence | intros [= ]; intuition congruence]
        | symmetry; apply bool_decide_eq_true; congruence
        | symmetry; apply bool_decide_eq_false; congruence ].

Lemma path_eqb_key a b : path_eqb a b = bool_decide (path_key a = path_key b).
Proof. destruct a, b; cbn; key_eq. Qed.

Lemma domain_eqb_key a b : domain_eqb a b = bool_decide (domain_key a = domain_key b).
Proof. destruct a, b; cbn; key_eq. Qed.

Lemma header_rule_eqb_decide a b : header_rule_eqb a b = bool_decide (sort_key a = sort_key b).
Proof.
  destruct a as [n1 m1], b as [n2 m2]. unfold header_rule_eqb, sort_key. cbn.
  destruct m1, m2; cbn; rewrite ?andb_false_r, ?andb_true_r, <- ?bool_decide_and; key_eq.
Qed.

Lemma headers_eqb_key a b : headers_eqb a b = bool_decide (sort_key <$> a = sort_key <$> b).
Proof.
  revert b. induction a as [| x a IH]; intros [| y b]; cbn;
    [symmetry; by apply bool_decide_eq_true | symmetry; by apply bool_decide_eq_false.. |].
  rewrite header_rule_eqb_decide, IH, <- bool_decide_and. key_eq.
Qed.

Lemma tree_rule_is_key p m h r rule :
  tree_rule_is p m h rule = bool_decide (tree_key rule = tree_key (p, m, h, r)).
Proof.
  destruct rule as [[[p' m'] h'] r']. cbn. rewrite path_eqb_key, headers_eqb_key, <- !bool_decide_and.
  key_eq.
Qed.

Lemma listed_rule_is_key d p m h r rule :
  listed_rule_is d p m h rule = bool_decide (listed_key rule = listed_key (d, p, m, h, r)).
Proof.
  destruct rule as [[[[d' p'] m'] h'] r']. cbn.
  rewrite domain_eqb_key, path_eqb_key, headers_eqb_key, <- !bool_decide_and.
  key_eq.
Qed.

Lemma existsb_key {A K} `{EqDecision K} (key : A -> K) (f : A -> bool) k l :
  (forall x, f x = bool_decide (key x = k)) -> existsb f l = bool_decide (k ∈ key <$> l).
Proof.
  intros Hf. apply eq_true_iff_eq. rewrite existsb_exists, bool_decide_eq_true, list_elem_of_fmap.
  split.
  - intros (x & Hx & Hfx). rewrite Hf, bool_decide_eq_true in Hfx. exists x.
    split; [done | by apply list_elem_of_In].
  - intros (x & -> & Hx). exists x. rewrite Hf. split; [by apply list_elem_of_In |].
    by apply bool_decide_eq_true.
Qed.
End Identity.

(** ** The table stays well formed *)

Section Invariant.
Context `{HR : RegexCrate} `{HRL : !RegexLaws} `{HC : HostCrates}.

(** What is known of the domain rules that are listed. *)
Variable D : DomainRule -> Prop.

Implicit Types t : Router.

(** The listed rules: no two with one identity, and [D] of each. *)
Definition listed_wf (rules : list (ListedRule Route)) : Prop :=
  NoDup (listed_key <$> rules) /\ Forall (fun e => D (entry_domain e)) rules.

(** A hostname has at least one rule, and no two rules with one identity. *)
Definition leaf_ok (paths : list (TreeRule Route)) : Prop :=
  paths <> [] /\ NoDup (tree_key <$> paths).

Definition trie_all (Q : list (TreeRule Route) -> Prop) (n : TrieNode (list (TreeRule Route))) : Prop :=
  forall p slot k v, at_path n p slot = Some (k, v) -> Q v.

Record table_wf (t : Router) : Prop := {
  wf_tree : trie_wf (tree t);
  wf_leaves : trie_all leaf_ok (tree t);
  wf_pre : listed_wf (pre t);
  wf_post : listed_wf (post t);
}.

Lemma trie_all_insert Q n p slot k v :
  trie_all Q n -> path_ok p slot -> Q v -> trie_all Q (insert_at n p slot (k, v)).
Proof.
  intros Hn Hp Hv p' slot' k' v' Ha.
  destruct (decide ((p', slot') = (p, slot))) as [[= -> ->] | Hne].
  - rewrite at_insert_same in Ha by done. by injection Ha as _ <-.
  - rewrite at_insert_other in Ha by done. by eapply Hn.
Qed.

Lemma trie_all_remove Q n p slot :
  trie_wf n -> (forall p' slot' k v, (p', slot') <> (p, slot) -> at_path n p' slot' = Some (k, v) -> Q v) ->
  trie_all Q (remove_at n p slot).
Proof.
  intros Hn Hq p' slot' k' v' Ha.
  destruct (decide ((p', slot') = (p, slot))) as [[= -> ->] | Hne].
  - by rewrite at_remove_same in Ha.
  - rewrite at_remove_other in Ha by done. by eapply Hq.
Qed.

Lemma split_at_byte_le c s : (length (split_at_byte c s).2 <= length s)%nat.
Proof.
  pose proof (split_at_byte_app c s) as Happ. apply (f_equal length) in Happ.
  rewrite length_app in Happ. lia.
Qed.

Lemma split_labels_Val fuel s result :
  (length s < fuel)%nat -> exists o, split_labels fuel s result = Val o.
Proof.
  revert s result. induction fuel as [| fuel IH]; intros s result Hf; [lia |]. cbn [split_labels].
  destruct s as [| b s]; [by eexists |].
  match goal with |- context [match ?step with Some _ => _ | None => Val None end] => set (st := step) end.
  assert (Hst : forall r rest, st = Some (r, rest) -> (length rest <= length (b :: s))%nat).
  { subst st. intros r rest. destruct (Z.eqb_spec b SLASH).
    - destruct (list_find _ _) as [[i x] |]; [| done]. destruct (utf8_valid _); [| done].
      intros [= _ <-]. rewrite length_drop. cbn [length]. lia.
    - pose proof (split_at_byte_le DOT (b :: s)). destruct (split_at_byte DOT (b :: s)) as [label rest'].
      destruct (utf8_valid label); [| done]. destruct (domain_to_ascii label); [| done].
      cbn in *. intros [= _ <-]. done. }
  clearbody st. destruct st as [[r rest] |]; [| by eexists].
  specialize (Hst r rest eq_refl). destruct rest as [| c rest]; [by eexists |].
  destruct (negb _); [by eexists |]. apply IH. cbn [length] in *. lia.
Qed.

Lemma tree_hostname_Val hostname : exists o, tree_hostname_to_ascii hostname = Val o.
Proof.
  unfold tree_hostname_to_ascii. case_bool_decide.
  - destruct (split_labels_Val (S (length hostname)) hostname []) as [[o |] ->];
      [lia | by eexists | by eexists].
  - by eexists.
Qed.

(** *** Hostnames of the trie *)

Lemma table_wf_set_tree t n :
  table_wf t -> trie_wf n -> trie_all leaf_ok n -> table_wf (set_tree t n).
Proof. intros [] ??. by split. Qed.

Lemma existsb_tree_key p m h r paths :
  existsb (tree_rule_is p m h) paths = bool_decide (tree_key (p, m, h, r) ∈ tree_key <$> paths).
Proof. apply existsb_key. intros. apply tree_rule_is_key. Qed.

(** What adding a rule to a hostname does, on the trie read as a map. *)
Definition tree_add (t : Router) (ascii : option Key) (rule : TreeRule Route) : Router * bool :=
  match ascii ≫= host_address with
  | None => (t, false)
  | Some (p, slot) =>
      match at_path (tree t) p slot with
      | Some (key, paths) =>
          if bool_decide (tree_key rule ∈ tree_key <$> paths) then (t, false)
          else (set_tree t (insert_at (tree t) p slot (key, paths ++ [rule])), true)
      | None =>
          if negb (hostname_ok (default [] ascii)) then (t, false)
          else (set_tree t (insert_at (tree t) p slot (default [] ascii, [rule])), true)
      end
  end.

Lemma set_tree_id t : set_tree t (tree t) = t.
Proof. by destruct t. Qed.

Lemma add_tree_rule_Val t hostname p m h r :
  trie_wf (tree t) -> utf8_valid hostname = true ->
  exists ascii, tree_hostname_to_ascii hostname = Val ascii /\
    add_tree_rule_with_headers t hostname p m h r = Val (tree_add t ascii (p, m, h, r)).
Proof.
  intros Hn Hu. destruct (tree_hostname_Val hostname) as [ascii Ha]. exists ascii. split; [done |].
  unfold add_tree_rule_with_headers, tree_add. rewrite Hu, Ha. cbn [negb mbind outcome_bind].
  destruct ascii as [k |]; [| done]. cbn [mbind option_bind default from_option id].
  destruct (domain_lookup_mut_spec (tree t) k) as (e & -> & He). cbn [mbind outcome_bind].
  unfold domain_insert. rewrite insert_Val by done. unfold insert_spec.
  destruct (host_address k) as [[pt slot] |] eqn:Hk; cbn [entry_is] in He.
  2: { subst e. cbn. by rewrite set_tree_id. }
  destruct e as [[[key paths] write] |].
  - destruct He as [-> Hw]. rewrite (existsb_tree_key _ _ _ r).
    case_bool_decide as Hin; cbn [negb]; [done |].
    run_assert by (rewrite length_app; apply Nat.eqb_refl).
    run_assert by (rewrite (existsb_tree_key _ _ _ r); apply bool_decide_eq_true;
      rewrite fmap_app; apply elem_of_app; right; by left).
    by rewrite Hw.
  - rewrite He. cbn [is_none]. destruct (hostname_ok k) eqn:Hok; cbn [negb mbind outcome_bind].
    2: { rewrite decide_True by done. by rewrite set_tree_id. }
    rewrite decide_False by done. cbn [set_tree tree].
    destruct (host_address_ok k Hok) as (pt' & slot' & Hk' & Hp). rewrite Hk in Hk'. injection Hk' as <- <-.
    match goal with |- context [domain_lookup_mut ?n k false] =>
      destruct (domain_lookup_mut_spec n k) as (e & -> & He') end.
    cbn [mbind outcome_bind]. rewrite Hk in He'. cbn [entry_is] in He'.
    rewrite at_insert_same in He' by done. destruct e as [[[key paths] write] |]; [| done].
    destruct He' as [[= <- <-] _].
    by run_assert by (rewrite (existsb_tree_key _ _ _ r); apply bool_decide_eq_true; by left).
Qed.

Lemma tree_add_wf t ascii rule : table_wf t -> table_wf (tree_add t ascii rule).1.
Proof.
  intros Ht. pose proof Ht as [Hn Hl _ _]. unfold tree_add.
  destruct (ascii ≫= host_address) as [[p slot] |] eqn:Ha; [| done].
  destruct (at_path (tree t) p slot) as [[key paths] |] eqn:Hat.
  - case_bool_decide as Hin; [done |]. cbn [fst]. pose proof (at_path_ok _ _ _ _ Hn Hat) as Hp.
    apply table_wf_set_tree; [done | by apply wf_insert_at |]. apply trie_all_insert; [done | done |].
    destruct (Hl _ _ _ _ Hat) as [Hne Hnd]. split; [by destruct paths |].
    rewrite fmap_app. by apply NoDup_snoc.
  - destruct (hostname_ok (default [] ascii)) eqn:Hok; cbn [negb fst]; [| done].
    destruct ascii as [k |]; [| done]. cbn [default from_option id mbind option_bind] in *.
    destruct (host_address_ok k Hok) as (p' & slot' & Hk' & Hp). rewrite Ha in Hk'.
    injection Hk' as <- <-. apply table_wf_set_tree; [done | by apply wf_insert_at |].
    apply trie_all_insert; [done | done |]. split; [done |]. apply NoDup_singleton.
Qed.

(** What removing one does. *)
Definition tree_remove (t : Router) (ascii : option Key) (rule : TreeRule Route) : Router :=
  match ascii ≫= host_address with
  | None => t
  | Some (p, slot) =>
      match at_path (tree t) p slot with
      | None => t
      | Some (key, paths) =>
          let paths := filter (fun r => tree_key r <> tree_key rule) paths in
          if bool_decide (paths = []) then set_tree t (remove_at (tree t) p slot)
          else set_tree t (insert_at (tree t) p slot (key, paths))
      end
  end.

Lemma List_filter_filter {A} (f : A -> bool) (P : A -> Prop) `{forall x, Decision (P x)} l :
  (forall x, f x = bool_decide (P x)) -> List.filter f l = filter P l.
Proof.
  intros Hf. induction l as [| x l IH]; [done |]. cbn [List.filter]. rewrite filter_cons, Hf, IH.
  case_bool_decide; [by rewrite decide_True | by rewrite decide_False].
Qed.

Lemma remove_overwritten (n : TrieNode (list (TreeRule Route))) p slot kv :
  trie_wf n -> path_ok p slot -> remove_at (insert_at n p slot kv) p slot = remove_at n p slot.
Proof.
  intros Hn Hp. revert n Hn. induction p as [| s p IH]; intros n Hn.
  { by destruct n, slot. }
  apply path_ok_cons in Hp as [Hs Hp]. cbn [insert_at remove_at]. rewrite child_put_same by done.
  rewrite IH by (done || by apply default_wf).
  destruct (child n s) as [c |] eqn:Hc; cbn [default from_option id].
  - destruct (is_empty _); [| by rewrite put_put].
    destruct n as [kv0 w ch rs], s as [k | a]; cbn [put prune children regexps].
    + unfold set_children. cbn. by rewrite delete_insert_eq.
    + cbn [child regexps] in Hc. destruct (find_regexp a rs) as [[i [r c0]] |] eqn:E; [| done].
      pose proof (find_regexp_Some _ _ _ _ E) as [Hi _]. cbn [regexps set_regexps].
      rewrite (find_regexp_insert _ _ _ (r, c0)), E by done. unfold set_regexps. cbn.
      by rewrite list_delete_insert.
  - rewrite (remove_at_absent root) by (apply wf_root || apply at_root). cbn. by apply prune_put.
Qed.

Lemma remove_tree_rule_Val t hostname p m h r :
  trie_wf (tree t) -> utf8_valid hostname = true ->
  exists ascii, tree_hostname_to_ascii hostname = Val ascii /\
    remove_tree_rule_with_headers t hostname p m h =
    Val (tree_remove t ascii (p, m, h, r), negb (is_none ascii)).
Proof.
  intros Hn Hu. destruct (tree_hostname_Val hostname) as [ascii Ha]. exists ascii. split; [done |].
  unfold remove_tree_rule_with_headers, tree_remove. rewrite Hu, Ha. cbn [negb mbind outcome_bind].
  destruct ascii as [k |]; [| done]. cbn [mbind option_bind is_none negb].
  destruct (domain_lookup_mut_spec (tree t) k) as (e & -> & He). cbn [mbind outcome_bind].
  destruct (host_address k) as [[pt slot] |] eqn:Hk; cbn [entry_is] in He; [| by subst e].
  destruct e as [[[key paths] write] |]; [| by rewrite He]. destruct He as [Hat Hw]. rewrite Hat.
  rewrite (List_filter_filter _ (fun rule => tree_key rule <> tree_key (p, m, h, r))).
  2: { intros rule. by rewrite (tree_rule_is_key p m h r), <- bool_decide_not. }
  set (paths' := filter _ paths).
  rewrite (debug_assert_true (negb (existsb (tree_rule_is p m h) paths'))).
  2: { apply negb_true_iff. rewrite (existsb_tree_key _ _ _ r). apply bool_decide_eq_false.
       intros (x & Hx & [Hne _]%list_elem_of_filter)%list_elem_of_fmap. congruence. }
  cbn [mbind outcome_bind]. rewrite Hw. pose proof (at_path_ok _ _ _ _ Hn Hat) as Hp.
  replace (bool_decide (length paths' = 0%nat)) with (bool_decide (paths' = []))
    by (apply bool_decide_ext; split; [by intros -> | apply nil_length_inv]).
  case_bool_decide as Hempty; [| done].
  unfold domain_remove. cbn [set_tree tree pre post].
  rewrite remove_Val, Hk by (by apply wf_insert_at). unfold remove_spec.
  rewrite at_insert_same by done. cbn [is_none mbind outcome_bind set_tree tree pre post].
  rewrite remove_overwritten by done.
  destruct (domain_lookup_mut_spec (remove_at (tree t) pt slot) k) as (e & -> & He).
  rewrite Hk in He. cbn [entry_is] in He. rewrite at_remove_same in He by done.
  destruct e as [[??] |]; [by destruct He |]. done.
Qed.

Lemma tree_remove_wf t ascii rule : table_wf t -> table_wf (tree_remove t ascii rule).
Proof.
  intros Ht. pose proof Ht as [Hn Hl _ _]. unfold tree_remove.
  destruct (ascii ≫= host_address) as [[p slot] |]; [| done].
  destruct (at_path (tree t) p slot) as [[key paths] |] eqn:Hat; [| done].
  pose proof (at_path_ok _ _ _ _ Hn Hat) as Hp. case_bool_decide as He.
  - apply table_wf_set_tree; [done | by apply wf_remove_at |]. apply trie_all_remove; [done |].
    intros. by eapply Hl.
  - apply table_wf_set_tree; [done | by apply wf_insert_at |]. apply trie_all_insert; [done | done |].
    split; [done |]. destruct (Hl _ _ _ _ Hat) as [_ Hnd].
    eapply sublist_NoDup; [exact Hnd |]. apply fmap_sublist, sublist_filter.
Qed.

(** *** The listed rules *)

Lemma existsb_listed_key d p m h r rules :
  existsb (listed_rule_is d p m h) rules =
  bool_decide (listed_key (d, p, m, h, r) ∈ listed_key <$> rules).
Proof. apply existsb_key. intros. apply listed_rule_is_key. Qed.

Lemma add_listed_Val rules d p m h r :
  add_listed rules d p m h r =
  Val (if bool_decide (listed_key (d, p, m, h, r) ∈ listed_key <$> rules) then (rules, false)
       else (rules ++ [(d, p, m, h, r)], true)).
Proof.
  unfold add_listed. rewrite (existsb_listed_key _ _ _ _ r). case_bool_decide; cbn [negb].
  - by rewrite Nat.eqb_refl.
  - run_assert by (rewrite length_app; apply Nat.eqb_refl).
    by run_assert by (rewrite (existsb_listed_key _ _ _ _ r); apply bool_decide_eq_true;
      rewrite fmap_app; apply elem_of_app; right; by left).
Qed.

Lemma remove_listed_Val rules d p m h r :
  NoDup (listed_key <$> rules) ->
  exists ok, remove_listed rules d p m h =
    Val (filter (fun e => listed_key e <> listed_key (d, p, m, h, r)) rules, ok) /\
    (ok = true <-> listed_key (d, p, m, h, r) ∈ listed_key <$> rules).
Proof.
  intros Hnd. unfold remove_listed.
  set (key := listed_key (d, p, m, h, r)).
  assert (Hkey : forall e, listed_rule_is d p m h e = true <-> listed_key e = key).
  { intros e. by rewrite (listed_rule_is_key d p m h r), bool_decide_eq_true. }
  destruct (list_find _ rules) as [[i e] |] eqn:E.
  - apply list_find_Some in E as (Hi & He & _). apply Hkey in He. exists true. split.
    + run_assert by (apply Nat.ltb_lt; by eapply lookup_lt_Some).
      assert (Hdel : delete i rules = filter (fun e => listed_key e <> key) rules).
      { rewrite delete_take_drop. rewrite <- (take_drop_middle rules i e Hi) in Hnd.
        rewrite <- (take_drop_middle rules i e Hi) at 3.
        rewrite filter_app, filter_cons, decide_False by (by intros []).
        rewrite fmap_app, fmap_cons in Hnd.
        apply NoDup_app in Hnd as (_ & Hd1 & [Hd2 _]%NoDup_cons).
        rewrite !filter_all; [done | |]; apply Forall_forall; intros x Hx Hxk; rewrite <- He in Hxk.
        - apply Hd2. rewrite <- Hxk. apply list_elem_of_fmap. eauto.
        - apply (Hd1 (listed_key x)); [apply list_elem_of_fmap; eauto |]. rewrite Hxk. by left. }
      pose proof (length_delete rules i ltac:(eauto)) as Hlen.
      run_assert by (apply Nat.eqb_eq; rewrite Hlen; apply lookup_lt_Some in Hi; lia).
      run_assert by (apply negb_true_iff; rewrite (existsb_listed_key _ _ _ _ r), Hdel;
        apply bool_decide_eq_false;
        intros (x & Hx & [Hne _]%list_elem_of_filter)%list_elem_of_fmap; by apply Hne).
      by rewrite Hdel.
    + split; [| done]. intros _. rewrite <- He. apply list_elem_of_fmap. exists e.
      split; [done |]. by eapply list_elem_of_lookup_2.
  - apply list_find_None in E. exists false. rewrite Nat.eqb_refl. cbn. split.
    + rewrite filter_all; [done |]. eapply Forall_impl; [exact E |]. cbn. intros x Hx Hk.
      by apply Hx, Hkey.
    + split; [done |]. intros (x & Hx & Hin)%list_elem_of_fmap. exfalso.
      by apply (proj1 (Forall_forall _ _) E x Hin), Hkey.
Qed.

Lemma add_listed_wf rules d p m h r :
  D d -> listed_wf rules ->
  exists rules' ok, add_listed rules d p m h r = Val (rules', ok) /\ listed_wf rules'.
Proof.
  intros Hd [Hnd Hok]. rewrite add_listed_Val. case_bool_decide; eexists _, _; (split; [done |]); [done |].
  split.
  - rewrite fmap_app. by apply NoDup_snoc.
  - apply Forall_app. split; [done |]. by apply Forall_singleton.
Qed.

Lemma remove_listed_wf rules d p m h :
  listed_wf rules ->
  exists rules' ok, remove_listed rules d p m h = Val (rules', ok) /\ listed_wf rules'.
Proof.
  intros [Hnd Hok]. destruct (remove_listed_Val rules d p m h Deny Hnd) as (ok & E & _).
  eexists _, ok. split; [exact E |]. split.
  - eapply sublist_NoDup; [exact Hnd |]. apply fmap_sublist, sublist_filter.
  - apply Forall_forall. intros x [_ Hx]%list_elem_of_filter. by apply (proj1 (Forall_forall _ _) Hok).
Qed.

End Invariant.

(** ** Every operation of the table *)

Section Operations.
Context `{HR : RegexCrate} `{HRL : !RegexLaws} `{HC : HostCrates}.
Variable D : DomainRule -> Prop.
Implicit Types t : Router.

Lemma convert_loop_Val fuel s result :
  (length s < fuel)%nat -> exists o, convert_loop fuel s result = Val o.
Proof.
  revert s result. induction fuel as [| fuel IH]; intros s result Hf; [lia |]. cbn [convert_loop].
  destruct s as [| b s]; [by eexists |].
  match goal with |- context [match ?step with Some _ => _ | None => Val None end] => set (st := step) end.
  assert (Hst : forall r rest, st = Some (r, rest) -> (length rest <= length (b :: s))%nat).
  { subst st. intros r rest. destruct (Z.eqb_spec b SLASH).
    - destruct (list_find _ _) as [[i x] |]; [| done]. destruct (_ && _); [| done].
      intros [= _ <-]. rewrite length_drop. cbn [length]. lia.
    - pose proof (split_at_byte_le DOT (b :: s)). destruct (split_at_byte DOT (b :: s)) as [label rest'].
      destruct (utf8_valid label); [| done]. cbn in *. intros [= _ <-]. done. }
  clearbody st. destruct st as [[r rest] |]; [| by eexists].
  specialize (Hst r rest eq_refl). destruct rest as [| c rest]; [by eexists |].
  destruct (c =? DOT); [| by eexists]. apply IH. cbn [length] in *. lia.
Qed.

Lemma DomainRule_from_str_Val s : exists o, DomainRule_from_str s = Val o.
Proof.
  unfold DomainRule_from_str. case_decide; [by eexists |]. case_bool_decide.
  { unfold convert_regex_domain_rule.
    destruct (convert_loop_Val (S (length s)) s (bstr "\A") ltac:(lia)) as [[o |] ->]; by eexists. }
  case_bool_decide; [| by eexists]. case_bool_decide; by eexists.
Qed.

Lemma tree_add_refused t ascii rule : (tree_add t ascii rule).2 = false -> (tree_add t ascii rule).1 = t.
Proof.
  unfold tree_add. destruct (ascii ≫= host_address) as [[p slot] |]; [| done].
  destruct (at_path (tree t) p slot) as [[key paths] |]; [by case_bool_decide |].
  by destruct (negb _).
Qed.

Lemma add_rule_safe t hostname p m h r d position :
  table_wf D t -> D d ->
  exists t' ok, match position with
    | PositionPre => add_pre_rule_with_headers t d p m h r
    | PositionPost => add_post_rule_with_headers t d p m h r
    | PositionTree => add_tree_rule_with_headers t hostname p m h r
    end = Val (t', ok) /\ table_wf D t' /\ (ok = false -> t' = t).
Proof.
  intros Ht Hd. pose proof Ht as [Hn Hl [Hp1 Hp2] [Hq1 Hq2]]. destruct position.
  - unfold add_pre_rule_with_headers. rewrite add_listed_Val.
    case_bool_decide; cbn [mbind outcome_bind]; eexists _, _; (split; [done |]); [by destruct t |].
    split; [| done]. split; try done. cbn. split; [rewrite fmap_app; by apply NoDup_snoc |].
    apply Forall_app. split; [done | by apply Forall_singleton].
  - unfold add_post_rule_with_headers. rewrite add_listed_Val.
    case_bool_decide; cbn [mbind outcome_bind]; eexists _, _; (split; [done |]); [by destruct t |].
    split; [| done]. split; try done. cbn. split; [rewrite fmap_app; by apply NoDup_snoc |].
    apply Forall_app. split; [done | by apply Forall_singleton].
  - destruct (utf8_valid hostname) eqn:Hu.
    + destruct (add_tree_rule_Val t hostname p m h r Hn Hu) as (ascii & _ & ->).
      eexists _, _. split; [apply f_equal, surjective_pairing |].
      split; [by apply tree_add_wf | apply tree_add_refused].
    + unfold add_tree_rule_with_headers. rewrite Hu. by exists t, false.
Qed.

Lemma remove_rule_safe t hostname p m h d position :
  table_wf D t ->
  exists t' ok, match position with
    | PositionPre => remove_pre_rule_with_headers t d p m h
    | PositionPost => remove_post_rule_with_headers t d p m h
    | PositionTree => remove_tree_rule_with_headers t hostname p m h
    end = Val (t', ok) /\ table_wf D t'.
Proof.
  intros Ht. pose proof Ht as [Hn Hl Hp Hq]. destruct position.
  - unfold remove_pre_rule_with_headers. destruct (remove_listed_wf D (pre t) d p m h Hp) as (l & ok & -> & ?).
    eexists _, _. split; [done |]. by split.
  - unfold remove_post_rule_with_headers. destruct (remove_listed_wf D (post t) d p m h Hq) as (l & ok & -> & ?).
    eexists _, _. split; [done |]. by split.
  - destruct (utf8_valid hostname) eqn:Hu.
    + destruct (remove_tree_rule_Val t hostname p m h Deny Hn Hu) as (ascii & _ & ->).
      eexists _, _. split; [done |]. by apply tree_remove_wf.
    + unfold remove_tree_rule_with_headers. rewrite Hu. by exists t, false.
Qed.

(** A step of an error monad that does not panic. *)
Lemma outcome_cases {E A} (m : outcome E A) : m <> Panic -> (exists a, m = Val a) \/ (exists e, m = Fails e).
Proof. destruct m; eauto. done. Qed.

(** The hostname of a frontend gives a domain rule that satisfies [D]. *)
Definition front_domain_ok (front : HttpFrontend) : Prop :=
  forall d, DomainRule_from_str (hf_hostname front) = Val (Some d) -> D d.

Lemma add_http_front_safe t front origin :
  table_wf D t -> front_domain_ok front ->
  (exists t', add_http_front_with_hsts_origin t front origin = Val t' /\ table_wf D t') \/
  (exists e, add_http_front_with_hsts_origin t front origin = Fails e).
Proof.
  intros Ht Hf. unfold add_http_front_with_hsts_origin. destruct (_ <? _)%nat; [eauto |].
  destruct (PathRule_from_config _ _) as [p |]; cbn [ok_or_fails mbind outcome_bind]; [| eauto].
  destruct (outcome_cases _ (HeaderRules_from_config_safe (hf_header_predicates front))) as
    [[h ->] | [e ->]]; cbn [mbind outcome_bind]; [| eauto].
  destruct (DomainRule_from_str_Val (hf_hostname front)) as [[d |] Hd]; rewrite Hd;
    cbn [lift_checked ok_or_fails mbind outcome_bind]; [| eauto]. apply Hf in Hd.
  match goal with |- context [mbind _ ?m] =>
    match m with context [has_policy] => assert (Hr : m <> Panic) end end.
  { destruct (has_policy front); [| done].
    match goal with |- context [Frontend_new ?a ?b ?c ?d ?e ?f ?g ?h ?i ?j ?k ?l] =>
      destruct (outcome_cases _ (Frontend_new_safe a b c d e f g h i j k l)) as [[x ->] | [x ->]] end; done. }
  destruct (outcome_cases _ Hr) as [[r ->] | [e ->]]; cbn [mbind outcome_bind]; [| eauto].
  destruct (add_rule_safe t (hf_hostname front) p (MethodRule_new (hf_method front)) h r d
    (hf_position front) Ht Hd) as (t' & ok & -> & Hw & _). cbn [lift_checked mbind outcome_bind].
  destruct ok; cbn [negb]; [left; eauto | eauto].
Qed.

Lemma remove_http_front_safe t front :
  table_wf D t ->
  (exists t', remove_http_front t front = Val t' /\ table_wf D t') \/
  (exists e, remove_http_front t front = Fails e).
Proof.
  intros Ht. unfold remove_http_front. destruct (_ <? _)%nat; [eauto |].
  destruct (PathRule_from_config _ _) as [p |]; cbn [ok_or_fails mbind outcome_bind]; [| eauto].
  destruct (outcome_cases _ (HeaderRules_from_config_safe (hf_header_predicates front))) as
    [[h ->] | [e ->]]; cbn [mbind outcome_bind]; [| eauto].
  destruct (DomainRule_from_str_Val (hf_hostname front)) as [od ->].
  destruct (remove_rule_safe t (hf_hostname front) p (MethodRule_new (hf_method front)) h
    (default DomainAny od) (hf_position front) Ht) as (t' & ok & E & Hw).
  destruct (hf_position front), od as [d |]; cbn [lift_checked ok_or_fails mbind outcome_bind default from_option id] in *;
    try (right; by eexists); rewrite E; cbn [lift_checked mbind outcome_bind];
    (destruct ok; cbn [negb]; [left; eauto | right; eauto]).
Qed.

(** *** Listener-default HSTS *)

Lemma visit_all_fst {R K} (f : Route -> nat -> Route * nat) (get : R -> Route) (set : R -> Route -> R)
    (key : R -> K) rules count :
  (forall rule r, key (set rule r) = key rule) ->
  key <$> (visit_all f get set rules count).1 = key <$> rules.
Proof.
  intros Hkey. unfold visit_all. cut (forall acc,
    key <$> (foldl (fun '(l, c) rule => let '(route, c) := f (get rule) c in
      (l ++ [set rule route], c)) (acc, count) rules).1 = (key <$> acc) ++ (key <$> rules)).
  { intros Hc. by rewrite Hc. }
  revert count. induction rules as [| rule rules IH]; intros count acc; cbn; [by rewrite app_nil_r |].
  destruct (f (get rule) count) as [route count']. rewrite IH, fmap_app, <- app_assoc. cbn.
  by rewrite Hkey.
Qed.

Lemma visit_listed_wf f rules count :
  listed_wf D rules -> listed_wf D (visit_all f listed_route set_listed_route rules count).1.
Proof.
  intros [Hnd Hok]. split.
  - rewrite visit_all_fst; [done |]. by intros [[[[d p] m] h] r] r'.
  - apply (Forall_fmap entry_domain D) in Hok. apply (Forall_fmap entry_domain D).
    rewrite visit_all_fst; [done |]. by intros [[[[d p] m] h] r] r'.
Qed.

Lemma visit_leaf_ok f paths count :
  leaf_ok paths -> leaf_ok (visit_all f tree_route set_tree_route paths count).1.
Proof.
  assert (Hkey : forall rule r, tree_key (set_tree_route rule r) = tree_key rule).
  { by intros [[[p m] h] r] r'. }
  intros [Hne Hnd]. pose proof (visit_all_fst f tree_route set_tree_route tree_key paths count Hkey) as E.
  split; [| by rewrite E]. intros Hempty. rewrite Hempty in E. by destruct paths.
Qed.

Lemma refresh_wf t new_hsts : table_wf D t -> table_wf D (refresh_inheriting_hsts t new_hsts).1.
Proof.
  intros [Hn Hl Hp Hq]. unfold refresh_inheriting_hsts.
  set (f := visit_route (build_listener_hsts_edit new_hsts)).
  pose proof (visit_listed_wf f (pre t) 0 Hp) as Hp'.
  destruct (visit_all f listed_route set_listed_route (pre t) 0) as [pre' c1].
  set (g := visit_all f tree_route set_tree_route).
  assert (Hs : swept g (tree t) (for_each_value_mut g (tree t) c1).1) by (by eexists).
  destruct (wf_swept g _ _ Hn Hs) as [Hn' _].
  assert (Hl' : trie_all leaf_ok (for_each_value_mut g (tree t) c1).1).
  { intros p slot k v Ha. pose proof (swept_at g _ _ p slot Hs) as He. rewrite Ha in He.
    destruct (at_path (tree t) p slot) as [[k0 v0] |] eqn:Hat; cbn in He; [| done].
    destruct He as [st [= -> ->]]. by eapply visit_leaf_ok, Hl. }
  destruct (for_each_value_mut g (tree t) c1) as [tree' c2]. cbn [fst] in *.
  pose proof (visit_listed_wf f (post t) c2 Hq) as Hq'.
  destruct (visit_all f listed_route set_listed_route (post t) c2) as [post' c3].
  by split.
Qed.

(** *** Any sequence of operations *)

Inductive table_op :=
| OpAddFront (front : HttpFrontend) (origin : HstsOrigin)
| OpRemoveFront (front : HttpFrontend)
| OpRefreshHsts (hsts : option HstsConfig).

(** An operation that returns an error leaves the table as it was. *)
Definition table_step (t : Router) (op : table_op) : outcome Empty_set (Router * option RouterError) :=
  match match op with
        | OpAddFront front origin => add_http_front_with_hsts_origin t front origin
        | OpRemoveFront front => remove_http_front t front
        | OpRefreshHsts hsts => Val (refresh_inheriting_hsts t hsts).1
        end with
  | Val t' => Val (t', None)
  | Fails e => Val (t, Some e)
  | Panic => Panic
  end.

Fixpoint table_run (t : Router) (ops : list table_op) : checked (Router * list (option RouterError)) :=
  match ops with
  | [] => Val (t, [])
  | op :: ops =>
      '(t, e) ← table_step t op;
      '(t, es) ← table_run t ops;
      Val (t, e :: es)
  end.

Definition op_domain_ok (op : table_op) : Prop :=
  match op with OpAddFront front _ => front_domain_ok front | _ => True end.

Lemma routes_step_safe t op :
  table_wf D t -> op_domain_ok op -> exists t' e, table_step t op = Val (t', e) /\ table_wf D t'.
Proof.
  intros Ht Hop. unfold table_step. destruct op as [front origin | front | hsts].
  - destruct (add_http_front_safe t front origin Ht Hop) as [(t' & -> & ?) | [e ->]]; eauto.
  - destruct (remove_http_front_safe t front Ht) as [(t' & -> & ?) | [e ->]]; eauto.
  - eexists _, _. split; [done |]. by apply refresh_wf.
Qed.

Lemma Router_new_wf : table_wf D Router_new.
Proof.
  split; [apply wf_root | | by repeat constructor | by repeat constructor].
  intros p slot k v Ha. cbn [tree Router_new] in Ha. by rewrite at_root in Ha.
Qed.

Lemma table_run_safe t ops :
  table_wf D t -> Forall op_domain_ok ops ->
  exists t' errors, table_run t ops = Val (t', errors) /\ table_wf D t' /\ length errors = length ops.
Proof.
  intros Ht Hops. revert t Ht. induction Hops as [| op ops Hop _ IH]; intros t Ht; [by exists t, [] |].
  cbn [table_run]. destruct (routes_step_safe t op Ht Hop) as (t1 & e & -> & Ht1). cbn [mbind outcome_bind].
  destruct (IH t1 Ht1) as (t2 & es & -> & ? & ?). exists t2, (e :: es). cbn.
  split; [done |]. split; [done |]. by f_equal.
Qed.

End Operations.
