(* ===== verification/RouteTableSpec.v ===== *)
(** * What the route table promises

    Theorems on the operations of [RouteTable]: no configuration makes the
    table panic or breaks its invariant, a configured table serves the rule of
    the reference selection, a rule changes the rules of its own hostname only,
    and a listener's HSTS patch rewrites the inheriting frontends only. *)

From S2P Require Import Prelude PatternTrie PatternTrieSpec RouterRewrite Router RouterFrontend RouteTable.

(** [idna] works label by label: the label [*], being ASCII, is kept. *)
Class HostLaws `{HostCrates} := {
  ascii_keeps_star : forall s r,
    starts_with s (bstr "*.") = true -> domain_to_ascii s = Some r -> head r = Some STAR;
}.

(** The rules a hostname of the trie owns. *)
Definition host_rules `{RegexCrate} (t : Router) (k : Key) : list (TreeRule Route) :=
  match entry (tree t) k with Val (Some (_, rules)) => rules | _ => [] end.

(** The route of a rule after a listener's HSTS patch. *)
Definition refreshed_route (new_edit : option HeaderEdit) (route : Route) : Route :=
  (visit_route new_edit route 0).1.

Section Configured.
Context `{HR : RegexCrate} `{HRL : !RegexLaws} `{HC : HostCrates}.
Implicit Types t : Router.

(** C23. No configuration breaks the router: any sequence of frontend
    additions and removals, with arbitrary hostnames, regexes, rewrite
    templates, header predicates and positions, and of listener HSTS
    patches, run on the empty table, never panics (each operation succeeds
    or returns an error), and leaves a table whose trie satisfies its
    structural invariants, where every hostname of the trie has at least one
    rule and no list holds two rules with one identity. *)
Theorem table_ops_safe (ops : list table_op) :
  exists t errors, table_run Router_new ops = Val (t, errors) /\
    table_wf (fun _ => True) t /\ length errors = length ops.
Proof.
  apply table_run_safe; [apply Router_new_wf |]. apply Forall_forall. intros op _. by destruct op.
Qed.

(** A frontend hostname with a star in front has the star as its first
    label. *)
Definition star_label (hostname : list Z) : bool :=
  match hostname with
  | c :: rest => negb (c =? STAR) || bool_decide (rest = []) || bool_decide (head rest = Some DOT)
  | [] => true
  end.

Definition op_star_label (op : table_op) : bool :=
  match op with OpAddFront front _ => star_label (hf_hostname front) | _ => true end.

Lemma star_label_domain_ok `{HCL : !HostLaws} s d :
  star_label s = true -> DomainRule_from_str s = Val (Some d) -> domain_ok d.
Proof.
  intros Hs. unfold DomainRule_from_str. case_decide as Hne; [by intros [= <-] |]. case_bool_decide.
  { destruct (convert_regex_domain_rule s) as [[o |] | |]; cbn; try done.
    destruct (regex_build_ci o); [| done]. by intros [= <-]. }
  case_bool_decide.
  - case_bool_decide as Hstar; [| done]. destruct (domain_to_ascii s) as [r |] eqn:E; [| done].
    intros [= <-]. cbn. eapply ascii_keeps_star; [| exact E].
    destruct s as [| c rest]; [done |]. injection Hstar as ->. cbn [star_label] in Hs.
    rewrite Z.eqb_refl in Hs. destruct rest as [| b rest]; [by destruct Hne |].
    cbn in Hs. apply bool_decide_eq_true in Hs. by injection Hs as ->.
  - destruct (domain_to_ascii s); [| done]. by intros [= <-].
Qed.

(** C2. The route of a request on a configured table: the rules listed before
    the trie, then the hostname candidates of the trie, most specific first,
    passing over every hostname that has no rule for this path, method and
    headers, then the rules listed after it.  Of the rules of one hostname
    that serve the request, those with header predicates come before those
    without, then the first that matches path and method exactly, then the
    last of those that match the most bytes of the path ([tree_choice]).  After
    any sequence of operations whose wildcard hostnames have the star as their
    whole first label, the lookup of the normalised hostname serves exactly
    that rule, with the segments the trie matched, fails only when no rule
    anywhere matches, and never panics.  [punycode_wildcard] is the panic of a
    first label that only starts with the star. *)
Theorem configured_lookup `{HCL : !HostLaws} (ops : list table_op) t errors hostname path method headers :
  forallb op_star_label ops = true -> table_run Router_new ops = Val (t, errors) ->
  match route_decision t (normalize_hostname hostname) path method headers with
  | Some d => exists r, lookup_with_headers t hostname path method headers = Val r /\
                        decision_result (normalize_hostname hostname) path d r
  | None => lookup_with_headers t hostname path method headers = Fails RouteNotFound
  end.
Proof.
  intros Hops Hrun.
  destruct (table_run_safe domain_ok Router_new ops (Router_new_wf _)) as (t' & es & E & Ht & _).
  { apply Forall_forall. intros op Hop. apply forallb_forall with (x := op) in Hops; [| by apply list_elem_of_In].
    destruct op; [| done..]. intros d. by apply star_label_domain_ok. }
  rewrite Hrun in E. injection E as <- <-. apply route_lookup_Val; by apply Ht.
Qed.
End Configured.

(** ** One hostname *)

Section Hosts.
Context `{HR : RegexCrate} `{HRL : !RegexLaws} `{HC : HostCrates}.
Variable D : DomainRule -> Prop.
Implicit Types t : Router.

Lemma host_rules_at t k p slot :
  host_address k = Some (p, slot) ->
  host_rules t k = match at_path (tree t) p slot with Some (_, rules) => rules | None => [] end.
Proof. intros Ha. unfold host_rules. rewrite (at_path_entry _ _ _ _ Ha). by destruct (at_path _ _ _) as [[??] |]. Qed.

Lemma host_rules_insert t k p slot kv k' :
  hostname_ok k = true -> host_address k = Some (p, slot) -> path_ok p slot -> hostname_ok k' = true ->
  host_rules (set_tree t (insert_at (tree t) p slot kv)) k' =
  if decide (k' = k) then kv.2 else host_rules t k'.
Proof.
  intros Hk Ha Hp Hk'. unfold host_rules. cbn [tree set_tree]. rewrite (entry_insert_at _ k) by done.
  case_decide; [by destruct kv | done].
Qed.

Lemma host_rules_remove t k p slot k' :
  trie_wf (tree t) -> hostname_ok k = true -> host_address k = Some (p, slot) -> hostname_ok k' = true ->
  host_rules (set_tree t (remove_at (tree t) p slot)) k' =
  if decide (k' = k) then [] else host_rules t k'.
Proof.
  intros Hn Hk Ha Hk'. unfold host_rules. cbn [tree set_tree]. rewrite (entry_remove_at _ k) by done.
  by case_decide.
Qed.

(** A rule is added to its own hostname only: for a hostname whose
    normal form is well formed, adding a rule succeeds exactly when the
    hostname has no rule with that path, method and headers, appends the rule
    to those of the hostname, and leaves the rules of every other hostname,
    and the listed rules, as they were. *)
Theorem add_tree_rule_local t hostname k p m h r :
  table_wf D t -> utf8_valid hostname = true -> tree_hostname_to_ascii hostname = Val (Some k) ->
  hostname_ok k = true ->
  let fresh := bool_decide (tree_key (p, m, h, r) ∉ tree_key <$> host_rules t k) in
  exists t', add_tree_rule_with_headers t hostname p m h r = Val (t', fresh) /\
    (forall k', hostname_ok k' = true ->
       host_rules t' k' =
       if decide (k' = k) then host_rules t k ++ (if fresh then [(p, m, h, r)] else [])
       else host_rules t k') /\
    pre t' = pre t /\ post t' = post t.
Proof.
  intros Ht Hu Ha Hk fresh. subst fresh.
  destruct (add_tree_rule_Val t hostname p m h r (wf_tree _ _ Ht) Hu) as (ascii & Ha' & ->).
  rewrite Ha in Ha'. injection Ha' as <-. unfold tree_add.
  cbn [mbind option_bind default from_option id]. rewrite Hk. cbn [negb].
  destruct (host_address_ok k Hk) as (pt & slot & Hadr & Hp). rewrite Hadr, (host_rules_at _ _ _ _ Hadr).
  destruct (at_path (tree t) pt slot) as [[key paths] |] eqn:Hat.
  - rewrite bool_decide_not. case_bool_decide; cbn [negb].
    + exists t. split; [done |]. split; [| done]. intros k' Hk'. case_decide; [| done]. subst.
      by rewrite app_nil_r, (host_rules_at _ _ _ _ Hadr), Hat.
    + eexists. split; [done |]. split; [| done]. intros k' Hk'. by rewrite (host_rules_insert _ k).
  - rewrite bool_decide_true by (by intros ?%elem_of_nil).
    eexists. split; [done |]. split; [| done]. intros k' Hk'. by rewrite (host_rules_insert _ k).
Qed.

(** A rule is removed from its own hostname only: removing a rule drops
    from the rules of its hostname those with that path, method and headers,
    and nothing else anywhere; the call reports success whether or not there
    was such a rule. *)
Theorem remove_tree_rule_local t hostname k p m h r :
  table_wf D t -> utf8_valid hostname = true -> tree_hostname_to_ascii hostname = Val (Some k) ->
  hostname_ok k = true ->
  exists t', remove_tree_rule_with_headers t hostname p m h = Val (t', true) /\
    (forall k', hostname_ok k' = true ->
       host_rules t' k' =
       if decide (k' = k) then filter (fun e => tree_key e <> tree_key (p, m, h, r)) (host_rules t k)
       else host_rules t k') /\
    pre t' = pre t /\ post t' = post t.
Proof.
  intros Ht Hu Ha Hk. pose proof (wf_tree _ _ Ht) as Hn.
  destruct (remove_tree_rule_Val t hostname p m h r Hn Hu) as (ascii & Ha' & ->).
  rewrite Ha in Ha'. injection Ha' as <-. eexists. split; [done |]. unfold tree_remove.
  cbn [mbind option_bind]. destruct (host_address_ok k Hk) as (pt & slot & Hadr & Hp).
  rewrite Hadr, (host_rules_at _ _ _ _ Hadr). destruct (at_path (tree t) pt slot) as [[key paths] |] eqn:Hat.
  - case_bool_decide as He; (split; [| done]); intros k' Hk'.
    + rewrite (host_rules_remove _ k) by done. case_decide; [by rewrite He | done].
    + by rewrite (host_rules_insert _ k).
  - split; [| done]. intros k' Hk'. case_decide; [| done]. subst.
    by rewrite (host_rules_at _ _ _ _ Hadr), Hat.
Qed.

(** ** Listener-default HSTS *)

Lemma visit_all_map {R} new_edit (get : R -> Route) (set : R -> Route -> R) rules count :
  (visit_all (visit_route new_edit) get set rules count).1 =
  (fun rule => set rule (refreshed_route new_edit (get rule))) <$> rules.
Proof.
  assert (Hv : forall route c, (visit_route new_edit route c).1 = refreshed_route new_edit route).
  { unfold refreshed_route. intros [| |] c; cbn; by repeat (destruct (negb _) || destruct (fr_inherits_listener_hsts _)). }
  unfold visit_all. cut (forall acc,
    (foldl (fun '(l, c) rule => let '(route, c) := visit_route new_edit (get rule) c in
      (l ++ [set rule route], c)) (acc, count) rules).1 =
    acc ++ ((fun rule => set rule (refreshed_route new_edit (get rule))) <$> rules)).
  { intros Hc. by rewrite Hc. }
  revert count. induction rules as [| rule rules IH]; intros count acc; cbn; [by rewrite app_nil_r |].
  specialize (Hv (get rule) count). destruct (visit_route new_edit (get rule) count) as [route count'].
  cbn in Hv. by rewrite IH, <- app_assoc, Hv.
Qed.

Lemma refresh_parts t hsts :
  let t' := (refresh_inheriting_hsts t hsts).1 in
  let refresh := refreshed_route (build_listener_hsts_edit hsts) in
  pre t' = (fun rule => set_listed_route rule (refresh (listed_route rule))) <$> pre t /\
  post t' = (fun rule => set_listed_route rule (refresh (listed_route rule))) <$> post t /\
  forall k, host_rules t' k = (fun rule => set_tree_route rule (refresh (tree_route rule))) <$> host_rules t k.
Proof.
  unfold refresh_inheriting_hsts. set (new_edit := build_listener_hsts_edit hsts).
  pose proof (visit_all_map new_edit listed_route set_listed_route (pre t) 0) as Hp.
  destruct (visit_all _ _ _ (pre t) 0) as [pre' c1].
  set (g := visit_all (visit_route new_edit) tree_route set_tree_route).
  assert (Hs : swept g (tree t) (for_each_value_mut g (tree t) c1).1) by (by eexists).
  destruct (for_each_value_mut g (tree t) c1) as [tree' c2].
  pose proof (visit_all_map new_edit listed_route set_listed_route (post t) c2) as Hq.
  destruct (visit_all _ _ _ (post t) c2) as [post' c3]. cbn [fst] in *.
  split; [done |]. split; [done |]. intros k. unfold host_rules. rewrite !entry_at. cbn [tree].
  destruct (host_address k) as [[p slot] |]; [| done]. pose proof (swept_at g _ _ p slot Hs) as He.
  destruct (at_path (tree t) p slot) as [[key rules] |]; cbn in He; [| by rewrite He].
  destruct He as [st ->]. apply visit_all_map.
Qed.

Definition is_sts (edit : HeaderEdit) : bool := eq_ignore_ascii_case (he_key edit) STS_KEY.

Lemma rebuild_headers f new_edit :
  fr_headers_response (rebuild_with_listener_hsts f new_edit) =
  List.filter (fun edit => negb (is_sts edit)) (fr_headers_response f) ++ option_list new_edit.
Proof. destruct new_edit; cbn; [done | by rewrite app_nil_r]. Qed.

Lemma set_headers_response_twice f l1 l2 :
  set_headers_response (set_headers_response f l1) l2 = set_headers_response f l2.
Proof. by destruct f. Qed.

Lemma listener_edit_is_sts hsts edit : build_listener_hsts_edit hsts = Some edit -> is_sts edit = true.
Proof.
  unfold build_listener_hsts_edit. destruct hsts as [cfg |]; [| done]. cbn [mbind option_bind].
  destruct (negb _); [done |]. destruct (render_hsts cfg); [| done]. by intros [= <-].
Qed.

Lemma filter_sts_app l hsts :
  List.filter (fun edit => negb (is_sts edit)) (l ++ option_list (build_listener_hsts_edit hsts)) =
  List.filter (fun edit => negb (is_sts edit)) l.
Proof.
  rewrite List.filter_app. destruct (build_listener_hsts_edit hsts) as [e |] eqn:E; cbn; [| by rewrite app_nil_r].
  by rewrite (listener_edit_is_sts _ _ E), app_nil_r.
Qed.

Lemma filter_filter_id {A} (f : A -> bool) l : List.filter f (List.filter f l) = List.filter f l.
Proof. induction l as [| x l IH]; cbn; [done |]. destruct (f x) eqn:E; cbn; [by rewrite E, IH | done]. Qed.

Lemma filter_negb {A} (f : A -> bool) l : List.filter f (List.filter (fun x => negb (f x)) l) = [].
Proof. induction l as [| x l IH]; cbn; [done |]. destruct (f x) eqn:E; cbn; [done | by rewrite E]. Qed.

(** A second rebuild undoes the first. *)
Lemma rebuild_twice f hsts new_edit :
  rebuild_with_listener_hsts (rebuild_with_listener_hsts f (build_listener_hsts_edit hsts)) new_edit =
  rebuild_with_listener_hsts f new_edit.
Proof.
  unfold rebuild_with_listener_hsts at 1. rewrite rebuild_headers.
  change (fun edit => negb (eq_ignore_ascii_case (he_key edit) STS_KEY)) with (fun edit => negb (is_sts edit)).
  rewrite filter_sts_app, filter_filter_id. unfold rebuild_with_listener_hsts. apply set_headers_response_twice.
Qed.

Lemma refreshed_twice hsts edit route :
  refreshed_route (Some edit) (refreshed_route (build_listener_hsts_edit hsts) route) =
  refreshed_route (Some edit) route.
Proof.
  assert (Hr : forall f, fr_inherits_listener_hsts f = true ->
    refreshed_route (Some edit) (ToFrontend (rebuild_with_listener_hsts f (build_listener_hsts_edit hsts))) =
    ToFrontend (rebuild_with_listener_hsts f (Some edit))).
  { intros f Hf. rewrite <- (rebuild_twice f hsts (Some edit)). unfold refreshed_route. cbn [visit_route].
    replace (fr_inherits_listener_hsts (rebuild_with_listener_hsts _ _)) with true by (symmetry; destruct f; exact Hf). done. }
  unfold refreshed_route at 2. destruct route as [| id | f]; cbn [visit_route].
  - destruct (is_none (build_listener_hsts_edit hsts)); cbn [negb fst]; [done | by apply Hr].
  - destruct (is_none (build_listener_hsts_edit hsts)); cbn [negb fst]; [done | by apply Hr].
  - destruct (fr_inherits_listener_hsts f) eqn:Hf; cbn [fst]; [| done]. rewrite Hr by done.
    unfold refreshed_route. cbn [visit_route]. by rewrite Hf.
Qed.

(** The edits of the Strict-Transport-Security header of a route. *)
Definition sts_edits (route : Route) : list HeaderEdit :=
  match route with ToFrontend f => List.filter is_sts (fr_headers_response f) | _ => [] end.

(** Whether the operator set the HSTS policy of the route explicitly. *)
Definition explicit_hsts (route : Route) : bool :=
  match route with ToFrontend f => negb (fr_inherits_listener_hsts f) | _ => false end.

Lemma refreshed_effect hsts edit route :
  build_listener_hsts_edit hsts = Some edit ->
  if explicit_hsts route then refreshed_route (Some edit) route = route
  else sts_edits (refreshed_route (Some edit) route) = [edit].
Proof.
  intros Hsts%listener_edit_is_sts.
  assert (Hf : forall f, sts_edits (ToFrontend (rebuild_with_listener_hsts f (Some edit))) = [edit]).
  { intros f. unfold sts_edits. rewrite rebuild_headers, List.filter_app, filter_negb.
    change (option_list (Some edit)) with [edit]. cbn [List.filter app]. by rewrite Hsts. }
  destruct route as [| id | f]; cbn [explicit_hsts]; [by apply Hf | by apply Hf |].
  unfold refreshed_route. cbn [visit_route]. destruct (fr_inherits_listener_hsts f); cbn [negb fst]; [by apply Hf | done].
Qed.

(** The last HSTS patch wins, and only where it should: a patch of the
    listener that enables HSTS gives every inheriting rule, of the lists and
    of every hostname of the trie, exactly its own Strict-Transport-Security
    edit, leaves every rule with an explicit policy as it is, and gives the
    table it would have given had no earlier patch been applied. *)
Theorem hsts_patch_spec t earlier hsts edit :
  build_listener_hsts_edit hsts = Some edit ->
  let patched := (refresh_inheriting_hsts (refresh_inheriting_hsts t earlier).1 hsts).1 in
  let direct := (refresh_inheriting_hsts t hsts).1 in
  pre patched = pre direct /\ post patched = post direct /\
  (forall k, host_rules patched k = host_rules direct k) /\
  (forall k, host_rules direct k =
     (fun rule => set_tree_route rule (refreshed_route (Some edit) (tree_route rule))) <$> host_rules t k) /\
  (forall route, if explicit_hsts route then refreshed_route (Some edit) route = route
                 else sts_edits (refreshed_route (Some edit) route) = [edit]).
Proof.
  intros He patched direct. subst patched direct.
  destruct (refresh_parts t earlier) as (Hp1 & Hq1 & Hh1).
  destruct (refresh_parts (refresh_inheriting_hsts t earlier).1 hsts) as (Hp2 & Hq2 & Hh2).
  destruct (refresh_parts t hsts) as (Hp3 & Hq3 & Hh3). rewrite He in *.
  split; [| split; [| split; [| split; [done | intros; by eapply refreshed_effect]]]].
  - rewrite Hp2, Hp1, Hp3, <- list_fmap_compose. apply list_fmap_ext. intros i x _. cbn.
    by rewrite refreshed_twice.
  - rewrite Hq2, Hq1, Hq3, <- list_fmap_compose. apply list_fmap_ext. intros i x _. cbn.
    by rewrite refreshed_twice.
  - intros k. rewrite Hh2, Hh1, Hh3, <- list_fmap_compose. apply list_fmap_ext. intros i x _. cbn.
    by rewrite refreshed_twice.
Qed.
End Hosts.

(** ** Examples *)

(** Host functions for the examples: ASCII hostnames, lower-cased, and regex
    literals with every byte that is no letter or digit escaped. *)
Definition ascii_hosts : HostCrates := {|
  domain_to_ascii s := if forallb (PatternTrie.between 0 127) s then Some (to_ascii_lowercase s) else None;
  regex_escape s := s ≫= (fun b => if is_ascii_alphanumeric b then [b] else [92; b]);
|}.

Lemma ascii_hosts_laws : @HostLaws ascii_hosts.
Proof.
  split. intros s r Hs Hr. cbn in Hr. destruct (forallb _ s); [| done]. injection Hr as <-.
  destruct s as [| c s]; [done |]. unfold starts_with in Hs. apply bool_decide_eq_true in Hs.
  cbn in Hs. by injection Hs as -> _.
Qed.

#[local] Existing Instance simple_regex.
#[local] Existing Instance simple_regex_laws.
#[local] Existing Instance ascii_hosts.
#[local] Existing Instance ascii_hosts_laws.

Definition example_front (cluster hostname path : list Z) (position : RulePosition) : HttpFrontend :=
  mkHttpFrontend (Some cluster) hostname (Some KPrefix) path None position None None None None None None
    None None [] None [].

Definition example_table_ops : list table_op :=
  [OpAddFront (example_front (bstr "api") (bstr "www.example.com") (bstr "/api") PositionTree) Explicit;
   OpAddFront (example_front (bstr "web") (bstr "*.example.com") (bstr "/") PositionTree) Explicit;
   OpAddFront (example_front (bstr "cdn") (bstr "/cdn./.example.com") (bstr "/") PositionTree) Explicit;
   OpAddFront (example_front (bstr "all") (bstr "*") (bstr "/") PositionPost) Explicit;
   OpAddFront (example_front (bstr "org") (bstr "*.example.org") (bstr "/") PositionPre) Explicit;
   OpAddFront (example_front (bstr "web") (bstr "*.example.com") (bstr "/") PositionTree) Explicit;
   OpRemoveFront (example_front (bstr "org") (bstr "*.example.org") (bstr "/none") PositionPre);
   OpRefreshHsts (Some (mkHstsConfig (Some true) (Some 60) None None None))].

(** The table a configuration gives, and its refusals. *)
Definition table_of (ops : list table_op) : Router :=
  match table_run Router_new ops with Val (t, _) => t | _ => Router_new end.
Definition errors_of (ops : list table_op) : list (option RouterError) :=
  match table_run Router_new ops with Val (_, es) => es | _ => [] end.

Lemma table_of_reached ops :
  table_run Router_new ops = Val (table_of ops, errors_of ops) /\ table_wf (fun _ => True) (table_of ops).
Proof.
  destruct (table_run_safe (fun _ => True) Router_new ops (Router_new_wf _)) as (t & es & E & Ht & _).
  { apply Forall_forall. intros op _. by destruct op. }
  unfold table_of, errors_of. by rewrite E.
Qed.

Definition example_table : Router := table_of example_table_ops.

Lemma table_ops_safe_witness :
  exists t errors, table_run Router_new example_table_ops = Val (t, errors) /\
    table_wf (fun _ => True) t /\ length errors = 8%nat.
Proof. exact (table_ops_safe example_table_ops). Defined.

Example example_refusals :
  errors_of example_table_ops = [None; None; None; None; None; Some AddRoute; Some RemoveRoute; None].
Proof. vm_compute. reflexivity. Qed.

Lemma configured_lookup_witness :
  match route_decision example_table (bstr "cdn3.example.com") (bstr "/") Get NoHeaders with
  | Some d => exists r,
      lookup_with_headers example_table (bstr "CDN3.example.com") (bstr "/") Get NoHeaders = Val r /\
      decision_result (bstr "cdn3.example.com") (bstr "/") d r
  | None => False
  end.
Proof.
  pose proof (configured_lookup example_table_ops example_table (errors_of example_table_ops) (bstr "CDN3.example.com") (bstr "/") Get
    NoHeaders eq_refl (proj1 (table_of_reached example_table_ops))) as Hl.
  change (normalize_hostname (bstr "CDN3.example.com")) with (bstr "cdn3.example.com") in Hl.
  destruct (route_decision _ _ _ _ _) as [d |] eqn:E; [exact Hl |].
  vm_compute in E. discriminate E.
Defined.

(** The clusters that serve some requests of the example table. *)
Definition served_by (t : Router) (hostname path : list Z) : option (option ClusterId) :=
  match lookup_with_headers t hostname path Get NoHeaders with Val r => Some (rr_cluster_id r) | _ => None end.

Example example_routes :
  served_by example_table (bstr "www.example.com") (bstr "/api/v1") = Some (Some (bstr "api")) /\
  served_by example_table (bstr "www.example.com") (bstr "/") = Some (Some (bstr "web")) /\
  served_by example_table (bstr "cdn3.example.com") (bstr "/") = Some (Some (bstr "cdn")) /\
  served_by example_table (bstr "a.example.org") (bstr "/") = Some (Some (bstr "org")) /\
  served_by example_table (bstr "a.b.example.com") (bstr "/") = Some (Some (bstr "all")).
Proof. repeat split; vm_compute; reflexivity. Qed.

Lemma add_tree_rule_local_witness :
  exists t', add_tree_rule_with_headers example_table (bstr "WWW.Example.com") (PathEquals (bstr "/x")) None []
    (ToCluster (bstr "x")) = Val (t', true) /\
  host_rules t' (bstr "*.example.com") = host_rules example_table (bstr "*.example.com").
Proof.
  destruct (add_tree_rule_local (fun _ => True) example_table (bstr "WWW.Example.com") (bstr "www.example.com")
    (PathEquals (bstr "/x")) None [] (ToCluster (bstr "x")) (proj2 (table_of_reached example_table_ops))
    ltac:(vm_compute; reflexivity) ltac:(vm_compute; reflexivity) ltac:(vm_compute; reflexivity))
    as (t' & E & Hk & _).
  exists t'. split; [exact E |].
  rewrite (Hk (bstr "*.example.com") ltac:(vm_compute; reflexivity)). reflexivity.
Defined.

Lemma remove_tree_rule_local_witness :
  exists t', remove_tree_rule_with_headers example_table (bstr "www.example.com") (PathPrefix (bstr "/none")) None []
    = Val (t', true) /\
  host_rules t' (bstr "www.example.com") = host_rules example_table (bstr "www.example.com").
Proof.
  destruct (remove_tree_rule_local (fun _ => True) example_table (bstr "www.example.com") (bstr "www.example.com")
    (PathPrefix (bstr "/none")) None [] Deny (proj2 (table_of_reached example_table_ops))
    ltac:(vm_compute; reflexivity) ltac:(vm_compute; reflexivity) ltac:(vm_compute; reflexivity)) as (t' & E & Hk & _).
  exists t'. split; [exact E |]. 
  rewrite (Hk (bstr "www.example.com") ltac:(vm_compute; reflexivity)). vm_compute. reflexivity.
Defined.

Definition example_hsts (age : Z) : option HstsConfig := Some (mkHstsConfig (Some true) (Some age) None None None).

Lemma hsts_patch_spec_witness :
  exists edit, build_listener_hsts_edit (example_hsts 60) = Some edit /\
  pre (refresh_inheriting_hsts (refresh_inheriting_hsts example_table (example_hsts 5)).1 (example_hsts 60)).1 =
  pre (refresh_inheriting_hsts example_table (example_hsts 60)).1.
Proof.
  eexists. split; [vm_compute; reflexivity |].
  refine (proj1 (hsts_patch_spec example_table (example_hsts 5) (example_hsts 60) _ _)). vm_compute. reflexivity.
Defined.

(** C35. A frontend whose hostname has a dot before its leading regex segment is
    refused by an empty table and accepted, onto the rules of the hostname
    without the dot, by a table that has that hostname. *)
Example leading_dot_front :
  let front := example_front (bstr "other") (bstr "./cdn./.example.com") (bstr "/other") PositionTree in
  add_http_front Router_new front = Fails AddRoute /\
  match add_http_front example_table front with
  | Val t => served_by t (bstr "cdn3.example.com") (bstr "/other") = Some (Some (bstr "other"))
  | _ => False
  end.
Proof. split; vm_compute; reflexivity. Qed.

(** The label [*] is kept by [idna], a label that mixes a star with other than
    ASCII characters is not: Punycode gives it the prefix [xn--], and the rule
    of such a hostname (here [*é.org]) fails the assertion of its lookup. *)
Lemma punycode_wildcard `{HR : RegexCrate} `{HC : HostCrates} hostname :
  domain_to_ascii (42 :: 195 :: 169 :: bstr ".org") = Some (bstr "xn--*-bga.org") ->
  exists d, DomainRule_from_str (42 :: 195 :: 169 :: bstr ".org") = Val (Some d) /\
            domain_matches d hostname = Panic.
Proof.
  intros Ha. exists (DomainWildcard (bstr "xn--*-bga.org")). split; [| done].
  unfold DomainRule_from_str. rewrite decide_False by done. rewrite Ha. vm_compute. reflexivity.
Qed.
