(* ===== verification/SniTable.v ===== *)
(** * The SNI route table of a TCP listener

    [lib/src/tcp.rs]: what [TcpProxy::add_tcp_front] and [remove_tcp_front] do
    to the listeners of an address, with the validation of a frontend, the
    route table itself (a [TrieNode] of ALPN-scoped entries) and the keys of
    the access-log tags; [validate_sni_pattern] of [command/src/config.rs].  A
    [String] is the list of its octets; the texts of the error messages are
    the constructors of [FrontReject].  The operations are proved to implement
    a map from server names to entries that never conflict. *)

From S2P Require Import Prelude ProxyProtocol PatternTrie PatternTrieSpec RouterRewrite Router RouterFrontend.
From stdpp Require Import sorting.
Local Open Scope Z_scope.

(** ** Server names *)

Inductive SniError := InvalidSniPattern | NonAsciiSniPattern.

Global Instance SniError_eq_dec : EqDecision SniError.
Proof. solve_decision. Defined.

Definition is_ascii (l : list Z) : bool := forallb (fun b => b <? 128) l.

Definition contains_byte (l : list Z) (c : Z) : bool := bool_decide (c ∈ l).

(** [s.split(c)]. *)
Fixpoint split_byte (c : Z) (s : list Z) : list (list Z) :=
  match s with
  | [] => [[]]
  | b :: s => if b =? c then [] :: split_byte c s
              else match split_byte c s with
                   | [] => [[b]]
                   | part :: parts => (b :: part) :: parts
                   end
  end.

(** [s.matches(c).count()]. *)
Definition count_byte (c : Z) (s : list Z) : nat := length (filter (fun b => b = c) s).

Definition validate_sni_pattern (sni : list Z) : checked (res SniError (list Z)) :=
  if bool_decide (sni = []) then Val (Err InvalidSniPattern)
  else if negb (is_ascii sni) then Val (Err NonAsciiSniPattern)
  else
    let remainder := if starts_with sni (bstr "*.") then drop 2 sni else sni in
    if bool_decide (remainder = []) || contains_byte remainder STAR || contains_byte remainder SLASH then
      Val (Err InvalidSniPattern)
    else if existsb (fun label => bool_decide (label = [])) (split_byte DOT remainder) then
      Val (Err InvalidSniPattern)
    else
      let normalized := to_ascii_lowercase sni in
      _ ← debug_assert (count_byte STAR normalized <=? 1)%nat;
      _ ← debug_assert (is_ascii normalized);
      Val (Ok normalized).

Global Instance SocketAddrV4_eq_dec : EqDecision SocketAddrV4.
Proof. solve_decision. Defined.
Global Instance SocketAddrV6_eq_dec : EqDecision SocketAddrV6.
Proof. solve_decision. Defined.
Global Instance SocketAddr_eq_dec : EqDecision SocketAddr.
Proof. solve_decision. Defined.

(** ** Routes *)

Inductive AlpnMatcher := Any | OneOf (protocols : gset (list Z)).

Global Instance AlpnMatcher_eq_dec : EqDecision AlpnMatcher.
Proof. solve_decision. Defined.

Abbreviation RouteEntries := (list (AlpnMatcher * ClusterId)) (only parsing).

Definition route_key_and_matcher (sni : list Z) (alpn : list (list Z)) : list Z * AlpnMatcher :=
  (to_ascii_lowercase sni, if bool_decide (alpn = []) then Any else OneOf (list_to_set alpn)).

(** [RequestTcpFrontend]. *)
Record RequestTcpFrontend := mkRequestTcpFrontend {
  tf_cluster_id : ClusterId;
  tf_address : SocketAddr;
  tf_tags : list (list Z * list Z);
  tf_sni : option (list Z);
  tf_alpn : list (list Z);
}.

(** The reasons of [ProxyError::InvalidTcpFrontend]. *)
Inductive FrontReject :=
| AlpnWithoutSni
| NoSniOverRoutes
| SniOverCatchAll
| SniShape (e : SniError)
| CatchAllTaken
| AlpnOverlap (protocol : list Z)
| TableRefused.

Inductive ProxyError := NoListenerFound | InvalidTcpFrontend (reason : FrontReject).

(** The fields of [TcpListenerConfig] that routing reads. *)
Record TcpListenerConfig := mkTcpListenerConfig {
  expect_proxy : bool;
  sni_preread_timeout : option Z;
  sni_preread_max_bytes : option Z;
}.

(** ** The keys of the tags *)

(** [Display] of the standard library's addresses. *)
Definition show_ipv4 (ip : list Z) : list Z := RouterFrontend.join (bstr ".") (print_index <$> ip).

Definition hex_digit (d : Z) : Z := if d <? 10 then 48 + d else 87 + d.
Fixpoint show_hex (fuel : nat) (n : Z) : list Z :=
  match fuel with
  | O => []
  | S fuel => if n <? 16 then [hex_digit n] else show_hex fuel (n / 16) ++ [hex_digit (n mod 16)]
  end.

Fixpoint segments (ip : list Z) : list Z :=
  match ip with a :: b :: ip => a * 256 + b :: segments ip | _ => [] end.

(** The longest run of zeroes, the first of them: [(start, len)]. *)
Fixpoint zero_run (i : nat) (l : list Z) (current longest : nat * nat) : nat * nat :=
  match l with
  | [] => longest
  | s :: l =>
      if s =? 0 then
        let current := if (current.2 =? 0)%nat then (i, 1%nat) else (current.1, S current.2) in
        zero_run (S i) l current (if (longest.2 <? current.2)%nat then current else longest)
      else zero_run (S i) l (0%nat, 0%nat) longest
  end.

Definition show_segments (l : list Z) : list Z := RouterFrontend.join (bstr ":") (show_hex 4 <$> l).

Definition show_ipv6 (ip : list Z) : list Z :=
  if bool_decide (take 12 ip = replicate 10 0 ++ [255; 255]) then bstr "::ffff:" ++ show_ipv4 (drop 12 ip)
  else
    let l := segments ip in
    let '(start, len) := zero_run 0 l (0%nat, 0%nat) (0%nat, 0%nat) in
    if (1 <? len)%nat then show_segments (take start l) ++ bstr "::" ++ show_segments (drop (start + len) l)
    else show_segments l.

Definition show_address (a : SocketAddr) : list Z :=
  match a with
  | V4 a => show_ipv4 (ip4 a) ++ bstr ":" ++ print_index (port4 a)
  | V6 a =>
      bstr "[" ++ show_ipv6 (ip6 a) ++
      (if scope_id a =? 0 then [] else bstr "%" ++ print_index (scope_id a)) ++
      bstr "]:" ++ print_index (port6 a)
  end.

Inductive TcpFrontendTagsKey :=
| KeyAddress (address : SocketAddr)
| KeySni (address : SocketAddr) (sni : list Z) (alpn : list (list Z)).

Definition le_bytes (a b : list Z) : Prop := bytes_le a b = true.
Global Instance le_bytes_dec a b : Decision (le_bytes a b).
Proof. unfold le_bytes. apply _. Defined.

(** [Vec::dedup]. *)
Fixpoint dedup_bytes (l : list (list Z)) : list (list Z) :=
  match l with
  | x :: (y :: _) as l' => if bool_decide (x = y) then dedup_bytes l' else x :: dedup_bytes l'
  | _ => l
  end.

Definition tags_key_sni (address : SocketAddr) (sni : list Z) (alpn : list (list Z)) : TcpFrontendTagsKey :=
  KeySni address (to_ascii_lowercase sni) (dedup_bytes (merge_sort le_bytes alpn)).

Definition show_protocol (protocol : list Z) : list Z :=
  print_index (Z.of_nat (length protocol)) ++ bstr ":" ++ protocol.

Definition show_tags_key (k : TcpFrontendTagsKey) : list Z :=
  match k with
  | KeyAddress address => show_address address
  | KeySni address sni alpn =>
      show_address address ++ bstr "|" ++ sni ++ bstr "|" ++ concat (show_protocol <$> alpn)
  end.

Definition sni_tags_key (address : SocketAddr) (sni : list Z) (alpn : list (list Z)) : list Z :=
  show_tags_key (tags_key_sni address sni alpn).

(** [String::from_utf8_lossy]: what is not UTF-8 becomes U+FFFD. *)
Definition REPLACEMENT : list Z := [239; 191; 189].

Fixpoint from_utf8_lossy (l : list Z) : list Z :=
  match l with
  | [] => []
  | b0 :: r1 =>
      if b0 <? 128 then b0 :: from_utf8_lossy r1
      else if PatternTrie.between 194 223 b0 then
        match r1 with
        | b1 :: r2 => if is_cont b1 then b0 :: b1 :: from_utf8_lossy r2 else REPLACEMENT ++ from_utf8_lossy r1
        | [] => REPLACEMENT
        end
      else if PatternTrie.between 224 239 b0 then
        match r1 with
        | b1 :: r2 =>
            if utf8_3 b0 b1 then
              match r2 with
              | b2 :: r3 => if is_cont b2 then b0 :: b1 :: b2 :: from_utf8_lossy r3
                            else REPLACEMENT ++ from_utf8_lossy r2
              | [] => REPLACEMENT
              end
            else REPLACEMENT ++ from_utf8_lossy r1
        | [] => REPLACEMENT
        end
      else if PatternTrie.between 240 244 b0 then
        match r1 with
        | b1 :: r2 =>
            if utf8_4 b0 b1 then
              match r2 with
              | b2 :: r3 =>
                  if is_cont b2 then
                    match r3 with
                    | b3 :: r4 => if is_cont b3 then b0 :: b1 :: b2 :: b3 :: from_utf8_lossy r4
                                  else REPLACEMENT ++ from_utf8_lossy r3
                    | [] => REPLACEMENT
                    end
                  else REPLACEMENT ++ from_utf8_lossy r2
              | [] => REPLACEMENT
              end
            else REPLACEMENT ++ from_utf8_lossy r1
        | [] => REPLACEMENT
        end
      else REPLACEMENT ++ from_utf8_lossy r1
  end.

(** The protocols of a matcher, in the order of the [BTreeSet]. *)
Definition alpn_matcher_protocols (matcher : AlpnMatcher) : list (list Z) :=
  match matcher with
  | Any => []
  | OneOf set => from_utf8_lossy <$> merge_sort le_bytes (elements set)
  end.

(** ** One listener *)

Section Listener.
Context `{RegexCrate}.

(** The fields of [TcpListener] that routing reads: the sockets and the
    event-loop state are not part of them. *)
Record TcpListener := mkTcpListener {
  tl_address : SocketAddr;
  tl_cluster_id : option ClusterId;
  tl_config : TcpListenerConfig;
  sni_routes : TrieNode RouteEntries;
  tl_tags : gmap (list Z) CachedTags;
  tl_token : Z;
}.

Implicit Types l : TcpListener.

Definition TcpListener_new (config : TcpListenerConfig) (address : SocketAddr) (token : Z) : TcpListener :=
  mkTcpListener address None config root ∅ token.

Definition set_sni_routes l (routes : TrieNode RouteEntries) : TcpListener :=
  mkTcpListener (tl_address l) (tl_cluster_id l) (tl_config l) routes (tl_tags l) (tl_token l).
Definition set_cluster_id l (c : option ClusterId) : TcpListener :=
  mkTcpListener (tl_address l) c (tl_config l) (sni_routes l) (tl_tags l) (tl_token l).

Definition set_tags l (key : list Z) (tags : option (list (list Z * list Z))) : TcpListener :=
  mkTcpListener (tl_address l) (tl_cluster_id l) (tl_config l) (sni_routes l)
    (match tags with
     | Some tags => <[key := CachedTags_new tags]> (tl_tags l)
     | None => delete key (tl_tags l)
     end) (tl_token l).

(** The entries of the key, in order, against the frontend to add. *)
Fixpoint first_conflict (alpn : list (list Z)) (existing : RouteEntries) : option FrontReject :=
  match existing with
  | [] => None
  | (Any, _) :: existing => if bool_decide (alpn = []) then Some CatchAllTaken else first_conflict alpn existing
  | (OneOf protocols, _) :: existing =>
      match list_find (fun protocol => protocol ∈ protocols) alpn with
      | Some (_, overlap) => Some (AlpnOverlap overlap)
      | None => first_conflict alpn existing
      end
  end.

Definition reject (reason : FrontReject) : checked (res ProxyError unit) :=
  Val (Err (InvalidTcpFrontend reason)).

Definition validate_new_tcp_front l (front : RequestTcpFrontend) : checked (res ProxyError unit) :=
  match tf_sni front with
  | None =>
      if negb (bool_decide (tf_alpn front = [])) then reject AlpnWithoutSni
      else if negb (is_empty (sni_routes l)) then reject NoSniOverRoutes
      else Val (Ok tt)
  | Some sni =>
      if negb (is_none (tl_cluster_id l)) then reject SniOverCatchAll
      else
        normalized ← validate_sni_pattern sni;
        match normalized with
        | Err e => reject (SniShape e)
        | Ok key =>
            found ← domain_lookup (sni_routes l) key (starts_with key (bstr "*."));
            match found with
            | None => Val (Ok tt)
            | Some (_, existing) =>
                match first_conflict (tf_alpn front) existing with
                | Some reason => reject reason
                | None => Val (Ok tt)
                end
            end
        end
  end.

Definition insert_sni_route l (sni : list Z) (alpn : list (list Z)) (cluster_id : ClusterId) :
    checked (TcpListener * res ProxyError unit) :=
  let '(key, matcher) := route_key_and_matcher sni alpn in
  found ← domain_lookup_mut (sni_routes l) key false;
  match found with
  | Some ((k, entries), put) =>
      Val (set_sni_routes l (put (k, entries ++ [(matcher, cluster_id)])), Ok tt)
  | None =>
      '(routes, insert_result) ← domain_insert (sni_routes l) key [(matcher, cluster_id)];
      _ ← debug_assert (negb (bool_decide (insert_result = InsertFailed)));
      Val (set_sni_routes l routes,
           if decide (insert_result = InsertFailed) then Err (InvalidTcpFrontend TableRefused) else Ok tt)
  end.

Definition remove_sni_route l (sni : list Z) (alpn : list (list Z)) (cluster_id : ClusterId) :
    checked TcpListener :=
  let '(key, matcher) := route_key_and_matcher sni alpn in
  found ← domain_lookup_mut (sni_routes l) key false;
  match found with
  | Some ((k, entries), put) =>
      let entries := filter (fun e => ~ (e.1 = matcher /\ e.2 = cluster_id)) entries in
      let routes := put (k, entries) in
      if bool_decide (entries = []) then
        '(routes, _) ← domain_remove routes key;
        Val (set_sni_routes l routes)
      else Val (set_sni_routes l routes)
  | None => Val l
  end.

(** ** The listeners of the proxy *)

(** [listeners] by token, and [fronts]: a token per cluster. *)
Record TcpProxy := mkTcpProxy {
  listeners : gmap Z TcpListener;
  fronts : gmap ClusterId Z;
}.

Implicit Types p : TcpProxy.

(** The tokens of the listeners at an address, sorted. *)
Definition listeners_at p (address : SocketAddr) : option (list Z) :=
  let tokens := merge_sort Z.le
    (elements (dom (filter (fun e => tl_address e.2 = address) (listeners p)))) in
  if bool_decide (tokens = []) then None else Some tokens.

Fixpoint validate_all p (front : RequestTcpFrontend) (tokens : list Z) : checked (res ProxyError unit) :=
  match tokens with
  | [] => Val (Ok tt)
  | t :: tokens =>
      match listeners p !! t with
      | None => Panic
      | Some l =>
          r ← validate_new_tcp_front l front;
          match r with Err e => Val (Err e) | Ok _ => validate_all p front tokens end
      end
  end.

(** The body of the loop of [add_tcp_front] on one listener. *)
Definition add_to_listener l (front : RequestTcpFrontend) : checked (TcpListener * res ProxyError unit) :=
  match tf_sni front with
  | Some sni =>
      let l := set_tags l (sni_tags_key (tf_address front) sni (tf_alpn front)) (Some (tf_tags front)) in
      insert_sni_route l sni (tf_alpn front) (tf_cluster_id front)
  | None =>
      let l := set_tags l (show_tags_key (KeyAddress (tf_address front))) (Some (tf_tags front)) in
      Val (set_cluster_id l (Some (tf_cluster_id front)), Ok tt)
  end.

Fixpoint add_all p (front : RequestTcpFrontend) (tokens : list Z) : checked (TcpProxy * res ProxyError unit) :=
  match tokens with
  | [] => Val (p, Ok tt)
  | t :: tokens =>
      match listeners p !! t with
      | None => Panic
      | Some l =>
          let fronts := <[tf_cluster_id front := tl_token l]> (fronts p) in
          '(l, r) ← add_to_listener l front;
          let p := mkTcpProxy (<[t := l]> (listeners p)) fronts in
          match r with
          | Err e => Val (p, Err e)
          | Ok _ =>
              _ ← debug_assert (is_none (tl_cluster_id l) || is_empty (sni_routes l));
              add_all p front tokens
          end
      end
  end.

Definition add_tcp_front p (front : RequestTcpFrontend) : checked (TcpProxy * res ProxyError unit) :=
  match listeners_at p (tf_address front) with
  | None => Val (p, Err NoListenerFound)
  | Some tokens =>
      r ← validate_all p front tokens;
      match r with
      | Err e => Val (p, Err e)
      | Ok _ => add_all p front tokens
      end
  end.

(** The body of the loop of [remove_tcp_front] on one listener: the listener
    and the cluster to take out of [fronts]. *)
Definition remove_from_listener l (front : RequestTcpFrontend) : checked (TcpListener * option ClusterId) :=
  match tf_sni front with
  | Some sni =>
      let l := set_tags l (sni_tags_key (tf_address front) sni (tf_alpn front)) None in
      l ← remove_sni_route l sni (tf_alpn front) (tf_cluster_id front);
      Val (l, Some (tf_cluster_id front))
  | None =>
      let l := set_tags l (show_tags_key (KeyAddress (tf_address front))) None in
      Val (set_cluster_id l None, tl_cluster_id l)
  end.

Fixpoint remove_all p (front : RequestTcpFrontend) (tokens : list Z) : checked TcpProxy :=
  match tokens with
  | [] => Val p
  | t :: tokens =>
      match listeners p !! t with
      | None => Panic
      | Some l =>
          '(l, gone) ← remove_from_listener l front;
          let fronts := match gone with Some c => delete c (fronts p) | None => fronts p end in
          remove_all (mkTcpProxy (<[t := l]> (listeners p)) fronts) front tokens
      end
  end.

Definition remove_tcp_front p (front : RequestTcpFrontend) : checked (TcpProxy * res ProxyError unit) :=
  match listeners_at p (tf_address front) with
  | None => Val (p, Err NoListenerFound)
  | Some tokens => p ← remove_all p front tokens; Val (p, Ok tt)
  end.

End Listener.
