(* ===== verification/SniTableSpec.v ===== *)
(** * What the SNI route table promises

    Theorems on [SniTable]: the validator accepts exactly the server names it
    documents; the frontends of a listener, added and removed in any order,
    form a map from server names to entries without a conflict; a request is
    answered from it with the exact name first, then the wildcard of its
    parent domain; and the tags of a frontend are found again when a
    connection is routed to it. *)

From S2P Require Import Prelude ProxyProtocol PatternTrie PatternTrieSpec RouterRewrite Router RouterFrontend SniTable.
From stdpp Require Import sorting.
Local Open Scope Z_scope.

(** ** Valid server names *)

(** Lower-case ASCII labels, none empty, without a wildcard or a slash. *)
Definition plain_host (h : list Z) : Prop :=
  h <> [] /\ (STAR ∉ h) /\ (SLASH ∉ h) /\ ([] ∉ split_byte DOT h) /\
  is_ascii h = true /\ to_ascii_lowercase h = h.

Definition sni_key (k : list Z) : Prop :=
  plain_host k \/ exists h, k = bstr "*." ++ h /\ plain_host h.

Definition lower_byte (b : Z) : Z := if is_ascii_uppercase b then b + 32 else b.

Lemma lower_fmap l : to_ascii_lowercase l = lower_byte <$> l.
Proof. done. Qed.

Lemma lower_byte_cases b : lower_byte b = b \/ (65 <= b <= 90 /\ lower_byte b = b + 32).
Proof.
  unfold lower_byte, is_ascii_uppercase, PatternTrie.between.
  destruct (Z.leb_spec 65 b), (Z.leb_spec b 90); cbn; auto; right; lia.
Qed.

Lemma lower_byte_eq b c : ~ (65 <= c <= 90) -> ~ (97 <= c <= 122) -> lower_byte b = c <-> b = c.
Proof. intros Hc1 Hc2. destruct (lower_byte_cases b) as [-> | [? ->]]; [done |]. split; lia. Qed.

Lemma lower_idemp l : to_ascii_lowercase (to_ascii_lowercase l) = to_ascii_lowercase l.
Proof.
  rewrite (lower_fmap l), lower_fmap, <- list_fmap_compose. apply list_fmap_ext. intros _ b _. cbn.
  destruct (lower_byte_cases b) as [Hb | [Hb ->]]; [by rewrite Hb |].
  destruct (lower_byte_cases (b + 32)) as [-> | [? ->]]; lia.
Qed.

Lemma lower_mem l c : ~ (65 <= c <= 90) -> ~ (97 <= c <= 122) -> c ∈ to_ascii_lowercase l <-> c ∈ l.
Proof.
  intros Hc1 Hc2. rewrite lower_fmap, list_elem_of_fmap. split.
  - intros (b & Hb & Hin). symmetry in Hb. apply (lower_byte_eq b c Hc1 Hc2) in Hb. by subst.
  - intros Hin. exists c. split; [symmetry; by apply lower_byte_eq | done].
Qed.

Lemma lower_is_ascii l : is_ascii (to_ascii_lowercase l) = is_ascii l.
Proof.
  rewrite lower_fmap. unfold is_ascii. induction l as [| b l IH]; [done |]. cbn. rewrite IH. f_equal.
  destruct (lower_byte_cases b) as [-> | [? ->]]; [done |].
  rewrite (proj2 (Z.ltb_lt (b + 32) 128)), (proj2 (Z.ltb_lt b 128)); lia.
Qed.

Lemma lower_split l : split_byte DOT (to_ascii_lowercase l) = to_ascii_lowercase <$> split_byte DOT l.
Proof.
  rewrite lower_fmap. induction l as [| b l IH]; [done |]. cbn [fmap list_fmap split_byte].
  assert (Hb : (lower_byte b =? DOT) = (b =? DOT)).
  { apply eq_true_iff_eq. rewrite !Z.eqb_eq. apply lower_byte_eq; unfold DOT; lia. }
  rewrite Hb, IH. destruct (b =? DOT); [done |]. by destruct (split_byte DOT l).
Qed.

Lemma lower_no_empty l : [] ∈ split_byte DOT (to_ascii_lowercase l) <-> [] ∈ split_byte DOT l.
Proof.
  rewrite lower_split, list_elem_of_fmap. split.
  - intros (y & Hy & Hin). destruct y; [done |]. done.
  - intros Hin. by exists [].
Qed.

Lemma lower_plain l :
  l <> [] -> STAR ∉ l -> SLASH ∉ l -> [] ∉ split_byte DOT l -> is_ascii l = true ->
  plain_host (to_ascii_lowercase l).
Proof.
  intros Hne Hs Hl He Ha. unfold plain_host.
  rewrite lower_no_empty, lower_is_ascii, !lower_mem by (unfold STAR, SLASH; lia).
  split; [by destruct l |]. by rewrite lower_idemp.
Qed.

Lemma plain_lower l :
  plain_host (to_ascii_lowercase l) ->
  l <> [] /\ (STAR ∉ l) /\ (SLASH ∉ l) /\ ([] ∉ split_byte DOT l) /\ is_ascii l = true.
Proof.
  unfold plain_host. rewrite lower_no_empty, lower_is_ascii, !lower_mem by (unfold STAR, SLASH; lia).
  intros (Hne & ? & ? & ? & ? & _). split; [by intros -> | done].
Qed.

Lemma starts_with_star s : starts_with s (bstr "*.") = true <-> exists h, s = bstr "*." ++ h.
Proof.
  unfold starts_with. rewrite bool_decide_eq_true. split.
  - intros Ht. exists (drop 2 s). rewrite <- (take_drop 2 s) at 1. by f_equal.
  - intros [h ->]. done.
Qed.

Lemma lower_star s : starts_with (to_ascii_lowercase s) (bstr "*.") = starts_with s (bstr "*.").
Proof.
  apply eq_true_iff_eq. rewrite !starts_with_star, lower_fmap. split.
  - intros [h Hh]. destruct s as [| a [| b s]]; [done | done |]. cbn in Hh. injection Hh as Ha Hb _.
    exists s. apply (lower_byte_eq a 42) in Ha; [| lia | lia]. apply (lower_byte_eq b 46) in Hb; [| lia | lia].
    by subst.
  - intros [h ->]. by exists (lower_byte <$> h).
Qed.

Lemma existsb_empty (l : list (list Z)) :
  existsb (fun label => bool_decide (label = [])) l = true <-> [] ∈ l.
Proof.
  rewrite existsb_exists. split.
  - intros (x & Hin & ->%bool_decide_eq_true). by apply list_elem_of_In.
  - intros Hin. exists []. split; [by apply list_elem_of_In | done].
Qed.

Lemma filter_absent (c : Z) l : c ∉ l -> count_byte c l = 0%nat.
Proof.
  intros Hc. unfold count_byte. induction l as [| b l IH]; [done |].
  rewrite filter_cons_False by (intros ->; apply Hc; left). apply IH. intros ?. apply Hc. by right.
Qed.

Lemma count_star_key k : sni_key k -> (count_byte STAR k <= 1)%nat.
Proof.
  intros [(_ & Hs & _) | (h & -> & _ & Hs & _)]; [by rewrite filter_absent by done; lia |].
  change (count_byte STAR (bstr "*." ++ h)) with (S (count_byte STAR h)). by rewrite filter_absent.
Qed.

(** What the validator rejects in the remainder of a pattern. *)
Lemma remainder_ok r :
  is_ascii r = true ->
  bool_decide (r = []) || contains_byte r STAR || contains_byte r SLASH = false /\
  existsb (fun label => bool_decide (label = [])) (split_byte DOT r) = false <->
  plain_host (to_ascii_lowercase r).
Proof.
  intros Ha. unfold contains_byte. rewrite !orb_false_iff, !bool_decide_eq_false, <- not_true_iff_false, existsb_empty.
  split.
  - intros [[[Hne Hs] Hl] He]. by apply lower_plain.
  - intros (? & ? & ? & ? & _)%plain_lower. done.
Qed.

Lemma sni_key_star s h : s = bstr "*." ++ h -> sni_key s <-> plain_host h.
Proof.
  intros ->. split; [| by right; exists h].
  intros [(_ & Hs & _) | (h' & Heq & Hp)]; [by destruct Hs; left | by injection Heq as <-].
Qed.

Lemma sni_key_lower s :
  sni_key (to_ascii_lowercase s) <->
  plain_host (to_ascii_lowercase (if starts_with s (bstr "*.") then drop 2 s else s)).
Proof.
  destruct (starts_with s (bstr "*.")) eqn:E.
  - apply starts_with_star in E as [h ->]. rewrite (sni_key_star _ (to_ascii_lowercase h)) by done. done.
  - split; [| by left]. intros [? | (h & Heq & _)]; [done |]. rewrite <- lower_star in E.
    rewrite Heq in E. by rewrite (proj2 (starts_with_star _)) in E by (by exists h).
Qed.

Lemma validate_Val s :
  exists r, validate_sni_pattern s = Val r /\
    forall k, r = Ok k <-> k = to_ascii_lowercase s /\ sni_key k.
Proof.
  unfold validate_sni_pattern. case_bool_decide as Hne.
  { subst. eexists. split; [done |]. split; [done |]. intros [-> Hk]. by apply sni_key_lower in Hk as [? _]. }
  destruct (is_ascii s) eqn:Ha; cbn [negb].
  2: { eexists. split; [done |]. split; [done |]. intros [-> Hk]. exfalso.
       apply sni_key_lower, plain_lower in Hk as (_ & _ & _ & _ & Hr). revert Hr Ha.
       destruct (starts_with s (bstr "*.")) eqn:E; [| by intros ->].
       apply starts_with_star in E as [h ->]. change (drop 2 (bstr "*." ++ h)) with h.
       change (is_ascii (bstr "*." ++ h)) with (is_ascii h). congruence. }
  pose proof (sni_key_lower s) as Hkey.
  set (r := if starts_with s (bstr "*.") then drop 2 s else s) in *.
  assert (Hr : is_ascii r = true).
  { subst r. destruct (starts_with s (bstr "*.")) eqn:E; [| done].
    by apply starts_with_star in E as [h ->]. }
  pose proof (remainder_ok r Hr) as Hrem.
  destruct (bool_decide (r = []) || contains_byte r STAR || contains_byte r SLASH) eqn:E1;
    [| destruct (existsb _ (split_byte DOT r)) eqn:E2].
  1,2: eexists; split; [done |]; split; [done |]; intros [-> Hk]; exfalso;
    apply Hkey, Hrem in Hk; destruct Hk; congruence.
  assert (Hk : sni_key (to_ascii_lowercase s)) by (by apply Hkey, Hrem).
  rewrite (debug_assert_true (count_byte STAR (to_ascii_lowercase s) <=? 1)%nat)
    by (by apply Nat.leb_le, count_star_key).
  rewrite (debug_assert_true (is_ascii (to_ascii_lowercase s))) by (by rewrite lower_is_ascii).
  eexists. split; [done |]. intros k. split; [by intros [= <-] | by intros [-> _]].
Qed.

(** The validator of server names accepts exactly the documented shapes:
    it never fails an assertion, and a name is accepted when its lower-case
    form is a host of non-empty ASCII labels without a star or a slash, or
    such a host behind one leading wildcard label; what it returns is that
    lower-case form. *)
Theorem sni_pattern_exact s k :
  validate_sni_pattern s <> Panic /\
  (validate_sni_pattern s = Val (Ok k) <-> k = to_ascii_lowercase s /\ sni_key k).
Proof.
  destruct (validate_Val s) as (r & -> & Hr). split; [done |]. rewrite <- Hr. split; congruence.
Qed.

(** ** Names without a regex segment

    The labels of a name from the right, each with the dot before it, and the
    leftmost of them. *)

Fixpoint labels (fuel : nat) (k : Key) : list Key * Key :=
  match fuel with
  | O => ([], k)
  | S fuel =>
      let '(p, s) := split_dot k in
      if decide (p = []) then ([], s)
      else let '(l, x) := labels fuel p in (s :: l, x)
  end.

(** From the first dot on. *)
Fixpoint from_dot (k : Key) : Key :=
  match k with [] => [] | b :: k => if b =? DOT then b :: k else from_dot k end.

(** The wildcard that covers a name: its first label replaced by a star. *)
Definition wildcard_key (k : Key) : Key := STAR :: from_dot (tail k).

Lemma from_dot_none k : DOT ∉ k -> from_dot k = [].
Proof.
  induction k as [| b k IH]; [done |]. intros Hn. cbn. destruct (Z.eqb_spec b DOT) as [-> | Hb].
  - destruct Hn. left.
  - apply IH. intros ?. apply Hn. by right.
Qed.

Lemma from_dot_app k s : head s = Some DOT -> from_dot (k ++ s) = from_dot k ++ s.
Proof.
  intros Hs. destruct s as [| d s]; [done |]. injection Hs as ->.
  induction k as [| b k IH]; cbn [app from_dot]; [done |]. by destruct (b =? DOT).
Qed.

Lemma split_dot_prefix k p s : split_dot k = (p, s) -> p <> [] -> head s = Some DOT.
Proof.
  intros E Hp. pose proof (split_dot_head k p s E) as Hh. unfold split_dot in E.
  destruct (find_last_dot k); [by apply bool_decide_eq_true in Hh |]. injection E as <- <-. done.
Qed.

Lemma split_dot_single k s : split_dot k = ([], s) -> k = s /\ DOT ∉ tail s.
Proof.
  intros E. pose proof (split_dot_app _ _ _ E) as ->. cbn [app] in E. split; [done |].
  apply label_dotless in E. destruct s as [| b s]; [intros ?%not_elem_of_nil; done |]. cbn in *.
  destruct (b =? DOT); [done |]. intros Hin. apply E. by right.
Qed.

Lemma split_dot_fold p s :
  head s = Some DOT -> DOT ∉ tail s -> split_dot (p ++ s) = (p, s).
Proof.
  intros Hs Hn. destruct s as [| d s]; [done |]. injection Hs as ->. cbn [tail] in Hn.
  assert (Hf : find_last_dot (p ++ DOT :: s) = Some (length p)).
  { unfold find_last_dot. rewrite length_app. cbn [length].
    assert (Hall : forall n, (n <= length s)%nat ->
      rfind DOT (p ++ DOT :: s) (length p + S n) = Some (length p)).
    { induction n as [| n IH]; intros Hle.
      - rewrite Nat.add_1_r. cbn [rfind]. rewrite list_lookup_middle by done. by rewrite decide_True by done.
      - rewrite Nat.add_succ_r. cbn [rfind].
        rewrite lookup_app_r, Nat.add_comm, Nat.add_sub by lia. cbn [lookup list_lookup].
        rewrite decide_False; [rewrite <- (IH ltac:(lia)); f_equal; lia |].
        intros Hd%list_elem_of_lookup_2. by apply Hn. }
    by apply Hall. }
  unfold split_dot. by rewrite Hf, take_app_length, drop_app_length.
Qed.

Lemma split_dot_suffix k p s : split_dot k = (p, s) -> p <> [] -> head s = Some DOT /\ DOT ∉ tail s.
Proof.
  intros E Hp. pose proof (split_dot_prefix _ _ _ E Hp) as Hh. split; [done |].
  apply label_dotless in E. destruct s as [| b s]; [done |]. by injection Hh as ->.
Qed.

Lemma labels_fold fuel k l x :
  k <> [] -> (length k < fuel)%nat -> labels fuel k = (l, x) ->
  k = host_of (SChild <$> (l ++ [x])) Own /\ wildcard_key k = host_of (SChild <$> l) Wild /\
  labels fuel (wildcard_key k) = (l, bstr "*").
Proof.
  revert k l. induction fuel as [| fuel IH]; intros k l Hk Hf; [lia |]. cbn [labels].
  destruct (split_dot k) as [p s] eqn:E. case_decide as Hp.
  - intros [= <- <-]. subst p. apply split_dot_single in E as [-> Hn]. split; [done |].
    unfold wildcard_key. by rewrite from_dot_none.
  - destruct (split_dot_shrinks k p s Hk E) as [Hsh _]. destruct (labels fuel p) as [l' x'] eqn:El.
    intros [= <- <-]. destruct (IH p l' Hp ltac:(lia) El) as (Hp' & Hw & Hl).
    destruct (split_dot_suffix _ _ _ E Hp) as [Hh Hn]. pose proof (split_dot_app _ _ _ E) as ->.
    assert (Hwk : wildcard_key (p ++ s) = wildcard_key p ++ s).
    { unfold wildcard_key. destruct p as [| b p]; [done |]. cbn [app tail]. by rewrite from_dot_app. }
    rewrite Hwk, split_dot_fold by done. rewrite decide_False, Hl by done.
    split; [cbn; by rewrite <- Hp' | split; [| done]]. cbn. by rewrite <- Hw.
Qed.

Section Names.
Context `{HR : RegexCrate} {V : Type}.
Implicit Types n : TrieNode V.

Lemma address_labels fuel k l x :
  k <> [] -> SLASH ∉ k -> (length k < fuel)%nat -> labels fuel k = (l, x) ->
  address fuel k = Some (if decide (x = bstr "*") then (SChild <$> l, Wild) else (SChild <$> (l ++ [x]), Own)).
Proof.
  revert k l. induction fuel as [| fuel IH]; intros k l Hk Hs Hf; [lia |]. cbn [labels address].
  rewrite decide_False by done. destruct (decide (k = bstr "*")) as [-> | Hstar]; [by intros [= <- <-] |].
  rewrite (decide_False (P := last k = Some SLASH)) by (intros Hl; by apply Hs, last_Some_elem_of).
  destruct (split_dot k) as [p s] eqn:E. destruct (split_dot_shrinks k p s Hk E) as [Hsh _].
  destruct (decide (p = [])) as [Hp | Hp].
  - intros [= <- <-]. subst p. apply split_dot_single in E as [-> _].
    rewrite address_nil by (destruct s; [done | cbn in Hf; lia]). cbn. by rewrite decide_False.
  - pose proof (split_dot_app _ _ _ E) as ->. destruct (labels fuel p) as [l' x'] eqn:El.
    intros [= <- <-]. rewrite (IH p l') by (done || lia || by intros ?; apply Hs, elem_of_app; left).
    by case_decide.
Qed.

(** A literal path spells the name it is the address of. *)
Definition literal_path (p : list Step) : Prop := Forall (fun s => exists x, s = SChild x) p.

Lemma host_of_literal fuel k p slot :
  address fuel k = Some (p, slot) -> literal_path p -> host_of p slot = k.
Proof.
  revert k p. induction fuel as [| fuel IH]; intros k p Ha Hp; [done |]. cbn [address] in Ha.
  case_decide; [by injection Ha as <- <- |]. case_decide; [by injection Ha as <- <- |]. case_decide.
  - exfalso. destruct (segment_of k) as [[pos s] |]; [| done]. destruct (regex_new_ok s); [| done].
    destruct (address fuel _) as [[p' ?] |]; [| done]. injection Ha as <- ->.
    by apply Forall_cons in Hp as [[? ?] _].
  - destruct (split_dot k) as [pre s] eqn:E. apply split_dot_app in E as ->.
    destruct (address fuel pre) as [[p' ?] |] eqn:Ha'; [| done]. injection Ha as <- ->.
    apply Forall_cons in Hp as [_ Hp]. cbn. by rewrite (IH pre p').
Qed.

(** ** Tries without a regex segment *)

Inductive plain : TrieNode V -> Prop :=
| plain_node kv w ch : map_Forall (fun _ c => plain c) ch -> plain (mkTrieNode kv w ch []).

Lemma plain_root : plain root.
Proof. constructor. apply map_Forall_empty. Qed.

Lemma plain_inv n : plain n -> regexps n = [] /\ forall s c, child n s = Some c -> plain c.
Proof.
  intros [kv w ch Hch]. split; [done |]. intros [k | a] c; cbn; [| done]. intros Hc. by apply (Hch k).
Qed.

Lemma plain_literal n p slot kv : plain n -> at_path n p slot = Some kv -> literal_path p.
Proof.
  revert n. induction p as [| s p IH]; intros n Hn; [constructor |]. cbn.
  destruct (child n s) as [c |] eqn:Hc; [| done]. cbn. intros Ha.
  pose proof (plain_inv n Hn) as [Hr Hch]. constructor; [| by apply (IH c), Ha; eapply Hch].
  destruct s as [k | a]; [by eexists |]. cbn in Hc. by rewrite Hr in Hc.
Qed.

Lemma plain_set_slot n slot kv : plain n -> plain (set_slot n slot kv).
Proof. intros [kv' w ch Hch]. by destruct slot; constructor. Qed.

Lemma plain_put n k c : plain n -> plain c -> plain (put n (SChild k) c).
Proof. intros [kv w ch Hch] Hc. constructor. by apply map_Forall_insert_2. Qed.

Lemma plain_default n s : plain n -> plain (default root (child n s)).
Proof. intros Hn. destruct (child n s) eqn:E; [by eapply plain_inv | apply plain_root]. Qed.

Lemma plain_insert_at n p slot kv : plain n -> literal_path p -> plain (insert_at n p slot kv).
Proof.
  revert n. induction p as [| s p IH]; intros n Hn Hp; [by apply plain_set_slot |].
  apply Forall_cons in Hp as [[k ->] Hp]. apply plain_put; [done |]. by apply IH; [apply plain_default |].
Qed.

Lemma plain_remove_at n p slot : plain n -> plain (remove_at n p slot).
Proof.
  revert n. induction p as [| s p IH]; intros n Hn; [by apply plain_set_slot |]. cbn [remove_at].
  destruct (child n s) as [c |] eqn:Hc; [| done].
  assert (Hc' : plain (remove_at c p slot)) by (apply IH; by eapply plain_inv).
  destruct s as [k | a]; [| cbn in Hc; by rewrite (proj1 (plain_inv n Hn)) in Hc].
  case_match; [| by apply plain_put]. destruct Hn as [kv w ch Hch]. constructor.
  by apply map_Forall_delete.
Qed.

(** What a name is answered with: its own entry, then the wildcard's. *)
Lemma candidates_plain fuel n k aw l x :
  plain n -> k <> [] -> (length k < fuel)%nat -> labels fuel k = (l, x) ->
  snd <$> head (candidates fuel n k aw) =
  match at_path n (SChild <$> (l ++ [x])) Own with
  | Some kv => Some kv
  | None => if aw then at_path n (SChild <$> l) Wild else None
  end.
Proof.
  revert n k l. induction fuel as [| fuel IH]; intros n k l Hn Hk Hf; [lia |]. cbn [labels candidates].
  rewrite decide_False by done. destruct (split_dot k) as [p s] eqn:E.
  destruct (split_dot_shrinks k p s Hk E) as [Hsh _]. pose proof (plain_inv n Hn) as [Hr Hch].
  rewrite Hr. cbn [mbind list_bind app]. case_decide as Hp.
  - intros [= <- <-]. subst p. rewrite bool_decide_true by done. cbn [app fmap list_fmap at_path child].
    destruct fuel as [| fuel]; [destruct k; [done | cbn in Hf; lia] |].
    assert (Hw : snd <$> head (if true && aw then match wildcard n with
        | Some kv => [([SubWildcard (label s)], kv)] | None => [] end else []) =
      if aw then wildcard n else None) by (destruct aw; [by destruct (wildcard n) | done]).
    destruct (children n !! s) as [c |] eqn:Hc; [| exact Hw]. cbn [candidates mbind option_bind slot_value].
    rewrite decide_True by done. by destruct (key_value c).
  - destruct (labels fuel p) as [l' x'] eqn:El. intros [= <- <-]. rewrite bool_decide_false by done.
    cbn [andb app fmap list_fmap at_path child]. rewrite app_nil_r.
    destruct (children n !! s) as [c |] eqn:Hc; cbn [mbind option_bind].
    + apply IH; [by apply (Hch (SChild s)) | done | lia | done].
    + by destruct aw.
Qed.
End Names.

(** ** The trie of server names as a map *)

Section Map.
Context `{HR : RegexCrate} `{HRL : !RegexLaws} {V : Type}.
Implicit Types (n : TrieNode V) (m : gmap Key V).

(** Every value sits at the address of the name it is stored under. *)
Definition keyed n : Prop :=
  forall p slot k v, at_path n p slot = Some (k, v) -> hostname_ok k = true /\ host_address k = Some (p, slot).

Record names_refine n m : Prop := {
  nr_refines : trie_refines n m;
  nr_plain : plain n;
  nr_keyed : keyed n;
  nr_names : map_Forall (fun k _ => sni_key k) m;
}.

Lemma sni_key_shape k : sni_key k -> k <> [] /\ (SLASH ∉ k) /\ head k <> Some DOT.
Proof.
  intros [(Hne & _ & Hs & He & _) | (h & -> & _ & _ & Hs & _)].
  - split; [done |]. split; [done |]. intros Hh. apply He. destruct k as [| b k]; [done |].
    injection Hh as ->. cbn. left.
  - split; [done |]. split; [| done]. by intros [? | [? | ?]%elem_of_cons]%elem_of_cons.
Qed.

Lemma insertable_plain fuel k :
  k <> [] -> SLASH ∉ k -> head k <> Some DOT -> (length k < fuel)%nat -> insertable fuel k = true.
Proof.
  revert k. induction fuel as [| fuel IH]; intros k Hk Hs Hh Hf; [lia |]. cbn [insertable].
  rewrite decide_False by done.
  rewrite decide_False by (intros Hl; by apply Hs, last_Some_elem_of).
  destruct (find_last_dot k) as [pos |] eqn:E; [| done]. apply find_last_dot_Some in E as [Hlt Hd].
  assert (Hpos : (0 < pos)%nat) by (destruct pos; [by destruct k | lia]).
  apply IH.
  - intros Ht. apply (f_equal length) in Ht. rewrite length_take in Ht. cbn in Ht. lia.
  - intros Hin. apply Hs. rewrite <- (take_drop pos k). apply elem_of_app. by left.
  - destruct k; [done |]. by destruct pos; [lia |].
  - rewrite length_take. lia.
Qed.

Lemma sni_key_ok k : sni_key k -> hostname_ok k = true.
Proof.
  intros (? & ? & ?)%sni_key_shape. apply insertable_plain; try done. unfold trie_fuel. lia.
Qed.

Lemma sni_key_address k l x :
  sni_key k -> labels (trie_fuel k) k = (l, x) ->
  host_address k = Some (if decide (x = bstr "*") then (SChild <$> l, Wild) else (SChild <$> (l ++ [x]), Own)).
Proof. intros (? & ? & _)%sni_key_shape Hl. apply address_labels; try done. unfold trie_fuel. lia. Qed.

Lemma literal_path_child l : literal_path (SChild <$> l).
Proof. apply Forall_fmap, Forall_true. intros x. by exists x. Qed.

Lemma sni_key_literal k : sni_key k -> exists p slot, host_address k = Some (p, slot) /\ literal_path p.
Proof.
  intros Hk. destruct (labels (trie_fuel k) k) as [l x] eqn:El. rewrite (sni_key_address k l x) by done.
  case_decide; eexists _, _; (split; [done | apply literal_path_child]).
Qed.

Lemma names_at n m p slot k v :
  names_refine n m -> at_path n p slot = Some (k, v) ->
  m !! k = Some v /\ host_address k = Some (p, slot) /\ host_of p slot = k.
Proof.
  intros [(_ & _ & He) Hp Hk _] Ha. destruct (Hk _ _ _ _ Ha) as [Hok Haddr].
  specialize (He k Hok). rewrite (at_path_entry _ _ _ _ Haddr), Ha in He. injection He as He.
  split; [by destruct (m !! k); [injection He as -> |] | split; [done |]].
  eapply host_of_literal; [exact Haddr | by eapply plain_literal].
Qed.

Lemma names_lookup n m k v p slot :
  names_refine n m -> m !! k = Some v -> host_address k = Some (p, slot) -> at_path n p slot = Some (k, v).
Proof.
  intros [(_ & _ & He) _ _ Hm] Hk Ha. specialize (He k (sni_key_ok k (Hm k v Hk))).
  rewrite (at_path_entry _ _ _ _ Ha), Hk in He. by injection He.
Qed.

(** The entry of any name, valid or not, is the one the map has for it. *)
Lemma names_entry n m k :
  names_refine n m ->
  match host_address k with Some (p, slot) => at_path n p slot | None => None end = pair k <$> m !! k.
Proof.
  intros Hn. destruct (m !! k) as [v |] eqn:Hk.
  - destruct (sni_key_literal k) as (p & slot & Ha & _); [by eapply nr_names |]. rewrite Ha. cbn.
    by eapply names_lookup.
  - destruct (host_address k) as [[p slot] |] eqn:Ha; [| done].
    destruct (at_path n p slot) as [[k' v] |] eqn:Hat; [| done]. exfalso.
    destruct (names_at n m p slot k' v Hn Hat) as (Hk' & _ & Hh).
    rewrite (host_of_literal _ _ _ _ Ha) in Hh; [congruence |]. eapply plain_literal; [by eapply nr_plain | done].
Qed.

(** What a request is answered with. *)
Definition serves m (k : Key) (aw : bool) : option (Key * V) :=
  match m !! k with
  | Some v => Some (k, v)
  | None => if aw then pair (wildcard_key k) <$> m !! wildcard_key k else None
  end.

Lemma wildcard_length k : k <> [] -> (length (wildcard_key k) <= length k)%nat.
Proof.
  destruct k as [| b k]; [done |]. intros _. unfold wildcard_key. cbn.
  enough (length (from_dot k) <= length k)%nat by lia.
  clear. induction k as [| b k IH]; [done |]. cbn. destruct (b =? DOT); cbn; lia.
Qed.

Lemma labels_fuel fuel fuel' k :
  k <> [] -> (length k < fuel)%nat -> (length k < fuel')%nat -> labels fuel k = labels fuel' k.
Proof.
  revert fuel' k. induction fuel as [| fuel IH]; intros [| fuel'] k Hk Hf Hf'; [lia.. |]. cbn [labels].
  destruct (split_dot k) as [p s] eqn:E. destruct (split_dot_shrinks k p s Hk E) as [Hsh _].
  case_decide; [done |]. by rewrite (IH fuel' p) by (done || lia).
Qed.

Lemma names_wild n m k l x :
  names_refine n m -> k <> [] -> labels (trie_fuel k) k = (l, x) ->
  at_path n (SChild <$> l) Wild = pair (wildcard_key k) <$> m !! wildcard_key k.
Proof.
  intros Hn Hk El.
  assert (Hf : (length k < trie_fuel k)%nat) by (unfold trie_fuel; lia).
  destruct (labels_fold _ _ _ _ Hk Hf El) as (_ & Hw & Hl).
  pose proof (wildcard_length k Hk) as Hlen.
  destruct (m !! wildcard_key k) as [v |] eqn:Hm.
  - eapply names_lookup; [done | done |].
    rewrite (sni_key_address _ l (bstr "*")); [done | by eapply nr_names |].
    rewrite <- Hl. apply labels_fuel; [done | unfold trie_fuel; lia..].
  - destruct (at_path n _ Wild) as [[k' v] |] eqn:Ha; [| done]. exfalso.
    destruct (names_at _ _ _ _ _ _ Hn Ha) as (Hk' & _ & Hh). rewrite <- Hw in Hh. congruence.
Qed.

Lemma names_own n m k l x :
  names_refine n m -> k <> [] -> labels (trie_fuel k) k = (l, x) ->
  at_path n (SChild <$> (l ++ [x])) Own = if decide (x = bstr "*") then None else pair k <$> m !! k.
Proof.
  intros Hn Hk El.
  assert (Hf : (length k < trie_fuel k)%nat) by (unfold trie_fuel; lia).
  destruct (labels_fold _ _ _ _ Hk Hf El) as (Hown & _).
  assert (Haddr : sni_key k -> _) by exact (fun Hs => sni_key_address k l x Hs El).
  destruct (at_path n _ Own) as [[k' v] |] eqn:Ha.
  - destruct (names_at _ _ _ _ _ _ Hn Ha) as (Hk' & Ha' & Hh). rewrite <- Hown in Hh. subst k'.
    rewrite Haddr in Ha' by (by eapply nr_names). case_decide; [done |]. by rewrite Hk'.
  - case_decide as Hx; [done |]. destruct (m !! k) as [v |] eqn:Hm; [| done]. exfalso.
    rewrite (names_lookup n m k v (SChild <$> (l ++ [x])) Own) in Ha; [done | done | done |].
    apply Haddr. by eapply nr_names.
Qed.

Lemma labels_star k l : k <> [] -> labels (trie_fuel k) k = (l, bstr "*") -> wildcard_key k = k.
Proof.
  intros Hk El. assert (Hf : (length k < trie_fuel k)%nat) by (unfold trie_fuel; lia).
  destruct (labels_fold _ _ _ _ Hk Hf El) as (Hown & -> & _). rewrite Hown at 1. clear.
  induction l as [| s l IH]; [done |]. cbn [fmap list_fmap app host_of] in *. by rewrite IH.
Qed.

Lemma names_served n m k aw :
  names_refine n m -> k <> [] -> (aw = true \/ starts_with k (bstr "*.") = false) ->
  domain_lookup n k aw = Val (serves m k aw).
Proof.
  intros Hn Hk Haw. unfold domain_lookup. rewrite lookup_head. f_equal. unfold request_candidates.
  destruct (labels (trie_fuel k) k) as [l x] eqn:El.
  rewrite (candidates_plain _ _ _ _ l x); [| by eapply nr_plain | done | unfold trie_fuel; lia | done].
  rewrite (names_own n m k), (names_wild n m k l x) by done. unfold serves. case_decide as Hx.
  - subst x. pose proof (labels_star k l Hk El) as Hw. rewrite Hw. destruct (m !! k) as [v |] eqn:Hm; [| done].
    destruct Haw as [-> | Hs]; [done |]. exfalso. apply not_true_iff_false in Hs. apply Hs, starts_with_star.
    destruct (nr_names _ _ Hn k v Hm) as [(_ & Hst & _) | (h & -> & _)]; [| by exists h].
    destruct Hst. rewrite <- Hw. left.
  - by destruct (m !! k).
Qed.

Lemma names_insert_at n m k v p slot :
  names_refine n m -> sni_key k -> host_address k = Some (p, slot) ->
  names_refine (insert_at n p slot (k, v)) (<[k := v]> m).
Proof.
  intros Hn Hk Ha. pose proof (sni_key_ok k Hk) as Hok.
  destruct (host_address_ok k Hok) as (p' & slot' & Ha' & Hp). rewrite Ha in Ha'. injection Ha' as <- <-.
  pose proof (names_entry n m k Hn) as Hent. rewrite Ha in Hent.
  destruct Hn as [(Hw & Hc & He) Hpl Hkd Hnm]. split.
  - split; [by apply wf_insert_at |]. split.
    + pose proof (count_insert_at n p slot (k, v) Hp) as Hcnt. rewrite Hent in Hcnt.
      rewrite map_size_insert. destruct (m !! k); cbn in Hcnt |- *; lia.
    + intros k' Hk'. rewrite (entry_insert_at n k p slot (k, v) k') by done. case_decide as Hd.
      * subst. by rewrite lookup_insert_eq.
      * by rewrite lookup_insert_ne, He by done.
  - apply plain_insert_at; [done |]. destruct (sni_key_literal k Hk) as (? & ? & Ha' & ?). congruence.
  - intros p' slot' k' v' Hat. destruct (decide ((p', slot') = (p, slot))) as [[= -> ->] | Hne].
    + rewrite at_insert_same in Hat by done. by injection Hat as <- <-.
    + rewrite at_insert_other in Hat by done. by eapply Hkd.
  - by apply map_Forall_insert_2.
Qed.

Lemma names_remove_at n m k p slot :
  names_refine n m -> sni_key k -> host_address k = Some (p, slot) ->
  names_refine (remove_at n p slot) (delete k m).
Proof.
  intros Hn Hk Ha. pose proof (sni_key_ok k Hk) as Hok.
  pose proof (names_entry n m k Hn) as Hent. rewrite Ha in Hent.
  destruct Hn as [(Hw & Hc & He) Hpl Hkd Hnm]. split.
  - split; [by apply wf_remove_at |]. split.
    + destruct (m !! k) as [v |] eqn:Hm; cbn in Hent.
      * pose proof (count_remove_at n p slot _ Hw Hent). rewrite map_size_delete_Some by (by rewrite Hm). lia.
      * by rewrite remove_at_absent, delete_id.
    + intros k' Hk'. rewrite (entry_remove_at n k p slot k') by done. case_decide as Hd.
      * subst. by rewrite lookup_delete_eq.
      * by rewrite lookup_delete_ne, He by done.
  - by apply plain_remove_at.
  - intros p' slot' k' v' Hat. destruct (decide ((p', slot') = (p, slot))) as [[= -> ->] | Hne].
    + by rewrite at_remove_same in Hat.
    + rewrite at_remove_other in Hat by done. by eapply Hkd.
  - by apply map_Forall_delete.
Qed.

(** The entry of a name, and what writing it back does. *)
Lemma names_mut n m k :
  names_refine n m ->
  match m !! k with
  | Some v => exists put, domain_lookup_mut n k false = Val (Some ((k, v), put)) /\
                          forall v', names_refine (put (k, v')) (<[k := v']> m)
  | None => domain_lookup_mut n k false = Val None
  end.
Proof.
  intros Hn. destruct (domain_lookup_mut_spec n k) as (e & -> & He).
  pose proof (names_entry n m k Hn) as Hent. destruct (host_address k) as [[p slot] |] eqn:Ha; cbn in He.
  - destruct e as [[kv write] |].
    + destruct He as [Hat Hwr]. rewrite Hat in Hent. destruct (m !! k) as [v |] eqn:Hm; [| done].
      injection Hent as ->. exists write. split; [done |]. intros v'. rewrite Hwr.
      apply names_insert_at; [done | by eapply nr_names | done].
    + rewrite He in Hent. by destruct (m !! k).
  - subst. by destruct (m !! k).
Qed.

Lemma names_insert n m k v :
  names_refine n m -> sni_key k -> m !! k = None ->
  exists n', domain_insert n k v = Val (n', InsertOk) /\ names_refine n' (<[k := v]> m).
Proof.
  intros Hn Hk Hm. unfold domain_insert. rewrite insert_Val by apply (nr_refines n m Hn).
  unfold insert_spec. rewrite sni_key_ok by done.
  destruct (sni_key_literal k Hk) as (p & slot & Ha & _). rewrite Ha. cbn [negb].
  pose proof (names_entry n m k Hn) as Hent. rewrite Ha, Hm in Hent. cbn in Hent. rewrite Hent.
  eexists. split; [done |]. by apply names_insert_at.
Qed.

Lemma names_remove n m k :
  names_refine n m -> sni_key k ->
  exists n' r, domain_remove n k = Val (n', r) /\ names_refine n' (delete k m).
Proof.
  intros Hn Hk. unfold domain_remove. rewrite remove_Val by apply (nr_refines n m Hn).
  destruct (sni_key_literal k Hk) as (p & slot & Ha & _). rewrite Ha. cbn [remove_spec].
  pose proof (names_entry n m k Hn) as Hent. rewrite Ha in Hent.
  eexists _, _. split; [apply f_equal, surjective_pairing |].
  destruct (at_path n p slot) eqn:Hat; cbn [is_none fst]; [by apply names_remove_at |].
  destruct (m !! k) eqn:Hm; [done |]. by rewrite delete_id.
Qed.

Lemma names_root : names_refine root ∅.
Proof.
  split; [apply trie_refines_root | apply plain_root | | apply map_Forall_empty].
  intros p slot k v. by rewrite at_root.
Qed.

Lemma names_empty n m : names_refine n m -> is_empty n = bool_decide (m = ∅).
Proof.
  intros [(Hw & Hc & _) _ _ _]. apply eq_true_iff_eq. rewrite bool_decide_eq_true. split.
  - intros He%is_empty_count. apply map_size_empty_iff. lia.
  - intros ->. rewrite map_size_empty in Hc. destruct (is_empty n) eqn:E; [done |].
    pose proof (nonempty_count n Hw E). lia.
Qed.
End Map.

(** ** The listeners against a map of entries *)

(** Two entries of a name never accept the same offer. *)
Definition compatible (a b : AlpnMatcher) : Prop :=
  match a, b with
  | Any, Any => False
  | OneOf s, OneOf t => s ## t
  | _, _ => True
  end.

Definition entries_ok (es : RouteEntries) : Prop :=
  es <> [] /\ ForallOrdPairs (fun a b => compatible a.1 b.1) es.

Record RefListener := mkRefListener {
  rl_address : SocketAddr;
  rl_cluster : option ClusterId;
  rl_routes : gmap Key RouteEntries;
}.

Definition sni_verdict (sni : list Z) : option SniError :=
  match validate_sni_pattern sni with Val (Err e) => Some e | _ => None end.

Definition ref_verdict (a : RefListener) (front : RequestTcpFrontend) : option FrontReject :=
  match tf_sni front with
  | None =>
      if decide (tf_alpn front = []) then
        if decide (rl_routes a = ∅) then None else Some NoSniOverRoutes
      else Some AlpnWithoutSni
  | Some sni =>
      if rl_cluster a is Some _ then Some SniOverCatchAll
      else match sni_verdict sni with
           | Some e => Some (SniShape e)
           | None => first_conflict (tf_alpn front) (default [] (rl_routes a !! to_ascii_lowercase sni))
           end
  end.

Definition ref_add (front : RequestTcpFrontend) (a : RefListener) : RefListener :=
  match tf_sni front with
  | None => mkRefListener (rl_address a) (Some (tf_cluster_id front)) (rl_routes a)
  | Some sni =>
      let '(key, matcher) := route_key_and_matcher sni (tf_alpn front) in
      mkRefListener (rl_address a) (rl_cluster a)
        (<[key := default [] (rl_routes a !! key) ++ [(matcher, tf_cluster_id front)]]> (rl_routes a))
  end.

Definition ref_remove (front : RequestTcpFrontend) (a : RefListener) : RefListener :=
  match tf_sni front with
  | None => mkRefListener (rl_address a) None (rl_routes a)
  | Some sni =>
      let '(key, matcher) := route_key_and_matcher sni (tf_alpn front) in
      let es := filter (fun e => ~ (e.1 = matcher /\ e.2 = tf_cluster_id front)) (default [] (rl_routes a !! key)) in
      mkRefListener (rl_address a) (rl_cluster a)
        (if decide (es = []) then delete key (rl_routes a) else <[key := es]> (rl_routes a))
  end.

Lemma FOP_snoc {A} (R : A -> A -> Prop) l x :
  ForallOrdPairs R l -> Forall (fun a => R a x) l -> ForallOrdPairs R (l ++ [x]).
Proof.
  induction 1 as [| a l Ha _ IH]; intros Hx; cbn [app]; [repeat constructor |].
  apply Forall_cons in Hx as [? Hx]. constructor; [| by apply IH]. apply Forall_app. by repeat constructor.
Qed.

Lemma FOP_filter {A} (R : A -> A -> Prop) (P : A -> Prop) `{forall x, Decision (P x)} l :
  ForallOrdPairs R l -> ForallOrdPairs R (filter P l).
Proof.
  induction 1 as [| a l Ha _ IH]; [constructor |]. rewrite filter_cons. case_decide; [| done].
  constructor; [| done]. apply Forall_forall. intros x [_ Hx]%list_elem_of_filter.
  by eapply Forall_forall in Ha.
Qed.

Lemma no_conflict alpn es sni :
  first_conflict alpn es = None ->
  Forall (fun e => compatible e.1 (route_key_and_matcher sni alpn).2) es.
Proof.
  unfold route_key_and_matcher. cbn [snd]. induction es as [| [[| ps] c] es IH]; cbn; [constructor | |].
  - case_bool_decide; [done |]. intros ?%IH. by constructor.
  - destruct (list_find _ alpn) as [[i p] |] eqn:E; [done |]. intros ?%IH. constructor; [| done].
    cbn. case_bool_decide; [done |]. apply list_find_None in E. intros p Hp Hin%elem_of_list_to_set.
    by eapply Forall_forall in E.
Qed.

Section Listeners.
Context `{HR : RegexCrate} `{HRL : !RegexLaws}.

Implicit Types (l : TcpListener) (a : RefListener).

(** A listener against its reference: the same names with the same entries,
    none of them in conflict, and never both a catch-all cluster and names. *)
Record listener_refines l a : Prop := {
  lr_address : tl_address l = rl_address a;
  lr_cluster : tl_cluster_id l = rl_cluster a;
  lr_routes : names_refine (sni_routes l) (rl_routes a);
  lr_entries : map_Forall (fun _ es => entries_ok es) (rl_routes a);
  lr_mixing : rl_cluster a = None \/ rl_routes a = ∅;
}.

Lemma fresh_refines c addr t : listener_refines (TcpListener_new c addr t) (mkRefListener addr None ∅).
Proof. split; cbn; [done | done | apply names_root | apply map_Forall_empty | by left]. Qed.

Lemma refines_set_tags l a k tags : listener_refines l a -> listener_refines (set_tags l k tags) a.
Proof. by intros []. Qed.

Lemma validate_spec l a front :
  listener_refines l a ->
  validate_new_tcp_front l front =
  Val (match ref_verdict a front with Some r => Err (InvalidTcpFrontend r) | None => Ok tt end).
Proof.
  intros [_ Hc Hr _ _]. unfold validate_new_tcp_front, ref_verdict, sni_verdict, reject.
  destruct (tf_sni front) as [sni |].
  2: { rewrite (names_empty _ _ Hr). do 2 (case_bool_decide; case_decide; try done). }
  rewrite Hc. destruct (rl_cluster a); [done |]. cbn [is_none negb].
  destruct (validate_Val sni) as (r & -> & Hk). cbn [mbind outcome_bind].
  destruct r as [key | e]; [| done]. destruct (proj1 (Hk key) eq_refl) as [-> Hkey].
  set (key := to_ascii_lowercase sni) in *. destruct (sni_key_shape key Hkey) as (Hne & _).
  rewrite (names_served _ (rl_routes a)); [| done | done |].
  2: { destruct (starts_with key (bstr "*.")); auto. }
  cbn [mbind outcome_bind]. unfold serves. destruct (rl_routes a !! key) as [es |] eqn:Hes; cbn [default id].
  - by destruct (first_conflict (tf_alpn front) es).
  - destruct (starts_with key (bstr "*.")) eqn:Hs; [| done].
    assert (Hw : wildcard_key key = key).
    { apply starts_with_star in Hs as [h ->]. destruct h as [| b h]; [| done].
      destruct Hkey as [(_ & Hst & _) | (h & Hh & Hn & _)]; [by destruct Hst; left | by injection Hh as <-]. }
    by rewrite Hw, Hes.
Qed.

Lemma entries_add es sni alpn c :
  (es <> [] -> entries_ok es) -> first_conflict alpn es = None ->
  entries_ok (es ++ [((route_key_and_matcher sni alpn).2, c)]).
Proof.
  intros Hes Hf. split; [by destruct es |]. apply FOP_snoc; [| by apply no_conflict].
  destruct es; [constructor | by apply Hes].
Qed.

Lemma insert_route_spec l a sni alpn c :
  listener_refines l a -> rl_cluster a = None -> sni_key (to_ascii_lowercase sni) ->
  first_conflict alpn (default [] (rl_routes a !! to_ascii_lowercase sni)) = None ->
  exists l', insert_sni_route l sni alpn c = Val (l', Ok tt) /\
    listener_refines l' (mkRefListener (rl_address a) (rl_cluster a)
      (<[to_ascii_lowercase sni := default [] (rl_routes a !! to_ascii_lowercase sni) ++
          [((route_key_and_matcher sni alpn).2, c)]]> (rl_routes a))).
Proof.
  intros [Ha Hc Hr He Hm] Hcl Hkey Hf. unfold insert_sni_route.
  change (route_key_and_matcher sni alpn) with (to_ascii_lowercase sni, (route_key_and_matcher sni alpn).2).
  set (key := to_ascii_lowercase sni) in *. set (matcher := (route_key_and_matcher sni alpn).2).
  assert (Hok : entries_ok (default [] (rl_routes a !! key) ++ [(matcher, c)])).
  { apply entries_add; [| done]. intros Hne. destruct (rl_routes a !! key) eqn:E; [by apply (He key) | done]. }
  pose proof (names_mut (sni_routes l) (rl_routes a) key Hr) as Hmut. destruct (rl_routes a !! key) as [es |] eqn:E.
  - destruct Hmut as (write & -> & Hw). cbn [mbind outcome_bind]. eexists. split; [done |].
    split; cbn; [done | done | apply Hw | by apply map_Forall_insert_2 | by left].
  - rewrite Hmut. cbn [mbind outcome_bind].
    destruct (names_insert _ _ key [(matcher, c)] Hr Hkey E) as (n' & -> & Hn'). cbn [mbind outcome_bind].
    eexists. split; [done |].
    split; cbn; [done | done | done | by apply map_Forall_insert_2 | by left].
Qed.

Lemma add_listener_spec l a front :
  listener_refines l a -> ref_verdict a front = None ->
  exists l', add_to_listener l front = Val (l', Ok tt) /\ listener_refines l' (ref_add front a).
Proof.
  unfold ref_verdict, add_to_listener, ref_add, sni_verdict. intros Hl Hv.
  destruct (tf_sni front) as [sni |].
  - destruct (rl_cluster a) eqn:Hc; [done |]. destruct (validate_Val sni) as (r & Hval & Hk). rewrite Hval in Hv.
    destruct r as [key | e]; [| done]. destruct (proj1 (Hk key) eq_refl) as [-> Hkey].
    rewrite <- Hc. apply (insert_route_spec _ a); [by apply refines_set_tags | done | done | done].
  - case_decide; [| done]. case_decide as Hr; [| done]. eexists. split; [done |].
    destruct Hl as [Ha Hc Hroutes He _]. split; cbn; auto.
Qed.

Lemma remove_route_spec l a sni alpn c :
  listener_refines l a ->
  let key := to_ascii_lowercase sni in
  let es := filter (fun e => ~ (e.1 = (route_key_and_matcher sni alpn).2 /\ e.2 = c))
              (default [] (rl_routes a !! key)) in
  exists l', remove_sni_route l sni alpn c = Val l' /\
    listener_refines l' (mkRefListener (rl_address a) (rl_cluster a)
      (if decide (es = []) then delete key (rl_routes a) else <[key := es]> (rl_routes a))).
Proof.
  intros [Ha Hc Hr He Hm] key es. unfold remove_sni_route.
  change (route_key_and_matcher sni alpn) with (key, (route_key_and_matcher sni alpn).2).
  pose proof (names_mut (sni_routes l) (rl_routes a) key Hr) as Hmut. subst es.
  destruct (rl_routes a !! key) as [es |] eqn:E.
  - destruct Hmut as (write & -> & Hw). cbn [mbind outcome_bind default id].
    set (es' := filter _ es). specialize (Hw es').
    assert (Hmix : rl_cluster a = None) by (destruct Hm as [| Hm]; [done | by rewrite Hm in E]).
    case_bool_decide as Hes.
    + assert (Hkey : sni_key key) by exact (nr_names _ _ Hr key es E).
      destruct (names_remove _ _ key Hw Hkey) as (n' & r & -> & Hn'). cbn [mbind outcome_bind].
      rewrite delete_insert_eq in Hn'. rewrite decide_True by done. eexists. split; [done |].
      split; cbn; [done | done | done | by apply map_Forall_delete | by left].
    + rewrite decide_False by done. eexists. split; [done |].
      split; cbn; [done | done | done | | by left]. apply map_Forall_insert_2; [| done].
      split; [done |]. apply FOP_filter. by apply (He key).
  - rewrite Hmut. cbn [mbind outcome_bind default id]. eexists. split; [done |].
    rewrite decide_True, delete_id by done. by split.
Qed.

Lemma remove_listener_spec l a front :
  listener_refines l a ->
  exists l' gone, remove_from_listener l front = Val (l', gone) /\ listener_refines l' (ref_remove front a).
Proof.
  unfold remove_from_listener, ref_remove. intros Hl. destruct (tf_sni front) as [sni |].
  - destruct (remove_route_spec (set_tags l (sni_tags_key (tf_address front) sni (tf_alpn front)) None) a sni
      (tf_alpn front) (tf_cluster_id front)) as (l' & -> & Hl'); [by apply refines_set_tags |].
    eexists _, _. by split.
  - eexists _, _. split; [done |]. destruct Hl as [Ha Hc Hr He Hm]. split; cbn; auto.
Qed.

(** *** The listeners of an address *)

Inductive front_op := AddFront (front : RequestTcpFrontend) | RemoveFront (front : RequestTcpFrontend).

Definition op_front (op : front_op) : RequestTcpFrontend :=
  match op with AddFront front => front | RemoveFront front => front end.

Definition proxy_step (p : TcpProxy) (op : front_op) : checked (TcpProxy * res ProxyError unit) :=
  match op with AddFront front => add_tcp_front p front | RemoveFront front => remove_tcp_front p front end.

Fixpoint proxy_run (p : TcpProxy) (ops : list front_op) : checked (TcpProxy * list (res ProxyError unit)) :=
  match ops with
  | [] => Val (p, [])
  | op :: ops =>
      '(p, r) ← proxy_step p op;
      '(p, rs) ← proxy_run p ops;
      Val (p, r :: rs)
  end.

Definition ref_tokens (A : gmap Z RefListener) (address : SocketAddr) : list Z :=
  merge_sort Z.le (elements (dom (filter (fun e => rl_address e.2 = address) A))).

(** The first refusal of the listeners, in the order of their tokens. *)
Definition ref_refusal (A : gmap Z RefListener) (front : RequestTcpFrontend) (tokens : list Z) :
    option FrontReject :=
  head (omap (fun t => a ← A !! t; ref_verdict a front) tokens).

Definition ref_all (f : RefListener -> RefListener) (A : gmap Z RefListener) (tokens : list Z) :
    gmap Z RefListener := foldl (fun A t => alter f t A) A tokens.

Definition ref_step (A : gmap Z RefListener) (op : front_op) : gmap Z RefListener * res ProxyError unit :=
  let tokens := ref_tokens A (tf_address (op_front op)) in
  if decide (tokens = []) then (A, Err NoListenerFound)
  else match op with
       | AddFront front =>
           match ref_refusal A front tokens with
           | Some r => (A, Err (InvalidTcpFrontend r))
           | None => (ref_all (ref_add front) A tokens, Ok tt)
           end
       | RemoveFront front => (ref_all (ref_remove front) A tokens, Ok tt)
       end.

Fixpoint ref_run (A : gmap Z RefListener) (ops : list front_op) :
    gmap Z RefListener * list (res ProxyError unit) :=
  match ops with
  | [] => (A, [])
  | op :: ops => let '(A, r) := ref_step A op in let '(A, rs) := ref_run A ops in (A, r :: rs)
  end.

Definition proxy_refines (p : TcpProxy) (A : gmap Z RefListener) : Prop :=
  forall t, option_Forall2 listener_refines (listeners p !! t) (A !! t).

Lemma refines_lookup p A t a :
  proxy_refines p A -> A !! t = Some a -> exists l, listeners p !! t = Some l /\ listener_refines l a.
Proof. intros Hp Ha. specialize (Hp t). rewrite Ha in Hp. inversion Hp; subst. eauto. Qed.

Lemma refines_insert p A t l a fs f :
  proxy_refines p A -> A !! t = Some a -> listener_refines l (f a) ->
  proxy_refines (mkTcpProxy (<[t := l]> (listeners p)) fs) (alter f t A).
Proof.
  intros Hp Ha Hl t'. cbn. destruct (decide (t = t')) as [<- | Hne].
  - rewrite lookup_insert_eq, lookup_alter_eq, Ha. by constructor.
  - rewrite lookup_insert_ne, lookup_alter_ne by done. apply Hp.
Qed.

Lemma tokens_spec p A address :
  proxy_refines p A ->
  listeners_at p address = if decide (ref_tokens A address = []) then None else Some (ref_tokens A address).
Proof.
  intros Hp. unfold listeners_at, ref_tokens.
  replace (dom (filter (fun e => tl_address e.2 = address) (listeners p)))
    with (dom (filter (fun e => rl_address e.2 = address) A)).
  { case_bool_decide as Hb; case_decide; done. }
  apply set_eq. intros t. rewrite !elem_of_dom. specialize (Hp t).
  split; intros [x [Hx Haddr]%map_lookup_filter_Some]; rewrite Hx in Hp; inversion Hp as [l a Hla |]; subst;
    eexists; apply map_lookup_filter_Some; (split; [done |]); destruct Hla; cbn in *; congruence.
Qed.

Lemma ref_tokens_listed A address :
  NoDup (ref_tokens A address) /\ Forall (fun t => is_Some (A !! t)) (ref_tokens A address).
Proof.
  unfold ref_tokens. set (ts := elements _).
  pose proof (merge_sort_Permutation Z.le ts) as Hperm. split.
  - rewrite Hperm. apply NoDup_elements.
  - rewrite Hperm. apply Forall_forall. intros t Ht%elem_of_elements.
    apply elem_of_dom in Ht as [a [Ha _]%map_lookup_filter_Some]. by exists a.
Qed.

Lemma validate_all_spec p A front ts :
  proxy_refines p A -> Forall (fun t => is_Some (A !! t)) ts ->
  validate_all p front ts =
  Val (match ref_refusal A front ts with Some r => Err (InvalidTcpFrontend r) | None => Ok tt end).
Proof.
  intros Hp. induction ts as [| t ts IH]; [done |]. intros [[a Ha] Hts]%Forall_cons. cbn [validate_all].
  destruct (refines_lookup p A t a Hp Ha) as (l & -> & Hl). rewrite (validate_spec l a front Hl).
  cbn [mbind outcome_bind]. unfold ref_refusal. cbn [omap list_omap]. rewrite Ha. cbn [mbind option_bind].
  destruct (ref_verdict a front); [done |]. by apply IH.
Qed.

Lemma add_all_spec p A front ts :
  proxy_refines p A -> NoDup ts ->
  Forall (fun t => exists a, A !! t = Some a /\ ref_verdict a front = None) ts ->
  exists p', add_all p front ts = Val (p', Ok tt) /\ proxy_refines p' (ref_all (ref_add front) A ts).
Proof.
  revert p A. induction ts as [| t ts IH]; intros p A Hp Hnd Hts; [by exists p |].
  apply NoDup_cons in Hnd as [Ht Hnd]. apply Forall_cons in Hts as [(a & Ha & Hv) Hts]. cbn [add_all].
  destruct (refines_lookup p A t a Hp Ha) as (l & -> & Hl).
  destruct (add_listener_spec l a front Hl Hv) as (l' & -> & Hl'). cbn [mbind outcome_bind].
  assert (Hmix : is_none (tl_cluster_id l') || is_empty (sni_routes l') = true).
  { destruct Hl' as [_ -> Hr _ [Hn | Hn]]; [by rewrite Hn |].
    rewrite (names_empty _ _ Hr), bool_decide_true by done. by rewrite orb_true_r. }
  rewrite (debug_assert_true _ Hmix). cbn [mbind outcome_bind]. apply IH; [by eapply refines_insert | done |].
  apply Forall_forall. intros t' Ht'. rewrite lookup_alter_ne by (intros ->; done).
  by eapply Forall_forall in Hts.
Qed.

Lemma remove_all_spec p A front ts :
  proxy_refines p A -> NoDup ts -> Forall (fun t => is_Some (A !! t)) ts ->
  exists p', remove_all p front ts = Val p' /\ proxy_refines p' (ref_all (ref_remove front) A ts).
Proof.
  revert p A. induction ts as [| t ts IH]; intros p A Hp Hnd Hts; [by exists p |].
  apply NoDup_cons in Hnd as [Ht Hnd]. apply Forall_cons in Hts as [[a Ha] Hts]. cbn [remove_all].
  destruct (refines_lookup p A t a Hp Ha) as (l & -> & Hl).
  destruct (remove_listener_spec l a front Hl) as (l' & gone & -> & Hl'). cbn [mbind outcome_bind].
  apply IH; [by eapply refines_insert | done |].
  apply Forall_forall. intros t' Ht'. rewrite lookup_alter_ne by (intros ->; done).
  by eapply Forall_forall in Hts.
Qed.

Lemma ref_refusal_None A front ts :
  Forall (fun t => is_Some (A !! t)) ts -> ref_refusal A front ts = None ->
  Forall (fun t => exists a, A !! t = Some a /\ ref_verdict a front = None) ts.
Proof.
  induction 1 as [| t ts [a Ha] _ IH]; [constructor |]. unfold ref_refusal in *. cbn [omap list_omap].
  rewrite Ha. cbn [mbind option_bind]. destruct (ref_verdict a front) eqn:Hv; [done |]. intros ?%IH.
  constructor; [by exists a | done].
Qed.

Lemma proxy_step_spec p A op :
  proxy_refines p A ->
  exists p', proxy_step p op = Val (p', (ref_step A op).2) /\ proxy_refines p' (ref_step A op).1.
Proof.
  intros Hp. unfold ref_step. destruct (ref_tokens_listed A (tf_address (op_front op))) as [Hnd Hts].
  pose proof (tokens_spec p A (tf_address (op_front op)) Hp) as Htok.
  destruct op as [front | front]; cbn [proxy_step op_front] in *; unfold add_tcp_front, remove_tcp_front;
    rewrite Htok; case_decide as Hnil; cbn [fst snd]; [by exists p | | by exists p |].
  - rewrite (validate_all_spec p A) by done. cbn [mbind outcome_bind].
    destruct (ref_refusal A front _) eqn:Href; cbn [fst snd]; [by exists p |].
    apply add_all_spec; [done | done |]. by apply ref_refusal_None.
  - destruct (remove_all_spec p A front _ Hp Hnd Hts) as (p' & -> & Hp'). by exists p'.
Qed.

Lemma proxy_run_spec p A ops :
  proxy_refines p A ->
  exists p', proxy_run p ops = Val (p', (ref_run A ops).2) /\ proxy_refines p' (ref_run A ops).1.
Proof.
  revert p A. induction ops as [| op ops IH]; intros p A Hp; [by exists p |]. cbn [proxy_run ref_run].
  destruct (proxy_step_spec p A op Hp) as (p1 & -> & Hp1). cbn [mbind outcome_bind].
  destruct (ref_step A op) as [A1 r]. cbn [fst snd] in *. destruct (IH p1 A1 Hp1) as (p2 & -> & Hp2).
  destruct (ref_run A1 ops) as [A2 rs]. by exists p2.
Qed.

(** The reference of listeners just created. *)
Definition ref_fresh (p : TcpProxy) : gmap Z RefListener :=
  (fun l => mkRefListener (tl_address l) None ∅) <$> listeners p.

(** C4. The TCP frontends of the listeners behave as maps from server names to
    entries: from listeners just created, any sequence of additions and
    removals of frontends, with any names, protocols and addresses, fails no
    assertion, answers each request as the reference does (no listener at the
    address, the refusal of the first listener that has one, or success on
    every listener of the address), and leaves each listener with exactly the
    entries of its reference, in which no two entries of a name accept the
    same offer and names never stand beside a catch-all cluster. *)
Theorem tcp_fronts_refine p ops :
  map_Forall (fun _ l => exists c address t, l = TcpListener_new c address t) (listeners p) ->
  exists p', proxy_run p ops = Val (p', (ref_run (ref_fresh p) ops).2) /\
             proxy_refines p' (ref_run (ref_fresh p) ops).1.
Proof.
  intros Hf. apply proxy_run_spec. intros t. unfold ref_fresh. rewrite lookup_fmap.
  destruct (listeners p !! t) as [l |] eqn:Hl; constructor.
  destruct (Hf t l Hl) as (c & address & t' & ->). apply fresh_refines.
Qed.
End Listeners.

(** ** The tags of a frontend *)

Global Instance le_bytes_total : Total le_bytes.
Proof. intros a b. apply bytes_le_total. Qed.
Global Instance le_bytes_trans : Transitive le_bytes.
Proof. intros a b c. apply bytes_le_trans. Qed.
Global Instance le_bytes_antisymm : AntiSymm eq le_bytes.
Proof. intros a b. apply bytes_le_antisymm. Qed.

Lemma dedup_bytes_mem l x : x ∈ dedup_bytes l <-> x ∈ l.
Proof.
  induction l as [| y [| z l] IH]; [done | done |]. cbn [dedup_bytes] in *. case_bool_decide as Hyz.
  - subst. rewrite IH, !elem_of_cons. tauto.
  - rewrite !elem_of_cons in *. rewrite IH. tauto.
Qed.

Lemma dedup_bytes_sorted l :
  StronglySorted le_bytes l -> StronglySorted le_bytes (dedup_bytes l) /\ NoDup (dedup_bytes l).
Proof.
  induction l as [| y [| z l] IH]; [by repeat constructor | |].
  { intros Hs. split; [exact Hs | apply NoDup_singleton]. }
  intros [Hs Hy]%StronglySorted_inv. destruct (IH Hs) as [Hs' Hn]. cbn [dedup_bytes] in *.
  case_bool_decide as Hyz; [done |]. split.
  - constructor; [done |]. apply Forall_forall. intros x Hx%(dedup_bytes_mem (z :: l)).
    by eapply Forall_forall in Hy.
  - constructor; [| done]. intros Hin%(dedup_bytes_mem (z :: l)). apply Hyz.
    apply Forall_cons in Hy as [Hyz' Hy]. apply (anti_symm le_bytes); [done |].
    apply elem_of_cons in Hin as [-> | Hin]; [reflexivity || done |].
    apply StronglySorted_inv in Hs as [_ Hz]. by eapply Forall_forall in Hz.
Qed.

(** Sorted and deduplicated, a list of protocols depends on their set only. *)
Lemma canonical_protocols l1 l2 :
  (forall x, x ∈ l1 <-> x ∈ l2) ->
  dedup_bytes (merge_sort le_bytes l1) = dedup_bytes (merge_sort le_bytes l2).
Proof.
  intros Heq. assert (Hm : forall l x, x ∈ dedup_bytes (merge_sort le_bytes l) <-> x ∈ l).
  { intros l x. by rewrite dedup_bytes_mem, (merge_sort_Permutation le_bytes l). }
  destruct (dedup_bytes_sorted _ (StronglySorted_merge_sort le_bytes l1)) as [Hs1 Hn1].
  destruct (dedup_bytes_sorted _ (StronglySorted_merge_sort le_bytes l2)) as [Hs2 Hn2].
  apply StronglySorted_unique_strong with le_bytes; [| done | done |].
  - intros x y _ _ ? ?. by apply (anti_symm le_bytes).
  - apply NoDup_Permutation; [done | done |]. intros x. by rewrite !Hm.
Qed.

Lemma utf8_3_first b0 b1 : utf8_3 b0 b1 = true -> 224 <= b0 <= 239.
Proof. unfold utf8_3, PatternTrie.between. lia. Qed.

Lemma utf8_4_first b0 b1 : utf8_4 b0 b1 = true -> 240 <= b0 <= 244.
Proof. unfold utf8_4, PatternTrie.between. lia. Qed.

Lemma between_true a b x : a <= x <= b -> PatternTrie.between a b x = true.
Proof. unfold PatternTrie.between. lia. Qed.

Lemma between_false a b x : ~ (a <= x <= b) -> PatternTrie.between a b x = false.
Proof. unfold PatternTrie.between. lia. Qed.

Lemma from_utf8_lossy_valid l : utf8_valid l = true -> from_utf8_lossy l = l.
Proof.
  remember (length l) as n eqn:Hn. revert l Hn. induction n as [n IH] using lt_wf_ind. intros l Hn.
  assert (Hrec : forall l', (length l' < length l)%nat -> utf8_valid l' = true -> from_utf8_lossy l' = l')
    by (intros; eapply IH; [| done | done]; lia).
  clear IH Hn. destruct l as [| b0 l0]; [done |]. cbn [utf8_valid from_utf8_lossy].
  destruct (b0 <? 128) eqn:H0; [intros; f_equal; apply Hrec; [cbn; lia | done] |].
  destruct l0 as [| b1 l1]; [done |]. destruct (PatternTrie.between 194 223 b0 && is_cont b1) eqn:H1.
  { apply andb_true_iff in H1 as [-> ->]. intros. do 2 f_equal. apply Hrec; [cbn; lia | done]. }
  destruct l1 as [| b2 l2]; [done |]. destruct (utf8_3 b0 b1 && is_cont b2) eqn:H2.
  { apply andb_true_iff in H2 as [Hb ->]. apply utf8_3_first in Hb as Hr.
    rewrite between_false, between_true, Hb by lia. intros. do 3 f_equal. apply Hrec; [cbn; lia | done]. }
  destruct l2 as [| b3 l3]; [done |]. intros [[[Hb Hb2]%andb_true_iff Hb3]%andb_true_iff Hv]%andb_true_iff.
  apply utf8_4_first in Hb as Hr. rewrite !between_false, between_true, Hb, Hb2, Hb3 by lia.
  do 4 f_equal. apply Hrec; [cbn; lia | done].
Qed.

(** The tags of a frontend are found again: the key that a routed
    connection rebuilds from the matched pattern and the protocols of the
    matched entry is the key the tags of the frontend were stored under,
    whatever the case of the name and the order and repetition of the
    protocols in the request that added it. *)
Theorem tags_key_rebuilt address sni alpn :
  Forall (fun protocol => utf8_valid protocol = true) alpn ->
  let '(pattern, matcher) := route_key_and_matcher sni alpn in
  sni_tags_key address pattern (alpn_matcher_protocols matcher) = sni_tags_key address sni alpn.
Proof.
  intros Hv. unfold route_key_and_matcher, sni_tags_key, tags_key_sni. rewrite lower_idemp.
  do 2 f_equal. case_bool_decide as Hnil; [by subst |]. cbn [alpn_matcher_protocols].
  assert (Hid : from_utf8_lossy <$> merge_sort le_bytes (elements (list_to_set alpn : gset (list Z))) =
                merge_sort le_bytes (elements (list_to_set alpn : gset (list Z)))).
  { rewrite <- (list_fmap_id (merge_sort le_bytes (elements _))) at 2. apply list_fmap_ext. intros i x Hx%list_elem_of_lookup_2. cbn.
    rewrite (merge_sort_Permutation le_bytes), elem_of_elements, elem_of_list_to_set in Hx.
    apply from_utf8_lossy_valid. by eapply Forall_forall in Hv. }
  rewrite Hid. apply canonical_protocols. intros x.
  by rewrite (merge_sort_Permutation le_bytes), elem_of_elements, elem_of_list_to_set.
Qed.

Definition BAR : Z := 124.

Lemma app_bar_inj s1 s2 r1 r2 :
  BAR ∉ s1 -> BAR ∉ s2 -> s1 ++ BAR :: r1 = s2 ++ BAR :: r2 -> s1 = s2 /\ r1 = r2.
Proof.
  revert s2. induction s1 as [| b s1 IH]; intros [| c s2] H1 H2; cbn [app].
  - by intros [= ->].
  - intros [= <- _]. destruct H2. left.
  - intros [= -> _]. destruct H1. left.
  - intros [= -> Heq]. apply not_elem_of_cons in H1 as [_ H1]. apply not_elem_of_cons in H2 as [_ H2].
    destruct (IH s2 H1 H2 Heq) as [-> ->]. done.
Qed.

Lemma show_protocol_inj p1 p2 r1 r2 :
  Z.of_nat (length p1) <= USIZE_MAX -> Z.of_nat (length p2) <= USIZE_MAX ->
  show_protocol p1 ++ r1 = show_protocol p2 ++ r2 -> p1 = p2 /\ r1 = r2.
Proof.
  intros H1 H2 Heq. unfold show_protocol, print_index in Heq. rewrite <- !app_assoc in Heq.
  pose proof (f_equal (fun l => parse_index l 0) Heq) as Hp. cbn beta in Hp.
  rewrite !parse_index_dec in Hp by (unfold USIZE_MAX in *; lia).
  injection Hp as Hlen Happ. apply Nat2Z.inj in Hlen. by apply app_inj_1 in Happ.
Qed.

Lemma show_protocols_inj l1 l2 :
  Forall (fun p => Z.of_nat (length p) <= USIZE_MAX) l1 -> Forall (fun p => Z.of_nat (length p) <= USIZE_MAX) l2 ->
  concat (show_protocol <$> l1) = concat (show_protocol <$> l2) -> l1 = l2.
Proof.
  assert (Hsp : forall p l, show_protocol p ++ l <> []).
  { intros p l. unfold show_protocol, print_index. rewrite <- app_assoc. intros [Hd _]%app_eq_nil.
    by apply (dec_nonempty 20) in Hd; [| lia]. }
  revert l2. induction l1 as [| p1 l1 IH]; intros [| p2 l2] H1 H2; cbn [fmap list_fmap concat]; [done | | |].
  - intros Heq. symmetry in Heq. by apply Hsp in Heq.
  - intros Heq. by apply Hsp in Heq.
  - apply Forall_cons in H1 as [? H1], H2 as [? H2].
    intros [-> ?]%show_protocol_inj; [| done | done]. f_equal. by apply IH.
Qed.

(** Two frontends of a listener whose names have no bar share the key of
    their tags only when they have the same name and the same set of
    protocols, and never share it with the catch-all of the address. *)
Theorem tags_key_injective address s1 s2 l1 l2 :
  BAR ∉ s1 -> BAR ∉ s2 ->
  Forall (fun p => Z.of_nat (length p) <= USIZE_MAX) l1 -> Forall (fun p => Z.of_nat (length p) <= USIZE_MAX) l2 ->
  sni_tags_key address s1 l1 <> show_tags_key (KeyAddress address) /\
  (sni_tags_key address s1 l1 = sni_tags_key address s2 l2 ->
   to_ascii_lowercase s1 = to_ascii_lowercase s2 /\ forall p, p ∈ l1 <-> p ∈ l2).
Proof.
  intros H1 H2 Hl1 Hl2. unfold sni_tags_key. cbn [show_tags_key tags_key_sni]. split.
  - intros Heq. apply (f_equal length) in Heq. rewrite !length_app in Heq. cbn in Heq. lia.
  - intros Heq. apply app_inv_head, app_inv_head in Heq. cbn [bstr app] in Heq.
    assert (Hbar : forall s, BAR ∉ s -> BAR ∉ to_ascii_lowercase s)
      by (intros s Hs; by rewrite (lower_mem s BAR) by (unfold BAR; lia)).
    apply app_bar_inj in Heq as [-> Heq]; [| by apply Hbar..].
    assert (Hin : forall l x, x ∈ dedup_bytes (merge_sort le_bytes l) <-> x ∈ l).
    { intros l x. by rewrite dedup_bytes_mem, (merge_sort_Permutation le_bytes l). }
    assert (Hb : forall l, Forall (fun p => Z.of_nat (length p) <= USIZE_MAX) l ->
      Forall (fun p => Z.of_nat (length p) <= USIZE_MAX) (dedup_bytes (merge_sort le_bytes l))).
    { intros l Hl. apply Forall_forall. intros x Hx. exact (proj1 (Forall_forall _ _) Hl x (proj1 (Hin l x) Hx)). }
    apply show_protocols_inj in Heq; [| by apply Hb..]. split; [done |]. intros p.
    by rewrite <- (Hin l1), Heq, Hin.
Qed.

(** ** Examples *)

#[local] Existing Instance simple_regex.
#[local] Existing Instance simple_regex_laws.

Definition example_address : SocketAddr := V4 (mkSocketAddrV4 [127; 0; 0; 1] 8443).
Definition example_proxy : TcpProxy :=
  mkTcpProxy (<[7 := TcpListener_new (mkTcpListenerConfig false None None) example_address 7]> ∅) ∅.
Definition example_tcp_front (cluster : string) (sni : option (list Z)) (alpn : list (list Z)) : RequestTcpFrontend :=
  mkRequestTcpFrontend (bstr cluster) example_address [(bstr "owner", bstr cluster)] sni alpn.
Definition example_front_ops : list front_op :=
  [AddFront (example_tcp_front "web" (Some (bstr "*.Example.com")) []);
   AddFront (example_tcp_front "h2" (Some (bstr "a.example.com")) [bstr "h2"; bstr "h3"]);
   AddFront (example_tcp_front "old" (Some (bstr "A.example.com")) [bstr "h3"]);
   AddFront (example_tcp_front "all" None []);
   AddFront (example_tcp_front "web2" (Some (bstr "*.example.com")) []);
   AddFront (example_tcp_front "bad" (Some (bstr ".example.com")) []);
   RemoveFront (example_tcp_front "h2" (Some (bstr "a.example.com")) [bstr "h3"; bstr "h2"]);
   AddFront (example_tcp_front "old" (Some (bstr "A.example.com")) [bstr "h3"])].

Lemma tcp_fronts_refine_witness :
  exists p', proxy_run example_proxy example_front_ops =
    Val (p', [Ok tt; Ok tt; Err (InvalidTcpFrontend (AlpnOverlap (bstr "h3")));
              Err (InvalidTcpFrontend NoSniOverRoutes); Err (InvalidTcpFrontend CatchAllTaken);
              Err (InvalidTcpFrontend (SniShape InvalidSniPattern)); Ok tt; Ok tt]) /\
    proxy_refines p' (ref_run (ref_fresh example_proxy) example_front_ops).1.
Proof.
  destruct (tcp_fronts_refine example_proxy example_front_ops) as (p' & E & Hp').
  { apply map_Forall_singleton. by eexists _, _, _. }
  exists p'. split; [| exact Hp']. rewrite E. f_equal.
Defined.

Lemma tags_key_rebuilt_witness :
  sni_tags_key example_address (bstr "a.example.com") [bstr "h2"; bstr "h3"] =
  sni_tags_key example_address (bstr "A.Example.com") [bstr "h3"; bstr "h2"; bstr "h3"].
Proof.
  assert (Hv : Forall (fun protocol => utf8_valid protocol = true) [bstr "h3"; bstr "h2"; bstr "h3"])
    by (repeat constructor).
  pose proof (tags_key_rebuilt example_address (bstr "A.Example.com") [bstr "h3"; bstr "h2"; bstr "h3"] Hv) as H.
  vm_compute in H |- *. exact H.
Defined.

Lemma tags_key_injective_witness :
  sni_tags_key example_address (bstr "a.b") [bstr "a,b"] <> sni_tags_key example_address (bstr "a.b") [bstr "a"; bstr "b"].
Proof.
  intros Heq.
  destruct (tags_key_injective example_address (bstr "a.b") (bstr "a.b") [bstr "a,b"] [bstr "a"; bstr "b"])
    as [_ Hinj]; [by apply (bool_decide_unpack _).. | by repeat constructor | by repeat constructor |].
  destruct (Hinj Heq) as [_ Hin].
  assert (Hno : bstr "a,b" ∉ [bstr "a"; bstr "b"]) by (apply (bool_decide_unpack _); by vm_compute).
  apply Hno, Hin. left.
Defined.

(** C37. The key of the tags is not free of collisions: the frontend of the name
    [x|2:a] without protocols and the one of [x] with the protocol [a|], both
    accepted by a listener, have the same key, so that adding the second
    replaces the tags of the first and removing it leaves the first without
    tags. *)
Example tags_key_collision :
  let f1 := example_tcp_front "one" (Some (bstr "x|2:a")) [] in
  let f2 := example_tcp_front "two" (Some (bstr "x")) [bstr "a|"] in
  let key := sni_tags_key example_address (bstr "x|2:a") [] in
  match proxy_run example_proxy [AddFront f1; AddFront f2] with
  | Val (p, rs) =>
      rs = [Ok tt; Ok tt] /\
      (l ← listeners p !! 7; tl_tags l !! key) = Some (CachedTags_new [(bstr "owner", bstr "two")]) /\
      match remove_tcp_front p f2 with
      | Val (p', _) => (l ← listeners p' !! 7; tl_tags l !! key) = None
      | _ => False
      end
  | _ => False
  end.
Proof. vm_compute. done. Qed.
