(* ===== verification/SniPreread.v ===== *)
(** * Routing a TLS connection by its ClientHello

    [lib/src/protocol/tcp_preread/mod.rs]: the core that decides, from the
    octets received so far, which cluster a connection goes to, and
    [lib/src/protocol/tcp_preread/shell.rs]: the session state that reads the
    socket and feeds the core.  Instants and durations are nanoseconds; the
    reading of the clock, and what [socket_read] put into the slice it was
    given with its result, are arguments.  Metrics and logs are left out. *)

From S2P Require Import Prelude Readiness H2Parser ProxyProtocol Buffers PoolCheckout PatternTrie PatternTrieSpec TcpPreread Router RouterFrontend SniTable.
Local Open Scope Z_scope.

Definition DEFAULT_SNI_PREREAD_TIMEOUT : Z := 5.
Definition DEFAULT_SNI_PREREAD_MAX_BYTES : Z := 16384.
Definition MIN_SNI_PREREAD_MAX_BYTES : Z := 5.

Definition effective_sni_preread_max_bytes (configured : option Z) (buffer_capacity : nat) : nat :=
  Nat.max (Nat.min (Z.to_nat (default DEFAULT_SNI_PREREAD_MAX_BYTES configured)) buffer_capacity)
    (Z.to_nat MIN_SNI_PREREAD_MAX_BYTES).

(** [for protocol in offered { for (matcher, cluster) in entries { .. } }], then
    the catch-all. *)
Definition accepts (matcher : AlpnMatcher) (protocol : list Z) : bool :=
  match matcher with OneOf set => bool_decide (protocol ∈ set) | Any => false end.

Fixpoint resolve_alpn (entries : RouteEntries) (offered : list (list Z)) : option (AlpnMatcher * ClusterId) :=
  match offered with
  | protocol :: offered =>
      match list_find (fun e => accepts e.1 protocol = true) entries with
      | Some (_, e) => Some e
      | None => resolve_alpn entries offered
      end
  | [] => snd <$> list_find (fun e => e.1 = Any) entries
  end.

Definition normalize_sni (sni : list Z) : list Z :=
  let sni := to_ascii_lowercase sni in
  if ends_with sni [DOT] then removelast sni else sni.

Inductive Output :=
| NeedMore (deadline : Z)
| Routed (cluster : ClusterId) (content_offset : nat) (proxy_source : option SocketAddr) (sni : list Z)
    (alpn : list (list Z)) (matched_sni_pattern : list Z) (matched_alpn : AlpnMatcher)
| Reject (reason : RejectReason).

Inductive Input :=
| Bytes (buf : list Z) (now : Z)
| Timeout (now : Z)
| FrontClosedInput.

Record SniPrereadCore := mkCore { decided : option Output; deadline : option Z }.

Definition core_new : SniPrereadCore := mkCore None None.

Definition is_need_more (o : Output) : bool := match o with NeedMore _ => true | _ => false end.

Definition strip_prefix (l p : list Z) : option (list Z) :=
  if starts_with l p then Some (drop (length p) l) else None.

(** The shapes of a matched pattern that [check_invariants] admits. *)
Definition pattern_admits (pattern sni : list Z) : bool :=
  bool_decide (pattern = sni) ||
  match strip_prefix pattern (bstr "*.") with Some suffix => ends_with sni suffix | None => false end ||
  match find_last_slash pattern with Some close => ends_with sni (drop (close + 1) pattern) | None => false end.

Definition check_core (c : SniPrereadCore) : checked unit :=
  _ ← debug_assert (match decided c with Some o => negb (is_need_more o) | None => true end);
  match decided c with
  | Some (Routed _ _ _ sni _ pattern _) =>
      _ ← debug_assert (bool_decide (sni = to_ascii_lowercase sni));
      _ ← debug_assert (negb (ends_with sni [DOT]));
      _ ← debug_assert (bool_decide (pattern = to_ascii_lowercase pattern));
      debug_assert (pattern_admits pattern sni)
  | _ => Val tt
  end.

Definition decide_output (c : SniPrereadCore) (o : Output) : checked (SniPrereadCore * Output) :=
  _ ← debug_assert (is_none (decided c));
  _ ← debug_assert (negb (is_need_more o));
  Val (mkCore (Some o) (deadline c), o).

Section Core.
Context `{RegexCrate} {HS : NomStreaming} {HN : Nom}.

Record PrereadConfig := mkPrereadConfig {
  routes : TrieNode RouteEntries;
  inbound_proxy : bool;
  max_bytes : nat;
  timeout : Z;
  accept_wildcard : bool;
}.

(** [TcpListener::preread_config]. *)
Definition preread_config (l : TcpListener) (effective_max_bytes : nat) : PrereadConfig :=
  mkPrereadConfig (sni_routes l) (expect_proxy (tl_config l)) effective_max_bytes
    (default DEFAULT_SNI_PREREAD_TIMEOUT (sni_preread_timeout (tl_config l)) * 1000000000) true.

Definition need_more_or_too_large (c : SniPrereadCore) (cfg : PrereadConfig) (buf : list Z) (d : Z) :
    checked (SniPrereadCore * Output) :=
  if (max_bytes cfg <=? length buf)%nat then decide_output c (Reject TooLarge) else Val (c, NeedMore d).

(** The lookup and the ALPN resolution, and their replay in a debug build. *)
Definition route (c : SniPrereadCore) (cfg : PrereadConfig) (buf : list Z) (content_offset : nat)
    (proxy_source : option SocketAddr) (sni_raw : option (list Z)) (alpn : list (list Z)) (ech_present : bool) :
    checked (SniPrereadCore * Output) :=
  match normalize_sni <$> sni_raw with
  | Some ((_ :: _) as sni) =>
      found ← domain_lookup (routes cfg) sni (accept_wildcard cfg);
      match found with
      | None => decide_output c (Reject SniUnmatched)
      | Some (matched_key, entries) =>
          match resolve_alpn entries alpn with
          | None => decide_output c (Reject AlpnUnmatched)
          | Some (matched_alpn, cluster) =>
              replay ← domain_lookup (routes cfg) sni (accept_wildcard cfg);
              replay_entries ← (match replay with Some (_, entries) => Val entries | None => Panic end);
              _ ← debug_assert (bool_decide (resolve_alpn replay_entries alpn = Some (matched_alpn, cluster)));
              _ ← debug_assert (content_offset <=? length buf)%nat;
              decide_output c (Routed cluster content_offset proxy_source sni alpn
                (from_utf8_lossy matched_key) matched_alpn)
          end
      end
  | _ => decide_output c (Reject (if ech_present then EchOuterAbsent else NoSni))
  end.

Definition on_hello (c : SniPrereadCore) (cfg : PrereadConfig) (buf : list Z) (d : Z) (content_offset : nat)
    (proxy_source : option SocketAddr) : checked (SniPrereadCore * Output) :=
  window ← range buf content_offset (length buf);
  parsed ← parse_client_hello window;
  match parsed with
  | ParseNeedMore => need_more_or_too_large c cfg buf d
  | ParseReject reason => decide_output c (Reject reason)
  | ParseClientHello sni alpn ech => route c cfg buf content_offset proxy_source sni alpn ech
  end.

Definition on_bytes (c : SniPrereadCore) (cfg : PrereadConfig) (buf : list Z) (now : Z) :
    checked (SniPrereadCore * Output) :=
  c ← (match deadline c with
       | None => d ← instant_add now (timeout cfg); Val (mkCore (decided c) (Some d))
       | Some _ => Val c
       end);
  d ← (match deadline c with Some d => Val d | None => Panic end);
  match decided c with
  | Some o => Val (c, o)
  | None =>
      if d <=? now then decide_output c (Reject Fragmented)
      else if inbound_proxy cfg then
        match parse_v2_header buf with
        | Val (rest, header) =>
            (* the subtraction, then the assertion of the source *)
            _ ← debug_assert (length rest <=? length buf)%nat;
            let consumed := (length buf - length rest)%nat in
            _ ← debug_assert (consumed <=? length buf)%nat;
            on_hello c cfg buf d consumed (source (addr header))
        | Fails Incomplete => need_more_or_too_large c cfg buf d
        | Fails (Error _) => decide_output c (Reject ProxyHeaderInvalid)
        | Panic => Panic
        end
      else on_hello c cfg buf d 0 None
  end.

Definition on_timeout (c : SniPrereadCore) : checked (SniPrereadCore * Output) :=
  match decided c with
  | Some o => Val (c, o)
  | None => decide_output c (Reject Fragmented)
  end.

Definition on_front_closed (c : SniPrereadCore) : checked (SniPrereadCore * Output) :=
  match decided c with
  | Some o => Val (c, o)
  | None => decide_output c (Reject FrontClosed)
  end.

Definition handle_input (c : SniPrereadCore) (cfg : PrereadConfig) (input : Input) :
    checked (SniPrereadCore * Output) :=
  let deadline_before := deadline c in
  let was_decided := negb (is_none (decided c)) in
  _ ← check_core c;
  '(c, output) ←
    (match input with
     | Bytes buf now => on_bytes c cfg buf now
     | Timeout _ => on_timeout c
     | FrontClosedInput => on_front_closed c
     end);
  _ ← debug_assert (match deadline_before with
                    | Some before => bool_decide (deadline c = Some before)
                    | None => true
                    end);
  _ ← debug_assert (negb was_decided || negb (is_none (decided c)));
  _ ← check_core c;
  Val (c, output).

(** ** The session state *)

Record RoutedOutcome := mkRoutedOutcome {
  ro_cluster : ClusterId;
  ro_content_offset : nat;
  ro_proxy_source : option SocketAddr;
  ro_sni : list Z;
  ro_alpn : list (list Z);
  ro_matched_sni_pattern : list Z;
  ro_matched_alpn : AlpnMatcher;
}.

(** Without the sockets, the tokens and the request id. *)
Record SniPreread := mkSniPreread {
  sp_frontend_readiness : Readiness;
  sp_backend_readiness : Readiness;
  sp_buffer : Buffer;
  sp_max_bytes : nat;
  sp_core : SniPrereadCore;
  outcome_of : option RoutedOutcome;
}.

Definition sni_preread_new (buffer : Buffer) (effective_max_bytes : nat) : SniPreread :=
  mkSniPreread (mkReadiness Ready.EMPTY (Z.lor (Z.lor Ready.READABLE Ready.HUP) Ready.ERROR))
    (mkReadiness Ready.EMPTY (Z.lor Ready.HUP Ready.ERROR)) buffer effective_max_bytes core_new None.

Definition is_routed (s : SniPreread) : bool := negb (is_none (outcome_of s)).

Definition has_received_bytes (s : SniPreread) : bool := (0 <? available_data (sp_buffer s))%nat.

Definition with_core (s : SniPreread) (c : SniPrereadCore) : SniPreread :=
  mkSniPreread (sp_frontend_readiness s) (sp_backend_readiness s) (sp_buffer s) (sp_max_bytes s) c (outcome_of s).

Definition with_front (s : SniPreread) (r : Readiness) : SniPreread :=
  mkSniPreread r (sp_backend_readiness s) (sp_buffer s) (sp_max_bytes s) (sp_core s) (outcome_of s).

Definition with_buffer (s : SniPreread) (b : Buffer) : SniPreread :=
  mkSniPreread (sp_frontend_readiness s) (sp_backend_readiness s) b (sp_max_bytes s) (sp_core s) (outcome_of s).

Definition handle_output (s : SniPreread) (output : Output) : checked (SniPreread * SessionResult) :=
  match output with
  | NeedMore _ => Val (s, Continue)
  | Routed cluster content_offset proxy_source sni alpn matched_sni_pattern matched_alpn =>
      _ ← debug_assert (is_none (outcome_of s));
      let front := sp_frontend_readiness s in
      let back := sp_backend_readiness s in
      Val (mkSniPreread
             (mkReadiness (event front) (Ready.remove (interest front) Ready.READABLE))
             (mkReadiness (event back) (Ready.insert (interest back) Ready.WRITABLE))
             (sp_buffer s) (sp_max_bytes s) (sp_core s)
             (Some (mkRoutedOutcome cluster content_offset proxy_source sni alpn matched_sni_pattern matched_alpn)),
           Continue)
  | Reject _ =>
      front ← readiness_reset (sp_frontend_readiness s);
      back ← readiness_reset (sp_backend_readiness s);
      Val (mkSniPreread front back (sp_buffer s) (sp_max_bytes s) (sp_core s) (outcome_of s), Close)
  end.

(** [let output = self.core.handle_input(..); self.handle_output(output)] *)
Definition feed (s : SniPreread) (cfg : PrereadConfig) (input : Input) : checked (SniPreread * SessionResult) :=
  '(c, output) ← handle_input (sp_core s) cfg input;
  handle_output (with_core s c) output.

Definition front_gone (s : SniPreread) (cfg : PrereadConfig) : checked (SniPreread * SessionResult) :=
  if has_received_bytes s then feed s cfg FrontClosedInput
  else
    r ← readiness_reset (sp_frontend_readiness s);
    Val (with_front s r, Close).

(** The room [readable] hands to the socket. *)
Definition read_len (s : SniPreread) : nat :=
  Nat.min (checkout_space (sp_buffer s)) (sp_max_bytes s - available_data (sp_buffer s)).

Definition readable (s : SniPreread) (cfg : PrereadConfig) (received : list Z) (socket_result : SocketResult.t)
    (now : Z) : checked (SniPreread * SessionResult) :=
  if is_routed s then Val (s, Continue)
  else
    let sz := length received in
    let b := sp_buffer s in
    _ ← debug_assert (sz <=? read_len s)%nat;
    m ← copy_from_slice (memory b) (end_ b) (end_ b + sz) received;
    let s := with_buffer s (mkBuffer m (position b) (end_ b)) in
    if (0 <? sz)%nat then
      let data_before := available_data (sp_buffer s) in
      '(b, _) ← checkout_fill (sp_buffer s) sz;
      _ ← debug_assert (available_data b =? data_before + sz)%nat;
      let s := with_buffer s b in
      match socket_result with
      | SocketResult.Error => front_gone s cfg
      | _ =>
          let s := match socket_result with
                   | SocketResult.WouldBlock => with_front s (drop_readable (sp_frontend_readiness s))
                   | _ => s
                   end in
          window ← data (sp_buffer s);
          feed s cfg (Bytes window now)
      end
    else
      match socket_result with
      | SocketResult.Error | SocketResult.Closed => front_gone s cfg
      | SocketResult.WouldBlock => Val (with_front s (drop_readable (sp_frontend_readiness s)), Continue)
      | SocketResult.Continue => Val (s, Continue)
      end.

Definition shell_on_timeout (s : SniPreread) (cfg : PrereadConfig) (now : Z) : checked SniPreread :=
  '(s, _) ← feed s cfg (Timeout now); Val s.

Definition shell_on_front_closed (s : SniPreread) (cfg : PrereadConfig) : checked SniPreread :=
  '(s, _) ← front_gone s cfg; Val s.

Definition back_writable (s : SniPreread) : checked SessionResult :=
  _ ← debug_assert (negb (is_none (outcome_of s)));
  Val Upgrade.

(** The arms of [TcpSession] for this state. *)
Definition session_readable (l : TcpListener) (s : SniPreread) (received : list Z)
    (socket_result : SocketResult.t) (now : Z) : checked (SniPreread * SessionResult) :=
  readable s (preread_config l (sp_max_bytes s)) received socket_result now.

Definition session_front_hup (l : TcpListener) (s : SniPreread) : checked (SniPreread * SessionResult) :=
  s ← shell_on_front_closed s (preread_config l (sp_max_bytes s));
  Val (s, Close).

(** [true]: the session is to be closed. *)
Definition session_timeout (l : TcpListener) (s : SniPreread) (now : Z) : checked (SniPreread * bool) :=
  if is_routed s then Val (s, true)
  else s ← shell_on_timeout s (preread_config l (sp_max_bytes s)) now; Val (s, true).

End Core.
