(* ===== verification/SniPrereadSpec.v ===== *)
(** * What the routing of a TLS connection promises

    Theorems on [SniPreread]: the entry chosen for an ALPN offer; the answers
    of the core to any sequence of inputs, against a reference that waits,
    then repeats its first verdict; the cluster a ClientHello on the wire is
    routed to; and the bytes the session keeps while it waits. *)

From S2P Require Import Prelude Readiness H2Parser ProxyProtocol Buffers PoolCheckout PatternTrie PatternTrieSpec TcpPreread Router RouterFrontend SniTable SniTableSpec SniPreread.
Local Open Scope Z_scope.

(** ** The ALPN offer *)

Lemma compatible_sym a b : compatible a b -> compatible b a.
Proof. destruct a, b; cbn; done || set_solver. Qed.

(** Of the entries of a name, one at most accepts a protocol, and one at most
    is the catch-all. *)
Lemma entries_unique (es : RouteEntries) e e' :
  ForallOrdPairs (fun a b => compatible a.1 b.1) es -> e ∈ es -> e' ∈ es -> ~ compatible e.1 e'.1 -> e = e'.
Proof.
  induction 1 as [| a es Ha _ IH]; [by intros ?%not_elem_of_nil |].
  intros [-> | He]%elem_of_cons [-> | He']%elem_of_cons Hn; [done | | | by apply IH].
  - by destruct Hn; eapply (proj1 (Forall_forall _ _) Ha).
  - destruct Hn. apply compatible_sym. by eapply (proj1 (Forall_forall _ _) Ha).
Qed.

Lemma accepts_clash a b p : accepts a p = true -> accepts b p = true -> ~ compatible a b.
Proof.
  destruct a, b; cbn; try done. intros H1%bool_decide_eq_true H2%bool_decide_eq_true Hd. by eapply Hd.
Qed.

Lemma find_accepts (es : RouteEntries) p :
  match list_find (fun e => accepts e.1 p = true) es with
  | Some (_, e) => e ∈ es /\ accepts e.1 p = true
  | None => forall e, e ∈ es -> accepts e.1 p = false
  end.
Proof.
  destruct (list_find _ es) as [[i e] |] eqn:E.
  - apply list_find_Some in E as (Hi & Ha & _). split; [by eapply list_elem_of_lookup_2 | done].
  - intros e He. apply list_find_None in E. apply not_true_iff_false. by eapply (proj1 (Forall_forall _ _) E).
Qed.

Definition chosen (es : RouteEntries) (offered : list (list Z)) (e : AlpnMatcher * ClusterId) : Prop :=
  e ∈ es /\
  ((exists before p after, offered = before ++ p :: after /\ accepts e.1 p = true /\
      forall q e', q ∈ before -> e' ∈ es -> accepts e'.1 q = false) \/
   (e.1 = Any /\ forall q e', q ∈ offered -> e' ∈ es -> accepts e'.1 q = false)).

Lemma chosen_cons es p offered e :
  (forall e', e' ∈ es -> accepts e'.1 p = false) -> chosen es (p :: offered) e <-> chosen es offered e.
Proof.
  intros Hp. unfold chosen. split; (intros [He Hc]; split; [done |]); destruct Hc as [(b & q & a & Hq & Ha & Hb) | [He' Hb]].
  - left. destruct b as [| p' b]; injection Hq as -> ->; [by rewrite Hp in Ha |].
    exists b, q, a. split; [done |]. split; [done |]. intros. apply Hb; [by right | done].
  - right. split; [done |]. intros. apply Hb; [by right | done].
  - left. exists (p :: b), q, a. rewrite Hq. split; [done |]. split; [done |].
    intros q' e' [-> | ?]%elem_of_cons ?; auto.
  - right. split; [done |]. intros q' e' [-> | ?]%elem_of_cons ?; auto.
Qed.

Lemma resolve_chosen es offered e :
  entries_ok es -> resolve_alpn es offered = Some e <-> chosen es offered e.
Proof.
  intros [_ Hes]. induction offered as [| p offered IH]; cbn [resolve_alpn].
  - destruct (list_find _ es) as [[i e'] |] eqn:E; cbn.
    + apply list_find_Some in E as (Hi & Ha & _). apply list_elem_of_lookup_2 in Hi. split.
      * intros [= ->]. split; [done |]. right. split; [done |]. by intros ? ? ?%not_elem_of_nil.
      * intros [He [(b & q & a & Hq & _) | [He' _]]]; [by destruct b |]. f_equal.
        eapply entries_unique; [done | done | done |]. rewrite Ha, He'. exact id.
    + split; [done |]. intros [He [(b & q & a & Hq & _) | [He' _]]]; [by destruct b |].
      apply list_find_None in E. by eapply (proj1 (Forall_forall _ _) E) in He'.
  - pose proof (find_accepts es p) as Hf. destruct (list_find _ es) as [[i e'] |].
    + destruct Hf as [Hin Ha]. split.
      * intros [= ->]. split; [done |]. left. exists [], p, offered. split; [done |]. split; [done |].
        by intros ? ? ?%not_elem_of_nil.
      * intros [He [(b & q & a & Hq & Ha' & Hb) | [_ Hb]]].
        -- destruct b as [| p' b]; injection Hq as -> ->.
           ++ f_equal. eapply entries_unique; [done | done | done |]. by eapply accepts_clash.
           ++ rewrite (Hb p' e') in Ha; [done | left | done].
        -- rewrite (Hb p e') in Ha; [done | left | done].
    + rewrite IH. symmetry. by apply chosen_cons.
Qed.

(** The entry an ALPN offer selects, among entries without a conflict,
    whatever their order: the one that accepts the first protocol of the
    client's offer that any entry accepts, or the catch-all when none is
    accepted. *)
Theorem alpn_choice es offered e :
  entries_ok es -> resolve_alpn es offered = Some e <-> chosen es offered e.
Proof. apply resolve_chosen. Qed.

Lemma alpn_choice_witness :
  resolve_alpn [(Any, bstr "web"); (OneOf {[ bstr "h2" ]}, bstr "grpc")] [bstr "spdy"; bstr "h2"] =
    Some (OneOf {[ bstr "h2" ]}, bstr "grpc").
Proof.
  apply (alpn_choice [(Any, bstr "web"); (OneOf {[ bstr "h2" ]}, bstr "grpc")]).
  - split; [done |]. repeat constructor.
  - split; [right; left |]. left. exists [bstr "spdy"], (bstr "h2"), []. split; [done |].
    split; [by vm_compute |]. intros q e' Hq%list_elem_of_singleton He'. subst q.
    apply elem_of_cons in He' as [-> | He']; [done |]. apply list_elem_of_singleton in He' as ->. by vm_compute.
Defined.

(** ** The name that is routed *)

Lemma lossy_ascii l : is_ascii l = true -> from_utf8_lossy l = l.
Proof.
  induction l as [| b l IH]; [done |]. unfold is_ascii. cbn [forallb]. intros [Hb Hl]%andb_true_iff.
  cbn [from_utf8_lossy]. rewrite Hb. by rewrite IH.
Qed.

Lemma ends_with_app (pre s : list Z) : ends_with (pre ++ s) s = true.
Proof.
  unfold ends_with. apply bool_decide_eq_true. rewrite length_app, Nat.add_sub. apply drop_app_length.
Qed.

Lemma ends_with_dot l : ends_with l [DOT] = true <-> last l = Some DOT.
Proof.
  unfold ends_with. rewrite bool_decide_eq_true. cbn [length]. split.
  - intros Hd. rewrite <- (take_drop (length l - 1) l), Hd. apply last_snoc.
  - intros (l' & ->)%last_Some. rewrite length_app. cbn [length]. rewrite Nat.add_sub. apply drop_app_length.
Qed.

Lemma split_byte_last l :
  last l = Some DOT -> exists x xs, split_byte DOT l = x :: xs /\ [] ∈ xs.
Proof.
  induction l as [| b l IH]; [done |]. destruct l as [| c l].
  - intros [= ->]. exists [], [[]]. split; [done | left].
  - intros Hl. destruct (IH Hl) as (x & xs & E & Hin). remember (c :: l) as l'. cbn [split_byte]. rewrite E.
    destruct (b =? DOT); eexists _, _; (split; [done |]); [by right | done].
Qed.

Lemma plain_last h : plain_host h -> last h <> Some DOT.
Proof.
  intros (_ & _ & _ & He & _) Hl. destruct (split_byte_last h Hl) as (x & xs & E & Hin). apply He.
  rewrite E. by right.
Qed.

Lemma sni_key_last k : sni_key k -> last k <> Some DOT.
Proof.
  intros [Hk | (h & -> & Hh)]; [by apply plain_last |]. rewrite last_app.
  pose proof (plain_last h Hh) as Hl. destruct Hh as [Hne _]. destruct (last h) eqn:E; [done |].
  by apply last_None in E.
Qed.

Lemma sni_key_lowercase k : sni_key k -> to_ascii_lowercase k = k /\ is_ascii k = true.
Proof.
  intros [(_ & _ & _ & _ & Ha & Hl) | (h & -> & _ & _ & _ & _ & Ha & Hl)]; [done |]. split; [| done].
  change (to_ascii_lowercase (bstr "*." ++ h)) with (bstr "*." ++ to_ascii_lowercase h). by rewrite Hl.
Qed.

Lemma from_dot_suffix k : exists pre, k = pre ++ from_dot k.
Proof.
  induction k as [| b k [pre IH]]; [by exists [] |]. cbn. destruct (b =? DOT); [by exists [] |].
  exists (b :: pre). cbn. by f_equal.
Qed.

(** A wildcard that is a valid name covers a name with its suffix. *)
Lemma wildcard_covers k :
  k <> [] -> sni_key (wildcard_key k) ->
  exists pre h, wildcard_key k = bstr "*." ++ h /\ plain_host h /\ k = pre ++ DOT :: h.
Proof.
  intros Hk Hw. destruct k as [| b k]; [done |].
  destruct Hw as [(_ & Hs & _) | (h & Heq & Hh)]; [by destruct Hs; left |].
  destruct (from_dot_suffix k) as [pre Hpre]. unfold wildcard_key in Heq |- *. cbn [tail] in *.
  injection Heq as Hd. exists (b :: pre), h. rewrite Hd in *. cbn. by rewrite Hpre at 1.
Qed.

Section Routes.
Context (m : gmap Key RouteEntries).
Hypothesis Hnames : map_Forall (fun k _ => sni_key k) m.

(** What [check_invariants] asserts of the pattern that answers a name. *)
Lemma served_pattern k key es :
  k <> [] -> serves m k true = Some (key, es) ->
  sni_key key /\ last k <> Some DOT /\ pattern_admits key k = true /\ m !! key = Some es.
Proof.
  intros Hk. unfold serves, pattern_admits. destruct (m !! k) as [es' |] eqn:E.
  - intros [= <- <-]. pose proof (Hnames k es' E) as Hkey. cbn in Hkey. split; [done |].
    split; [by apply sni_key_last |]. by rewrite bool_decide_true.
  - destruct (m !! wildcard_key k) as [es' |] eqn:Ew; [| done]. cbn. intros [= <- <-].
    pose proof (Hnames _ _ Ew) as Hkey. cbn in Hkey. split; [done |].
    destruct (wildcard_covers k Hk Hkey) as (pre & h & Heq & Hh & Hpre). split; [| split; [| done]].
    + rewrite Hpre, last_app, last_cons. pose proof (plain_last h Hh) as Hl. destruct Hh as [Hne _].
      destruct (last h) eqn:E'; [done |]. by apply last_None in E'.
    + rewrite Heq. unfold strip_prefix. rewrite (proj2 (starts_with_star _)) by (by exists h).
      rewrite drop_app_length.
      assert (ends_with k h = true) as ->.
      { rewrite Hpre. change (DOT :: h) with ([DOT] ++ h). rewrite app_assoc. apply ends_with_app. }
      by rewrite orb_true_r.
Qed.
End Routes.

Lemma normalize_lower s : to_ascii_lowercase (normalize_sni s) = normalize_sni s.
Proof.
  unfold normalize_sni. destruct (ends_with _ _) eqn:E; [| apply lower_idemp].
  apply ends_with_dot, last_Some in E as [l Hl]. pose proof (lower_idemp s) as Hs. rewrite Hl in Hs |- *.
  rewrite removelast_last. rewrite lower_fmap, fmap_app in Hs. by apply app_inj_tail in Hs as [Hs _].
Qed.

(** ** The core against a reference *)

Section Core.
Context `{HR : RegexCrate} `{HRL : !RegexLaws} `{HS : NomStreaming} `{HSL : !NomStreamingLaws}
  `{HN : Nom} `{HNL : !NomLaws}.
Implicit Types (m : gmap Key RouteEntries) (cfg : PrereadConfig) (c : SniPrereadCore).

(** The verdict on a ClientHello: its name, then its ALPN offer. *)
Definition hello_verdict m (offset : nat) (src : option SocketAddr) (sni : option (list Z))
    (alpn : list (list Z)) (ech : bool) : Output :=
  match normalize_sni <$> sni with
  | None | Some [] => Reject (if ech then EchOuterAbsent else NoSni)
  | Some name =>
      match serves m name true with
      | None => Reject SniUnmatched
      | Some (pattern, es) =>
          match resolve_alpn es alpn with
          | None => Reject AlpnUnmatched
          | Some (matcher, cluster) => Routed cluster offset src name alpn pattern matcher
          end
      end
  end.

(** The verdict on the octets behind the PROXY header, if there is one yet. *)
Definition content_verdict m (buf : list Z) (offset : nat) (src : option SocketAddr) : option Output :=
  match parse_client_hello (drop offset buf) with
  | Val (ParseClientHello sni alpn ech) => Some (hello_verdict m offset src sni alpn ech)
  | Val (ParseReject r) => Some (Reject r)
  | _ => None
  end.

(** The verdict on a window; one that reached its bound is not waited for. *)
Definition window_verdict m (inbound : bool) (max : nat) (buf : list Z) : option Output :=
  let verdict :=
    if inbound then
      match parse_v2_header buf with
      | Val (rest, h) => content_verdict m buf (length buf - length rest) (source (addr h))
      | Fails (Error _) => Some (Reject ProxyHeaderInvalid)
      | _ => None
      end
    else content_verdict m buf 0 None in
  match verdict with
  | Some o => Some o
  | None => if (max <=? length buf)%nat then Some (Reject TooLarge) else None
  end.

Definition input_verdict m cfg (d : Z) (input : Input) : option Output :=
  match input with
  | Bytes buf now =>
      if d <=? now then Some (Reject Fragmented) else window_verdict m (inbound_proxy cfg) (max_bytes cfg) buf
  | Timeout _ => Some (Reject Fragmented)
  | FrontClosedInput => Some (Reject FrontClosed)
  end.

(** Wait with the same deadline, then repeat the first verdict. *)
Fixpoint answers m cfg (d : Z) (inputs : list Input) : list Output :=
  match inputs with
  | [] => []
  | input :: rest =>
      match input_verdict m cfg d input with
      | Some o => replicate (S (length rest)) o
      | None => NeedMore d :: answers m cfg d rest
      end
  end.

(** The deadline the first input sets, when it carries bytes. *)
Definition first_deadline cfg (inputs : list Input) : Z :=
  match inputs with Bytes _ now :: _ => now + timeout cfg | _ => 0 end.

Fixpoint core_run c cfg (inputs : list Input) : checked (list Output) :=
  match inputs with
  | [] => Val []
  | input :: rest =>
      '(c, o) ← handle_input c cfg input;
      os ← core_run c cfg rest;
      Val (o :: os)
  end.

(** Octets, fewer than 2^32, and a clock that does not overflow. *)
Definition input_ok cfg (input : Input) : Prop :=
  match input with
  | Bytes buf now => bytes_ok buf /\ Z.of_nat (length buf) < U32_MAX /\ now + timeout cfg <= INSTANT_MAX
  | _ => True
  end.

Lemma decide_Val c o :
  decided c = None -> is_need_more o = false -> decide_output c o = Val (mkCore (Some o) (deadline c), o).
Proof. intros Hc Ho. unfold decide_output. by rewrite Hc, Ho. Qed.

Lemma check_reject r d : check_core (mkCore (Some (Reject r)) d) = Val tt.
Proof. done. Qed.

Section Table.
Context (m : gmap Key RouteEntries) (cfg : PrereadConfig).
Hypothesis Hr : names_refine (routes cfg) m.
Hypothesis Haw : accept_wildcard cfg = true.

(** A verdict is latched, and passes the checks. *)
Definition latched (r : checked (SniPrereadCore * Output)) (d : option Z) (o : Output) : Prop :=
  r = Val (mkCore (Some o) d, o) /\ is_need_more o = false /\ check_core (mkCore (Some o) d) = Val tt.

Lemma latch c o :
  decided c = None -> is_need_more o = false -> check_core (mkCore (Some o) (deadline c)) = Val tt ->
  latched (decide_output c o) (deadline c) o.
Proof. intros. split; [by apply decide_Val | done]. Qed.

Lemma check_routed cl off src s alpn pattern es matcher d :
  normalize_sni s <> [] -> serves m (normalize_sni s) true = Some (pattern, es) ->
  check_core (mkCore (Some (Routed cl off src (normalize_sni s) alpn pattern matcher)) d) = Val tt /\
  from_utf8_lossy pattern = pattern.
Proof.
  intros Hne Hs. destruct (served_pattern m (nr_names _ _ Hr) _ _ _ Hne Hs) as (Hkey & Hl & Hp & _).
  destruct (sni_key_lowercase pattern Hkey) as [Hlow Hasc]. split; [| by apply lossy_ascii].
  unfold check_core. cbn [decided is_need_more negb]. rewrite normalize_lower, Hlow, Hp.
  rewrite !bool_decide_true by done.
  destruct (ends_with (normalize_sni s) [DOT]) eqn:E; [| done]. by apply ends_with_dot in E.
Qed.

Lemma route_spec c buf off src sni alpn ech :
  decided c = None -> (off <= length buf)%nat ->
  latched (route c cfg buf off src sni alpn ech) (deadline c) (hello_verdict m off src sni alpn ech).
Proof.
  intros Hc Hoff. unfold route, hello_verdict.
  destruct sni as [s |]; cbn [fmap option_fmap option_map]; [| by apply latch].
  destruct (normalize_sni s) as [| b n] eqn:En; [by apply latch |]. rewrite <- En.
  assert (Hne : normalize_sni s <> []) by (by rewrite En).
  rewrite (names_served _ m) by (done || by left). rewrite Haw. cbn [mbind outcome_bind].
  destruct (serves m (normalize_sni s) true) as [[pattern es] |] eqn:Es; [| by apply latch].
  destruct (resolve_alpn es alpn) as [[matcher cl] |] eqn:Ea; [| by apply latch].
  cbn [mbind outcome_bind]. rewrite Ea, bool_decide_true by done. cbn [mbind outcome_bind debug_assert].
  rewrite (debug_assert_true (off <=? length buf)%nat) by (by apply Nat.leb_le). cbn [mbind outcome_bind].
  destruct (check_routed cl off src s alpn pattern es matcher (deadline c) Hne Es) as [Hchk ->].
  by apply latch.
Qed.

(** What an undecided core answers: a latched verdict, or to wait. *)
Definition answered (r : checked (SniPrereadCore * Output)) c (d : Z) (v : option Output) : Prop :=
  match v with
  | Some o => latched r (deadline c) o
  | None => r = Val (c, NeedMore d)
  end.

Lemma too_large_spec c buf d :
  decided c = None ->
  answered (need_more_or_too_large c cfg buf d) c d
    (if (max_bytes cfg <=? length buf)%nat then Some (Reject TooLarge) else None).
Proof. intros Hc. unfold need_more_or_too_large. destruct (_ <=? _)%nat; [by apply latch | done]. Qed.

Lemma hello_parsed buf :
  bytes_ok buf -> Z.of_nat (length buf) < U32_MAX -> exists o, parse_client_hello buf = Val o.
Proof. intros. apply record_loop_Val; [done | constructor | lia..]. Qed.

Lemma on_hello_spec c buf d off src :
  decided c = None -> bytes_ok buf -> Z.of_nat (length buf) < U32_MAX -> (off <= length buf)%nat ->
  answered (on_hello c cfg buf d off src) c d
    (match content_verdict m buf off src with
     | Some o => Some o
     | None => if (max_bytes cfg <=? length buf)%nat then Some (Reject TooLarge) else None
     end).
Proof.
  intros Hc Hb Hl Hoff. unfold on_hello, range, content_verdict.
  rewrite !(proj2 (Nat.leb_le _ _)) by lia. cbn [andb mbind outcome_bind]. unfold Prelude.slice.
  rewrite take_ge by (rewrite length_drop; lia).
  destruct (hello_parsed (drop off buf)) as [o ->];
    [by apply bytes_ok_drop | rewrite length_drop; lia |]. cbn [mbind outcome_bind].
  destruct o as [| r | sni alpn ech]; [by apply too_large_spec | by apply latch | by apply route_spec].
Qed.

Lemma window_spec c buf d :
  decided c = None -> bytes_ok buf -> Z.of_nat (length buf) < U32_MAX ->
  answered
    (if inbound_proxy cfg then
       match parse_v2_header buf with
       | Val (rest, header) =>
           _ ← debug_assert (length rest <=? length buf)%nat;
           let consumed := (length buf - length rest)%nat in
           _ ← debug_assert (consumed <=? length buf)%nat;
           on_hello c cfg buf d consumed (source (addr header))
       | Fails Incomplete => need_more_or_too_large c cfg buf d
       | Fails (Error _) => decide_output c (Reject ProxyHeaderInvalid)
       | Panic => Panic
       end
     else on_hello c cfg buf d 0 None) c d
    (window_verdict m (inbound_proxy cfg) (max_bytes cfg) buf).
Proof.
  intros Hc Hb Hl. unfold window_verdict.
  destruct (inbound_proxy cfg); [| apply on_hello_spec; try done; lia].
  destruct (parse_v2_header_cases buf Hb) as [[e ->] | (cmd & fam & dat & rest & a & Heq & -> & _)].
  - destruct e; [by apply too_large_spec | by apply latch].
  - assert (Hlen : (length rest <= length buf)%nat) by (rewrite Heq, length_app; lia).
    rewrite (debug_assert_true (length rest <=? length buf)%nat) by (by apply Nat.leb_le).
    cbn [mbind outcome_bind]. cbv zeta.
    rewrite (debug_assert_true (length buf - length rest <=? length buf)%nat) by (apply Nat.leb_le; lia).
    cbn [mbind outcome_bind]. apply on_hello_spec; try done. lia.
Qed.

(** The deadline an input is judged by. *)
Definition deadline_at c (input : Input) : Z :=
  match deadline c, input with
  | Some d, _ => d
  | None, Bytes _ now => now + timeout cfg
  | None, _ => 0
  end.

Definition armed c (input : Input) : option Z :=
  match deadline c, input with
  | None, Bytes _ now => Some (now + timeout cfg)
  | d, _ => d
  end.

(** One input on an undecided core. *)
Lemma undecided_step c input :
  decided c = None -> input_ok cfg input ->
  let d := deadline_at c input in
  let v := input_verdict m cfg d input in
  handle_input c cfg input = Val (mkCore v (armed c input), default (NeedMore d) v) /\
  check_core (mkCore v (armed c input)) = Val tt /\ (forall o, v = Some o -> is_need_more o = false).
Proof.
  destruct c as [dec dl]. intros Hdec. cbn [decided] in Hdec. subst dec. intros Hi d v.
  assert (Hstep : answered
    (match input with
     | Bytes buf now => on_bytes (mkCore None dl) cfg buf now
     | Timeout _ => on_timeout (mkCore None dl)
     | FrontClosedInput => on_front_closed (mkCore None dl)
     end) (mkCore None (armed (mkCore None dl) input)) d v).
  { destruct input as [buf now | now |]; subst v; cbn [input_verdict]; [| by destruct dl; apply latch..].
    destruct Hi as (Hb & Hl & Hclk). unfold on_bytes. cbn [deadline].
    assert (Harm : (match dl with
       | None => x ← instant_add now (timeout cfg); Val (mkCore (decided (mkCore None dl)) (Some x))
       | Some _ => Val (mkCore None dl) end) = @Val Empty_set _ (mkCore None (Some d))).
    { subst d. unfold deadline_at, instant_add. destruct dl; cbn [deadline]; [done |].
      by rewrite (proj2 (Z.leb_le _ _)). }
    rewrite Harm. cbn [mbind outcome_bind deadline decided].
    assert (armed (mkCore None dl) (Bytes buf now) = Some d) as -> by (by subst d; destruct dl).
    destruct (d <=? now); [by apply latch | by apply window_spec]. }
  unfold handle_input. cbv zeta. cbn [check_core decided is_none negb orb debug_assert mbind outcome_bind deadline].
  assert (Hdl : match dl with
    | Some before => bool_decide (armed (mkCore None dl) input = Some before) | None => true end = true).
  { destruct dl; [| done]. apply bool_decide_eq_true. by destruct input. }
  destruct v as [o |]; cbn [answered] in Hstep.
  - destruct Hstep as (-> & Ho & Hchk). cbn [mbind outcome_bind deadline]. rewrite Hdl. cbn [deadline] in Hchk.
    cbn [debug_assert mbind outcome_bind]. rewrite Hchk. split; [done |]. split; [done |]. by intros o' [= <-].
  - rewrite Hstep. cbn [mbind outcome_bind deadline]. rewrite Hdl. done.
Qed.

(** One input on a decided core: the verdict is repeated. *)
Lemma decided_step c o input :
  decided c = Some o -> check_core c = Val tt -> input_ok cfg input ->
  exists c', handle_input c cfg input = Val (c', o) /\ decided c' = Some o /\ check_core c' = Val tt.
Proof.
  destruct c as [dec dl]. cbn [decided]. intros -> Hchk Hi.
  exists (mkCore (Some o) (armed (mkCore (Some o) dl) input)).
  assert (Hchk' : forall d, check_core (mkCore (Some o) d) = Val tt) by (intros d; exact Hchk).
  split; [| by split]. unfold handle_input. rewrite Hchk. cbv zeta. cbn [mbind outcome_bind deadline decided].
  destruct input as [buf now | now |]; unfold on_bytes, on_timeout, on_front_closed;
    cbn [deadline decided]; destruct dl as [d |];
    try (destruct Hi as (_ & _ & Hclk); unfold instant_add; rewrite (proj2 (Z.leb_le _ _)) by done);
    cbn [mbind outcome_bind deadline decided is_none negb orb debug_assert armed];
    rewrite ?bool_decide_true by done; cbn [debug_assert mbind outcome_bind]; by rewrite ?Hchk'.
Qed.

Lemma decided_run c o inputs :
  decided c = Some o -> check_core c = Val tt -> Forall (input_ok cfg) inputs ->
  core_run c cfg inputs = Val (replicate (length inputs) o).
Proof.
  revert c. induction inputs as [| i inputs IH]; intros c Hc Hk Hi; [done |].
  apply Forall_cons in Hi as [Hi His]. cbn [core_run].
  destruct (decided_step c o i Hc Hk Hi) as (c' & -> & Hc' & Hk'). cbn [mbind outcome_bind].
  by rewrite (IH c').
Qed.

Lemma undecided_run d inputs :
  Forall (input_ok cfg) inputs -> core_run (mkCore None (Some d)) cfg inputs = Val (answers m cfg d inputs).
Proof.
  induction inputs as [| i inputs IH]; intros Hi; [done |]. apply Forall_cons in Hi as [Hi His].
  cbn [core_run answers]. destruct (undecided_step (mkCore None (Some d)) i eq_refl Hi) as (-> & Hk & Hv).
  cbn [mbind outcome_bind deadline_at deadline] in *.
  destruct (input_verdict m cfg d i) as [o |]; cbn [default from_option].
  - by rewrite (decided_run _ o).
  - assert (armed (mkCore None (Some d)) i = Some d) as -> by (by destruct i). by rewrite IH.
Qed.

End Table.

(** C6. The answers of the core to any inputs, over a table of validated names:
    it never fails an assertion; it asks to wait, always with the deadline
    that the first octets set, up to the first verdict (the octets seen in
    time decide it, or reach the bound, the deadline, a timeout or a close
    come first), and repeats that verdict on every later input. *)
Theorem preread_history m cfg inputs :
  names_refine (routes cfg) m -> accept_wildcard cfg = true -> Forall (input_ok cfg) inputs ->
  core_run core_new cfg inputs = Val (answers m cfg (first_deadline cfg inputs) inputs).
Proof.
  intros Hr Haw Hi. destruct inputs as [| i inputs]; [done |]. apply Forall_cons in Hi as [Hi His].
  cbn [core_run answers]. destruct (undecided_step m cfg Hr Haw core_new i eq_refl Hi) as (-> & Hk & Hv).
  cbn [mbind outcome_bind].
  assert (deadline_at cfg core_new i = first_deadline cfg (i :: inputs)) as Hd by (by destruct i).
  rewrite Hd in *. set (d := first_deadline cfg (i :: inputs)) in *.
  destruct (input_verdict m cfg d i) as [o |] eqn:E; cbn [default from_option].
  - by rewrite (decided_run cfg _ o).
  - assert (armed cfg core_new i = Some d) as -> by (by destruct i). by rewrite (undecided_run m).
Qed.

(** What stands before the ClientHello: on a listener that expects it, the
    PROXY header of a connection, with the source it carries. *)
Definition fronted (inbound : bool) (pre : list Z) (src : option SocketAddr) : Prop :=
  if inbound then
    exists cmd from to, socket_ok from /\ socket_ok to /\
      pre = wire cmd (family_of (addr_of from to)) (octets_of (addr_of from to)) /\
      src = match cmd with Local => None | Proxy => source (addr_of (on_wire from) (on_wire to)) end
  else pre = [] /\ src = None.

Lemma fronted_verdict m max pre src rest o :
  forall inbound, fronted inbound pre src -> content_verdict m (pre ++ rest) (length pre) src = Some o ->
  window_verdict m inbound max (pre ++ rest) = Some o.
Proof.
  intros [|] Hf Hc; unfold window_verdict.
  - destruct Hf as (cmd & from & to & Hfrom & Hto & Hpre & Hsrc).
    assert (Hlen : Z.of_nat (length (octets_of (addr_of from to))) < 65536).
    { rewrite octets_of_length by done. by destruct from, to. }
    assert (Hhd : parse_v2_header (pre ++ rest) = Val (rest, mkHeaderV2 cmd (family_of (addr_of from to))
      (match cmd with Local => AfUnspec | Proxy => addr_of (on_wire from) (on_wire to) end))).
    { rewrite Hpre, parse_v2_header_wire by done. by rewrite parse_addr_octets. }
    rewrite Hhd. cbn [addr]. replace (length (pre ++ rest) - length rest)%nat with (length pre)
      by (rewrite length_app; lia).
    replace (source _) with src by (rewrite Hsrc; by destruct cmd). by rewrite Hc.
  - destruct Hf as [-> ->]. cbn [length] in Hc. by rewrite Hc.
Qed.

(** C5. A ClientHello reaches the cluster of its server name: on a listener whose
    frontends were validated, the records of a well-formed ClientHello,
    however it is cut, behind the PROXY header the listener expects and before
    any octets, are routed at once, past that header and with the source it
    carries, to the cluster of the entry its ALPN offer selects among the
    entries of its name, or of the wildcard above it when the name has none. *)
Theorem hello_routed l a max h rs rest now pre src s pattern es matcher cluster :
  listener_refines l a -> fronted (expect_proxy (tl_config l)) pre src ->
  hello_ok h -> Forall record_ok rs -> concat rs.*2 = encode_handshake h ->
  let buf := pre ++ concat (encode_record <$> rs) ++ rest in
  bytes_ok buf -> Z.of_nat (length buf) < U32_MAX ->
  hello_sni h = Some s -> normalize_sni s <> [] ->
  serves (rl_routes a) (normalize_sni s) true = Some (pattern, es) ->
  chosen es (hello_alpn h) (matcher, cluster) ->
  0 < timeout (preread_config l max) -> now + timeout (preread_config l max) <= INSTANT_MAX ->
  exists c, handle_input core_new (preread_config l max) (Bytes buf now) =
    Val (c, Routed cluster (length pre) src (normalize_sni s) (hello_alpn h) pattern matcher).
Proof.
  intros Hl Hf Hh Hrs Hc buf Hb Hlen Hsni Hne Hs Hch Ht Hclk. destruct Hl as [_ _ Hr He _].
  set (cfg := preread_config l max) in *. set (o := Routed _ _ _ _ _ _ _).
  destruct (undecided_step (rl_routes a) cfg Hr eq_refl core_new (Bytes buf now) eq_refl) as (Hstep & _); [done |].
  enough (input_verdict (rl_routes a) cfg (deadline_at cfg core_new (Bytes buf now)) (Bytes buf now) = Some o) as Hv.
  { rewrite Hv in Hstep. eexists. exact Hstep. }
  cbn [input_verdict deadline_at deadline core_new]. rewrite (proj2 (Z.leb_gt _ _)) by lia.
  apply (fronted_verdict _ _ _ src); [done |]. unfold content_verdict. rewrite drop_app_length.
  rewrite (client_hello_wire h rs rest) by
    (done || (apply bytes_ok_app in Hb as [_ Hb]; exact Hb) || (subst buf; rewrite length_app in Hlen; lia)).
  unfold hello_verdict. rewrite Hsni. cbn [fmap option_fmap option_map].
  destruct (normalize_sni s) as [| b n] eqn:En; [done |]. rewrite <- En in *. rewrite Hs.
  destruct (served_pattern _ (nr_names _ _ Hr) _ _ _ Hne Hs) as (_ & _ & _ & Hes).
  rewrite (proj2 (resolve_chosen es (hello_alpn h) (matcher, cluster) (He _ _ Hes)) Hch).
  subst o. by rewrite <- En.
Qed.

(** ** The session that waits

    The events of a session, with the stream of the client: a read takes at
    most [n] octets, and no more than the room it was given. *)

Inductive session_event :=
| EvReadable (n : nat) (result : SocketResult.t) (now : Z)
| EvFrontHup
| EvTimeout (now : Z).

#[local] Instance socket_result_eq : EqDecision SocketResult.t.
Proof. solve_decision. Defined.
#[local] Instance session_event_eq : EqDecision session_event.
Proof. solve_decision. Defined.

Definition session_step (l : TcpListener) (s : SniPreread) (stream : list Z) (ev : session_event) :
    checked (SniPreread * list Z * SessionResult) :=
  match ev with
  | EvReadable n result now =>
      let taken := if is_routed s then 0%nat else Nat.min n (Nat.min (read_len s) (length stream)) in
      '(s, r) ← session_readable l s (take taken stream) result now;
      Val (s, drop taken stream, r)
  | EvFrontHup => '(s, r) ← session_front_hup l s; Val (s, stream, r)
  | EvTimeout now => '(s, _) ← session_timeout l s now; Val (s, stream, Close)
  end.

(** Until the session closes. *)
Fixpoint session_run (l : TcpListener) (s : SniPreread) (stream : list Z) (evs : list session_event) :
    checked (SniPreread * list Z * SessionResult) :=
  match evs with
  | [] => Val (s, stream, Continue)
  | ev :: evs =>
      '(s, stream, r) ← session_step l s stream ev;
      match r with Continue => session_run l s stream evs | _ => Val (s, stream, r) end
  end.

Definition outcome_output (r : RoutedOutcome) : Output :=
  Routed (ro_cluster r) (ro_content_offset r) (ro_proxy_source r) (ro_sni r) (ro_alpn r)
    (ro_matched_sni_pattern r) (ro_matched_alpn r).

Definition session_event_ok (l : TcpListener) (ev : session_event) : Prop :=
  match ev with
  | EvReadable _ _ now => now + timeout (preread_config l 0) <= INSTANT_MAX
  | _ => True
  end.

Section Session.
Context (l : TcpListener) (a : RefListener).
Hypothesis Hl : listener_refines l a.

(** The buffer holds what was received, within the bound; the core is decided
    when the session is routed, by what the buffer holds. *)
Record session_ok (s : SniPreread) (received : list Z) : Prop := {
  so_wf : FixedSpec.wf (sp_buffer s);
  so_pending : pending (sp_buffer s) = received;
  so_octets : bytes_ok received;
  so_bound : (length received <= sp_max_bytes s)%nat;
  so_max : Z.of_nat (sp_max_bytes s) < U32_MAX;
  so_core : decided (sp_core s) = outcome_output <$> outcome_of s;
  so_check : check_core (sp_core s) = Val tt;
  so_routed : forall r, outcome_of s = Some r -> received <> [] /\
    window_verdict (rl_routes a) (expect_proxy (tl_config l)) (sp_max_bytes s) received = Some (outcome_output r);
}.

(** What a step of a session that waits leaves: the same buffer, and a session
    that goes on well or closes. *)
Definition stepped (s : SniPreread) (received : list Z) (r : checked (SniPreread * SessionResult)) : Prop :=
  exists s' res, r = Val (s', res) /\ pending (sp_buffer s') = received /\ sp_max_bytes s' = sp_max_bytes s /\
    (res = Close \/ res = Continue /\ session_ok s' received).

Lemma handle_output_spec s received o c :
  session_ok s received -> outcome_of s = None -> is_need_more o = false ->
  decided c = Some o -> check_core c = Val tt ->
  (received <> [] -> window_verdict (rl_routes a) (expect_proxy (tl_config l)) (sp_max_bytes s) received = Some o) ->
  (forall r, o = outcome_output r -> received <> []) ->
  stepped s received (handle_output (with_core s c) o).
Proof.
  intros [Hw Hp Ho Hb Hm Hc Hk Hrt] Hnone Hno Hdec Hchk Hv Hne. destruct o as [| cl off src sni alpn pat mt | r]; [done | |].
  - cbn [handle_output with_core outcome_of]. rewrite Hnone. cbn [is_none debug_assert mbind outcome_bind].
    assert (Hrec : received <> []) by exact (Hne (mkRoutedOutcome cl off src sni alpn pat mt) eq_refl).
    eexists _, _. split; [done |]. split; [done |]. split; [done |]. right. split; [done |].
    split; cbn; try done. intros r [= <-]. split; [done |]. by apply Hv.
  - eexists _, Close. split; [done |]. split; [done |]. split; [done |]. by left.
Qed.

Lemma feed_spec s received input :
  session_ok s received -> outcome_of s = None ->
  input_ok (preread_config l (sp_max_bytes s)) input ->
  match input with Bytes buf _ => buf = received /\ received <> [] | _ => True end ->
  stepped s received (feed s (preread_config l (sp_max_bytes s)) input).
Proof.
  intros Hs Hnone Hi Hbuf. pose proof Hs as [Hw Hp Ho Hb Hm Hc Hk Hrt]. destruct Hl as [_ _ Hr He _].
  set (cfg := preread_config l (sp_max_bytes s)) in *. rewrite Hnone in Hc. cbn in Hc.
  destruct (undecided_step (rl_routes a) cfg Hr eq_refl (sp_core s) input Hc Hi) as (Hstep & Hchk & Hv).
  unfold feed. rewrite Hstep. cbn [mbind outcome_bind].
  set (d := deadline_at cfg (sp_core s) input) in *.
  destruct (input_verdict (rl_routes a) cfg d input) as [o |] eqn:E; cbn [default from_option].
  - destruct input as [buf now | now |]; cbn [input_verdict] in E.
    + destruct Hbuf as [-> Hne]. destruct (d <=? now).
      * injection E as <-. eexists _, Close. split; [done |]. split; [done |]. split; [done |]. by left.
      * by apply handle_output_spec; [.. | apply Hv | | | |].
    + injection E as <-. eexists _, Close. split; [done |]. split; [done |]. split; [done |]. by left.
    + injection E as <-. eexists _, Close. split; [done |]. split; [done |]. split; [done |]. by left.
  - eexists _, Continue. split; [done |]. split; [done |]. split; [done |]. right. split; [done |].
    split; cbn; try done; by rewrite Hnone.
Qed.

Lemma front_gone_spec s received :
  session_ok s received -> outcome_of s = None ->
  stepped s received (front_gone s (preread_config l (sp_max_bytes s))).
Proof.
  intros Hs Hnone. unfold front_gone. destruct (has_received_bytes s); [by apply feed_spec |].
  eexists _, Close. split; [done |]. split; [by apply so_pending in Hs |]. split; [done |]. by left.
Qed.

Lemma append_spec b received :
  FixedSpec.wf b -> (length received <= checkout_space b)%nat ->
  let b1 := mkBuffer (put_at (memory b) (end_ b) received) (position b) (end_ b) in
  FixedSpec.wf b1 /\ pending b1 = pending b /\
  exists b', @checkout_fill Empty_set b1 (length received) = Val (b', length received) /\ FixedSpec.wf b' /\
    pending b' = pending b ++ received.
Proof.
  intros Hw Hlen b1. pose proof Hw as [Hwin Hmem]. unfold checkout_space, checkout_capacity in Hlen.
  assert (Hput : length (memory b1) = length (memory b)) by (cbn; apply length_put_at; lia).
  assert (Hw1 : FixedSpec.wf b1) by (split; rewrite ?Hput; cbn; lia).
  assert (Hp1 : pending b1 = pending b) by (unfold pending; cbn; slice_eq).
  assert (Hroom : (length received <= Fixed.available_space b1)%nat)
    by (unfold Fixed.available_space, Fixed.capacity; rewrite Hput; cbn; lia).
  split; [done |]. split; [done |].
  destruct (FixedSpec.fill_spec b1 (length received) Hw1 Hroom) as (b' & Hf & Hw' & Hp' & _).
  exists b'. pose proof (fill_agrees (E := Empty_set) b1 (length received) Hw1 Hroom) as Ha. rewrite Hf in Ha.
  split; [exact Ha |]. split; [done |]. rewrite Hp', Hp1. f_equal. cbn [memory end_ b1]. unfold put_at.
  rewrite drop_app_length' by (rewrite length_take; lia). apply take_app_length.
Qed.

Lemma session_ok_front s received r :
  session_ok s received -> session_ok (with_front s r) received.
Proof. by intros []. Qed.

Lemma session_ok_buffer s received b received' :
  session_ok s received -> outcome_of s = None -> FixedSpec.wf b -> pending b = received' -> bytes_ok received' ->
  (length received' <= sp_max_bytes s)%nat -> session_ok (with_buffer s b) received'.
Proof. intros [] Hn ? ? ? ?. split; cbn; try done. by rewrite Hn. Qed.

Lemma readable_spec s received more result now :
  session_ok s received -> outcome_of s = None -> bytes_ok more -> (length more <= read_len s)%nat ->
  now + timeout (preread_config l 0) <= INSTANT_MAX ->
  stepped s (received ++ more) (session_readable l s more result now).
Proof.
  intros Hs Hnone Hmore Hlen Hclk. pose proof Hs as [Hw Hp Ho Hb Hm Hc Hk Hrt].
  assert (Hav : available_data (sp_buffer s) = length received) by (by rewrite <- Hp, FixedSpec.length_pending).
  unfold read_len in Hlen. rewrite Hav in Hlen.
  destruct (append_spec (sp_buffer s) more Hw ltac:(lia)) as (Hw1 & Hp1 & b' & Hfill & Hw' & Hp').
  set (b1 := mkBuffer _ _ _) in *. pose proof Hw as [Hwin _]. unfold checkout_space, checkout_capacity in Hlen.
  unfold session_readable, readable, is_routed. rewrite Hnone. cbn [is_none negb].
  rewrite debug_assert_true by (apply Nat.leb_le; unfold read_len, checkout_space, checkout_capacity; lia).
  cbn [mbind outcome_bind]. rewrite copy_from_slice_Val by lia. cbn [mbind outcome_bind]. cbv zeta.
  change (mkBuffer (put_at _ _ _) _ _) with b1. rewrite Hp in Hp1, Hp'.
  assert (Hs1 : session_ok (with_buffer s b1) received) by (by eapply session_ok_buffer).
  destruct (Nat.ltb_spec 0 (length more)) as [Hpos | Hz].
  - cbn [sp_buffer with_buffer]. rewrite Hfill. cbn [mbind outcome_bind].
    assert (Hd : available_data b' = (available_data b1 + length more)%nat)
      by (rewrite <- !FixedSpec.length_pending, Hp', Hp1, length_app by done; lia).
    rewrite debug_assert_true by (by apply Nat.eqb_eq). cbn [mbind outcome_bind].
    set (s2 := with_buffer _ b').
    assert (Hs2 : session_ok s2 (received ++ more)).
    { eapply session_ok_buffer; [exact Hs1 | done | done | done | by apply bytes_ok_app | rewrite length_app; cbn; lia]. }
    assert (Hfeed : forall s3, session_ok s3 (received ++ more) -> outcome_of s3 = None -> sp_buffer s3 = b' ->
      sp_max_bytes s3 = sp_max_bytes s ->
      stepped s (received ++ more) (window ← data (sp_buffer s3); feed s3 (preread_config l (sp_max_bytes s)) (Bytes window now))).
    { intros s3 H3 Hn3 Hb3 Hm3. unfold data. rewrite Hb3, slice_Val by apply Hw'. cbn [mbind outcome_bind].
      change (take _ _) with (pending b'). rewrite Hp', <- Hm3.
      destruct (feed_spec s3 (received ++ more) (Bytes (received ++ more) now) H3 Hn3) as (s4 & res & ? & ? & ? & ?).
      - split; [by apply bytes_ok_app |]. split; [destruct H3; lia | exact Hclk].
      - split; [done |]. intros [-> ->]%app_eq_nil. cbn in Hpos. lia.
      - exists s4, res. by rewrite <- Hm3. }
    destruct result; [by apply Hfeed | by apply Hfeed | by apply Hfeed; [apply session_ok_front | ..] |].
    exact (front_gone_spec s2 (received ++ more) Hs2 Hnone).
  - assert (more = []) as -> by (apply nil_length_inv; lia). rewrite app_nil_r.
    assert (Hgo : forall s3, session_ok s3 received -> sp_max_bytes s3 = sp_max_bytes s -> stepped s received (Val (s3, Continue))).
    { intros s3 H3 Hm3. eexists _, Continue. split; [done |]. split; [apply H3 |]. split; [done |]. by right. }
    destruct result; [by apply Hgo | exact (front_gone_spec _ received Hs1 Hnone) | |
      exact (front_gone_spec _ received Hs1 Hnone)].
    by apply Hgo; [apply session_ok_front |].
Qed.

(** A front close on a session that is routed is fed to the core again. *)
Lemma hup_routed s received :
  session_ok s received -> is_routed s = true -> session_front_hup l s = Panic.
Proof.
  intros [Hw Hp _ _ _ Hc Hk Hrt] Hr. unfold is_routed in Hr.
  destruct (outcome_of s) as [r |] eqn:Ho; [| done]. destruct (Hrt r eq_refl) as [Hne _].
  unfold session_front_hup, shell_on_front_closed, front_gone, has_received_bytes.
  rewrite <- FixedSpec.length_pending, Hp by done. destruct received as [| b received]; [done |].
  cbn [length Nat.ltb Nat.leb]. unfold feed.
  destruct (decided_step (preread_config l (sp_max_bytes s)) (sp_core s) (outcome_output r) FrontClosedInput Hc Hk I)
    as (c & -> & _). cbn [mbind outcome_bind handle_output outcome_output with_core outcome_of]. by rewrite Ho.
Qed.

Lemma session_step_spec s received stream ev :
  session_ok s received -> bytes_ok stream -> session_event_ok l ev -> ~ (ev = EvFrontHup /\ is_routed s = true) ->
  exists s' stream' received' r, session_step l s stream ev = Val (s', stream', r) /\
    pending (sp_buffer s') = received' /\ received ++ stream = received' ++ stream' /\
    sp_max_bytes s' = sp_max_bytes s /\ (length received' <= sp_max_bytes s)%nat /\
    (r = Close \/ r = Continue /\ session_ok s' received' /\ bytes_ok stream').
Proof.
  intros Hs Hst Hev Hhup. pose proof Hs as [Hw Hp Ho Hb Hm Hc Hk Hrt].
  destruct (is_routed s) eqn:Er; unfold is_routed in Er.
  - destruct ev as [n result now | | now]; [| by destruct Hhup |]; cbn [session_step];
      unfold session_readable, readable, session_timeout, is_routed; rewrite Er; cbn [mbind outcome_bind];
      eexists s, stream, received, _; (split; [done |]); (split; [done |]); (split; [done |]); (split; [done |]); auto.
  - assert (Hnone : outcome_of s = None) by (by destruct (outcome_of s)).
    destruct ev as [n result now | | now]; cbn [session_step].
    + unfold is_routed. rewrite Hnone. cbn [is_none negb]. set (k := Nat.min n _).
      assert (Hk' : (length (take k stream) <= read_len s)%nat) by (rewrite length_take; lia).
      destruct (readable_spec s received (take k stream) result now Hs Hnone) as (s' & r & -> & Hp' & Hm' & Hok);
        [by apply bytes_ok_take | done | done |]. cbn [mbind outcome_bind].
      exists s', (drop k stream), (received ++ take k stream), r. split; [done |]. split; [done |].
      rewrite <- app_assoc, take_drop. split; [done |]. split; [done |]. split.
      { rewrite length_app. unfold read_len in Hk'. rewrite <- (FixedSpec.length_pending _ Hw), Hp in Hk'. lia. }
      destruct Hok as [? | [? ?]]; [by left | right]. split; [done |]. split; [done |]. by apply bytes_ok_drop.
    + unfold session_front_hup, shell_on_front_closed.
      destruct (front_gone_spec s received Hs Hnone) as (s' & r & -> & Hp' & Hm' & _). cbn [mbind outcome_bind].
      exists s', stream, received, Close. auto 10.
    + unfold session_timeout, is_routed, shell_on_timeout. rewrite Hnone. cbn [is_none negb].
      destruct (feed_spec s received (Timeout now) Hs Hnone I I) as (s' & r & -> & Hp' & Hm' & _).
      cbn [mbind outcome_bind]. exists s', stream, received, Close. auto 10.
Qed.

Lemma session_run_spec s received stream evs :
  session_ok s received -> bytes_ok stream -> Forall (session_event_ok l) evs ->
  (exists s' stream' r, session_run l s stream evs = Val (s', stream', r) /\
     received ++ stream = pending (sp_buffer s') ++ stream' /\
     (length (pending (sp_buffer s')) <= sp_max_bytes s)%nat /\ sp_max_bytes s' = sp_max_bytes s /\
     (r = Continue -> session_ok s' (pending (sp_buffer s')))) \/
  (session_run l s stream evs = Panic /\
   exists before after s' stream', evs = before ++ EvFrontHup :: after /\
     session_run l s stream before = Val (s', stream', Continue) /\ is_routed s' = true).
Proof.
  revert s received stream. induction evs as [| ev evs IH]; intros s received stream Hs Hst Hev.
  { left. exists s, stream, Continue. pose proof (so_pending _ _ Hs) as Hp. pose proof (so_bound _ _ Hs).
    rewrite Hp. auto. }
  apply Forall_cons in Hev as [Hev Hevs].
  destruct (decide (ev = EvFrontHup /\ is_routed s = true)) as [[-> Hr] | Hhup].
  { right. split.
    - cbn [session_run session_step]. by rewrite (hup_routed s received).
    - by exists [], evs, s, stream. }
  destruct (session_step_spec s received stream ev Hs Hst Hev Hhup) as (s1 & st1 & rc1 & r & Hstep & Hp1 & Heq & Hm1 & Hb1 & Hr).
  cbn [session_run]. rewrite Hstep. cbn [mbind outcome_bind]. destruct Hr as [-> | (-> & Hs1 & Hst1)].
  { left. exists s1, st1, Close. by rewrite Hp1. }
  destruct (IH s1 rc1 st1 Hs1 Hst1 Hevs) as [(s' & st' & r & -> & Heq' & Hb' & Hm' & Hok) | (-> & b & af & s' & st' & -> & Hrun & Hr)].
  - left. exists s', st', r. rewrite Heq, Heq', <- Hm1. split; [done |]. split; [done |]. split; [done |]. split; [congruence | done].
  - right. split; [done |]. exists (ev :: b), af, s', st'. split; [done |]. split; [| done].
    cbn [session_run]. by rewrite Hstep.
Qed.

End Session.

Lemma session_new_ok l a mem max :
  Z.of_nat (length mem) < 2 ^ 63 -> Z.of_nat max < U32_MAX ->
  session_ok l a (sni_preread_new (checkout_of mem) max) [].
Proof. intros. split; cbn; try done; try lia. split; cbn; lia. constructor. Qed.

(** C7. A session that waits for its ClientHello loses no octet and reads no more
    than its bound: whatever the client sends and however the reads, the
    timeouts and the close of the client come, the octets kept in the buffer
    followed by those not read yet are the octets sent, the buffer never holds
    more than the bound, and a session that is routed was routed by exactly
    the octets it holds.  The one way an assertion fails is a close of the
    client on a session that is routed and still waits for its backend. *)
Theorem session_keeps_bytes l a mem configured stream evs :
  listener_refines l a -> Z.of_nat (length mem) < 2 ^ 63 ->
  let max := effective_sni_preread_max_bytes configured (length mem) in
  Z.of_nat max < U32_MAX -> bytes_ok stream -> Forall (session_event_ok l) evs ->
  let start := sni_preread_new (checkout_of mem) max in
  (exists s rest r, session_run l start stream evs = Val (s, rest, r) /\
     stream = pending (sp_buffer s) ++ rest /\ (length (pending (sp_buffer s)) <= max)%nat /\
     (r = Continue -> forall o, outcome_of s = Some o ->
        window_verdict (rl_routes a) (expect_proxy (tl_config l)) max (pending (sp_buffer s)) =
        Some (outcome_output o))) \/
  (session_run l start stream evs = Panic /\
   exists before after s rest, evs = before ++ EvFrontHup :: after /\
     session_run l start stream before = Val (s, rest, Continue) /\ is_routed s = true).
Proof.
  intros Hl Hmem max Hmax Hst Hev start. pose proof (session_new_ok l a mem max Hmem Hmax) as Hs.
  destruct (session_run_spec l a Hl start [] stream evs Hs Hst Hev) as [(s & rest & r & Hrun & Heq & Hb & Hm & Hok) | H];
    [left | by right].
  exists s, rest, r. split; [done |]. split; [done |]. split; [done |]. intros Hr o Ho.
  destruct (so_routed _ _ _ _ (Hok Hr) o Ho) as [_ Hv]. by rewrite Hm in Hv.
Qed.

End Core.

(** ** Examples *)

#[local] Existing Instance simple_regex.
#[local] Existing Instance simple_regex_laws.
#[local] Existing Instance simple_streaming.
#[local] Existing Instance simple_streaming_laws.

Definition preread_address : SocketAddr := V4 (mkSocketAddrV4 [127; 0; 0; 1] 8443).

(** A listener with one name, for HTTP/2 only, added as a frontend. *)
Definition preread_listener : TcpListener :=
  match insert_sni_route (TcpListener_new (mkTcpListenerConfig false None None) preread_address 7)
          (bstr "*.com") [bstr "h2"] (bstr "grpc") with
  | Val (l, _) => l
  | _ => TcpListener_new (mkTcpListenerConfig false None None) preread_address 7
  end.

Definition preread_ref : RefListener :=
  mkRefListener preread_address None {[ bstr "*.com" := [(OneOf {[ bstr "h2" ]}, bstr "grpc")] ]}.

Lemma preread_key : sni_key (bstr "*.com").
Proof.
  right. exists (bstr "com"). split; [done |]. unfold plain_host.
  repeat (split; [first [done | by apply (bool_decide_unpack _); vm_compute] |]). done.
Qed.

Lemma preread_refines : listener_refines preread_listener preread_ref.
Proof.
  destruct (insert_route_spec (TcpListener_new (mkTcpListenerConfig false None None) preread_address 7)
    (mkRefListener preread_address None ∅) (bstr "*.com") [bstr "h2"] (bstr "grpc")) as (l' & E & Hl');
    [apply fresh_refines | done | exact preread_key | done |].
  unfold preread_listener. rewrite E.
  assert (Hset : (list_to_set [bstr "h2"] : gset (list Z)) = {[ bstr "h2" ]}) by (by apply (bool_decide_unpack _); vm_compute).
  replace preread_ref with (mkRefListener preread_address None
    (<[bstr "*.com" := [(OneOf (list_to_set [bstr "h2"]), bstr "grpc")]]> ∅)); [exact Hl' |].
  rewrite Hset. done.
Qed.

Lemma preread_history_witness :
  core_run core_new (preread_config preread_listener 400)
    [Bytes (take 40 example_wire) 0; Bytes example_wire 1; Timeout 2] =
  Val [NeedMore 5000000000;
       Routed (bstr "grpc") 0 None (bstr "example.com") [bstr "h2"; bstr "http/1.1"] (bstr "*.com") (OneOf {[ bstr "h2" ]});
       Routed (bstr "grpc") 0 None (bstr "example.com") [bstr "h2"; bstr "http/1.1"] (bstr "*.com") (OneOf {[ bstr "h2" ]})].
Proof.
  rewrite (preread_history (rl_routes preread_ref) (preread_config preread_listener 400)).
  - vm_compute. reflexivity.
  - exact (lr_routes _ _ preread_refines).
  - reflexivity.
  - repeat constructor; try (by vm_compute); unfold bytes_ok; apply (bool_decide_unpack _); by vm_compute.
Defined.

Lemma hello_routed_witness :
  exists c, handle_input core_new (preread_config preread_listener 400) (Bytes example_wire 1) =
    Val (c, Routed (bstr "grpc") 0 None (bstr "example.com") [bstr "h2"; bstr "http/1.1"] (bstr "*.com")
              (OneOf {[ bstr "h2" ]})).
Proof.
  rewrite <- (app_nil_r example_wire).
  apply (hello_routed preread_listener preread_ref 400 example_hello example_records [] 1 [] None (bstr "Example.com")
    (bstr "*.com") [(OneOf {[ bstr "h2" ]}, bstr "grpc")] (OneOf {[ bstr "h2" ]}) (bstr "grpc")).
  - exact preread_refines.
  - by vm_compute.
  - exact example_hello_ok.
  - repeat constructor; by vm_compute.
  - by vm_compute.
  - unfold bytes_ok. apply (bool_decide_unpack _). by vm_compute.
  - by vm_compute.
  - by vm_compute.
  - by vm_compute.
  - by vm_compute.
  - split; [left |]. left. exists [], (bstr "h2"), [bstr "http/1.1"]. split; [done |]. split; [by vm_compute |].
    by intros ? ? ?%not_elem_of_nil.
  - by vm_compute.
  - by vm_compute.
Defined.

Definition preread_start : SniPreread :=
  sni_preread_new (checkout_of (replicate 400 0))
    (effective_sni_preread_max_bytes None (length (replicate 400 0))).

Lemma session_keeps_bytes_witness :
  exists s rest r,
    session_run preread_listener preread_start (example_wire ++ [9; 9])
      [EvReadable 50 SocketResult.WouldBlock 0; EvReadable 400 SocketResult.Continue 1] = Val (s, rest, r) /\
    example_wire ++ [9; 9] = pending (sp_buffer s) ++ rest.
Proof.
  destruct (session_keeps_bytes preread_listener preread_ref (replicate 400 0) None (example_wire ++ [9; 9])
    [EvReadable 50 SocketResult.WouldBlock 0; EvReadable 400 SocketResult.Continue 1])
    as [(s & rest & r & Hrun & Heq & _) | [_ (before & after & s & rest & Hev & _)]].
  - exact preread_refines.
  - by vm_compute.
  - by vm_compute.
  - unfold bytes_ok. apply (bool_decide_unpack _). by vm_compute.
  - repeat constructor; by vm_compute.
  - exists s, rest, r. split; [exact Hrun | exact Heq].
  - exfalso. destruct before as [| ? [| ? [| ? ?]]]; discriminate Hev.
Defined.

(** C36. A client that closes while its routed session still waits for a backend
    makes the session handle the routing verdict a second time: the session
    was routed, a timeout in the same state is harmless, and the close fails
    the assertion that a route is captured once. *)
Example hup_after_route :
  match session_run preread_listener preread_start example_wire [EvReadable 400 SocketResult.Continue 1] with
  | Val (s, _, r) =>
      r = Continue /\ ro_cluster <$> outcome_of s = Some (bstr "grpc") /\
      session_timeout preread_listener s 2 = Val (s, true) /\
      session_front_hup preread_listener s = Panic
  | _ => False
  end.
Proof. vm_compute. done. Qed.
